(* ===== verification/_CoqProject ===== *)
-Q . S2P
Prelude.v
Heap.v
Model.v
ModelFacts.v
Merge.v
MergeFacts.v
ResolveFacts.v
MergeLaws.v
Convergence.v
Memberlist.v
MemberlistKV.v
MemberlistFacts.v
RingValue.v
Watch.v
GossipFacts.v
PushPull.v
Ring.v
RingFacts.v
GetFacts.v
QuorumFacts.v
Shuffle.v
ShuffleFacts.v
ShuffleCache.v
Replication.v
Batch.v
BatchFacts.v
TokensFile.v
KV.v
Lifecycler.v
LifecyclerFacts.v
Services.v
ServicesFacts.v
Manager.v
Modules.v
ModulesFacts.v
BasicLifecycler.v
BasicLifecyclerFacts.v
CASLoop.v
Consul.v
ConsulFacts.v
ConsulWatch.v
KVClient.v
MemberlistClient.v
ConsulClient.v
Multi.v
Etcd.v
TCPTransport.v
Backoff.v
RingUtil.v
Pool.v
RuntimeConfig.v
Runner.v
RateLimiter.v
DNSResolver.v
ModuleService.v
MemberlistNode.v
WatchPrefix.v
GoStrings.v
HTTP.v
KVInit.v
KVPage.v
RingHTTP.v
KVFactory.v
Calendar.v
Flags.v
GRPCClient.v
Snappy.v
MemberlistLogger.v
FlagSet.v
Actor.v
ServiceUtil.v
Startup.v
RunUtil.v
ReadWrite.v
ShuffleConsistency.v
EndToEnd.v
SpanLogger.v
Metrics.v
Closing.v
Detector.v
