(* ===== verification/Prelude.v ===== *)
(** * dskit: a verified model of its distributed-systems components

    dskit is a library of Go packages from which clustered services are built: a
    hash ring of instances ([src/ring]), key-value stores that share the ring
    between the nodes ([src/kv]), services with a life cycle ([src/services]) and
    the modules of a process ([src/modules]).  This development translates those
    packages into executable definitions and proves what makes them correct.

    ** How the program fits together

    An instance is registered in the ring by a [Lifecycler] or a
    [BasicLifecycler], which edit the ring with the [CAS] of a key-value client.
    The client is that of Consul, of etcd, or of the gossiped store of
    [kv/memberlist], possibly behind a prefix or behind the multi client that
    mirrors writes.  With gossip, concurrent edits meet in [Desc.Merge].  A
    [Ring] watches the key, keeps tables of tokens, and answers which instances
    hold a key; [DoBatch] and [ReplicationSet.Do] then talk to these instances.
    All of them run as services, started by the module manager and supervised by
    the service manager.

    ** What each file models

    - [Prelude]: this file.  Results of fallible functions, machine integers,
      [time.Time], sorting, the order of map ranges, and the lemmas on them.
    - [Heap]: [container/heap] of Go.
    - [Model], [ModelFacts]: the data of the ring, [ring/model.go],
      [ring/tokens.go].
    - [Merge], [MergeFacts], [ResolveFacts], [MergeLaws]: [Desc.Merge] and the
      resolution of token conflicts, [ring/model.go].
    - [Convergence]: networks of nodes that merge each other's rings.
    - [Memberlist], [MemberlistKV], [MemberlistFacts], [RingValue], [Watch],
      [GossipFacts], [PushPull]: the gossiped store,
      [kv/memberlist/memberlist_client.go], [mergeable.go], [broadcast.go].
    - [Ring], [RingFacts], [GetFacts], [QuorumFacts]: the client of the ring,
      [ring/ring.go], [ring/replication_strategy.go], [ring/util.go].
    - [Shuffle], [ShuffleFacts], [ShuffleCache], [ShuffleConsistency]: shuffle
      sharding, [ring/ring.go], [ring/shard/shard.go].
    - [Replication]: [ring/replication_set.go],
      [ring/replication_set_tracker.go].
    - [Batch], [BatchFacts]: [ring/batch.go].
    - [TokensFile]: tokens on disk and fresh tokens, [ring/tokens.go],
      [ring/util.go].
    - [KV], [CASLoop]: the contract of [CAS] ([kv/client.go]) and the optimistic
      loop that implements it in two clients; codecs ([kv/codec]).
    - [Consul], [ConsulFacts], [ConsulWatch], [ConsulClient]: [kv/consul].
    - [Etcd]: [kv/etcd].
    - [KVClient], [MemberlistClient], [Multi]: the interface of clients,
      [kv/prefix.go], the client of the gossiped store, [kv/multi.go].
    - [Lifecycler], [LifecyclerFacts]: [ring/lifecycler.go], [ring/flush.go].
    - [BasicLifecycler], [BasicLifecyclerFacts]: [ring/basic_lifecycler.go] and
      its delegates.
    - [Services], [ServicesFacts]: [services/basic_service.go],
      [services/services.go].
    - [Manager]: [services/manager.go].
    - [Modules], [ModulesFacts]: [modules/modules.go].
    - [ModuleService]: the services that wait for one
      another, [modules/module_service.go], [modules/module_service_wrapper.go].
    - [TCPTransport]: packets between the nodes of the
      gossiped store, [kv/memberlist/tcp_transport.go].
    - [Backoff]: [backoff/backoff.go].
    - [RingUtil]: addresses and the waiting loops of [ring/util.go].
    - [Pool]: the pool of clients, [ring/client/pool.go].
    - [RuntimeConfig]: [runtimeconfig/manager.go].
    - [Runner]: [concurrency/runner.go], [multierror].
    - [RateLimiter]: [limiter/rate_limiter.go].
    - [DNSResolver]: [grpcutil/dns_resolver.go],
      [grpcutil/naming.go].
    - [MemberlistNode]: starting, joining and leaving of a
      node of the gossiped store, [kv/memberlist/memberlist_client.go];
      [WatchPrefix]: its watches of prefixes.
    - [KVInit]: the service that makes the node when it is first
      asked for, [kv/memberlist/kv_init_service.go], with
      [services/failure_watcher.go]; [KVPage]: its HTTP page.
    - [RingHTTP]: the page of the ring, [ring/http.go].
    - [KVFactory]: the construction of clients, [kv/client.go], with
      [kv/metrics.go] and [kv/mock.go].
    - [Flags]: the values of flags, [flagext]; [Calendar]: the layouts of [time]
      they use.  [GoStrings], [HTTP]: the parts of [strings], [strconv] and
      [net/http] that the code uses.
    - [FlagSet]: registration of the flags of every
      configuration, [flagext/register.go].
    - [GRPCClient]: connections, retries and limits of gRPC clients, [grpcclient],
      [crypto/tls], [middleware/grpc.go]; [Snappy]: pooled compressors,
      [grpcencoding/snappy].
    - [MemberlistLogger]: log lines of the gossip library.
    - [Actor]: calls into the loop of a lifecycler, [ring/lifecycler.go],
      [ring/basic_lifecycler.go]; [Startup]: construction of rings and
      lifecyclers.
    - [ReadWrite], [EndToEnd]: a write by [DoBatch] followed by a read with
      [Do], over the same ring or two shards of a tenant: who acknowledges, and who is read.
    - [Detector]: heartbeats in the gossiped store, and what ring clients take for
      healthy.
    - [SpanLogger]: [spanlogger].  [Metrics]: the metrics every constructor
      registers, [kv/memberlist/metrics.go], [ring/lifecycler_metrics.go],
      [kv/metrics.go] and others, and the gauges.
    - [Closing]: how background goroutines end: [Shutdown] of the transport, the
      loop of the in-memory Consul, the watches of the in-memory etcd.
    - [ServiceUtil]: groups of services and [grpcutil/health_check.go];
      [RunUtil]: [runutil], [concurrency/buffer.go], the proto codec, and what the
      Consul and etcd clients put around their libraries.
    A definition has the name of the function it translates; where several
    clients have a function of the same name it is prefixed ([consul_Get],
    [multi_CAS]).  A struct is a [Record], a map a [gmap], a function that changes
    its receiver returns the new one.  What is done under one lock is one step;
    code that releases a lock half way, sends on channels or starts goroutines is
    split into steps, and the theorems quantify over their interleavings.

    ** Interfaces

    What one part relies on in another is a class, with its laws where clients
    need them:
    - [MapRange] (here): the order in which a [range] over a map visits it; every
      loop over a map names its site, and the theorems hold for all orders.
    - [MergeableOps]/[MergeableLaws] ([Memberlist], [RingValue]): the contract of
      [memberlist.Mergeable], discharged by [Desc].
    - [ReadRing]/[ReadRingLaws] ([Batch]): what [DoBatch] asks of a ring.
    - [VersionedStore]/[VersionedLaws] ([CASLoop]): a store with versions, whose
      laws make the loop atomic, discharged by Consul, its mock and the mock of
      etcd.
    - [KVClient]/[KVLaws] ([KVClient]): the interface of clients, discharged by the
      Consul client, by the client of the gossiped store, and by a prefixed client of
      any client.  After a CAS the store holds the value that was written: a client
      says what that means, for Consul that it has replaced the one before, for the
      gossiped store that it was merged into it.
    - [RandSource], [TokensJSON], [Codec], [KVPairMarshal]: pseudo-random numbers
      and MD5, the JSON encoder, the codecs and generated protobuf code.  They are
      not defined here: a theorem states the law it needs (a round trip, a stream
      being a function of the seed), and its witness has an instance.

    ** What the theorems show

    - The ring as a replicated value: [Merge_invariant], [Merge_commutative],
      [Merge_associative], [Merge_monotone], [Merge_change_exact],
      [resolveConflicts_correct] ([MergeLaws]), [gossip_converges] ([Convergence]):
      nodes that exchange their rings converge, forget nobody, and each token has
      one owner.  Convergence of the tokens needs that no two names claim one
      ([Merge_not_associative]); without it the rings agree up to tokens.
    - The gossiped store: [mergeValueForKey_contract], [CAS_success],
      [CAS_failure], [WatchKey_no_lost_update], [push_pull_roundtrip].  A CAS is
      atomic when its key had a version; [first_write_race] is the first write.
    - The ring client: [updateRingState_ok] (the tables agree with the instances),
      [Get_spec], [quorum_intersection], [GetReplicationSet_covers_quorum] (reads
      meet writes), [shuffleShard_monotone], [shuffleShard_size],
      [ShuffleShard_cache_transparent], and what two rings' shards share:
      [lookback_covers_the_past], [one_instance_one_difference], with the rings for
      which the comments promise too much.
    - Reads and writes together: [acknowledged_write_is_read] ([EndToEnd]): what
      [DoBatch] has reported as written is met by a read of the same ring, under any
      interleaving; [two_leaving_replicas] shows its bound is tight;
      [acknowledged_write_is_read_in_shard]: the same through the shard of a tenant,
      when the ring has grown between the write and the read.
    - Gossip and the ring client together: [failure_detector] ([Detector]): while any
      CAS changes and removes entries, nodes see the instances that beat, in a state
      the operation takes for healthy, as healthy, and those that have stopped not.
    - Requests: [Do_decides], [DoBatch_signals]: no wait for ever, right verdict.
    - Registration: [autoJoin_correct], [verifyTokens_correct],
      [lifecycle_transitions], [CheckReady_latches], [heartbeat_forgets],
      [starting_stable], [stopping_final_state].
    - Stores: [consul_cas_refines], [etcd_cas_refines] (the loops implement the
      contract of [KV.CAS] and are atomic), [consul_watch_no_lost_update],
      [consul_client_correct], [memberlist_client_laws], [PrefixClient_correct],
      [multi_CAS_correct].
    - Processes: [service_contract], [manager_correct],
      [InitModuleServices_order].
    - Modules at run time: [modules_order], [modules_stop] ([ModuleService]), over the
      wrappers that [InitModuleServices] makes; [dependants_through_others_missed] and
      [inverse_dependencies_missed] ([ModulesFacts]) are what stopping does not wait for.
    - Around the ring: [packet_delivery], [delays_bounds], [retry_loop_turns],
      [waitStability_stable], [WaitInstanceState_spec], [pool_lifecycle],
      [config_manager_correct], [ForEachUser_correct], [ForEach_correct],
      [one_limiter_per_tenant], [dns_updates_add_up].
    - Around the gossiped store: [node_running_correct] (joining ends),
      [WatchPrefix_no_lost_update], [kvinit_correct] and [kvinit_stops] (one node,
      stopped with the service), [page_viewMsg], [page_downloadKey].
    - [ring_page_correct] (what the instances own adds up to the whole ring),
      [NewClient_correct], [Time_roundtrip], [lifecyclers_register] (which
      configurations can be registered together).
    - [transport_shutdown], [mock_requests], [etcd_watches_end] ([Closing]): what
      ends, and who is left waiting; [metrics_register]: metrics of several
      components do not collide.
    - [actor_correct]: a lifecycler is changed by one caller at a time, and no
      caller is left waiting.  [health_check_correct]: what a process answers while
      its services start and stop.
    - [grpc_call_correct] (retries return the right answer, and end if their number is
      limited or the refusals end),
      [pool_transparent] (pooled compressors do not mix up streams),
      [library_line_logged].
    - What is wrong or says otherwise in a comment is a lemma too, named in the
      findings of the manifest.
    ** Fuel and bounds

    Loops are folds wherever the code ranges over a finite list.  [down] and [up]
    of [Heap] take the length of the heap as fuel, which bounds the depth of the
    tree; [MergeTokens] takes one step per token.  [Get] and [shuffleShard] walk
    the ring at most once round, as the code counts.  [listDeps] and [orderedDeps]
    of [Modules] do not terminate on cyclic modules: [InitModuleServices_order]
    gives the fuel that is enough without a cycle.  [GenerateTokens] and the CAS
    loops read what their environment does (random draws, other clients) from a
    list, and a run is [None] when the list is too short; the theorems give the
    length that is enough or bound the attempts.  Token arithmetic wraps at 32
    bits and the versions of the stores at 64 where the code's do.

    ** Not modelled

    Generated code ([*.pb.go]); log lines and the values of counters, except where a
    file says so; the hashicorp, Consul, etcd, gRPC and Prometheus libraries and the
    handshakes of TLS; the HTML of the pages; time passes only as the values the
    clock returns.
    The sink of the gossip library's own metrics is only created and its errors
    logged.  Test helpers and the closures that forward [WatchKey] and
    [WatchPrefix] are left out.  The rules of the civil calendar are those of
    [time]; percentages, which are floats, are left as the integers they are made
    of.
    The notes of the manifest say for every component what is left out. *)
From Stdlib Require Import ZArith Lia.
From stdpp Require Import base gmap strings list sorting fin_maps relations.

Open Scope Z_scope.

(** ** Results of fallible Go functions

    A Go function returning [(x, err)] becomes a function into [result E A]:
    [Ok x] is the [nil] error, [Err e] a non-nil one. *)
Inductive result (E A : Type) : Type :=
| Ok (a : A)
| Err (e : E).
Arguments Ok {E A} a.
Arguments Err {E A} e.

#[export] Instance result_ret E : MRet (result E) := λ A a, Ok a.
#[export] Instance result_bind E : MBind (result E) :=
  λ A B f m, match m with Ok a => f a | Err e => Err e end.

Definition is_Ok {E A} (r : result E A) : bool :=
  match r with Ok _ => true | Err _ => false end.

(** ** Machine integers and [time.Time]

    [uint32] values are integers in [0, 2^32); the operations that can wrap
    write the reduction out.  A [time.Time] is its number of nanoseconds since
    the Unix epoch and a [time.Duration] a number of nanoseconds; [Sub]
    saturates at the bounds of [int64], as the Go library documents. *)
Definition MaxUint32 : Z := 2 ^ 32 - 1.
Definition u32 (z : Z) : Z := z mod 2 ^ 32.
Definition i32 (z : Z) : Z := (z + 2 ^ 31) mod 2 ^ 32 - 2 ^ 31.
Definition i64 (z : Z) : Z := (z + 2 ^ 63) mod 2 ^ 64 - 2 ^ 63.
Definition minDuration : Z := - 2 ^ 63.
Definition maxDuration : Z := 2 ^ 63 - 1.

Definition Second : Z := 1000000000.
Definition Millisecond : Z := 1000000.
(** the zero [time.Time]: January 1, year 1, 00:00:00 UTC *)
Definition zeroTime : Z := -62135596800 * Second.
Definition time_IsZero (t : Z) : bool := bool_decide (t = zeroTime).
Definition time_Unix (t : Z) : Z := t / Second.
Definition time_of_Unix (s : Z) : Z := s * Second.
Definition time_Sub (t u : Z) : Z := Z.max minDuration (Z.min maxDuration (t - u)).
Definition time_Before (t u : Z) : bool := bool_decide (t < u).

Lemma i32_id z : - 2 ^ 31 ≤ z < 2 ^ 31 → i32 z = z.
Proof. intros Hz. unfold i32. rewrite Z.mod_small; lia. Qed.

Lemma i64_small z : - 2 ^ 63 ≤ z < 2 ^ 63 → i64 z = z.
Proof. intros Hz. unfold i64. rewrite Z.mod_small; lia. Qed.

Lemma time_Unix_of_Unix s : time_Unix (time_of_Unix s) = s.
Proof. apply Z.div_mul. discriminate. Qed.

#[export] Instance byte_eq_decision : EqDecision Byte.byte := Byte.byte_eq_dec.

(** ** Sorting: [sort.Sort], [sort.IsSorted], [sort.Strings]

    On integers and strings the sorted permutation of a list is unique, so any
    correct sorting algorithm computes [merge_sort]. *)
Definition sort_tokens : list Z → list Z := merge_sort Z.le.
Definition sort_Strings : list string → list string := merge_sort String.le.

Fixpoint IsSorted (l : list Z) : bool :=
  match l with
  | [] => true
  | x :: l' =>
      match l' with
      | [] => true
      | y :: _ => negb (bool_decide (y < x)) && IsSorted l'
      end
  end.

#[export] Instance Zle_total : Total Z.le.
Proof. intros x y. lia. Qed.
#[export] Instance Zlt_antisymm : AntiSymm (=) Z.lt.
Proof. intros x y. lia. Qed.
#[export] Instance Zlt_transitive : Transitive Z.lt.
Proof. intros x y z. lia. Qed.

Lemma sort_tokens_perm l : sort_tokens l ≡ₚ l.
Proof. apply merge_sort_Permutation. Qed.
Lemma sort_tokens_sorted l : StronglySorted Z.le (sort_tokens l).
Proof. apply StronglySorted_merge_sort; apply _. Qed.
Lemma sort_tokens_elem l t : t ∈ sort_tokens l ↔ t ∈ l.
Proof. by rewrite sort_tokens_perm. Qed.
Lemma length_sort_tokens l : length (sort_tokens l) = length l.
Proof. apply Permutation_length, sort_tokens_perm. Qed.
Lemma sort_tokens_NoDup l : NoDup l → NoDup (sort_tokens l).
Proof. by rewrite sort_tokens_perm. Qed.

Lemma IsSorted_spec l : IsSorted l = true ↔ Sorted Z.le l.
Proof.
  induction l as [|x [|y l] IH].
  - split; [constructor | done].
  - split; [repeat constructor | done].
  - change (negb (bool_decide (y < x)) && IsSorted (y :: l) = true
            ↔ Sorted Z.le (x :: y :: l)).
    rewrite andb_true_iff, IH, negb_true_iff, bool_decide_eq_false. split.
    + intros [Hxy Hs]. constructor; [done|]. constructor. lia.
    + inversion_clear 1 as [|? ? Hs Hhd]. inversion_clear Hhd. split; [lia|done].
Qed.

Lemma sorted_perm_unique (l1 l2 : list Z) :
  StronglySorted Z.le l1 → StronglySorted Z.le l2 → l1 ≡ₚ l2 → l1 = l2.
Proof. apply (StronglySorted_unique Z.le). Qed.

Lemma sort_tokens_id l : StronglySorted Z.le l → sort_tokens l = l.
Proof.
  intros Hs. apply sorted_perm_unique; auto using sort_tokens_sorted.
  apply sort_tokens_perm.
Qed.

Lemma sort_tokens_proper l1 l2 : l1 ≡ₚ l2 → sort_tokens l1 = sort_tokens l2.
Proof.
  intros Hp. apply sorted_perm_unique; auto using sort_tokens_sorted.
  by rewrite !sort_tokens_perm.
Qed.

#[export] Instance sort_tokens_Proper : Proper ((≡ₚ) ==> (=)) sort_tokens.
Proof. intros l1 l2. apply sort_tokens_proper. Qed.

(** [if !sort.IsSorted(l) { sort.Sort(l) }] is [sort.Sort(l)] *)
Lemma sort_if_needed l : (if IsSorted l then l else sort_tokens l) = sort_tokens l.
Proof.
  destruct (IsSorted l) eqn:E; [|done].
  apply IsSorted_spec, (Sorted_StronglySorted Z.le) in E. by rewrite sort_tokens_id.
Qed.

(** *** Strictly sorted lists: sorted and without duplicates *)
Abbreviation SSorted := (StronglySorted Z.lt).

Lemma SSorted_NoDup l : SSorted l → NoDup l.
Proof.
  induction 1 as [|x l Hs IH Hx]; constructor; [|done].
  intros Hin. rewrite Forall_forall in Hx. specialize (Hx x Hin). lia.
Qed.

Lemma SSorted_le l : SSorted l → StronglySorted Z.le l.
Proof.
  induction 1 as [|x l Hs IH Hx]; constructor; [done|].
  eapply Forall_impl; [exact Hx|]. simpl. lia.
Qed.

Lemma SSorted_of_le l : StronglySorted Z.le l → NoDup l → SSorted l.
Proof.
  induction 1 as [|x l Hs IH Hx]; intros Hnd; constructor; inversion_clear Hnd; auto.
  rewrite Forall_forall in Hx |- *. intros y Hy. specialize (Hx y Hy).
  assert (x ≠ y) by congruence. lia.
Qed.

Lemma SSorted_ext l1 l2 :
  SSorted l1 → SSorted l2 → (∀ t, t ∈ l1 ↔ t ∈ l2) → l1 = l2.
Proof.
  intros H1 H2 He. apply sorted_perm_unique; auto using SSorted_le.
  apply NoDup_Permutation; auto using SSorted_NoDup.
Qed.

Lemma SSorted_sort l : NoDup l → SSorted (sort_tokens l).
Proof.
  intros Hnd. apply SSorted_of_le; auto using sort_tokens_sorted, sort_tokens_NoDup.
Qed.

Lemma StronglySorted_filter {A} (R : relation A) (P : A → Prop) `{!∀ x, Decision (P x)} l :
  StronglySorted R l → StronglySorted R (filter P l).
Proof.
  induction 1 as [|x l Hs IH Hx]; [constructor|].
  rewrite filter_cons. case_decide; [|done]. constructor; [done|].
  rewrite Forall_forall in Hx |- *. intros y [_ Hy]%list_elem_of_filter. by apply Hx.
Qed.

(** ** Ranging over a Go map

    [for k, v := range m] visits every entry once, in an order the language
    leaves open.  [map_range site m] is the sequence visited by the loop
    written at [site] (the line of the loop); a theorem that quantifies over
    the instance holds whatever order the runtime picks. *)
Class MapRange := {
  map_range : ∀ {K V : Type} `{Countable K}, nat → gmap K V → list (K * V);
  map_range_perm : ∀ {K V : Type} `{Countable K} site (m : gmap K V),
    map_range site m ≡ₚ map_to_list m
}.

(** the instance that evaluates: the order of the map's own representation *)
Definition map_range_std : MapRange := {|
  map_range K V _ _ _ m := map_to_list m;
  map_range_perm K V _ _ _ m := reflexivity (map_to_list m)
|}.

(** another order, used by witnesses to show that a result does not depend on it *)
Definition map_range_rev : MapRange := {|
  map_range K V _ _ _ m := reverse (map_to_list m);
  map_range_perm K V _ _ _ m := reverse_Permutation (map_to_list m)
|}.

Lemma NoDup_submseteq_sub {A} (l l' : list A) : l ⊆+ l' → NoDup l' → NoDup l.
Proof. intros [k ->]%submseteq_Permutation Hnd. by apply NoDup_app in Hnd as [? _]. Qed.

Section map_range.
Context `{R : MapRange} {K V : Type} `{Countable K}.
Implicit Types m : gmap K V.

Lemma map_range_elem site m k v : (k, v) ∈ map_range site m ↔ m !! k = Some v.
Proof. rewrite map_range_perm. apply elem_of_map_to_list. Qed.

Lemma map_range_NoDup_fst site m : NoDup (map_range site m).*1.
Proof. rewrite map_range_perm. apply NoDup_fst_map_to_list. Qed.

Lemma map_range_NoDup site m : NoDup (map_range site m).
Proof. eapply NoDup_fmap_1, map_range_NoDup_fst. Qed.

Lemma map_range_to_map site m : (list_to_map (map_range site m) : gmap K V) = m.
Proof.
  etrans; [|apply list_to_map_to_list]. apply list_to_map_proper.
  - apply map_range_NoDup_fst.
  - apply map_range_perm.
Qed.

Lemma map_range_length site m : length (map_range site m) = size m.
Proof. rewrite map_range_perm. apply length_map_to_list. Qed.

Lemma map_range_nil site m : map_range site m = [] ↔ m = ∅.
Proof.
  rewrite <- length_zero_iff_nil, map_range_length. apply map_size_empty_iff.
Qed.

(** A loop that, for each key, writes only that key of a map [get acc]. *)
Lemma foldl_local {Acc W} (get : Acc → gmap K W) (step : Acc → K * V → Acc)
    (g : K → V → option W → option W) :
  (∀ a k v, get (step a (k, v)) !! k = g k v (get a !! k)) →
  (∀ a k v j, j ≠ k → get (step a (k, v)) !! j = get a !! j) →
  ∀ (l : list (K * V)) a, NoDup l.*1 → ∀ k,
    get (foldl step a l) !! k
    = match (list_to_map l : gmap K V) !! k with
      | Some v => g k v (get a !! k)
      | None => get a !! k
      end.
Proof.
  intros Hk Ho l. induction l as [|[k0 v0] l IH]; intros a Hnd k; [done|].
  inversion_clear Hnd as [|? ? Hni Hnd']. simpl. rewrite IH by done.
  destruct (decide (k = k0)) as [->|Hne].
  - rewrite lookup_insert_eq.
    rewrite (not_elem_of_list_to_map_1 (M:=gmap K) l k0) by done. apply Hk.
  - rewrite lookup_insert_ne by done. rewrite Ho by done. done.
Qed.

Lemma map_range_local {Acc W} (get : Acc → gmap K W) (step : Acc → K * V → Acc)
    (g : K → V → option W → option W) :
  (∀ a k v, get (step a (k, v)) !! k = g k v (get a !! k)) →
  (∀ a k v j, j ≠ k → get (step a (k, v)) !! j = get a !! j) →
  ∀ site m a k,
    get (foldl step a (map_range site m)) !! k
    = match m !! k with Some v => g k v (get a !! k) | None => get a !! k end.
Proof.
  intros Hk Ho site m a k.
  rewrite (foldl_local get step g) by (done || apply map_range_NoDup_fst).
  by rewrite map_range_to_map.
Qed.
End map_range.

(** a loop that collects *)
Lemma foldl_collect {A} (P : A → bool) (acc l : list A) :
  foldl (λ result x, if P x then result ++ [x] else result) acc l = acc ++ filter (λ x, P x = true) l.
Proof.
  revert acc. induction l as [|x l IH]; intros acc; simpl; [by rewrite app_nil_r|]. rewrite IH, filter_cons.
  destruct (P x) eqn:E; [by rewrite decide_True, <- app_assoc by done|by rewrite decide_False by congruence].
Qed.

(** a loop that counts *)
Lemma foldl_count {A} (P : A → bool) (l : list A) a :
  foldl (λ n x, if P x then n + 1 else n) a l = a + Z.of_nat (length (filter (λ x, P x = true) l)).
Proof.
  revert a. induction l as [|x l IH]; intros a; simpl; [lia|]. rewrite IH, filter_cons.
  destruct (P x); [rewrite decide_True by done; simpl; lia|by rewrite decide_False by done].
Qed.

(** ** [sort.Search]: binary search over [0, n)

    The loop of the standard library, with [n] rounds of fuel: every round
    shrinks the interval, so the fuel never runs out. *)
Fixpoint sort_Search_loop (fuel : nat) (f : nat → bool) (i j : nat) : nat :=
  match fuel with
  | O => i
  | S fuel' =>
      if bool_decide (i < j)%nat then
        let h := ((i + j) / 2)%nat in
        if negb (f h) then sort_Search_loop fuel' f (S h) j
        else sort_Search_loop fuel' f i h
      else i
  end.
Definition sort_Search (n : nat) (f : nat → bool) : nat := sort_Search_loop n f 0 n.

Lemma sort_Search_loop_spec f n fuel i j :
  (∀ a b, (a ≤ b < n)%nat → f a = true → f b = true) →
  (j - i ≤ fuel)%nat → (i ≤ j ≤ n)%nat →
  (∀ a, (a < i)%nat → f a = false) →
  (∀ a, (j ≤ a < n)%nat → f a = true) →
  let r := sort_Search_loop fuel f i j in
  (i ≤ r ≤ j)%nat ∧ (∀ a, (a < r)%nat → f a = false) ∧ (∀ a, (r ≤ a < n)%nat → f a = true).
Proof.
  intros Hmono. revert i j. induction fuel as [|fuel IH]; intros i j Hf Hij Hlo Hhi; cbn zeta; cbn [sort_Search_loop].
  { split; [lia|]. split; [done|]. intros a Ha. apply Hhi. lia. }
  case_bool_decide as Hlt; [|split; [lia|]; split; [done|]; intros a Ha; apply Hhi; lia].
  set (h := ((i + j) / 2)%nat).
  assert (i ≤ h < j)%nat as Hh by (subst h; split;
    [apply Nat.div_le_lower_bound | apply Nat.Div0.div_lt_upper_bound]; lia).
  clearbody h.
  destruct (f h) eqn:Efh; simpl.
  - edestruct (IH i h) as (Hr & H1 & H2); try lia.
    + done.
    + intros a Ha. apply (Hmono h); [lia|done].
    + split; [lia|]. auto.
  - edestruct (IH (S h) j) as (Hr & H1 & H2); try lia.
    + intros a Ha. destruct (f a) eqn:Efa; [|done].
      rewrite (Hmono a h) in Efh by (done || lia). done.
    + done.
    + split; [lia|]. auto.
Qed.

Lemma sort_Search_spec n f :
  (∀ a b, (a ≤ b < n)%nat → f a = true → f b = true) →
  (sort_Search n f ≤ n)%nat ∧
  (∀ a, (a < sort_Search n f)%nat → f a = false) ∧
  (∀ a, (sort_Search n f ≤ a < n)%nat → f a = true).
Proof.
  intros Hmono. unfold sort_Search.
  destruct (sort_Search_loop_spec f n n 0 n) as (Hr & H1 & H2); try lia; try done.
  split; [lia|]. auto.
Qed.

(** ** Automation *)
Create HintDb dskit.
Ltac case_if :=
  match goal with
  | |- context [if ?b then _ else _] => destruct b eqn:?
  | H : context [if ?b then _ else _] |- _ => destruct b eqn:?
  end.
(** turn boolean facts into propositions *)
Ltac reflect :=
  repeat match goal with
  | H : bool_decide _ = true |- _ => apply bool_decide_eq_true in H
  | H : bool_decide _ = false |- _ => apply bool_decide_eq_false in H
  | H : _ && _ = true |- _ => apply andb_true_iff in H; destruct H
  | H : _ || _ = false |- _ => apply orb_false_iff in H; destruct H
  | H : _ && _ = false |- _ => apply andb_false_iff in H
  | H : _ || _ = true |- _ => apply orb_true_iff in H
  | H : negb _ = true |- _ => apply negb_true_iff in H
  | H : negb _ = false |- _ => apply negb_false_iff in H
  end.
