(* ===== verification/Heap.v ===== *)
(** * Go's [container/heap]

    The binary heap of the Go standard library, over a list that stands for the
    slice behind [heap.Interface]: [Less i j] compares the keys at two indices
    and [Swap i j] exchanges them.  [down] and [up] carry fuel; the depth of the
    tree is below the length of the slice.  The lemmas establish that [Init],
    [Fix 0] and [Remove 0] keep the heap order and permute the elements. *)
From Stdlib Require Import ZArith Lia.
From stdpp Require Import base gmap strings list sorting fin_maps relations.
From S2P Require Import Prelude.

Section heap.
Context {A : Type} (key : A → Z).
Implicit Types h : list A.

Definition heap_Less h (i j : nat) : bool :=
  match h !! i, h !! j with
  | Some x, Some y => bool_decide (key x < key y)
  | _, _ => false
  end.

Definition heap_Swap h (i j : nat) : list A :=
  match h !! i, h !! j with
  | Some x, Some y => <[i:=y]> (<[j:=x]> h)
  | _, _ => h
  end.

(** [down]: also returns the final index, which [Fix] and [Remove] compare
    with the initial one *)
Fixpoint heap_down (fuel : nat) h (i n : nat) : list A * nat :=
  match fuel with
  | O => (h, i)
  | S fuel' =>
      let j1 := (2 * i + 1)%nat in
      if bool_decide (n ≤ j1)%nat then (h, i)
      else
        let j2 := (j1 + 1)%nat in
        let j := if bool_decide (j2 < n)%nat && heap_Less h j2 j1 then j2 else j1 in
        if negb (heap_Less h j i) then (h, i)
        else heap_down fuel' (heap_Swap h i j) j n
  end.

Fixpoint heap_up (fuel : nat) h (j : nat) : list A :=
  match fuel with
  | O => h
  | S fuel' =>
      let i := ((j - 1) / 2)%nat in
      if bool_decide (i = j) || negb (heap_Less h j i) then h
      else heap_up fuel' (heap_Swap h i j) i
  end.

(** [for i := n/2 - 1; i >= 0; i-- { down(h, i, n) }] *)
Fixpoint heap_Init_loop h (i : nat) : list A :=
  match i with
  | O => h
  | S i' => heap_Init_loop (heap_down (length h) h i' (length h)).1 i'
  end.
Definition heap_Init h : list A := heap_Init_loop h (length h / 2).

Definition heap_Fix h (i : nat) : list A :=
  let '(h', i') := heap_down (length h) h i (length h) in
  if bool_decide (i < i')%nat then h' else heap_up (length h) h' i.

(** [Remove]: the slice after [Pop] *)
Definition heap_Remove h (i : nat) : list A :=
  let n := (length h - 1)%nat in
  if bool_decide (n ≠ i) then
    let h1 := heap_Swap h i n in
    let '(h2, i') := heap_down (length h) h1 i n in
    take n (if bool_decide (i < i')%nat then h2 else heap_up (length h) h2 i)
  else take n h.

(** ** Swap *)
Lemma heap_Swap_length h i j : length (heap_Swap h i j) = length h.
Proof. unfold heap_Swap. repeat case_match; rewrite ?length_insert; done. Qed.

Lemma heap_Swap_perm h i j : heap_Swap h i j ≡ₚ h.
Proof.
  unfold heap_Swap. destruct (h !! i) as [x|] eqn:Hi; [|done].
  destruct (h !! j) as [y|] eqn:Hj; [|done].
  destruct (decide (i = j)) as [->|Hne].
  { simplify_eq. rewrite !list_insert_id; try done.
    rewrite list_lookup_insert_eq; [done|by eapply lookup_lt_Some]. }
  apply Permutation_inj. rewrite !length_insert. split; [done|].
  exists (λ a, if decide (a = i) then j else if decide (a = j) then i else a). split.
  - intros a b. repeat case_decide; simplify_eq; try done; lia.
  - intros a. repeat case_decide; subst.
    + rewrite list_lookup_insert_eq, Hj; [done|].
      rewrite length_insert. by eapply lookup_lt_Some.
    + rewrite list_lookup_insert_ne by done.
      rewrite list_lookup_insert_eq, Hi; [done|by eapply lookup_lt_Some].
    + by rewrite !list_lookup_insert_ne by done.
Qed.

Lemma heap_Swap_lookup h i j a x y :
  h !! i = Some x → h !! j = Some y → i ≠ j →
  heap_Swap h i j !! a =
    if decide (a = i) then Some y else if decide (a = j) then Some x else h !! a.
Proof.
  intros Hi Hj Hne. unfold heap_Swap. rewrite Hi, Hj.
  pose proof (lookup_lt_Some _ _ _ Hi). pose proof (lookup_lt_Some _ _ _ Hj).
  repeat case_decide; subst.
  - apply list_lookup_insert_eq. by rewrite length_insert.
  - rewrite list_lookup_insert_ne by done. by apply list_lookup_insert_eq.
  - by rewrite !list_lookup_insert_ne by done.
Qed.

(** ** Heap order

    [heap_from k n h]: among the first [n] indices every child whose parent
    is at least [k] is no smaller than that parent. *)
Definition parent (c : nat) : nat := ((c - 1) / 2)%nat.
Definition ordered h (p c : nat) : Prop :=
  ∀ x y, h !! p = Some x → h !! c = Some y → key x ≤ key y.
Definition heap_from (k n : nat) h : Prop :=
  ∀ c, (0 < c < n)%nat → (k ≤ parent c)%nat → ordered h (parent c) c.
Definition is_heap h : Prop := heap_from 0 (length h) h.

Lemma parent_spec c : (0 < c)%nat → (c = 2 * parent c + 1 ∨ c = 2 * parent c + 2)%nat.
Proof.
  unfold parent. intros Hc.
  pose proof (Nat.div_mod_eq (c - 1) 2). pose proof (Nat.mod_upper_bound (c - 1) 2). lia.
Qed.

(** all heap relations hold except those of [i] with its children; and the
    children of [i] are no smaller than the parent of [i] *)
Definition down_inv (k i n : nat) h : Prop :=
  (∀ c, (0 < c < n)%nat → (k ≤ parent c)%nat → parent c ≠ i → ordered h (parent c) c) ∧
  (∀ c, (0 < c < n)%nat → parent c = i → (0 < i)%nat → (k ≤ parent i)%nat →
     ordered h (parent i) c).

Ltac parents := repeat match goal with
  | H : (0 < ?c)%nat |- _ => lazymatch goal with
      | _ : (c = 2 * parent c + 1 ∨ _)%nat |- _ => fail
      | _ => pose proof (parent_spec c H) end
  | H : (0 < ?c < _)%nat |- _ => lazymatch goal with
      | _ : (0 < c)%nat |- _ => fail
      | _ => assert (0 < c)%nat by lia end
  end.

Lemma heap_Less_true h i j :
  heap_Less h i j = true → ∃ x y, h !! i = Some x ∧ h !! j = Some y ∧ key x < key y.
Proof. unfold heap_Less. repeat case_match; intros; reflect; try done; eauto. Qed.

Lemma heap_Less_false h i j x y :
  heap_Less h i j = false → h !! i = Some x → h !! j = Some y → key y ≤ key x.
Proof. unfold heap_Less. intros H Hx Hy. rewrite Hx, Hy in H. reflect. lia. Qed.

(** the child selected by [down] is a least one *)
Definition min_child (i j n : nat) h : Prop :=
  (0 < j < n)%nat ∧ parent j = i ∧ ∀ c, (0 < c < n)%nat → parent c = i → ordered h j c.

Lemma min_child_select h i n :
  (n ≤ length h)%nat → (2 * i + 1 < n)%nat →
  min_child i (if bool_decide (2 * i + 1 + 1 < n)%nat && heap_Less h (2 * i + 1 + 1) (2 * i + 1)
               then 2 * i + 1 + 1 else 2 * i + 1)%nat n h.
Proof.
  intros Hn Hi.
  assert (∀ c, (c = 2 * i + 1 ∨ c = 2 * i + 2)%nat → parent c = i) as Hp
    by (intros c Hc; assert (0 < c)%nat by lia; parents; lia).
  destruct (bool_decide _ && _) eqn:E; reflect.
  - destruct (heap_Less_true _ _ _ ltac:(eassumption)) as (x & y & Hx & Hy & Hlt).
    repeat split; try lia; [apply Hp; lia|].
    intros c Hc Hpc a b Ha Hb. parents. assert (c = 2 * i + 1 ∨ c = 2 * i + 1 + 1)%nat as [->| ->] by lia; simplify_eq; lia.
  - repeat split; try lia; [apply Hp; lia|].
    intros c Hc Hpc a b Ha Hb. parents.
    assert (c = 2 * i + 1 ∨ c = 2 * i + 1 + 1)%nat as [->| ->] by lia; simplify_eq; [lia|].
    destruct E as [Hge|Hl]; reflect; [lia|].
    by eapply heap_Less_false.
Qed.

Lemma down_inv_step h k i j n :
  (n ≤ length h)%nat → (k ≤ i)%nat → down_inv k i n h → min_child i j n h →
  heap_Less h j i = true → down_inv k j n (heap_Swap h i j).
Proof.
  intros Hn Hk [H1 H2] (Hj & Hpj & Hmin) (y & x & Hy & Hx & Hlt)%heap_Less_true.
  parents. assert (i ≠ j) as Hij by lia.
  split.
  - intros c Hc Hkc Hpc a b. rewrite !(heap_Swap_lookup _ _ _ _ _ _ Hx Hy Hij). parents.
    destruct (decide (parent c = i)) as [Hci|Hci].
    + destruct (decide (c = i)); [lia|]. case_decide; intros Ha Hb; simplify_eq; [lia|].
      by apply (Hmin c Hc Hci).
    + destruct (decide (c = i)) as [->|]; [|destruct (decide (c = j)) as [->|]; [lia|]].
      * case_decide; [lia|]. intros Ha Hb. simplify_eq. by apply (H2 j).
      * case_decide; [done|]. by apply H1.
  - intros c Hc Hpc Hj0 Hkc a b. rewrite !(heap_Swap_lookup _ _ _ _ _ _ Hx Hy Hij), Hpj. parents.
    rewrite decide_True by done. destruct (decide (c = i)); [lia|].
    destruct (decide (c = j)); [lia|]. intros Ha Hb. simplify_eq.
    apply (H1 c); rewrite ?Hpc; try done; lia.
Qed.

Lemma down_inv_done h k i n j :
  down_inv k i n h → (n ≤ 2 * i + 1)%nat ∨ (min_child i j n h ∧ (n ≤ length h)%nat ∧ heap_Less h j i = false) →
  heap_from k n h.
Proof.
  intros [H1 _] Hcase c Hc Hkc. destruct (decide (parent c = i)) as [Hci|]; [|by apply H1].
  parents. destruct Hcase as [|[(Hj & Hpj & Hmin) [Hn Hl]]]; [lia|].
  intros a b Ha Hb. rewrite Hci in Ha.
  destruct (lookup_lt_is_Some_2 h j) as [y Hy]; [lia|].
  pose proof (Hmin c Hc Hci y b Hy Hb). pose proof (heap_Less_false _ _ _ _ _ Hl Hy Ha). lia.
Qed.

Lemma heap_down_spec fuel h k i n :
  (n ≤ length h)%nat → (n - i ≤ fuel)%nat → (k ≤ i)%nat → down_inv k i n h →
  heap_from k n (heap_down fuel h i n).1 ∧ (heap_down fuel h i n).1 ≡ₚ h ∧
  (∀ a, (n ≤ a)%nat → (heap_down fuel h i n).1 !! a = h !! a).
Proof.
  revert h i. induction fuel as [|fuel IH]; intros h i Hn Hf Hk Hinv; cbn [heap_down].
  { split; [|done]. apply (down_inv_done h k i n i); [done|]. left. lia. }
  cbv zeta. case_bool_decide as Hlt.
  { split; [|done]. apply (down_inv_done h k i n i); [done|]. left. lia. }
  pose proof (min_child_select h i n Hn ltac:(lia)) as Hm.
  set (j := if _ && _ then _ else _) in *. clearbody j.
  destruct (heap_Less h j i) eqn:El; cbn [negb].
  - pose proof (down_inv_step h k i j n Hn Hk Hinv Hm El) as Hinv'.
    destruct Hm as ([Hj0 Hj] & Hpj & _). parents.
    destruct (IH (heap_Swap h i j) j) as (Hh & Hp & Ho); rewrite ?heap_Swap_length; try done; try lia.
    split; [done|]. split; [by rewrite Hp, heap_Swap_perm|].
    intros a Ha. rewrite Ho by done. apply heap_Less_true in El as (y & x & Hy & Hx & _).
    rewrite (heap_Swap_lookup _ _ _ _ _ _ Hx Hy) by lia.
    by rewrite !decide_False by lia.
  - split; [|done]. apply (down_inv_done h k i n j); auto.
Qed.

(** raising the lower bound of the heap order by one position *)
Lemma heap_from_down_inv h k n : heap_from (S k) n h → down_inv k k n h.
Proof.
  intros Hh. split.
  - intros c Hc Hkc Hne. apply Hh; [done|lia].
  - intros c Hc Hpc H0 Hkp. parents. lia.
Qed.

Lemma heap_down_root h k n :
  (n ≤ length h)%nat → heap_from (S k) n h →
  let h' := (heap_down (length h) h k n).1 in
  heap_from k n h' ∧ h' ≡ₚ h ∧ ∀ a, (n ≤ a)%nat → h' !! a = h !! a.
Proof. intros Hn Hh. apply heap_down_spec; auto using heap_from_down_inv; lia. Qed.

Lemma heap_Init_loop_spec h i :
  heap_from i (length h) h →
  is_heap (heap_Init_loop h i) ∧ heap_Init_loop h i ≡ₚ h.
Proof.
  revert h. induction i as [|i IH]; intros h Hh; cbn [heap_Init_loop]; [done|].
  destruct (heap_down_root h i (length h)) as (H1 & H2 & _); [done|done|].
  pose proof (Permutation_length H2) as Hl.
  destruct (IH (heap_down (length h) h i (length h)).1) as [H3 H4]; [by rewrite Hl|].
  split; [done|]. by rewrite H4, H2.
Qed.

Lemma heap_Init_spec h : is_heap (heap_Init h) ∧ heap_Init h ≡ₚ h.
Proof.
  apply heap_Init_loop_spec. intros c Hc Hk. parents.
  pose proof (Nat.div_mod_eq (length h) 2). pose proof (Nat.mod_upper_bound (length h) 2). lia.
Qed.

Lemma heap_up_0 fuel h : heap_up fuel h 0 = h.
Proof. by destruct fuel. Qed.

Lemma heap_Fix_spec h :
  heap_from 1 (length h) h → is_heap (heap_Fix h 0) ∧ heap_Fix h 0 ≡ₚ h.
Proof.
  intros Hh. unfold heap_Fix.
  destruct (heap_down_root h 0 (length h)) as (H1 & H2 & _); [done|done|].
  destruct (heap_down (length h) h 0 (length h)) as [h' i']. simpl in *.
  rewrite heap_up_0. replace (if bool_decide (0 < i')%nat then h' else h') with h' by (by case_if).
  unfold is_heap. by rewrite (Permutation_length H2).
Qed.

(** replacing the root leaves every relation not involving it *)
Lemma is_heap_replace_root h x : is_heap h → heap_from 1 (length (<[0%nat:=x]> h)) (<[0%nat:=x]> h).
Proof.
  intros Hh c Hc Hk a b. rewrite length_insert in Hc. parents.
  rewrite !list_lookup_insert_ne by lia. apply Hh; lia.
Qed.

(** the root of a heap is a least element *)
Lemma is_heap_root h x y : is_heap h → h !! 0%nat = Some x → y ∈ h → key x ≤ key y.
Proof.
  intros Hh Hx [c Hc]%list_elem_of_lookup. revert y Hc.
  induction c as [c IH] using lt_wf_ind. intros y Hc.
  destruct (decide (c = 0)%nat) as [->|Hne]; [simplify_eq; lia|].
  assert (0 < c)%nat by lia. parents.
  assert (parent c < c)%nat as Hp by lia.
  pose proof (lookup_lt_Some _ _ _ Hc).
  destruct (lookup_lt_is_Some_2 h (parent c)) as [z Hz]; [lia|].
  specialize (IH _ Hp z Hz). pose proof (Hh c ltac:(lia) ltac:(lia) z y Hz Hc). lia.
Qed.

Lemma heap_Remove_spec x h :
  is_heap (x :: h) → is_heap (heap_Remove (x :: h) 0) ∧ heap_Remove (x :: h) 0 ≡ₚ h.
Proof.
  intros Hh. unfold heap_Remove. replace (length (x :: h) - 1)%nat with (length h) by (simpl; lia).
  case_bool_decide as Hn; [|destruct h; [done|simpl in Hn; lia]].
  set (n := length h) in *.
  destruct (lookup_lt_is_Some_2 (x :: h) n) as [y Hy]; [simpl; lia|].
  set (h1 := heap_Swap (x :: h) 0 n).
  assert (length h1 = S n) as Hl by apply heap_Swap_length.
  assert (heap_from 1 n h1) as H1.
  { intros c Hc Hk a b. parents. unfold h1.
    rewrite !(heap_Swap_lookup _ _ _ _ x y) by (done || lia).
    repeat (destruct (decide _); [lia|]). apply Hh; simpl; lia. }
  destruct (heap_down_root h1 0 n) as (H2 & H3 & H4); [lia|done|].
  replace (length (x :: h)) with (length h1) by done.
  destruct (heap_down (length h1) h1 0 n) as [h2 i']. cbn [fst] in *. rewrite heap_up_0.
  replace (if bool_decide (0 < i')%nat then h2 else h2) with h2 by (by case_if).
  assert (length h2 = S n) as Hl2 by (by rewrite (Permutation_length H3)).
  assert (h2 = take n h2 ++ [x]) as Ht.
  { rewrite <- (take_drop n h2) at 1. f_equal.
    assert (h2 !! n = Some x) as Hx.
    { rewrite H4 by done. unfold h1. rewrite (heap_Swap_lookup _ _ _ _ x y) by (done || lia).
      rewrite decide_False by lia. by rewrite decide_True. }
    rewrite (drop_S _ x) by done. by rewrite drop_ge by lia. }
  split.
  - intros c Hc Hk a b. rewrite length_take in Hc. parents.
    rewrite !lookup_take_lt by lia. apply H2; lia.
  - apply (Permutation_app_inv_r [x]). rewrite <- Ht, H3. unfold h1.
    rewrite heap_Swap_perm. by rewrite Permutation_app_comm.
Qed.
End heap.
