(* ===== verification/Model.v ===== *)
(** * The ring data model: [ring/model.go], [ring/tokens.go], [Operation] of [ring/ring.go]

    Data: [InstanceDesc] (the protobuf message of [ring.pb.go]), [Desc], the
    [Operation] bitmap.  Operations of [Desc] that do not merge two rings
    (those are in Merge.v), and the k-way [MergeTokens] over Go's heap.

    A Go slice of tokens is a [list Z]; [nil] and the empty slice are
    identified, and so are a [nil] and an empty map.  A function that modifies
    its receiver, or that sorts in place a slice shared with it, returns the new
    receiver. *)
From Stdlib Require Import ZArith Lia.
From stdpp Require Import base gmap strings list sorting fin_maps relations.
From S2P Require Import Prelude Heap.

(** ** Data *)
Inductive InstanceState := ACTIVE | LEAVING | PENDING | JOINING | LEFT.
#[export] Instance InstanceState_eq_dec : EqDecision InstanceState.
Proof. solve_decision. Defined.

Definition InstanceState_num (s : InstanceState) : Z :=
  match s with ACTIVE => 0 | LEAVING => 1 | PENDING => 2 | JOINING => 3 | LEFT => 4 end.

Record InstanceDesc := mkInstanceDesc {
  Addr : string;
  Timestamp : Z;            (* int64, seconds *)
  State : InstanceState;
  Tokens : list Z;          (* []uint32 *)
  Zone : string;
  RegisteredTimestamp : Z   (* int64, seconds *)
}.
#[export] Instance InstanceDesc_eq_dec : EqDecision InstanceDesc.
Proof. solve_decision. Defined.

Definition InstanceDesc_zero : InstanceDesc := mkInstanceDesc "" 0 ACTIVE [] "" 0.

Definition set_Timestamp (t : Z) (i : InstanceDesc) : InstanceDesc :=
  mkInstanceDesc (Addr i) t (State i) (Tokens i) (Zone i) (RegisteredTimestamp i).
Definition set_State (s : InstanceState) (i : InstanceDesc) : InstanceDesc :=
  mkInstanceDesc (Addr i) (Timestamp i) s (Tokens i) (Zone i) (RegisteredTimestamp i).
Definition set_Tokens (ts : list Z) (i : InstanceDesc) : InstanceDesc :=
  mkInstanceDesc (Addr i) (Timestamp i) (State i) ts (Zone i) (RegisteredTimestamp i).

Record Desc := mkDesc { Ingesters : gmap string InstanceDesc }.

(** reading a missing key of a Go map yields the zero value *)
Definition ingester (d : Desc) (id : string) : InstanceDesc :=
  default InstanceDesc_zero (Ingesters d !! id).

Definition NewDesc : Desc := mkDesc ∅.

Inductive model_error :=
| ErrPastHeartbeatTimeout (addr : string)
| ErrInState (addr : string) (s : InstanceState)
| ErrNoTokensInRing
| ErrExpectedRingDesc (type_name : string).

(** ** [Operation]: low 16 bits, healthy states; high 16 bits, states extending
    the replica set *)
Definition Operation := Z.

Definition NewOp (healthyStates : list InstanceState)
    (shouldExtendReplicaSet : option (InstanceState → bool)) : Operation :=
  let op := foldl (λ op s, Z.lor op (Z.shiftl 1 (InstanceState_num s))) 0 healthyStates in
  match shouldExtendReplicaSet with
  | None => op
  | Some f =>
      foldl (λ op s, if f s then Z.lor op (Z.shiftl 0x10000 (InstanceState_num s)) else op)
        op [ACTIVE; LEAVING; PENDING; JOINING; LEAVING; LEFT]
  end.

Definition IsInstanceInStateHealthy (op : Operation) (s : InstanceState) : bool :=
  bool_decide (Z.land op (Z.shiftl 1 (InstanceState_num s)) > 0).
Definition ShouldExtendReplicaSetOnState (op : Operation) (s : InstanceState) : bool :=
  bool_decide (Z.land op (Z.shiftl 0x10000 (InstanceState_num s)) > 0).

Definition allStatesRingOperation : Operation := 0x0000ffff.
Definition Write : Operation :=
  NewOp [ACTIVE] (Some (λ s, bool_decide (s ≠ ACTIVE))).
Definition WriteNoExtend : Operation := NewOp [ACTIVE] None.
Definition Read : Operation :=
  NewOp [ACTIVE; PENDING; LEAVING]
    (Some (λ s, bool_decide (s ≠ ACTIVE) && bool_decide (s ≠ LEAVING))).
Definition Reporting : Operation := allStatesRingOperation.

(** ** Methods of [InstanceDesc] *)
Definition GetRegisteredAt (i : option InstanceDesc) : Z :=
  match i with
  | None => zeroTime
  | Some i =>
      if bool_decide (RegisteredTimestamp i = 0) then zeroTime
      else time_of_Unix (RegisteredTimestamp i)
  end.

Definition IsHeartbeatHealthy (i : InstanceDesc) (heartbeatTimeout now : Z) : bool :=
  if bool_decide (heartbeatTimeout = 0) then true
  else bool_decide (time_Sub now (time_of_Unix (Timestamp i)) ≤ heartbeatTimeout).

Definition IsHealthy (i : InstanceDesc) (op : Operation) (heartbeatTimeout now : Z) : bool :=
  let healthy := IsInstanceInStateHealthy op (State i) in
  healthy && IsHeartbeatHealthy i heartbeatTimeout now.

Definition InstanceDesc_IsReady (i : InstanceDesc) (now heartbeatTimeout : Z)
    : result model_error unit :=
  if negb (IsHeartbeatHealthy i heartbeatTimeout now) then Err (ErrPastHeartbeatTimeout (Addr i))
  else if bool_decide (State i ≠ ACTIVE) then Err (ErrInState (Addr i) (State i))
  else Ok tt.

(** ** [MergeTokens]: k-way merge of sorted lists with a heap *)
(** the key compared by [TokensHeap.Less]: [h[i][0]] *)
Definition TokensHeap_key (l : list Z) : Z := default 0 (head l).

(** one round of the loop consumes one token, so [numTokens] rounds empty the heap *)
Fixpoint MergeTokens_loop (fuel : nat) (h : list (list Z)) (out : list Z) : list Z :=
  match fuel with
  | O => out
  | S fuel' =>
      match h with
      | [] => out
      | lowest :: _ =>
          let out := out ++ [TokensHeap_key lowest] in
          if bool_decide (1 < length lowest)%nat then
            MergeTokens_loop fuel'
              (heap_Fix TokensHeap_key (<[0%nat := tail lowest]> h) 0) out
          else MergeTokens_loop fuel' (heap_Remove TokensHeap_key h 0) out
      end
  end.

Definition MergeTokens (instances : list (list Z)) : list Z :=
  let h := filter (λ tokens, length tokens ≠ 0%nat) instances in
  let numTokens := sum_list_with length h in
  MergeTokens_loop numTokens (heap_Init TokensHeap_key h) [].

Section model.
Context `{R : MapRange}.

Definition MergeTokensByZone (zones : gmap string (list (list Z))) : gmap string (list Z) :=
  foldl (λ out '(zone, tokens), <[zone := MergeTokens tokens]> out) ∅ (map_range 642 zones).

(** ** Methods of [Desc] *)
Definition AddIngester (d : Desc) (id addr zone : string) (tokens : list Z)
    (state : InstanceState) (registeredAt now : Z) : Desc * InstanceDesc :=
  let registeredTimestamp :=
    if negb (time_IsZero registeredAt) then time_Unix registeredAt else 0 in
  let ingester := {|
    Addr := addr;
    Timestamp := time_Unix now;
    RegisteredTimestamp := registeredTimestamp;
    State := state;
    Tokens := tokens;
    Zone := zone
  |} in
  (mkDesc (<[id := ingester]> (Ingesters d)), ingester).

Definition RemoveIngester (d : Desc) (id : string) : Desc :=
  mkDesc (delete id (Ingesters d)).

Definition ClaimTokens (d : Desc) (from to : string) : Desc * list Z :=
  let '(d1, result) :=
    match Ingesters d !! from with
    | Some fromDesc =>
        (mkDesc (<[from := set_Tokens [] fromDesc]> (Ingesters d)), Tokens fromDesc)
    | None => (d, [])
    end in
  let ing := ingester d1 to in
  (mkDesc (<[to := set_Tokens result ing]> (Ingesters d1)), result).

Definition FindIngestersByState (d : Desc) (state : InstanceState) : list InstanceDesc :=
  foldl (λ result '(_, ing), if bool_decide (State ing = state) then result ++ [ing] else result)
    [] (map_range 93 (Ingesters d)).

Fixpoint IsReady_loop (l : list (string * InstanceDesc)) (now heartbeatTimeout numTokens : Z)
    : result model_error Z :=
  match l with
  | [] => Ok numTokens
  | (_, i) :: l =>
      match InstanceDesc_IsReady i now heartbeatTimeout with
      | Err e => Err e
      | Ok _ => IsReady_loop l now heartbeatTimeout (numTokens + Z.of_nat (length (Tokens i)))
      end
  end.
Definition Desc_IsReady (d : Desc) (now heartbeatTimeout : Z) : result model_error unit :=
  match IsReady_loop (map_range 105 (Ingesters d)) now heartbeatTimeout 0 with
  | Err e => Err e
  | Ok numTokens => if bool_decide (numTokens = 0) then Err ErrNoTokensInRing else Ok tt
  end.

(** [GetTokens] sorts in place the slices of the instances it reads *)
Definition GetTokens_step (acc : gmap string InstanceDesc * list (list Z))
    (e : string * InstanceDesc) : gmap string InstanceDesc * list (list Z) :=
  let '(m, instances) := acc in
  let '(id, instance) := e in
  let tokens := if IsSorted (Tokens instance) then Tokens instance
                else sort_tokens (Tokens instance) in
  (<[id := set_Tokens tokens instance]> m, instances ++ [tokens]).
Definition GetTokens (d : Desc) : Desc * list Z :=
  let '(m, instances) := foldl GetTokens_step (Ingesters d, []) (map_range 461 (Ingesters d)) in
  (mkDesc m, MergeTokens instances).

(** [myTokens] is read after [GetTokens] has sorted the slices *)
Definition TokensFor (d : Desc) (id : string) : Desc * (list Z * list Z) :=
  let '(d', allTokens) := GetTokens d in
  let myTokens := Tokens (ingester d' id) in
  (d', (myTokens, allTokens)).

Definition getTokensByZone_step
    (acc : gmap string InstanceDesc * gmap string (list (list Z)))
    (e : string * InstanceDesc) : gmap string InstanceDesc * gmap string (list (list Z)) :=
  let '(m, zones) := acc in
  let '(id, instance) := e in
  let tokens := if IsSorted (Tokens instance) then Tokens instance
                else sort_tokens (Tokens instance) in
  (<[id := set_Tokens tokens instance]> m,
   <[Zone instance := default [] (zones !! Zone instance) ++ [tokens]]> zones).
Definition getTokensByZone (d : Desc) : Desc * gmap string (list Z) :=
  let '(m, zones) :=
    foldl getTokensByZone_step (Ingesters d, ∅) (map_range 478 (Ingesters d)) in
  (mkDesc m, MergeTokensByZone zones).

Record instanceInfo := mkInstanceInfo { InstanceID : string; info_Zone : string }.

Definition getTokensInfo (d : Desc) : gmap Z instanceInfo :=
  foldl (λ out '(instanceID, instance),
    let info := mkInstanceInfo instanceID (Zone instance) in
    foldl (λ out token, <[token := info]> out) out (Tokens instance))
    ∅ (map_range 444 (Ingesters d)).

Definition MergeContent (d : Desc) : list string :=
  foldl (λ result '(k, _), result ++ [k]) [] (map_range 273 (Ingesters d)).

Definition RemoveTombstones_step (limit : Z) (acc : gmap string InstanceDesc * (Z * Z))
    (e : string * InstanceDesc) : gmap string InstanceDesc * (Z * Z) :=
  let '(m, (total, removed)) := acc in
  let '(n, ing) := e in
  if bool_decide (State ing = LEFT) then
    if time_IsZero limit || time_Before (time_of_Unix (Timestamp ing)) limit
    then (delete n m, (total, removed + 1))
    else (m, (total + 1, removed))
  else acc.
Definition RemoveTombstones (d : Desc) (limit : Z) : Desc * (Z * Z) :=
  let '(m, counts) :=
    foldl (RemoveTombstones_step limit) (Ingesters d, (0, 0)) (map_range 422 (Ingesters d)) in
  (mkDesc m, counts).

(** ** [RingCompare] *)
Inductive CompareResult := Equal | EqualButStatesAndTimestamps | Different.

(** the loop over [ing.Tokens] comparing [oing.Tokens[ix]]; the lengths are equal *)
Fixpoint tokensDiffer (ts ots : list Z) : bool :=
  match ts, ots with
  | t :: ts, ot :: ots => if bool_decide (ot ≠ t) then true else tokensDiffer ts ots
  | _, _ => false
  end.
Fixpoint RingCompare_loop (l : list (string * InstanceDesc)) (o : Desc)
    (equalStatesAndTimestamps : bool) : CompareResult :=
  match l with
  | [] => if equalStatesAndTimestamps then Equal else EqualButStatesAndTimestamps
  | (name, ing) :: l =>
      match Ingesters o !! name with
      | None => Different
      | Some oing =>
          if bool_decide (Addr ing ≠ Addr oing) then Different
          else if bool_decide (Zone ing ≠ Zone oing) then Different
          else if bool_decide (RegisteredTimestamp ing ≠ RegisteredTimestamp oing) then Different
          else if bool_decide (length (Tokens ing) ≠ length (Tokens oing)) then Different
          else if tokensDiffer (Tokens ing) (Tokens oing) then Different
          else
            let e := if bool_decide (Timestamp ing ≠ Timestamp oing)
                     then false else equalStatesAndTimestamps in
            let e := if bool_decide (State ing ≠ State oing) then false else e in
            RingCompare_loop l o e
      end
  end.
Definition RingCompare (d o : option Desc) : CompareResult :=
  match d, o with
  | None, None => Equal
  | None, Some o => if bool_decide (size (Ingesters o) = 0%nat) then Equal else Different
  | Some d, None => if bool_decide (size (Ingesters d) = 0%nat) then Equal else Different
  | Some d, Some o =>
      if bool_decide (size (Ingesters d) ≠ size (Ingesters o)) then Different
      else RingCompare_loop (map_range 522 (Ingesters d)) o true
  end.

Definition GetOrCreateRingDesc (d : option Desc) : Desc :=
  match d with None => NewDesc | Some d => d end.
End model.

(** ** [Tokens.Equals]: sorts both slices in place when their lengths agree *)
Definition Tokens_Equals (t other : list Z) : (list Z * list Z) * bool :=
  if bool_decide (length t ≠ length other) then ((t, other), false)
  else
    let mine := sort_tokens t in
    let other := sort_tokens other in
    ((mine, other), negb (tokensDiffer mine other)).

(** ** Lemmas on [MergeTokens] *)
Definition sorted_nonempty (l : list Z) : Prop := l ≠ [] ∧ StronglySorted Z.le l.

Lemma StronglySorted_le_head t l y : StronglySorted Z.le (t :: l) → y ∈ t :: l → t ≤ y.
Proof.
  intros Hs [->|Hy]%elem_of_cons; [done|].
  apply StronglySorted_inv in Hs as [_ Hf]. rewrite Forall_forall in Hf. by apply Hf.
Qed.

Lemma elem_of_concat (ls : list (list Z)) y : y ∈ concat ls ↔ ∃ l, l ∈ ls ∧ y ∈ l.
Proof.
  rewrite list_elem_of_In, in_concat. setoid_rewrite list_elem_of_In. done.
Qed.

(** the first token of the root is a least token *)
Lemma heap_head_min t l h :
  is_heap TokensHeap_key ((t :: l) :: h) → Forall sorted_nonempty ((t :: l) :: h) →
  ∀ y, y ∈ l ++ concat h → t ≤ y.
Proof.
  intros Hh Ha y Hy. rewrite Forall_forall in Ha.
  assert (∃ l', l' ∈ (t :: l) :: h ∧ y ∈ l') as (l' & Hl' & Hy').
  { apply elem_of_app in Hy as [Hy|(l' & Hl' & Hy)%elem_of_concat].
    - exists (t :: l). rewrite !elem_of_cons. auto.
    - exists l'. rewrite elem_of_cons. auto. }
  destruct (Ha l' Hl') as [Hne Hs]. destruct l' as [|t' l']; [done|].
  etrans; [|by apply (StronglySorted_le_head t' l')].
  by apply (is_heap_root TokensHeap_key ((t :: l) :: h) (t :: l) (t' :: l')).
Qed.

(** the heap after one token has been popped *)
Lemma MergeTokens_heap_step t l h :
  is_heap TokensHeap_key ((t :: l) :: h) → Forall sorted_nonempty ((t :: l) :: h) →
  let h' := if bool_decide (1 < length (t :: l))%nat
            then heap_Fix TokensHeap_key (<[0%nat := l]> ((t :: l) :: h)) 0
            else heap_Remove TokensHeap_key ((t :: l) :: h) 0 in
  is_heap TokensHeap_key h' ∧ Forall sorted_nonempty h' ∧ concat h' ≡ₚ l ++ concat h ∧
  S (sum_list_with length h') = sum_list_with length ((t :: l) :: h).
Proof.
  intros Hh Ha. apply Forall_cons in Ha as [[_ Hs] Ha].
  apply StronglySorted_inv in Hs as [Hs _]. cbv zeta.
  change (<[0%nat:=l]> ((t :: l) :: h)) with (l :: h).
  case_bool_decide as Hlen.
  - destruct (heap_Fix_spec TokensHeap_key (l :: h)) as [Hh' Hp].
    { apply (is_heap_replace_root TokensHeap_key ((t :: l) :: h) l Hh). }
    revert Hh' Hp. generalize (heap_Fix TokensHeap_key (l :: h) 0). intros hf Hh' Hp.
    split; [done|]. split; [|by split; rewrite Hp].
    rewrite Hp. constructor; [|done]. split; [|done]. by destruct l; [simpl in Hlen; lia|].
  - assert (l = []) as -> by (destruct l; [done|simpl in Hlen; lia]).
    destruct (heap_Remove_spec TokensHeap_key [t] h Hh) as [Hh' Hp].
    revert Hh' Hp. generalize (heap_Remove TokensHeap_key ([t] :: h) 0). intros hr Hh' Hp.
    split; [done|]. split; [by rewrite Hp|]. by split; rewrite Hp.
Qed.

Lemma MergeTokens_loop_spec fuel h out :
  fuel = sum_list_with length h → is_heap TokensHeap_key h → Forall sorted_nonempty h →
  MergeTokens_loop fuel h out = out ++ sort_tokens (concat h).
Proof.
  revert h out. induction fuel as [|fuel IH]; intros h out Hf Hh Ha; cbn [MergeTokens_loop].
  - destruct h as [|l h]; [by rewrite app_nil_r|].
    apply Forall_cons in Ha as [[Hne _] _]. by destruct l.
  - destruct h as [|l h]; [by rewrite app_nil_r|].
    destruct l as [|t l]; [by apply Forall_cons in Ha as [[? _] _]|].
    destruct (MergeTokens_heap_step t l h Hh Ha) as (Hh' & Ha' & Hp & Hl). cbv zeta.
    cbn [tail]. rewrite <- Hl in Hf. apply Nat.succ_inj in Hf.
    transitivity ((out ++ [t]) ++ sort_tokens (l ++ concat h)).
    + rewrite <- Hp. revert Hf Hh' Ha'. case_bool_decide; intros; by apply IH.
    + rewrite <- app_assoc. f_equal. apply sorted_perm_unique.
      * constructor; [apply sort_tokens_sorted|]. rewrite Forall_forall. intros y.
        rewrite sort_tokens_elem. by apply heap_head_min.
      * apply sort_tokens_sorted.
      * simpl. by rewrite !sort_tokens_perm.
Qed.

Lemma concat_filter_nonempty (ls : list (list Z)) :
  concat (filter (λ l, length l ≠ 0%nat) ls) = concat ls.
Proof.
  induction ls as [|l ls IH]; [done|]. rewrite filter_cons. case_decide as Hl; simpl.
  - by rewrite IH.
  - destruct l; [done|]. simpl in Hl. lia.
Qed.

Lemma MergeTokens_sorts (instances : list (list Z)) :
  Forall (StronglySorted Z.le) instances →
  MergeTokens instances = sort_tokens (concat instances).
Proof.
  intros Hs. unfold MergeTokens.
  set (h := filter _ instances).
  destruct (heap_Init_spec TokensHeap_key h) as [Hh Hp].
  assert (Forall sorted_nonempty (heap_Init TokensHeap_key h)) as Ha.
  { rewrite Hp, Forall_forall. intros l [Hne Hl]%list_elem_of_filter.
    rewrite Forall_forall in Hs. split; [by destruct l | by apply Hs]. }
  rewrite MergeTokens_loop_spec; [|by rewrite Hp|done|done].
  simpl. rewrite Hp. unfold h. by rewrite concat_filter_nonempty.
Qed.

(** C4. Each input list being sorted, [MergeTokens] returns the sorted list of
    all tokens: the heap-driven merge equals sorting the concatenation. *)
Theorem MergeTokens_is_sort (instances : list (list Z)) :
  Forall (StronglySorted Z.le) instances →
  MergeTokens instances = sort_tokens (concat instances).
Proof. apply MergeTokens_sorts. Qed.

Lemma MergeTokens_is_sort_witness :
  Forall (StronglySorted Z.le) [[1; 5; 9]; []; [2; 5]; [0]] ∧
  MergeTokens [[1; 5; 9]; []; [2; 5]; [0]] = sort_tokens (concat [[1; 5; 9]; []; [2; 5]; [0]]).
Proof.
  assert (Forall (StronglySorted Z.le) [[1; 5; 9]; []; [2; 5]; [0]]) as H
    by (repeat constructor; lia).
  split; [exact H | exact (MergeTokens_is_sort _ H)].
Defined.
