(* ===== verification/ModelFacts.v ===== *)
(** * Facts on the ring data model

    The token queries of [Desc] as functions of the instances, and what
    [RingCompare] decides. *)
From Stdlib Require Import ZArith Lia.
From stdpp Require Import base gmap strings list sorting fin_maps relations.
From S2P Require Import Prelude Model.

(** an instance after its slice of tokens has been sorted in place *)
Definition sort_instance (i : InstanceDesc) : InstanceDesc := set_Tokens (sort_tokens (Tokens i)) i.
Definition sorted_desc (d : Desc) : Desc := mkDesc (sort_instance <$> Ingesters d).

Lemma sort_instance_idem i : sort_instance (sort_instance i) = sort_instance i.
Proof. unfold sort_instance. simpl. by rewrite sort_tokens_id by apply sort_tokens_sorted. Qed.
Lemma sorted_desc_idem d : sorted_desc (sorted_desc d) = sorted_desc d.
Proof.
  unfold sorted_desc. simpl. f_equal. rewrite <- map_fmap_compose. apply map_fmap_ext.
  intros k i _. apply sort_instance_idem.
Qed.

Lemma MergeTokens_perm (ls : list (list Z)) :
  Forall (StronglySorted Z.le) ls → MergeTokens ls ≡ₚ concat ls.
Proof. intros Hs. by rewrite MergeTokens_sorts, sort_tokens_perm. Qed.

Lemma sorted_lists {A} (f : A → list Z) (l : list A) :
  Forall (StronglySorted Z.le) ((λ x, sort_tokens (f x)) <$> l).
Proof. apply Forall_fmap, Forall_true. intros x. apply sort_tokens_sorted. Qed.

Lemma MergeTokens_fmap_elem {A} (f : A → list Z) (l : list A) t :
  t ∈ MergeTokens ((λ x, sort_tokens (f x)) <$> l) ↔ ∃ x, x ∈ l ∧ t ∈ f x.
Proof.
  rewrite MergeTokens_perm by apply sorted_lists. rewrite elem_of_concat.
  setoid_rewrite list_elem_of_fmap. split.
  - intros (? & (x & -> & Hx) & Ht). exists x. by rewrite sort_tokens_elem in Ht.
  - intros (x & Hx & Ht). exists (sort_tokens (f x)). rewrite sort_tokens_elem. eauto.
Qed.

Section tokens.
Context `{R : MapRange}.

(** *** [GetTokens] *)
Lemma GetTokens_step_eq m ls k i :
  GetTokens_step (m, ls) (k, i) = (<[k := sort_instance i]> m, ls ++ [sort_tokens (Tokens i)]).
Proof. unfold GetTokens_step. by rewrite sort_if_needed. Qed.

Lemma GetTokens_spec d :
  GetTokens d = (sorted_desc d,
    MergeTokens ((λ e, sort_tokens (Tokens e.2)) <$> map_range 461 (Ingesters d))).
Proof.
  unfold GetTokens. destruct (foldl _ _ _) as [m ls] eqn:Hf.
  assert (m = (foldl GetTokens_step (Ingesters d, []) (map_range 461 (Ingesters d))).1) as Hm by by rewrite Hf.
  assert (ls = (foldl GetTokens_step (Ingesters d, []) (map_range 461 (Ingesters d))).2) as Hls by by rewrite Hf.
  f_equal.
  - unfold sorted_desc. f_equal. apply map_eq. intros k. rewrite lookup_fmap, Hm.
    rewrite (map_range_local fst GetTokens_step (λ _ i _, Some (sort_instance i))).
    + cbn [fst]. by destruct (Ingesters d !! k).
    + intros [a l] j v. rewrite GetTokens_step_eq. apply lookup_insert_eq.
    + intros [a l] j v j' Hj. rewrite GetTokens_step_eq. by apply lookup_insert_ne.
  - f_equal. rewrite Hls. generalize (Ingesters d) at 1. intros m0.
    assert (∀ (l : list (string * InstanceDesc)) m ls,
      (foldl GetTokens_step (m, ls) l).2 = ls ++ ((λ e, sort_tokens (Tokens e.2)) <$> l)) as Hl.
    { induction l as [|[k i] l IH]; intros m1 ls1; [by rewrite app_nil_r|].
      cbn [foldl]. rewrite GetTokens_step_eq, IH, <- app_assoc. done. }
    by rewrite Hl.
Qed.

Lemma GetTokens_sorted d : StronglySorted Z.le (GetTokens d).2.
Proof.
  rewrite GetTokens_spec. simpl. rewrite MergeTokens_sorts by apply sorted_lists.
  apply sort_tokens_sorted.
Qed.

Lemma GetTokens_elem d t :
  t ∈ (GetTokens d).2 ↔ ∃ k i, Ingesters d !! k = Some i ∧ t ∈ Tokens i.
Proof.
  rewrite GetTokens_spec. simpl. rewrite MergeTokens_fmap_elem. split.
  - intros ([k i] & He%map_range_elem & Ht). eauto.
  - intros (k & i & He & Ht). exists (k, i). by rewrite map_range_elem.
Qed.

(** *** [getTokensByZone] *)
Lemma getTokensByZone_step_eq m zs k i :
  getTokensByZone_step (m, zs) (k, i)
  = (<[k := sort_instance i]> m,
     <[Zone i := default [] (zs !! Zone i) ++ [sort_tokens (Tokens i)]]> zs).
Proof. unfold getTokensByZone_step. by rewrite sort_if_needed. Qed.

Lemma MergeTokensByZone_lookup zs z : MergeTokensByZone zs !! z = MergeTokens <$> zs !! z.
Proof.
  unfold MergeTokensByZone.
  etrans; [apply (map_range_local (λ out, out) (λ out '(zone, tokens), <[zone := MergeTokens tokens]> out)
             (λ _ ts _, Some (MergeTokens ts)))|].
  - intros a k v. apply lookup_insert_eq.
  - intros a k v j Hj. by apply lookup_insert_ne.
  - by destruct (zs !! z).
Qed.

(** the sorted token lists of the instances of a zone *)
Definition zone_lists (z : string) (l : list (string * InstanceDesc)) : list (list Z) :=
  (λ e, sort_tokens (Tokens e.2)) <$> filter (λ e, Zone e.2 = z) l.

Lemma getTokensByZone_loop (l : list (string * InstanceDesc)) m zs z :
  default [] ((foldl getTokensByZone_step (m, zs) l).2 !! z) = default [] (zs !! z) ++ zone_lists z l ∧
  (is_Some ((foldl getTokensByZone_step (m, zs) l).2 !! z) ↔
   is_Some (zs !! z) ∨ ∃ k i, (k, i) ∈ l ∧ Zone i = z).
Proof.
  revert m zs. induction l as [|[k i] l IH]; intros m zs.
  - simpl. split; [by rewrite app_nil_r|]. split; [by left|].
    by intros [?|(k & i & []%elem_of_nil & _)].
  - cbn [foldl]. rewrite getTokensByZone_step_eq.
    destruct (IH (<[k := sort_instance i]> m)
      (<[Zone i := default [] (zs !! Zone i) ++ [sort_tokens (Tokens i)]]> zs)) as [-> ->].
    unfold zone_lists. rewrite filter_cons. cbn [snd].
    destruct (decide (Zone i = z)) as [<-|Hz].
    + rewrite lookup_insert_eq. simpl. rewrite <- app_assoc. split; [done|].
      split; [|eauto]. intros _. right. exists k, i. by rewrite elem_of_cons; auto.
    + rewrite lookup_insert_ne by done. split; [done|]. split.
      * intros [?|(k' & i' & Hin & Hz')]; [by left|]. right. exists k', i'. rewrite elem_of_cons. auto.
      * intros [?|(k' & i' & [[= -> ->]|Hin]%elem_of_cons & Hz')]; [by left|done|]. right. eauto.
Qed.

Lemma getTokensByZone_desc d : (getTokensByZone d).1 = sorted_desc d.
Proof.
  unfold getTokensByZone. destruct (foldl _ _ _) as [m zs] eqn:Hf. simpl.
  assert (m = (foldl getTokensByZone_step (Ingesters d, ∅) (map_range 478 (Ingesters d))).1) as -> by by rewrite Hf.
  unfold sorted_desc. f_equal. apply map_eq. intros k. rewrite lookup_fmap.
  rewrite (map_range_local fst getTokensByZone_step (λ _ i _, Some (sort_instance i))).
  - cbn [fst]. by destruct (Ingesters d !! k).
  - intros [a l] j v. rewrite getTokensByZone_step_eq. apply lookup_insert_eq.
  - intros [a l] j v j' Hj. rewrite getTokensByZone_step_eq. by apply lookup_insert_ne.
Qed.

Lemma getTokensByZone_lookup d z :
  (getTokensByZone d).2 !! z
  = if decide (Exists (λ e, Zone e.2 = z) (map_range 478 (Ingesters d)))
    then Some (MergeTokens (zone_lists z (map_range 478 (Ingesters d)))) else None.
Proof.
  unfold getTokensByZone.
  destruct (getTokensByZone_loop (map_range 478 (Ingesters d)) (Ingesters d) ∅ z) as [Hd Hs].
  destruct (foldl _ _ _) as [m zs]. cbn [fst snd] in *. rewrite MergeTokensByZone_lookup.
  rewrite lookup_empty in Hd, Hs. simpl in Hd. case_decide as Hz.
  - assert (is_Some (zs !! z)) as [ls Hls].
    { apply Hs. right. apply Exists_exists in Hz as ([k i] & ? & ?). eauto. }
    rewrite Hls in Hd |- *. simpl in *. by rewrite Hd.
  - destruct (zs !! z) as [ls|]; [|done]. destruct Hz.
    destruct Hs as [Hs _]. destruct Hs as [[? ?]|(k & i & ? & ?)]; [done|done|].
    apply Exists_exists. by exists (k, i).
Qed.

Lemma getTokensByZone_is_Some d z :
  is_Some ((getTokensByZone d).2 !! z) ↔ ∃ k i, Ingesters d !! k = Some i ∧ Zone i = z.
Proof.
  rewrite getTokensByZone_lookup. case_decide as H; rewrite Exists_exists in H.
  - split; [|by eauto]. intros _. destruct H as ([k i] & Hin%map_range_elem & ?). eauto.
  - split; [by intros [? ?]|]. intros (k & i & Hk & Hz). destruct H. exists (k, i). by rewrite map_range_elem.
Qed.

Lemma getTokensByZone_tokens d z :
  StronglySorted Z.le (default [] ((getTokensByZone d).2 !! z)) ∧
  ∀ t, t ∈ default [] ((getTokensByZone d).2 !! z) ↔
       ∃ k i, Ingesters d !! k = Some i ∧ Zone i = z ∧ t ∈ Tokens i.
Proof.
  rewrite getTokensByZone_lookup. case_decide as H; rewrite Exists_exists in H; simpl.
  - unfold zone_lists. split.
    + rewrite MergeTokens_sorts by apply sorted_lists. apply sort_tokens_sorted.
    + intros t. rewrite MergeTokens_fmap_elem. setoid_rewrite list_elem_of_filter. split.
      * intros ([k i] & [Hz Hin%map_range_elem] & Ht). eauto.
      * intros (k & i & Hk & Hz & Ht). exists (k, i). by rewrite map_range_elem.
  - split; [constructor|]. intros t. split; [by intros ?%elem_of_nil|].
    intros (k & i & Hk & Hz & _). destruct H. exists (k, i). by rewrite map_range_elem.
Qed.

(** *** [getTokensInfo] *)
Lemma foldl_insert_tokens (info : instanceInfo) ts (out : gmap Z instanceInfo) t :
  foldl (λ out token, <[token := info]> out) out ts !! t
  = if decide (t ∈ ts) then Some info else out !! t.
Proof.
  revert out. induction ts as [|t0 ts IH]; intros out; [done|].
  cbn [foldl]. rewrite IH. destruct (decide (t ∈ ts)) as [Ht|Ht].
  - by rewrite decide_True by (by apply elem_of_cons; right).
  - destruct (decide (t = t0)) as [->|Hne].
    + rewrite lookup_insert_eq, decide_True by (by apply elem_of_cons; left). done.
    + rewrite lookup_insert_ne by done. rewrite decide_False; [done|]. rewrite elem_of_cons. naive_solver.
Qed.

(** every token is mapped to an instance that owns it, with its zone *)
Lemma getTokensInfo_spec d t :
  match getTokensInfo d !! t with
  | Some info => ∃ i, Ingesters d !! InstanceID info = Some i ∧ Zone i = info_Zone info ∧ t ∈ Tokens i
  | None => ∀ k i, Ingesters d !! k = Some i → t ∉ Tokens i
  end.
Proof.
  unfold getTokensInfo.
  set (step := λ (out : gmap Z instanceInfo) '(instanceID, instance), _).
  assert (∀ (l : list (string * InstanceDesc)) out,
    match foldl step out l !! t with
    | Some info => (∃ i, (InstanceID info, i) ∈ l ∧ Zone i = info_Zone info ∧ t ∈ Tokens i) ∨
                   out !! t = Some info
    | None => out !! t = None ∧ ∀ k i, (k, i) ∈ l → t ∉ Tokens i
    end) as Hl.
  { induction l as [|[k i] l IH]; intros out; cbn [foldl].
    - destruct (out !! t); [by right|]. split; [done|]. by intros k i ?%elem_of_nil.
    - specialize (IH (step out (k, i))). destruct (foldl step _ l !! t) as [info|].
      + destruct IH as [(i' & Hin & Hz & Ht)|Hs].
        * left. exists i'. by rewrite elem_of_cons; auto.
        * unfold step in Hs. rewrite foldl_insert_tokens in Hs. case_decide; [|by right].
          injection Hs as <-. left. exists i. simpl. by rewrite elem_of_cons; auto.
      + destruct IH as [Hs Hn]. unfold step in Hs. rewrite foldl_insert_tokens in Hs.
        case_decide as Hti; [done|]. split; [done|].
        intros k' i' [[= -> ->]|Hin]%elem_of_cons; [done|]. by apply (Hn k'). }
  specialize (Hl (map_range 444 (Ingesters d)) ∅).
  destruct (foldl step ∅ _ !! t) as [info|].
  - destruct Hl as [(i & Hin%map_range_elem & ?)|?]; [eauto|done].
  - destruct Hl as [_ Hl]. intros k i Hk. apply (Hl k). by apply map_range_elem.
Qed.
End tokens.

(** ** [RingCompare] *)
(** an instance without its state and timestamp *)
Definition topology (i : InstanceDesc) : InstanceDesc := set_Timestamp 0 (set_State ACTIVE i).
Definition topologies (d : Desc) : gmap string InstanceDesc := topology <$> Ingesters d.

Lemma tokensDiffer_spec l1 l2 : length l1 = length l2 → tokensDiffer l1 l2 = false ↔ l1 = l2.
Proof.
  revert l2. induction l1 as [|x l1 IH]; intros [|y l2]; simpl; try (done || lia). intros Hl.
  case_bool_decide as Hxy; [naive_solver|]. rewrite IH by lia.
  destruct (decide (y = x)) as [->|]; [naive_solver|done].
Qed.

(** one instance against its namesake *)
Definition compare_instance (i oi : InstanceDesc) : CompareResult :=
  if bool_decide (topology i = topology oi)
  then if bool_decide (i = oi) then Equal else EqualButStatesAndTimestamps
  else Different.

Lemma instance_eq_parts i oi :
  i = oi ↔ topology i = topology oi ∧ State i = State oi ∧ Timestamp i = Timestamp oi.
Proof. destruct i, oi; unfold topology; simpl. naive_solver. Qed.

Lemma RingCompare_loop_cons name i oi l o e :
  Ingesters o !! name = Some oi →
  RingCompare_loop ((name, i) :: l) o e
  = match compare_instance i oi with
    | Different => Different
    | Equal => RingCompare_loop l o e
    | EqualButStatesAndTimestamps => RingCompare_loop l o false
    end.
Proof.
  intros Ho. cbn [RingCompare_loop]. rewrite Ho. unfold compare_instance.
  destruct i as [a ts s tk z rt], oi as [a' ts' s' tk' z' rt'].
  unfold topology, set_Timestamp, set_State. cbn [Addr Timestamp State Tokens Zone RegisteredTimestamp].
  pose proof (tokensDiffer_spec tk tk') as Ht.
  destruct (decide (mkInstanceDesc a 0 ACTIVE tk z rt = mkInstanceDesc a' 0 ACTIVE tk' z' rt')) as [Htop|Htop];
    [rewrite (bool_decide_eq_true_2 _ Htop)|rewrite (bool_decide_eq_false_2 _ Htop)].
  - injection Htop as -> -> -> ->.
    destruct (Ht eq_refl) as [_ Ht']. rewrite Ht' by done.
    repeat case_bool_decide; simplify_eq; done.
  - destruct (bool_decide_reflect (a ≠ a')); [done|].
    destruct (bool_decide_reflect (z ≠ z')); [done|].
    destruct (bool_decide_reflect (rt ≠ rt')); [done|].
    destruct (bool_decide_reflect (length tk ≠ length tk')) as [|Hl]; [done|].
    destruct (tokensDiffer tk tk') eqn:Hd; [done|]. destruct Htop.
    apply dec_stable in Hl. destruct (Ht Hl) as [Ht' _]. f_equal; try by apply dec_stable.
    by apply Ht'.
Qed.

Lemma RingCompare_loop_spec l o e :
  match RingCompare_loop l o e with
  | Equal => e = true ∧ ∀ k i, (k, i) ∈ l → Ingesters o !! k = Some i
  | EqualButStatesAndTimestamps =>
      (e = false ∨ ∃ k i, (k, i) ∈ l ∧ Ingesters o !! k ≠ Some i) ∧
      ∀ k i, (k, i) ∈ l → topology <$> Ingesters o !! k = Some (topology i)
  | Different => ∃ k i, (k, i) ∈ l ∧ topology <$> Ingesters o !! k ≠ Some (topology i)
  end.
Proof.
  revert e. induction l as [|[k i] l IH]; intros e.
  { simpl. destruct e; (split; [auto|]); by intros k i ?%elem_of_nil. }
  destruct (Ingesters o !! k) as [oi|] eqn:Ho.
  - rewrite (RingCompare_loop_cons k i oi) by done. unfold compare_instance.
    case_bool_decide as Ht; [|exists k, i; rewrite Ho; split; [by apply list_elem_of_here|naive_solver]].
    assert (∀ e', (e' = e ∧ i = oi ∨ e' = false ∧ i ≠ oi) →
      match RingCompare_loop l o e' with
      | Equal => e = true ∧ ∀ k0 i0, (k0, i0) ∈ (k, i) :: l → Ingesters o !! k0 = Some i0
      | EqualButStatesAndTimestamps =>
          (e = false ∨ ∃ k0 i0, (k0, i0) ∈ (k, i) :: l ∧ Ingesters o !! k0 ≠ Some i0) ∧
          ∀ k0 i0, (k0, i0) ∈ (k, i) :: l → topology <$> Ingesters o !! k0 = Some (topology i0)
      | Different => ∃ k0 i0, (k0, i0) ∈ (k, i) :: l ∧ topology <$> Ingesters o !! k0 ≠ Some (topology i0)
      end) as Hall.
    { intros e' He'. specialize (IH e'). destruct (RingCompare_loop l o e').
      - destruct IH as [-> IH]. destruct He' as [[<- ->]|[? _]]; [|done]. split; [done|].
        intros k0 i0 [[= -> ->]|Hin]%elem_of_cons; auto.
      - destruct IH as [Hor IH]. split.
        + destruct He' as [[-> ->]|[-> Hne]].
          * destruct Hor as [?|(k0 & i0 & ? & ?)]; [by left|]. right. exists k0, i0. by rewrite elem_of_cons; auto.
          * right. exists k, i. split; [by apply list_elem_of_here|]. congruence.
        + intros k0 i0 [[= -> ->]|Hin]%elem_of_cons; [by rewrite Ho; simpl; rewrite Ht|auto].
      - destruct IH as (k0 & i0 & ? & ?). exists k0, i0. by rewrite elem_of_cons; auto. }
    case_bool_decide; apply Hall; auto.
  - cbn [RingCompare_loop]. rewrite Ho. exists k, i. rewrite Ho. split; [by apply list_elem_of_here|done].
Qed.

Lemma map_eq_of_size (m1 m2 : gmap string InstanceDesc) :
  size m1 = size m2 → (∀ k i, m1 !! k = Some i → m2 !! k = Some i) → m1 = m2.
Proof.
  intros Hs Hsub. apply map_subseteq_size_eq; [by apply map_subseteq_spec|]. by rewrite Hs.
Qed.

Lemma RingCompare_spec `{R : MapRange} a b :
  match RingCompare (Some a) (Some b) with
  | Equal => a = b
  | EqualButStatesAndTimestamps => a ≠ b ∧ topologies a = topologies b
  | Different => topologies a ≠ topologies b
  end.
Proof.
  unfold RingCompare. case_bool_decide as Hs.
  { intros He. destruct Hs. apply (f_equal size) in He. unfold topologies in He.
    by rewrite !map_size_fmap in He. }
  pose proof (RingCompare_loop_spec (map_range 522 (Ingesters a)) b true) as Hl.
  destruct (RingCompare_loop _ _ _).
  - destruct Hl as [_ Hl]. enough (Ingesters a = Ingesters b) by (destruct a, b; simpl in *; congruence).
    apply map_eq_of_size; [done|]. intros k i Hk. apply Hl. by apply map_range_elem.
  - destruct Hl as [Hor Hl]. split.
    + intros ->. destruct Hor as [?|(k & i & Hin%map_range_elem & Hne)]; [done|]. by apply Hne.
    + apply map_eq_of_size; unfold topologies; [by rewrite !map_size_fmap|]. intros k i.
      rewrite !lookup_fmap. intros Hk. destruct (Ingesters a !! k) as [ia|] eqn:Ha; [|done].
      injection Hk as <-. apply Hl. by apply map_range_elem.
  - destruct Hl as (k & i & Hin%map_range_elem & Hne). intros He. apply Hne.
    unfold topologies in He. rewrite <- lookup_fmap, <- He, lookup_fmap, Hin. done.
Qed.

(** [RingCompare] decides: [Equal] for the same ring, [EqualButStatesAndTimestamps]
    for rings that differ but agree once states and timestamps are disregarded,
    [Different] otherwise (in the instances, their addresses, zones, tokens or
    registration times); a missing ring compares as an empty one. *)
Theorem RingCompare_decides `{R : MapRange} (a b : Desc) :
  (RingCompare (Some a) (Some b) = Equal ↔ a = b) ∧
  (RingCompare (Some a) (Some b) = EqualButStatesAndTimestamps ↔ a ≠ b ∧ topologies a = topologies b) ∧
  (RingCompare (Some a) (Some b) = Different ↔ topologies a ≠ topologies b) ∧
  (RingCompare None (Some b) = Equal ↔ Ingesters b = ∅) ∧
  (RingCompare (Some a) None = Equal ↔ Ingesters a = ∅) ∧ RingCompare None None = Equal.
Proof.
  pose proof (RingCompare_spec a b) as Hs.
  assert (∀ d, (if bool_decide (size (Ingesters d) = 0%nat) then Equal else Different) = Equal
               ↔ Ingesters d = ∅) as He.
  { intros d. rewrite <- map_size_empty_iff. by case_bool_decide. }
  destruct (RingCompare (Some a) (Some b)).
  - subst b. split_and!; try done; try apply He; split; try done; naive_solver.
  - split_and!; try apply He; try done; split; try done; naive_solver.
  - split_and!; try apply He; try done; split; try done; [intros ->; naive_solver|naive_solver].
Qed.
