(* ===== verification/Merge.v ===== *)
(** * Merging rings: the gossip merge of [ring/model.go]

    [normalizeIngestersMap], [conflictingTokensExist], [resolveConflicts] and
    [mergeWithTime], as the code writes them: folds over the range of a map,
    with the accumulators the loops keep. *)
From Stdlib Require Import ZArith Lia.
From stdpp Require Import base gmap strings list sorting fin_maps relations.
From S2P Require Import Prelude Model.

(** what [Merge] receives as a [memberlist.Mergeable] *)
Inductive Mergeable :=
| NilMergeable
| OtherMergeable (type_name : string)
| RingMergeable (d : option Desc).

(** the loop removing the elements equal to their predecessor *)
Fixpoint dedup_tokens (prev : Z) (l : list Z) : list Z :=
  match l with
  | [] => []
  | t :: l => if bool_decide (t = prev) then dedup_tokens prev l else t :: dedup_tokens t l
  end.

Fixpoint tokensEqual_loop (lhs rhs : list Z) : bool :=
  match lhs, rhs with
  | a :: lhs, b :: rhs => if bool_decide (a ≠ b) then false else tokensEqual_loop lhs rhs
  | _, _ => true
  end.
Definition tokensEqual (lhs rhs : list Z) : bool :=
  if bool_decide (length lhs ≠ length rhs) then false else tokensEqual_loop lhs rhs.

(** [conflictingTokensExist]: [None] is the early [return true] *)
Fixpoint conflict_tokens (ts : list Z) (tokensMap : gset Z) : option (gset Z) :=
  match ts with
  | [] => Some tokensMap
  | t :: ts =>
      if bool_decide (t ∈ tokensMap) then None else conflict_tokens ts ({[t]} ∪ tokensMap)
  end.
Fixpoint conflict_loop (l : list (string * InstanceDesc)) (tokensMap : gset Z) : bool :=
  match l with
  | [] => false
  | (_, ing) :: l =>
      match conflict_tokens (Tokens ing) tokensMap with
      | None => true
      | Some tokensMap => conflict_loop l tokensMap
      end
  end.

Section merge.
Context `{R : MapRange}.

Definition normalize_step (m : gmap string InstanceDesc) (e : string * InstanceDesc)
    : gmap string InstanceDesc :=
  let '(n, ing) := e in
  let '(m, ing) :=
    if bool_decide (State ing = LEFT)
    then (<[n := set_Tokens [] ing]> m, set_Tokens [] ing)
    else (m, ing) in
  if bool_decide (length (Tokens ing) = 0%nat) then m
  else
    let ts := if negb (IsSorted (Tokens ing)) then sort_tokens (Tokens ing) else Tokens ing in
    match ts with
    | [] => m
    | prev :: rest => <[n := set_Tokens (prev :: dedup_tokens prev rest) ing]> m
    end.
Definition normalizeIngestersMap (inputRing : Desc) : Desc :=
  mkDesc (foldl normalize_step (Ingesters inputRing) (map_range 284 (Ingesters inputRing))).

Definition conflictingTokensExist (normalizedIngesters : gmap string InstanceDesc) : bool :=
  conflict_loop (map_range 338 normalizedIngesters) ∅.

(** ** [resolveConflicts] *)
(** the [switch] choosing between two claimants of a token *)
Definition winnerKey (ingKey : string) (ing : InstanceDesc) (prevKey : string)
    (prevIng : InstanceDesc) : string :=
  if bool_decide (State ing = LEAVING) && bool_decide (State prevIng ≠ LEAVING) then prevKey
  else if bool_decide (State prevIng = LEAVING) && bool_decide (State ing ≠ LEAVING) then ingKey
  else if String.ltb ingKey prevKey then ingKey
  else if String.ltb prevKey ingKey then prevKey
  else ingKey.

Definition resolve_token (m : gmap string InstanceDesc) (ingKey : string) (ing : InstanceDesc)
    (acc : list Z * gmap Z string) (token : Z) : list Z * gmap Z string :=
  let '(tokens, tokenToIngester) := acc in
  match tokenToIngester !! token with
  | None => (tokens ++ [token], <[token := ingKey]> tokenToIngester)
  | Some prevKey =>
      let prevIng := default InstanceDesc_zero (m !! prevKey) in
      (tokens, <[token := winnerKey ingKey ing prevKey prevIng]> tokenToIngester)
  end.
Definition resolve_step (m : gmap string InstanceDesc) (acc : list Z * gmap Z string)
    (e : string * InstanceDesc) : list Z * gmap Z string :=
  let '(ingKey, ing) := e in
  if bool_decide (State ing = LEFT) then acc
  else foldl (resolve_token m ingKey ing) acc (Tokens ing).
Definition assign_token (tokenToIngester : gmap Z string) (lists : gmap string (list Z))
    (token : Z) : gmap string (list Z) :=
  let key := default "" (tokenToIngester !! token) in
  <[key := default [] (lists !! key) ++ [token]]> lists.
Definition writeback_step (m : gmap string InstanceDesc) (e : string * list Z)
    : gmap string InstanceDesc :=
  let '(key, tokens) := e in
  <[key := set_Tokens tokens (default InstanceDesc_zero (m !! key))]> m.
Definition resolveConflicts (normalizedIngesters : gmap string InstanceDesc)
    : gmap string InstanceDesc :=
  let '(tokens, tokenToIngester) :=
    foldl (resolve_step normalizedIngesters) ([], ∅) (map_range 364 normalizedIngesters) in
  let tokens := sort_tokens tokens in
  let newTokenLists :=
    foldl (λ lists '(key, _), <[key := []]> lists) ∅ (map_range 400 normalizedIngesters) in
  let newTokenLists := foldl (assign_token tokenToIngester) newTokenLists tokens in
  foldl writeback_step normalizedIngesters (map_range 413 newTokenLists).

(** ** [mergeWithTime] *)
Record merge_acc := mkMergeAcc {
  thisIngesterMap : gmap string InstanceDesc;
  updated : list string;
  tokensChanged : bool
}.

Definition merge_step (acc : merge_acc) (e : string * InstanceDesc) : merge_acc :=
  let '(name, oing) := e in
  let ting := default InstanceDesc_zero (thisIngesterMap acc !! name) in
  if bool_decide (Timestamp oing > Timestamp ting) then
    {| thisIngesterMap := <[name := oing]> (thisIngesterMap acc);
       updated := updated acc ++ [name];
       tokensChanged := if negb (tokensEqual (Tokens ting) (Tokens oing)) then true
                        else tokensChanged acc |}
  else if bool_decide (Timestamp oing = Timestamp ting) && bool_decide (State ting ≠ LEFT)
          && bool_decide (State oing = LEFT) then
    {| thisIngesterMap := <[name := oing]> (thisIngesterMap acc);
       updated := updated acc ++ [name];
       tokensChanged := tokensChanged acc |}
  else acc.

Definition cas_step (otherIngesterMap : gmap string InstanceDesc) (now : Z) (acc : merge_acc)
    (e : string * InstanceDesc) : merge_acc :=
  let '(name, ting) := e in
  if negb (bool_decide (is_Some (otherIngesterMap !! name))) && bool_decide (State ting ≠ LEFT) then
    {| thisIngesterMap :=
         <[name := mkInstanceDesc (Addr ting) (time_Unix now) LEFT [] (Zone ting)
                     (RegisteredTimestamp ting)]> (thisIngesterMap acc);
       updated := updated acc ++ [name];
       tokensChanged := tokensChanged acc |}
  else acc.

(** Returns the receiver and the argument as the call leaves them, and the
    returned change ([None] is a [nil] change). *)
Definition mergeWithTime (d : Desc) (mergeable : Mergeable) (localCAS : bool) (now : Z)
    : Desc * Mergeable * result model_error (option Desc) :=
  match mergeable with
  | NilMergeable => (d, mergeable, Ok None)
  | OtherMergeable ty => (d, mergeable, Err (ErrExpectedRingDesc ty))
  | RingMergeable None => (d, mergeable, Ok None)
  | RingMergeable (Some other) =>
      let other := normalizeIngestersMap other in
      let otherIngesterMap := Ingesters other in
      let acc := foldl merge_step (mkMergeAcc (Ingesters d) [] false)
                   (map_range 212 otherIngesterMap) in
      let acc :=
        if localCAS
        then foldl (cas_step otherIngesterMap now) acc (map_range 231 (thisIngesterMap acc))
        else acc in
      if bool_decide (length (updated acc) = 0%nat)
      then (mkDesc (thisIngesterMap acc), RingMergeable (Some other), Ok None)
      else
        let m := if tokensChanged acc && conflictingTokensExist (thisIngesterMap acc)
                 then resolveConflicts (thisIngesterMap acc) else thisIngesterMap acc in
        let out := foldl (λ out u, <[u := default InstanceDesc_zero (m !! u)]> out) ∅
                     (updated acc) in
        (mkDesc m, RingMergeable (Some other), Ok (Some (mkDesc out)))
  end.

Definition Merge (d : Desc) (mergeable : Mergeable) (localCAS : bool) (now : Z)
    : Desc * Mergeable * result model_error (option Desc) :=
  mergeWithTime d mergeable localCAS now.

(** the receiver after the call, for a non-nil ring argument *)
Definition merged (d o : Desc) (localCAS : bool) (now : Z) : Desc :=
  (mergeWithTime d (RingMergeable (Some o)) localCAS now).1.1.
Definition merge_change (d o : Desc) (localCAS : bool) (now : Z) : result model_error (option Desc) :=
  (mergeWithTime d (RingMergeable (Some o)) localCAS now).2.
End merge.
