(* ===== verification/MergeFacts.v ===== *)
(** * What the loops of the merge compute

    [normalizeIngestersMap] maps [norm_instance] over the ring; the merging
    loop computes the pointwise [join]; the [localCAS] loop marks missing
    instances as left; [resolveConflicts] keeps each token at its best claimant.
    Each is independent of the order in which the maps are ranged over. *)
From Stdlib Require Import ZArith Lia.
From stdpp Require Import base gmap strings list sorting fin_maps relations.
From S2P Require Import Prelude Model Merge.

(** ** Normal form of an instance *)
Definition norm_tokens (ts : list Z) : list Z :=
  match sort_tokens ts with [] => [] | prev :: rest => prev :: dedup_tokens prev rest end.
Definition norm_instance (i : InstanceDesc) : InstanceDesc :=
  set_Tokens (if bool_decide (State i = LEFT) then [] else norm_tokens (Tokens i)) i.

Definition normal_instance (i : InstanceDesc) : Prop :=
  SSorted (Tokens i) ∧ (State i = LEFT → Tokens i = []).
Definition normal_map (m : gmap string InstanceDesc) : Prop :=
  map_Forall (λ _ i, normal_instance i) m.
Definition normal (d : Desc) : Prop := normal_map (Ingesters d).

Lemma set_Tokens_id i : set_Tokens (Tokens i) i = i.
Proof. by destruct i. Qed.

Lemma dedup_tokens_spec p l :
  StronglySorted Z.le (p :: l) →
  SSorted (p :: dedup_tokens p l) ∧ ∀ t, t ∈ p :: dedup_tokens p l ↔ t ∈ p :: l.
Proof.
  revert p. induction l as [|x l IH]; intros p Hs; cbn [dedup_tokens].
  { split; [repeat constructor|done]. }
  apply StronglySorted_inv in Hs as [Hs Hf]. apply Forall_cons in Hf as [Hpx Hf].
  case_bool_decide as Hxp; [subst x|].
  - destruct (IH p Hs) as [H1 H2]. split; [done|]. intros t. rewrite H2, !elem_of_cons. tauto.
  - destruct (IH x Hs) as [H1 H2]. split.
    + constructor; [done|]. rewrite Forall_forall. intros t Ht. apply H2 in Ht.
      apply (StronglySorted_le_head x l t) in Ht; [lia|done].
    + intros t. rewrite (elem_of_cons _ t p), (elem_of_cons (x :: l) t p), H2. done.
Qed.

Lemma norm_tokens_SSorted ts : SSorted (norm_tokens ts).
Proof.
  unfold norm_tokens. pose proof (sort_tokens_sorted ts). case_match; [constructor|].
  by apply dedup_tokens_spec.
Qed.

Lemma norm_tokens_elem ts t : t ∈ norm_tokens ts ↔ t ∈ ts.
Proof.
  unfold norm_tokens. rewrite <- (sort_tokens_elem ts). pose proof (sort_tokens_sorted ts) as Hs.
  destruct (sort_tokens ts) as [|p l]; [done|]. by apply dedup_tokens_spec.
Qed.

Lemma norm_tokens_id ts : SSorted ts → norm_tokens ts = ts.
Proof.
  intros Hs. apply SSorted_ext; auto using norm_tokens_SSorted, norm_tokens_elem.
Qed.

Lemma norm_instance_normal i : normal_instance (norm_instance i).
Proof.
  unfold norm_instance, normal_instance. simpl. case_bool_decide.
  - split; [constructor|done].
  - split; [apply norm_tokens_SSorted|done].
Qed.

Lemma norm_instance_id i : normal_instance i → norm_instance i = i.
Proof.
  intros [Hs Hl]. unfold norm_instance. case_bool_decide as Hleft.
  - rewrite <- (Hl Hleft). apply set_Tokens_id.
  - rewrite norm_tokens_id by done. apply set_Tokens_id.
Qed.

#[export] Hint Resolve norm_instance_normal norm_tokens_SSorted : dskit.

Lemma tokensEqual_spec l1 l2 : tokensEqual l1 l2 = true ↔ l1 = l2.
Proof.
  unfold tokensEqual. case_bool_decide as Hl.
  { split; [done|]. by intros ->. }
  assert (length l1 = length l2) as Hlen by (destruct (decide (length l1 = length l2)); tauto).
  clear Hl. revert l2 Hlen. induction l1 as [|a l1 IH]; intros [|b l2] Hlen; try done.
  simpl. case_bool_decide as Hab.
  - split; [done|]. intros [= -> ->]. done.
  - rewrite IH by (simpl in Hlen; lia). split; [|congruence].
    intros ->. f_equal. destruct (decide (a = b)); tauto.
Qed.

(** ** The join of two rings *)
(** whether the entry [oing] of the other ring replaces our [ting] *)
Definition accepts (ting oing : InstanceDesc) : bool :=
  bool_decide (Timestamp oing > Timestamp ting) ||
  (bool_decide (Timestamp oing = Timestamp ting) && bool_decide (State ting ≠ LEFT)
     && bool_decide (State oing = LEFT)).
Definition pick (t : option InstanceDesc) (o : InstanceDesc) : option InstanceDesc :=
  if accepts (default InstanceDesc_zero t) o then Some o else t.
Definition join (m1 m2 : gmap string InstanceDesc) : gmap string InstanceDesc :=
  merge (λ t o, match o with Some o => pick t o | None => t end) m1 m2.
Definition left_instance (now : Z) (i : InstanceDesc) : InstanceDesc :=
  mkInstanceDesc (Addr i) (time_Unix now) LEFT [] (Zone i) (RegisteredTimestamp i).
(** the entry of a ring after the [localCAS] loop against a ring with domain [o] *)
Definition cas_missing (o : gmap string InstanceDesc) (now : Z) (k : string) (i : InstanceDesc)
    : InstanceDesc :=
  if negb (bool_decide (is_Some (o !! k))) && bool_decide (State i ≠ LEFT)
  then left_instance now i else i.
Definition cas_join (m o : gmap string InstanceDesc) (now : Z) : gmap string InstanceDesc :=
  map_imap (λ k i, Some (cas_missing o now k i)) m.

Lemma lookup_join m1 m2 k :
  join m1 m2 !! k = match m2 !! k with Some o => pick (m1 !! k) o | None => m1 !! k end.
Proof.
  unfold join. rewrite lookup_merge. unfold diag_None.
  by destruct (m1 !! k), (m2 !! k).
Qed.

Lemma lookup_cas_join m o now k :
  cas_join m o now !! k = cas_missing o now k <$> m !! k.
Proof. unfold cas_join. rewrite map_lookup_imap. by destruct (m !! k). Qed.

Section loops.
Context `{R : MapRange}.

Lemma normalize_step_lookup m n ing :
  normalize_step m (n, ing) =
    if bool_decide (State ing ≠ LEFT) && bool_decide (Tokens ing = []) then m
    else <[n := norm_instance ing]> m.
Proof.
  unfold normalize_step, norm_instance, norm_tokens.
  destruct (decide (State ing = LEFT)) as [Hl|Hl].
  - rewrite !(bool_decide_eq_true_2 (State ing = LEFT)) by done.
    rewrite (bool_decide_eq_false_2 (State ing ≠ LEFT)) by tauto. by simpl.
  - rewrite !(bool_decide_eq_false_2 (State ing = LEFT)) by done.
    rewrite (bool_decide_eq_true_2 (State ing ≠ LEFT)) by done. cbn [andb].
    destruct (Tokens ing) as [|x ts] eqn:Et; [done|]. rewrite <- Et.
    rewrite !bool_decide_eq_false_2 by (by rewrite Et).
    replace (if negb (IsSorted (Tokens ing)) then sort_tokens (Tokens ing) else Tokens ing)
      with (sort_tokens (Tokens ing)) by (rewrite <- sort_if_needed; by destruct (IsSorted _)).
    destruct (sort_tokens (Tokens ing)) as [|p rest] eqn:E; [|done].
    pose proof (sort_tokens_perm (Tokens ing)) as Hp. rewrite E, Et in Hp.
    by apply Permutation_nil_cons in Hp.
Qed.

Lemma normalizeIngestersMap_spec d :
  normalizeIngestersMap d = mkDesc (norm_instance <$> Ingesters d).
Proof.
  unfold normalizeIngestersMap. f_equal. apply map_eq. intros k. rewrite lookup_fmap.
  etrans; [apply (map_range_local (λ m, m) normalize_step (λ _ ing o,
     if bool_decide (State ing ≠ LEFT) && bool_decide (Tokens ing = []) then o
     else Some (norm_instance ing)))|].
  - intros m n ing. rewrite normalize_step_lookup. case_match; [done|]. apply lookup_insert_eq.
  - intros m n ing j Hj. rewrite normalize_step_lookup. case_match; [done|].
    by apply lookup_insert_ne.
  - destruct (Ingesters d !! k) as [i|]; [|done]. simpl.
    destruct (_ && _) eqn:E; [|done]. reflect.
    rewrite norm_instance_id; [done|]. split; [rewrite H0; constructor|done].
Qed.

Lemma normalizeIngestersMap_normal d : normal (normalizeIngestersMap d).
Proof.
  rewrite normalizeIngestersMap_spec. intros k i Hk. simpl in Hk.
  apply lookup_fmap_Some in Hk as (i' & <- & Hi). auto with dskit.
Qed.

Lemma normalizeIngestersMap_id d : normal d → normalizeIngestersMap d = d.
Proof.
  intros Hn. rewrite normalizeIngestersMap_spec. destruct d as [m]. f_equal. simpl.
  apply map_eq. intros k. rewrite lookup_fmap. destruct (m !! k) as [i|] eqn:E; [|done].
  simpl. f_equal. apply norm_instance_id, (Hn k i E).
Qed.

(** *** The merging loop *)
Lemma merge_step_accepts acc name oing :
  merge_step acc (name, oing) =
  let ting := default InstanceDesc_zero (thisIngesterMap acc !! name) in
  if accepts ting oing then
    {| thisIngesterMap := <[name := oing]> (thisIngesterMap acc);
       updated := updated acc ++ [name];
       tokensChanged := tokensChanged acc ||
         (bool_decide (Timestamp oing > Timestamp ting) &&
          bool_decide (Tokens ting ≠ Tokens oing)) |}
  else acc.
Proof.
  unfold merge_step, accepts. cbv zeta. set (ting := default _ _).
  destruct (bool_decide (Timestamp oing > Timestamp ting)); simpl.
  - f_equal. destruct (tokensEqual (Tokens ting) (Tokens oing)) eqn:E; simpl.
    + apply tokensEqual_spec in E. rewrite bool_decide_eq_false_2 by tauto.
      by rewrite orb_false_r.
    + rewrite bool_decide_eq_true_2; [by rewrite orb_true_r|].
      intros Heq%tokensEqual_spec. congruence.
  - rewrite orb_false_r. done.
Qed.

Lemma merge_loop_map site acc (o : gmap string InstanceDesc) :
  thisIngesterMap (foldl merge_step acc (map_range site o)) = join (thisIngesterMap acc) o.
Proof.
  apply map_eq. intros k. rewrite lookup_join.
  apply (map_range_local thisIngesterMap merge_step (λ _ o t, pick t o)).
  - intros a n oing. rewrite merge_step_accepts. cbv zeta. unfold pick.
    case_match; [apply lookup_insert_eq|done].
  - intros a n oing j Hj. rewrite merge_step_accepts. cbv zeta.
    case_match; [by apply lookup_insert_ne|done].
Qed.

Lemma merge_step_other acc k v (l : list (string * InstanceDesc)) j :
  j ∈ l.*1 → NoDup (k :: l.*1) →
  thisIngesterMap (merge_step acc (k, v)) !! j = thisIngesterMap acc !! j.
Proof.
  intros Hj Hnd. rewrite merge_step_accepts. cbv zeta. case_match; [|done]. simpl.
  apply lookup_insert_ne. intros ->. by inversion_clear Hnd.
Qed.

(** what holds of the accumulator after the loop if it holds before, or if one
    of the entries makes it hold *)
Lemma merge_loop_pred (P : merge_acc → Prop) (Q : string → InstanceDesc → InstanceDesc → Prop) :
  (∀ acc n v, P (merge_step acc (n, v)) ↔
     P acc ∨ Q n (default InstanceDesc_zero (thisIngesterMap acc !! n)) v) →
  ∀ (l : list (string * InstanceDesc)) acc, NoDup l.*1 →
    P (foldl merge_step acc l) ↔
    P acc ∨ ∃ n v, (n, v) ∈ l ∧ Q n (default InstanceDesc_zero (thisIngesterMap acc !! n)) v.
Proof.
  intros HP l. induction l as [|[n v] l IH]; intros acc Hnd; cbn [foldl].
  { split; [by left|]. intros [?|(?&?&Hin&_)]; [done|]. by apply elem_of_nil in Hin. }
  assert (NoDup l.*1) as Hnd' by (by inversion_clear Hnd). rewrite IH, HP by done.
  assert (∀ k w, (k, w) ∈ l →
    thisIngesterMap (merge_step acc (n, v)) !! k = thisIngesterMap acc !! k) as Hsame.
  { intros k w Hin. apply (merge_step_other _ _ _ l); [|done].
    by apply (list_elem_of_fmap_2 fst) in Hin. }
  split.
  - intros [[Hk|Hq]|(k & w & Hin & Hq)]; [by left| |].
    + right. exists n, v. split; [by constructor|done].
    + right. rewrite (Hsame k w Hin) in Hq. exists k, w. split; [by constructor|done].
  - intros [Hk|(k & w & [[= -> ->]|Hin]%elem_of_cons & Hq)]; [by left; left|by left; right|].
    right. exists k, w. by rewrite (Hsame k w Hin).
Qed.

(** an entry of the other ring that is accepted, one that changes tokens *)
Definition accepted (m o : gmap string InstanceDesc) (k : string) : Prop :=
  ∃ oing, o !! k = Some oing ∧ accepts (default InstanceDesc_zero (m !! k)) oing = true.
Definition changes_tokens (m o : gmap string InstanceDesc) (k : string) : Prop :=
  ∃ oing, o !! k = Some oing ∧
    Timestamp oing > Timestamp (default InstanceDesc_zero (m !! k)) ∧
    Tokens (default InstanceDesc_zero (m !! k)) ≠ Tokens oing.

Lemma merge_loop_updated site m o k :
  k ∈ updated (foldl merge_step (mkMergeAcc m [] false) (map_range site o)) ↔ accepted m o k.
Proof.
  rewrite (merge_loop_pred (λ acc, k ∈ updated acc)
    (λ n ting v, n = k ∧ accepts ting v = true)).
  - simpl. rewrite elem_of_nil. unfold accepted. setoid_rewrite map_range_elem.
    split; [intros [[]|(n & v & ? & -> & ?)]; eauto | intros (v & ? & ?); right; eauto].
  - intros acc n v. rewrite merge_step_accepts. cbv zeta.
    destruct (accepts _ v); simpl.
    + rewrite elem_of_app, list_elem_of_singleton.
      split; (intros [?|?]; [by left|right]); intuition congruence.
    + split; [by left|]. intros [?|[_ ?]]; done.
  - apply map_range_NoDup_fst.
Qed.

Lemma merge_loop_tokensChanged site m o :
  tokensChanged (foldl merge_step (mkMergeAcc m [] false) (map_range site o)) = true ↔
  ∃ k, changes_tokens m o k.
Proof.
  rewrite (merge_loop_pred (λ acc, tokensChanged acc = true)
    (λ n ting v, Timestamp v > Timestamp ting ∧ Tokens ting ≠ Tokens v)).
  - simpl. unfold changes_tokens. setoid_rewrite map_range_elem.
    split; [intros [?|(n & v & ?)]; [done|eauto]|intros (k & v & ?); right; eauto].
  - intros acc n v. rewrite merge_step_accepts. cbv zeta. unfold accepts.
    set (ting := default _ _). case_bool_decide as Ht; simpl.
    + rewrite orb_true_iff, bool_decide_eq_true. tauto.
    + assert (¬ (Timestamp v > Timestamp ting ∧ Tokens ting ≠ Tokens v)) by tauto.
      destruct (_ && _); simpl; rewrite ?orb_false_r; tauto.
  - apply map_range_NoDup_fst.
Qed.

(** *** The [localCAS] loop *)
Lemma cas_step_eq o now acc name ting :
  cas_step o now acc (name, ting) =
  if negb (bool_decide (is_Some (o !! name))) && bool_decide (State ting ≠ LEFT)
  then mkMergeAcc (<[name := left_instance now ting]> (thisIngesterMap acc))
         (updated acc ++ [name]) (tokensChanged acc)
  else acc.
Proof. done. Qed.

Lemma cas_loop_map site o now acc :
  thisIngesterMap (foldl (cas_step o now) acc (map_range site (thisIngesterMap acc)))
  = cas_join (thisIngesterMap acc) o now.
Proof.
  apply map_eq. intros k. rewrite lookup_cas_join.
  etrans; [apply (map_range_local thisIngesterMap (cas_step o now)
    (λ k i t, if negb (bool_decide (is_Some (o !! k))) && bool_decide (State i ≠ LEFT)
              then Some (left_instance now i) else t))|].
  - intros a n i. rewrite cas_step_eq. case_match; [apply lookup_insert_eq|done].
  - intros a n i j Hj. rewrite cas_step_eq. case_match; [by apply lookup_insert_ne|done].
  - destruct (thisIngesterMap acc !! k) as [i|] eqn:E; [|done]. simpl. unfold cas_missing.
    by case_match.
Qed.

Lemma cas_loop_updated o now (l : list (string * InstanceDesc)) acc k :
  k ∈ updated (foldl (cas_step o now) acc l) ↔
  k ∈ updated acc ∨ ∃ i, (k, i) ∈ l ∧ o !! k = None ∧ State i ≠ LEFT.
Proof.
  revert acc. induction l as [|[n i] l IH]; intros acc; cbn [foldl].
  { split; [by left|]. intros [?|(?&Hin&_)]; [done|]. by apply elem_of_nil in Hin. }
  rewrite IH, cas_step_eq. setoid_rewrite elem_of_cons.
  destruct (_ && _) eqn:E; reflect; simpl.
  - rewrite elem_of_app, list_elem_of_singleton. rewrite <- eq_None_not_Some in H.
    split.
    + intros [[?| ->]|(j & ? & ?)]; [by left| |]; right; [exists i; tauto|exists j; tauto].
    + intros [?|(j & [[= -> ->]|?] & ?)]; [by left; left|by left; right|]. right. by exists j.
  - split.
    + intros [?|(j & ? & ?)]; [by left|]. right. exists j. tauto.
    + intros [?|(j & [[= -> ->]|?] & Hn & ?)]; [by left| |right; by exists j].
      destruct E as [E|E]; reflect; [|done]. rewrite Hn in E. by destruct E.
Qed.

Lemma cas_loop_tokensChanged o now (l : list (string * InstanceDesc)) acc :
  tokensChanged (foldl (cas_step o now) acc l) = tokensChanged acc.
Proof.
  revert acc. induction l as [|[n i] l IH]; intros acc; cbn [foldl]; [done|].
  rewrite IH, cas_step_eq. by case_match.
Qed.
End loops.
