(* ===== verification/ResolveFacts.v ===== *)
(** * Token conflict resolution

    [resolveConflicts] against its specification: the claimants of a token are
    totally ordered by [beats] (an instance that is not LEAVING beats a LEAVING
    one, then the lower name wins), and every claimed token ends up with the
    [best] claimant and with nobody else. *)
From Stdlib Require Import ZArith Lia.
From stdpp Require Import base gmap strings list sorting fin_maps relations.
From S2P Require Import Prelude Model Merge MergeFacts.

(** ** The order on claimants *)
Definition claims (m : gmap string InstanceDesc) (k : string) (t : Z) : Prop :=
  ∃ i, m !! k = Some i ∧ State i ≠ LEFT ∧ t ∈ Tokens i.

Definition beats (k1 : string) (i1 : InstanceDesc) (k2 : string) (i2 : InstanceDesc) : Prop :=
  (State i1 ≠ LEAVING ∧ State i2 = LEAVING) ∨
  ((State i1 = LEAVING ↔ State i2 = LEAVING) ∧ String.ltb k1 k2 = true).
Definition beats_in (m : gmap string InstanceDesc) (k1 k2 : string) : Prop :=
  beats k1 (default InstanceDesc_zero (m !! k1)) k2 (default InstanceDesc_zero (m !! k2)).

Definition best (m : gmap string InstanceDesc) (t : Z) (k : string) : Prop :=
  claims m k t ∧ ∀ k', claims m k' t → k' = k ∨ beats_in m k k'.

Lemma ltb_compare s1 s2 : String.ltb s1 s2 = true ↔ String.compare s1 s2 = Lt.
Proof. unfold String.ltb. destruct (String.compare s1 s2); split; congruence. Qed.

Lemma ltb_irrefl s : String.ltb s s = false.
Proof.
  destruct (String.ltb s s) eqn:E; [|done]. apply ltb_compare in E.
  pose proof (String.compare_antisym s s) as Ha. rewrite E in Ha. discriminate Ha.
Qed.

Lemma ltb_asym s1 s2 : String.ltb s1 s2 = true → String.ltb s2 s1 = false.
Proof.
  rewrite ltb_compare. intros E. destruct (String.ltb s2 s1) eqn:E2; [|done].
  apply ltb_compare in E2. rewrite String.compare_antisym, E2 in E. done.
Qed.

Lemma ltb_total s1 s2 : s1 ≠ s2 → String.ltb s1 s2 = true ∨ String.ltb s2 s1 = true.
Proof.
  intros Hne. rewrite !ltb_compare, (String.compare_antisym s2 s1).
  destruct (String.compare s1 s2) eqn:E; [|by left|by right].
  by apply String.compare_eq_iff in E.
Qed.

Lemma beats_asym k1 i1 k2 i2 : beats k1 i1 k2 i2 → beats k2 i2 k1 i1 → False.
Proof.
  intros [[??]|[H1 H2]] [[??]|[H3 H4]]; try tauto.
  apply ltb_asym in H2. congruence.
Qed.

Lemma beats_total k1 i1 k2 i2 : k1 ≠ k2 → beats k1 i1 k2 i2 ∨ beats k2 i2 k1 i1.
Proof.
  intros Hne. unfold beats.
  destruct (decide (State i1 = LEAVING)), (decide (State i2 = LEAVING));
    destruct (ltb_total k1 k2 Hne); tauto.
Qed.

Lemma ltb_trans s1 s2 s3 :
  String.ltb s1 s2 = true → String.ltb s2 s3 = true → String.ltb s1 s3 = true.
Proof.
  intros H1 H2. destruct (String.ltb s1 s3) eqn:E; [done|].
  destruct (decide (s1 = s3)) as [->|Hne].
  { apply ltb_asym in H1. congruence. }
  destruct (ltb_total s1 s3 Hne) as [|H3]; [congruence|].
  assert (∀ a b, String.ltb a b = true → String.le a b) as Hle.
  { intros a b. unfold String.le, String.leb, String.ltb. by destruct (String.compare a b). }
  apply Hle in H1 as L1. apply Hle in H2 as L2. apply Hle in H3 as L3.
  assert (String.le s1 s3) as L4 by (by transitivity s2).
  by destruct Hne; apply (anti_symm String.le).
Qed.

Lemma beats_trans k1 i1 k2 i2 k3 i3 :
  beats k1 i1 k2 i2 → beats k2 i2 k3 i3 → beats k1 i1 k3 i3.
Proof.
  intros [[??]|[H1 H2]] [[??]|[H3 H4]]; unfold beats; try tauto.
  right. split; [tauto|]. by eapply ltb_trans.
Qed.

(** the [switch] of [resolveConflicts] selects by [beats] *)
Lemma winnerKey_spec k i kp ip :
  (winnerKey k i kp ip = k ∧ (k = kp ∨ beats k i kp ip)) ∨
  (winnerKey k i kp ip = kp ∧ beats kp ip k i).
Proof.
  unfold winnerKey, beats.
  destruct (decide (State i = LEAVING)) as [H1|H1], (decide (State ip = LEAVING)) as [H2|H2];
    repeat ((rewrite bool_decide_eq_true_2 by done) || (rewrite bool_decide_eq_false_2 by tauto));
    cbn [andb].
  2: by right; auto.
  2: by left; split; [done|]; right; left.
  all: destruct (String.ltb k kp) eqn:E1; [by left; split; [|right; right; split; [tauto|]]|].
  all: destruct (String.ltb kp k) eqn:E2; [by right; split; [|right; split; [tauto|]]|].
  all: left; split; [done|]; left.
  all: destruct (decide (k = kp)) as [|Hne]; [done|].
  all: destruct (ltb_total k kp Hne); congruence.
Qed.

Lemma best_unique m t k1 k2 : best m t k1 → best m t k2 → k1 = k2.
Proof.
  intros [Hc1 H1] [Hc2 H2]. destruct (H1 k2 Hc2) as [->|B1]; [done|].
  destruct (H2 k1 Hc1) as [->|B2]; [done|]. by destruct (beats_asym _ _ _ _ B1 B2).
Qed.

(** ** The loop collecting tokens and their current winners *)
Section resolve.
Context `{R : MapRange} (m : gmap string InstanceDesc).

(** [P k t]: the claim of [k] on [t] has been processed *)
Record resolve_inv (P : string → Z → Prop) (acc : list Z * gmap Z string) : Prop := {
  ri_nodup : NoDup acc.1;
  ri_dom : ∀ t, t ∈ acc.1 ↔ is_Some (acc.2 !! t);
  ri_best : ∀ t k, acc.2 !! t = Some k → P k t ∧ ∀ k', P k' t → k' = k ∨ beats_in m k k';
  ri_all : ∀ t k, P k t → is_Some (acc.2 !! t)
}.

Lemma resolve_inv_iff P P' acc :
  (∀ k t, P k t ↔ P' k t) → resolve_inv P acc → resolve_inv P' acc.
Proof.
  intros HP [H1 H2 H3 H4]. split; try done.
  - intros t k Hk. destruct (H3 t k Hk) as [Hp Hb]. split; [by apply HP|].
    intros k' Hk'. by apply Hb, HP.
  - intros t k Hp. by apply (H4 t k), HP.
Qed.

Lemma resolve_token_inv P acc k i t :
  m !! k = Some i → resolve_inv P acc →
  resolve_inv (λ k' t', P k' t' ∨ (k' = k ∧ t' = t)) (resolve_token m k i acc t).
Proof.
  intros Hm [H1 H2 H3 H4]. destruct acc as [tokens tti]. unfold resolve_token. simpl in *.
  destruct (tti !! t) as [kp|] eqn:Ekp; split; simpl.
  - done.
  - intros t'. rewrite H2. destruct (decide (t = t')) as [<-|Hne]; simplify_map_eq; [|done].
    split; eauto.
  - intros t' k'. destruct (decide (t = t')) as [<-|Hne]; simplify_map_eq.
    + intros [= <-]. destruct (H3 t kp Ekp) as [Hp Hb].
      assert (default InstanceDesc_zero (m !! k) = i) as Hi by (by rewrite Hm).
      destruct (winnerKey_spec k i kp (default InstanceDesc_zero (m !! kp))) as [[-> Hw]|[-> Hw]].
      * split; [auto|]. intros k' [Hk'|[-> _]]; [|auto]. unfold beats_in. rewrite Hi.
        destruct Hw as [->|Hw]; [destruct (Hb k' Hk') as [|Hb']; [auto|right; by rewrite <- Hi]|].
        destruct (Hb k' Hk') as [->|Hb']; [auto|]. right. by eapply beats_trans.
      * split; [auto|]. intros k' [Hk'|[-> _]]; [auto|]. right. unfold beats_in. by rewrite Hi.
    + intros Hk'. destruct (H3 t' k' Hk') as [Hp Hb]. split; [auto|].
      intros k'' [Hk''|[_ ->]]; [auto|done].
  - intros t' k' Hk'. destruct (decide (t = t')) as [<-|Hne]; simplify_map_eq; [eauto|].
    destruct Hk' as [Hk'|[_ ->]]; [eauto|done].
  - rewrite NoDup_app. split; [done|]. split; [|apply NoDup_singleton].
    intros t' Ht' ->%list_elem_of_singleton. apply H2 in Ht'. rewrite Ekp in Ht'. by destruct Ht'.
  - intros t'. rewrite elem_of_app, list_elem_of_singleton, H2.
    destruct (decide (t = t')) as [<-|Hne]; simplify_map_eq; [split; eauto|].
    split; [intros [?| ->]; done|auto].
  - intros t' k'. destruct (decide (t = t')) as [<-|Hne]; simplify_map_eq.
    + intros [= <-]. split; [auto|]. intros k' [Hk'|[-> _]]; [|auto].
      apply H4 in Hk'. rewrite Ekp in Hk'. by destruct Hk'.
    + intros Hk'. destruct (H3 t' k' Hk') as [Hp Hb]. split; [auto|].
      intros k'' [Hk''|[_ ->]]; [auto|done].
  - intros t' k' Hk'. destruct (decide (t = t')) as [<-|Hne]; simplify_map_eq; [eauto|].
    destruct Hk' as [Hk'|[_ ->]]; [eauto|done].
Qed.

Lemma resolve_tokens_inv P acc k i ts :
  m !! k = Some i → resolve_inv P acc →
  resolve_inv (λ k' t', P k' t' ∨ (k' = k ∧ t' ∈ ts)) (foldl (resolve_token m k i) acc ts).
Proof.
  intros Hm. revert P acc. induction ts as [|t ts IH]; intros P acc Hinv; cbn [foldl].
  - eapply resolve_inv_iff; [|done]. intros k' t'. rewrite elem_of_nil. tauto.
  - eapply resolve_inv_iff; [|apply IH, resolve_token_inv; [done|exact Hinv]].
    intros k' t'. rewrite elem_of_cons. tauto.
Qed.

Lemma resolve_loop_inv (l : list (string * InstanceDesc)) P acc :
  (∀ k i, (k, i) ∈ l → m !! k = Some i) → resolve_inv P acc →
  resolve_inv (λ k t, P k t ∨ ∃ i, (k, i) ∈ l ∧ State i ≠ LEFT ∧ t ∈ Tokens i)
    (foldl (resolve_step m) acc l).
Proof.
  revert P acc. induction l as [|[k i] l IH]; intros P acc Hl Hinv; cbn [foldl].
  - eapply resolve_inv_iff; [|done]. intros k' t'. setoid_rewrite elem_of_nil.
    split; [by left|]. by intros [?|(?&[]&_)].
  - assert (m !! k = Some i) as Hk by (apply Hl; by constructor).
    eapply resolve_inv_iff; [|apply (IH (λ k' t', P k' t' ∨ (k' = k ∧ State i ≠ LEFT ∧ t' ∈ Tokens i)))].
    + intros k' t'. setoid_rewrite elem_of_cons. split.
      * intros [[?|(-> & ? & ?)]|(j & ? & ?)]; [by left| |]; right; [exists i|exists j]; tauto.
      * intros [?|(j & [[= -> ->]|?] & ?)]; [by left; left|left; right; tauto|right; by exists j].
    + intros k' i' Hin. apply Hl. by constructor.
    + unfold resolve_step. case_bool_decide.
      * eapply resolve_inv_iff; [|done]. tauto.
      * eapply resolve_inv_iff; [|by apply resolve_tokens_inv]. tauto.
Qed.

Lemma resolve_collect :
  resolve_inv (claims m) (foldl (resolve_step m) ([], ∅) (map_range 364 m)).
Proof.
  eapply resolve_inv_iff; [|apply (resolve_loop_inv _ (λ _ _, False))].
  - intros k t. unfold claims. setoid_rewrite map_range_elem. tauto.
  - intros k i. by rewrite map_range_elem.
  - split; simpl; try done; [constructor|]. intros t. rewrite lookup_empty, elem_of_nil.
    split; [done|]. by intros [].
Qed.

(** ** Distributing the tokens *)
Lemma assign_tokens_lookup tti ts lists key :
  (∀ t, t ∈ ts → ∃ k, tti !! t = Some k ∧ is_Some (lists !! k)) →
  foldl (assign_token tti) lists ts !! key =
  (λ l0, l0 ++ filter (λ t, tti !! t = Some key) ts) <$> (lists : gmap string (list Z)) !! key.
Proof.
  revert lists. induction ts as [|t ts IH]; intros lists Hts; cbn [foldl].
  { destruct (lists !! key); simpl; [by rewrite app_nil_r|done]. }
  destruct (Hts t) as (k & Hk & [l0 Hl0]); [by constructor|].
  unfold assign_token at 2. rewrite Hk. simpl. rewrite Hl0. simpl.
  rewrite IH.
  - rewrite filter_cons, Hk. destruct (decide (k = key)) as [->|Hne].
    + rewrite lookup_insert_eq, Hl0, decide_True by done. simpl. by rewrite <- app_assoc.
    + rewrite lookup_insert_ne by done. by rewrite decide_False by congruence.
  - intros t' Ht'. destruct (Hts t') as (k' & Hk' & Hs); [by constructor|].
    exists k'. split; [done|]. destruct (decide (k = k')) as [<-|]; simplify_map_eq; eauto.
Qed.

Lemma empty_lists_lookup site key :
  foldl (λ lists '(key, _), <[key := []]> lists) (∅ : gmap string (list Z)) (map_range site m) !! key
  = (λ _, []) <$> m !! key.
Proof.
  etrans; [apply (map_range_local (λ l, l) _ (λ _ _ _, Some []))|].
  - intros a k v. apply lookup_insert_eq.
  - intros a k v j Hj. by apply lookup_insert_ne.
  - destruct (m !! key); [done|]. apply lookup_empty.
Qed.

Lemma resolveConflicts_lookup :
  ∃ tok : string → list Z,
    (∀ k, SSorted (tok k)) ∧ (∀ k t, t ∈ tok k ↔ best m t k) ∧
    (∀ k, resolveConflicts m !! k = set_Tokens (tok k) <$> m !! k).
Proof.
  unfold resolveConflicts. pose proof resolve_collect as [H1 H2 H3 H4].
  destruct (foldl _ _ _) as [tokens tti]. simpl in *.
  exists (λ k, filter (λ t, tti !! t = Some k) (sort_tokens tokens)).
  assert (∀ t k, tti !! t = Some k ↔ best m t k) as Hbest.
  { intros t k. split; [apply H3|]. intros Hb. destruct (H4 t k) as [k' Hk']; [apply Hb|].
    rewrite Hk'. f_equal. eapply best_unique; [apply (H3 t k' Hk')|done]. }
  split; [intros k; by apply StronglySorted_filter, SSorted_sort|]. split.
  { intros k t. rewrite list_elem_of_filter, sort_tokens_elem, H2, Hbest. split; [tauto|].
    intros Hb. split; [done|]. exists k. by apply Hbest. }
  intros k. etrans; [apply (map_range_local (λ m, m) writeback_step
    (λ _ v o, Some (set_Tokens v (default InstanceDesc_zero o))))|].
  - intros a n v. apply lookup_insert_eq.
  - intros a n v j Hj. by apply lookup_insert_ne.
  - rewrite assign_tokens_lookup, empty_lists_lookup; [by destruct (m !! k)|].
    intros t Ht. rewrite sort_tokens_elem, H2 in Ht. destruct Ht as [k' Hk'].
    exists k'. split; [done|]. rewrite empty_lists_lookup.
    apply H3 in Hk' as [(i & Hi & _) _]. rewrite Hi. eauto.
Qed.

(** every claimed token has a best claimant *)
Lemma best_exists k t : claims m k t → ∃ k', best m t k'.
Proof.
  intros Hc. pose proof resolve_collect as [_ _ H3 H4].
  destruct (H4 t k Hc) as [k' Hk']. exists k'. by apply H3.
Qed.
End resolve.

Lemma claims_normal m k t i :
  normal_map m → m !! k = Some i → claims m k t ↔ t ∈ Tokens i.
Proof.
  intros Hn Hk. unfold claims. split.
  - intros (i' & ? & _ & ?). by simplify_eq.
  - intros Ht. exists i. split; [done|]. split; [|done]. intros Hl.
    destruct (Hn k i Hk) as [_ Hl']. rewrite (Hl' Hl) in Ht. by apply elem_of_nil in Ht.
Qed.

(** ** Absence of conflicts *)
Definition conflict_free (m : gmap string InstanceDesc) : Prop :=
  ∀ k1 k2 i1 i2 t, m !! k1 = Some i1 → m !! k2 = Some i2 →
    t ∈ Tokens i1 → t ∈ Tokens i2 → k1 = k2.

Definition tokens_of (l : list (string * InstanceDesc)) : list Z :=
  concat (map (λ e, Tokens e.2) l).

Lemma elem_of_tokens_of l t : t ∈ tokens_of l ↔ ∃ k i, (k, i) ∈ l ∧ t ∈ Tokens i.
Proof.
  unfold tokens_of. rewrite elem_of_concat. setoid_rewrite list_elem_of_fmap. split.
  - intros (ts & ([k i] & -> & Hl) & Ht). eauto.
  - intros (k & i & Hl & Ht). exists (Tokens i). split; [|done]. by exists (k, i).
Qed.

Lemma conflict_tokens_None ts s :
  conflict_tokens ts s = None ↔ ¬ (NoDup ts ∧ ∀ t, t ∈ ts → t ∉ s).
Proof.
  revert s. induction ts as [|t ts IH]; intros s; cbn [conflict_tokens].
  { split; [done|]. intros []. split; [constructor|]. intros t []%elem_of_nil. }
  case_bool_decide as Hin.
  { split; [|done]. intros _ [_ H]. apply (H t); [by constructor|done]. }
  rewrite IH, NoDup_cons. setoid_rewrite elem_of_cons. split; intros Hn Hc; apply Hn.
  - destruct Hc as [[Hnt Hnd] Hs]. split; [done|]. intros t' Ht'.
    rewrite elem_of_union, elem_of_singleton. intros [->|H]; [done|]. apply (Hs t'); auto.
  - destruct Hc as [Hnd Hs]. split; [split; [|done]|].
    + intros Ht. apply (Hs t Ht). set_solver.
    + intros t' [->|Ht']; [done|]. specialize (Hs t' Ht'). set_solver.
Qed.

Lemma conflict_tokens_Some ts s s' :
  conflict_tokens ts s = Some s' → ∀ t, t ∈ s' ↔ t ∈ ts ∨ t ∈ s.
Proof.
  revert s. induction ts as [|x ts IH]; intros s; cbn [conflict_tokens].
  { intros [= <-] t. rewrite elem_of_nil. tauto. }
  case_bool_decide; [done|]. intros Hs t. rewrite (IH _ Hs t), elem_of_cons. set_solver.
Qed.

Lemma conflict_loop_false l s :
  conflict_loop l s = false ↔ NoDup (tokens_of l) ∧ ∀ t, t ∈ tokens_of l → t ∉ s.
Proof.
  revert s. induction l as [|[k i] l IH]; intros s; cbn [conflict_loop].
  { split; [|done]. split; [constructor|]. intros t []%elem_of_nil. }
  change (tokens_of ((k, i) :: l)) with (Tokens i ++ tokens_of l).
  rewrite NoDup_app. setoid_rewrite elem_of_app.
  destruct (conflict_tokens (Tokens i) s) as [s'|] eqn:E.
  - pose proof (conflict_tokens_Some _ _ _ E) as Hs'. rewrite IH. setoid_rewrite Hs'.
    assert (¬ conflict_tokens (Tokens i) s = None) as Hn by (by rewrite E).
    rewrite conflict_tokens_None in Hn.
    assert (NoDup (Tokens i) ∧ ∀ t, t ∈ Tokens i → t ∉ s) as [H1 H2].
    { destruct (decide (NoDup (Tokens i))) as [Hd|]; [|tauto]. split; [done|].
      intros t Ht Hts. apply Hn. intros [_ H]. by apply (H t). }
    split.
    + intros [Hnd Hd]. split; [split; [done|split; [|done]]|].
      * intros t Ht Ht'. apply (Hd t Ht'). auto.
      * intros t [Ht|Ht]; [auto|]. intros Hs. apply (Hd t Ht). auto.
    + intros [(_ & Hx & Hnd) Hd]. split; [done|]. intros t Ht [Hi|Hs]; [by apply (Hx t)|].
      apply (Hd t); auto.
  - apply conflict_tokens_None in E. split; [done|].
    intros [(H1 & _) H2]. destruct E. split; [done|]. intros t Ht. apply H2. auto.
Qed.

Lemma NoDup_tokens_of l k1 i1 k2 i2 t :
  NoDup (tokens_of l) → (k1, i1) ∈ l → (k2, i2) ∈ l → t ∈ Tokens i1 → t ∈ Tokens i2 → k1 = k2.
Proof.
  induction l as [|[k i] l IH]; intros Hnd Hl1 Hl2 H1 H2; [by apply elem_of_nil in Hl1|].
  change (tokens_of ((k, i) :: l)) with (Tokens i ++ tokens_of l) in Hnd.
  apply NoDup_app in Hnd as (_ & Hx & Hnd).
  apply elem_of_cons in Hl1 as [[= -> ->]|Hl1], Hl2 as [[= -> ->]|Hl2]; auto; exfalso.
  - apply (Hx t H1), elem_of_tokens_of. eauto.
  - apply (Hx t H2), elem_of_tokens_of. eauto.
Qed.

Lemma tokens_of_NoDup l :
  NoDup l.*1 → (∀ k i, (k, i) ∈ l → NoDup (Tokens i)) →
  (∀ k1 i1 k2 i2 t, (k1, i1) ∈ l → (k2, i2) ∈ l → t ∈ Tokens i1 → t ∈ Tokens i2 → k1 = k2) →
  NoDup (tokens_of l).
Proof.
  induction l as [|[k i] l IH]; intros Hk Hn Hx; [constructor|].
  change (tokens_of ((k, i) :: l)) with (Tokens i ++ tokens_of l).
  inversion_clear Hk as [|? ? Hkl Hk']. rewrite NoDup_app. split; [|split].
  - apply (Hn k). by constructor.
  - intros t Ht (k' & i' & Hin & Ht')%elem_of_tokens_of.
    assert (k = k') as <- by (apply (Hx k i k' i' t); try done; by constructor).
    apply Hkl. by apply (list_elem_of_fmap_2 fst) in Hin.
  - apply IH; [done| |].
    + intros k' i' Hin. apply (Hn k'). by constructor.
    + intros k1 i1 k2 i2 t Hl1 Hl2. apply Hx; by constructor.
Qed.

Section conflicts.
Context `{R : MapRange}.

Lemma conflictingTokensExist_spec m :
  normal_map m → conflictingTokensExist m = false ↔ conflict_free m.
Proof.
  intros Hn. unfold conflictingTokensExist. rewrite conflict_loop_false. split.
  - intros [Hnd _] k1 k2 i1 i2 t H1 H2. apply (NoDup_tokens_of (map_range 338 m)); [done| |];
      by apply map_range_elem.
  - intros Hcf. split; [|set_solver]. apply tokens_of_NoDup.
    + apply map_range_NoDup_fst.
    + intros k i Hin. apply SSorted_NoDup, (Hn k i). by apply map_range_elem in Hin.
    + intros k1 i1 k2 i2 t H1%map_range_elem H2%map_range_elem. by apply (Hcf k1 k2 i1 i2 t).
Qed.

(** the result does not depend on the order the maps are ranged over *)
Lemma resolveConflicts_order (R' : MapRange) m :
  resolveConflicts (R:=R) m = resolveConflicts (R:=R') m.
Proof.
  destruct (resolveConflicts_lookup (R:=R) m) as (f & Hs & Hf & Hl).
  destruct (resolveConflicts_lookup (R:=R') m) as (f' & Hs' & Hf' & Hl').
  apply map_eq. intros k. rewrite Hl, Hl'. f_equal. f_equal.
  apply SSorted_ext; try done. intros t. by rewrite Hf, Hf'.
Qed.

Lemma resolveConflicts_id m : normal_map m → conflict_free m → resolveConflicts m = m.
Proof.
  intros Hn Hcf. destruct (resolveConflicts_lookup m) as (f & Hs & Hf & Hl).
  apply map_eq. intros k. rewrite Hl. destruct (m !! k) as [i|] eqn:Hk; [|done].
  simpl. f_equal. rewrite <- (set_Tokens_id i) at 2. f_equal.
  apply SSorted_ext; [done|apply (Hn k i Hk)|]. intros t. rewrite Hf. split.
  - intros [Hc _]. by eapply claims_normal in Hc.
  - intros Ht. split; [by eapply claims_normal|]. intros k' (i' & Hk' & _ & Ht').
    left. by apply (Hcf k' k i' i t).
Qed.

Lemma resolveConflicts_normal m : normal_map (resolveConflicts m).
Proof.
  destruct (resolveConflicts_lookup m) as (f & Hs & Hf & Hl). intros k i Hk.
  rewrite Hl in Hk. apply fmap_Some in Hk as (i0 & Hk & ->). split; simpl; [done|].
  intros Hleft. destruct (f k) as [|t ts] eqn:E; [done|]. exfalso.
  assert (best m t k) as [(i & Hi & Hne & _) _] by (apply Hf; rewrite E; by constructor).
  by simplify_eq.
Qed.

Lemma resolveConflicts_conflict_free m : conflict_free (resolveConflicts m).
Proof.
  destruct (resolveConflicts_lookup m) as (f & Hs & Hf & Hl).
  intros k1 k2 i1 i2 t Hk1 Hk2 H1 H2. rewrite Hl in Hk1, Hk2.
  apply fmap_Some in Hk1 as (j1 & _ & ->), Hk2 as (j2 & _ & ->).
  eapply best_unique; by apply Hf.
Qed.
End conflicts.
