(* ===== verification/MergeLaws.v ===== *)
(** * Laws of the gossip merge

    The contract of [memberlist.Mergeable.Merge], for [ring.Desc]: the merged
    ring is normalised and free of token conflicts, merging is idempotent and
    commutative, associative when no token is claimed twice (and not otherwise:
    see [Merge_not_associative]), never forgets an instance and never goes back
    in time; [localCAS] turns missing instances into tombstones. *)
From Stdlib Require Import ZArith Lia.
From stdpp Require Import base gmap strings list sorting fin_maps relations.
From S2P Require Import Prelude Model Merge MergeFacts ResolveFacts.

(** ** The order behind [accepts] *)
Definition weight (i : InstanceDesc) : Z :=
  2 * Timestamp i + (if bool_decide (State i = LEFT) then 1 else 0).

#[local] Arguments weight : simpl never.

Lemma accepts_weight t o : accepts t o = bool_decide (weight t < weight o).
Proof.
  unfold accepts, weight. apply Bool.eq_iff_eq_true.
  rewrite orb_true_iff, !andb_true_iff, !bool_decide_eq_true. split.
  - intros [Ht|[[Ht Hs] Ho]]; repeat case_bool_decide; lia || contradiction.
  - intros Hw. destruct (decide (Timestamp o > Timestamp t)); [by left|right].
    repeat case_bool_decide; try lia. split; [split; [lia|done]|done].
Qed.

Lemma pick_weight t o :
  pick t o = if bool_decide (weight (default InstanceDesc_zero t) < weight o) then Some o else t.
Proof. unfold pick. by rewrite accepts_weight. Qed.

Lemma weight_set_Tokens ts i : weight (set_Tokens ts i) = weight i.
Proof. done. Qed.

(** two rings that agree wherever neither entry is newer than the other *)
Definition compatible (m1 m2 : gmap string InstanceDesc) : Prop :=
  ∀ k i1 i2, m1 !! k = Some i1 → m2 !! k = Some i2 → weight i1 = weight i2 → i1 = i2.
(** every heartbeat is later than the epoch *)
Definition positive (m : gmap string InstanceDesc) : Prop :=
  ∀ k i, m !! k = Some i → 0 < Timestamp i.

Lemma positive_weight m k i : positive m → m !! k = Some i → 0 < weight i.
Proof. intros Hp Hk. specialize (Hp k i Hk). unfold weight. case_bool_decide; lia. Qed.

Ltac pick_cases :=
  repeat match goal with
  | |- context [bool_decide ?P] => case_bool_decide; simpl in *
  | H : context [bool_decide ?P] |- _ => case_bool_decide; simpl in *
  end.

Lemma join_comm m1 m2 : positive m1 → positive m2 → compatible m1 m2 → join m1 m2 = join m2 m1.
Proof.
  intros H1 H2 Hc. apply map_eq. intros k. rewrite !lookup_join.
  destruct (m1 !! k) as [i1|] eqn:E1, (m2 !! k) as [i2|] eqn:E2; rewrite ?pick_weight; simpl; try done.
  - pick_cases; try done; try lia. f_equal. apply (Hc k); [done|done|lia].
  - apply (positive_weight m1) in E1; [|done]. change (weight InstanceDesc_zero) with 0.
    by rewrite bool_decide_eq_true_2.
  - apply (positive_weight m2) in E2; [|done]. change (weight InstanceDesc_zero) with 0.
    by rewrite bool_decide_eq_true_2.
Qed.

Lemma join_assoc m1 m2 m3 :
  positive m1 → positive m2 → positive m3 →
  join (join m1 m2) m3 = join m1 (join m2 m3).
Proof.
  intros H1 H2 H3. apply map_eq. intros k. rewrite !lookup_join.
  destruct (m1 !! k) as [i1|] eqn:E1; destruct (m2 !! k) as [i2|] eqn:E2;
    destruct (m3 !! k) as [i3|] eqn:E3; rewrite ?pick_weight; simpl; try done;
    change (weight InstanceDesc_zero) with 0;
    repeat match goal with
    | E : ?m !! k = Some _, H : positive ?m |- _ => apply (positive_weight m) in E; [|done] end;
    pick_cases; rewrite ?pick_weight; simpl; change (weight InstanceDesc_zero) with 0;
    pick_cases; try done; try lia.
Qed.

Lemma join_positive m1 m2 : positive m1 → positive m2 → positive (join m1 m2).
Proof.
  intros H1 H2 k i. rewrite lookup_join. destruct (m2 !! k) as [i2|] eqn:E2; [|apply H1].
  unfold pick. case_match; [intros [= <-]; by apply (H2 k)|apply H1].
Qed.

Lemma join_normal m1 m2 : normal_map m1 → normal_map m2 → normal_map (join m1 m2).
Proof.
  intros H1 H2 k i. rewrite lookup_join. destruct (m2 !! k) as [i2|] eqn:E2; [|apply H1].
  unfold pick. case_match; [intros [= <-]; by apply (H2 k)|apply H1].
Qed.

Lemma cas_join_normal m o now : normal_map m → normal_map (cas_join m o now).
Proof.
  intros Hm k i. rewrite lookup_cas_join. intros (i' & Hi' & ->)%fmap_Some.
  unfold cas_missing. case_match; [|by apply (Hm k)]. split; [constructor|done].
Qed.

(** ** [mergeWithTime] in closed form *)
(** the merged ring before conflict resolution *)
Definition joined (d o : Desc) (localCAS : bool) (now : Z) : gmap string InstanceDesc :=
  let o' := norm_instance <$> Ingesters o in
  let j := join (Ingesters d) o' in
  if localCAS then cas_join j o' now else j.
(** the entry of [k] is updated *)
Definition updates (d o : Desc) (localCAS : bool) (k : string) : Prop :=
  let o' := norm_instance <$> Ingesters o in
  accepted (Ingesters d) o' k ∨
  (localCAS = true ∧ o' !! k = None ∧ ∃ i, Ingesters d !! k = Some i ∧ State i ≠ LEFT).

Section laws.
Context `{R : MapRange}.

(** the accumulator after both loops *)
Definition merge_loops (d o : Desc) (localCAS : bool) (now : Z) : merge_acc :=
  let o' := Ingesters (normalizeIngestersMap o) in
  let acc := foldl merge_step (mkMergeAcc (Ingesters d) [] false) (map_range 212 o') in
  if localCAS then foldl (cas_step o' now) acc (map_range 231 (thisIngesterMap acc)) else acc.

Lemma merge_loops_spec d o localCAS now :
  thisIngesterMap (merge_loops d o localCAS now) = joined d o localCAS now ∧
  (∀ k, k ∈ updated (merge_loops d o localCAS now) ↔ updates d o localCAS k) ∧
  (tokensChanged (merge_loops d o localCAS now) = true ↔
     ∃ k, changes_tokens (Ingesters d) (norm_instance <$> Ingesters o) k).
Proof.
  unfold merge_loops, joined, updates. rewrite normalizeIngestersMap_spec. simpl.
  set (o' := norm_instance <$> Ingesters o). destruct localCAS.
  - rewrite cas_loop_map, cas_loop_tokensChanged, merge_loop_map, merge_loop_tokensChanged.
    split; [done|]. split; [|done]. intros k.
    rewrite cas_loop_updated, merge_loop_updated. simpl.
    setoid_rewrite map_range_elem. setoid_rewrite lookup_join. split.
    + intros [?|(i & Hi & Hn & Hl)]; [by left|]. rewrite Hn in Hi. right. eauto.
    + intros [?|(_ & Hn & i & Hi & Hl)]; [by left|]. right. exists i. by rewrite Hn.
  - rewrite merge_loop_map, merge_loop_tokensChanged. split; [done|]. split; [|done].
    intros k. rewrite merge_loop_updated. split; [by left|]. by intros [?|[? _]].
Qed.

Lemma mergeWithTime_loops d o localCAS now :
  mergeWithTime d (RingMergeable (Some o)) localCAS now =
  let acc := merge_loops d o localCAS now in
  let o' := RingMergeable (Some (normalizeIngestersMap o)) in
  if bool_decide (length (updated acc) = 0%nat) then (mkDesc (thisIngesterMap acc), o', Ok None)
  else
    let m := if tokensChanged acc && conflictingTokensExist (thisIngesterMap acc)
             then resolveConflicts (thisIngesterMap acc) else thisIngesterMap acc in
    (mkDesc m, o', Ok (Some (mkDesc (foldl (λ out u, <[u := default InstanceDesc_zero (m !! u)]> out) ∅
                     (updated acc))))).
Proof. done. Qed.

(** nothing updated: the receiver is unchanged and the change is [nil] *)
Lemma joined_no_update d o localCAS now :
  (∀ k, ¬ updates d o localCAS k) → joined d o localCAS now = Ingesters d.
Proof.
  intros Hn. unfold updates, accepted, joined in *. cbv zeta in *.
  set (o' := norm_instance <$> Ingesters o) in *.
  assert (join (Ingesters d) o' = Ingesters d) as Hj.
  { apply map_eq. intros k. rewrite lookup_join. destruct (o' !! k) as [i|] eqn:E; [|done].
    unfold pick. case_match; [|done]. destruct (Hn k). left. eauto. }
  destruct localCAS; [|done]. rewrite Hj. apply map_eq. intros k. rewrite lookup_cas_join.
  destruct (Ingesters d !! k) as [i|] eqn:E; [|done]. simpl. f_equal. unfold cas_missing.
  destruct (_ && _) eqn:Hc; [|done]. reflect. destruct (Hn k). right. split; [done|].
  rewrite <- eq_None_not_Some in H. eauto.
Qed.

Lemma mergeWithTime_no_update d o localCAS now :
  (∀ k, ¬ updates d o localCAS k) →
  mergeWithTime d (RingMergeable (Some o)) localCAS now
  = (d, RingMergeable (Some (normalizeIngestersMap o)), Ok None).
Proof.
  intros Hn. rewrite mergeWithTime_loops. cbv zeta.
  destruct (merge_loops_spec d o localCAS now) as (Hm & Hu & _).
  rewrite Hm, joined_no_update by done.
  assert (updated (merge_loops d o localCAS now) = []) as ->.
  { apply elem_of_nil_inv. intros k Hk%Hu. by apply (Hn k). }
  by destruct d.
Qed.

(** the receiver: the joined ring, with conflicts resolved when some tokens changed *)
Lemma merged_cases d o localCAS now :
  Ingesters (merged d o localCAS now) = joined d o localCAS now ∨
  Ingesters (merged d o localCAS now) = resolveConflicts (joined d o localCAS now).
Proof.
  unfold merged. rewrite mergeWithTime_loops. cbv zeta.
  destruct (merge_loops_spec d o localCAS now) as (-> & _ & _).
  case_bool_decide; simpl; [by left|]. case_match; [by right|by left].
Qed.

(** an entry after the merge: as in the joined ring, up to tokens *)
Lemma merged_lookup d o localCAS now k :
  ∃ ts, Ingesters (merged d o localCAS now) !! k
        = set_Tokens ts <$> joined d o localCAS now !! k.
Proof.
  destruct (merged_cases d o localCAS now) as [-> | ->].
  - destruct (joined d o localCAS now !! k) as [i|]; [|by exists []].
    exists (Tokens i). simpl. by rewrite set_Tokens_id.
  - destruct (resolveConflicts_lookup (joined d o localCAS now)) as (f & _ & _ & Hl).
    exists (f k). apply Hl.
Qed.

Lemma joined_normal d o localCAS now : normal d → normal_map (joined d o localCAS now).
Proof.
  intros Hd. pose proof (normalizeIngestersMap_normal o) as Ho.
  rewrite normalizeIngestersMap_spec in Ho. unfold joined. cbv zeta.
  destruct localCAS; auto using join_normal, cas_join_normal.
Qed.

Lemma joined_no_new_tokens d o localCAS now k i :
  (∀ k, ¬ changes_tokens (Ingesters d) (norm_instance <$> Ingesters o) k) →
  joined d o localCAS now !! k = Some i →
  Tokens i = [] ∨ ∃ i', Ingesters d !! k = Some i' ∧ Tokens i = Tokens i'.
Proof.
  intros Hn. pose proof (normalizeIngestersMap_normal o) as Ho.
  rewrite normalizeIngestersMap_spec in Ho. unfold joined. cbv zeta.
  set (o' := norm_instance <$> Ingesters o) in *.
  assert (∀ i, join (Ingesters d) o' !! k = Some i →
    Tokens i = [] ∨ ∃ i', Ingesters d !! k = Some i' ∧ Tokens i = Tokens i') as Hj.
  { clear i. intros i. rewrite lookup_join. destruct (o' !! k) as [oi|] eqn:E; [|eauto].
    unfold pick, accepts. destruct (_ || _) eqn:Ea; [|eauto]. intros [= <-].
    reflect. destruct Ea as [Ht|[[Ht Hl]%andb_true_iff Hl']%andb_true_iff]; reflect.
    - destruct (decide (Tokens (default InstanceDesc_zero (Ingesters d !! k)) = Tokens oi)) as [He|He].
      + destruct (Ingesters d !! k); simpl in He; eauto.
      + destruct (Hn k). exists oi. done.
    - left. by apply (Ho k oi). }
  destruct localCAS; [|apply Hj]. rewrite lookup_cas_join.
  intros (i' & Hi' & ->)%fmap_Some. unfold cas_missing. case_match; [by left|auto].
Qed.

(** from a conflict-free receiver the merge is the resolved join *)
Lemma merged_resolved d o localCAS now :
  normal d → conflict_free (Ingesters d) →
  Ingesters (merged d o localCAS now) = resolveConflicts (joined d o localCAS now).
Proof.
  intros Hd Hcf. pose proof (joined_normal d o localCAS now Hd) as Hj.
  unfold merged. rewrite mergeWithTime_loops. cbv zeta.
  destruct (merge_loops_spec d o localCAS now) as (Hm & Hu & Ht). rewrite Hm.
  case_bool_decide as Hl; simpl.
  - symmetry. rewrite joined_no_update; [by apply resolveConflicts_id|].
    apply nil_length_inv in Hl.
    intros k Hk%Hu. rewrite Hl in Hk. by apply elem_of_nil in Hk.
  - destruct (tokensChanged _) eqn:Etc; simpl.
    + destruct (conflictingTokensExist _) eqn:Ec; [done|]. symmetry.
      apply resolveConflicts_id; [done|]. by apply conflictingTokensExist_spec.
    + symmetry. apply resolveConflicts_id; [done|].
      assert (∀ k, ¬ changes_tokens (Ingesters d) (norm_instance <$> Ingesters o) k) as Hn.
      { intros k Hk. assert (false = true) by (apply Ht; eauto). done. }
      intros k1 k2 i1 i2 t H1 H2 Ht1 Ht2.
      destruct (joined_no_new_tokens d o localCAS now k1 i1 Hn H1) as [E|(j1 & Hj1 & E1)];
        [rewrite E in Ht1; by apply elem_of_nil in Ht1|].
      destruct (joined_no_new_tokens d o localCAS now k2 i2 Hn H2) as [E|(j2 & Hj2 & E2)];
        [rewrite E in Ht2; by apply elem_of_nil in Ht2|].
      rewrite E1 in Ht1. rewrite E2 in Ht2. by apply (Hcf k1 k2 j1 j2 t).
Qed.

(** the entries of the returned change *)
Lemma change_lookup (f : string → InstanceDesc) us k :
  foldl (λ out u, <[u := f u]> out) (∅ : gmap string InstanceDesc) us !! k
  = if bool_decide (k ∈ us) then Some (f k) else None.
Proof.
  assert (∀ m : gmap string InstanceDesc, foldl (λ out u, <[u := f u]> out) m us !! k
    = if bool_decide (k ∈ us) then Some (f k) else m !! k) as H; [|by rewrite H, lookup_empty].
  induction us as [|u us IH]; intros m; cbn [foldl]; [done|].
  rewrite IH. destruct (decide (k ∈ us)) as [Hin|Hni].
  - rewrite !bool_decide_eq_true_2; [done|by constructor|done].
  - rewrite (bool_decide_eq_false_2 (k ∈ us)) by done. destruct (decide (u = k)) as [->|Hne].
    + rewrite bool_decide_eq_true_2 by constructor. apply lookup_insert_eq.
    + rewrite bool_decide_eq_false_2; [by apply lookup_insert_ne|].
      rewrite elem_of_cons. intros [->|]; done.
Qed.

Lemma updates_joined d o localCAS now k :
  updates d o localCAS k → is_Some (joined d o localCAS now !! k).
Proof.
  unfold updates, accepted, joined. cbv zeta. set (o' := norm_instance <$> Ingesters o).
  intros Hu. assert (is_Some (join (Ingesters d) o' !! k)) as [i Hi].
  { rewrite lookup_join. destruct Hu as [(oi & -> & Ha)|(_ & -> & i & Hi & _)]; [|eauto].
    unfold pick. rewrite Ha. eauto. }
  destruct localCAS; [|eauto]. rewrite lookup_cas_join, Hi. eauto.
Qed.

(** when some entry is updated *)
Lemma mergeWithTime_update d o localCAS now k :
  updates d o localCAS k →
  ∃ c, mergeWithTime d (RingMergeable (Some o)) localCAS now
       = (merged d o localCAS now, RingMergeable (Some (normalizeIngestersMap o)), Ok (Some c)) ∧
  ∀ j, (updates d o localCAS j → Ingesters c !! j = Ingesters (merged d o localCAS now) !! j) ∧
       (¬ updates d o localCAS j → Ingesters c !! j = None).
Proof.
  intros Hk. unfold merged at 1 2. rewrite mergeWithTime_loops. cbv zeta.
  destruct (merge_loops_spec d o localCAS now) as (Hm & Hu & _).
  assert (¬ length (updated (merge_loops d o localCAS now)) = 0%nat) as Hl.
  { intros Hl%nil_length_inv. apply Hu in Hk. rewrite Hl in Hk. by apply elem_of_nil in Hk. }
  rewrite bool_decide_eq_false_2 by done. simpl. eexists. split; [done|].
  intros j. simpl. rewrite change_lookup. split; intros Hj.
  - destruct (updates_joined d o localCAS now j Hj) as [i Hi]. apply Hu in Hj.
    rewrite bool_decide_eq_true_2 by done.
    destruct (merged_lookup d o localCAS now j) as [ts Hts]. rewrite Hi in Hts.
    unfold merged in Hts. rewrite mergeWithTime_loops in Hts. cbv zeta in Hts.
    rewrite bool_decide_eq_false_2 in Hts by done. simpl in Hts. by rewrite Hts.
  - rewrite bool_decide_eq_false_2; [done|]. by intros ?%Hu.
Qed.

Lemma updates_dec d o localCAS :
  (∃ k, updates d o localCAS k) ∨ (∀ k, ¬ updates d o localCAS k).
Proof.
  destruct (merge_loops_spec d o localCAS 0) as (_ & Hu & _).
  destruct (updated (merge_loops d o localCAS 0)) as [|k l].
  - right. intros k Hk%Hu. by apply elem_of_nil in Hk.
  - left. exists k. apply Hu. by constructor.
Qed.

(** ** Computing the hypotheses on concrete rings *)
Lemma normal_by_compute d :
  bool_decide (Ingesters (normalizeIngestersMap d) = Ingesters d) = true → normal d.
Proof.
  intros H%bool_decide_eq_true. unfold normal. rewrite <- H. apply normalizeIngestersMap_normal.
Qed.

Lemma conflict_free_by_compute m :
  normal_map m → conflictingTokensExist m = false → conflict_free m.
Proof. intros Hn. by apply conflictingTokensExist_spec. Qed.
End laws.

Lemma positive_by_compute m :
  bool_decide (map_Forall (λ _ i, 0 < Timestamp i) m) = true → positive m.
Proof. intros H%bool_decide_eq_true k i. apply H. Qed.

Lemma compatible_by_compute m1 m2 :
  bool_decide (map_Forall (λ k i1,
    (match m2 !! k with
     | Some i2 => bool_decide (weight i1 ≠ weight i2) || bool_decide (i1 = i2)
     | None => true end) = true) m1) = true → compatible m1 m2.
Proof.
  intros H%bool_decide_eq_true k i1 i2 H1 H2 Hw. specialize (H k i1 H1). simpl in H.
  rewrite H2 in H. reflect. by destruct H; reflect.
Qed.

(** rings used by the witnesses *)
Definition ex_instance (addr : string) (ts : Z) (s : InstanceState) (tokens : list Z) : InstanceDesc :=
  mkInstanceDesc addr ts s tokens "zone" 1.
Definition ex_ring (l : list (string * InstanceDesc)) : Desc := mkDesc (list_to_map l).
Definition ex_ring1 : Desc :=
  ex_ring [("ing1", ex_instance "a1" 10 ACTIVE [1; 30; 50]); ("ing2", ex_instance "a2" 20 LEAVING [7; 9])].
Definition ex_ring2 : Desc :=
  ex_ring [("ing1", ex_instance "a1" 15 ACTIVE [1; 7; 50]); ("ing3", ex_instance "a3" 12 JOINING [100]);
           ("ing4", ex_instance "a4" 12 LEFT [])].

Ltac by_compute := first
  [ apply (normal_by_compute (R:=map_range_std)); vm_compute; reflexivity
  | apply (conflict_free_by_compute (R:=map_range_std));
    [by_compute | vm_compute; reflexivity]
  | apply positive_by_compute; vm_compute; reflexivity
  | apply compatible_by_compute; vm_compute; reflexivity ].

(** ** The laws *)
(** C5. Whatever rings are merged, with or without [localCAS], a receiver that is
    normalised and in which no token has two owners stays so: every token list
    sorted and free of duplicates, LEFT instances without tokens, no token owned
    by two instances. *)
Theorem Merge_invariant `{R : MapRange} (d o : Desc) (localCAS : bool) (now : Z) :
  normal d → conflict_free (Ingesters d) →
  normal (merged d o localCAS now) ∧ conflict_free (Ingesters (merged d o localCAS now)).
Proof.
  intros Hd Hcf. unfold normal. rewrite merged_resolved by done.
  split; [apply resolveConflicts_normal|apply resolveConflicts_conflict_free].
Qed.

Lemma Merge_invariant_witness :
  normal ex_ring1 ∧ conflict_free (Ingesters ex_ring1) ∧
  normal (merged (R:=map_range_std) ex_ring1 ex_ring2 true 0) ∧
  conflict_free (Ingesters (merged (R:=map_range_std) ex_ring1 ex_ring2 true 0)).
Proof.
  assert (normal ex_ring1) as H1 by by_compute.
  assert (conflict_free (Ingesters ex_ring1)) as H2
    by (apply (conflict_free_by_compute (R:=map_range_std)); [exact H1|vm_compute; reflexivity]).
  split; [exact H1|]. split; [exact H2|].
  exact (Merge_invariant (R:=map_range_std) ex_ring1 ex_ring2 true 0 H1 H2).
Defined.

(** C6. [resolveConflicts] gives each token to its best claimant and to nobody
    else: the instances and their other fields are kept, an instance ends with
    the sorted list of exactly the tokens it is the best claimant of (an
    instance that is not LEAVING beats a LEAVING one, then the lower name wins,
    LEFT instances claim nothing), and no claimed token is lost. *)
Theorem resolveConflicts_correct `{R : MapRange} (m : gmap string InstanceDesc) :
  (∀ k, is_Some (resolveConflicts m !! k) ↔ is_Some (m !! k)) ∧
  (∀ k i i', m !! k = Some i → resolveConflicts m !! k = Some i' →
     i' = set_Tokens (Tokens i') i ∧ SSorted (Tokens i') ∧ ∀ t, t ∈ Tokens i' ↔ best m t k) ∧
  (∀ k t, claims m k t → ∃ k' i', resolveConflicts m !! k' = Some i' ∧ t ∈ Tokens i').
Proof.
  destruct (resolveConflicts_lookup m) as (f & Hs & Hf & Hl). split; [|split].
  - intros k. rewrite Hl. apply fmap_is_Some.
  - intros k i i' Hi Hi'. rewrite Hl, Hi in Hi'. injection Hi' as <-. simpl.
    split; [done|]. split; [done|]. apply Hf.
  - intros k t Hc. destruct (best_exists m k t Hc) as [k' Hb].
    destruct Hb as [(i & Hi & Hr) Hb]. exists k', (set_Tokens (f k') i).
    rewrite Hl, Hi. split; [done|]. simpl. apply Hf. split; [by exists i|done].
Qed.

Lemma merge_again `{R : MapRange} (d o : Desc) (now now' : Z) :
  mergeWithTime (merged d o false now) (RingMergeable (Some o)) false now'
  = (merged d o false now, RingMergeable (Some (normalizeIngestersMap o)), Ok None).
Proof.
  apply mergeWithTime_no_update. intros k [(oi & Ho & Ha)|[? _]]; [|done].
  destruct (merged_lookup d o false now k) as [ts Hts]. rewrite Hts in Ha.
  unfold joined in Ha. cbv zeta in Ha. rewrite lookup_join, Ho, pick_weight in Ha.
  rewrite accepts_weight, bool_decide_eq_true in Ha.
  destruct (decide (weight (default InstanceDesc_zero (Ingesters d !! k)) < weight oi)) as [Hw|Hw].
  - rewrite bool_decide_eq_true_2 in Ha by done. simpl in Ha. rewrite weight_set_Tokens in Ha. lia.
  - rewrite bool_decide_eq_false_2 in Ha by done. by destruct (Ingesters d !! k).
Qed.

(** Merging the same ring a second time changes nothing, at any later time,
    and returns the [nil] change: the idempotency contract of [Mergeable]. *)
Theorem Merge_idempotent `{R : MapRange} (d o : Desc) (now now' : Z) :
  mergeWithTime (merged d o false now) (RingMergeable (Some o)) false now'
  = (merged d o false now, RingMergeable (Some (normalizeIngestersMap o)), Ok None).
Proof. apply merge_again. Qed.

(** C7. Merging is commutative: two normalised, conflict-free rings whose
    heartbeats are positive and that agree where neither entry is newer end in
    the same state whichever receives the other, whatever the order in which
    each side ranges over its maps. *)
Theorem Merge_commutative (R R' : MapRange) (d1 d2 : Desc) (now1 now2 : Z) :
  normal d1 → normal d2 → conflict_free (Ingesters d1) → conflict_free (Ingesters d2) →
  positive (Ingesters d1) → positive (Ingesters d2) →
  compatible (Ingesters d1) (Ingesters d2) →
  merged (R:=R) d1 d2 false now1 = merged (R:=R') d2 d1 false now2.
Proof.
  intros Hn1 Hn2 Hc1 Hc2 Hp1 Hp2 Hcomp.
  assert (∀ d, normal d → norm_instance <$> Ingesters d = Ingesters d) as Hnorm.
  { intros d Hd. pose proof (normalizeIngestersMap_id (R:=R) d Hd) as H.
    rewrite normalizeIngestersMap_spec in H. by apply (f_equal Ingesters) in H. }
  enough (Ingesters (merged (R:=R) d1 d2 false now1) = Ingesters (merged (R:=R') d2 d1 false now2))
    as He by (destruct (merged (R:=R) d1 d2 _ _), (merged (R:=R') d2 d1 _ _); simpl in He; congruence).
  rewrite !merged_resolved by done. unfold joined. cbv zeta. rewrite !Hnorm by done.
  rewrite join_comm by done. apply resolveConflicts_order.
Qed.

Lemma Merge_commutative_witness :
  normal ex_ring1 ∧ normal ex_ring2 ∧
  merged (R:=map_range_std) ex_ring1 ex_ring2 false 0
  = merged (R:=map_range_rev) ex_ring2 ex_ring1 false 5.
Proof.
  assert (normal ex_ring1) as H1 by by_compute.
  assert (normal ex_ring2) as H2 by by_compute.
  split; [exact H1|]. split; [exact H2|].
  apply (Merge_commutative map_range_std map_range_rev ex_ring1 ex_ring2 0 5 H1 H2); by_compute.
Defined.

(** no token appears under two different names in the given rings *)
Definition no_shared_tokens (ds : list Desc) : Prop :=
  ∀ d1 d2 k1 k2 i1 i2 t, d1 ∈ ds → d2 ∈ ds →
    Ingesters d1 !! k1 = Some i1 → Ingesters d2 !! k2 = Some i2 →
    t ∈ Tokens i1 → t ∈ Tokens i2 → k1 = k2.

Lemma lookup_join_or m1 m2 k i :
  join m1 m2 !! k = Some i → m1 !! k = Some i ∨ m2 !! k = Some i.
Proof.
  rewrite lookup_join. destruct (m2 !! k) as [o|]; [|by left].
  unfold pick. case_match; [intros [= ->]; by right|by left].
Qed.

Lemma norm_instance_map_id `{R : MapRange} d : normal d → norm_instance <$> Ingesters d = Ingesters d.
Proof.
  intros Hd. pose proof (normalizeIngestersMap_id d Hd) as H.
  rewrite normalizeIngestersMap_spec in H. by apply (f_equal Ingesters) in H.
Qed.

(** what is merged lacks nothing that is alive: always so without [localCAS] *)
Definition keeps (d o : Desc) (localCAS : bool) : Prop :=
  localCAS = true → ∀ k i, Ingesters d !! k = Some i → State i ≠ LEFT → is_Some (Ingesters o !! k).
Lemma joined_keeps d o localCAS now : keeps d o localCAS →
  joined d o localCAS now = join (Ingesters d) (norm_instance <$> Ingesters o).
Proof.
  intros Hk. unfold joined. cbv zeta. destruct localCAS; [|done]. apply map_eq. intros k.
  rewrite lookup_cas_join, lookup_join, lookup_fmap. unfold cas_missing. rewrite lookup_fmap.
  destruct (Ingesters o !! k) as [oi|] eqn:Ho; simpl; [by destruct (pick _ _)|].
  destruct (Ingesters d !! k) as [i|] eqn:Hd; simpl; [|done]. case_bool_decide as Hl; [|done].
  exfalso. destruct (Hk eq_refl k i Hd Hl) as [x Hx]. congruence.
Qed.
Lemma merged_join_keeps `{R : MapRange} d1 d2 localCAS now :
  keeps d1 d2 localCAS → normal d1 → normal d2 → no_shared_tokens [d1; d2] →
  merged d1 d2 localCAS now = mkDesc (join (Ingesters d1) (Ingesters d2)).
Proof.
  intros Hk Hn1 Hn2 Hns.
  enough (Ingesters (merged d1 d2 localCAS now) = join (Ingesters d1) (Ingesters d2)) as He
    by (destruct (merged d1 d2 localCAS now); simpl in He; congruence).
  rewrite merged_resolved; [|done|].
  - rewrite joined_keeps by done. rewrite norm_instance_map_id by done.
    apply resolveConflicts_id; [by apply join_normal|].
    intros k1 k2 i1 i2 t [H1|H1]%lookup_join_or [H2|H2]%lookup_join_or;
      eapply Hns; try done; set_solver.
  - intros k1 k2 i1 i2 t H1 H2. eapply (Hns d1 d1); try done; set_solver.
Qed.
Lemma merged_join `{R : MapRange} d1 d2 now :
  normal d1 → normal d2 → no_shared_tokens [d1; d2] →
  merged d1 d2 false now = mkDesc (join (Ingesters d1) (Ingesters d2)).
Proof. intros. by apply merged_join_keeps. Qed.

Lemma no_shared_tokens_join d1 d2 ds :
  no_shared_tokens (d1 :: d2 :: ds) →
  no_shared_tokens (mkDesc (join (Ingesters d1) (Ingesters d2)) :: ds).
Proof.
  intros Hns.
  assert (∀ e k i, e ∈ mkDesc (join (Ingesters d1) (Ingesters d2)) :: ds →
    Ingesters e !! k = Some i → ∃ e', e' ∈ d1 :: d2 :: ds ∧ Ingesters e' !! k = Some i) as Hin.
  { intros e k i [->|He]%elem_of_cons Hk.
    - apply lookup_join_or in Hk as [?|?]; [exists d1|exists d2]; set_solver.
    - exists e. set_solver. }
  intros e1 e2 k1 k2 i1 i2 t He1 He2 H1 H2.
  destruct (Hin e1 k1 i1 He1 H1) as (e1' & ? & ?), (Hin e2 k2 i2 He2 H2) as (e2' & ? & ?).
  by apply (Hns e1' e2' k1 k2 i1 i2 t).
Qed.

Lemma no_shared_tokens_perm ds ds' :
  (∀ d, d ∈ ds' → d ∈ ds) → no_shared_tokens ds → no_shared_tokens ds'.
Proof. intros Hs H d1 d2 k1 k2 i1 i2 t H1 H2. apply (H d1 d2); auto. Qed.

(** Without token conflicts the merge is associative: merging [d3] into the
    merge of [d1] and [d2] gives the ring obtained by merging the merge of [d2]
    and [d3] into [d1]. *)
Theorem Merge_associative `{R : MapRange} (d1 d2 d3 : Desc) (now : Z) :
  normal d1 → normal d2 → normal d3 →
  positive (Ingesters d1) → positive (Ingesters d2) → positive (Ingesters d3) →
  no_shared_tokens [d1; d2; d3] →
  merged (merged d1 d2 false now) d3 false now = merged d1 (merged d2 d3 false now) false now.
Proof.
  intros Hn1 Hn2 Hn3 Hp1 Hp2 Hp3 Hns.
  assert (no_shared_tokens [d1; d2]) as Hns12
    by (apply (no_shared_tokens_perm [d1; d2; d3]); [set_solver|done]).
  assert (no_shared_tokens [d2; d3]) as Hns23
    by (apply (no_shared_tokens_perm [d1; d2; d3]); [set_solver|done]).
  assert (no_shared_tokens [d1; mkDesc (join (Ingesters d2) (Ingesters d3))]) as Hns1.
  { apply (no_shared_tokens_perm [mkDesc (join (Ingesters d2) (Ingesters d3)); d1]); [set_solver|].
    apply no_shared_tokens_join, (no_shared_tokens_perm [d1; d2; d3]); [set_solver|done]. }
  rewrite (merged_join d1 d2), (merged_join d2 d3) by done.
  rewrite !merged_join; try done.
  - simpl. f_equal. by apply join_assoc.
  - by apply join_normal.
  - by apply join_normal.
  - by apply no_shared_tokens_join.
Qed.

Definition ex_ring3 : Desc :=
  ex_ring [("ing1", ex_instance "a1" 40 LEFT []); ("ing2", ex_instance "a2" 20 ACTIVE [7; 9])].
Definition ex_ring4 : Desc := ex_ring [("ing1", ex_instance "a1" 15 ACTIVE [1; 50])].

Lemma no_shared_tokens_by_compute `{R : MapRange} ds :
  bool_decide (Forall (λ d1, Forall (λ d2,
    Forall (λ e1, Forall (λ e2, e1.1 = e2.1 ∨ Forall (λ t, t ∉ Tokens e2.2) (Tokens e1.2))
      (map_to_list (Ingesters d2))) (map_to_list (Ingesters d1))) ds) ds) = true →
  no_shared_tokens ds.
Proof.
  intros H%bool_decide_eq_true d1 d2 k1 k2 i1 i2 t H1 H2 Hk1 Hk2 Ht1 Ht2.
  rewrite Forall_forall in H. specialize (H d1 H1). rewrite Forall_forall in H. specialize (H d2 H2).
  rewrite Forall_forall in H. specialize (H (k1, i1)). rewrite elem_of_map_to_list in H.
  specialize (H Hk1). rewrite Forall_forall in H. specialize (H (k2, i2)).
  rewrite elem_of_map_to_list in H. destruct (H Hk2) as [|Hf]; [done|].
  rewrite Forall_forall in Hf. by destruct (Hf t Ht1).
Qed.

Lemma Merge_associative_witness :
  normal ex_ring1 ∧ no_shared_tokens [ex_ring1; ex_ring3; ex_ring4] ∧
  merged (R:=map_range_std) (merged (R:=map_range_std) ex_ring1 ex_ring3 false 0) ex_ring4 false 0
  = merged (R:=map_range_std) ex_ring1 (merged (R:=map_range_std) ex_ring3 ex_ring4 false 0) false 0.
Proof.
  assert (normal ex_ring1) as H1 by by_compute.
  assert (no_shared_tokens [ex_ring1; ex_ring3; ex_ring4]) as H2
    by (apply (no_shared_tokens_by_compute (R:=map_range_std)); vm_compute; reflexivity).
  split; [exact H1|]. split; [exact H2|].
  apply (Merge_associative (R:=map_range_std)); first [exact H1 | exact H2 | by_compute].
Defined.

(** With a token conflict the merge is not associative: [A] owns token 1, [B]
    gives it to another instance, [C] says that the owner has left.  Merging [B]
    then [C] into [A] strips the token from the second instance for good, merging
    the merge of [B] and [C] into [A] leaves it there. *)
Theorem Merge_not_associative :
  ∃ a b c : Desc,
    normal a ∧ normal b ∧ normal c ∧
    conflict_free (Ingesters a) ∧ conflict_free (Ingesters b) ∧ conflict_free (Ingesters c) ∧
    compatible (Ingesters a) (Ingesters b) ∧ compatible (Ingesters a) (Ingesters c) ∧
    compatible (Ingesters b) (Ingesters c) ∧
    Tokens (ingester (merged (R:=map_range_std) (merged (R:=map_range_std) a b false 0) c false 0) "y") = [] ∧
    Tokens (ingester (merged (R:=map_range_std) a (merged (R:=map_range_std) b c false 0) false 0) "y") = [1].
Proof.
  exists (ex_ring [("x", ex_instance "ax" 1 ACTIVE [1])]),
    (ex_ring [("y", ex_instance "ay" 1 ACTIVE [1])]),
    (ex_ring [("x", ex_instance "ax" 2 LEFT [])]).
  split_and!; first [by_compute | vm_compute; reflexivity].
Qed.

(** With [localCAS], an instance of the receiver that is missing from the
    stored ring becomes a tombstone: LEFT, without tokens, stamped with the
    current time; and it is part of the returned change. *)
Theorem Merge_localCAS_missing `{R : MapRange} (d o : Desc) (now : Z) (k : string) (i : InstanceDesc) :
  Ingesters d !! k = Some i → Ingesters o !! k = None → State i ≠ LEFT →
  Ingesters (merged d o true now) !! k = Some (left_instance now i) ∧
  ∃ c, merge_change d o true now = Ok (Some c) ∧ Ingesters c !! k = Some (left_instance now i).
Proof.
  intros Hd Ho Hl.
  assert (updates d o true k) as Hu.
  { right. split; [done|]. rewrite lookup_fmap, Ho. eauto. }
  assert (joined d o true now !! k = Some (left_instance now i)) as Hj.
  { unfold joined. cbv zeta. rewrite lookup_cas_join, lookup_join, lookup_fmap, Ho. simpl.
    rewrite Hd. simpl. f_equal. unfold cas_missing. rewrite lookup_fmap, Ho. simpl.
    by rewrite bool_decide_eq_true_2. }
  assert (Ingesters (merged d o true now) !! k = Some (left_instance now i)) as Hm.
  { destruct (merged_cases d o true now) as [-> | ->]; [done|].
    destruct (resolveConflicts_lookup (joined d o true now)) as (f & _ & Hf & ->).
    rewrite Hj. simpl. f_equal. destruct (f k) as [|t ts] eqn:E; [done|]. exfalso.
    assert (best (joined d o true now) t k) as [(i' & Hi' & Hne & _) _]
      by (apply Hf; rewrite E; by constructor).
    rewrite Hj in Hi'. by injection Hi' as <-. }
  split; [done|]. destruct (mergeWithTime_update d o true now k Hu) as (c & Hc & Hch).
  exists c. unfold merge_change. rewrite Hc. split; [done|]. by rewrite (proj1 (Hch k) Hu).
Qed.

Lemma Merge_localCAS_missing_witness :
  Ingesters ex_ring1 !! "ing2" = Some (ex_instance "a2" 20 LEAVING [7; 9]) ∧
  Ingesters (merged (R:=map_range_std) ex_ring1 ex_ring2 true (99 * Second)) !! "ing2"
  = Some (mkInstanceDesc "a2" 99 LEFT [] "zone" 1).
Proof.
  assert (Ingesters ex_ring1 !! "ing2" = Some (ex_instance "a2" 20 LEAVING [7; 9])) as H
    by (vm_compute; reflexivity).
  split; [exact H|].
  assert (Ingesters ex_ring2 !! "ing2" = None) as H2 by (vm_compute; reflexivity).
  exact (proj1 (Merge_localCAS_missing (R:=map_range_std) ex_ring1 ex_ring2 (99 * Second) "ing2" _ H H2
    (λ e, eq_ind LEAVING (λ s, match s with LEAVING => True | _ => False end) I LEFT e))).
Defined.

(** The change returned by a merge is exactly the part of the receiver that
    was updated: if nothing is updated the change is [nil] and the receiver is
    untouched; otherwise the change holds the updated names, each with the entry
    the receiver ends with. *)
Theorem Merge_change_exact `{R : MapRange} (d o : Desc) (localCAS : bool) (now : Z) :
  ((∀ k, ¬ updates d o localCAS k) ∧ merge_change d o localCAS now = Ok None ∧
     merged d o localCAS now = d) ∨
  (∃ c, merge_change d o localCAS now = Ok (Some c) ∧ (∃ k, updates d o localCAS k) ∧
     ∀ k i, Ingesters c !! k = Some i ↔
            updates d o localCAS k ∧ Ingesters (merged d o localCAS now) !! k = Some i).
Proof.
  destruct (updates_dec d o localCAS) as [[k Hk]|Hn].
  - right. destruct (mergeWithTime_update d o localCAS now k Hk) as (c & Hc & Hch).
    exists c. unfold merge_change. rewrite Hc. split; [done|]. split; [eauto|].
    intros j i. destruct (Hch j) as [H1 H2]. split.
    + intros Hj. assert (updates d o localCAS j) as Hu.
      { destruct (merge_loops_spec d o localCAS now) as (_ & Hu & _).
        destruct (decide (j ∈ updated (merge_loops d o localCAS now))) as [|Hni]; [by apply Hu|].
        rewrite H2 in Hj; [done|]. by intros ?%Hu. }
      split; [done|]. by rewrite <- H1.
    + intros [Hu Hj]. by rewrite H1.
  - left. unfold merge_change, merged. rewrite mergeWithTime_no_update by done. done.
Qed.

(** but for the tokens, an entry of the merge is that of the two entries *)
Lemma merged_entry `{R : MapRange} d o localCAS now k :
  localCAS = false ∨ is_Some (Ingesters o !! k) ∨ (∀ i, Ingesters d !! k = Some i → State i = LEFT) →
  ∃ ts, Ingesters (merged d o localCAS now) !! k = set_Tokens ts <$> join (Ingesters d) (norm_instance <$> Ingesters o) !! k.
Proof.
  intros Hk. destruct (merged_lookup d o localCAS now k) as [ts Hm]. exists ts. rewrite Hm. f_equal. unfold joined. cbv zeta.
  destruct localCAS; [|done]. rewrite lookup_cas_join, lookup_join, lookup_fmap.
  destruct (Ingesters o !! k) as [oi|] eqn:Ho; simpl.
  - assert (∀ i, cas_missing (norm_instance <$> Ingesters o) now k i = i) as Hid.
    { intros i. unfold cas_missing. rewrite lookup_fmap, Ho. done. }
    destruct (pick _ _); simpl; [by rewrite Hid|done].
  - destruct (Ingesters d !! k) as [i|] eqn:Hd; simpl; [|done]. f_equal. unfold cas_missing.
    destruct Hk as [?|[[? ?]|Hl]]; [done|done|]. rewrite (bool_decide_eq_false_2 (State i ≠ LEFT)); [by rewrite andb_false_r|].
    intros Hn. by apply Hn, Hl.
Qed.
Lemma weight_newer i1 i2 : weight i1 ≤ weight i2 → Timestamp i1 ≤ Timestamp i2 ∧
  (State i1 = LEFT → State i2 ≠ LEFT → Timestamp i1 < Timestamp i2).
Proof. unfold weight. repeat case_bool_decide; intros; split; intros; lia || done. Qed.
Lemma join_weight d o k i : Ingesters d !! k = Some i ∨ (Ingesters o !! k = Some i ∧ 0 < Timestamp i) →
  ∃ i', join (Ingesters d) (norm_instance <$> Ingesters o) !! k = Some i' ∧ weight i ≤ weight i'.
Proof.
  rewrite lookup_join, lookup_fmap. intros [Hd|[Ho Hp]].
  - rewrite Hd. destruct (Ingesters o !! k) as [oi|]; simpl; [|by exists i].
    rewrite pick_weight. simpl. case_bool_decide; eexists; (split; [done|lia]).
  - rewrite Ho. simpl. rewrite pick_weight.
    change (weight (norm_instance i)) with (weight i). case_bool_decide as Hlt; [by eexists|].
    destruct (Ingesters d !! k) as [di|]; simpl in Hlt; [exists di; split; [done|lia]|].
    exfalso. change (weight InstanceDesc_zero) with 0 in Hlt.
    unfold weight in Hlt. case_bool_decide; lia.
Qed.
(** what becomes of an entry of one of the two rings *)
Definition removed_by (o : Desc) (localCAS : bool) (k : string) (i : InstanceDesc) : Prop :=
  localCAS = true ∧ Ingesters o !! k = None ∧ State i ≠ LEFT.
#[export] Instance removed_by_dec o localCAS k i : Decision (removed_by o localCAS k i).
Proof. unfold removed_by. apply _. Defined.
Lemma merged_newer `{R : MapRange} d o localCAS now k i :
  Ingesters d !! k = Some i ∨ (Ingesters o !! k = Some i ∧ 0 < Timestamp i) →
  ∃ i', Ingesters (merged d o localCAS now) !! k = Some i' ∧
    if decide (removed_by o localCAS k i) then i' = left_instance now i
    else Timestamp i ≤ Timestamp i' ∧ (State i = LEFT → State i' ≠ LEFT → Timestamp i < Timestamp i').
Proof.
  intros Hi. destruct (decide _) as [(-> & Ho & Hl)|Hn].
  { destruct Hi as [Hd|[? _]]; [|congruence]. exists (left_instance now i). split; [|done]. by apply Merge_localCAS_missing. }
  destruct (merged_entry d o localCAS now k) as [ts ->].
  { destruct localCAS; [right|by left]. destruct (Ingesters o !! k) as [oi|] eqn:Ho; [left; eauto|right].
    destruct Hi as [Hd|[? _]]; [|done]. rewrite Hd. intros ? [= <-]. destruct (decide (State i = LEFT)); [done|]. by destruct Hn. }
  destruct (join_weight d o k i Hi) as (i' & -> & Hw). exists (set_Tokens ts i'). split; [done|]. by apply weight_newer in Hw.
Qed.

(** C9. The merged ring is at least as recent as both rings: every instance of
    the receiver, and every instance of the argument with a positive heartbeat,
    is in the result with a timestamp no older, and a tombstone is only replaced
    by a strictly newer entry.  The one exception is the purpose of [localCAS]: then
    an instance of the receiver that is not in the argument, and has not left, is in
    the result as a tombstone of the current time, with its address, zone and
    registration. *)
Theorem Merge_monotone `{R : MapRange} (d o : Desc) (localCAS : bool) (now : Z) (k : string) (i : InstanceDesc) :
  (Ingesters d !! k = Some i ∨ (Ingesters o !! k = Some i ∧ 0 < Timestamp i)) →
  ∃ i', Ingesters (merged d o localCAS now) !! k = Some i' ∧
    if decide (localCAS = true ∧ Ingesters o !! k = None ∧ State i ≠ LEFT)
    then i' = mkInstanceDesc (Addr i) (time_Unix now) LEFT [] (Zone i) (RegisteredTimestamp i)
    else Timestamp i ≤ Timestamp i' ∧ (State i = LEFT → State i' ≠ LEFT → Timestamp i < Timestamp i').
Proof.
  intros Hi. destruct (merged_newer d o localCAS now k i Hi) as (i' & Hi' & Hc). exists i'. split; [done|].
  unfold removed_by in Hc. by repeat case_decide.
Qed.

Lemma Merge_monotone_witness :
  (∃ i', Ingesters (merged (R:=map_range_std) ex_ring1 ex_ring2 false 0) !! "ing4" = Some i' ∧
     12 ≤ Timestamp i' ∧ (LEFT = LEFT → State i' ≠ LEFT → 12 < Timestamp i')) ∧
  Ingesters (merged (R:=map_range_std) ex_ring1 ex_ring2 true (99 * Second)) !! "ing2"
    = Some (mkInstanceDesc "a2" 99 LEFT [] "zone" 1).
Proof.
  assert (Ingesters ex_ring2 !! "ing4" = Some (ex_instance "a4" 12 LEFT [])) as H by (vm_compute; reflexivity).
  assert (Ingesters ex_ring1 !! "ing2" = Some (ex_instance "a2" 20 LEAVING [7; 9])) as H1 by (vm_compute; reflexivity).
  assert (Ingesters ex_ring2 !! "ing2" = None) as H2 by (vm_compute; reflexivity). split.
  - pose proof (Merge_monotone (R:=map_range_std) ex_ring1 ex_ring2 false 0 "ing4" _ (or_intror (conj H eq_refl))) as (i' & Hi' & Hc).
    exists i'. split; [exact Hi'|]. rewrite decide_False in Hc by (intros [Hf _]; discriminate Hf). exact Hc.
  - pose proof (Merge_monotone (R:=map_range_std) ex_ring1 ex_ring2 true (99 * Second) "ing2" _ (or_introl H1)) as (i' & Hi' & Hc).
    rewrite decide_True in Hc by (split; [reflexivity|split; [exact H2|discriminate]]). rewrite Hi', Hc. reflexivity.
Defined.
