(* ===== verification/Convergence.v ===== *)
(** * Gossip converges: [Desc.Merge] between many nodes

    Nodes start with an empty ring.  A [CAS] on a node writes any number of entries;
    nodes send what they have, whole or in part ([LocalState] sends all of it,
    [Merge] returns the change that is broadcast), and messages are delivered in any
    order, more than once, or never.  Nothing is removed: an instance that leaves is
    written as LEFT, and tombstones are kept.  Addresses, states, zones and
    timestamps converge always; tokens when no two names claim the same one:
    conflicts are the matter of [resolveConflicts_correct]. *)
From Stdlib Require Import ZArith Lia.
From stdpp Require Import base gmap strings list sorting fin_maps relations.
From S2P Require Import Prelude Model Merge MergeFacts ResolveFacts MergeLaws.

Abbreviation entry := (string * InstanceDesc)%type.

(** ** The newest entries *)
Record entries_ok (U : list entry) : Prop := {
  eo_normal : ∀ k i, (k, i) ∈ U → 0 < Timestamp i ∧ normal_instance i;
  eo_same : ∀ k i i', (k, i) ∈ U → (k, i') ∈ U → weight i = weight i' → i = i';
  eo_tokens : ∀ k k' i i' t, (k, i) ∈ U → (k', i') ∈ U → t ∈ Tokens i → t ∈ Tokens i' → k = k'
}.
(** [m] has the newest entry of [K] for every name *)
Definition newest (K : list entry) (m : gmap string InstanceDesc) : Prop :=
  ∀ k, match m !! k with
       | Some i => (k, i) ∈ K ∧ ∀ i', (k, i') ∈ K → weight i' ≤ weight i
       | None => ∀ i, (k, i) ∉ K
       end.
Definition within (m : gmap string InstanceDesc) (U : list entry) : Prop := ∀ k i, m !! k = Some i → (k, i) ∈ U.

Lemma newest_within K m : newest K m → within m K.
Proof. intros Hn k i Hk. specialize (Hn k). rewrite Hk in Hn. apply Hn. Qed.
Lemma newest_nil : newest [] ∅.
Proof. intros k. rewrite lookup_empty. intros i. apply not_elem_of_nil. Qed.
Lemma newest_unique U K K' m m' :
  (∀ k i i', (k, i) ∈ U → (k, i') ∈ U → weight i = weight i' → i = i') →
  K ⊆ U → K' ⊆ U → newest K m → newest K' m' → within m K' → within m' K → m = m'.
Proof.
  intros HU HK HK' Hm Hm' Hin Hin'. apply map_eq. intros k. pose proof (Hm k) as H1. pose proof (Hm' k) as H2.
  destruct (m !! k) as [i|] eqn:E1, (m' !! k) as [i'|] eqn:E2; [|exfalso|exfalso|done].
  - destruct H1 as [H1 Hmax], H2 as [H2 Hmax']. f_equal. apply (HU k); [by apply HK|by apply HK'|].
    specialize (Hmax i' (Hin' k i' E2)). specialize (Hmax' i (Hin k i E1)). lia.
  - apply (H2 i). by apply Hin.
  - apply (H1 i'). by apply Hin'.
Qed.
Definition timed (U : list entry) : Prop := ∀ k i, (k, i) ∈ U → 0 < Timestamp i.
Lemma newest_join K m o : timed (map_to_list o) → newest K m → newest (K ++ map_to_list o) (join m o).
Proof.
  intros Ho Hm k. specialize (Hm k). rewrite lookup_join.
  assert (∀ i, (k, i) ∈ K ++ map_to_list o ↔ (k, i) ∈ K ∨ o !! k = Some i) as Hin by (intros i; rewrite elem_of_app, elem_of_map_to_list; done).
  destruct (o !! k) as [oi|] eqn:Eo.
  - assert (0 < weight oi) as Hpos.
    { assert (0 < Timestamp oi) as Hp by (apply (Ho k oi); by apply elem_of_map_to_list). unfold weight. case_bool_decide; lia. }
    rewrite pick_weight. destruct (m !! k) as [i|] eqn:Em; simpl.
    + destruct Hm as [Hi Hmax]. case_bool_decide as Hw; (split; [apply Hin; naive_solver|]); intros i' [Hi'|[= <-]]%Hin; try lia.
      * specialize (Hmax i' Hi'). lia.
      * by apply Hmax.
    + change (weight InstanceDesc_zero) with 0. rewrite bool_decide_eq_true_2 by done. split; [apply Hin; by right|].
      intros i' [Hi'|[= <-]]%Hin; [by apply Hm in Hi'|lia].
  - destruct (m !! k) as [i|] eqn:Em.
    + destruct Hm as [Hi Hmax]. split; [apply Hin; by left|]. intros i' [Hi'|?]%Hin; [by apply Hmax|done].
    + intros i [Hi|?]%Hin; [by apply Hm in Hi|done].
Qed.

(** *** Entries but for their tokens *)
Definition bare (i : InstanceDesc) : InstanceDesc := set_Tokens [] i.
Definition project (g : InstanceDesc → InstanceDesc) (K : list entry) : list entry := (λ e, (e.1, g e.2)) <$> K.
Lemma elem_of_project g K k x : (k, x) ∈ project g K ↔ ∃ i, (k, i) ∈ K ∧ x = g i.
Proof.
  unfold project. rewrite list_elem_of_fmap. split.
  - intros ([k' i] & [= -> ->] & Hin). by exists i.
  - intros (i & Hin & ->). by exists (k, i).
Qed.
Lemma project_map g m : map_to_list (g <$> m) ≡ₚ project g (map_to_list m).
Proof. unfold project. rewrite map_to_list_fmap. by apply reflexive_eq, list_fmap_ext; intros ? []. Qed.
Lemma project_subset g K K' : K ⊆ K' → project g K ⊆ project g K'.
Proof. intros HK [k x] (i & Hi & ->)%elem_of_project. apply elem_of_project. exists i. split; [by apply HK|done]. Qed.
Lemma project_id K : project id K = K.
Proof. unfold project. induction K as [|[k i] K IH]; [done|]. simpl. by f_equal. Qed.
Lemma newest_perm K K' m : (∀ e, e ∈ K ↔ e ∈ K') → newest K m → newest K' m.
Proof.
  intros He Hm k. specialize (Hm k). destruct (m !! k) as [i|].
  - destruct Hm as [Hi Hmax]. split; [by apply He|]. intros i' Hi'. by apply Hmax, He.
  - intros i Hi. apply (Hm i). by apply He.
Qed.

Lemma entries_ok_subset U U' : entries_ok U → U' ⊆ U → entries_ok U'.
Proof. intros [H1 H2 H3] Hsub. constructor; intros; [eapply H1|eapply H2|eapply H3]; eauto. Qed.

(** what a merge does, but for the tokens, and exactly *)
Definition merges_as_join (g : InstanceDesc → InstanceDesc) (P : list entry → Prop) : Prop :=
  ∀ (R : MapRange) U d o localCAS now, P U → keeps d o localCAS →
  within (g <$> Ingesters d) (project g U) → within (g <$> Ingesters o) (project g U) →
  g <$> Ingesters (merged d o localCAS now) = join (g <$> Ingesters d) (g <$> Ingesters o).

Lemma merged_bare : merges_as_join bare timed.
Proof.
  intros R U d o localCAS now _ Hk _ _. apply map_eq. intros k. rewrite lookup_fmap.
  destruct (merged_entry d o localCAS now k) as [ts ->].
  { destruct localCAS; [right|by left]. destruct (Ingesters o !! k) as [oi|] eqn:Ho; [left; eauto|right].
    intros i Hi. destruct (decide (State i = LEFT)) as [|Hl]; [done|]. destruct (Hk eq_refl k i Hi Hl) as [x Hx]. congruence. }
  rewrite !lookup_join, !lookup_fmap. destruct (Ingesters o !! k) as [oi|]; simpl; [|by destruct (Ingesters d !! k)].
  rewrite !pick_weight. destruct (Ingesters d !! k) as [i|]; simpl;
    change (weight (norm_instance oi)) with (weight oi); change (weight (bare oi)) with (weight oi); try change (weight (bare i)) with (weight i);
    by case_bool_decide.
Qed.
Lemma merged_exact : merges_as_join id entries_ok.
Proof.
  intros R U d o localCAS now HU Hk. rewrite !project_id, !map_fmap_id. intros Hd Ho.
  assert (∀ m, within m U → normal_map m) as Hn by (intros m Hm k i Hi; by apply (eo_normal _ HU k i), Hm).
  rewrite merged_join_keeps; [done|done|by apply Hn|by apply Hn|].
  intros d1 d2 k1 k2 i1 i2 t H1 H2 Hi1 Hi2. assert (∀ x, x ∈ [d; o] → within (Ingesters x) U) as Hx.
  { intros x. rewrite !elem_of_cons, elem_of_nil. naive_solver. }
  exact (eo_tokens _ HU k1 k2 i1 i2 t (Hx d1 H1 k1 i1 Hi1) (Hx d2 H2 k2 i2 Hi2)).
Qed.

(** ** The network *)
Record network := mkNetwork {
  rings : nat → Desc;
  messages : list Desc;
  issued : list entry;              (* all entries that were written *)
  heard : nat → list entry          (* what has reached a node *)
}.
Definition start : network := mkNetwork (λ _, NewDesc) [] [] (λ _, []).
Definition upd {A} (j : nat) (x : A) (f : nat → A) : nat → A := λ n, if decide (n = j) then x else f n.
Inductive gossip_step (n n' : network) : Prop :=
| g_write (R : MapRange) j o localCAS now :
    (* the function given to [CAS] has returned [o] *)
    keeps (rings n j) o localCAS →
    n' = mkNetwork (upd j (merged (R := R) (rings n j) o localCAS now) (rings n)) (messages n) (issued n ++ map_to_list (Ingesters o))
           (upd j (heard n j ++ map_to_list (Ingesters o)) (heard n)) →
    gossip_step n n'
| g_send j m :
    m ⊆ Ingesters (rings n j) →
    n' = mkNetwork (rings n) (messages n ++ [mkDesc m]) (issued n) (heard n) → gossip_step n n'
| g_deliver (R : MapRange) j d now :
    d ∈ messages n →
    n' = mkNetwork (upd j (merged (R := R) (rings n j) d false now) (rings n)) (messages n) (issued n)
           (upd j (heard n j ++ map_to_list (Ingesters d)) (heard n)) →
    gossip_step n n'.

(** what is broadcast after a merge, the change it returned, is a part of the ring *)
Lemma change_is_part `{R : MapRange} d o now c : merge_change d o false now = Ok (Some c) → Ingesters c ⊆ Ingesters (merged d o false now).
Proof.
  intros Hc. destruct (Merge_change_exact d o false now) as [(_ & Hn & _)|(c' & Hc' & _ & Hex)]; [congruence|].
  rewrite Hc in Hc'. injection Hc' as <-. apply map_subseteq_spec. intros k i Hk. by apply Hex.
Qed.
Lemma issued_grows n n' : rtc gossip_step n n' → issued n ⊆ issued n'.
Proof.
  induction 1 as [|n n1 n' Hs _ IH]; [done|]. etrans; [|exact IH]. destruct Hs as [R j o localCAS now _ ->|j m _ ->|R j d now _ ->]; simpl; set_solver.
Qed.

(** *** The invariant, of the entries or of a part of them *)
Section invariant.
Variable g : InstanceDesc → InstanceDesc.
Variable P : list entry → Prop.
Hypothesis P_subset : ∀ U U', P U → U' ⊆ U → P U'.
Hypothesis P_timed : ∀ U, P U → timed U.
Hypothesis g_Timestamp : ∀ i, Timestamp (g i) = Timestamp i.
Hypothesis g_merged : merges_as_join g P.

Record network_inv (n : network) : Prop := {
  ni_newest : ∀ j, newest (project g (heard n j)) (g <$> Ingesters (rings n j));
  ni_heard : ∀ j, project g (heard n j) ⊆ project g (issued n);
  ni_messages : ∀ d, d ∈ messages n → within (g <$> Ingesters d) (project g (issued n))
}.

Lemma within_project m : within (g <$> m) (project g (map_to_list m)).
Proof. intros k i Hk. rewrite <- project_map. by apply elem_of_map_to_list. Qed.
Lemma within_timed m U : P U → within (g <$> m) (project g U) → timed (map_to_list (g <$> m)).
Proof.
  intros HU Hm k i Hk%elem_of_map_to_list. apply Hm, elem_of_project in Hk as (i0 & Hi0 & ->). rewrite g_Timestamp. by apply (P_timed U HU k).
Qed.
(** merging [o] into a ring that has the newest of what it has heard *)
Lemma merge_newest (R : MapRange) U d o localCAS now K : P U → keeps d o localCAS →
  within (g <$> Ingesters d) (project g U) → within (g <$> Ingesters o) (project g U) → newest (project g K) (g <$> Ingesters d) →
  newest (project g (K ++ map_to_list (Ingesters o))) (g <$> Ingesters (merged d o localCAS now)).
Proof.
  intros HU Hk Hd Ho Hn. rewrite (g_merged R U) by done.
  eapply newest_perm; [|apply newest_join; [by eapply within_timed|exact Hn]].
  intros e. unfold project. rewrite fmap_app, !elem_of_app. by rewrite (project_map g (Ingesters o)).
Qed.

Lemma gossip_step_inv n n' : P (issued n') → network_inv n → gossip_step n n' → network_inv n'.
Proof.
  intros HU [H1 H2 H3] Hs. assert (∀ j, within (g <$> Ingesters (rings n j)) (project g (issued n))) as Hw.
  { intros j k i Hk. apply (H2 j). exact (newest_within _ _ (H1 j) k i Hk). }
  destruct Hs as [R j o localCAS now Hk ->|j m Hm ->|R j d now Hd ->]; simpl in *.
  - set (U := issued n ++ map_to_list (Ingesters o)) in *.
    assert (project g (issued n) ⊆ project g U) as Hl by (apply project_subset; unfold U; set_solver).
    assert (project g (map_to_list (Ingesters o)) ⊆ project g U) as Hr by (apply project_subset; unfold U; set_solver).
    constructor; simpl.
    + intros j'. unfold upd. destruct (decide (j' = j)) as [->|Hne]; [|apply H1]. apply (merge_newest R U); [done|done| | |apply H1].
      * intros k i Hi. by apply Hl, (Hw j).
      * intros k i Hi. by apply Hr, within_project.
    + intros j'. unfold upd. destruct (decide (j' = j)) as [_|_].
      * unfold project at 1. rewrite fmap_app. specialize (H2 j). intros e [He|He]%elem_of_app; [by apply Hl, H2|by apply Hr].
      * specialize (H2 j'). set_solver.
    + intros d Hd k i Hi. by apply Hl, (H3 d Hd).
  - constructor; simpl; [done|done|]. intros d [Hd| ->%list_elem_of_singleton]%elem_of_app; [by apply H3|]. simpl.
    intros k i Hk. apply (Hw j k i). rewrite lookup_fmap in Hk |- *. destruct (m !! k) as [x|] eqn:Hx; [|done].
    by rewrite (lookup_weaken _ _ _ _ Hx Hm).
  - constructor; simpl; [| |done].
    + intros j'. unfold upd. destruct (decide (j' = j)) as [->|Hne]; [|apply H1].
      apply (merge_newest R (issued n)); [done|done|apply Hw|by apply H3|apply H1].
    + intros j'. unfold upd. destruct (decide (j' = j)) as [->|Hne]; [|apply H2]. unfold project at 1. rewrite fmap_app.
      intros [k i] [Hx|Hx]%elem_of_app; [by apply (H2 j)|]. change (_ <$> _) with (project g (map_to_list (Ingesters d))) in Hx.
      rewrite <- project_map in Hx. apply elem_of_map_to_list in Hx. exact (H3 d Hd k i Hx).
Qed.
Lemma gossip_inv n : P (issued n) → rtc gossip_step start n → network_inv n.
Proof.
  intros HU Hr. assert (∀ m, rtc gossip_step m n → network_inv m → network_inv n) as H.
  { clear Hr. intros m Hr. induction Hr as [|n0 n1 n Hs Hr IH]; [done|]. intros Hi. apply IH; [done|].
    eapply gossip_step_inv; [|done|done]. eapply P_subset; [done|]. by apply issued_grows. }
  apply (H start Hr). constructor; simpl; [|intros j; done|].
  - intros j. rewrite fmap_empty. apply newest_nil.
  - intros d Hd. by apply elem_of_nil in Hd.
Qed.

(** with no ties between entries of one name, two nodes that have heard the same agree *)
Lemma same_heard n : P (issued n) → rtc gossip_step start n →
  (∀ k i i', (k, i) ∈ project g (issued n) → (k, i') ∈ project g (issued n) → weight i = weight i' → i = i') →
  (∀ j j', (∀ e, e ∈ project g (heard n j) ↔ e ∈ project g (heard n j')) → g <$> Ingesters (rings n j) = g <$> Ingesters (rings n j')) ∧
  (∀ j m, newest (project g (issued n)) m → (∀ k i, m !! k = Some i → (k, i) ∈ project g (heard n j)) → g <$> Ingesters (rings n j) = m).
Proof.
  intros HU Hr Hties. pose proof (gossip_inv n HU Hr) as [H1 H2 _]. split.
  - intros j j' He. apply (newest_unique (project g (issued n)) (project g (heard n j)) (project g (heard n j'))); try done.
    + intros k i Hk. apply He. exact (newest_within _ _ (H1 j) k i Hk).
    + intros k i Hk. apply He. exact (newest_within _ _ (H1 j') k i Hk).
  - intros j m Hm Hall. apply (newest_unique (project g (issued n)) (project g (heard n j)) (project g (issued n))); try done.
    intros k i Hk. apply (H2 j). exact (newest_within _ _ (H1 j) k i Hk).
Qed.
End invariant.

(** C8. In a network where nodes write entries with positive timestamps, remove none,
    send any part of their rings, and merge messages in any order and any number of
    times: the ring of a node holds for every name the newest entry that has reached
    it (the later one, of two with the same timestamp the one that has left), and no
    entry that was not written, up to the tokens.  If moreover two entries of a name
    that are equally new differ in their tokens at most, two nodes that have heard
    the same entries have the same ring, and a node that the newest entry of every
    name has reached has the ring of all the newest entries, up to the tokens.  And
    all this holds of the tokens too, if no two names claim the same token, the
    entries are written with sorted tokens, and equally new ones are equal. *)
Theorem gossip_converges (n : network) :
  rtc gossip_step start n → timed (issued n) →
  (∀ j, newest (project bare (heard n j)) (bare <$> Ingesters (rings n j)) ∧ project bare (heard n j) ⊆ project bare (issued n)) ∧
  ((∀ k i i', (k, i) ∈ issued n → (k, i') ∈ issued n → weight i = weight i' → bare i = bare i') →
     (∀ j j', (∀ e, e ∈ heard n j ↔ e ∈ heard n j') → bare <$> Ingesters (rings n j) = bare <$> Ingesters (rings n j')) ∧
     (∀ j m, newest (project bare (issued n)) m → (∀ k i, m !! k = Some i → (k, i) ∈ project bare (heard n j)) →
        bare <$> Ingesters (rings n j) = m)) ∧
  (entries_ok (issued n) →
     (∀ j, newest (heard n j) (Ingesters (rings n j)) ∧ heard n j ⊆ issued n) ∧
     (∀ j j', (∀ e, e ∈ heard n j ↔ e ∈ heard n j') → rings n j = rings n j') ∧
     (∀ j m, newest (issued n) m → (∀ k i, m !! k = Some i → (k, i) ∈ heard n j) → rings n j = mkDesc m)).
Proof.
  intros Hr HU.
  assert (∀ U U', timed U → U' ⊆ U → timed U') as Hsub by (intros U U' H Hs k i Hi; by apply (H k), Hs).
  assert (∀ e l l', (∀ e, e ∈ l ↔ e ∈ l') → e ∈ project bare l ↔ e ∈ project bare l') as Hproj.
  { intros [k x] l l' He. rewrite !elem_of_project. by setoid_rewrite He. }
  split_and!.
  - pose proof (gossip_inv bare timed Hsub (λ _ H, H) (λ _, eq_refl) merged_bare n HU Hr) as [H1 H2 _]. by split.
  - intros Hties. destruct (same_heard bare timed Hsub (λ _ H, H) (λ _, eq_refl) merged_bare n HU Hr) as [Hsame Hall].
    { intros k i i' (i0 & Hi0 & ->)%elem_of_project (i1 & Hi1 & ->)%elem_of_project. by apply (Hties k i0 i1). }
    split; [|done]. intros j j' He. apply Hsame. intros e. by apply Hproj.
  - intros Hok. assert (∀ U, entries_ok U → timed U) as Ht by (intros U H k i Hi; by apply (eo_normal _ H k i)).
    pose proof (gossip_inv id entries_ok entries_ok_subset Ht (λ _, eq_refl) merged_exact n Hok Hr) as [H1 H2 _].
    destruct (same_heard id entries_ok entries_ok_subset Ht (λ _, eq_refl) merged_exact n Hok Hr) as [Hsame Hall].
    { rewrite project_id. apply (eo_same _ Hok). }
    assert (∀ d d', Ingesters d = Ingesters d' → d = d') as Hext by (intros [] []; simpl; congruence). split_and!.
    + intros j. specialize (H1 j). specialize (H2 j). rewrite !project_id, ?map_fmap_id in *. by split.
    + intros j j' He. apply Hext. specialize (Hsame j j'). rewrite !project_id, !map_fmap_id in Hsame. by apply Hsame.
    + intros j m Hm Hin. apply Hext. specialize (Hall j m). rewrite !project_id, map_fmap_id in Hall. by apply Hall.
Qed.

(** ** Witness *)
Definition ex_joining : InstanceDesc := ex_instance "a1" 10 JOINING [1; 5].
Definition ex_active : InstanceDesc := ex_instance "a1" 20 ACTIVE [1; 5].
Definition ex_says (i : InstanceDesc) : Desc := mkDesc {["i"%string := i]}.
(** node 0 hears of both states, node 1 of the last one only *)
Definition ex_network : network := mkNetwork
  (upd 1%nat (merged (R := map_range_std) NewDesc (ex_says ex_active) false 0)
     (upd 0%nat (merged (R := map_range_std) (merged (R := map_range_std) NewDesc (ex_says ex_joining) false 0) (ex_says ex_active) true 0)
        (upd 0%nat (merged (R := map_range_std) NewDesc (ex_says ex_joining) false 0) (λ _, NewDesc))))
  [ex_says ex_active] [("i"%string, ex_joining); ("i"%string, ex_active)]
  (upd 1%nat [("i"%string, ex_active)]
     (upd 0%nat [("i"%string, ex_joining); ("i"%string, ex_active)] (upd 0%nat [("i"%string, ex_joining)] (λ _, [])))).
Lemma ex_network_reachable : rtc gossip_step start ex_network.
Proof.
  assert (∀ i, map_to_list (Ingesters (ex_says i)) = [("i"%string, i)]) as Hl by (intros i; apply map_to_list_singleton).
  eapply rtc_l; [apply (g_write _ _ map_range_std 0%nat (ex_says ex_joining) false 0); [done|reflexivity]|].
  eapply rtc_l; [apply (g_write _ _ map_range_std 0%nat (ex_says ex_active) true 0); [|reflexivity]|].
  { intros _ k i Hk _. simpl in Hk |- *. destruct (decide (k = "i"%string)) as [->|Hne]; [rewrite lookup_singleton_eq; eauto|].
    exfalso. unfold upd in Hk. simpl in Hk. assert (Ingesters (merged (R := map_range_std) NewDesc (ex_says ex_joining) false 0)
      = {["i"%string := ex_joining]}) as E by (vm_compute; reflexivity). rewrite E, lookup_singleton_ne in Hk by congruence. done. }
  eapply rtc_l; [apply (g_send _ _ 0%nat {["i"%string := ex_active]}); [|reflexivity]; apply map_singleton_subseteq_l; vm_compute; reflexivity|].
  eapply rtc_l; [apply (g_deliver _ _ map_range_std 1%nat (ex_says ex_active) 0); [by left|reflexivity]|].
  rewrite !Hl. apply rtc_refl.
Qed.
Lemma ex_entries_ok : entries_ok (issued ex_network).
Proof.
  constructor.
  - intros k i. simpl. rewrite !elem_of_cons, elem_of_nil. intros [[= -> ->]|[[= -> ->]|[]]]; (split; [done|]); split; try done; repeat constructor; done.
  - intros k i i'. simpl. rewrite !elem_of_cons, !elem_of_nil. intros [[= -> ->]|[[= -> ->]|[]]] [[= ->]|[[= ->]|[]]] Hw; first [done|vm_compute in Hw; discriminate Hw].
  - intros k k' i i' t. simpl. rewrite !elem_of_cons, !elem_of_nil. intros [[= -> ->]|[[= -> ->]|[]]] [[= -> ->]|[[= -> ->]|[]]]; done.
Qed.
Lemma ex_newest : newest (issued ex_network) {["i"%string := ex_active]}.
Proof.
  intros k. destruct (decide (k = "i"%string)) as [->|Hk].
  - rewrite lookup_singleton_eq. split; [right; left|]. intros i'. simpl. rewrite !elem_of_cons, elem_of_nil.
    intros [[= ->]|[[= ->]|[]]]; vm_compute; done.
  - rewrite lookup_singleton_ne by done. intros i. simpl. rewrite !elem_of_cons, elem_of_nil. intros [[= ? ?]|[[= ? ?]|[]]]; done.
Qed.
Lemma gossip_converges_witness :
  heard ex_network 0%nat = [("i"%string, ex_joining); ("i"%string, ex_active)] ∧ heard ex_network 1%nat = [("i"%string, ex_active)] ∧
  rings ex_network 1%nat = ex_says ex_active ∧ rings ex_network 0%nat = rings ex_network 1%nat.
Proof.
  split; [reflexivity|]. split; [reflexivity|].
  destruct (gossip_converges ex_network ex_network_reachable) as (_ & _ & Hc).
  { intros k i Hi. exact (proj1 (eo_normal _ ex_entries_ok k i Hi)). }
  destruct (Hc ex_entries_ok) as (_ & _ & Hall).
  assert (∀ j, ("i"%string, ex_active) ∈ heard ex_network j → rings ex_network j = ex_says ex_active) as Hj.
  { intros j Hin. apply Hall; [exact ex_newest|]. intros k i [<- <-]%lookup_singleton_Some. exact Hin. }
  rewrite (Hj 0%nat), (Hj 1%nat); [split; reflexivity|left|right; left].
Defined.
