(* ===== verification/Memberlist.v ===== *)
(** * The gossiped key-value store: [kv/memberlist]

    [memberlist_client.go] (the store, [CAS], watchers, the push/pull framing,
    the message history), [mergeable.go] (the interface, as a class) and
    [broadcast.go].  The hashicorp memberlist library, the codecs and the
    protobuf encoding of a key-value pair are parameters. *)
From Stdlib Require Import ZArith Lia.
From stdpp Require Import base gmap strings list sorting fin_maps relations.
From S2P Require Import Prelude.

(** ** [Mergeable] ([mergeable.go])

    A method that modifies its receiver returns the new receiver.  [now] is the
    clock [Merge] may read. *)
Class MergeableOps (V E : Type) := {
  mg_Merge : V → V → bool → Z → V * result E (option V);
  mg_MergeContent : V → list string;
  mg_RemoveTombstones : V → Z → V * (Z * Z);
  mg_Clone : V → V
}.

Inductive kv_error (E : Type) :=
| errVersionMismatch
| errNoChangeDetected
| errTooManyRetries
| errMergeFailed (e : E)
| errFnReturned (msg : string)
| errInvalidType (type_name : string)
| errDecode (msg : string)
| errContextDone.
Arguments errVersionMismatch {E}.
Arguments errNoChangeDetected {E}.
Arguments errTooManyRetries {E}.
Arguments errMergeFailed {E} e.
Arguments errFnReturned {E} msg.
Arguments errInvalidType {E} type_name.
Arguments errDecode {E} msg.
Arguments errContextDone {E}.

(** [CAS] fails with "failed to CAS-update key %s: %v" *)
Record cas_error (E : Type) := errCasFailed { failed_key : string; last_error : option (kv_error E) }.
Arguments errCasFailed {E} failed_key last_error.
Arguments failed_key {E} c.
Arguments last_error {E} c.

Record valueDesc (V : Type) := mkValueDesc {
  value : option V;
  version : Z;      (* uint *)
  codecID : string
}.
Arguments mkValueDesc {V} value version codecID.
Arguments value {V} v.
Arguments version {V} v.
Arguments codecID {V} v.

Definition is_nil {A} (o : option A) : bool :=
  match o with None => true | Some _ => false end.

Definition u64 (z : Z) : Z := z mod 2 ^ 64.

(** what the function given to [CAS] returns: nothing, something that is not a
    (non-nil) [Mergeable], or a value; with the [retry] flag and the error *)
Inductive cas_out (V : Type) := OutNil | OutInvalid (type_name : string) | OutValue (v : V).
Arguments OutNil {V}.
Arguments OutInvalid {V} type_name.
Arguments OutValue {V} v.

(** ** The store *)
Section store.
Context {V E : Type} `{!MergeableOps V E}.

Abbreviation store := (gmap string (valueDesc V)).

Definition valueDesc_zero : valueDesc V := mkValueDesc None 0 "".

Definition valueDesc_Clone (v : valueDesc V) : valueDesc V :=
  mkValueDesc (mg_Clone <$> value v) (version v) (codecID v).

(** [get]: the value without any tombstone, and its version *)
Definition get (m : store) (key : string) : option V * Z :=
  let v := valueDesc_Clone (default valueDesc_zero (m !! key)) in
  ((λ x, (mg_RemoveTombstones x zeroTime).1) <$> value v, version v).

Definition Get (m : store) (key : string) : option V := (get m key).1.

(** [List], the keys in the order the map is ranged over *)
Definition List `{MapRange} (m : store) (prefix : string) : list string :=
  foldl (λ keys '(k, _), if String.prefix prefix k then keys ++ [k] else keys)
    [] (map_range 618 m).

(** [computeNewValue]: [oldVal.Merge] modifies [oldVal] in place; the first
    component is [oldVal] (or the incoming value) after the call *)
Definition computeNewValue (incoming : V) (oldVal : option V) (cas : bool) (now : Z)
    : V * result E (option V) :=
  match oldVal with
  | None => (incoming, Ok (Some incoming))
  | Some old => mg_Merge old incoming cas now
  end.

(** writes through the pointer held by the store: no effect when the key had no
    value, the pointer then not being in the store yet *)
Definition store_in_place (m : store) (key : string) (v : V) : store :=
  match m !! key with
  | Some d =>
      match value d with
      | Some _ => <[key := mkValueDesc (Some v) (version d) (codecID d)]> m
      | None => m
      end
  | None => m
  end.

(** [result.RemoveTombstones(limit); change.RemoveTombstones(limit)]: when the
    key had no value [result] and [change] are the same object, which both calls
    modify *)
Definition remove_tombstones_both (same : bool) (result change : V) (limit : Z) : V * V :=
  let result := (mg_RemoveTombstones result limit).1 in
  if same then let x := (mg_RemoveTombstones result limit).1 in (x, x)
  else (result, (mg_RemoveTombstones change limit).1).

(** [now] is read by [Merge], [nowLimit] to compute the tombstone limit *)
Definition mergeValueForKey (leftIngestersTimeout : Z) (m : store) (key : string)
    (incomingValue : V) (casVersion : Z) (codec : string) (now nowLimit : Z)
    : store * result (kv_error E) (option V * Z) :=
  let curr := default valueDesc_zero (m !! key) in
  if bool_decide (0 < casVersion) && bool_decide (version curr ≠ casVersion)
  then (m, Err errVersionMismatch)
  else
    let '(result, r) := computeNewValue incomingValue (value curr) (bool_decide (0 < casVersion)) now in
    let m := store_in_place m key result in
    match r with
    | Err e => (m, Err (errMergeFailed e))
    | Ok None => (m, Ok (None, 0))
    | Ok (Some change) =>
        if bool_decide (length (mg_MergeContent change) = 0%nat) then (m, Ok (None, 0))
        else
          let '(result, change) :=
            if bool_decide (0 < leftIngestersTimeout)
            then remove_tombstones_both (is_nil (value curr)) result change
                   (nowLimit - leftIngestersTimeout)
            else (result, change) in
          let m := store_in_place m key result in
          if bool_decide (0 < leftIngestersTimeout)
             && bool_decide (length (mg_MergeContent change) = 0%nat)
          then (m, Ok (None, 0))
          else
            let newVersion := u64 (version curr + 1) in
            (<[key := mkValueDesc (Some result) newVersion codec]> m,
             Ok (Some (mg_Clone change), newVersion))
    end.

(** ** [CAS]

    [f] is the caller's function: it runs on a clone of the value and may change
    the state [S] it closes over.  Between the read and the merge other
    goroutines may use the store: [env] is what they do to it. *)
Section cas.
Context {S : Type} (f : option V → S → S * (cas_out V * bool * option string)).

Definition trySingleCas (leftIngestersTimeout : Z) (m : store) (s : S) (key codec : string)
    (env : store → store) (now nowLimit : Z)
    : store * S * (bool * result (kv_error E) (option V * Z)) :=
  let '(val, ver) := get m key in
  let '(s, (out, retry, err)) := f val s in
  let m := env m in
  match err with
  | Some msg => (m, s, (retry, Err (errFnReturned msg)))
  | None =>
      match out with
      | OutNil => (m, s, (false, Ok (None, 0)))
      | OutInvalid ty => (m, s, (retry, Err (errInvalidType ty)))
      | OutValue r =>
          let '(m, res) := mergeValueForKey leftIngestersTimeout m key r ver codec now nowLimit in
          match res with
          | Err e => (m, s, (retry, Err e))
          | Ok (change, newver) =>
              if bool_decide (newver = 0) then (m, s, (retry, Err errNoChangeDetected))
              else (m, s, (retry, Ok (change, newver)))
          end
      end
  end.

(** what an attempt finds around it: the interference of other goroutines,
    whether the context is done when it sleeps, and the clocks *)
Record cas_env := mkCasEnv {
  ce_interfere : store → store;
  ce_ctxDone : bool;
  ce_now : Z;
  ce_nowLimit : Z
}.

Definition is_errNoChange (e : option (kv_error E)) : bool :=
  match e with Some errNoChangeDetected => true | _ => false end.

(** the error reported after the loop *)
Definition cas_final_error (key : string) (lastError : option (kv_error E)) : cas_error E :=
  errCasFailed key
    (match lastError with Some errVersionMismatch => Some errTooManyRetries | e => e end).

(** The loop of [CAS].  On success it returns the change and the new version to
    notify and broadcast, [None] when [f] wanted no change. *)
Fixpoint CAS_loop (leftIngestersTimeout : Z) (envs : nat → cas_env) (retries : nat)
    (lastError : option (kv_error E)) (m : store) (s : S) (key codec : string)
    : store * S * result (cas_error E) (option (V * Z)) :=
  match retries with
  | O => (m, s, Err (cas_final_error key lastError))
  | Datatypes.S retries' =>
      let e := envs retries in
      if is_errNoChange lastError && ce_ctxDone e
      then (m, s, Err (cas_final_error key (Some errContextDone)))
      else
        let '(m, s, (retry, res)) :=
          trySingleCas leftIngestersTimeout m s key codec (ce_interfere e) (ce_now e) (ce_nowLimit e) in
        match res with
        | Err err =>
            if negb retry then (m, s, Err (cas_final_error key (Some err)))
            else CAS_loop leftIngestersTimeout envs retries' (Some err) m s key codec
        | Ok (Some change, newver) => (m, s, Ok (Some (change, newver)))
        | Ok (None, _) => (m, s, Ok None)
        end
  end.

(** [maxCasRetries]; the loop of [CAS] from its first round *)
Definition maxCasRetries : nat := 10.
Definition CAS_store (leftIngestersTimeout : Z) (envs : nat → cas_env)
    (m : store) (s : S) (key codec : string)
    : store * S * result (cas_error E) (option (V * Z)) :=
  CAS_loop leftIngestersTimeout envs maxCasRetries None m s key codec.
End cas.

(** [storeCopy]: a clone of every value *)
Definition storeCopy `{MapRange} (m : store) : store :=
  foldl (λ result '(k, v), <[k := valueDesc_Clone v]> result) ∅ (map_range 1248 m).
End store.

(** ** The message history: [addMessageToBuffer] *)
Record KeyValuePair := mkKeyValuePair {
  Key : string;
  Value : list Z;    (* bytes *)
  Codec : string
}.
Record message := mkMessage {
  msg_ID : Z;
  msg_Time : Z;
  msg_Size : Z;
  msg_Pair : KeyValuePair;
  msg_Version : Z;
  msg_Changes : list string
}.

(** the loop dropping messages from the front *)
Fixpoint drop_messages (msgs : list message) (size limit : Z) : list message * Z :=
  match msgs with
  | [] => ([], size)
  | m0 :: rest =>
      if bool_decide (limit < size) then drop_messages rest (size - msg_Size m0) limit
      else (msgs, size)
  end.
Definition addMessageToBuffer (msgs : list message) (size limit : Z) (msg : message)
    : list message * Z :=
  drop_messages (msgs ++ [msg]) (size + msg_Size msg) limit.

(** ** [broadcast.go] *)
Record ringBroadcast := mkRingBroadcast {
  rb_key : string;
  rb_content : list string;
  rb_version : Z;
  rb_msg : list Z
}.

(** [for oldName: found := false; for newName: ...] *)
Definition content_found (oldName : string) (content : list string) : bool :=
  existsb (λ newName, bool_decide (oldName = newName)) content.
(** [old] is the result of the type assertion on the argument *)
Definition Invalidates (r : ringBroadcast) (old : option ringBroadcast) : bool :=
  match old with
  | None => false
  | Some oldb =>
      if bool_decide (rb_key r ≠ rb_key oldb) then false
      else if negb (forallb (λ oldName, content_found oldName (rb_content r)) (rb_content oldb))
      then false
      else bool_decide (rb_version oldb ≤ rb_version r)
  end.
