(* ===== verification/MemberlistKV.v ===== *)
(** * The [KV] service: watchers, broadcasts, push/pull ([kv/memberlist])

    The handlers of [memberlist_client.go] over the state a [KV] keeps.  The
    hashicorp library only receives what is queued for it
    ([broadcasts.QueueBroadcast]): the calls are recorded in order.  The
    protobuf encoding of a [KeyValuePair] (generated code) and the codecs are
    parameters.  Metrics and logs are left out. *)
From Stdlib Require Import ZArith Lia.
From stdpp Require Import base gmap strings list sorting fin_maps relations.
From S2P Require Import Prelude Memberlist.

(** the generated [Marshal] and [Unmarshal] of [KeyValuePair] *)
Class KVPairMarshal := {
  kv_Marshal : KeyValuePair → result string (list Z);
  kv_Unmarshal : list Z → result string KeyValuePair
}.

(** [codec.Codec]; [Decode] returns a [Mergeable] or a value of another type *)
Record codec (V : Type) := mkCodec {
  Encode : V → result string (list Z);
  Decode : list Z → result string (V + string);
  CodecID : string
}.
Arguments mkCodec {V} Encode Decode CodecID.
Arguments Encode {V} c _.
Arguments Decode {V} c _.
Arguments CodecID {V} c.

(** a buffered channel of keys *)
Record chan := mkChan { chan_cap : nat; chan_buf : list string }.

(** [select { case w <- key: default: }] *)
Definition try_send (c : chan) (key : string) : chan :=
  if bool_decide (length (chan_buf c) < chan_cap c)%nat
  then mkChan (chan_cap c) (chan_buf c ++ [key]) else c.

(** what the handlers read of [KVConfig], with the codec registry *)
Record KVConfig (V : Type) := mkKVConfig {
  LeftIngestersTimeout : Z;
  MessageHistoryBufferBytes : Z;
  codecs : gmap string (codec V)
}.
Arguments mkKVConfig {V} _ _ _.
Arguments LeftIngestersTimeout {V} k.
Arguments MessageHistoryBufferBytes {V} k.
Arguments codecs {V} k.

Record KV (V : Type) := mkKV {
  store : gmap string (valueDesc V);
  watchers : gmap string (list nat);
  prefixWatchers : gmap string (list nat);
  chans : gmap nat chan;      (* the channels made so far *)
  sentMessages : list message;
  sentMessagesSize : Z;
  receivedMessages : list message;
  receivedMessagesSize : Z;
  messageCounter : Z;
  queued : list ringBroadcast (* the calls of QueueBroadcast *)
}.
Arguments mkKV {V} _ _ _ _ _ _ _ _ _ _.
Arguments store {V} k.
Arguments watchers {V} k.
Arguments prefixWatchers {V} k.
Arguments chans {V} k.
Arguments sentMessages {V} k.
Arguments sentMessagesSize {V} k.
Arguments receivedMessages {V} k.
Arguments receivedMessagesSize {V} k.
Arguments messageCounter {V} k.
Arguments queued {V} k.

Section setters.
Context {V : Type}.
Implicit Types m : KV V.

Definition set_store s m : KV V :=
  mkKV s (watchers m) (prefixWatchers m) (chans m) (sentMessages m) (sentMessagesSize m)
    (receivedMessages m) (receivedMessagesSize m) (messageCounter m) (queued m).
Definition set_watchers ws pws cs m : KV V :=
  mkKV (store m) ws pws cs (sentMessages m) (sentMessagesSize m)
    (receivedMessages m) (receivedMessagesSize m) (messageCounter m) (queued m).
Definition set_messages sm ss rm rs c m : KV V :=
  mkKV (store m) (watchers m) (prefixWatchers m) (chans m) sm ss rm rs c (queued m).
Definition set_queued q m : KV V :=
  mkKV (store m) (watchers m) (prefixWatchers m) (chans m) (sentMessages m) (sentMessagesSize m)
    (receivedMessages m) (receivedMessagesSize m) (messageCounter m) q.
End setters.

(** [NewKV] *)
Definition NewKV {V} : KV V := mkKV ∅ ∅ ∅ ∅ [] 0 [] 0 0 [].

(** ** Watchers *)
Section watchers.
Context {V : Type}.
Implicit Types m : KV V.

(** [for ix, kw := range ws { if kw == w { ...; break } }] *)
Fixpoint remove_first (w : nat) (ws : list nat) : list nat :=
  match ws with
  | [] => []
  | kw :: ws' => if bool_decide (kw = w) then ws' else kw :: remove_first w ws'
  end.
Definition removeWatcherChannel (k : string) (w : nat) (watchers : gmap string (list nat))
    : gmap string (list nat) :=
  let ws := remove_first w (default [] (watchers !! k)) in
  if bool_decide (0 < length ws)%nat then <[k := ws]> watchers else delete k watchers.

(** [make(chan string, cap)] *)
Definition make_chan (m : KV V) (cap : nat) : gmap nat chan * nat :=
  let w := fresh (dom (chans m)) in (<[w := mkChan cap []]> (chans m), w).

(** the registration and the unregistration of [WatchKey] and [WatchPrefix] *)
Definition WatchKey_register (key : string) (m : KV V) : KV V * nat :=
  let '(cs, w) := make_chan m 1 in
  (set_watchers (<[key := default [] (watchers m !! key) ++ [w]]> (watchers m))
     (prefixWatchers m) cs m, w).
Definition WatchKey_unregister (key : string) (w : nat) (m : KV V) : KV V :=
  set_watchers (removeWatcherChannel key w (watchers m)) (prefixWatchers m) (chans m) m.
Definition WatchPrefix_register (prefix : string) (m : KV V) : KV V * nat :=
  let '(cs, w) := make_chan m 16 in
  (set_watchers (watchers m)
     (<[prefix := default [] (prefixWatchers m !! prefix) ++ [w]]> (prefixWatchers m)) cs m, w).
Definition WatchPrefix_unregister (prefix : string) (w : nat) (m : KV V) : KV V :=
  set_watchers (watchers m) (removeWatcherChannel prefix w (prefixWatchers m)) (chans m) m.

(** the [case key := <-w] of both loops: blocked when the buffer is empty *)
Definition watch_recv (w : nat) (m : KV V) : option (KV V * string) :=
  match chans m !! w with
  | Some (mkChan cap (key :: buf)) =>
      Some (set_watchers (watchers m) (prefixWatchers m) (<[w := mkChan cap buf]> (chans m)) m, key)
  | _ => None
  end.

Definition send_to (key : string) (cs : gmap nat chan) (w : nat) : gmap nat chan :=
  match cs !! w with Some c => <[w := try_send c key]> cs | None => cs end.

Definition notifyWatchers `{MapRange} (key : string) (m : KV V) : KV V :=
  let cs := foldl (send_to key) (chans m) (default [] (watchers m !! key)) in
  let cs := foldl (λ cs '(p, ws),
      if String.prefix p key then foldl (send_to key) cs ws else cs)
    cs (map_range 770 (prefixWatchers m)) in
  set_watchers (watchers m) (prefixWatchers m) cs m.
End watchers.

(** ** Message history *)
Section messages.
Context {V : Type} (cfg : KVConfig V).

Definition addReceivedMessage (msg : message) (m : KV V) : KV V :=
  if bool_decide (MessageHistoryBufferBytes cfg = 0) then m
  else
    let id := messageCounter m + 1 in
    let msg := mkMessage id (msg_Time msg) (msg_Size msg) (msg_Pair msg) (msg_Version msg) (msg_Changes msg) in
    let '(rm, rs) := addMessageToBuffer (receivedMessages m) (receivedMessagesSize m)
                       (MessageHistoryBufferBytes cfg) msg in
    set_messages (sentMessages m) (sentMessagesSize m) rm rs id m.

Definition addSentMessage (msg : message) (m : KV V) : KV V :=
  if bool_decide (MessageHistoryBufferBytes cfg = 0) then m
  else
    let id := messageCounter m + 1 in
    let msg := mkMessage id (msg_Time msg) (msg_Size msg) (msg_Pair msg) (msg_Version msg) (msg_Changes msg) in
    let '(sm, ss) := addMessageToBuffer (sentMessages m) (sentMessagesSize m)
                       (MessageHistoryBufferBytes cfg) msg in
    set_messages sm ss (receivedMessages m) (receivedMessagesSize m) id m.

Definition getSentAndReceivedMessages (m : KV V) : list message * list message :=
  (sentMessages m, receivedMessages m).

Definition deleteSentReceivedMessages (m : KV V) : KV V :=
  set_messages [] 0 [] 0 (messageCounter m) m.
End messages.

(** ** Big-endian lengths ([encoding/binary]) *)
Definition BigEndian_PutUint32 (n : Z) : list Z :=
  [Z.land (Z.shiftr n 24) 255; Z.land (Z.shiftr n 16) 255;
   Z.land (Z.shiftr n 8) 255; Z.land n 255].
Definition BigEndian_Uint32 (b : list Z) : Z :=
  match b with
  | b0 :: b1 :: b2 :: b3 :: _ =>
      Z.lor (Z.lor (Z.lor b3 (Z.shiftl b2 8)) (Z.shiftl b1 16)) (Z.shiftl b0 24)
  | _ => 0
  end.

(** ** Handlers *)
Section handlers.
Context {V E : Type} `{!MergeableOps V E} `{!KVPairMarshal} `{!MapRange}.
Context (cfg : KVConfig V).
Implicit Types m : KV V.

Definition GetCodec (codecID : string) : option (codec V) := codecs cfg !! codecID.

(** the clocks read while one message is handled *)
Record clocks := mkClocks { clk_msg : Z; clk_merge : Z; clk_limit : Z }.

Definition queueBroadcast (key : string) (content : list string) (version : Z) (msg : list Z)
    (m : KV V) : KV V :=
  set_queued (queued m ++ [mkRingBroadcast key content version msg]) m.

Definition broadcastNewValue (key : string) (change : V) (version : Z) (c : codec V) (now : Z)
    (m : KV V) : KV V :=
  match Encode c change with
  | Err _ => m
  | Ok data =>
      let kvPair := mkKeyValuePair key data (CodecID c) in
      match kv_Marshal kvPair with
      | Err _ => m
      | Ok pairData =>
          let m := addSentMessage cfg (mkMessage 0 now (Z.of_nat (length pairData)) kvPair version
                                         (mg_MergeContent change)) m in
          queueBroadcast key (mg_MergeContent change) version pairData m
      end
  end.

Definition mergeBytesValueForKey (key : string) (incomingData : list Z) (c : codec V)
    (clk : clocks) (m : KV V) : KV V * result (kv_error E) (option V * Z) :=
  match Decode c incomingData with
  | Err msg => (m, Err (errDecode msg))
  | Ok (inr ty) => (m, Err (errInvalidType ty))
  | Ok (inl incomingValue) =>
      let '(s, r) := mergeValueForKey (LeftIngestersTimeout cfg) (store m) key incomingValue 0
                       (CodecID c) (clk_merge clk) (clk_limit clk) in
      (set_store s m, r)
  end.

(** what [NotifyMsg] and [MergeRemoteState] do with a pair *)
Definition receive_pair (kvPair : KeyValuePair) (size : Z) (c : codec V) (clk : clocks)
    (m : KV V) : KV V :=
  let '(m, r) := mergeBytesValueForKey (Key kvPair) (Value kvPair) c clk m in
  let mod_ := match r with Ok (mod_, _) => mod_ | Err _ => None end in
  let version := match r with Ok (_, version) => version | Err _ => 0 end in
  let changes := match mod_ with Some v => mg_MergeContent v | None => [] end in
  let m := addReceivedMessage cfg (mkMessage 0 (clk_msg clk) size kvPair version changes) m in
  match r with
  | Err _ => m
  | Ok (Some change, version) =>
      if bool_decide (0 < version) then
        broadcastNewValue (Key kvPair) change version c (clk_msg clk)
          (notifyWatchers (Key kvPair) m)
      else m
  | Ok (None, _) => m
  end.

Definition NotifyMsg (msg : list Z) (clk : clocks) (m : KV V) : KV V :=
  match kv_Unmarshal msg with
  | Err _ => m
  | Ok kvPair =>
      if bool_decide (String.length (Key kvPair) = 0%nat) then m
      else
        match GetCodec (Codec kvPair) with
        | None => m
        | Some c => receive_pair kvPair (Z.of_nat (length msg)) c clk m
        end
  end.

(** one key of [LocalState]: the bytes appended to the buffer *)
Definition LocalState_step (sent : Z) (acc : KV V * list Z) (e : string * valueDesc V)
    : KV V * list Z :=
  let '(m, buf) := acc in
  let '(key, val) := e in
  match value val with
  | None => acc
  | Some v =>
      match GetCodec (codecID val) with
      | None => acc
      | Some c =>
          match Encode c v with
          | Err _ => acc
          | Ok encoded =>
              let kvPair := mkKeyValuePair key encoded (codecID val) in
              match kv_Marshal kvPair with
              | Err _ => acc
              | Ok ser =>
                  if bool_decide (MaxUint32 < Z.of_nat (length ser)) then acc
                  else
                    (addSentMessage cfg (mkMessage 0 sent (Z.of_nat (length ser)) kvPair (version val) []) m,
                     buf ++ BigEndian_PutUint32 (u32 (Z.of_nat (length ser))) ++ ser)
              end
          end
      end
  end.
Definition LocalState (sent : Z) (m : KV V) : KV V * list Z :=
  foldl (LocalState_step sent) (m, []) (map_range 1031 (store m)).

(** [MergeRemoteState]: every round consumes at least the four bytes of a length,
    so [length data] rounds are enough; [clk] gives the clocks of a round by the
    number of bytes left *)
Fixpoint MergeRemoteState_loop (fuel : nat) (clk : nat → clocks) (data : list Z) (m : KV V) : KV V :=
  match fuel with
  | O => m
  | S fuel' =>
      if bool_decide (length data = 0%nat) then m
      else if bool_decide (length data < 4)%nat then m
      else
        let kvPairLength := BigEndian_Uint32 data in
        let rest := drop 4 data in
        if bool_decide (Z.of_nat (length rest) < kvPairLength) then m
        else
          match kv_Unmarshal (take (Z.to_nat kvPairLength) rest) with
          | Err _ => m
          | Ok kvPair =>
              let m :=
                match GetCodec (Codec kvPair) with
                | None => m
                | Some c => receive_pair kvPair kvPairLength c (clk (length data)) m
                end in
              MergeRemoteState_loop fuel' clk (drop (Z.to_nat kvPairLength) rest) m
          end
  end.
Definition MergeRemoteState (data : list Z) (clk : nat → clocks) (m : KV V) : KV V :=
  MergeRemoteState_loop (length data) clk data m.

(** [CAS]: the loop on the store, then the notification and, while the service is
    running, the broadcast *)
Definition CAS {S : Type} (f : option V → S → S * (cas_out V * bool * option string))
    (envs : nat → cas_env (V:=V)) (running : bool) (now : Z) (key : string) (c : codec V)
    (s : S) (m : KV V) : KV V * S * result (cas_error E) unit :=
  let '(st, s, r) := CAS_store f (LeftIngestersTimeout cfg) envs (store m) s key (CodecID c) in
  let m := set_store st m in
  match r with
  | Err e => (m, s, Err e)
  | Ok None => (m, s, Ok tt)
  | Ok (Some (change, newver)) =>
      let m := notifyWatchers key m in
      let m := if running then broadcastNewValue key change newver c now m else m in
      (m, s, Ok tt)
  end.

(** ** [Client]: the checks in front of the calls *)
Inductive service_state := SNew | SStarting | SRunning | SStopping | STerminated | SFailed.

(** [awaitRunning] is the outcome of [kv.AwaitRunning(ctx)] with the state after it *)
Definition awaitKVRunningOrStopping (state : service_state)
    (awaitRunning : service_state * option string) : option string :=
  match state with
  | SRunning | SStopping => None
  | SNew | SStarting =>
      let '(ns, err) := awaitRunning in
      match ns with SStopping => None | _ => err end
  | _ => Some "unexpected state"
  end.
End handlers.
