(* ===== verification/MemberlistFacts.v ===== *)
(** * What the gossiped store promises

    Versions and the compare-and-swap of [Memberlist], for any implementation of
    [Mergeable]. *)
From Stdlib Require Import ZArith Lia.
From stdpp Require Import base gmap strings list sorting fin_maps relations.
From S2P Require Import Prelude Memberlist.

Section facts.
Context {V E : Type} `{!MergeableOps V E}.
Implicit Types m : gmap string (valueDesc V).

(** the version of a key: 0 when it has no value *)
Definition version_of m (key : string) : Z := version (default valueDesc_zero (m !! key)).

Lemma store_in_place_other m key v j : j ≠ key → store_in_place m key v !! j = m !! j.
Proof.
  intros Hj. unfold store_in_place. destruct (m !! key) as [[[?|] ? ?]|]; [|done..].
  simpl. by rewrite lookup_insert_ne.
Qed.

Lemma store_in_place_version m key v : version_of (store_in_place m key v) key = version_of m key.
Proof.
  unfold version_of, store_in_place. destruct (m !! key) as [[[?|] ? ?]|] eqn:Hm; simpl.
  - by rewrite lookup_insert_eq.
  - by rewrite Hm.
  - by rewrite Hm.
Qed.

Lemma store_in_place_dom m key v j : is_Some (store_in_place m key v !! j) ↔ is_Some (m !! j).
Proof.
  unfold store_in_place. destruct (m !! key) as [[[?|] ? ?]|] eqn:Hm; [|done..]. simpl.
  destruct (decide (j = key)) as [->|Hj].
  - rewrite lookup_insert_eq, Hm. split; eauto.
  - by rewrite lookup_insert_ne.
Qed.

Lemma get_version m key : (get m key).2 = version_of m key.
Proof. done. Qed.

(** [m'] differs from [m] at most in the value held at [key] *)
Definition same_versions m m' (key : string) : Prop :=
  (∀ j, j ≠ key → m' !! j = m !! j) ∧ version_of m' key = version_of m key ∧
  (is_Some (m' !! key) ↔ is_Some (m !! key)).

Lemma same_versions_refl m key : same_versions m m key.
Proof. done. Qed.
Lemma store_in_place_same m m' key v :
  same_versions m m' key → same_versions m (store_in_place m' key v) key.
Proof.
  intros (Ho & Hv & Hd). split; [|split].
  - intros j Hj. by rewrite store_in_place_other, Ho.
  - by rewrite store_in_place_version.
  - by rewrite store_in_place_dom.
Qed.
Hint Resolve same_versions_refl store_in_place_same : dskit.

Lemma mergeValueForKey_cases lit m key v cas codec now nowLimit m' r :
  mergeValueForKey lit m key v cas codec now nowLimit = (m', r) →
  (r = Err errVersionMismatch ∧ m' = m ∧ 0 < cas ∧ version_of m key ≠ cas) ∨
  (¬ (0 < cas ∧ version_of m key ≠ cas) ∧ r ≠ Err errVersionMismatch ∧
   ((∃ change res, r = Ok (Some (mg_Clone change), u64 (version_of m key + 1)) ∧
       mg_MergeContent change ≠ [] ∧
       m' !! key = Some (mkValueDesc (Some res) (u64 (version_of m key + 1)) codec) ∧
       ∀ j, j ≠ key → m' !! j = m !! j) ∨
    ((r = Ok (None, 0) ∨ ∃ e, r = Err (errMergeFailed e)) ∧ same_versions m m' key))).
Proof.
  unfold mergeValueForKey. cbv zeta. fold (version_of m key).
  case_bool_decide as Hc; simpl; [case_bool_decide as Hv; simpl|].
  1: { intros [= <- <-]. by left. }
  all: intros Hm; right; (split; [lia|]); revert Hm;
    destruct (computeNewValue _ _ _ _) as [res [[change|]|e]];
    [|intros [= <- <-]; split; [done|]; right; eauto 6 with dskit..];
    (case_bool_decide as Hl; [intros [= <- <-]; split; [done|]; right; eauto 6 with dskit|]);
    (destruct (if bool_decide (0 < lit) then _ else _) as [res' change'] eqn:Hboth);
    (case_bool_decide as Hlit; simpl;
     [case_bool_decide as Hl'; [intros [= <- <-]; split; [done|]; right; eauto 8 with dskit|]
     |]); intros [= <- <-]; (split; [done|]); left; exists change', res';
    (split; [done|]); (split; [intros Hnil;
       first [by rewrite Hnil in Hl' | injection Hboth as <- <-; by rewrite Hnil in Hl]|]);
    (split; [by rewrite lookup_insert_eq|]); intros j Hj;
    by rewrite lookup_insert_ne, !store_in_place_other.
Qed.

Lemma mergeValueForKey_outcome lit m key v cas codec now nowLimit :
  let '(m', r) := mergeValueForKey lit m key v cas codec now nowLimit in
  (∀ j, j ≠ key → m' !! j = m !! j) ∧
  (r = Err errVersionMismatch ↔ 0 < cas ∧ version_of m key ≠ cas) ∧
  match r with
  | Err errVersionMismatch => m' = m
  | Ok (Some _, newver) =>
      newver = u64 (version_of m key + 1) ∧
      ∃ res, m' !! key = Some (mkValueDesc (Some res) newver codec)
  | _ => version_of m' key = version_of m key ∧ (is_Some (m' !! key) ↔ is_Some (m !! key))
  end.
Proof.
  destruct (mergeValueForKey _ _ _ _ _ _ _ _) as [m' r] eqn:Hm.
  apply mergeValueForKey_cases in Hm as [(-> & -> & Hc)|(Hc & Hr & [Hs|[Hr' (Ho & Hv & Hd)]])].
  - done.
  - destruct Hs as (change & res & -> & _ & Hk & Ho). split; [done|]. split; [|by eauto].
    split; [done|]. by intros.
  - split; [done|]. split; [by split; intros|].
    by destruct Hr' as [->|[e ->]].
Qed.

(** what is stored when a change is reported: the incoming value merged into the one
    that was there, without the tombstones that have expired *)
Lemma mergeValueForKey_stored lit m key v cas codec now nowLimit m' change newver :
  mergeValueForKey lit m key v cas codec now nowLimit = (m', Ok (Some change, newver)) →
  let old := value (default valueDesc_zero (m !! key)) in
  ∃ res change0, computeNewValue v old (bool_decide (0 < cas)) now = (res, Ok (Some change0)) ∧
    newver = u64 (version_of m key + 1) ∧
    m' = <[key := mkValueDesc (Some (if bool_decide (0 < lit)
                                     then (remove_tombstones_both (is_nil old) res change0 (nowLimit - lit)).1 else res)) newver codec]> m.
Proof.
  unfold mergeValueForKey. cbv zeta. fold (version_of m key). set (old := value (default valueDesc_zero (m !! key))).
  destruct (bool_decide (0 < cas) && _); [done|].
  destruct (computeNewValue v old _ now) as [res [[change0|]|e]] eqn:Hc; [|done..].
  assert (∀ m0 x, (∀ j, j ≠ key → m0 !! j = m !! j) → <[key := x]> m0 = <[key := x]> m) as Hins.
  { intros m0 x Ho. apply map_eq. intros j. destruct (decide (j = key)) as [->|Hj]; [by rewrite !lookup_insert_eq|].
    rewrite !lookup_insert_ne by done. by apply Ho. }
  destruct (bool_decide (length (mg_MergeContent change0) = 0%nat)); [done|]. destruct (bool_decide (0 < lit)); simpl.
  - destruct (remove_tombstones_both _ _ _ _) as [res' change'] eqn:Hr. simpl.
    destruct (bool_decide (length (mg_MergeContent change') = 0%nat)); [done|]. intros [= <- <- <-]. exists res, change0. split; [done|]. split; [done|]. rewrite Hr. apply Hins.
    intros j Hj. by rewrite !store_in_place_other.
  - intros [= <- <- <-]. exists res, change0. split; [done|]. split; [done|]. apply Hins.
    intros j Hj. by rewrite !store_in_place_other.
Qed.

(** C10. [mergeValueForKey] and versions: a call given a stale version fails with
    [errVersionMismatch] and touches nothing; a call that reports a change stores
    a value under the next version, and the reported version is that one; in
    every other case the version of every key, and the set of keys, is
    unchanged.  Other keys are never touched. *)
Theorem mergeValueForKey_contract lit m key v cas codec now nowLimit :
  let '(m', r) := mergeValueForKey lit m key v cas codec now nowLimit in
  (∀ j, j ≠ key → m' !! j = m !! j) ∧
  (r = Err errVersionMismatch ↔ 0 < cas ∧ version_of m key ≠ cas) ∧
  match r with
  | Err errVersionMismatch => m' = m
  | Ok (Some _, newver) =>
      newver = u64 (version_of m key + 1) ∧
      ∃ res, m' !! key = Some (mkValueDesc (Some res) newver codec)
  | _ => version_of m' key = version_of m key ∧ (is_Some (m' !! key) ↔ is_Some (m !! key))
  end.
Proof. apply mergeValueForKey_outcome. Qed.

(** ** [CAS] *)
Section cas.
Context {S : Type} (f : option V → S → S * (cas_out V * bool * option string)).

Lemma trySingleCas_cases lit m s key codec env now nowLimit m' s' retry r :
  trySingleCas f lit m s key codec env now nowLimit = (m', s', (retry, r)) →
  ∃ out retry' err, f (get m key).1 s = (s', (out, retry', err)) ∧
  match r with
  | Err errVersionMismatch =>
      m' = env m ∧ 0 < version_of m key ∧ version_of (env m) key ≠ version_of m key
  | Err errTooManyRetries => False
  | Ok (Some change, newver) =>
      err = None ∧ newver ≠ 0 ∧ ∃ v, out = OutValue v ∧
      mergeValueForKey lit (env m) key v (version_of m key) codec now nowLimit
      = (m', Ok (Some change, newver))
  | _ => u64 (version_of (env m) key + 1) ≠ 0 → same_versions (env m) m' key
  end.
Proof.
  unfold trySingleCas. pose proof (get_version m key) as Hver.
  destruct (get m key) as [val ver]. simpl in Hver |- *. subst ver.
  destruct (f val s) as [s1 [[out retry1] err]] eqn:Hf.
  destruct err as [msg|]; [intros [= <- <- <- <-]; exists out, retry1, (Some msg); by auto with dskit|].
  destruct out as [|ty|v]; [intros [= <- <- <- <-]; do 3 eexists; by auto with dskit..|].
  destruct (mergeValueForKey _ _ _ _ _ _ _ _) as [m2 res] eqn:Hm.
  pose proof (mergeValueForKey_cases _ _ _ _ _ _ _ _ _ _ Hm) as Hcases.
  destruct res as [[change newver]|e].
  - case_bool_decide as Hnv; intros [= <- <- <- <-]; exists (OutValue v), retry1, None; (split; [done|]).
    + destruct Hcases as [(? & _)|(_ & _ & [(ch & res & [= -> ->] & _ & _)|[_ ?]])]; done.
    + destruct change as [change|]; [|intros _; by destruct Hcases as [(? & _)|(_ & _ & [(? & ? & ? & _)|[_ ?]])]].
      split; [done|]. split; [done|]. by exists v.
  - intros [= <- <- <- <-]; exists (OutValue v), retry1, None; (split; [done|]).
    destruct Hcases as [(Hr & -> & Hc)|(_ & Hr & [(? & ? & ? & _)|[He ?]])]; [|done|].
    + injection Hr as ->. done.
    + by destruct He as [?|[e' [= ->]]].
Qed.

(** A successful round: what [f] returned for the value in [m] is merged into the
    store the others have made of it meanwhile.  If the key had a version, that is
    still its version.  If it had none, [f] was given no value and there may be one
    now: the version is not looked at. *)
Definition cas_round lit (envs : nat → cas_env) key codec (n : nat) m s m' s' change newver : Prop :=
  ∃ v retry,
    f (get m key).1 s = (s', (OutValue v, retry, None)) ∧
    (0 < version_of m key → version_of (ce_interfere (envs n) m) key = version_of m key) ∧
    mergeValueForKey lit (ce_interfere (envs n) m) key v (version_of m key) codec
      (ce_now (envs n)) (ce_nowLimit (envs n)) = (m', Ok (Some change, newver)).

Lemma CAS_loop_success lit envs n last m s key codec m' s' change newver :
  CAS_loop f lit envs n last m s key codec = (m', s', Ok (Some (change, newver))) →
  ∃ i m1 s1, (0 < i ≤ n)%nat ∧ cas_round lit envs key codec i m1 s1 m' s' change newver.
Proof.
  revert last m s. induction n as [|n IH]; intros last m s; simpl; [done|].
  destruct (is_errNoChange last && _); [done|].
  destruct (trySingleCas _ _ _ _ _ _ _ _) as [[m1 s1] [retry [[[ch|] nv]|e]]] eqn:Ht.
  - intros [= -> -> -> ->]. exists (Datatypes.S n), m, s. split; [lia|].
    apply trySingleCas_cases in Ht as (out & retry' & err & Hf & -> & _ & v & -> & Hm).
    exists v, retry'. split; [done|]. split; [|done]. intros Hpos.
    apply mergeValueForKey_cases in Hm as [(? & _)|[Hc _]]; [done|].
    destruct (decide (version_of (ce_interfere (envs (Datatypes.S n)) m) key = version_of m key)) as [?|?];
      [done|]. by destruct Hc.
  - done.
  - destruct (negb retry); [done|]. intros (i & m2 & s2 & Hi & Hr)%IH.
    exists i, m2, s2. split; [lia|done].
Qed.

(** C11. A successful [CAS] is, in one of its at most [maxCasRetries] rounds, one
    read and one merge.  [f] was given the value in some store [m1], which the other
    goroutines have turned into [m2]; the value of the key is then what [f] returned
    merged into the value in [m2], less expired tombstones, under the version after
    that of [m2], and nothing else has changed.  If the key had a version in [m1] it
    has that version in [m2], and the merge is a local one, which takes what is
    missing for removed.  If it had none, nothing is compared: what others have
    stored meanwhile is merged with, as a message from another node would be. *)
Theorem CAS_success lit envs m s key codec m' s' change newver :
  CAS_store f lit envs m s key codec = (m', s', Ok (Some (change, newver))) →
  ∃ i m1 s1 v retry, let m2 := ce_interfere (envs i) m1 in let old := value (default valueDesc_zero (m2 !! key)) in
    (0 < i ≤ maxCasRetries)%nat ∧
    f (get m1 key).1 s1 = (s', (OutValue v, retry, None)) ∧
    (0 < version_of m1 key → version_of m2 key = version_of m1 key) ∧
    ∃ res change0,
      computeNewValue v old (bool_decide (0 < version_of m1 key)) (ce_now (envs i)) = (res, Ok (Some change0)) ∧
      newver = u64 (version_of m2 key + 1) ∧
      m' = <[key := mkValueDesc (Some (if bool_decide (0 < lit)
             then (remove_tombstones_both (is_nil old) res change0 (ce_nowLimit (envs i) - lit)).1 else res)) newver codec]> m2.
Proof.
  intros (i & m1 & s1 & Hi & v & retry & Hf & Hv & Hm)%CAS_loop_success. exists i, m1, s1, v, retry.
  split; [done|]. split; [done|]. split; [done|]. by eapply mergeValueForKey_stored.
Qed.

Lemma same_versions_trans m1 m2 m3 key :
  same_versions m1 m2 key → same_versions m2 m3 key → same_versions m1 m3 key.
Proof.
  intros (Ho & Hv & Hd) (Ho' & Hv' & Hd'). split; [|split].
  - intros j Hj. by rewrite Ho', Ho.
  - congruence.
  - by rewrite Hd'.
Qed.

(** C12. A failing [CAS], alone on the store, leaves every key at its version:
    whatever [f] returned in the rounds that ran, no round stored a new version,
    and the reported error is never the version mismatch. *)
Theorem CAS_failure lit envs m s key codec m' s' e :
  (∀ i m0, ce_interfere (envs i) m0 = m0) → 0 ≤ version_of m key < 2 ^ 64 - 1 →
  CAS_store f lit envs m s key codec = (m', s', Err e) →
  same_versions m m' key ∧ last_error e ≠ Some errTooManyRetries ∧ last_error e ≠ None.
Proof.
  intros Hq Hver. unfold CAS_store.
  assert (∀ n last m1 s1, same_versions m m1 key → last ≠ Some errVersionMismatch →
    last ≠ Some errTooManyRetries → (n = 0%nat → last ≠ None) →
    CAS_loop f lit envs n last m1 s1 key codec = (m', s', Err e) →
    same_versions m m' key ∧ last_error e ≠ Some errTooManyRetries ∧ last_error e ≠ None) as Hloop.
  { induction n as [|n IH]; intros last m1 s1 Hs Hl1 Hl2 Hl3; simpl.
    { intros [= <- <- <-]. simpl. split; [done|]. specialize (Hl3 eq_refl).
      by destruct last as [[]|]. }
    destruct (is_errNoChange last && _) eqn:Hctx; [intros [= <- <- <-]; by split|].
    destruct (trySingleCas _ _ _ _ _ _ _ _) as [[m2 s2] [retry res]] eqn:Ht.
    apply trySingleCas_cases in Ht as (out & retry' & err & _ & Hres). rewrite Hq in Hres.
    assert (u64 (version_of m1 key + 1) ≠ 0) as Hu.
    { destruct Hs as (_ & -> & _). unfold u64. rewrite Z.mod_small by lia. lia. }
    destruct res as [[[ch|] nv]|e1]; [done..|].
    assert (same_versions m m2 key ∧ e1 ≠ errVersionMismatch ∧ e1 ≠ errTooManyRetries) as (Hs2 & He1 & He2).
    { destruct e1; try (split; [eapply same_versions_trans; [done|by apply Hres]|done]); [|done].
      destruct Hres as (_ & _ & Hne). done. }
    destruct (negb retry); [|by apply IH; auto; congruence].
    intros [= <- <- <-]. simpl. by destruct e1. }
  apply Hloop; auto with dskit; done.
Qed.
End cas.
End facts.
