(* ===== verification/RingValue.v ===== *)
(** * The ring as a value of the gossiped store

    [*ring.Desc] implements [memberlist.Mergeable] ([ring/model.go]); with the
    contract of [mergeable.go] as a class of laws that the ring discharges. *)
From Stdlib Require Import ZArith Lia.
From stdpp Require Import base gmap strings list sorting fin_maps relations.
From S2P Require Import Prelude Model Merge MergeFacts MergeLaws Memberlist.

#[export] Instance ring_MergeableOps `{MapRange} : MergeableOps Desc model_error := {|
  mg_Merge d o localCAS now := (merged d o localCAS now, merge_change d o localCAS now);
  mg_MergeContent := MergeContent;
  mg_RemoveTombstones := RemoveTombstones;
  mg_Clone d := d
|}.

(** what the store relies on, of the contract stated in [mergeable.go] *)
Class MergeableLaws (V E : Type) `{!MergeableOps V E} := {
  (** merging the same value again changes nothing and reports no change *)
  law_idempotent : ∀ (a b a' : V) r now now',
    mg_Merge a b false now = (a', r) → mg_Merge a' b false now' = (a', Ok None);
  (** removing the tombstones twice with the same limit is removing them once *)
  law_tombstones : ∀ (a : V) limit,
    (mg_RemoveTombstones (mg_RemoveTombstones a limit).1 limit).1 = (mg_RemoveTombstones a limit).1;
  (** [Clone] is a copy *)
  law_clone : ∀ a : V, mg_Clone a = a
}.

Section tombstones.
Context `{R : MapRange}.

(** the entries that [RemoveTombstones] deletes *)
Definition expired (limit : Z) (i : InstanceDesc) : bool :=
  bool_decide (State i = LEFT) &&
  (time_IsZero limit || time_Before (time_of_Unix (Timestamp i)) limit).

Lemma RemoveTombstones_step_spec limit m c n ing :
  RemoveTombstones_step limit (m, c) (n, ing)
  = if expired limit ing then (delete n m, (c.1, c.2 + 1))
    else if bool_decide (State ing = LEFT) then (m, (c.1 + 1, c.2)) else (m, c).
Proof.
  unfold RemoveTombstones_step, expired. destruct c as [t r]. case_bool_decide; [|done]. simpl.
  by case_if.
Qed.

Lemma RemoveTombstones_lookup d limit k :
  Ingesters (RemoveTombstones d limit).1 !! k
  = match Ingesters d !! k with
    | Some i => if expired limit i then None else Some i
    | None => None
    end.
Proof.
  unfold RemoveTombstones.
  destruct (foldl _ _ _) as [m c] eqn:Hf. cbn [fst Ingesters].
  pose proof (map_range_local fst (RemoveTombstones_step limit)
    (λ _ i o, if expired limit i then None else o)) as Hl.
  assert (m = (foldl (RemoveTombstones_step limit) (Ingesters d, (0, 0))
                 (map_range 422 (Ingesters d))).1) as -> by (by rewrite Hf).
  rewrite Hl.
  - cbn [fst]. by destruct (Ingesters d !! k).
  - intros [a [t r]] j v. rewrite RemoveTombstones_step_spec.
    case_if; simpl; [by rewrite lookup_delete_eq|]. by case_if.
  - intros [a [t r]] j v j' Hj. rewrite RemoveTombstones_step_spec.
    case_if; simpl; [by rewrite lookup_delete_ne|]. by case_if.
Qed.

Lemma RemoveTombstones_counts d limit :
  (RemoveTombstones d limit).2
  = (Z.of_nat (length (filter (λ i, State i = LEFT ∧ expired limit i = false) (map_to_list (Ingesters d)).*2)),
     Z.of_nat (length (filter (λ i, expired limit i = true) (map_to_list (Ingesters d)).*2))).
Proof.
  unfold RemoveTombstones. rewrite <- (map_range_perm 422 (Ingesters d)).
  assert (∀ (l : list (string * InstanceDesc)) m t r,
    (foldl (RemoveTombstones_step limit) (m, (t, r)) l).2
    = (t + Z.of_nat (length (filter (λ i, State i = LEFT ∧ expired limit i = false) l.*2)),
       r + Z.of_nat (length (filter (λ i, expired limit i = true) l.*2)))) as Hl.
  { induction l as [|[n ing] l IH]; intros m t r; [simpl; f_equal; lia|].
    cbn [foldl]. rewrite RemoveTombstones_step_spec, fmap_cons, !filter_cons. cbn [fst snd].
    destruct (expired limit ing) eqn:He.
    - rewrite IH, decide_False by naive_solver. rewrite decide_True by done. cbn [length]. f_equal; lia.
    - rewrite (decide_False (P:=false = true)) by done. case_bool_decide as Hs.
      + rewrite IH, decide_True by done. cbn [length]. f_equal; lia.
      + rewrite IH, decide_False by naive_solver. done. }
  specialize (Hl (map_range 422 (Ingesters d)) (Ingesters d) 0 0).
  destruct (foldl _ _ _) as [m c]. simpl in *. done.
Qed.

Lemma RemoveTombstones_idempotent d limit :
  (RemoveTombstones (RemoveTombstones d limit).1 limit).1 = (RemoveTombstones d limit).1.
Proof.
  enough (Ingesters (RemoveTombstones (RemoveTombstones d limit).1 limit).1
          = Ingesters (RemoveTombstones d limit).1) as He
    by (destruct (RemoveTombstones (RemoveTombstones d limit).1 limit).1,
          (RemoveTombstones d limit).1; simpl in He; congruence).
  apply map_eq. intros k. rewrite !RemoveTombstones_lookup.
  destruct (Ingesters d !! k) as [i|]; [|done]. by destruct (expired limit i) eqn:He; rewrite ?He.
Qed.

Lemma MergeContent_elem d k : k ∈ MergeContent d ↔ is_Some (Ingesters d !! k).
Proof.
  unfold MergeContent.
  assert (∀ (l : list (string * InstanceDesc)) acc,
    foldl (λ result '(k, _), result ++ [k]) acc l = acc ++ l.*1) as Hl.
  { induction l as [|[k0 i] l IH]; intros acc; simpl; [by rewrite app_nil_r|].
    by rewrite IH, <- app_assoc. }
  rewrite Hl. simpl. rewrite list_elem_of_fmap. split.
  - intros ([k0 i] & -> & Hi%map_range_elem). by exists i.
  - intros [i Hi]. exists (k, i). by rewrite map_range_elem.
Qed.

#[export] Instance ring_MergeableLaws : MergeableLaws Desc model_error.
Proof.
  split.
  - intros a b a' r now now' [= <- <-]. simpl. unfold merge_change.
    pose proof (merge_again a b now now') as Hid. unfold merged at 1. by rewrite Hid.
  - intros a limit. apply RemoveTombstones_idempotent.
  - done.
Qed.
End tombstones.
