(* ===== verification/Watch.v ===== *)
(** * Watchers lose no update

    One [WatchKey] goroutine among the other users of a [KV]: the steps of
    [memberlist_client.go] that touch the store or the watchers, interleaved in
    any order.  A handler that changes a value runs its merge under the store
    lock and calls [notifyWatchers] later: the calls still to come are part of
    the state. *)
From Stdlib Require Import ZArith Lia.
From stdpp Require Import base gmap strings list sorting fin_maps relations.
From S2P Require Import Prelude Model MergeLaws Memberlist MemberlistKV MemberlistFacts RingValue.

Section watch.
Context {V E : Type} `{!MergeableOps V E} `{!MapRange}.
Context (lit : Z) (key : string) (w : nat).
Implicit Types m : KV V.

Record wstate := mkW {
  w_kv : KV V;
  w_pending : list string;   (* notifyWatchers calls that have not run yet *)
  w_reading : bool;          (* the goroutine took a notification and calls get *)
  w_seen : Z                 (* the version of the value it read last *)
}.

Inductive wstep : wstate → wstate → Prop :=
| w_merge_change m p r seen k v cas codec now nowLimit s change ver :
    mergeValueForKey lit (store m) k v cas codec now nowLimit = (s, Ok (Some change, ver)) →
    wstep (mkW m p r seen) (mkW (set_store s m) (k :: p) r seen)
| w_merge_none m p r seen k v cas codec now nowLimit s res :
    mergeValueForKey lit (store m) k v cas codec now nowLimit = (s, res) →
    (∀ change ver, res ≠ Ok (Some change, ver)) →
    wstep (mkW m p r seen) (mkW (set_store s m) p r seen)
| w_notify m p1 k p2 r seen :
    wstep (mkW m (p1 ++ k :: p2) r seen) (mkW (notifyWatchers k m) (p1 ++ p2) r seen)
| w_register k m p r seen :
    wstep (mkW m p r seen) (mkW (WatchKey_register k m).1 p r seen)
| w_register_prefix k m p r seen :
    wstep (mkW m p r seen) (mkW (WatchPrefix_register k m).1 p r seen)
| w_unregister k w' m p r seen :
    w' ≠ w → wstep (mkW m p r seen) (mkW (WatchKey_unregister k w' m) p r seen)
| w_unregister_prefix k w' m p r seen :
    wstep (mkW m p r seen) (mkW (WatchPrefix_unregister k w' m) p r seen)
| w_recv_other w' m p r seen m' k :
    w' ≠ w → watch_recv w' m = Some (m', k) →
    wstep (mkW m p r seen) (mkW m' p r seen)
| w_recv m p seen m' k :
    watch_recv w m = Some (m', k) → wstep (mkW m p false seen) (mkW m' p true seen)
| w_read m p seen :
    wstep (mkW m p true seen) (mkW m p false (get (store m) key).2).

(** the channel of the watcher *)
Definition wchan (m : KV V) : option chan := chans m !! w.

Definition chan_ready (c : option chan) : Prop :=
  match c with Some c => chan_buf c ≠ [] | None => False end.

Definition winv (x : wstate) : Prop :=
  w ∈ default [] (watchers (w_kv x) !! key) ∧
  (∃ buf, wchan (w_kv x) = Some (mkChan 1 buf)) ∧
  (w_seen x = version_of (store (w_kv x)) key ∨ w_reading x = true ∨
   chan_ready (wchan (w_kv x)) ∨ key ∈ w_pending x).

(** *** Channels *)
Lemma send_to_lookup k cs w' j :
  send_to k cs w' !! j = if bool_decide (j = w') then (λ c, try_send c k) <$> cs !! j else cs !! j.
Proof.
  unfold send_to. case_bool_decide as Hj; [subst j|].
  - destruct (cs !! w') eqn:Hc; simpl; by rewrite ?lookup_insert_eq, ?Hc.
  - destruct (cs !! w') eqn:Hc; [by rewrite lookup_insert_ne|done].
Qed.

(** a channel only receives sends *)
Definition chan_le (c c' : option chan) : Prop :=
  match c, c' with
  | Some c, Some c' => chan_cap c' = chan_cap c ∧ ∃ l, chan_buf c' = chan_buf c ++ l
  | None, None => True
  | _, _ => False
  end.

#[local] Instance chan_le_refl : Reflexive chan_le.
Proof. intros [c|]; [|done]. split; [done|]. exists []. by rewrite app_nil_r. Qed.
#[local] Instance chan_le_trans : Transitive chan_le.
Proof.
  intros [c1|] [c2|] [c3|]; try done. intros [Hc (l & Hl)] [Hc' (l' & Hl')].
  split; [congruence|]. exists (l ++ l'). rewrite Hl', Hl. by rewrite app_assoc.
Qed.

Lemma try_send_le c k : chan_le (Some c) (Some (try_send c k)).
Proof. unfold try_send. case_bool_decide; [|reflexivity]. split; [done|eauto]. Qed.

Lemma send_to_le k cs w' j : chan_le (cs !! j) (send_to k cs w' !! j).
Proof.
  rewrite send_to_lookup. case_bool_decide; [|reflexivity].
  destruct (cs !! j); [apply try_send_le|done].
Qed.

Lemma sends_le k ws cs j : chan_le (cs !! j) (foldl (send_to k) cs ws !! j).
Proof.
  revert cs. induction ws as [|w' ws IH]; intros cs; simpl; [reflexivity|].
  etrans; [apply send_to_le|apply IH].
Qed.

Lemma prefix_sends_le k (l : list (string * list nat)) cs j :
  chan_le (cs !! j)
    (foldl (λ cs '(p, ws), if String.prefix p k then foldl (send_to k) cs ws else cs) cs l !! j).
Proof.
  revert cs. induction l as [|[p ws] l IH]; intros cs; simpl; [reflexivity|].
  etrans; [|apply IH]. case_if; [apply sends_le|reflexivity].
Qed.

Lemma chan_le_ready c c' : chan_le c c' → chan_ready c → chan_ready c'.
Proof.
  destruct c as [c|], c' as [c'|]; try done. intros [_ (l & Hl)]. simpl. rewrite Hl.
  by destruct (chan_buf c).
Qed.

(** a send to a non-blocking channel of capacity 1 leaves it non-empty *)
Lemma sends_ready k ws cs buf :
  w ∈ ws → cs !! w = Some (mkChan 1 buf) → chan_ready (foldl (send_to k) cs ws !! w).
Proof.
  revert cs buf. induction ws as [|w' ws IH]; intros cs buf; simpl; [by intros ?%elem_of_nil|].
  intros Hw Hc. pose proof (send_to_lookup k cs w' w) as Hs.
  case_bool_decide as Heq; rewrite Hc in Hs; simpl in Hs.
  - eapply chan_le_ready; [apply sends_le|]. rewrite Hs. unfold try_send. simpl.
    destruct buf; case_bool_decide; simpl in *; done || lia.
  - apply elem_of_cons in Hw as [Hw|Hw]; [done|]. by eapply IH.
Qed.

Lemma notifyWatchers_chan k m j : chan_le (chans m !! j) (chans (notifyWatchers k m) !! j).
Proof. unfold notifyWatchers. simpl. etrans; [apply sends_le|apply prefix_sends_le]. Qed.

Lemma notifyWatchers_ready m buf :
  w ∈ default [] (watchers m !! key) → wchan m = Some (mkChan 1 buf) →
  chan_ready (wchan (notifyWatchers key m)).
Proof.
  intros Hw Hc. unfold wchan, notifyWatchers. simpl.
  eapply chan_le_ready; [apply prefix_sends_le|]. by eapply sends_ready.
Qed.

Lemma chan_le_cap c c' cap buf :
  chan_le c c' → c = Some (mkChan cap buf) → ∃ buf', c' = Some (mkChan cap buf').
Proof.
  intros Hle ->. destruct c' as [[cap' buf']|]; [|done]. destruct Hle as [Hc _].
  simpl in Hc. subst. eauto.
Qed.

(** *** The lists of watchers *)
Lemma remove_first_other w' ws : w' ≠ w → w ∈ ws → w ∈ remove_first w' ws.
Proof.
  intros Hne. induction ws as [|kw ws IH]; [done|]. simpl.
  rewrite elem_of_cons. case_bool_decide as Hk; [by intros [->|?]|].
  rewrite elem_of_cons. intros [?|?]; auto.
Qed.

Lemma removeWatcherChannel_other k w' (ws : gmap string (list nat)) :
  w' ≠ w → w ∈ default [] (ws !! key) →
  w ∈ default [] (removeWatcherChannel k w' ws !! key).
Proof.
  intros Hne Hw. unfold removeWatcherChannel. destruct (decide (k = key)) as [->|Hk].
  - pose proof (remove_first_other w' _ Hne Hw) as Hr.
    case_bool_decide as Hl; [by rewrite lookup_insert_eq|].
    destruct (remove_first w' _); [by apply elem_of_nil in Hr|simpl in Hl; lia].
  - case_bool_decide; by rewrite ?lookup_insert_ne, ?lookup_delete_ne.
Qed.

Lemma make_chan_other m cap c : wchan m = Some c → (make_chan m cap).1 !! w = Some c.
Proof.
  unfold wchan. intros Hc. unfold make_chan. simpl. rewrite lookup_insert_ne; [done|].
  intros Hf. apply (is_fresh (dom (chans m))). rewrite Hf. by apply elem_of_dom_2 in Hc.
Qed.

Lemma winv_step x y : wstep x y → winv x → winv y.
Proof.
  intros Hstep (Hw & (buf & Hc) & Hi); destruct Hstep as
    [m p r seen k v cas codec now nl s change ver Hm|m p r seen k v cas codec now nl s res Hm Hres
    |m p1 k p2 r seen|k m p r seen|k m p r seen|k w' m p r seen Hne|k w' m p r seen
    |w' m p r seen m' k Hne Hr|m p seen m' k Hr|m p seen]; unfold winv in *; simpl in *.
  - split; [done|]. split; [by exists buf|].
    destruct (decide (k = key)) as [->|Hk]; [set_solver|].
    pose proof (mergeValueForKey_outcome lit (store m) k v cas codec now nl) as Hcon.
    rewrite Hm in Hcon. destruct Hcon as (Ho & _).
    unfold version_of in *. rewrite Ho by done. set_solver.
  - split; [done|]. split; [by exists buf|].
    pose proof (mergeValueForKey_outcome lit (store m) k v cas codec now nl) as Hcon.
    rewrite Hm in Hcon. destruct Hcon as (Ho & _ & Hv).
    enough (version_of s key = version_of (store m) key) as -> by done.
    destruct (decide (key = k)) as [<-|Hk]; [|unfold version_of; by rewrite Ho].
    destruct res as [[[ch|] ver]|err]; [by destruct (Hres ch ver)|by destruct Hv|].
    by destruct err; try (by destruct Hv); subst s.
  - split; [done|]. pose proof (notifyWatchers_chan k m w) as Hle.
    split; [by eapply chan_le_cap|].
    destruct (decide (k = key)) as [->|Hk].
    + right; right; left. by eapply notifyWatchers_ready.
    + destruct Hi as [?|[?|[Hrdy|Hp]]]; [by left|by right; left| |].
      * right; right; left. by eapply chan_le_ready.
      * right; right; right. set_solver.
  - pose proof (make_chan_other m 1 _ Hc) as Hmc. unfold make_chan in *. simpl in *.
    split; [|split].
    + destruct (decide (k = key)) as [->|Hk]; [|by rewrite lookup_insert_ne].
      rewrite lookup_insert_eq. simpl. set_solver.
    + unfold wchan. simpl. eauto.
    + unfold wchan in *. simpl. by rewrite Hmc, <- Hc.
  - pose proof (make_chan_other m 16 _ Hc) as Hmc. unfold make_chan in *. simpl in *.
    split; [done|]. unfold wchan in *. simpl. rewrite Hmc. rewrite Hc in Hi. eauto.
  - split; [|by split; [exists buf|]]. by apply removeWatcherChannel_other.
  - split; [done|]. by split; [exists buf|].
  - unfold watch_recv in Hr. destruct (chans m !! w') as [[cap [|k0 b]]|] eqn:Hw'; [done| |done].
    injection Hr as <- <-. simpl. split; [done|]. unfold wchan in *. simpl.
    rewrite lookup_insert_ne by done. by split; [exists buf|].
  - unfold watch_recv, wchan in *. rewrite Hc in Hr. destruct buf as [|k0 b]; [done|].
    injection Hr as <- <-. simpl. split; [done|]. rewrite lookup_insert_eq. eauto.
  - split; [done|]. split; [by exists buf|]. by left.
Qed.

(** C13. No lost update: once [WatchKey] has registered its channel, however the
    other users of the store, the other watchers and the delayed
    [notifyWatchers] calls interleave with it, when the channel is drained, the
    goroutine idle and no notification still to be sent, the watcher has read
    the current version of its key. *)
Theorem WatchKey_no_lost_update m0 x :
  (WatchKey_register key m0).2 = w →
  rtc wstep (mkW (WatchKey_register key m0).1 [] false (version_of (store m0) key)) x →
  wchan (w_kv x) = Some (mkChan 1 []) → w_reading x = false → key ∉ w_pending x →
  w_seen x = version_of (store (w_kv x)) key.
Proof.
  intros Hreg Hsteps Hbuf Hr Hp.
  assert (winv x) as (_ & _ & Hi).
  { revert Hsteps. apply (rtc_ind_r winv).
    - unfold WatchKey_register, make_chan in *. simpl in *.
      split; [|split]; simpl.
      + rewrite lookup_insert_eq. simpl. set_solver.
      + exists []. unfold wchan. simpl. by rewrite Hreg, lookup_insert_eq.
      + by left.
    - intros y z _ Hstep Hy. by eapply winv_step. }
  rewrite Hbuf, Hr in Hi. simpl in Hi. naive_solver.
Qed.
End watch.

(** ** A run *)
#[local] Existing Instance map_range_std.

(** register, merge a ring, notify, receive, read *)
Lemma WatchKey_no_lost_update_witness :
  ∃ x, rtc (wstep (V:=Desc) (E:=model_error) 0 "ring" (WatchKey_register (V:=Desc) "ring" NewKV).2)
         (mkW (WatchKey_register "ring" NewKV).1 [] false 0) x ∧
       w_seen x = 1 ∧ w_seen x = version_of (store (w_kv x)) "ring".
Proof.
  set (w := (WatchKey_register (V:=Desc) "ring" NewKV).2).
  set (m0 := (WatchKey_register (V:=Desc) "ring" NewKV).1).
  set (s1 := (mergeValueForKey (V:=Desc) (E:=model_error) 0 (store m0) "ring" ex_ring1 0 "c" 0 0).1).
  set (m1 := set_store s1 m0). set (m2 := notifyWatchers "ring" m1).
  set (m3 := default m2 (fst <$> watch_recv w m2)).
  set (x := mkW m3 [] false (get (store m3) "ring").2).
  assert (rtc (wstep (V:=Desc) (E:=model_error) 0 "ring" w) (mkW m0 [] false 0) x) as Hrun.
  { eapply rtc_l; [apply (w_merge_change 0 "ring" w m0 [] false 0 "ring" ex_ring1 0 "c" 0 0 s1 ex_ring1 1);
      vm_compute; reflexivity|].
    eapply rtc_l; [apply (w_notify 0 "ring" w m1 [] "ring" [] false 0)|].
    eapply rtc_l; [apply (w_recv 0 "ring" w m2 [] 0 m3 "ring"); vm_compute; reflexivity|].
    eapply rtc_l; [apply (w_read 0 "ring" w m3 [] 0)|]. apply rtc_refl. }
  exists x. split; [exact Hrun|]. split; [vm_compute; reflexivity|].
  apply (WatchKey_no_lost_update (E:=model_error) 0 "ring" w NewKV x); [reflexivity|exact Hrun|..].
  - vm_compute. reflexivity.
  - reflexivity.
  - apply not_elem_of_nil.
Defined.
