(* ===== verification/GossipFacts.v ===== *)
(** * Gossip: framing, message history, invalidation, tombstones

    What the handlers of [MemberlistKV] guarantee. *)
From Stdlib Require Import ZArith Lia.
From stdpp Require Import base gmap strings list sorting fin_maps relations.
From S2P Require Import Prelude Model Merge MergeFacts MergeLaws Memberlist MemberlistKV MemberlistFacts RingValue.

(** ** Message history *)
Definition total_size (msgs : list message) : Z := foldr (λ m acc, msg_Size m + acc) 0 msgs.

Lemma total_size_app l1 l2 : total_size (l1 ++ l2) = total_size l1 + total_size l2.
Proof. induction l1 as [|m l1 IH]; simpl; [done|]. rewrite IH. lia. Qed.

Lemma drop_messages_spec msgs size limit :
  size = total_size msgs →
  ∃ dropped kept, msgs = dropped ++ kept ∧
    drop_messages msgs size limit = (kept, total_size kept) ∧
    (kept = [] ∨ total_size kept ≤ limit) ∧
    (∀ d1 d2, dropped = d1 ++ d2 → d2 ≠ [] → limit < total_size (d2 ++ kept)).
Proof.
  revert size. induction msgs as [|m msgs IH]; intros size ->; simpl.
  { exists [], []. split_and!; [done|done|by left|]. by intros [] []. }
  case_bool_decide as Hs.
  - destruct (IH (msg_Size m + total_size msgs - msg_Size m)) as (dr & ke & -> & -> & Hk & Hmin); [lia|].
    exists (m :: dr), ke. split_and!; [done|done|done|].
    intros [|x d1] d2 Heq Hne; simpl in Heq; [subst d2; exact Hs|].
    injection Heq as -> ->. by apply (Hmin d1).
  - exists [], (m :: msgs). split_and!; [done|done|right; simpl; lia|]. by intros [] [].
Qed.

(** The message buffer keeps its recorded size equal to the sizes of its
    messages and drops messages only from the front and only while the buffer is
    over the limit: what is kept is the new message at the end of a suffix of
    the old messages, within the limit unless empty, and no shorter prefix of
    the dropped ones would have been enough. *)
Theorem addMessageToBuffer_bounded msgs limit msg :
  ∃ dropped kept, msgs ++ [msg] = dropped ++ kept ∧
    addMessageToBuffer msgs (total_size msgs) limit msg = (kept, total_size kept) ∧
    (kept = [] ∨ total_size kept ≤ limit) ∧
    (∀ d1 d2, dropped = d1 ++ d2 → d2 ≠ [] → limit < total_size (d2 ++ kept)).
Proof.
  apply drop_messages_spec. rewrite total_size_app. simpl. lia.
Qed.

(** ** Invalidation of queued broadcasts *)
Lemma content_found_spec x l : content_found x l = true ↔ x ∈ l.
Proof.
  unfold content_found. rewrite existsb_exists. setoid_rewrite bool_decide_eq_true.
  setoid_rewrite <- list_elem_of_In. naive_solver.
Qed.

Lemma Invalidates_spec r oldb :
  Invalidates r (Some oldb) = true ↔
  rb_key r = rb_key oldb ∧ rb_content oldb ⊆ rb_content r ∧ rb_version oldb ≤ rb_version r.
Proof.
  unfold Invalidates. case_bool_decide as Hk; [naive_solver|].
  destruct (forallb _ _) eqn:Hf; simpl.
  - rewrite bool_decide_eq_true. rewrite forallb_forall in Hf.
    split; [|naive_solver]. intros Hv. split; [destruct (decide (rb_key r = rb_key oldb)); done|].
    split; [|done]. intros x Hx. apply content_found_spec, Hf. by apply list_elem_of_In.
  - split; [done|]. intros (_ & Hsub & _). exfalso. apply not_true_iff_false in Hf. apply Hf.
    rewrite forallb_forall. intros x Hx. apply content_found_spec, Hsub. by apply list_elem_of_In.
Qed.

(** A queued broadcast is invalidated exactly by a broadcast for the same
    key whose content covers its own and whose version is not older, and
    invalidation chains: what invalidates a broadcast also invalidates
    everything that broadcast does. *)
Theorem Invalidates_preorder r1 r2 r3 :
  (Invalidates r1 (Some r2) = true ↔
     rb_key r1 = rb_key r2 ∧ rb_content r2 ⊆ rb_content r1 ∧ rb_version r2 ≤ rb_version r1) ∧
  (Invalidates r1 (Some r2) && Invalidates r2 (Some r3) = true → Invalidates r1 (Some r3) = true) ∧
  Invalidates r1 (Some r1) = true ∧ Invalidates r1 None = false.
Proof.
  split; [apply Invalidates_spec|]. split; [|split; [|done]].
  - rewrite andb_true_iff, !Invalidates_spec. intros [(-> & H1 & ?) (-> & H2 & ?)].
    split; [done|]. split; [by transitivity (rb_content r2)|lia].
  - rewrite Invalidates_spec. split; [done|]. split; [done|lia].
Qed.

Definition ex_broadcast (content : list string) (version : Z) : ringBroadcast :=
  mkRingBroadcast "ring" content version [].
Lemma Invalidates_preorder_witness :
  Invalidates (ex_broadcast ["a"; "b"; "c"] 3) (Some (ex_broadcast ["b"] 1)) = true.
Proof.
  apply (proj1 (proj2 (Invalidates_preorder (ex_broadcast ["a"; "b"; "c"] 3) (ex_broadcast ["c"; "b"] 2)
    (ex_broadcast ["b"] 1)))). vm_compute. reflexivity.
Defined.

(** ** Tombstones *)
Lemma RemoveTombstones_filter `{R : MapRange} d limit :
  Ingesters (RemoveTombstones d limit).1
  = filter (λ kv, expired limit kv.2 = false) (Ingesters d).
Proof.
  apply map_eq. intros k. rewrite RemoveTombstones_lookup.
  destruct (Ingesters d !! k) as [i|] eqn:Hi.
  - destruct (expired limit i) eqn:He; symmetry.
    + apply map_lookup_filter_None. right. intros x Hx. naive_solver congruence.
    + apply map_lookup_filter_Some. done.
  - symmetry. apply map_lookup_filter_None. by left.
Qed.

Lemma map_to_list_filter_snd {V} (P : V → bool) (m : gmap string V) :
  (map_to_list (filter (λ kv, P kv.2 = false) m)).*2 ≡ₚ filter (λ v, P v = false) (map_to_list m).*2.
Proof.
  assert (∀ l : list (string * V), (filter (λ kv, P kv.2 = false) l).*2 = filter (λ v, P v = false) l.*2) as Hl.
  { induction l as [|[k v] l IH]; [done|]. rewrite fmap_cons, !filter_cons. cbn [fst snd].
    case_decide; [by rewrite fmap_cons, IH|done]. }
  rewrite <- Hl, map_filter_alt, map_to_list_to_map; [done|].
  eapply sublist_NoDup; [apply (NoDup_fst_map_to_list m)|]. apply fmap_sublist, sublist_filter.
Qed.

(** [RemoveTombstones] deletes exactly the LEFT entries older than the limit
    (all of them for the zero limit), leaves the other entries as they are, and
    returns the number of tombstones kept and deleted. *)
Theorem RemoveTombstones_exact `{R : MapRange} d limit :
  (∀ k i, Ingesters (RemoveTombstones d limit).1 !! k = Some i ↔
     Ingesters d !! k = Some i ∧
     ¬ (State i = LEFT ∧ (limit = zeroTime ∨ time_of_Unix (Timestamp i) < limit))) ∧
  (RemoveTombstones d limit).2
  = (Z.of_nat (length (filter (λ i, State i = LEFT)
       (map_to_list (Ingesters (RemoveTombstones d limit).1)).*2)),
     Z.of_nat (size (Ingesters d)) - Z.of_nat (size (Ingesters (RemoveTombstones d limit).1))).
Proof.
  split.
  - intros k i. rewrite RemoveTombstones_lookup. destruct (Ingesters d !! k) as [i'|]; [|naive_solver].
    unfold expired, time_IsZero, time_Before.
    repeat case_bool_decide; simpl; naive_solver.
  - rewrite RemoveTombstones_counts, RemoveTombstones_filter.
    rewrite <- !(length_map_to_list (M:=gmap string)), <- !(length_fmap snd (map_to_list _)), map_to_list_filter_snd.
    generalize ((map_to_list (Ingesters d)).*2). intros l.
    induction l as [|i l IH]; [done|]. injection IH as IH1 IH2. rewrite !filter_cons.
    destruct (expired limit i) eqn:He.
    + assert (State i = LEFT) as Hs by (unfold expired in He; reflect; done).
      rewrite (decide_False (P:=true = false)), (decide_True (P:=true = true)), decide_False by naive_solver.
      cbn [length]. f_equal; lia.
    + rewrite (decide_True (P:=false = false)), (decide_False (P:=false = true)) by done.
      rewrite filter_cons. destruct (decide (State i = LEFT)) as [Hs|Hs].
      * rewrite decide_True by done. cbn [length]. f_equal; lia.
      * rewrite decide_False by naive_solver. cbn [length]. f_equal; lia.
Qed.

(** ** A change that is not versioned *)
Definition ex_store (d : Desc) : gmap string (valueDesc Desc) :=
  <["ring" := mkValueDesc (Some d) 7 "ringDesc"]> ∅.
Definition ex_stale_ring : Desc :=
  ex_ring [("a", ex_instance "addr-a" 10 ACTIVE [1; 2]); ("b", ex_instance "addr-b" 10 ACTIVE [3])].
(** a late message: [a] has left *)
Definition ex_left_msg : Desc := ex_ring [("a", ex_instance "addr-a" 20 LEFT [])].
(** the heartbeat of [b], as a [CAS] function *)
Definition ex_heartbeat (v : option Desc) (n : nat) : nat * (cas_out Desc * bool * option string) :=
  let d := default NewDesc v in
  let d := mkDesc (<["b" := set_Timestamp 1000 (ingester d "b")]> (Ingesters d)) in
  (S n, (OutValue d, true, None)).

(** A tombstone already past the timeout changes the stored value without a
    new version: [mergeValueForKey] drops the entry in place and reports no
    change, so nothing is notified.  A compare-and-swap that read the value
    before is not stopped by the version check, and brings the entry back. *)
Theorem mergeValueForKey_silent_update :
  let '(m', r) := mergeValueForKey (V:=Desc) (E:=model_error)
      (MergeableOps0:=ring_MergeableOps (H:=map_range_std))
      (300 * Second) (ex_store ex_stale_ring) "ring" ex_left_msg 0 "ringDesc" (1000 * Second) (1000 * Second) in
  r = Ok (None, 0) ∧ version_of m' "ring" = version_of (ex_store ex_stale_ring) "ring" ∧
  (get (MergeableOps0:=ring_MergeableOps (H:=map_range_std)) m' "ring").1
    = Some (ex_ring [("b", ex_instance "addr-b" 10 ACTIVE [3])]) ∧
  let '(m'', calls, r) := CAS_store (V:=Desc) (E:=model_error)
      (MergeableOps0:=ring_MergeableOps (H:=map_range_std)) ex_heartbeat (300 * Second)
      (λ _, mkCasEnv (λ _, m') false (1000 * Second) (1000 * Second))
      (ex_store ex_stale_ring) 0%nat "ring" "ringDesc" in
  calls = 1%nat ∧ is_Ok r = true ∧
  (λ d, Ingesters d !! "a") <$> Get (MergeableOps0:=ring_MergeableOps (H:=map_range_std)) m'' "ring"
    = Some (Some (ex_instance "addr-a" 10 ACTIVE [1; 2])).
Proof. vm_compute. split_and!; reflexivity. Qed.

(** ** The first write of a key

    Two writers start at once: [f] is told that there is no ring and
    returns one with its own instance; meanwhile another [CAS] has succeeded on the
    same store.  Both succeed, although [f] is never called with the value the other
    has written: the two rings are merged. *)
Definition ex_first_write (v : option Desc) (n : nat) : nat * (cas_out Desc * bool * option string) :=
  (S n, match v with
        | None => (OutValue (ex_ring [("b", ex_instance "addr-b" 10 ACTIVE [3])]), true, None)
        | Some _ => (OutNil, false, None)
        end).
Lemma first_write_race :
  let other := mkCasEnv (λ _, ex_store (ex_ring [("a", ex_instance "addr-a" 10 ACTIVE [1; 2])])) false (1000 * Second) (1000 * Second) in
  let '(m', calls, r) := CAS_store (V:=Desc) (E:=model_error) (MergeableOps0:=ring_MergeableOps (H:=map_range_std))
      ex_first_write 0 (λ _, other) ∅ 0%nat "ring" "ringDesc" in
  calls = 1%nat ∧ is_Ok r = true ∧
  (get (MergeableOps0:=ring_MergeableOps (H:=map_range_std)) m' "ring").1
    = Some (ex_ring [("a", ex_instance "addr-a" 10 ACTIVE [1; 2]); ("b", ex_instance "addr-b" 10 ACTIVE [3])]).
Proof. vm_compute. split_and!; reflexivity. Qed.

(** ** Witnesses for the compare-and-swap and the watchers *)
#[local] Existing Instance map_range_std.
Definition ex_quiet : nat → cas_env (V:=Desc) :=
  λ _, mkCasEnv (λ m, m) false (1000 * Second) (1000 * Second).
(** a function that never wants a change it can make *)
Definition ex_refuse (v : option Desc) (n : nat) : nat * (cas_out Desc * bool * option string) :=
  (S n, (OutInvalid "int", true, None)).

Lemma CAS_success_witness :
  ∃ m' change i m1 s1 v retry v',
    CAS_store ex_heartbeat 0 ex_quiet (ex_store ex_stale_ring) 0%nat "ring" "ringDesc"
    = (m', 1%nat, Ok (Some (change, 8))) ∧
    (0 < i ≤ maxCasRetries)%nat ∧ ex_heartbeat (get m1 "ring").1 s1 = (1%nat, (OutValue v, retry, None)) ∧
    m' = <["ring" := mkValueDesc (Some v') 8 "ringDesc"]> m1.
Proof.
  destruct (CAS_store ex_heartbeat 0 ex_quiet (ex_store ex_stale_ring) 0%nat "ring" "ringDesc") as [[m' n] r] eqn:Hc.
  assert (n = 1%nat ∧ ∃ change, r = Ok (Some (change, 8))) as [-> [change ->]]
    by (vm_compute in Hc; injection Hc as _ <- <-; split; [|eexists]; reflexivity).
  destruct (CAS_success ex_heartbeat 0 ex_quiet (ex_store ex_stale_ring) 0%nat "ring" "ringDesc"
    m' 1%nat change 8 Hc) as (i & m1 & s1 & v & retry & Hi & Hf & _ & res & change0 & _ & _ & Hm).
  exists m', change, i, m1, s1, v, retry. eexists. split; [reflexivity|]. split; [exact Hi|]. split; [exact Hf|exact Hm].
Defined.

Lemma CAS_failure_witness :
  ∃ m' e,
    CAS_store ex_refuse 0 ex_quiet (ex_store ex_stale_ring) 0%nat "ring" "ringDesc"
    = (m', 10%nat, Err e) ∧
    same_versions (ex_store ex_stale_ring) m' "ring" ∧ last_error e = Some (errInvalidType "int").
Proof.
  exists (ex_store ex_stale_ring), (errCasFailed "ring" (Some (errInvalidType "int"))).
  assert (CAS_store ex_refuse 0 ex_quiet (ex_store ex_stale_ring) 0%nat "ring" "ringDesc"
    = (ex_store ex_stale_ring, 10%nat, Err (errCasFailed "ring" (Some (errInvalidType "int"))))) as Hc
    by (vm_compute; reflexivity).
  split; [exact Hc|].
  destruct (CAS_failure ex_refuse 0 ex_quiet (ex_store ex_stale_ring) 0%nat "ring" "ringDesc" _ _ _
    (λ _ _, eq_refl) (conj (Z.lt_le_incl 0 7 eq_refl) eq_refl) Hc) as [Hs _].
  by split.
Defined.
