(* ===== verification/PushPull.v ===== *)
(** * Push/pull: a node's full state, framed and merged by another node

    [LocalState] writes, [MergeRemoteState] reads: [memberlist_client.go]. *)
From Stdlib Require Import ZArith Lia Ascii String.
From stdpp Require Import base gmap strings list sorting fin_maps relations.
From S2P Require Import Prelude Model MergeLaws Memberlist MemberlistKV MemberlistFacts RingValue.

(** ** The length prefix *)
Lemma land_255_testbit n k : 0 <= k → Z.testbit (Z.land n 255) k = Z.testbit n k && bool_decide (k < 8).
Proof.
  intros Hk. change 255 with (Z.ones 8). rewrite Z.land_spec. f_equal.
  case_bool_decide as H; [by rewrite Z.ones_spec_low by lia|by rewrite Z.ones_spec_high by lia].
Qed.

Lemma byte_testbit n s k :
  0 <= s → 0 <= k → Z.testbit (Z.land (Z.shiftr n s) 255) k = Z.testbit n (k + s) && bool_decide (k < 8).
Proof. intros Hs Hk. rewrite land_255_testbit by done. by rewrite Z.shiftr_spec. Qed.

Lemma shifted_byte_testbit n s k :
  0 <= s → 0 <= k →
  Z.testbit (Z.shiftl (Z.land (Z.shiftr n s) 255) s) k
  = Z.testbit n k && bool_decide (s <= k < s + 8).
Proof.
  intros Hs Hk. rewrite Z.shiftl_spec by done.
  destruct (decide (s <= k)).
  - rewrite byte_testbit by lia. replace (k - s + s) with k by lia. f_equal.
    apply bool_decide_ext. lia.
  - rewrite Z.testbit_neg_r by lia. rewrite bool_decide_eq_false_2 by lia. by rewrite andb_false_r.
Qed.

Lemma BigEndian_roundtrip n rest :
  0 <= n < 2 ^ 32 → BigEndian_Uint32 (BigEndian_PutUint32 n ++ rest) = n.
Proof.
  intros Hn. simpl. apply Z.bits_inj'. intros k Hk. rewrite !Z.lor_spec.
  rewrite !shifted_byte_testbit, land_255_testbit by lia.
  destruct (decide (k < 32)) as [Hlt|Hge].
  - destruct (Z.testbit n k); [|done]. simpl.
    repeat case_bool_decide; try done. lia.
  - replace n with (n mod 2 ^ 32) by (apply Z.mod_small; lia).
    rewrite Z.mod_pow2_bits_high by lia. done.
Qed.

Section pushpull.
Context {V E : Type} `{!MergeableOps V E} `{!KVPairMarshal} `{!MapRange}.
Context (cfg : KVConfig V).
Implicit Types m : KV V.

(** what [LocalState] sends of an entry *)
Definition sent_pair (e : string * valueDesc V) : option (KeyValuePair * list Z) :=
  match value e.2, GetCodec cfg (codecID e.2) with
  | Some v, Some c =>
      match Encode c v with
      | Ok encoded =>
          let kvPair := mkKeyValuePair e.1 encoded (codecID e.2) in
          match kv_Marshal kvPair with
          | Ok ser => if bool_decide (MaxUint32 < Z.of_nat (length ser)) then None else Some (kvPair, ser)
          | Err _ => None
          end
      | Err _ => None
      end
  | _, _ => None
  end.
Definition sent_pairs m : list (KeyValuePair * list Z) := omap sent_pair (map_range 1031 (store m)).

Definition frame (ser : list Z) : list Z := BigEndian_PutUint32 (u32 (Z.of_nat (length ser))) ++ ser.

Lemma frame_length ser : length (frame ser) = (4 + length ser)%nat.
Proof. done. Qed.

Lemma LocalState_buffer sent m : (LocalState cfg sent m).2 = concat (frame <$> (sent_pairs m).*2).
Proof.
  unfold LocalState, sent_pairs. generalize (map_range 1031 (store m)). intros l.
  assert (∀ acc, (foldl (LocalState_step cfg sent) acc l).2
                 = acc.2 ++ concat (frame <$> (omap sent_pair l).*2)) as Hl.
  { induction l as [|[key val] l IH]; intros [m0 buf]; simpl; [by rewrite app_nil_r|].
    rewrite IH. clear IH. unfold sent_pair at 2. cbn [fst snd].
    destruct (value val) as [v|]; [|done]. destruct (GetCodec cfg (codecID val)) as [c|]; [|done].
    destruct (Encode c v) as [enc|]; [|done].
    destruct (kv_Marshal _) as [ser|]; [|done]. case_bool_decide; [done|].
    simpl. by rewrite <- !app_assoc. }
  apply (Hl (m, [])).
Qed.

(** what [MergeRemoteState] does with a pair it has read *)
Definition handle_pair (clk : clocks) m (p : KeyValuePair * list Z) : KV V :=
  match GetCodec cfg (Codec p.1) with
  | None => m
  | Some c => receive_pair cfg p.1 (Z.of_nat (length p.2)) c clk m
  end.

Definition framed (p : KeyValuePair * list Z) : Prop :=
  kv_Unmarshal p.2 = Ok p.1 ∧ Z.of_nat (length p.2) ≤ MaxUint32.

Lemma MergeRemoteState_step fuel clk p rest m :
  framed p →
  MergeRemoteState_loop cfg (S fuel) clk (frame p.2 ++ rest) m
  = MergeRemoteState_loop cfg fuel clk rest
      (handle_pair (clk (length (frame p.2 ++ rest))) m p).
Proof.
  destruct p as [kp ser]. intros [Hu Hl]. cbn [fst snd] in *. unfold handle_pair. cbn [fst snd].
  cbn [MergeRemoteState_loop].
  assert (BigEndian_Uint32 (frame ser ++ rest) = Z.of_nat (length ser)) as ->.
  { unfold frame. rewrite <- app_assoc, BigEndian_roundtrip.
    - unfold u32, MaxUint32 in *. rewrite Z.mod_small; lia.
    - apply Z.mod_pos_bound. lia. }
  assert (drop 4 (frame ser ++ rest) = ser ++ rest) as -> by done.
  rewrite bool_decide_eq_false_2 by done.
  rewrite bool_decide_eq_false_2 by (rewrite length_app, frame_length; lia).
  rewrite bool_decide_eq_false_2 by (rewrite length_app; lia).
  rewrite Nat2Z.id, take_app_length, Hu, drop_app_length. done.
Qed.

Lemma MergeRemoteState_frames clk ps m :
  Forall framed ps →
  MergeRemoteState cfg (concat (frame <$> ps.*2)) (λ _, clk) m = foldl (handle_pair clk) m ps.
Proof.
  intros Hps. unfold MergeRemoteState.
  enough (∀ fuel, (length ps ≤ fuel)%nat →
    MergeRemoteState_loop cfg fuel (λ _, clk) (concat (frame <$> ps.*2)) m = foldl (handle_pair clk) m ps) as Hf.
  { apply Hf. clear. induction ps as [|[kp ser] ps IH]; [simpl; lia|].
    rewrite !fmap_cons. cbn [concat]. rewrite length_app, frame_length. simpl. lia. }
  revert m. induction Hps as [|p ps Hp Hps IH]; intros m fuel Hl.
  - by destruct fuel.
  - destruct fuel as [|fuel]; [simpl in Hl; lia|]. rewrite fmap_cons, fmap_cons. cbn [concat].
    rewrite MergeRemoteState_step by done. simpl. apply IH. simpl in Hl. lia.
Qed.

(** the contract of the generated encoding: [Unmarshal] inverts [Marshal] *)
Definition marshal_inverts : Prop :=
  ∀ kp ser, kv_Marshal kp = Ok ser → kv_Unmarshal ser = Ok kp.

Lemma sent_pairs_framed m : marshal_inverts → Forall framed (sent_pairs m).
Proof.
  intros Hinv. unfold sent_pairs. rewrite Forall_forall. intros p Hp.
  apply list_elem_of_omap in Hp as ([key val] & _ & Hs). unfold sent_pair in Hs. cbn [fst snd] in Hs.
  destruct (value val) as [v|]; [|done]. destruct (GetCodec cfg (codecID val)) as [c|]; [|done].
  destruct (Encode c v) as [enc|]; [|done].
  destruct (kv_Marshal _) as [ser|] eqn:Hm; [|done]. case_bool_decide as Hl; [done|].
  injection Hs as <-. split; [by apply Hinv|]. simpl. lia.
Qed.

(** *** A node that has nothing yet *)
Lemma store_addReceivedMessage msg m : store (addReceivedMessage cfg msg m) = store m.
Proof. unfold addReceivedMessage. case_bool_decide; [done|]. by destruct (addMessageToBuffer _ _ _ _). Qed.
Lemma store_addSentMessage msg m : store (addSentMessage cfg msg m) = store m.
Proof. unfold addSentMessage. case_bool_decide; [done|]. by destruct (addMessageToBuffer _ _ _ _). Qed.
Lemma store_broadcastNewValue key ch ver c now m :
  store (broadcastNewValue cfg key ch ver c now m) = store m.
Proof.
  unfold broadcastNewValue. destruct (Encode c ch); [|done]. destruct (kv_Marshal _); [|done].
  apply store_addSentMessage.
Qed.

Lemma store_receive_pair kp size c clk m :
  store (receive_pair cfg kp size c clk m) = store (mergeBytesValueForKey cfg (Key kp) (Value kp) c clk m).1.
Proof.
  unfold receive_pair. destruct (mergeBytesValueForKey _ _ _ _ _ _) as [m' [[[ch|] ver]|e]]; simpl;
    try apply store_addReceivedMessage.
  case_bool_decide; [rewrite store_broadcastNewValue|]; apply store_addReceivedMessage.
Qed.

(** the codecs decode what they encode, and are registered under their own name *)
Definition codecs_invert : Prop :=
  ∀ id c, GetCodec cfg id = Some c →
    CodecID c = id ∧ ∀ v b, Encode c v = Ok b → Decode c b = Ok (inl v).

Lemma sent_pair_Some key val p :
  sent_pair (key, val) = Some p →
  ∃ v c, value val = Some v ∧ GetCodec cfg (codecID val) = Some c ∧ Encode c v = Ok (Value p.1) ∧
    Key p.1 = key ∧ Codec p.1 = codecID val.
Proof.
  unfold sent_pair. cbn [fst snd]. intros Hs.
  destruct (value val) as [v|]; [|done]. destruct (GetCodec cfg (codecID val)) as [c|] eqn:Hc; [|done].
  destruct (Encode c v) as [enc|] eqn:He; [|done].
  destruct (kv_Marshal _) as [ser|]; [|done]. case_bool_decide; [done|]. injection Hs as <-. eauto 10.
Qed.

Lemma handle_pair_fresh clk key val p m :
  codecs_invert → LeftIngestersTimeout cfg ≤ 0 → sent_pair (key, val) = Some p →
  (∀ v, value val = Some v → mg_MergeContent v ≠ []) → store m !! key = None →
  store (handle_pair clk m p) = <[key := mkValueDesc (value val) 1 (codecID val)]> (store m).
Proof.
  intros Hcod Hlit (v & c & Hv & Hc & He & Hk & Hid)%sent_pair_Some Hne Hm.
  unfold handle_pair. rewrite Hid, Hc, store_receive_pair. unfold mergeBytesValueForKey.
  destruct (Hcod _ _ Hc) as [Hcid Hdec]. rewrite (Hdec _ _ He), Hk, Hcid.
  unfold mergeValueForKey. rewrite Hm. cbv zeta. simpl. unfold store_in_place. rewrite Hm.
  rewrite bool_decide_eq_false_2 by (intros Hl; apply (Hne v); [done|]; by apply length_zero_iff_nil).
  rewrite (bool_decide_eq_false_2 (0 < LeftIngestersTimeout cfg)) by lia. simpl. by rewrite Hm, Hv.
Qed.

Lemma handle_pair_other clk key val p m j :
  sent_pair (key, val) = Some p → j ≠ key → store (handle_pair clk m p) !! j = store m !! j.
Proof.
  intros (v & c & _ & Hc & _ & Hk & Hid)%sent_pair_Some Hj.
  unfold handle_pair. rewrite Hid, Hc, store_receive_pair. unfold mergeBytesValueForKey.
  destruct (Decode _ _) as [[v'|]|]; [|done..]. rewrite Hk.
  destruct (mergeValueForKey _ _ _ _ _ _ _ _) as [s r] eqn:Hs. simpl.
  by apply mergeValueForKey_cases in Hs
    as [(_ & -> & _)|(_ & _ & [(? & ? & _ & _ & _ & Ho)|[_ (Ho & _)]])]; auto.
Qed.

Lemma handle_pairs_fresh clk (l : list (string * valueDesc V)) m key :
  codecs_invert → LeftIngestersTimeout cfg ≤ 0 → NoDup l.*1 →
  (∀ k d v, (k, d) ∈ l → value d = Some v → mg_MergeContent v ≠ []) →
  (∀ k, k ∈ l.*1 → store m !! k = None) →
  store (foldl (handle_pair clk) m (omap sent_pair l)) !! key
  = match (list_to_map l : gmap string (valueDesc V)) !! key with
    | Some val => (λ _, mkValueDesc (value val) 1 (codecID val)) <$> sent_pair (key, val)
    | None => store m !! key
    end.
Proof.
  intros Hcod Hlit. revert m. induction l as [|[k0 d0] l IH]; intros m Hnd Hne Hfresh; [done|].
  inversion_clear Hnd as [|? ? Hni Hnd']. simpl in Hni.
  assert (∀ k, k ∈ l.*1 → k ≠ k0) as Hk0 by (intros k Hk ->; done).
  cbn [omap list_omap list_to_map foldr fst snd uncurry].
  assert (∀ k d v, (k, d) ∈ l → value d = Some v → mg_MergeContent v ≠ []) as Hne'
    by (intros k d v Hin; apply Hne with k; by apply elem_of_cons; right).
  destruct (sent_pair (k0, d0)) as [p|] eqn:Hs; cbn [foldl].
  - assert (store m !! k0 = None) as Hm0 by (apply Hfresh; set_solver).
    assert (∀ v, value d0 = Some v → mg_MergeContent v ≠ []) as Hv0
      by (intros v; apply Hne with k0; apply elem_of_cons; by left).
    rewrite IH; [| done | done |].
    + rewrite (handle_pair_fresh clk k0 d0 p m) by done. destruct (decide (key = k0)) as [->|Hne0].
      * rewrite not_elem_of_list_to_map_1 by done. rewrite !lookup_insert_eq. by rewrite Hs.
      * by rewrite !lookup_insert_ne by done.
    + intros k Hk. rewrite (handle_pair_other clk k0 d0) by auto. apply Hfresh. set_solver.
  - rewrite IH; [|done|done|intros k Hk; apply Hfresh; set_solver].
    destruct (decide (key = k0)) as [->|Hne0]; [|by rewrite lookup_insert_ne].
    rewrite not_elem_of_list_to_map_1, lookup_insert_eq, Hs by done. simpl. apply Hfresh. set_solver.
Qed.

(** C14. Push/pull round trip: merging the state another node dumped with
    [LocalState] handles exactly the pairs of that node that could be encoded,
    one by one in the order they were written, whatever their sizes; the loop
    reads to the end of the data. *)
Theorem push_pull_roundtrip sent clk m1 m2 :
  marshal_inverts →
  MergeRemoteState cfg (LocalState cfg sent m1).2 (λ _, clk) m2
  = foldl (handle_pair clk) m2 (sent_pairs m1).
Proof.
  intros Hinv. rewrite LocalState_buffer. by apply MergeRemoteState_frames, sent_pairs_framed.
Qed.
(** Bootstrap: a node that has nothing and merges the state dumped by another
    ends with exactly the values that node could encode, each under version 1
    and the same codec, and nothing else. *)
Theorem push_pull_bootstrap sent clk m1 :
  marshal_inverts → codecs_invert → LeftIngestersTimeout cfg ≤ 0 →
  (∀ k d v, store m1 !! k = Some d → value d = Some v → mg_MergeContent v ≠ []) →
  ∀ key, store (MergeRemoteState cfg (LocalState cfg sent m1).2 (λ _, clk) NewKV) !! key
    = store m1 !! key ≫= λ val,
        (λ _, mkValueDesc (value val) 1 (codecID val)) <$> sent_pair (key, val).
Proof.
  intros Hinv Hcod Hlit Hne key.
  rewrite LocalState_buffer, MergeRemoteState_frames by by apply sent_pairs_framed.
  unfold sent_pairs. rewrite handle_pairs_fresh; [|done|done| | |done].
  - rewrite map_range_to_map. by destruct (store m1 !! key).
  - apply map_range_NoDup_fst.
  - intros k d v Hin%map_range_elem. by apply Hne with k.
Qed.
End pushpull.

(** ** A concrete encoding, for the witnesses *)
#[local] Existing Instance map_range_std.
Definition bytes_of_string (s : string) : list Z :=
  (Z.of_nat ∘ nat_of_ascii) <$> list_ascii_of_string s.
Definition string_of_bytes (b : list Z) : string :=
  string_of_list_ascii ((ascii_of_nat ∘ Z.to_nat) <$> b).

Lemma string_of_bytes_of_string s : string_of_bytes (bytes_of_string s) = s.
Proof.
  unfold string_of_bytes, bytes_of_string. rewrite <- list_fmap_compose.
  rewrite (list_fmap_ext _ id), list_fmap_id; [apply string_of_list_ascii_of_string|].
  intros _ a _. simpl. rewrite Nat2Z.id. apply ascii_nat_embedding.
Qed.

(** a length before each string, the value at the end *)
Definition ex_put_string (s : string) : list Z :=
  Z.of_nat (length (bytes_of_string s)) :: bytes_of_string s.
Definition ex_take_string (b : list Z) : option (string * list Z) :=
  match b with
  | [] => None
  | n :: b => Some (string_of_bytes (take (Z.to_nat n) b), drop (Z.to_nat n) b)
  end.
#[local] Instance ex_marshal : KVPairMarshal := {|
  kv_Marshal kp := Ok (ex_put_string (Key kp) ++ ex_put_string (Codec kp) ++ Value kp);
  kv_Unmarshal b :=
    match ex_take_string b with
    | Some (key, b) =>
        match ex_take_string b with
        | Some (c, v) => Ok (mkKeyValuePair key v c)
        | None => Err "unexpected end of message"
        end
    | None => Err "unexpected end of message"
    end
|}.

Lemma ex_take_put s rest : ex_take_string (ex_put_string s ++ rest) = Some (s, rest).
Proof.
  unfold ex_put_string, ex_take_string. simpl.
  by rewrite Nat2Z.id, take_app_length, drop_app_length, string_of_bytes_of_string.
Qed.

Lemma ex_marshal_inverts : marshal_inverts.
Proof. intros [k v c] ser Hm.
  assert (ser = ex_put_string k ++ ex_put_string c ++ v) as -> by (by injection Hm).
  cbn [kv_Unmarshal ex_marshal Key Codec Value].
  by rewrite !ex_take_put. Qed.

#[local] Instance Desc_eq_dec : EqDecision Desc.
Proof. solve_decision. Defined.

(** a codec that knows two rings *)
Definition ex_codec : codec Desc := mkCodec
  (λ d, if bool_decide (d = ex_ring1) then Ok [1] else if bool_decide (d = ex_ring2) then Ok [2]
        else Err "unknown value")
  (λ b, match b with [1] => Ok (inl ex_ring1) | [2] => Ok (inl ex_ring2) | _ => Err "invalid" end)
  "ringDesc".
Definition ex_cfg : KVConfig Desc := mkKVConfig 0 100 {["ringDesc" := ex_codec]}.
Definition ex_kv : KV Desc :=
  set_store {["a" := mkValueDesc (Some ex_ring1) 3 "ringDesc"; "b" := mkValueDesc (Some ex_ring2) 9 "ringDesc";
              "c" := mkValueDesc (Some NewDesc) 1 "ringDesc"; "d" := mkValueDesc (Some ex_ring1) 1 "other"]} NewKV.

Lemma ex_codecs_invert : codecs_invert ex_cfg.
Proof.
  intros id c. unfold GetCodec, ex_cfg. simpl. rewrite lookup_singleton_Some. intros [<- <-].
  split; [done|]. intros v b. simpl. repeat case_bool_decide; intros [=]; subst; done.
Qed.

Lemma ex_kv_content k d v :
  store ex_kv !! k = Some d → value d = Some v → k ≠ "c" → mg_MergeContent v ≠ [].
Proof.
  unfold ex_kv. simpl. rewrite !lookup_insert_Some, lookup_singleton_Some.
  intros [[<- <-]|[_ [[<- <-]|[_ [[<- <-]|[_ [<- <-]]]]]]] [= <-] Hk;
    first [by destruct (Hk eq_refl) | vm_compute; discriminate].
Qed.

Lemma push_pull_roundtrip_witness :
  marshal_inverts ∧
  MergeRemoteState ex_cfg (LocalState ex_cfg 0 ex_kv).2 (λ _, mkClocks 0 0 0) NewKV
  = foldl (handle_pair ex_cfg (mkClocks 0 0 0)) NewKV (sent_pairs ex_cfg ex_kv) ∧
  length (sent_pairs ex_cfg ex_kv) = 2%nat.
Proof.
  split; [exact ex_marshal_inverts|]. split; [|vm_compute; reflexivity].
  exact (push_pull_roundtrip ex_cfg 0 (mkClocks 0 0 0) ex_kv NewKV ex_marshal_inverts).
Defined.

Definition ex_kv_full : KV Desc := set_store (delete "c" (store ex_kv)) ex_kv.

Lemma ex_kv_full_content k d v :
  store ex_kv_full !! k = Some d → value d = Some v → mg_MergeContent v ≠ [].
Proof.
  unfold ex_kv_full. cbn [store set_store]. rewrite lookup_delete_Some. intros [Hk Hd] Hv.
  by apply (ex_kv_content k d).
Qed.

Lemma push_pull_bootstrap_witness :
  store (MergeRemoteState ex_cfg (LocalState ex_cfg 0 ex_kv_full).2 (λ _, mkClocks 0 0 0) NewKV) !! "b"
    = Some (mkValueDesc (Some ex_ring2) 1 "ringDesc") ∧
  store (MergeRemoteState ex_cfg (LocalState ex_cfg 0 ex_kv_full).2 (λ _, mkClocks 0 0 0) NewKV) !! "d"
    = None.
Proof.
  pose proof (push_pull_bootstrap ex_cfg 0 (mkClocks 0 0 0) ex_kv_full ex_marshal_inverts
    (ex_codecs_invert) (Z.le_refl 0) ex_kv_full_content) as H.
  split; rewrite H; vm_compute; reflexivity.
Defined.
