(* ===== verification/Ring.v ===== *)
(** * The ring client: [ring/ring.go], [ring/replication_strategy.go], [ring/shard/shard.go]

    The [Ring] a client keeps of the instances, fed by [updateRingState], and
    its queries: [Get], [GetAllHealthy], [GetReplicationSetForOperation],
    [countTokens], the shuffle-sharded subrings and their cache; with
    [searchToken] and [getZones] of [util.go].

    The clock is an argument.  The pseudo-random generator and the MD5 digest
    are those of a class, the only use of them being that the stream drawn from
    a seed is a function of the seed.  The locks make each method one step; the
    two methods that release the lock half way ([ShuffleShard] and its cache)
    are split at that point. *)
From Stdlib Require Import ZArith Lia Ascii String.
From stdpp Require Import base gmap strings list sorting fin_maps relations.
From S2P Require Import Prelude Model.

(** [crypto/md5] and [math/rand]: the digest of some bytes, and the [n]th
    [Uint32] of the generator with a given seed *)
Class RandSource := {
  md5_Sum : list Z → list Z;
  rand_Uint32 : Z → nat → Z
}.

Inductive ring_error :=
| ErrEmptyRing
| ErrInstanceNotFound
| ErrTooManyUnhealthyInstances
| ErrInconsistentTokensInfo
| ErrLiveReplicas (acrossZones : bool) (minSuccess found : Z) (unhealthy : list string)
| ErrNoHealthyReplica (unhealthy : list string).

Record ReplicationSet := mkReplicationSet {
  Instances : list InstanceDesc;
  MaxErrors : Z;
  MaxUnavailableZones : Z
}.

(** ** [searchToken], [getZones] ([util.go]) *)
Definition searchToken (tokens : list Z) (key : Z) : nat :=
  let i := sort_Search (length tokens) (λ x, bool_decide (key < default 0 (tokens !! x))) in
  if bool_decide (length tokens ≤ i)%nat then 0%nat else i.

Definition getZones `{MapRange} (tokens : gmap string (list Z)) : list string :=
  sort_Strings (foldl (λ zones '(zone, _), zones ++ [zone]) [] (map_range 156 tokens)).

(** [util.StringsContain] *)
Fixpoint StringsContain (values : list string) (search : string) : bool :=
  match values with
  | [] => false
  | v :: values => if bool_decide (search = v) then true else StringsContain values search
  end.

(** ** [ReplicationStrategy] *)
Definition ReplicationStrategy : Type :=
  list InstanceDesc → Operation → Z → Z → bool → Z → result ring_error (list InstanceDesc * Z).

(** the loop removing the unhealthy instances in place, collecting their addresses *)
Fixpoint filter_healthy (instances : list InstanceDesc) (op : Operation) (heartbeatTimeout now : Z)
    : list InstanceDesc * list string :=
  match instances with
  | [] => ([], [])
  | i :: instances =>
      let '(healthy, unhealthy) := filter_healthy instances op heartbeatTimeout now in
      if IsHealthy i op heartbeatTimeout now then (i :: healthy, unhealthy)
      else (healthy, Addr i :: unhealthy)
  end.

Definition defaultReplicationStrategy_Filter : ReplicationStrategy :=
  λ instances op replicationFactor heartbeatTimeout zoneAwarenessEnabled now,
    let replicationFactor :=
      if bool_decide (replicationFactor < Z.of_nat (length instances))
      then Z.of_nat (length instances) else replicationFactor in
    let minSuccess := Z.quot replicationFactor 2 + 1 in
    let '(instances, unhealthy) := filter_healthy instances op heartbeatTimeout now in
    if bool_decide (Z.of_nat (length instances) < minSuccess)
    then Err (ErrLiveReplicas zoneAwarenessEnabled minSuccess (Z.of_nat (length instances)) unhealthy)
    else Ok (instances, Z.of_nat (length instances) - minSuccess).

Definition ignoreUnhealthyInstancesReplicationStrategy_Filter : ReplicationStrategy :=
  λ instances op _ heartbeatTimeout _ now,
    let '(instances, unhealthy) := filter_healthy instances op heartbeatTimeout now in
    if bool_decide (length instances = 0%nat) then Err (ErrNoHealthyReplica unhealthy)
    else Ok (instances, Z.of_nat (length instances) - 1).

(** ** The ring *)
Record Config := mkConfig {
  HeartbeatTimeout : Z;
  ReplicationFactor : Z;
  ZoneAwarenessEnabled : bool;
  ExcludedZones : list string;
  SubringCacheDisabled : bool
}.

(** the gauges set by [updateRingMetrics]; the ownership gauge holds the
    numerator of the fraction of the token space *)
Record gauges := mkGauges {
  memberOwnershipGaugeVec : gmap string Z;
  numMembersGaugeVec : gmap string Z;
  totalTokensGauge : Z;
  numTokensGaugeVec : gmap string Z;
  oldestTimestampGaugeVec : gmap string Z
}.

(** [Ring] without the cache, which subrings do not have *)
Record subring := mkSubring {
  cfg : Config;
  strategy : ReplicationStrategy;
  ringDesc : Desc;
  ringTokens : list Z;
  ringTokensByZone : gmap string (list Z);
  ringInstanceByToken : gmap Z instanceInfo;
  lastTopologyChange : Z;
  ringZones : list string
}.
Definition set_ringDesc (d : Desc) (r : subring) : subring :=
  mkSubring (cfg r) (strategy r) d (ringTokens r) (ringTokensByZone r) (ringInstanceByToken r)
    (lastTopologyChange r) (ringZones r).

(** the key is the identifier and the shard size; the map is nil when
    nothing is cached *)
Record Ring := mkRing {
  sub : subring;
  shuffledSubringCache : option (gmap (string * Z) subring);
  reportedOwners : gset string;
  metrics : gauges
}.

(** [NewWithStoreClientAndStrategy]: [None] is the error on the replication factor *)
Definition NewWithStoreClientAndStrategy (c : Config) (s : ReplicationStrategy) : option Ring :=
  if bool_decide (ReplicationFactor c ≤ 0) then None
  else Some (mkRing (mkSubring c s NewDesc [] ∅ ∅ zeroTime []) (Some ∅) ∅ (mkGauges ∅ ∅ 0 ∅ ∅)).

Section ring.
Context `{!MapRange}.

Definition Ring_IsHealthy (r : subring) (i : InstanceDesc) (op : Operation) (now : Z) : bool :=
  IsHealthy i op (HeartbeatTimeout (cfg r)) now.

Definition InstancesCount (r : subring) : nat := size (Ingesters (ringDesc r)).

(** [countTokens]: tokens and token ranges per instance; [uint32] arithmetic *)
Fixpoint countTokens_loop (l : list Z) (first : Z) (byToken : gmap Z instanceInfo)
    (numTokens owned : gmap string Z) : gmap string Z * gmap string Z :=
  match l with
  | [] => (numTokens, owned)
  | token :: l' =>
      let diff :=
        match l' with
        | [] => u32 (u32 (MaxUint32 - token) + first)
        | next :: _ => u32 (next - token)
        end in
      let id := match byToken !! token with Some info => InstanceID info | None => "" end in
      countTokens_loop l' first byToken
        (<[id := u32 (default 0 (numTokens !! id) + 1)]> numTokens)
        (<[id := u32 (default 0 (owned !! id) + diff)]> owned)
  end.
Definition countTokens (r : subring) : gmap string Z * gmap string Z :=
  let '(numTokens, owned) :=
    countTokens_loop (ringTokens r) (default 0 (head (ringTokens r))) (ringInstanceByToken r) ∅ ∅ in
  foldl (λ '(numTokens, owned) '(id, _),
    match owned !! id with
    | Some _ => (numTokens, owned)
    | None => (<[id := 0]> numTokens, <[id := 0]> owned)
    end) (numTokens, owned) (map_range 548 (Ingesters (ringDesc r))).

Definition InstanceState_String (s : InstanceState) : string :=
  match s with
  | ACTIVE => "ACTIVE" | LEAVING => "LEAVING" | PENDING => "PENDING"
  | JOINING => "JOINING" | LEFT => "LEFT"
  end.
Definition unhealthy : string := "Unhealthy".

Definition metrics_by_state (r : subring) (now : Z) : gmap string Z * gmap string Z :=
  let init := foldl (λ m s, <[s := 0]> m) ∅
    [unhealthy; InstanceState_String ACTIVE; InstanceState_String LEAVING;
     InstanceState_String PENDING; InstanceState_String JOINING] in
  foldl (λ '(numByState, oldest) '(_, instance),
    let s := if negb (Ring_IsHealthy r instance Reporting now) then unhealthy
             else InstanceState_String (State instance) in
    (<[s := default 0 (numByState !! s) + 1]> numByState,
     if bool_decide (default 0 (oldest !! s) = 0) || bool_decide (Timestamp instance < default 0 (oldest !! s))
     then <[s := Timestamp instance]> oldest else oldest))
    (init, init) (map_range 573 (Ingesters (ringDesc r))).

Definition updateRingMetrics (compareResult : CompareResult) (now : Z) (r : Ring) : Ring :=
  match compareResult with
  | Equal => r
  | _ =>
      let '(numByState, oldest) := metrics_by_state (sub r) now in
      let g := metrics r in
      let g := mkGauges (memberOwnershipGaugeVec g) (numByState ∪ numMembersGaugeVec g)
                 (totalTokensGauge g) (numTokensGaugeVec g) (oldest ∪ oldestTimestampGaugeVec g) in
      match compareResult with
      | EqualButStatesAndTimestamps =>
          mkRing (sub r) (shuffledSubringCache r) (reportedOwners r) g
      | _ =>
          let '(numTokens, ownedRange) := countTokens (sub r) in
          let '(own, num, owners, prevOwners) :=
            foldl (λ '(own, num, owners, prevOwners) '(id, totalOwned),
              (<[id := totalOwned]> own, <[id := default 0 (numTokens !! id)]> num,
               {[id]} ∪ owners, prevOwners ∖ {[id]}))
              (memberOwnershipGaugeVec g, numTokensGaugeVec g, ∅, reportedOwners r)
              (map_range 598 ownedRange) in
          mkRing (sub r) (shuffledSubringCache r) owners
            (mkGauges (foldl (λ m k, delete k m) own (elements prevOwners)) (numMembersGaugeVec g)
               (Z.of_nat (length (ringTokens (sub r))))
               (foldl (λ m k, delete k m) num (elements prevOwners)) (oldestTimestampGaugeVec g))
      end
  end.

(** [updateRingState]: [now] is the clock of the topology change, [nowMetrics] that
    of the metrics *)
Definition excludeZones (excluded : list string) (d : Desc) : Desc :=
  if bool_decide (0 < length excluded)%nat then
    mkDesc (foldl (λ m '(instanceID, instance),
      if StringsContain excluded (Zone instance) then delete instanceID m else m)
      (Ingesters d) (map_range 312 (Ingesters d)))
  else d.

Definition updateRingState (d : Desc) (now nowMetrics : Z) (r : Ring) : Ring :=
  let prevRing := ringDesc (sub r) in
  let d := excludeZones (ExcludedZones (cfg (sub r))) d in
  let rc := RingCompare (Some prevRing) (Some d) in
  match rc with
  | Equal | EqualButStatesAndTimestamps =>
      updateRingMetrics rc nowMetrics
        (mkRing (set_ringDesc d (sub r)) (shuffledSubringCache r) (reportedOwners r) (metrics r))
  | Different =>
      let '(d, tokens) := GetTokens d in
      let '(d, tokensByZone) := getTokensByZone d in
      let instanceByToken := getTokensInfo d in
      let zones := getZones tokensByZone in
      updateRingMetrics rc nowMetrics
        (mkRing (mkSubring (cfg (sub r)) (strategy (sub r)) d tokens tokensByZone instanceByToken now zones)
           (match shuffledSubringCache r with Some _ => Some ∅ | None => None end)
           (reportedOwners r) (metrics r))
  end.

(** [starting] and the callback of [loop] *)
Definition starting (value : option Desc) (now nowMetrics : Z) (r : Ring) : Ring :=
  match value with Some d => updateRingState d now nowMetrics r | None => r end.
Definition loop_callback (value : option Desc) (now nowMetrics : Z) (r : Ring) : Ring * bool :=
  match value with None => (r, true) | Some d => (updateRingState d now nowMetrics r, true) end.

(** ** [Get] *)
Record get_acc := mkGetAcc {
  get_n : Z;
  get_hosts : list string;
  get_zones : list string;
  get_instances : list InstanceDesc
}.
(** The loop: at most [len(r.ringTokens)] iterations from [start], wrapping around. *)
Fixpoint Get_loop (iterations : nat) (i : nat) (r : subring) (op : Operation) (acc : get_acc)
    : result ring_error get_acc :=
  match iterations with
  | O => Ok acc
  | S iterations =>
      if negb (bool_decide (Z.of_nat (length (get_hosts acc)) < get_n acc)) then Ok acc
      else
        let i := (i mod length (ringTokens r))%nat in
        let token := default 0 (ringTokens r !! i) in
        match ringInstanceByToken r !! token with
        | None => Err ErrInconsistentTokensInfo
        | Some info =>
            let zoned := ZoneAwarenessEnabled (cfg r) && bool_decide (info_Zone info ≠ "") in
            if StringsContain (get_hosts acc) (InstanceID info) then Get_loop iterations (S i) r op acc
            else if zoned && StringsContain (get_zones acc) (info_Zone info)
            then Get_loop iterations (S i) r op acc
            else
              let hosts := get_hosts acc ++ [InstanceID info] in
              let instance := ingester (ringDesc r) (InstanceID info) in
              let extend := ShouldExtendReplicaSetOnState op (State instance) in
              let n := if extend then get_n acc + 1 else get_n acc in
              let zones := if negb extend && zoned
                           then get_zones acc ++ [info_Zone info] else get_zones acc in
              Get_loop iterations (S i) r op
                (mkGetAcc n hosts zones (get_instances acc ++ [instance]))
        end
  end.

Definition Get (r : subring) (key : Z) (op : Operation) (now : Z) : result ring_error ReplicationSet :=
  if bool_decide (length (ringTokens r) = 0%nat) then Err ErrEmptyRing
  else
    match Get_loop (length (ringTokens r)) (searchToken (ringTokens r) key) r op
            (mkGetAcc (ReplicationFactor (cfg r)) [] [] []) with
    | Err e => Err e
    | Ok acc =>
        match strategy r (get_instances acc) op (ReplicationFactor (cfg r))
                (HeartbeatTimeout (cfg r)) (ZoneAwarenessEnabled (cfg r)) now with
        | Err e => Err e
        | Ok (healthyInstances, maxFailure) => Ok (mkReplicationSet healthyInstances maxFailure 0)
        end
    end.

Definition GetAllHealthy (r : subring) (op : Operation) (now : Z) : result ring_error ReplicationSet :=
  if bool_decide (size (Ingesters (ringDesc r)) = 0%nat) then Err ErrEmptyRing
  else
    Ok (mkReplicationSet
      (foldl (λ instances '(_, instance),
         if Ring_IsHealthy r instance op now then instances ++ [instance] else instances)
         [] (map_range 433 (Ingesters (ringDesc r)))) 0 0).

(** ** [GetReplicationSetForOperation] *)
Definition healthy_and_failures (r : subring) (op : Operation) (now : Z)
    : list InstanceDesc * gset string :=
  foldl (λ '(healthyInstances, zoneFailures) '(_, instance),
    if Ring_IsHealthy r instance op now
    then (healthyInstances ++ [instance], zoneFailures)
    else (healthyInstances, {[Zone instance]} ∪ zoneFailures))
    ([], ∅) (map_range 459 (Ingesters (ringDesc r))).

Definition GetReplicationSetForOperation (r : subring) (op : Operation) (now : Z)
    : result ring_error ReplicationSet :=
  if bool_decide (length (ringTokens r) = 0%nat) then Err ErrEmptyRing
  else
    let '(healthyInstances, zoneFailures) := healthy_and_failures r op now in
    if ZoneAwarenessEnabled (cfg r) then
      let numReplicatedZones := Z.min (Z.of_nat (length (ringZones r))) (ReplicationFactor (cfg r)) in
      let minSuccessZones := Z.quot numReplicatedZones 2 + 1 in
      let maxUnavailableZones := minSuccessZones - 1 in
      if bool_decide (maxUnavailableZones < Z.of_nat (size zoneFailures))
      then Err ErrTooManyUnhealthyInstances
      else
        let healthyInstances :=
          if bool_decide (0 < size zoneFailures)%nat
          then filter (λ instance, Zone instance ∉ zoneFailures) healthyInstances
          else healthyInstances in
        Ok (mkReplicationSet healthyInstances 0 (maxUnavailableZones - Z.of_nat (size zoneFailures)))
    else
      let numRequired := Z.of_nat (size (Ingesters (ringDesc r))) in
      let numRequired :=
        if bool_decide (numRequired < ReplicationFactor (cfg r))
        then ReplicationFactor (cfg r) else numRequired in
      let numRequired := numRequired - Z.quot (ReplicationFactor (cfg r)) 2 in
      if bool_decide (Z.of_nat (length healthyInstances) < numRequired)
      then Err ErrTooManyUnhealthyInstances
      else Ok (mkReplicationSet healthyInstances (Z.of_nat (length healthyInstances) - numRequired) 0).

Definition GetInstanceState (r : subring) (instanceID : string) : InstanceState * option ring_error :=
  match Ingesters (ringDesc r) !! instanceID with
  | None => (PENDING, Some ErrInstanceNotFound)
  | Some i => (State i, None)
  end.
Definition HasInstance (r : subring) (instanceID : string) : bool :=
  match Ingesters (ringDesc r) !! instanceID with Some _ => true | None => false end.
End ring.
