(* ===== verification/RingFacts.v ===== *)
(** * What the ring client guarantees: state updates, [searchToken], [Get]

    The invariant tying the token tables of a [Ring] to its instances, and the
    properties of the queries that follow. *)
From Stdlib Require Import ZArith Lia.
From stdpp Require Import base gmap strings list sorting fin_maps relations.
From S2P Require Import Prelude Model ModelFacts Ring.

(** ** The invariant *)
Record ring_ok (r : subring) : Prop := {
  ok_sorted : StronglySorted Z.le (ringTokens r);
  ok_tokens : ∀ t, t ∈ ringTokens r ↔ ∃ k i, Ingesters (ringDesc r) !! k = Some i ∧ t ∈ Tokens i;
  ok_owner : ∀ t, t ∈ ringTokens r → ∃ info i,
    ringInstanceByToken r !! t = Some info ∧
    Ingesters (ringDesc r) !! InstanceID info = Some i ∧ Zone i = info_Zone info ∧ t ∈ Tokens i;
  ok_zones : Sorted String.le (ringZones r) ∧ NoDup (ringZones r) ∧
    ∀ z, z ∈ ringZones r ↔ ∃ k i, Ingesters (ringDesc r) !! k = Some i ∧ Zone i = z;
  ok_byzone : ∀ z, StronglySorted Z.le (default [] (ringTokensByZone r !! z)) ∧
    ∀ t, t ∈ default [] (ringTokensByZone r !! z) ↔
         ∃ k i, Ingesters (ringDesc r) !! k = Some i ∧ Zone i = z ∧ t ∈ Tokens i
}.

Lemma StringsContain_spec l s : StringsContain l s = true ↔ s ∈ l.
Proof.
  induction l as [|v l IH]; simpl; [by rewrite elem_of_nil|].
  rewrite elem_of_cons. case_bool_decide; naive_solver.
Qed.
Lemma StringsContain_false l s : StringsContain l s = false ↔ s ∉ l.
Proof. rewrite <- StringsContain_spec. by destruct (StringsContain l s). Qed.

(** two rings with the same topology have the same instances, tokens and zones *)
Lemma topologies_lookup a b k i :
  topologies a = topologies b → Ingesters a !! k = Some i →
  ∃ i', Ingesters b !! k = Some i' ∧ topology i = topology i'.
Proof.
  intros Ht Hk. apply (f_equal (lookup k)) in Ht. unfold topologies in Ht.
  rewrite !lookup_fmap, Hk in Ht. destruct (Ingesters b !! k) as [i'|]; [|done].
  apply (inj Some) in Ht. by exists i'.
Qed.

Lemma topology_Tokens i i' : topology i = topology i' → Tokens i = Tokens i'.
Proof. by destruct i, i'; injection 1. Qed.
Lemma topology_Zone i i' : topology i = topology i' → Zone i = Zone i'.
Proof. by destruct i, i'; injection 1. Qed.

Lemma topologies_exists a b (P : list Z → string → Prop) :
  topologies a = topologies b →
  (∃ k i, Ingesters a !! k = Some i ∧ P (Tokens i) (Zone i)) ↔
  (∃ k i, Ingesters b !! k = Some i ∧ P (Tokens i) (Zone i)).
Proof.
  intros Ht. split; intros (k & i & Hk & HP).
  - destruct (topologies_lookup a b k i Ht Hk) as (i' & Hk' & Hi). exists k, i'. split; [done|].
    by rewrite <- (topology_Tokens _ _ Hi), <- (topology_Zone _ _ Hi).
  - destruct (topologies_lookup b a k i (eq_sym Ht) Hk) as (i' & Hk' & Hi). exists k, i'. split; [done|].
    by rewrite <- (topology_Tokens _ _ Hi), <- (topology_Zone _ _ Hi).
Qed.

Section ring.
Context `{R : MapRange}.

Lemma excludeZones_lookup ex d k :
  Ingesters (excludeZones ex d) !! k
  = i ← Ingesters d !! k; if decide (Zone i ∈ ex) then None else Some i.
Proof.
  unfold excludeZones. case_bool_decide as Hl.
  - simpl. etrans; [apply (map_range_local (λ m, m) (λ m '(instanceID, instance),
      if StringsContain ex (Zone instance) then delete instanceID m else m)
      (λ _ i o, if StringsContain ex (Zone i) then None else o))|].
    + intros a j v. case_if; [apply lookup_delete_eq|done].
    + intros a j v j' Hj. case_if; [by apply lookup_delete_ne|done].
    + destruct (Ingesters d !! k) as [i|]; [|done]. simpl.
      destruct (StringsContain ex (Zone i)) eqn:Hs.
      * apply StringsContain_spec in Hs. by rewrite decide_True.
      * apply StringsContain_false in Hs. by rewrite decide_False.
  - destruct ex; [|simpl in Hl; lia]. destruct (Ingesters d !! k) as [i|]; [|done].
    cbn [mbind option_bind]. case_decide as Hz; [by apply elem_of_nil in Hz|done].
Qed.

Lemma getZones_spec (m : gmap string (list Z)) :
  Sorted String.le (getZones m) ∧ NoDup (getZones m) ∧ ∀ z, z ∈ getZones m ↔ is_Some (m !! z).
Proof.
  unfold getZones.
  assert (∀ (l : list (string * list Z)) acc,
    foldl (λ zones '(zone, _), zones ++ [zone]) acc l = acc ++ l.*1) as Hl.
  { induction l as [|[z ts] l IH]; intros acc; simpl; [by rewrite app_nil_r|].
    by rewrite IH, <- app_assoc. }
  rewrite Hl. simpl. unfold sort_Strings. split; [|split].
  - apply Sorted_merge_sort; apply _.
  - rewrite merge_sort_Permutation. apply map_range_NoDup_fst.
  - intros z. rewrite merge_sort_Permutation, list_elem_of_fmap. split.
    + intros ([z' ts] & -> & Hin%map_range_elem). by exists ts.
    + intros [ts Hts]. exists (z, ts). by rewrite map_range_elem.
Qed.

(** the state computed when the topology has changed *)
Lemma ring_ok_fresh c s d now :
  let '(d, tokens) := GetTokens d in
  let '(d, tokensByZone) := getTokensByZone d in
  ring_ok (mkSubring c s d tokens tokensByZone (getTokensInfo d) now (getZones tokensByZone)).
Proof.
  pose proof (GetTokens_sorted d) as Hsort. pose proof (GetTokens_elem d) as Helem.
  pose proof (GetTokens_spec d) as Hg. destruct (GetTokens d) as [d1 tokens]. injection Hg as -> _.
  pose proof (getTokensByZone_desc (sorted_desc d)) as Hd.
  pose proof (getTokensByZone_is_Some (sorted_desc d)) as Hz.
  pose proof (getTokensByZone_tokens (sorted_desc d)) as Hzt.
  destruct (getTokensByZone (sorted_desc d)) as [d2 byZone]. cbn [fst snd] in *.
  rewrite sorted_desc_idem in Hd. subst d2.
  assert (∀ t, t ∈ tokens ↔ ∃ k i, Ingesters (sorted_desc d) !! k = Some i ∧ t ∈ Tokens i) as Helem'.
  { intros t. rewrite Helem. unfold sorted_desc. simpl. setoid_rewrite lookup_fmap. split.
    - intros (k & i & Hk & Ht). exists k, (sort_instance i). rewrite Hk. split; [done|].
      simpl. by rewrite sort_tokens_elem.
    - intros (k & i & Hk & Ht). destruct (Ingesters d !! k) as [i'|] eqn:Hi; [|done].
      injection Hk as <-. exists k, i'. split; [done|]. simpl in Ht. by rewrite sort_tokens_elem in Ht. }
  constructor; cbn [ringTokens ringDesc ringInstanceByToken ringZones ringTokensByZone].
  - done.
  - done.
  - intros t (k & i & Hk & Ht)%Helem'. pose proof (getTokensInfo_spec (sorted_desc d) t) as Hi.
    destruct (getTokensInfo (sorted_desc d) !! t) as [info|]; [|by destruct (Hi k i)].
    destruct Hi as (i' & ? & ? & ?). by exists info, i'.
  - destruct (getZones_spec byZone) as (H1 & H2 & H3). split; [done|]. split; [done|].
    intros z. by rewrite H3, Hz.
  - done.
Qed.

(** replacing the instances by others of the same topology *)
Lemma ring_ok_topology r d :
  topologies (ringDesc r) = topologies d → ring_ok r → ring_ok (set_ringDesc d r).
Proof.
  intros Ht [Hs Htok Hown (Hz1 & Hz2 & Hz3) Hbz].
  constructor; cbn [set_ringDesc ringTokens ringDesc ringInstanceByToken ringZones ringTokensByZone].
  - done.
  - intros t. rewrite Htok. apply (topologies_exists _ _ (λ ts _, t ∈ ts) Ht).
  - intros t (info & i & Hinfo & Hi & Hz & Hti)%Hown.
    destruct (topologies_lookup _ _ _ _ Ht Hi) as (i' & Hi' & Htop). exists info, i'.
    by rewrite <- (topology_Tokens _ _ Htop), <- (topology_Zone _ _ Htop).
  - split; [done|]. split; [done|]. intros z. rewrite Hz3.
    apply (topologies_exists _ _ (λ _ z', z' = z) Ht).
  - intros z. destruct (Hbz z) as [H1 H2]. split; [done|]. intros t. rewrite H2.
    apply (topologies_exists _ _ (λ ts z', z' = z ∧ t ∈ ts) Ht).
Qed.

Lemma updateRingMetrics_sub rc now r : sub (updateRingMetrics rc now r) = sub r.
Proof.
  unfold updateRingMetrics. destruct rc; [done|..].
  - by destruct (metrics_by_state _ _).
  - destruct (metrics_by_state _ _). destruct (countTokens _).
    by destruct (foldl _ _ _) as [[[? ?] ?] ?].
Qed.
Lemma updateRingMetrics_cache rc now r :
  shuffledSubringCache (updateRingMetrics rc now r) = shuffledSubringCache r.
Proof.
  unfold updateRingMetrics. destruct rc; [done|..].
  - by destruct (metrics_by_state _ _).
  - destruct (metrics_by_state _ _). destruct (countTokens _).
    by destruct (foldl _ _ _) as [[[? ?] ?] ?].
Qed.

Lemma updateRingState_inv d now nowMetrics r :
  ring_ok (sub r) →
  ring_ok (sub (updateRingState d now nowMetrics r)) ∧
  ∀ k, sort_instance <$> Ingesters (ringDesc (sub (updateRingState d now nowMetrics r))) !! k
    = sort_instance <$>
        (i ← Ingesters d !! k; if decide (Zone i ∈ ExcludedZones (cfg (sub r))) then None else Some i).
Proof.
  intros Hok. setoid_rewrite <- excludeZones_lookup.
  unfold updateRingState. set (d' := excludeZones _ d).
  pose proof (RingCompare_spec (ringDesc (sub r)) d') as Hrc.
  assert (topologies (ringDesc (sub r)) = topologies d' →
    ring_ok (set_ringDesc d' (sub r)) ∧
    ∀ k, sort_instance <$> Ingesters (ringDesc (set_ringDesc d' (sub r))) !! k
       = sort_instance <$> Ingesters d' !! k) as Hsame.
  { intros Ht. split; [by apply ring_ok_topology|done]. }
  destruct (RingCompare _ _).
  - rewrite updateRingMetrics_sub. apply Hsame. by rewrite Hrc.
  - rewrite updateRingMetrics_sub. apply Hsame, Hrc.
  - clear Hsame Hrc.
    pose proof (λ c s, ring_ok_fresh c s d' now) as Hfresh.
    pose proof (GetTokens_spec d') as Hg. destruct (GetTokens d') as [d1 tokens]. injection Hg as -> _.
    pose proof (getTokensByZone_desc (sorted_desc d')) as Hd.
    destruct (getTokensByZone (sorted_desc d')) as [d2 byZone]. cbn [fst] in Hd. subst d2.
    rewrite updateRingMetrics_sub. cbn [sub]. split; [apply Hfresh|].
    intros k. cbn [ringDesc]. unfold sorted_desc. cbn [Ingesters]. rewrite !lookup_fmap.
    destruct (Ingesters d' !! k) as [i|]; [|done]. cbn. by rewrite !sort_instance_idem.
Qed.

(** C15. However the ring is updated, its tables agree with its instances: the
    tokens are sorted and are exactly those of the instances outside the
    excluded zones, every token is mapped to an instance owning it, the zones
    are sorted and exactly those of the instances, and so is the table of
    tokens by zone. *)
Theorem updateRingState_ok d now nowMetrics r :
  ring_ok (sub r) →
  ring_ok (sub (updateRingState d now nowMetrics r)) ∧
  ∀ k, sort_instance <$> Ingesters (ringDesc (sub (updateRingState d now nowMetrics r))) !! k
    = sort_instance <$>
        (i ← Ingesters d !! k; if decide (Zone i ∈ ExcludedZones (cfg (sub r))) then None else Some i).
Proof. apply updateRingState_inv. Qed.
End ring.

Lemma ring_ok_new c s r : NewWithStoreClientAndStrategy c s = Some r → ring_ok (sub r).
Proof.
  unfold NewWithStoreClientAndStrategy. case_bool_decide; [done|]. intros [= <-].
  constructor; cbn.
  - constructor.
  - intros t. split; [by intros ?%elem_of_nil|]. intros (k & i & Hk & _). by rewrite lookup_empty in Hk.
  - by intros t ?%elem_of_nil.
  - split; [constructor|]. split; [constructor|]. intros z. split; [by intros ?%elem_of_nil|].
    intros (k & i & Hk & _). by rewrite lookup_empty in Hk.
  - intros z. rewrite lookup_empty. split; [constructor|]. intros t. split; [by intros ?%elem_of_nil|].
    intros (k & i & Hk & _). by rewrite lookup_empty in Hk.
Qed.

(** ** A ring for the witnesses *)
Definition ex_inst (addr zone : string) (ts : Z) (s : InstanceState) (tokens : list Z) : InstanceDesc :=
  mkInstanceDesc addr ts s tokens zone 1.
Definition ex_desc : Desc := mkDesc {[
  "a" := ex_inst "addr-a" "z1" 100 ACTIVE [40; 10];
  "b" := ex_inst "addr-b" "z2" 100 LEAVING [20; 50];
  "c" := ex_inst "addr-c" "z3" 100 ACTIVE [30; 60];
  "d" := ex_inst "addr-d" "z1" 100 ACTIVE [70];
  "e" := ex_inst "addr-e" "z2" 100 JOINING [];
  "x" := ex_inst "addr-x" "z4" 100 ACTIVE [80] ]}.
Definition ex_config (za : bool) : Config := mkConfig (60 * Second) 3 za ["z4"] false.
Definition ex_Ring (za : bool) : Ring :=
  mkRing (mkSubring (ex_config za) defaultReplicationStrategy_Filter NewDesc [] ∅ ∅ zeroTime [])
    (Some ∅) ∅ (mkGauges ∅ ∅ 0 ∅ ∅).
#[local] Existing Instance map_range_std.
Definition ex_updated (za : bool) : Ring :=
  updateRingState ex_desc (110 * Second) (110 * Second) (ex_Ring za).

Lemma ex_Ring_ok za : ring_ok (sub (ex_Ring za)).
Proof. apply (ring_ok_new (ex_config za) defaultReplicationStrategy_Filter). reflexivity. Qed.

Lemma updateRingState_ok_witness :
  ring_ok (sub (ex_updated true)) ∧ ringTokens (sub (ex_updated true)) = [10; 20; 30; 40; 50; 60; 70].
Proof.
  split; [|vm_compute; reflexivity].
  exact (proj1 (updateRingState_ok ex_desc (110 * Second) (110 * Second) (ex_Ring true) (ex_Ring_ok true))).
Defined.
