(* ===== verification/GetFacts.v ===== *)
(** * [searchToken] and [Get]: the replicas of a key

    The walk of [Get] over the ring, and the replica sets it can return. *)
From Stdlib Require Import ZArith Lia.
From stdpp Require Import base gmap strings list sorting fin_maps relations.
From S2P Require Import Prelude Model ModelFacts Ring RingFacts.

Lemma sorted_lookup_le (l : list Z) i j x y :
  StronglySorted Z.le l → (i ≤ j)%nat → l !! i = Some x → l !! j = Some y → x ≤ y.
Proof.
  intros Hs. revert i j. induction Hs as [|a l Hs IH Ha]; intros i j Hij Hi Hj; [done|].
  destruct i as [|i], j as [|j]; simpl in *; try lia.
  - simplify_eq. lia.
  - injection Hi as <-. rewrite Forall_forall in Ha. apply Ha. by eapply list_elem_of_lookup_2.
  - eapply (IH i j); [lia|done|done].
Qed.

(** [searchToken] on sorted tokens returns the position of the first token
    greater than the key, and wraps around to the first position when no token
    is. *)
Theorem searchToken_spec (tokens : list Z) (key : Z) :
  StronglySorted Z.le tokens →
  let i := searchToken tokens key in
  ((∃ t, tokens !! i = Some t ∧ key < t) ∧ ∀ j t, (j < i)%nat → tokens !! j = Some t → t ≤ key) ∨
  (i = 0%nat ∧ ∀ t, t ∈ tokens → t ≤ key).
Proof.
  intros Hs. unfold searchToken.
  set (f := λ x : nat, bool_decide (key < default 0 (tokens !! x))).
  destruct (sort_Search_spec (length tokens) f) as (Hle & Hlo & Hhi).
  { intros a b [Hab Hb] Ha. unfold f in *. apply bool_decide_eq_true in Ha. apply bool_decide_eq_true.
    destruct (lookup_lt_is_Some_2 tokens b Hb) as [y Hy].
    destruct (lookup_lt_is_Some_2 tokens a) as [x Hx]; [lia|]. rewrite Hx in Ha. rewrite Hy. simpl in *.
    pose proof (sorted_lookup_le tokens a b x y Hs Hab Hx Hy). lia. }
  set (i := sort_Search (length tokens) f) in *.
  assert (∀ j t, (j < i)%nat → tokens !! j = Some t → t ≤ key) as Hbefore.
  { intros j t Hj Ht. specialize (Hlo j Hj). unfold f in Hlo. rewrite Ht in Hlo. simpl in Hlo.
    apply bool_decide_eq_false in Hlo. lia. }
  case_bool_decide as Hl; [right|left].
  - split; [done|]. intros t [j Hj]%list_elem_of_lookup_1. apply (Hbefore j); [|done].
    apply lookup_lt_Some in Hj. lia.
  - split; [|done]. destruct (lookup_lt_is_Some_2 tokens i) as [t Ht]; [lia|]. exists t. split; [done|].
    specialize (Hhi i). unfold f in Hhi. rewrite Ht in Hhi. simpl in Hhi.
    apply (bool_decide_eq_true (key < t)), Hhi. lia.
Qed.

Definition ex_tokens : list Z := [10; 20; 20; 30].
Lemma searchToken_spec_witness :
  StronglySorted Z.le ex_tokens ∧ searchToken ex_tokens 20 = 3%nat ∧
  ((∃ t, ex_tokens !! searchToken ex_tokens 20 = Some t ∧ 20 < t) ∧
   ∀ j t, (j < searchToken ex_tokens 20)%nat → ex_tokens !! j = Some t → t ≤ 20).
Proof.
  assert (StronglySorted Z.le ex_tokens) as Hs by (repeat constructor; lia).
  split; [exact Hs|]. split; [reflexivity|].
  destruct (searchToken_spec ex_tokens 20 Hs) as [[H1 H2]|[H _]]; [|discriminate H].
  split; [exact H1|]. intros j t Hj Ht. exact (H2 j t Hj Ht).
Defined.

(** ** Walking around the ring *)
(** the token at a position, wrapping around *)
Definition token_at (tokens : list Z) (j : nat) : Z := default 0 (tokens !! (j mod length tokens)%nat).

Lemma token_at_next tokens i k :
  token_at tokens <$> seq (S (i mod length tokens)) k = token_at tokens <$> seq (S i) k.
Proof.
  apply list_eq. intros j. rewrite !list_lookup_fmap. destruct (decide (j < k)%nat).
  - rewrite !lookup_seq_lt by done. cbn [fmap option_fmap option_map]. f_equal. unfold token_at.
    enough ((S (i mod length tokens) + j) mod length tokens = (S i + j) mod length tokens)%nat as -> by done.
    rewrite !Nat.add_succ_comm. apply Nat.Div0.add_mod_idemp_l.
  - rewrite !lookup_seq_ge by lia. done.
Qed.

(** every token is visited once *)
Lemma token_at_elem tokens i t :
  (i < length tokens)%nat →
  t ∈ token_at tokens <$> seq i (length tokens) ↔ t ∈ tokens.
Proof.
  intros Hi. rewrite list_elem_of_fmap. split.
  - intros (j & -> & _). unfold token_at.
    destruct (lookup_lt_is_Some_2 tokens (j mod length tokens)) as [t Ht].
    { apply Nat.mod_upper_bound. lia. }
    rewrite Ht. by eapply list_elem_of_lookup_2.
  - intros [p Hp]%list_elem_of_lookup_1. pose proof (lookup_lt_Some _ _ _ Hp) as Hlt.
    destruct (decide (i ≤ p)%nat).
    + exists p. unfold token_at. rewrite Nat.mod_small, Hp by done. split; [done|].
      apply elem_of_seq. lia.
    + exists (p + length tokens)%nat. unfold token_at.
      rewrite <- (Nat.Div0.add_mod_idemp_r p), Nat.Div0.mod_same, Nat.add_0_r, Nat.mod_small, Hp by done.
      split; [done|]. apply elem_of_seq. lia.
Qed.

(** ** The walk of [Get] *)
Section get.
Context `{R : MapRange} (r : subring) (op : Operation).

(** the loop on the tokens it visits *)
Fixpoint Get_walk (ts : list Z) (acc : get_acc) : result ring_error get_acc :=
  match ts with
  | [] => Ok acc
  | token :: ts =>
      if negb (bool_decide (Z.of_nat (length (get_hosts acc)) < get_n acc)) then Ok acc
      else
        match ringInstanceByToken r !! token with
        | None => Err ErrInconsistentTokensInfo
        | Some info =>
            let zoned := ZoneAwarenessEnabled (cfg r) && bool_decide (info_Zone info ≠ "") in
            if StringsContain (get_hosts acc) (InstanceID info) then Get_walk ts acc
            else if zoned && StringsContain (get_zones acc) (info_Zone info) then Get_walk ts acc
            else
              let instance := ingester (ringDesc r) (InstanceID info) in
              let extend := ShouldExtendReplicaSetOnState op (State instance) in
              Get_walk ts (mkGetAcc
                (if extend then get_n acc + 1 else get_n acc) (get_hosts acc ++ [InstanceID info])
                (if negb extend && zoned then get_zones acc ++ [info_Zone info] else get_zones acc)
                (get_instances acc ++ [instance]))
        end
  end.

Lemma Get_loop_walk k i acc : Get_loop k i r op acc = Get_walk (token_at (ringTokens r) <$> seq i k) acc.
Proof.
  revert i acc. induction k as [|k IH]; intros i acc; [done|].
  cbn [Get_loop seq fmap list_fmap Get_walk].
  assert (∀ acc', Get_loop k (S (i mod length (ringTokens r))) r op acc'
                  = Get_walk (token_at (ringTokens r) <$> seq (S i) k) acc') as IH'.
  { intros acc'. by rewrite IH, token_at_next. }
  unfold token_at at 1. case_if; [done|].
  destruct (ringInstanceByToken r !! _) as [info|]; [|done]. rewrite !IH'. done.
Qed.

Definition extends (h : string) : Prop :=
  ShouldExtendReplicaSetOnState op (State (ingester (ringDesc r) h)) = true.
#[export] Instance extends_dec h : Decision (extends h).
Proof. unfold extends. apply _. Defined.

(** a host counted in its zone: zone-aware ring, with a zone, not extending *)
Definition counted_zone (h : string) : Prop :=
  ZoneAwarenessEnabled (cfg r) = true ∧ Zone (ingester (ringDesc r) h) ≠ "" ∧ ¬ extends h.
#[export] Instance counted_zone_dec h : Decision (counted_zone h).
Proof. unfold counted_zone. apply _. Defined.

Definition zone_of (h : string) : string := Zone (ingester (ringDesc r) h).

(** the accumulator along the walk *)
Record walk_ok (acc : get_acc) : Prop := {
  walk_hosts : NoDup (get_hosts acc);
  walk_known : ∀ h, h ∈ get_hosts acc → is_Some (Ingesters (ringDesc r) !! h);
  walk_instances : get_instances acc = (ingester (ringDesc r)) <$> get_hosts acc;
  walk_n : get_n acc = ReplicationFactor (cfg r) + Z.of_nat (length (filter extends (get_hosts acc)));
  walk_zones : get_zones acc = zone_of <$> filter counted_zone (get_hosts acc);
  walk_zones_NoDup : NoDup (get_zones acc)
}.

(** the owner of a token is chosen, or its zone is *)
Definition covered (acc : get_acc) (t : Z) : Prop :=
  ∀ info, ringInstanceByToken r !! t = Some info →
    InstanceID info ∈ get_hosts acc ∨
    (ZoneAwarenessEnabled (cfg r) = true ∧ info_Zone info ≠ "" ∧ info_Zone info ∈ get_zones acc).

Lemma walk_ok_add acc info i :
  walk_ok acc → Ingesters (ringDesc r) !! InstanceID info = Some i → Zone i = info_Zone info →
  InstanceID info ∉ get_hosts acc →
  (ZoneAwarenessEnabled (cfg r) && bool_decide (info_Zone info ≠ "") = true → info_Zone info ∉ get_zones acc) →
  let instance := ingester (ringDesc r) (InstanceID info) in
  let extend := ShouldExtendReplicaSetOnState op (State instance) in
  let zoned := ZoneAwarenessEnabled (cfg r) && bool_decide (info_Zone info ≠ "") in
  walk_ok (mkGetAcc (if extend then get_n acc + 1 else get_n acc) (get_hosts acc ++ [InstanceID info])
    (if negb extend && zoned then get_zones acc ++ [info_Zone info] else get_zones acc)
    (get_instances acc ++ [instance])).
Proof.
  intros [H1 H2 H3 H4 H5 H6] Hi Hz Hni Hnz. cbv zeta.
  generalize (eq_refl (ShouldExtendReplicaSetOnState op (State (ingester (ringDesc r) (InstanceID info))))).
  generalize (ShouldExtendReplicaSetOnState op (State (ingester (ringDesc r) (InstanceID info)))) at 2 3 4. intros extend Hextend. set (zoned := _ && _) in *.
  assert (extends (InstanceID info) ↔ extend = true) as Hext by (unfold extends; by rewrite Hextend).
  assert (counted_zone (InstanceID info) ↔ negb extend && zoned = true) as Hcz.
  { unfold counted_zone, zoned. rewrite Hext. unfold ingester. rewrite Hi. simpl. rewrite Hz.
    rewrite !andb_true_iff, negb_true_iff, bool_decide_eq_true, not_true_iff_false. naive_solver. }
  constructor; cbn [get_hosts get_n get_zones get_instances].
  - apply NoDup_app. split; [done|]. split; [|apply NoDup_singleton]. set_solver.
  - intros h [?|Hh]%elem_of_app; [auto|]. apply list_elem_of_singleton in Hh as ->. eauto.
  - rewrite fmap_app, H3. done.
  - rewrite filter_app, length_app, H4. cbn [filter]. rewrite filter_cons.
    destruct (decide (extends (InstanceID info))) as [He|He].
    + destruct extend; [cbn; lia|]. by apply Hext in He.
    + destruct extend; [by destruct He; apply Hext|]. cbn. lia.
  - rewrite filter_app, fmap_app, H5, filter_cons.
    destruct (decide (counted_zone (InstanceID info))) as [He|He].
    + apply Hcz in He. rewrite He. cbn. unfold zone_of, ingester. by rewrite Hi, <- Hz.
    + destruct (negb extend && zoned); [by destruct He; apply Hcz|]. cbn. by rewrite app_nil_r.
  - destruct (negb extend && zoned) eqn:He; [|done]. apply andb_true_iff in He as [_ He].
    apply NoDup_app. split; [done|]. split; [|apply NoDup_singleton]. specialize (Hnz He). set_solver.
Qed.

Lemma covered_mono acc acc' t :
  (∀ h, h ∈ get_hosts acc → h ∈ get_hosts acc') → (∀ z, z ∈ get_zones acc → z ∈ get_zones acc') →
  covered acc t → covered acc' t.
Proof. intros Hh Hz Hc info Hi. destruct (Hc info Hi) as [?|(? & ? & ?)]; [left|right]; auto. Qed.

Lemma Get_walk_spec ts acc :
  ring_ok r → (∀ t, t ∈ ts → t ∈ ringTokens r) → walk_ok acc →
  ∃ acc', Get_walk ts acc = Ok acc' ∧ walk_ok acc' ∧
    (∃ more, get_hosts acc' = get_hosts acc ++ more) ∧ (∃ more, get_zones acc' = get_zones acc ++ more) ∧
    (get_n acc' ≤ Z.of_nat (length (get_hosts acc')) ∨ ∀ t, t ∈ ts → covered acc' t).
Proof.
  intros Hok. revert acc. induction ts as [|t ts IH]; intros acc Hts Hacc.
  { exists acc. split; [done|]. split; [done|]. split; [exists []; by rewrite app_nil_r|].
    split; [exists []; by rewrite app_nil_r|]. right. by intros t ?%elem_of_nil. }
  cbn [Get_walk]. case_bool_decide as Hn; cbn [negb].
  2: { exists acc. split; [done|]. split; [done|]. split; [exists []; by rewrite app_nil_r|].
       split; [exists []; by rewrite app_nil_r|]. left. lia. }
  destruct (ok_owner r Hok t) as (info & i & Hinfo & Hi & Hz & _); [apply Hts; by left|].
  rewrite Hinfo. cbv zeta.
  assert (∀ t, t ∈ ts → t ∈ ringTokens r) as Hts' by (intros; apply Hts; by right).
  assert (∀ acc1 acc', (∃ more, get_hosts acc' = get_hosts acc1 ++ more) →
    (∃ more, get_zones acc' = get_zones acc1 ++ more) → covered acc1 t → covered acc' t) as Hmono.
  { intros acc1 acc' [m1 Hm1] [m2 Hm2]. apply covered_mono; intros ?; rewrite ?Hm1, ?Hm2; set_solver. }
  destruct (StringsContain (get_hosts acc) (InstanceID info)) eqn:Hhost.
  { destruct (IH acc Hts' Hacc) as (acc' & Hw & Hok' & Hh' & Hz' & Hc). exists acc'.
    split; [done|]. split; [done|]. split; [done|]. split; [done|].
    destruct Hc as [?|Hc]; [by left|right]. intros t' [->|?]%elem_of_cons; [|auto].
    apply (Hmono acc acc'); [done|done|]. intros info' Hinfo'. left.
    rewrite Hinfo in Hinfo'. injection Hinfo' as <-. by apply StringsContain_spec. }
  apply StringsContain_false in Hhost.
  destruct ((ZoneAwarenessEnabled (cfg r) && bool_decide (info_Zone info ≠ "")) &&
            StringsContain (get_zones acc) (info_Zone info)) eqn:Hzone.
  { destruct (IH acc Hts' Hacc) as (acc' & Hw & Hok' & Hh' & Hz' & Hc). exists acc'.
    split; [done|]. split; [done|]. split; [done|]. split; [done|].
    destruct Hc as [?|Hc]; [by left|right]. intros t' [->|?]%elem_of_cons; [|auto].
    apply (Hmono acc acc'); [done|done|]. intros info' Hinfo'. right.
    rewrite Hinfo in Hinfo'. injection Hinfo' as <-.
    rewrite !andb_true_iff, bool_decide_eq_true, StringsContain_spec in Hzone. naive_solver. }
  set (acc1 := mkGetAcc _ _ _ _).
  assert (walk_ok acc1) as Hacc1.
  { apply (walk_ok_add acc info i Hacc Hi Hz Hhost). intros Hzd.
    rewrite Hzd in Hzone. by apply StringsContain_false. }
  destruct (IH acc1 Hts' Hacc1) as (acc' & Hw & Hok' & Hh' & Hz' & Hc). exists acc'.
  split; [done|]. split; [done|]. split; [|split].
  - destruct Hh' as [m Hm]. exists ([InstanceID info] ++ m). rewrite Hm. simpl. by rewrite <- app_assoc.
  - destruct Hz' as [m Hm]. rewrite Hm. unfold acc1. simpl. case_if; [|by eauto].
    eexists. by rewrite <- app_assoc.
  - destruct Hc as [?|Hc]; [by left|right]. intros t' [->|?]%elem_of_cons; [|auto].
    apply (Hmono acc1 acc'); [done|done|]. intros info' Hinfo'. left.
    rewrite Hinfo in Hinfo'. injection Hinfo' as <-. unfold acc1. simpl. set_solver.
Qed.

Lemma Get_walk_le ts acc acc' :
  Z.of_nat (length (get_hosts acc)) ≤ get_n acc → Get_walk ts acc = Ok acc' →
  Z.of_nat (length (get_hosts acc')) ≤ get_n acc'.
Proof.
  revert acc. induction ts as [|t ts IH]; intros acc Hle; cbn [Get_walk]; [by intros [= <-]|].
  case_bool_decide as Hn; cbn [negb]; [|by intros [= <-]].
  destruct (ringInstanceByToken r !! t) as [info|]; [|done]. cbv zeta.
  case_if; [by apply IH|]. case_if; [by apply IH|]. apply IH. cbn [get_hosts get_n].
  rewrite length_app. simpl. case_if; lia.
Qed.

Lemma Get_walk_extends ts acc acc' :
  Get_walk ts acc = Ok acc' → ∃ more, get_hosts acc' = get_hosts acc ++ more.
Proof.
  revert acc. induction ts as [|t ts IH]; intros acc; cbn [Get_walk].
  { intros [= ->]. exists []. by rewrite app_nil_r. }
  case_if; [intros [= ->]; exists []; by rewrite app_nil_r|].
  destruct (ringInstanceByToken r !! t) as [info|]; [|done]. cbv zeta.
  case_if; [by apply IH|]. case_if; [by apply IH|]. intros [more Hm]%IH. simpl in Hm.
  rewrite Hm, <- app_assoc. eauto.
Qed.

(** the replicas [Get] may return for a key *)
Record replicas (key : Z) (hosts : list string) : Prop := {
  (** registered, distinct *)
  replicas_known : ∀ h, h ∈ hosts → is_Some (Ingesters (ringDesc r) !! h);
  replicas_NoDup : NoDup hosts;
  (** in distinct zones, those extending the set and those without zone apart *)
  replicas_zones : NoDup (zone_of <$> filter counted_zone hosts);
  (** as many as the replication factor, one more for each that extends the set; or
      every token belongs to a chosen instance or zone *)
  replicas_enough :
    let n := ReplicationFactor (cfg r) + Z.of_nat (length (filter extends hosts)) in
    Z.of_nat (length hosts) ≤ n ∧
    (Z.of_nat (length hosts) = n ∨
     ∀ t info, t ∈ ringTokens r → ringInstanceByToken r !! t = Some info →
       InstanceID info ∈ hosts ∨
       (ZoneAwarenessEnabled (cfg r) = true ∧ info_Zone info ≠ "" ∧
        info_Zone info ∈ (zone_of <$> filter counted_zone hosts)));
  (** starting from the owner of the first token after the key *)
  replicas_first : head hosts = InstanceID <$>
    (ringTokens r !! searchToken (ringTokens r) key ≫= λ t, ringInstanceByToken r !! t)
}.

Lemma searchToken_lt tokens key : tokens ≠ [] → (searchToken tokens key < length tokens)%nat.
Proof.
  intros Hne. unfold searchToken. case_bool_decide as Hl; [|lia].
  destruct tokens; [done|simpl; lia].
Qed.

Lemma Get_loop_replicas key :
  ring_ok r → 0 < ReplicationFactor (cfg r) → ringTokens r ≠ [] →
  ∃ acc, Get_loop (length (ringTokens r)) (searchToken (ringTokens r) key) r op
           (mkGetAcc (ReplicationFactor (cfg r)) [] [] []) = Ok acc ∧
    get_instances acc = ingester (ringDesc r) <$> get_hosts acc ∧ replicas key (get_hosts acc).
Proof.
  intros Hok Hrf Hne. pose proof (searchToken_lt _ key Hne) as Hlt.
  set (start := searchToken (ringTokens r) key) in *. rewrite Get_loop_walk.
  set (acc0 := mkGetAcc _ _ _ _).
  assert (walk_ok acc0) as Hacc0.
  { constructor; simpl; try done; try constructor; [by intros ? ?%elem_of_nil|lia]. }
  destruct (Get_walk_spec (token_at (ringTokens r) <$> seq start (length (ringTokens r))) acc0 Hok) as
    (acc & Hw & [H1 H2 H3 H4 H5 H6] & _ & _ & Hc); [|done|].
  { intros t. by apply token_at_elem. }
  exists acc. split; [done|]. split; [done|]. constructor; [done|done|by rewrite <- H5| |].
  - assert (Z.of_nat (length (get_hosts acc)) ≤ get_n acc) as Hle
      by (eapply (Get_walk_le _ acc0 acc); [simpl; lia|done]).
    cbv zeta. rewrite H4 in *. split; [done|]. destruct Hc as [?|Hc]; [left; lia|right].
    intros t info Ht Hinfo. rewrite <- H5. apply (Hc t); [|done]. by apply token_at_elem.
  - destruct (lookup_lt_is_Some_2 _ _ Hlt) as [t Ht]. fold start. rewrite Ht. cbn [mbind option_bind].
    destruct (ok_owner r Hok t) as (info & i & Hinfo & _); [by eapply list_elem_of_lookup_2|].
    rewrite Hinfo. simpl.
    assert (∃ rest, token_at (ringTokens r) <$> seq start (length (ringTokens r)) = t :: rest) as [rest Hrest].
    { destruct (ringTokens r) as [|t0 ts] eqn:He; [done|]. eexists. cbn [length seq fmap list_fmap].
      f_equal. unfold token_at. rewrite Nat.mod_small by done. by rewrite Ht. }
    rewrite Hrest in Hw. cbn [Get_walk] in Hw. rewrite bool_decide_eq_true_2 in Hw by (simpl; lia).
    cbn [negb] in Hw. rewrite Hinfo in Hw. cbv zeta in Hw. cbn [acc0 get_hosts get_zones StringsContain] in Hw.
    rewrite andb_false_r in Hw.
    set (acc1 := mkGetAcc _ _ _ _) in Hw.
    assert (∃ more, get_hosts acc = get_hosts acc1 ++ more) as [more ->]; [|done].
    by eapply Get_walk_extends.
Qed.
End get.

(** C16. [Get] on a ring that holds its invariant never reports inconsistent
    tokens: the ring is empty, or the strategy decides on a replica set made of
    distinct registered instances, the first being the owner of the first token
    after the key, in distinct zones, and as many as the replication factor
    plus one for each instance whose state extends the set, unless the tokens
    ran out. *)
Theorem Get_spec `{R : MapRange} (r : subring) (key : Z) (op : Operation) (now : Z) :
  ring_ok r → 0 < ReplicationFactor (cfg r) →
  (ringTokens r = [] ∧ Get r key op now = Err ErrEmptyRing) ∨
  (ringTokens r ≠ [] ∧ ∃ hosts, replicas r op key hosts ∧
   Get r key op now =
     match strategy r (ingester (ringDesc r) <$> hosts) op (ReplicationFactor (cfg r))
             (HeartbeatTimeout (cfg r)) (ZoneAwarenessEnabled (cfg r)) now with
     | Ok (healthy, maxErrors) => Ok (mkReplicationSet healthy maxErrors 0)
     | Err e => Err e
     end).
Proof.
  intros Hok Hrf. unfold Get. case_bool_decide as Hl.
  - left. split; [by apply length_zero_iff_nil|done].
  - right. assert (ringTokens r ≠ []) as Hne by (intros He; by rewrite He in Hl). split; [done|].
    destruct (Get_loop_replicas r op key Hok Hrf Hne) as (acc & -> & Hinst & Hr).
    exists (get_hosts acc). split; [done|]. by rewrite Hinst.
Qed.

#[local] Existing Instance map_range_std.
Lemma Get_spec_witness :
  ring_ok (sub (ex_updated true)) ∧
  ∃ hosts, replicas (sub (ex_updated true)) Write 25 hosts ∧
    is_Ok (Get (sub (ex_updated true)) 25 Write (110 * Second)) = true.
Proof.
  assert (ring_ok (sub (ex_updated true))) as Hok
    by exact (proj1 (updateRingState_inv _ _ _ _ (ex_Ring_ok true))).
  split; [exact Hok|].
  destruct (Get_spec (sub (ex_updated true)) 25 Write (110 * Second) Hok) as [[He _]|(_ & hosts & Hr & _)].
  - reflexivity.
  - exfalso. revert He. vm_compute. discriminate.
  - exists hosts. split; [exact Hr|]. vm_compute. reflexivity.
Defined.
