(* ===== verification/QuorumFacts.v ===== *)
(** * Quorums: [Filter], [GetReplicationSetForOperation], [countTokens]

    Why the replica sets are large enough: reads meet writes, with or without
    zone awareness; and what the ownership metric adds up to. *)
From Stdlib Require Import ZArith Lia.
From stdpp Require Import base gmap strings list sorting fin_maps relations.
From S2P Require Import Prelude Model ModelFacts Ring RingFacts.

(** ** Two large parts of a list meet *)
Lemma submseteq_disjoint_app {A} `{EqDecision A} (s w l : list A) :
  s ⊆+ l → w ⊆+ l → (∀ x, x ∈ s → x ∉ w) → s ++ w ⊆+ l.
Proof.
  revert l. induction s as [|x s IH]; intros l Hs Hw Hd; [done|].
  apply submseteq_cons_l in Hs as (l' & Hl & Hs). rewrite Hl in Hw |- *. simpl.
  apply submseteq_skip, IH; [done| |].
  - apply submseteq_cons_r in Hw as [?|(w' & Hp & _)]; [done|].
    destruct (Hd x); [by left|]. rewrite Hp. by left.
  - intros y Hy. apply Hd. by right.
Qed.

Lemma large_parts_meet {A} `{EqDecision A} (s w l : list A) :
  s ⊆+ l → w ⊆+ l → (length l < length s + length w)%nat → ∃ x, x ∈ s ∧ x ∈ w.
Proof.
  intros Hs Hw Hl. destruct (decide (Exists (λ x, x ∈ w) s)) as [He|He].
  { apply Exists_exists in He as (x & ? & ?). eauto. }
  exfalso.
  assert (s ++ w ⊆+ l) as Hsub.
  { apply submseteq_disjoint_app; [done|done|]. intros x Hx Hxw. apply He, Exists_exists. eauto. }
  apply submseteq_length in Hsub. rewrite length_app in Hsub. lia.
Qed.

(** ** [Filter] *)
Lemma filter_healthy_spec l op hb now :
  filter_healthy l op hb now
  = (filter (λ i, IsHealthy i op hb now = true) l, Addr <$> filter (λ i, IsHealthy i op hb now = false) l).
Proof.
  induction l as [|i l IH]; [done|]. cbn [filter_healthy]. rewrite IH, !filter_cons.
  destruct (IsHealthy i op hb now); [by rewrite decide_True, decide_False|by rewrite decide_False, decide_True].
Qed.

Lemma default_Filter_spec l op rf hb za now :
  let healthy := filter (λ i, IsHealthy i op hb now = true) l in
  let minSuccess := Z.quot (Z.max rf (Z.of_nat (length l))) 2 + 1 in
  defaultReplicationStrategy_Filter l op rf hb za now
  = if bool_decide (Z.of_nat (length healthy) < minSuccess)
    then Err (ErrLiveReplicas za minSuccess (Z.of_nat (length healthy))
                (Addr <$> filter (λ i, IsHealthy i op hb now = false) l))
    else Ok (healthy, Z.of_nat (length healthy) - minSuccess).
Proof.
  cbv zeta. unfold defaultReplicationStrategy_Filter. rewrite filter_healthy_spec.
  assert ((if bool_decide (rf < Z.of_nat (length l)) then Z.of_nat (length l) else rf)
          = Z.max rf (Z.of_nat (length l))) as -> by (case_bool_decide; lia). done.
Qed.

(** C17. Quorum intersection: whenever the default strategy accepts the same
    candidates for two operations (a write and a read, at different times), any
    set of instances that satisfies the first, its healthy instances but at most
    the tolerated number of failures, has an instance in common with any set that
    satisfies the second. *)
Theorem quorum_intersection l rf hb za opw opr noww nowr hw hr mw mr W S :
  0 ≤ rf →
  defaultReplicationStrategy_Filter l opw rf hb za noww = Ok (hw, mw) →
  defaultReplicationStrategy_Filter l opr rf hb za nowr = Ok (hr, mr) →
  W ⊆+ hw → Z.of_nat (length hw) - mw ≤ Z.of_nat (length W) →
  S ⊆+ hr → Z.of_nat (length hr) - mr ≤ Z.of_nat (length S) →
  ∃ i, i ∈ W ∧ i ∈ S.
Proof.
  intros Hrf. rewrite !default_Filter_spec.
  case_bool_decide as Hw; [done|]. intros [= <- <-].
  case_bool_decide as Hr; [done|]. intros [= <- <-] HW HlW HS HlS.
  apply (large_parts_meet W S l).
  - etrans; [done|]. apply sublist_submseteq, sublist_filter.
  - etrans; [done|]. apply sublist_submseteq, sublist_filter.
  - set (n := Z.max rf (Z.of_nat (length l))) in *.
    assert (n ≤ 2 * Z.quot n 2 + 1) as Hn.
    { assert (0 ≤ n) by lia. rewrite Z.quot_div_nonneg by lia.
      pose proof (Z.div_mod n 2). pose proof (Z.mod_pos_bound n 2). lia. }
    lia.
Qed.

Definition ex_candidates : list InstanceDesc :=
  [ex_inst "a" "z1" 100 ACTIVE [10]; ex_inst "b" "z2" 100 LEAVING [20]; ex_inst "c" "z3" 100 ACTIVE [30];
   ex_inst "d" "z1" 100 ACTIVE [40]].

Lemma quorum_intersection_witness :
  ∃ hw mw hr mr,
    defaultReplicationStrategy_Filter ex_candidates Write 3 (60 * Second) false (120 * Second) = Ok (hw, mw) ∧
    defaultReplicationStrategy_Filter ex_candidates Read 3 (60 * Second) false (120 * Second) = Ok (hr, mr) ∧
    length hw = 3%nat ∧ mw = 0 ∧ length hr = 4%nat ∧ mr = 1 ∧ ∃ i, i ∈ hw ∧ i ∈ drop 1 hr.
Proof.
  do 4 eexists. split; [vm_compute; reflexivity|]. split; [vm_compute; reflexivity|].
  do 4 (split; [reflexivity|]).
  eapply (quorum_intersection ex_candidates 3 (60 * Second) false Write Read (120 * Second) (120 * Second)).
  - lia.
  - vm_compute. reflexivity.
  - vm_compute. reflexivity.
  - reflexivity.
  - vm_compute. discriminate.
  - apply submseteq_cons. reflexivity.
  - vm_compute. discriminate.
Defined.

(** ** [GetReplicationSetForOperation] *)
Section replication_set.
Context `{R : MapRange} (r : subring) (op : Operation) (now : Z).

Definition all_instances : list InstanceDesc := (map_to_list (Ingesters (ringDesc r))).*2.
Definition healthy_now (i : InstanceDesc) : bool := Ring_IsHealthy r i op now.

Lemma all_instances_elem i : i ∈ all_instances ↔ ∃ k, Ingesters (ringDesc r) !! k = Some i.
Proof.
  unfold all_instances. rewrite list_elem_of_fmap. split.
  - intros ([k i'] & -> & Hin%elem_of_map_to_list). eauto.
  - intros [k Hk]. exists (k, i). by rewrite elem_of_map_to_list.
Qed.

Lemma length_all_instances : length all_instances = size (Ingesters (ringDesc r)).
Proof. unfold all_instances. by rewrite length_fmap, length_map_to_list. Qed.

Lemma healthy_and_failures_spec :
  let '(h, z) := healthy_and_failures r op now in
  h ≡ₚ filter (λ i, healthy_now i = true) all_instances ∧
  ∀ s, s ∈ z ↔ ∃ i, i ∈ all_instances ∧ healthy_now i = false ∧ Zone i = s.
Proof.
  unfold healthy_and_failures.
  assert ((map_range 459 (Ingesters (ringDesc r))).*2 ≡ₚ all_instances) as Hp
    by (unfold all_instances; by rewrite map_range_perm).
  revert Hp. generalize (map_range 459 (Ingesters (ringDesc r))). intros l Hp.
  assert (∀ (h : list InstanceDesc) (z : gset string), let '(h', z') := foldl (λ '(healthyInstances, zoneFailures) '(_, instance),
      if Ring_IsHealthy r instance op now
      then (healthyInstances ++ [instance], zoneFailures)
      else (healthyInstances, {[Zone instance]} ∪ zoneFailures)) (h, z) l in
    h' = h ++ filter (λ i, healthy_now i = true) l.*2 ∧
    ∀ s, s ∈ z' ↔ s ∈ z ∨ ∃ i, i ∈ l.*2 ∧ healthy_now i = false ∧ Zone i = s) as Hl.
  { clear Hp. induction l as [|[k i] l IH]; intros h z; cbn [foldl].
    - split; [by rewrite app_nil_r|]. intros s. split; [by left|]. by intros [?|(i & ?%elem_of_nil & _)].
    - rewrite fmap_cons. cbn [snd]. rewrite filter_cons. unfold healthy_now in *.
      destruct (Ring_IsHealthy r i op now) eqn:He.
      + specialize (IH (h ++ [i]) z). destruct (foldl _ _ l) as [h' z']. destruct IH as [-> Hz].
        rewrite decide_True by done. split; [by rewrite <- app_assoc|]. intros s. rewrite Hz.
        setoid_rewrite elem_of_cons. naive_solver congruence.
      + specialize (IH h ({[Zone i]} ∪ z)). destruct (foldl _ _ l) as [h' z']. destruct IH as [-> Hz].
        rewrite decide_False by done. split; [done|]. intros s. rewrite Hz, elem_of_union, elem_of_singleton.
        setoid_rewrite elem_of_cons. naive_solver. }
  specialize (Hl [] ∅). destruct (foldl _ _ l) as [h z]. destruct Hl as [-> Hz].
  split; [by rewrite <- Hp|]. intros s. rewrite Hz. setoid_rewrite <- Hp. set_solver.
Qed.

(** Without zone awareness, the instances returned for an operation are
    enough to read from: a set of them with at most [MaxErrors] missing meets
    every set of instances holding a quorum of the replication factor. *)
Theorem GetReplicationSet_covers_quorum rs W S :
  ZoneAwarenessEnabled (cfg r) = false →
  GetReplicationSetForOperation r op now = Ok rs →
  W ⊆+ all_instances → Z.quot (ReplicationFactor (cfg r)) 2 + 1 ≤ Z.of_nat (length W) →
  S ⊆+ Instances rs → Z.of_nat (length (Instances rs)) - MaxErrors rs ≤ Z.of_nat (length S) →
  0 ≤ MaxErrors rs ∧ MaxUnavailableZones rs = 0 ∧ ∃ i, i ∈ W ∧ i ∈ S.
Proof.
  intros Hza. unfold GetReplicationSetForOperation. rewrite Hza. case_bool_decide; [done|].
  pose proof healthy_and_failures_spec as Hhf. destruct (healthy_and_failures r op now) as [h z].
  destruct Hhf as [Hh _]. set (N := Z.of_nat (size (Ingesters (ringDesc r)))).
  set (rf := ReplicationFactor (cfg r)).
  assert ((if bool_decide (N < rf) then rf else N) = Z.max N rf) as -> by (case_bool_decide; lia).
  case_bool_decide as Hlen; [done|]. intros [= <-]. cbn [Instances MaxErrors MaxUnavailableZones].
  intros HW HlW HS HlS. split; [lia|]. split; [done|].
  apply (large_parts_meet W S all_instances); [done| |].
  - etrans; [done|]. rewrite Hh. apply sublist_submseteq, sublist_filter.
  - pose proof length_all_instances. unfold N in *. lia.
Qed.

(** zones are few: a set of instances in distinct zones reaches outside a small set
    of zones *)
Lemma reaches_other_zone (W : list InstanceDesc) (F : gset string) :
  NoDup (Zone <$> W) → (size F < length W)%nat → ∃ i, i ∈ W ∧ Zone i ∉ F.
Proof.
  intros Hnd Hlt. destruct (decide (Exists (λ i, Zone i ∉ F) W)) as [He|He].
  { apply Exists_exists in He as (i & ? & ?). eauto. }
  exfalso. assert (list_to_set (Zone <$> W) ⊆ F) as Hsub.
  { intros z. rewrite elem_of_list_to_set, list_elem_of_fmap. intros (i & -> & Hi).
    destruct (decide (Zone i ∈ F)); [done|]. destruct He. apply Exists_exists. eauto. }
  apply subseteq_size in Hsub. rewrite size_list_to_set, length_fmap in Hsub by done. lia.
Qed.

(** With zone awareness, reading from every returned instance outside at most
    [MaxUnavailableZones] failing zones reaches every quorum of replicas, which
    are in distinct zones: no [MaxErrors] is granted, and whatever zones fail
    within the limit, one instance of the quorum is returned and in another
    zone. *)
Theorem GetReplicationSet_covers_zones rs W (F : gset string) :
  ZoneAwarenessEnabled (cfg r) = true → 0 ≤ ReplicationFactor (cfg r) →
  GetReplicationSetForOperation r op now = Ok rs →
  (∀ i, i ∈ W → i ∈ all_instances) → NoDup (Zone <$> W) →
  Z.quot (Z.min (Z.of_nat (length (ringZones r))) (ReplicationFactor (cfg r))) 2 + 1 ≤ Z.of_nat (length W) →
  Z.of_nat (size F) ≤ MaxUnavailableZones rs →
  MaxErrors rs = 0 ∧ ∃ i, i ∈ W ∧ i ∈ Instances rs ∧ Zone i ∉ F.
Proof.
  intros Hza Hrf. unfold GetReplicationSetForOperation. rewrite Hza. case_bool_decide; [done|].
  pose proof healthy_and_failures_spec as Hhf. destruct (healthy_and_failures r op now) as [h z].
  destruct Hhf as [Hh Hz]. case_bool_decide as Hf; [done|]. intros [= <-].
  cbn [Instances MaxErrors MaxUnavailableZones]. intros HW Hnd HlW HF. split; [done|].
  destruct (reaches_other_zone W (z ∪ F) Hnd) as (i & HiW & Hi).
  { pose proof (size_union_alt z F) as Hu. rewrite Hu.
    assert (size (F ∖ z) ≤ size F)%nat by (apply subseteq_size; set_solver). lia. }
  exists i. split; [done|]. split; [|set_solver].
  assert (i ∈ h) as Hih.
  { rewrite Hh. apply list_elem_of_filter. split; [|by apply HW].
    destruct (healthy_now i) eqn:He; [done|]. destruct Hi. apply elem_of_union_l, Hz.
    exists i. split_and!; [by apply HW|done|done]. }
  case_bool_decide; [|done]. apply list_elem_of_filter. split; [set_solver|done].
Qed.
End replication_set.

(** ** [countTokens] *)
Definition msum (m : gmap string Z) : Z := map_fold (λ _ v acc, v + acc) 0 m.

Lemma msum_insert_new m k v : m !! k = None → msum (<[k := v]> m) = v + msum m.
Proof. intros Hk. unfold msum. rewrite map_fold_insert_L; [done|lia|done]. Qed.

Lemma msum_insert m k v : msum (<[k := v]> m) = msum m - default 0 (m !! k) + v.
Proof.
  destruct (m !! k) as [w|] eqn:Hk; simpl.
  - rewrite <- (insert_delete_id m k w Hk) at 2. rewrite <- insert_delete_eq.
    rewrite !msum_insert_new by apply lookup_delete_eq. lia.
  - rewrite msum_insert_new by done. lia.
Qed.

Lemma msum_nonneg_le m k : (∀ j w, m !! j = Some w → 0 ≤ w) → 0 ≤ msum m ∧ default 0 (m !! k) ≤ msum m.
Proof.
  revert k. induction m as [|j w m Hj IH] using map_ind; intros k Hm.
  { unfold msum. rewrite map_fold_empty, lookup_empty. simpl. lia. }
  assert (∀ j' w', m !! j' = Some w' → 0 ≤ w') as Hm'.
  { intros j' w' Hj'. apply (Hm j'). rewrite lookup_insert_ne; [done|]. intros ->. congruence. }
  assert (0 ≤ w) by (apply (Hm j); by rewrite lookup_insert_eq).
  rewrite msum_insert_new by done. destruct (IH k Hm') as [H1 H2].
  destruct (decide (k = j)) as [->|Hne].
  - rewrite lookup_insert_eq. simpl. lia.
  - rewrite lookup_insert_ne by done. lia.
Qed.

Definition valid_tokens (l : list Z) : Prop := Forall (λ t, 0 ≤ t ≤ MaxUint32) l.

(** the range of tokens still to be shared out when [l] remains *)
Definition remaining (l : list Z) (first : Z) : Z :=
  match l with [] => 0 | t :: _ => MaxUint32 - t + first end.

Lemma countTokens_loop_total l first byToken num owned :
  StronglySorted Z.le l → valid_tokens l → 0 ≤ first → (∀ t, t ∈ l → first ≤ t) →
  (∀ k v, owned !! k = Some v → 0 ≤ v) → msum owned + remaining l first ≤ MaxUint32 →
  let owned' := (countTokens_loop l first byToken num owned).2 in
  msum owned' = msum owned + remaining l first ∧ (∀ k v, owned' !! k = Some v → 0 ≤ v).
Proof.
  revert num owned. induction l as [|t l IH]; intros num owned Hs Hv Hf Hle Hpos Hsum.
  { simpl in *. split; [lia|done]. }
  cbn [countTokens_loop]. cbv zeta.
  set (id := match byToken !! t with Some info => InstanceID info | None => "" end).
  set (diff := match l with [] => _ | _ => _ end).
  apply StronglySorted_inv in Hs as [Hs Ht]. inversion_clear Hv as [|? ? Hvt Hvl].
  pose proof (Hle t ltac:(by left)) as Hft.
  assert (0 ≤ diff ∧ diff + remaining l first = remaining (t :: l) first) as [Hd Hrem].
  { unfold diff, remaining, u32, MaxUint32 in *. destruct l as [|t' l].
    - rewrite (Z.mod_small (2 ^ 32 - 1 - t)) by lia. rewrite Z.mod_small by lia. lia.
    - inversion_clear Ht. inversion_clear Hvl. rewrite Z.mod_small by lia. lia. }
  assert (0 ≤ remaining l first) as Hr.
  { destruct l as [|t' l]; simpl; [lia|]. inversion_clear Hvl. unfold MaxUint32 in *. lia. }
  destruct (msum_nonneg_le owned id Hpos) as [Hm Hid].
  assert (0 ≤ default 0 (owned !! id)) as Hid0.
  { destruct (owned !! id) as [v|] eqn:Hv; simpl; [by apply (Hpos id)|lia]. }
  assert (u32 (default 0 (owned !! id) + diff) = default 0 (owned !! id) + diff) as ->.
  { unfold u32, MaxUint32 in *. apply Z.mod_small. lia. }
  edestruct (IH (<[id := u32 (default 0 (num !! id) + 1)]> num)
    (<[id := default 0 (owned !! id) + diff]> owned)) as [-> Hpos']; try done.
  - intros t' Hin. apply Hle. by right.
  - intros k v. destruct (decide (k = id)) as [->|Hk].
    + rewrite lookup_insert_eq. intros [= <-]. lia.
    + rewrite lookup_insert_ne by done. apply Hpos.
  - rewrite msum_insert. lia.
  - rewrite msum_insert. split; [lia|done].
Qed.

Section count.
Context `{R : MapRange}.

Lemma count_zeros_spec (l : list (string * InstanceDesc)) (num owned : gmap string Z) :
  let '(num', owned') := foldl (λ '(numTokens, owned) '(id, _),
    match owned !! id with
    | Some _ => (numTokens, owned)
    | None => (<[id := 0]> numTokens, <[id := 0]> owned)
    end) (num, owned) l in
  msum owned' = msum owned ∧ ∀ k, is_Some (owned' !! k) ↔ is_Some (owned !! k) ∨ k ∈ l.*1.
Proof.
  revert num owned. induction l as [|[id i] l IH]; intros num owned; cbn [foldl].
  { split; [done|]. intros k. rewrite elem_of_nil. tauto. }
  destruct (owned !! id) as [v|] eqn:Hid.
  - specialize (IH num owned). destruct (foldl _ _ l). destruct IH as [Hm Hk]. split; [done|].
    intros k. rewrite Hk, fmap_cons, elem_of_cons. simpl. split; [tauto|].
    intros [?|[->|?]]; [tauto|left; eauto|tauto].
  - specialize (IH (<[id := 0]> num) (<[id := 0]> owned)). destruct (foldl _ _ l).
    destruct IH as [Hm Hk]. split; [rewrite Hm, msum_insert, Hid; simpl; lia|].
    intros k. rewrite Hk, fmap_cons, elem_of_cons. simpl. destruct (decide (k = id)) as [->|Hne].
    + rewrite lookup_insert_eq. split; [tauto|]. eauto.
    + rewrite lookup_insert_ne by done. tauto.
Qed.

(** [countTokens] shares out the whole token range: on a ring with tokens
    the ranges owned by the instances add up to exactly [MaxUint32], no [uint32]
    sum wrapping around on the way, and every instance of the ring is counted,
    those without tokens for nothing. *)
Theorem countTokens_total (r : subring) :
  ring_ok r → ringTokens r ≠ [] → valid_tokens (ringTokens r) →
  msum (countTokens r).2 = MaxUint32 ∧
  ∀ k, is_Some (Ingesters (ringDesc r) !! k) → is_Some ((countTokens r).2 !! k).
Proof.
  intros Hok Hne Hv. unfold countTokens.
  destruct (countTokens_loop_total (ringTokens r) (default 0 (head (ringTokens r)))
    (ringInstanceByToken r) ∅ ∅) as [Hsum _].
  - apply Hok.
  - done.
  - destruct (ringTokens r); [done|]. inversion_clear Hv. simpl. lia.
  - intros t Ht. pose proof (ok_sorted r Hok) as Hs. destruct (ringTokens r) as [|t0 l]; [done|].
    simpl. by apply (StronglySorted_le_head t0 l).
  - done.
  - unfold msum. rewrite map_fold_empty. destruct (ringTokens r); [done|]. simpl. lia.
  - destruct (countTokens_loop _ _ _ _ _) as [num owned]. cbn [snd] in Hsum.
    pose proof (count_zeros_spec (map_range 548 (Ingesters (ringDesc r))) num owned) as Hz.
    destruct (foldl _ _ _) as [num' owned']. cbn [snd]. destruct Hz as [-> Hk].
    rewrite Hsum. split.
    + unfold msum. rewrite map_fold_empty. destruct (ringTokens r); [done|]. simpl. lia.
    + intros k [i Hi]. apply Hk. right. apply list_elem_of_fmap. exists (k, i).
      by rewrite map_range_elem.
Qed.
End count.

(** ** Witnesses *)
#[local] Existing Instance map_range_std.

Lemma ex_updated_ok za : ring_ok (sub (ex_updated za)).
Proof. exact (proj1 (updateRingState_inv _ _ _ _ (ex_Ring_ok za))). Qed.

Definition ex_read_set (za : bool) : ReplicationSet :=
  match GetReplicationSetForOperation (sub (ex_updated za)) Reporting (110 * Second) with
  | Ok rs => rs
  | Err _ => mkReplicationSet [] 0 0
  end.

Lemma GetReplicationSet_covers_quorum_witness :
  MaxErrors (ex_read_set false) = 1 ∧
  ∃ i, i ∈ take 2 (all_instances (sub (ex_updated false))) ∧ i ∈ drop 1 (Instances (ex_read_set false)).
Proof.
  split; [vm_compute; reflexivity|].
  assert (GetReplicationSetForOperation (sub (ex_updated false)) Reporting (110 * Second)
          = Ok (ex_read_set false)) as Hrs by (vm_compute; reflexivity).
  refine (proj2 (proj2 (GetReplicationSet_covers_quorum (sub (ex_updated false)) Reporting (110 * Second)
    (ex_read_set false) (take 2 (all_instances (sub (ex_updated false))))
    (drop 1 (Instances (ex_read_set false))) _ Hrs _ _ _ _))).
  - reflexivity.
  - apply sublist_submseteq, sublist_take.
  - vm_compute. discriminate.
  - apply sublist_submseteq, sublist_drop.
  - vm_compute. discriminate.
Defined.

Definition ex_write_quorum : list InstanceDesc :=
  filter (λ i, Addr i = "addr-a" ∨ Addr i = "addr-b") (all_instances (sub (ex_updated true))).

Lemma GetReplicationSet_covers_zones_witness :
  MaxUnavailableZones (ex_read_set true) = 1 ∧
  MaxErrors (ex_read_set true) = 0 ∧
  ∃ i, i ∈ ex_write_quorum ∧ i ∈ Instances (ex_read_set true) ∧ Zone i ∉ ({["z1"]} : gset string).
Proof.
  split; [vm_compute; reflexivity|].
  assert (GetReplicationSetForOperation (sub (ex_updated true)) Reporting (110 * Second)
          = Ok (ex_read_set true)) as Hrs by (vm_compute; reflexivity).
  apply (GetReplicationSet_covers_zones (sub (ex_updated true)) Reporting (110 * Second)
    (ex_read_set true) ex_write_quorum {["z1"]}).
  - reflexivity.
  - vm_compute. discriminate.
  - exact Hrs.
  - intros i Hi. by apply list_elem_of_filter in Hi as [_ Hi].
  - apply (bool_decide_eq_true_1 (NoDup (Zone <$> ex_write_quorum))). vm_compute. reflexivity.
  - vm_compute. discriminate.
  - vm_compute. discriminate.
Defined.

Lemma countTokens_total_witness :
  ringTokens (sub (ex_updated true)) ≠ [] ∧ msum (countTokens (sub (ex_updated true))).2 = MaxUint32 ∧
  (countTokens (sub (ex_updated true))).2 !! "e" = Some 0.
Proof.
  split; [vm_compute; discriminate|]. split; [|vm_compute; reflexivity].
  refine (proj1 (countTokens_total (sub (ex_updated true)) (ex_updated_ok true) _ _)).
  - vm_compute. discriminate.
  - apply (bool_decide_eq_true_1 (Forall (λ t, 0 ≤ t ≤ MaxUint32) (ringTokens (sub (ex_updated true))))).
    vm_compute. reflexivity.
Defined.
