(* ===== verification/Shuffle.v ===== *)
(** * Shuffle sharding: the subrings of [ring/ring.go]

    [shuffleShard] builds a subring by walking the ring from pseudo-random
    tokens; [ShuffleShard] caches it per identifier and size, and a cache hit
    refreshes the states and timestamps of the cached subring. *)
From Stdlib Require Import ZArith Lia Ascii String.
From stdpp Require Import base gmap strings list sorting fin_maps relations.
From S2P Require Import Prelude Model Ring.

(** ** [ring/shard/shard.go] *)
Definition bytes (s : string) : list Z := (Z.of_nat ∘ nat_of_ascii) <$> list_ascii_of_string s.

(** [binary.BigEndian.Uint64], and the conversion to [int64] *)
Definition BigEndian_Uint64 (b : list Z) : Z :=
  foldl (λ acc x, Z.lor (Z.shiftl acc 8) x) 0 (take 8 b).
Definition int64 (z : Z) : Z :=
  let z := z mod 2 ^ 64 in if bool_decide (z < 2 ^ 63) then z else z - 2 ^ 64.

Definition seedSeparator : list Z := [0].
Definition ShuffleShardSeed `{RandSource} (identifier zone : string) : Z :=
  let data := if bool_decide (zone ≠ "")
              then bytes identifier ++ seedSeparator ++ bytes zone else bytes identifier in
  int64 (BigEndian_Uint64 (md5_Sum data)).

(** the ceiling of the quotient; exact in floating point for shard sizes below
    2^53 *)
Definition ShuffleShardExpectedInstancesPerZone (shardSize numZones : Z) : Z :=
  - (- shardSize / numZones).
Definition ShuffleShardExpectedInstances (shardSize numZones : Z) : Z :=
  ShuffleShardExpectedInstancesPerZone shardSize numZones * numZones.

Section shuffle.
Context `{!MapRange} `{!RandSource}.

(** The walk from one random token: [None] is the panic on inconsistent tokens;
    the boolean is [found]. *)
Fixpoint shard_walk (iterations p : nat) (r : subring) (tokens : list Z)
    (lookbackPeriod lookbackUntil : Z) (shard : gmap string InstanceDesc)
    : option (gmap string InstanceDesc * bool) :=
  match iterations with
  | O => Some (shard, false)
  | S iterations =>
      let p := (p mod length tokens)%nat in
      match ringInstanceByToken r !! default 0 (tokens !! p) with
      | None => None
      | Some info =>
          match shard !! InstanceID info with
          | Some _ => shard_walk iterations (S p) r tokens lookbackPeriod lookbackUntil shard
          | None =>
              let instanceID := InstanceID info in
              let instance := ingester (ringDesc r) instanceID in
              let shard := <[instanceID := instance]> shard in
              if bool_decide (0 < lookbackPeriod)
                 && bool_decide (lookbackUntil ≤ RegisteredTimestamp instance)
              then shard_walk iterations (S p) r tokens lookbackPeriod lookbackUntil shard
              else Some (shard, true)
          end
      end
  end.

(** the picks in one zone: [n] rounds, the [i]th one drawing the [i]th number *)
Fixpoint shard_zone (n i : nat) (random : nat → Z) (r : subring) (tokens : list Z)
    (lookbackPeriod lookbackUntil : Z) (shard : gmap string InstanceDesc)
    : option (gmap string InstanceDesc) :=
  match n with
  | O => Some shard
  | S n =>
      match shard_walk (length tokens) (searchToken tokens (random i)) r tokens
              lookbackPeriod lookbackUntil shard with
      | None => None
      | Some (shard, false) => Some shard
      | Some (shard, true) => shard_zone n (S i) random r tokens lookbackPeriod lookbackUntil shard
      end
  end.

Fixpoint shard_zones (zones : list string) (n : nat) (identifier : string) (r : subring)
    (lookbackPeriod lookbackUntil : Z) (shard : gmap string InstanceDesc)
    : option (gmap string InstanceDesc) :=
  match zones with
  | [] => Some shard
  | zone :: zones =>
      let tokens := if ZoneAwarenessEnabled (cfg r)
                    then default [] (ringTokensByZone r !! zone) else ringTokens r in
      match shard_zone n 0 (rand_Uint32 (ShuffleShardSeed identifier zone)) r tokens
              lookbackPeriod lookbackUntil shard with
      | None => None
      | Some shard => shard_zones zones n identifier r lookbackPeriod lookbackUntil shard
      end
  end.

(** the subring holding the selected instances *)
Definition subring_of (r : subring) (shard : gmap string InstanceDesc) : subring :=
  let shardDesc := mkDesc shard in
  let '(shardDesc, shardTokensByZone) := getTokensByZone shardDesc in
  let '(shardDesc, tokens) := GetTokens shardDesc in
  mkSubring (cfg r) (strategy r) shardDesc tokens shardTokensByZone (ringInstanceByToken r)
    (lastTopologyChange r) (getZones shardTokensByZone).

Definition shuffleShard (r : subring) (identifier : string) (size lookbackPeriod now : Z)
    : option subring :=
  let lookbackUntil := time_Unix (now - lookbackPeriod) in
  let '(numInstancesPerZone, actualZones) :=
    if ZoneAwarenessEnabled (cfg r)
    then (ShuffleShardExpectedInstancesPerZone size (Z.of_nat (length (ringZones r))), ringZones r)
    else (size, [""]) in
  subring_of r <$>
    shard_zones actualZones (Z.to_nat numInstancesPerZone) identifier r lookbackPeriod lookbackUntil ∅.

(** ** The cache *)
(** A cache hit updates the cached subring in place: states and timestamps are
    those of the ring now. *)
Definition refresh_instance (d : Desc) (name : string) (cachedIng : InstanceDesc) : InstanceDesc :=
  let ing := ingester d name in set_Timestamp (Timestamp ing) (set_State (State ing) cachedIng).
Definition getCachedShuffledSubring (identifier : string) (size : Z) (r : Ring)
    : Ring * option subring :=
  if SubringCacheDisabled (cfg (sub r)) then (r, None)
  else
    match shuffledSubringCache r with
    | None => (r, None)
    | Some cache =>
        match cache !! (identifier, size) with
        | None => (r, None)
        | Some cached =>
            let ingesters :=
              foldl (λ m '(name, cachedIng),
                <[name := refresh_instance (ringDesc (sub r)) name cachedIng]> m)
                (Ingesters (ringDesc cached)) (map_range 815 (Ingesters (ringDesc cached))) in
            let cached := set_ringDesc (mkDesc ingesters) cached in
            (mkRing (sub r) (Some (<[(identifier, size) := cached]> cache)) (reportedOwners r) (metrics r),
             Some cached)
        end
    end.

Definition setCachedShuffledSubring (identifier : string) (size : Z) (s : subring) (r : Ring) : Ring :=
  if SubringCacheDisabled (cfg (sub r)) then r
  else
    match shuffledSubringCache r with
    | Some cache =>
        if bool_decide (lastTopologyChange (sub r) = lastTopologyChange s)
        then mkRing (sub r) (Some (<[(identifier, size) := s]> cache)) (reportedOwners r) (metrics r)
        else r
    | None => r
    end.

Definition CleanupShuffleShardCache (identifier : string) (r : Ring) : Ring :=
  if SubringCacheDisabled (cfg (sub r)) then r
  else
    mkRing (sub r)
      ((λ cache, foldl (λ m '(k, _), if bool_decide (k.1 = identifier) then delete k m else m)
          cache (map_range 848 cache)) <$> shuffledSubringCache r)
      (reportedOwners r) (metrics r).

(** ** [ShuffleShard] *)
(** the [ReadRing] returned: the ring itself, or a subring *)
Inductive ReadRing := WholeRing | SubRing (s : subring).

(** The part before the cache is filled: the answer, and the subring to put in the
    cache, if one was computed.  [None] is the panic of [shuffleShard]. *)
Definition ShuffleShard_lookup (identifier : string) (sz : Z) (now : Z) (r : Ring)
    : option (Ring * ReadRing * option subring) :=
  if bool_decide (sz ≤ 0) || bool_decide (Z.of_nat (InstancesCount (sub r)) ≤ sz)
  then Some (r, WholeRing, None)
  else
    match getCachedShuffledSubring identifier sz r with
    | (r, Some cached) => Some (r, SubRing cached, None)
    | (r, None) =>
        result ← shuffleShard (sub r) identifier sz 0 now;
        Some (r, SubRing result, Some result)
    end.

(** the whole method, when no other goroutine uses the ring meanwhile *)
Definition ShuffleShard (identifier : string) (sz : Z) (now : Z) (r : Ring)
    : option (Ring * ReadRing) :=
  '(r, res, computed) ← ShuffleShard_lookup identifier sz now r;
  Some (match computed with
        | Some s => setCachedShuffledSubring identifier sz s r
        | None => r
        end, res).

Definition ShuffleShardWithLookback (r : subring) (identifier : string) (sz lookbackPeriod now : Z)
    : option ReadRing :=
  if bool_decide (sz ≤ 0) || bool_decide (Z.of_nat (InstancesCount r) ≤ sz)
  then Some WholeRing
  else SubRing <$> shuffleShard r identifier sz lookbackPeriod now.
End shuffle.
