(* ===== verification/ShuffleFacts.v ===== *)
(** * What the shuffle-sharded subrings guarantee

    The selection of [shuffleShard] as a function on sets of names, the size of
    a shard, and how shards of the same identifier include one another. *)
From Stdlib Require Import ZArith Lia.
From stdpp Require Import base gmap strings list sorting fin_maps relations.
From S2P Require Import Prelude Model ModelFacts ResolveFacts Ring RingFacts GetFacts Shuffle.

(** ** The selection on sets of names *)
(** one walk: [recent] instances are taken along, the first other one ends it *)
Fixpoint pick (recent : string → bool) (ids : list string) (s : gset string) : gset string * bool :=
  match ids with
  | [] => (s, false)
  | id :: ids =>
      if decide (id ∈ s) then pick recent ids s
      else if recent id then pick recent ids ({[id]} ∪ s) else ({[id]} ∪ s, true)
  end.

(** the rounds in one zone; [walk i] is the sequence visited by the [i]th *)
Fixpoint pick_rounds (recent : string → bool) (walk : nat → list string) (n i : nat) (s : gset string)
    : gset string :=
  match n with
  | O => s
  | S n =>
      match pick recent (walk i) s with
      | (s, false) => s
      | (s, true) => pick_rounds recent walk n (S i) s
      end
  end.

Lemma pick_extends recent ids s : s ⊆ (pick recent ids s).1.
Proof.
  revert s. induction ids as [|id ids IH]; intros s; simpl; [done|].
  case_decide; [done|]. case_if; simpl; [|set_solver]. etrans; [|apply IH]. set_solver.
Qed.
Lemma pick_within recent ids s : (pick recent ids s).1 ⊆ s ∪ list_to_set ids.
Proof.
  revert s. induction ids as [|id ids IH]; intros s; simpl; [set_solver|].
  case_decide; [etrans; [apply IH|]; set_solver|].
  case_if; simpl; [etrans; [apply IH|]; set_solver|set_solver].
Qed.
(** a walk that ends without an instance has seen that all are selected *)
Lemma pick_exhausted recent ids s : (pick recent ids s).2 = false → list_to_set ids ⊆ (pick recent ids s).1.
Proof.
  revert s. induction ids as [|id ids IH]; intros s; simpl; [set_solver|].
  case_decide.
  - intros Hp%IH. pose proof (pick_extends recent ids s). set_solver.
  - case_if; simpl; [|done]. intros Hp%IH. pose proof (pick_extends recent ids ({[id]} ∪ s)). set_solver.
Qed.

Lemma pick_mono (recent1 recent2 : string → bool) ids s1 s2 :
  (∀ id, recent1 id = true → recent2 id = true) → s1 ⊆ s2 →
  (pick recent1 ids s1).1 ⊆ (pick recent2 ids s2).1.
Proof.
  intros Hrec. revert s1 s2. induction ids as [|id ids IH]; intros s1 s2 Hs; simpl; [done|].
  destruct (decide (id ∈ s1)); destruct (decide (id ∈ s2)).
  - by apply IH.
  - set_solver.
  - destruct (recent1 id); simpl; [apply IH; set_solver|].
    pose proof (pick_extends recent2 ids s2). set_solver.
  - destruct (recent1 id) eqn:H1; simpl.
    + rewrite (Hrec _ H1). apply IH. set_solver.
    + destruct (recent2 id); simpl; [|set_solver].
      pose proof (pick_extends recent2 ids ({[id]} ∪ s2)). set_solver.
Qed.

Lemma pick_rounds_extends recent walk n i s : s ⊆ pick_rounds recent walk n i s.
Proof.
  revert i s. induction n as [|n IH]; intros i s; simpl; [done|].
  pose proof (pick_extends recent (walk i) s) as He. destruct (pick _ _ _) as [s' []]; simpl in *; [|done].
  by etrans.
Qed.

Section rounds.
Context (walk : nat → list string) (zone : gset string).
(** every walk visits the same instances *)
Context (Hwalk : ∀ i, list_to_set (walk i) = zone).

Lemma pick_rounds_within recent n i s : pick_rounds recent walk n i s ⊆ s ∪ zone.
Proof.
  revert i s. induction n as [|n IH]; intros i s; simpl; [set_solver|].
  pose proof (pick_within recent (walk i) s) as Hw. rewrite Hwalk in Hw.
  destruct (pick _ _ _) as [s' []]; simpl in *; [|done]. etrans; [apply IH|]. set_solver.
Qed.

Lemma pick_rounds_mono (recent1 recent2 : string → bool) n m i s1 s2 :
  (∀ id, recent1 id = true → recent2 id = true) → (n ≤ m)%nat → s1 ⊆ s2 →
  pick_rounds recent1 walk n i s1 ⊆ pick_rounds recent2 walk m i s2.
Proof.
  intros Hrec. revert m i s1 s2. induction n as [|n IH]; intros m i s1 s2 Hnm Hs; simpl.
  { etrans; [done|]. apply pick_rounds_extends. }
  destruct m as [|m]; [lia|]. simpl.
  pose proof (pick_mono recent1 recent2 (walk i) s1 s2 Hrec Hs) as Hp.
  pose proof (pick_exhausted recent2 (walk i) s2) as Hex.
  destruct (pick recent1 (walk i) s1) as [s1' []], (pick recent2 (walk i) s2) as [s2' []]; simpl in *.
  - apply IH; [lia|done].
  - specialize (Hex eq_refl). rewrite Hwalk in Hex.
    etrans; [apply pick_rounds_within|]. set_solver.
  - etrans; [done|]. apply pick_rounds_extends.
  - done.
Qed.

(** without lookback a successful round selects one instance *)
Lemma pick_one ids s :
  ((pick (λ _, false) ids s).2 = true ∧
   ∃ id, id ∈ ids ∧ id ∉ s ∧ (pick (λ _, false) ids s).1 = {[id]} ∪ s) ∨
  ((pick (λ _, false) ids s).2 = false ∧ (pick (λ _, false) ids s).1 = s).
Proof.
  induction ids as [|id ids IH]; simpl; [by right|]. case_decide.
  - destruct IH as [(? & id' & ? & ? & ?)|?]; [left|by right]. split; [done|]. exists id'.
    by rewrite elem_of_cons; auto.
  - left. split; [done|]. exists id. rewrite elem_of_cons. auto.
Qed.

Lemma pick_rounds_size n i s :
  size (pick_rounds (λ _, false) walk n i s ∩ zone)
  = (size (s ∩ zone) + min n (size (zone ∖ s)))%nat ∧
  pick_rounds (λ _, false) walk n i s ∖ zone = s ∖ zone.
Proof.
  revert i s. induction n as [|n IH]; intros i s; cbn [pick_rounds]; [split; [lia|done]|].
  pose proof (pick_one (walk i) s) as Hone. pose proof (pick_exhausted (λ _, false) (walk i) s) as Hex.
  destruct (pick _ _ _) as [s' found]. simpl in *.
  destruct Hone as [(-> & id & Hid & Hns & ->)|[-> ->]].
  - assert (id ∈ zone) as Hz by (rewrite <- (Hwalk i); by apply elem_of_list_to_set).
    destruct (IH (S i) ({[id]} ∪ s)) as [-> ->]. split; [|set_solver].
    assert (({[id]} ∪ s) ∩ zone = {[id]} ∪ (s ∩ zone)) as -> by set_solver.
    rewrite size_union, size_singleton by set_solver.
    assert (zone ∖ ({[id]} ∪ s) = (zone ∖ s) ∖ {[id]}) as -> by set_solver.
    rewrite (size_difference (zone ∖ s) {[id]}), size_singleton by set_solver.
    assert (size (zone ∖ s) ≠ 0)%nat as Hne by (intros H0%size_empty_inv; set_solver).
    destruct (size (zone ∖ s)) as [|m]; [done|]. simpl. rewrite Nat.sub_0_r. lia.
  - specialize (Hex eq_refl). rewrite Hwalk in Hex. split; [|done].
    assert (zone ∖ s = ∅) as -> by set_solver. rewrite size_empty. lia.
Qed.
End rounds.

(** ** [shuffleShard] computes that selection *)
Section shard.
Context `{R : MapRange} `{Rnd : RandSource} (r : subring).

Definition owner_name (t : Z) : string :=
  match ringInstanceByToken r !! t with Some info => InstanceID info | None => "" end.

(** the selected instances, as the ring knows them *)
Definition to_shard (s : gset string) : gmap string InstanceDesc :=
  set_to_map (λ id, (id, ingester (ringDesc r) id)) s.

Lemma to_shard_lookup s id :
  to_shard s !! id = if decide (id ∈ s) then Some (ingester (ringDesc r) id) else None.
Proof.
  apply option_eq. intros i. unfold to_shard. rewrite lookup_set_to_map by naive_solver.
  case_decide; split.
  - intros (y & Hy & [= <- <-]). done.
  - intros [= <-]. eauto.
  - intros (y & Hy & [= <- _]). done.
  - done.
Qed.

Lemma to_shard_insert s id :
  <[id := ingester (ringDesc r) id]> (to_shard s) = to_shard ({[id]} ∪ s).
Proof.
  apply map_eq. intros j. rewrite to_shard_lookup. destruct (decide (j = id)) as [->|Hj].
  - rewrite lookup_insert_eq, decide_True; [done|set_solver].
  - rewrite lookup_insert_ne, to_shard_lookup by done. case_decide; case_decide; set_solver.
Qed.

Definition recent (lookbackPeriod lookbackUntil : Z) (id : string) : bool :=
  bool_decide (0 < lookbackPeriod) &&
  bool_decide (lookbackUntil ≤ RegisteredTimestamp (ingester (ringDesc r) id)).

Definition walk_of (tokens : list Z) (start k : nat) : list string :=
  owner_name <$> (token_at tokens <$> seq start k).

Lemma token_at_in tokens j : tokens ≠ [] → token_at tokens j ∈ tokens.
Proof.
  intros Hne. unfold token_at.
  destruct (lookup_lt_is_Some_2 tokens (j mod length tokens)) as [t Ht].
  { apply Nat.mod_upper_bound. by destruct tokens. }
  rewrite Ht. by eapply list_elem_of_lookup_2.
Qed.

Definition owned_tokens (tokens : list Z) : Prop :=
  ∀ t, t ∈ tokens → is_Some (ringInstanceByToken r !! t).

Lemma shard_walk_pick k p tokens lb un s :
  owned_tokens tokens → tokens ≠ [] →
  shard_walk k p r tokens lb un (to_shard s)
  = let '(s', found) := pick (recent lb un) (walk_of tokens p k) s in Some (to_shard s', found).
Proof.
  intros Hown Hne. revert p s. induction k as [|k IH]; intros p s; [done|].
  cbn [shard_walk]. unfold walk_of in *. cbn [seq fmap list_fmap pick].
  assert (∀ s', shard_walk k (S (p mod length tokens)) r tokens lb un (to_shard s')
    = let '(s', found) := pick (recent lb un) (owner_name <$> (token_at tokens <$> seq (S p) k)) s' in
      Some (to_shard s', found)) as IH' by (intros s'; by rewrite IH, token_at_next).
  destruct (Hown (token_at tokens p) (token_at_in tokens p Hne)) as [info Hinfo].
  fold (token_at tokens p). assert (owner_name (token_at tokens p) = InstanceID info) as ->
    by (unfold owner_name; by rewrite Hinfo). rewrite Hinfo.
  rewrite to_shard_lookup. destruct (decide (InstanceID info ∈ s)) as [Hin|Hin]; [apply IH'|].
  rewrite to_shard_insert. fold (recent lb un (InstanceID info)).
  destruct (recent lb un (InstanceID info)); [apply IH'|done].
Qed.

(** the sequence visited by the [i]th round of a zone *)
Definition zone_walk (tokens : list Z) (random : nat → Z) (i : nat) : list string :=
  walk_of tokens (searchToken tokens (random i)) (length tokens).

Lemma shard_zone_rounds n i random tokens lb un s :
  owned_tokens tokens →
  shard_zone n i random r tokens lb un (to_shard s)
  = Some (to_shard (pick_rounds (recent lb un) (zone_walk tokens random) n i s)).
Proof.
  intros Hown. revert i s. induction n as [|n IH]; intros i s; [done|].
  cbn [shard_zone pick_rounds]. unfold zone_walk at 1.
  destruct tokens as [|t ts] eqn:Ht; [done|]. rewrite <- Ht in *.
  rewrite shard_walk_pick by (done || by rewrite Ht).
  destruct (pick _ _ _) as [s' []]; [apply IH|done].
Qed.

Lemma zone_walk_set tokens random i :
  list_to_set (zone_walk tokens random i) = (list_to_set (owner_name <$> tokens) : gset string).
Proof.
  unfold zone_walk, walk_of. destruct (decide (tokens = [])) as [->|Hne]; [done|].
  apply set_eq. intros id. rewrite !elem_of_list_to_set, !list_elem_of_fmap.
  setoid_rewrite token_at_elem; [done|]. by apply searchToken_lt.
Qed.

Definition zone_tokens (zone : string) : list Z :=
  if ZoneAwarenessEnabled (cfg r) then default [] (ringTokensByZone r !! zone) else ringTokens r.
Definition zone_names (zone : string) : gset string := list_to_set (owner_name <$> zone_tokens zone).

Fixpoint pick_zones (rc : string → bool) (zones : list string) (n : nat) (identifier : string)
    (s : gset string) : gset string :=
  match zones with
  | [] => s
  | zone :: zones =>
      pick_zones rc zones n identifier
        (pick_rounds rc (zone_walk (zone_tokens zone) (rand_Uint32 (ShuffleShardSeed identifier zone))) n 0 s)
  end.

Lemma shard_zones_pick zones n identifier lb un s :
  (∀ z, owned_tokens (zone_tokens z)) →
  shard_zones zones n identifier r lb un (to_shard s)
  = Some (to_shard (pick_zones (recent lb un) zones n identifier s)).
Proof.
  intros Hown. revert s. induction zones as [|z zones IH]; intros s; [done|].
  cbn [shard_zones pick_zones]. fold (zone_tokens z). rewrite shard_zone_rounds by done. apply IH.
Qed.

Definition shard_zones_list : list string := if ZoneAwarenessEnabled (cfg r) then ringZones r else [""].
Definition instances_per_zone (size : Z) : nat :=
  Z.to_nat (if ZoneAwarenessEnabled (cfg r)
            then ShuffleShardExpectedInstancesPerZone size (Z.of_nat (length (ringZones r))) else size).
Definition selected (identifier : string) (size lb now : Z) : gset string :=
  pick_zones (recent lb (time_Unix (now - lb))) shard_zones_list (instances_per_zone size) identifier ∅.

Lemma zone_tokens_owned z : ring_ok r → owned_tokens (zone_tokens z).
Proof.
  intros Hok t. unfold zone_tokens. intros Ht.
  assert (t ∈ ringTokens r) as Hin.
  { destruct (ZoneAwarenessEnabled (cfg r)); [|done].
    apply (ok_byzone r Hok) in Ht as (k & i & Hk & _ & Ht). apply (ok_tokens r Hok). eauto. }
  destruct (ok_owner r Hok t Hin) as (info & _ & Hinfo & _). eauto.
Qed.

Lemma to_shard_empty : to_shard ∅ = ∅.
Proof. apply map_eq. intros id. by rewrite to_shard_lookup, lookup_empty. Qed.

Lemma shuffleShard_selected identifier size lb now :
  ring_ok r →
  shuffleShard r identifier size lb now = Some (subring_of r (to_shard (selected identifier size lb now))).
Proof.
  intros Hok. unfold shuffleShard, selected, shard_zones_list, instances_per_zone. cbv zeta.
  destruct (ZoneAwarenessEnabled (cfg r)); rewrite <- to_shard_empty;
    rewrite shard_zones_pick by (intros; by apply zone_tokens_owned); done.
Qed.
End shard.

(** ** Theorems *)
Section theorems.
Context `{R : MapRange} `{Rnd : RandSource}.
Implicit Types r : subring.

Lemma recent_mono r lb1 lb2 now id :
  lb1 ≤ lb2 → recent r lb1 (time_Unix (now - lb1)) id = true → recent r lb2 (time_Unix (now - lb2)) id = true.
Proof.
  intros Hle. unfold recent. rewrite !andb_true_iff, !bool_decide_eq_true. intros [H1 H2].
  split; [lia|]. etrans; [|exact H2]. unfold time_Unix. apply Z.div_le_mono; unfold Second; lia.
Qed.

Lemma expected_mono a b n : 0 ≤ n → a ≤ b →
  ShuffleShardExpectedInstancesPerZone a n ≤ ShuffleShardExpectedInstancesPerZone b n.
Proof.
  intros Hn Hab. unfold ShuffleShardExpectedInstancesPerZone.
  destruct (decide (n = 0)) as [->|]; [by rewrite !Zdiv_0_r|].
  assert (- b / n ≤ - a / n) by (apply Z.div_le_mono; lia). lia.
Qed.

Lemma pick_zones_mono r rc1 rc2 zones n m identifier s1 s2 :
  (∀ id, rc1 id = true → rc2 id = true) → (n ≤ m)%nat → s1 ⊆ s2 →
  pick_zones r rc1 zones n identifier s1 ⊆ pick_zones r rc2 zones m identifier s2.
Proof.
  intros Hrc Hnm. revert s1 s2. induction zones as [|z zones IH]; intros s1 s2 Hs; [done|].
  cbn [pick_zones]. apply IH.
  apply (pick_rounds_mono _ (zone_names r z) (λ i, zone_walk_set r _ _ i)); done.
Qed.

Lemma selected_mono r identifier sz1 sz2 lb1 lb2 now :
  sz1 ≤ sz2 → lb1 ≤ lb2 → selected r identifier sz1 lb1 now ⊆ selected r identifier sz2 lb2 now.
Proof.
  intros Hsz Hlb. unfold selected. apply pick_zones_mono; [|unfold instances_per_zone|done].
  - intros id. by apply recent_mono.
  - destruct (ZoneAwarenessEnabled (cfg r)); [|lia].
    pose proof (expected_mono sz1 sz2 (Z.of_nat (length (ringZones r))) ltac:(lia) Hsz). lia.
Qed.

Lemma subring_of_desc r shard : ringDesc (subring_of r shard) = sorted_desc (mkDesc shard).
Proof.
  unfold subring_of. pose proof (getTokensByZone_desc (mkDesc shard)) as Hd.
  destruct (getTokensByZone (mkDesc shard)) as [d1 bz]. simpl in Hd. subst d1.
  rewrite GetTokens_spec. simpl. apply sorted_desc_idem.
Qed.

(** C18. Growing a shard: for the same identifier, ring and time, a shard of a
    larger size or with a longer lookback contains every instance of the smaller
    one.  In particular the shard with lookback contains the shard without, and
    a tenant whose shard size grows keeps its instances; and no call panics. *)
Theorem shuffleShard_monotone r identifier sz1 sz2 lb1 lb2 now :
  ring_ok r → sz1 ≤ sz2 → lb1 ≤ lb2 →
  ∃ s1 s2, shuffleShard r identifier sz1 lb1 now = Some s1 ∧
           shuffleShard r identifier sz2 lb2 now = Some s2 ∧
           Ingesters (ringDesc s1) ⊆ Ingesters (ringDesc s2).
Proof.
  intros Hok Hsz Hlb. do 2 eexists. split; [by apply shuffleShard_selected|].
  split; [by apply shuffleShard_selected|]. rewrite !subring_of_desc. cbn [sorted_desc Ingesters].
  apply map_fmap_mono, map_subseteq_spec. intros id i. rewrite !to_shard_lookup.
  pose proof (selected_mono r identifier sz1 sz2 lb1 lb2 now Hsz Hlb).
  case_decide; [|done]. by rewrite decide_True by set_solver.
Qed.

(** *** The size of a shard *)
Lemma owner_of r t k i :
  ring_ok r → conflict_free (Ingesters (ringDesc r)) →
  Ingesters (ringDesc r) !! k = Some i → t ∈ Tokens i → owner_name r t = k.
Proof.
  intros Hok Hcf Hk Ht.
  destruct (ok_owner r Hok t) as (info & i' & Hinfo & Hi' & _ & Ht').
  { apply (ok_tokens r Hok). eauto. }
  unfold owner_name. rewrite Hinfo. by apply (Hcf _ _ i' i t).
Qed.

(** the instances a zone can give: those with tokens (in the zone) *)
Definition candidate r (zone : string) (i : InstanceDesc) : Prop :=
  Tokens i ≠ [] ∧ (ZoneAwarenessEnabled (cfg r) = true → Zone i = zone).
#[export] Instance candidate_dec r zone i : Decision (candidate r zone i).
Proof. unfold candidate. apply _. Defined.

Lemma zone_names_spec r zone id :
  ring_ok r → conflict_free (Ingesters (ringDesc r)) →
  id ∈ zone_names r zone ↔ ∃ i, Ingesters (ringDesc r) !! id = Some i ∧ candidate r zone i.
Proof.
  intros Hok Hcf. unfold zone_names. rewrite elem_of_list_to_set, list_elem_of_fmap.
  assert (∀ t, t ∈ zone_tokens r zone ↔ ∃ k i, Ingesters (ringDesc r) !! k = Some i ∧
    (ZoneAwarenessEnabled (cfg r) = true → Zone i = zone) ∧ t ∈ Tokens i) as Hzt.
  { intros t. unfold zone_tokens. destruct (ZoneAwarenessEnabled (cfg r)).
    - rewrite (proj2 (ok_byzone r Hok zone)). naive_solver.
    - rewrite (ok_tokens r Hok). naive_solver. }
  setoid_rewrite Hzt. split.
  - intros (t & -> & (k & i & Hk & Hz & Ht)). rewrite (owner_of r t k i) by done.
    exists i. split; [done|]. split; [by intros He; rewrite He in Ht; apply elem_of_nil in Ht|done].
  - intros (i & Hi & Hne & Hz). destruct (Tokens i) as [|t ts] eqn:Hts; [done|].
    exists t. split.
    + symmetry. apply (owner_of r t id i); [done|done|done|]. rewrite Hts. by left.
    + exists id, i. rewrite Hts. split; [done|]. split; [done|by left].
Qed.

Lemma zone_names_disjoint r z1 z2 :
  ring_ok r → conflict_free (Ingesters (ringDesc r)) → z1 ≠ z2 →
  ZoneAwarenessEnabled (cfg r) = true → zone_names r z1 ## zone_names r z2.
Proof.
  intros Hok Hcf Hne Hza id H1 H2. apply zone_names_spec in H1 as (i1 & Hi1 & _ & Hz1); [|done..].
  apply zone_names_spec in H2 as (i2 & Hi2 & _ & Hz2); [|done..].
  rewrite Hi1 in Hi2. injection Hi2 as <-. rewrite Hz1 in Hz2 by done. by specialize (Hz2 Hza).
Qed.

Lemma pick_zones_size r zones n identifier s :
  (∀ z1 z2, z1 ∈ zones → z2 ∈ zones → z1 ≠ z2 → zone_names r z1 ## zone_names r z2) → NoDup zones →
  (∀ z, z ∈ zones → s ∩ zone_names r z = ∅) →
  let res := pick_zones r (λ _, false) zones n identifier s in
  (∀ z, z ∈ zones → size (res ∩ zone_names r z) = min n (size (zone_names r z))) ∧
  (∀ x : gset string, (∀ z, z ∈ zones → x ## zone_names r z) → res ∩ x = s ∩ x) ∧
  (∀ id, id ∈ res → id ∈ s ∨ ∃ z, z ∈ zones ∧ id ∈ zone_names r z).
Proof.
  revert s. induction zones as [|z0 zones IH]; intros s Hdisj Hnd Hs; cbn [pick_zones].
  { split; [by intros z ?%elem_of_nil|]. split; [done|]. by left. }
  inversion_clear Hnd as [|? ? Hni Hnd'].
  pose proof (λ i, zone_walk_set r (zone_tokens r z0) (rand_Uint32 (ShuffleShardSeed identifier z0)) i) as Hwalk.
  destruct (pick_rounds_size _ (zone_names r z0) Hwalk n 0 s) as [Hsz Hout].
  pose proof (pick_rounds_within _ (zone_names r z0) Hwalk (λ _, false) n 0 s) as Hwithin.
  pose proof (pick_rounds_extends (λ _, false)
    (zone_walk r (zone_tokens r z0) (rand_Uint32 (ShuffleShardSeed identifier z0))) n 0 s) as Hext.
  set (s1 := pick_rounds _ _ n 0 s) in *.
  assert (∀ z, z ∈ zones → zone_names r z ## zone_names r z0) as Hz0.
  { intros z Hz. apply Hdisj; [by right|by left|]. by intros ->. }
  destruct (IH s1) as (H1 & H2 & H3).
  - intros z1 z2 Hz1 Hz2. apply Hdisj; by right.
  - done.
  - intros z Hz. specialize (Hs z ltac:(by right)). specialize (Hz0 z Hz).
    clear -Hs Hz0 Hwithin. set_solver.
  - split; [|split].
    + intros z [->|Hz]%elem_of_cons; [|by apply H1]. rewrite H2 by (intros z Hz; symmetry; by apply Hz0).
      rewrite Hsz. specialize (Hs z0 ltac:(by left)). rewrite Hs, size_empty.
      assert (zone_names r z0 ∖ s = zone_names r z0) as -> by (clear -Hs; set_solver). done.
    + intros x Hx. rewrite H2 by (intros z Hz; apply Hx; by right). specialize (Hx z0 ltac:(by left)).
      clear -Hx Hwithin Hext. set_solver.
    + intros id [Hid|(z & Hz & Hid)]%H3; [|right; exists z; by rewrite elem_of_cons; auto].
      apply Hwithin, elem_of_union in Hid as [?|?]; [by left|right]. exists z0. by rewrite elem_of_cons; auto.
Qed.

(** *** The subring is a ring *)
Lemma subring_of_ok r shard :
  ring_ok r → conflict_free (Ingesters (ringDesc r)) →
  (∀ k i, shard !! k = Some i → Ingesters (ringDesc r) !! k = Some i) → ring_ok (subring_of r shard).
Proof.
  intros Hok Hcf Hsub.
  pose proof (getTokensByZone_desc (mkDesc shard)) as Hd.
  pose proof (getTokensByZone_is_Some (mkDesc shard)) as Hz.
  pose proof (getTokensByZone_tokens (mkDesc shard)) as Hzt.
  unfold subring_of. destruct (getTokensByZone (mkDesc shard)) as [d1 bz]. cbn [fst snd] in *. subst d1.
  pose proof (GetTokens_sorted (sorted_desc (mkDesc shard))) as Hsort.
  pose proof (GetTokens_elem (sorted_desc (mkDesc shard))) as Helem.
  pose proof (GetTokens_spec (sorted_desc (mkDesc shard))) as Hg.
  destruct (GetTokens (sorted_desc (mkDesc shard))) as [d2 tokens]. injection Hg as -> _.
  rewrite sorted_desc_idem. cbn [snd] in *.
  assert (∀ (P : string → string → Prop) (Q : list Z → Prop), (∀ ts, Q (sort_tokens ts) ↔ Q ts) →
    (∃ k i, Ingesters (sorted_desc (mkDesc shard)) !! k = Some i ∧ P k (Zone i) ∧ Q (Tokens i)) ↔
    (∃ k i, shard !! k = Some i ∧ P k (Zone i) ∧ Q (Tokens i))) as Hdesc.
  { intros P Q HQ. unfold sorted_desc. simpl. setoid_rewrite lookup_fmap. split.
    - intros (k & i & Hk & HP & HQi). destruct (shard !! k) as [i0|] eqn:Hi; [|done].
      injection Hk as <-. exists k, i0. split; [done|]. split; [done|]. by apply HQ.
    - intros (k & i & Hk & HP & HQi). exists k, (sort_instance i). rewrite Hk. split; [done|].
      split; [done|]. simpl. by apply HQ. }
  constructor; cbn [ringTokens ringDesc ringInstanceByToken ringZones ringTokensByZone].
  - done.
  - done.
  - intros t (k & i & Hk & Ht)%Helem. unfold sorted_desc in *. cbn [Ingesters] in *.
    rewrite lookup_fmap in Hk. destruct (shard !! k) as [i0|] eqn:Hi0; [|done]. injection Hk as <-.
    simpl in Ht. rewrite sort_tokens_elem in Ht. pose proof (Hsub k i0 Hi0) as Hri.
    destruct (ok_owner r Hok t) as (info & i' & Hinfo & Hi' & Hzi & Hti').
    { apply (ok_tokens r Hok). eauto. }
    assert (InstanceID info = k) as Hid by by apply (Hcf _ _ i' i0 t).
    exists info, (sort_instance i0). rewrite Hid, lookup_fmap, Hi0. split; [done|]. split; [done|].
    rewrite Hid, Hri in Hi'. injection Hi' as <-. simpl. by rewrite sort_tokens_elem.
  - destruct (getZones_spec bz) as (H1 & H2 & H3). split; [done|]. split; [done|].
    intros z. rewrite H3, Hz. cbn [Ingesters].
    pose proof (Hdesc (λ _ z', z' = z) (λ _, True)) as Hd. naive_solver.
  - intros z. destruct (Hzt z) as [H1 H2]. split; [done|]. intros t. rewrite H2. cbn [Ingesters].
    pose proof (Hdesc (λ _ z', z' = z) (λ ts, t ∈ ts)) as Hd. rewrite Hd; [done|].
    intros ts. apply sort_tokens_elem.
Qed.

Lemma size_filter_dom (P : string * InstanceDesc → Prop) `{!∀ x, Decision (P x)} (m : gmap string InstanceDesc)
    (x : gset string) :
  (∀ k, k ∈ x ↔ ∃ i, m !! k = Some i ∧ P (k, i)) → size (filter P m) = size x.
Proof.
  intros Hx. rewrite <- (size_dom (D:=gset string)). f_equal. apply set_eq. intros k.
  rewrite Hx, elem_of_dom. split.
  - intros [i [Hi HP]%map_lookup_filter_Some]. eauto.
  - intros (i & Hi & HP). exists i. by apply map_lookup_filter_Some.
Qed.

(** C19. The size and content of a shard, on a ring without token conflicts: the
    subring holds its own invariant, its instances are instances of the ring with
    tokens, and every zone (the whole ring without zone awareness) contributes
    exactly the expected number of instances, or all it has if fewer. *)
Theorem shuffleShard_size r identifier sz now :
  ring_ok r → conflict_free (Ingesters (ringDesc r)) →
  ∃ s, shuffleShard r identifier sz 0 now = Some s ∧ ring_ok s ∧
    (∀ k i, Ingesters (ringDesc s) !! k = Some i →
       sort_instance <$> Ingesters (ringDesc r) !! k = Some i ∧
       ∃ z, z ∈ shard_zones_list r ∧ candidate r z i) ∧
    ∀ z, z ∈ shard_zones_list r →
      size (filter (λ kv, candidate r z kv.2) (Ingesters (ringDesc s)))
      = min (instances_per_zone r sz) (size (filter (λ kv, candidate r z kv.2) (Ingesters (ringDesc r)))).
Proof.
  intros Hok Hcf. rewrite shuffleShard_selected by done. eexists. split; [done|].
  set (sel := selected r identifier sz 0 now).
  destruct (pick_zones_size r (shard_zones_list r) (instances_per_zone r sz) identifier ∅) as (Hsz & _ & Hin).
  { intros z1 z2 Hz1 Hz2 Hne. unfold shard_zones_list in *.
    destruct (ZoneAwarenessEnabled (cfg r)) eqn:Hza; [by apply zone_names_disjoint|].
    apply list_elem_of_singleton in Hz1, Hz2. congruence. }
  { unfold shard_zones_list. destruct (ZoneAwarenessEnabled (cfg r)); [apply (ok_zones r Hok)|apply NoDup_singleton]. }
  { intros z _. clear. set_solver. }
  change (pick_zones r (λ _, false) (shard_zones_list r) (instances_per_zone r sz) identifier ∅) with sel in *.
  assert (∀ id, id ∈ sel → ∃ z i, z ∈ shard_zones_list r ∧ Ingesters (ringDesc r) !! id = Some i ∧ candidate r z i) as Hsel.
  { intros id [?|(z & Hz & Hid)]%Hin; [set_solver|]. apply zone_names_spec in Hid as (i & ? & ?); [|done..]. eauto. }
  assert (∀ k i, to_shard r sel !! k = Some i → Ingesters (ringDesc r) !! k = Some i ∧ k ∈ sel) as Hsub.
  { intros k i. rewrite to_shard_lookup. case_decide as Hk; [|done]. intros [= <-]. split; [|done].
    destruct (Hsel k Hk) as (z & i & _ & Hi & _). unfold ingester. by rewrite Hi. }
  assert (∀ k i, Ingesters (ringDesc (subring_of r (to_shard r sel))) !! k = Some i ↔
    k ∈ sel ∧ sort_instance <$> Ingesters (ringDesc r) !! k = Some i) as Hlk.
  { intros k i. rewrite subring_of_desc. cbn [sorted_desc Ingesters]. rewrite lookup_fmap. split.
    - destruct (to_shard r sel !! k) as [i0|] eqn:Hi0; [|done]. intros [= <-].
      apply Hsub in Hi0 as [-> Hk]. done.
    - intros [Hk Hi]. rewrite to_shard_lookup, decide_True by done.
      destruct (Ingesters (ringDesc r) !! k) as [i0|] eqn:Hi0; [|done]. unfold ingester. by rewrite Hi0. }
  assert (∀ z i, candidate r z (sort_instance i) ↔ candidate r z i) as Hcand.
  { intros z i. unfold candidate. simpl. enough (sort_tokens (Tokens i) ≠ [] ↔ Tokens i ≠ []) by naive_solver.
    rewrite <- !length_zero_iff_nil. by rewrite (Permutation_length (sort_tokens_perm (Tokens i))). }
  split; [by apply subring_of_ok; [done|done|apply Hsub]|]. split.
  - intros k i [Hk Hi]%Hlk. split; [done|]. destruct (Hsel k Hk) as (z & i0 & Hz & Hi0 & Hc).
    rewrite Hi0 in Hi. injection Hi as <-. exists z. split; [done|]. by apply Hcand.
  - intros z Hz.
    rewrite (size_filter_dom _ (Ingesters (ringDesc r)) (zone_names r z))
      by (intros k; by apply zone_names_spec).
    rewrite (size_filter_dom _ _ (sel ∩ zone_names r z)); [by apply Hsz|].
    intros k. rewrite elem_of_intersection, zone_names_spec by done. setoid_rewrite Hlk. split.
    + intros [Hk (i & Hi & Hc)]. exists (sort_instance i). rewrite Hi. split; [done|]. by apply Hcand.
    + intros (i & [Hk Hi] & Hc). split; [done|]. destruct (Ingesters (ringDesc r) !! k) as [i0|]; [|done].
      injection Hi as <-. exists i0. split; [done|]. by apply Hcand.
Qed.
End theorems.

(** ** Witnesses *)
#[local] Existing Instance map_range_std.
Definition ex_rand : RandSource := {|
  md5_Sum b := take 16 (b ++ repeat 0 16);
  rand_Uint32 seed n := u32 (seed + 2654435761 * Z.of_nat (S n))
|}.
#[local] Existing Instance ex_rand.

Lemma ex_updated_ok' za : ring_ok (sub (ex_updated za)).
Proof. exact (proj1 (updateRingState_inv _ _ _ _ (ex_Ring_ok za))). Qed.

(** a decision procedure for the absence of conflicts *)
Lemma conflict_free_of_NoDup (m : gmap string InstanceDesc) :
  bool_decide (NoDup (tokens_of (map_to_list m))) = true → conflict_free m.
Proof.
  intros Hnd%bool_decide_eq_true k1 k2 i1 i2 t H1 H2 Ht1 Ht2.
  apply (NoDup_tokens_of (map_to_list m) k1 i1 k2 i2 t); try done; by apply elem_of_map_to_list.
Qed.

Definition ex_shard (sz lb now : Z) : option (list string) :=
  (λ s, (map_to_list (Ingesters (ringDesc s))).*1) <$> shuffleShard (sub (ex_updated true)) "tenant" sz lb now.

Lemma shuffleShard_monotone_witness :
  ring_ok (sub (ex_updated true)) ∧
  (length <$> ex_shard 1 0 (200 * Second)) = Some 3%nat ∧
  ∃ s1 s2, shuffleShard (sub (ex_updated true)) "tenant" 1 0 (200 * Second) = Some s1 ∧
           shuffleShard (sub (ex_updated true)) "tenant" 4 (200 * Second) (200 * Second) = Some s2 ∧
           Ingesters (ringDesc s1) ⊆ Ingesters (ringDesc s2).
Proof.
  split; [exact (ex_updated_ok' true)|]. split; [vm_compute; reflexivity|].
  apply (shuffleShard_monotone (sub (ex_updated true)) "tenant" 1 4 0 (200 * Second) (200 * Second)
           (ex_updated_ok' true)); vm_compute; discriminate.
Defined.

Lemma shuffleShard_size_witness :
  ring_ok (sub (ex_updated true)) ∧ conflict_free (Ingesters (ringDesc (sub (ex_updated true)))) ∧
  ∃ s, shuffleShard (sub (ex_updated true)) "tenant" 3 0 (200 * Second) = Some s ∧ ring_ok s.
Proof.
  assert (conflict_free (Ingesters (ringDesc (sub (ex_updated true))))) as Hcf
    by (apply conflict_free_of_NoDup; vm_compute; reflexivity).
  split; [exact (ex_updated_ok' true)|]. split; [exact Hcf|].
  destruct (shuffleShard_size (sub (ex_updated true)) "tenant" 3 (200 * Second) (ex_updated_ok' true) Hcf)
    as (s & Hs & Hok & _).
  exists s. split; [exact Hs|exact Hok].
Defined.
