(* ===== verification/ShuffleCache.v ===== *)
(** * The cache of subrings never answers with a stale shard

    The calls that use the cache of a [Ring], interleaved as the locks allow: a
    lookup that misses computes a subring under the read lock and stores it
    later, after other goroutines may have updated the ring. *)
From Stdlib Require Import ZArith Lia.
From stdpp Require Import base gmap strings list sorting fin_maps relations.
From S2P Require Import Prelude Model ModelFacts ResolveFacts Ring RingFacts GetFacts Shuffle ShuffleFacts.

Section cache.
Context `{R : MapRange} `{Rnd : RandSource}.

(** *** Same topology, same subring up to states and timestamps *)
Lemma topologies_tokens_perm a b :
  topologies a = topologies b →
  (λ e : string * InstanceDesc, (Zone e.2, Tokens e.2)) <$> map_to_list (Ingesters a)
  ≡ₚ (λ e, (Zone e.2, Tokens e.2)) <$> map_to_list (Ingesters b).
Proof.
  intros Ht.
  assert (∀ d, (λ e : string * InstanceDesc, (Zone e.2, Tokens e.2)) <$> map_to_list (Ingesters d)
    = (λ e : string * InstanceDesc, (Zone e.2, Tokens e.2)) <$> (prod_map id topology <$> map_to_list (Ingesters d))) as He.
  { intros d. rewrite <- list_fmap_compose. by apply list_fmap_ext. }
  rewrite (He a), (He b). unfold topologies in Ht.
  rewrite <- !map_to_list_fmap. by rewrite Ht.
Qed.

Lemma GetTokens_topology a b : topologies a = topologies b → (GetTokens a).2 = (GetTokens b).2.
Proof.
  intros Ht. rewrite !GetTokens_spec. cbn [snd]. rewrite !MergeTokens_sorts by apply sorted_lists.
  apply sort_tokens_proper.
  assert (∀ d, concat ((λ e : string * InstanceDesc, sort_tokens (Tokens e.2)) <$> map_range 461 (Ingesters d))
    ≡ₚ concat ((λ p : string * list Z, sort_tokens p.2) <$>
         ((λ e : string * InstanceDesc, (Zone e.2, Tokens e.2)) <$> map_to_list (Ingesters d)))) as He.
  { intros d. rewrite <- list_fmap_compose.
    rewrite (map_range_perm 461 (Ingesters d)). done. }
  rewrite (He a), (He b). by rewrite (topologies_tokens_perm a b Ht).
Qed.

Lemma getTokensByZone_topology a b : topologies a = topologies b → (getTokensByZone a).2 = (getTokensByZone b).2.
Proof.
  intros Ht. apply map_eq. intros z.
  destruct (getTokensByZone_tokens a z) as [Ha _], (getTokensByZone_tokens b z) as [Hb _].
  assert (is_Some ((getTokensByZone a).2 !! z) ↔ is_Some ((getTokensByZone b).2 !! z)) as Hs.
  { rewrite !getTokensByZone_is_Some. apply (topologies_exists a b (λ _ z', z' = z) Ht). }
  assert (default [] ((getTokensByZone a).2 !! z) ≡ₚ default [] ((getTokensByZone b).2 !! z)) as Hp.
  { assert (∀ d, default [] ((getTokensByZone d).2 !! z)
      ≡ₚ concat ((λ p : string * list Z, sort_tokens p.2) <$> filter (λ p, p.1 = z)
           ((λ e : string * InstanceDesc, (Zone e.2, Tokens e.2)) <$> map_to_list (Ingesters d)))) as He.
    { intros d. rewrite getTokensByZone_lookup.
      assert ((λ p : string * list Z, sort_tokens p.2) <$> filter (λ p, p.1 = z)
           ((λ e : string * InstanceDesc, (Zone e.2, Tokens e.2)) <$> map_to_list (Ingesters d))
         ≡ₚ zone_lists z (map_range 478 (Ingesters d))) as ->.
      { unfold zone_lists. rewrite (map_range_perm 478 (Ingesters d)).
        generalize (map_to_list (Ingesters d)). intros l. induction l as [|[k i] l IH]; [done|].
        rewrite fmap_cons, !filter_cons. cbn [fst snd]. case_decide; [|done].
        rewrite !fmap_cons. cbn [snd]. by rewrite IH. }
      case_decide as Hz; simpl; [by rewrite MergeTokens_perm by apply sorted_lists|].
      assert (zone_lists z (map_range 478 (Ingesters d)) = []) as ->; [|done].
      unfold zone_lists. replace (filter _ _) with (@nil (string * InstanceDesc)); [done|].
      symmetry. apply elem_of_nil_inv. intros e [Hez He]%list_elem_of_filter.
      apply Hz, Exists_exists. eauto. }
    rewrite (He a), (He b). by rewrite (topologies_tokens_perm a b Ht). }
  destruct ((getTokensByZone a).2 !! z) as [la|], ((getTokensByZone b).2 !! z) as [lb|]; simpl in *.
  - f_equal. by apply sorted_perm_unique.
  - destruct Hs as [Hs _]. by destruct Hs as [? ?].
  - destruct Hs as [_ Hs]. by destruct Hs as [? ?].
  - done.
Qed.

Lemma sorted_desc_topology a b : topologies a = topologies b → topologies (sorted_desc a) = topologies (sorted_desc b).
Proof.
  intros Ht. apply map_eq. intros k. unfold topologies, sorted_desc. cbn [Ingesters]. rewrite !lookup_fmap.
  apply (f_equal (lookup k)) in Ht. unfold topologies in Ht. rewrite !lookup_fmap in Ht.
  destruct (Ingesters a !! k) as [i|], (Ingesters b !! k) as [i'|]; try done. simpl in *. f_equal.
  apply (inj Some) in Ht. unfold topology, sort_instance in *.
  destruct i, i'. simpl in *. unfold set_Timestamp, set_State, set_Tokens in *. simpl in *. congruence.
Qed.

(** two subrings that differ only in the states and timestamps of their instances *)
Definition same_topology (c s : subring) : Prop :=
  c = set_ringDesc (ringDesc c) s ∧ topologies (ringDesc c) = topologies (ringDesc s).

Lemma subring_of_topology r r' shard shard' :
  r' = set_ringDesc (ringDesc r') r → topologies (mkDesc shard) = topologies (mkDesc shard') →
  same_topology (subring_of r shard) (subring_of r' shard').
Proof.
  intros Hr Ht. split.
  - unfold subring_of. pose proof (getTokensByZone_topology _ _ Ht) as Hbz.
    pose proof (getTokensByZone_desc (mkDesc shard)) as Hd. pose proof (getTokensByZone_desc (mkDesc shard')) as Hd'.
    destruct (getTokensByZone (mkDesc shard)) as [d bz], (getTokensByZone (mkDesc shard')) as [d' bz'].
    cbn [fst snd] in *. subst d d' bz'.
    pose proof (GetTokens_topology _ _ (sorted_desc_topology _ _ Ht)) as Htok.
    destruct (GetTokens (sorted_desc (mkDesc shard))) as [d tk], (GetTokens (sorted_desc (mkDesc shard'))) as [d' tk'].
    cbn [fst snd] in *. subst tk'. rewrite Hr. done.
  - rewrite !subring_of_desc. by apply sorted_desc_topology.
Qed.

(** *** The selection depends on the topology only *)
Lemma pick_ext rc1 rc2 ids s : (∀ id, rc1 id = rc2 id) → pick rc1 ids s = pick rc2 ids s.
Proof.
  intros He. revert s. induction ids as [|id ids IH]; intros s; simpl; [done|].
  rewrite !IH, He. done.
Qed.

Lemma selected_topology r d identifier sz now now' :
  selected (set_ringDesc d r) identifier sz 0 now = selected r identifier sz 0 now'.
Proof. reflexivity. Qed.

Definition coherent (r : subring) (identifier : string) (sz : Z) (c : subring) : Prop :=
  same_topology c (subring_of r (to_shard r (selected r identifier sz 0 0))).

Lemma same_topology_refl s : same_topology s s.
Proof. split; [by destruct s|done]. Qed.
Lemma same_topology_trans s1 s2 s3 : same_topology s1 s2 → same_topology s2 s3 → same_topology s1 s3.
Proof. intros [H1 H2] [H3 H4]. split; [rewrite H1, H3; done|congruence]. Qed.

Lemma to_shard_topology r d s :
  topologies (ringDesc r) = topologies d →
  topologies (mkDesc (to_shard r s)) = topologies (mkDesc (to_shard (set_ringDesc d r) s)).
Proof.
  intros Ht. apply map_eq. intros k. unfold topologies. cbn [Ingesters]. rewrite !lookup_fmap, !to_shard_lookup.
  case_decide; [|done]. cbn [fmap option_fmap option_map set_ringDesc ringDesc]. f_equal.
  apply (f_equal (lookup k)) in Ht. unfold topologies in Ht. rewrite !lookup_fmap in Ht. unfold ingester.
  destruct (Ingesters (ringDesc r) !! k), (Ingesters d !! k); try done. by apply (inj Some) in Ht.
Qed.

Lemma coherent_topology r d identifier sz c :
  topologies (ringDesc r) = topologies d → coherent r identifier sz c →
  coherent (set_ringDesc d r) identifier sz c.
Proof.
  intros Ht Hc. unfold coherent in *. rewrite (selected_topology r d identifier sz 0 0).
  eapply same_topology_trans; [exact Hc|]. apply subring_of_topology; [by destruct r|].
  by apply to_shard_topology.
Qed.

Lemma shuffleShard_coherent r identifier sz now s :
  ring_ok r → shuffleShard r identifier sz 0 now = Some s → coherent r identifier sz s.
Proof.
  intros Hok. rewrite shuffleShard_selected by done. intros [= <-].
  apply same_topology_refl.
Qed.

(** *** Refreshing a coherent subring gives the current one *)
Definition refreshed (r : subring) (c : subring) : subring :=
  set_ringDesc (mkDesc (map_imap (λ k i, Some (refresh_instance (ringDesc r) k i)) (Ingesters (ringDesc c)))) c.

Lemma refresh_loop d site (m : gmap string InstanceDesc) :
  foldl (λ m '(name, cachedIng), <[name := refresh_instance d name cachedIng]> m) m (map_range site m)
  = map_imap (λ k i, Some (refresh_instance d k i)) m.
Proof.
  apply map_eq. intros k. rewrite map_lookup_imap.
  etrans; [apply (map_range_local (λ m, m)
    (λ m '(name, cachedIng), <[name := refresh_instance d name cachedIng]> m)
    (λ k i _, Some (refresh_instance d k i)))|].
  - intros a j v. apply lookup_insert_eq.
  - intros a j v j' Hj. by apply lookup_insert_ne.
  - by destruct (m !! k).
Qed.

Lemma refreshed_current r identifier sz c :
  coherent r identifier sz c →
  refreshed r c = subring_of r (to_shard r (selected r identifier sz 0 0)).
Proof.
  intros [Hc Ht]. set (s := subring_of r _) in *. unfold refreshed. rewrite Hc. cbn [set_ringDesc].
  enough (mkDesc (map_imap (λ k i, Some (refresh_instance (ringDesc r) k i)) (Ingesters (ringDesc c))) = ringDesc s) as He.
  { unfold set_ringDesc. cbn. rewrite He. by destruct s. }
  unfold s in *. rewrite subring_of_desc in *. unfold sorted_desc in *. f_equal. apply map_eq. intros k.
  apply (f_equal (lookup k)) in Ht. unfold topologies in Ht. cbn [Ingesters] in *.
  rewrite !lookup_fmap in Ht. rewrite map_lookup_imap, lookup_fmap.
  revert Ht. rewrite to_shard_lookup.
  destruct (Ingesters (ringDesc c) !! k) as [i|]; case_decide; intros Ht; try done. simpl in *. f_equal.
  apply (inj Some) in Ht. unfold refresh_instance.
  destruct (ingester (ringDesc r) k) as [a ts st tk z rt], i as [a' ts' st' tk' z' rt'].
  unfold topology, sort_instance, set_Timestamp, set_State, set_Tokens in *. simpl in *. congruence.
Qed.

(** ** The users of a ring *)
(** the ring, and the subrings computed but not stored yet *)
Record cstate := mkC { c_ring : Ring; c_pending : list (string * Z * subring) }.

Inductive cstep : cstate → cstate → Prop :=
| c_update d now nowMetrics r p :
    lastTopologyChange (sub r) < now →
    cstep (mkC r p) (mkC (updateRingState d now nowMetrics r) p)
| c_hit identifier sz now r p r' res :
    ShuffleShard_lookup identifier sz now r = Some (r', res, None) →
    cstep (mkC r p) (mkC r' p)
| c_miss identifier sz now r p r' res s :
    ShuffleShard_lookup identifier sz now r = Some (r', res, Some s) →
    cstep (mkC r p) (mkC r' ((identifier, sz, s) :: p))
| c_store identifier sz s r p1 p2 :
    cstep (mkC r (p1 ++ (identifier, sz, s) :: p2)) (mkC (setCachedShuffledSubring identifier sz s r) (p1 ++ p2))
| c_cleanup identifier r p :
    cstep (mkC r p) (mkC (CleanupShuffleShardCache identifier r) p).

Record cinv (x : cstate) : Prop := {
  ci_ring : ring_ok (sub (c_ring x));
  ci_cache : ∀ cache identifier sz c,
    shuffledSubringCache (c_ring x) = Some cache → cache !! (identifier, sz) = Some c →
    coherent (sub (c_ring x)) identifier sz c;
  ci_pending : ∀ identifier sz s, (identifier, sz, s) ∈ c_pending x →
    lastTopologyChange s ≤ lastTopologyChange (sub (c_ring x)) ∧
    (lastTopologyChange s = lastTopologyChange (sub (c_ring x)) → coherent (sub (c_ring x)) identifier sz s)
}.

Lemma updateRingState_cases d now nowMetrics r :
  (∃ d', sub (updateRingState d now nowMetrics r) = set_ringDesc d' (sub r) ∧
     topologies (ringDesc (sub r)) = topologies d' ∧
     shuffledSubringCache (updateRingState d now nowMetrics r) = shuffledSubringCache r) ∨
  (lastTopologyChange (sub (updateRingState d now nowMetrics r)) = now ∧
   (∀ cache, shuffledSubringCache (updateRingState d now nowMetrics r) = Some cache → cache = ∅)).
Proof.
  unfold updateRingState. set (d' := excludeZones _ d).
  pose proof (RingCompare_spec (ringDesc (sub r)) d') as Hrc.
  destruct (RingCompare _ _).
  - left. exists d'. rewrite updateRingMetrics_sub, updateRingMetrics_cache.
    split; [done|]. split; [by rewrite Hrc|done].
  - left. exists d'. rewrite updateRingMetrics_sub, updateRingMetrics_cache. split; [done|]. split; [apply Hrc|done].
  - right. destruct (GetTokens d') as [d1 tk]. destruct (getTokensByZone d1) as [d2 bz].
    rewrite updateRingMetrics_sub, updateRingMetrics_cache. split; [done|]. simpl. intros cache.
    destruct (shuffledSubringCache r); [by intros [= <-]|done].
Qed.

Lemma coherent_time r identifier sz c : coherent r identifier sz c → lastTopologyChange c = lastTopologyChange r.
Proof.
  intros [-> _]. cbn [set_ringDesc lastTopologyChange]. unfold subring_of.
  destruct (getTokensByZone _) as [d bz]. by destruct (GetTokens d).
Qed.

Lemma getCached_spec identifier sz r r' c :
  (∀ cache c, shuffledSubringCache r = Some cache → cache !! (identifier, sz) = Some c →
     coherent (sub r) identifier sz c) →
  getCachedShuffledSubring identifier sz r = (r', c) →
  sub r' = sub r ∧
  (∀ cache' i s c', shuffledSubringCache r' = Some cache' → cache' !! (i, s) = Some c' →
     coherent (sub r) i s c' ∨ ∃ cache, shuffledSubringCache r = Some cache ∧ cache !! (i, s) = Some c') ∧
  (∀ c', c = Some c' → c' = subring_of (sub r) (to_shard (sub r) (selected (sub r) identifier sz 0 0))) ∧
  (c = None → r' = r).
Proof.
  intros Hcoh. unfold getCachedShuffledSubring.
  destruct (SubringCacheDisabled _); [intros [= <- <-]; split_and!; eauto; done|].
  destruct (shuffledSubringCache r) as [cache|] eqn:Hcache;
    [|intros [= <- <-]; split_and!; eauto; try done; intros; congruence].
  destruct (cache !! (identifier, sz)) as [c0|] eqn:Hc0;
    [|intros [= <- <-]; split_and!; eauto; try done; rewrite Hcache; eauto].
  rewrite refresh_loop. fold (refreshed (sub r) c0).
  rewrite (refreshed_current _ _ _ _ (Hcoh _ _ eq_refl Hc0)).
  intros [= <- <-]. cbn [sub shuffledSubringCache]. split_and!; try done; [|congruence].
  intros cache' i s c' [= <-]. destruct (decide ((i, s) = (identifier, sz))) as [[= -> ->]|Hne].
  - rewrite lookup_insert_eq. intros [= <-]. left. apply same_topology_refl.
  - rewrite lookup_insert_ne by done. eauto.
Qed.

Lemma lookup_cases identifier sz now r r' res computed :
  ring_ok (sub r) →
  (∀ cache c, shuffledSubringCache r = Some cache → cache !! (identifier, sz) = Some c →
     coherent (sub r) identifier sz c) →
  ShuffleShard_lookup identifier sz now r = Some (r', res, computed) →
  (r' = r ∧ res = WholeRing ∧ computed = None) ∨
  (∃ s, shuffleShard (sub r) identifier sz 0 now = Some s ∧ res = SubRing s ∧
     sub r' = sub r ∧ (computed = None ∨ computed = Some s ∧ r' = r) ∧
     (∀ cache' i z c', shuffledSubringCache r' = Some cache' → cache' !! (i, z) = Some c' →
        coherent (sub r) i z c' ∨ ∃ cache, shuffledSubringCache r = Some cache ∧ cache !! (i, z) = Some c')).
Proof.
  intros Hok Hcoh. unfold ShuffleShard_lookup.
  case_if; [intros [= <- <- <-]; by left|].
  destruct (getCachedShuffledSubring identifier sz r) as [r1 [c|]] eqn:Hg;
    apply getCached_spec in Hg as (Hsub & Hc & Hsome & Hnone); [|done| |done].
  - intros [= <- <- <-]. right. exists c. rewrite (Hsome c eq_refl).
    split; [rewrite shuffleShard_selected by done; reflexivity|]. split_and!; eauto.
  - rewrite (Hnone eq_refl) in *. destruct (shuffleShard (sub r) identifier sz 0 now) as [s|]; [|done].
    intros [= <- <- <-]. right. exists s. split_and!; eauto.
Qed.

Lemma cinv_step x y : cstep x y → cinv x → cinv y.
Proof.
  intros Hstep [Hok Hc Hp]. destruct Hstep as
    [d now nm r p Hnow|id sz now r p r' res Hl|id sz now r p r' res s Hl|id sz s r p1 p2|id r p];
    cbn [c_ring c_pending] in *.
  - pose proof (proj1 (updateRingState_inv d now nm r Hok)) as Hok'.
    destruct (updateRingState_cases d now nm r) as [(d' & Hsub & Ht & Hcache)|[Hnow' Hempty]].
    + rewrite Hsub in Hok'. constructor; cbn [c_ring c_pending]; rewrite ?Hsub, ?Hcache; [done| |].
      * intros cache id sz c H1 H2. apply coherent_topology; eauto.
      * intros id sz s [H1 H2]%Hp. split; [done|]. intros He. apply coherent_topology; eauto.
    + constructor; cbn [c_ring c_pending]; [done| |].
      * intros cache id sz c H1%Hempty H2. by rewrite H1, lookup_empty in H2.
      * intros id sz s [H1 H2]%Hp. rewrite Hnow'. split; [lia|]. intros He. lia.
  - apply lookup_cases in Hl as [(-> & _)|(s & _ & _ & Hsub & _ & Hc')]; [by constructor| |done|by eauto].
    constructor; cbn [c_ring c_pending]; rewrite ?Hsub; [done| |done].
    intros cache i z c H1 H2. destruct (Hc' cache i z c H1 H2) as [?|(cache0 & ? & ?)]; eauto.
  - apply lookup_cases in Hl as [(_ & _ & ?)|(s' & Hs & _ & Hsub & [?|[[= <-] ->]] & Hc')]; try done; [|by eauto].
    constructor; cbn [c_ring c_pending]; [done|done|].
    intros i z s' [[= -> -> ->]|Hin]%elem_of_cons; [|by apply Hp].
    pose proof (shuffleShard_coherent _ _ _ _ _ Hok Hs) as Hcoh.
    rewrite (coherent_time _ _ _ _ Hcoh). split; [lia|done].
  - assert (∀ i z s', (i, z, s') ∈ p1 ++ p2 → (i, z, s') ∈ p1 ++ (id, sz, s) :: p2) as Hin.
    { intros i z s'. rewrite !elem_of_app, elem_of_cons. tauto. }
    unfold setCachedShuffledSubring. destruct (SubringCacheDisabled _); [constructor; cbn [c_ring c_pending]; [done|done|by eauto]|].
    destruct (shuffledSubringCache r) as [cache|] eqn:Hcache; [|constructor; cbn [c_ring c_pending]; [done|by rewrite Hcache|by eauto]].
    case_bool_decide as Ht; [|constructor; cbn [c_ring c_pending]; [done|by rewrite Hcache|by eauto]].
    constructor; cbn [c_ring c_pending sub shuffledSubringCache]; [done| |by eauto].
    intros cache' i z c [= <-]. destruct (decide ((i, z) = (id, sz))) as [[= -> ->]|Hne].
    + rewrite lookup_insert_eq. intros [= <-]. apply (Hp id sz s); [|done]. apply elem_of_app. right. by left.
    + rewrite lookup_insert_ne by done. by apply (Hc cache).
  - unfold CleanupShuffleShardCache. destruct (SubringCacheDisabled _); [by constructor|].
    constructor; cbn [c_ring c_pending sub shuffledSubringCache]; [done| |done].
    destruct (shuffledSubringCache r) as [cache|] eqn:Hcache; [|done]. simpl.
    intros cache' i z c [= <-]. intros Hl. apply (Hc cache); [done|].
    revert Hl. generalize (map_range 848 cache). intros l.
    enough (∀ m : gmap (string * Z) subring,
      foldl (λ m '(k, _), if bool_decide (k.1 = id) then delete k m else m) m l !! (i, z) = Some c →
      m !! (i, z) = Some c) as Hfold by apply Hfold.
    induction l as [|[k v] l IH]; intros m; simpl; [done|]. intros Hm%IH.
    case_bool_decide; [|done]. by apply lookup_delete_Some in Hm as [_ Hm].
Qed.

(** C22. The subring cache is transparent: from a new ring, after any sequence of
    updates, cached or computed lookups, delayed stores and cleanups, what
    [ShuffleShard] answers with a subring is the subring it would compute from
    the ring as it is now, provided topology changes have increasing times. *)
Theorem ShuffleShard_cache_transparent c strat r0 x identifier sz now r' s computed :
  NewWithStoreClientAndStrategy c strat = Some r0 →
  rtc cstep (mkC r0 []) x →
  ShuffleShard_lookup identifier sz now (c_ring x) = Some (r', SubRing s, computed) →
  shuffleShard (sub (c_ring x)) identifier sz 0 now = Some s.
Proof.
  intros Hnew Hsteps Hl.
  assert (cinv x) as [Hok Hc _].
  { revert Hsteps. apply (rtc_ind_r cinv).
    - constructor; cbn [c_ring c_pending].
      + by eapply ring_ok_new.
      + unfold NewWithStoreClientAndStrategy in Hnew. case_bool_decide; [done|]. injection Hnew as <-.
        intros cache id z c0 [= <-]. by rewrite lookup_empty.
      + by intros id z s0 ?%elem_of_nil.
    - intros y z _ Hstep Hy. by eapply cinv_step. }
  apply lookup_cases in Hl as [(_ & ? & _)|(s' & Hs & [= ->] & _)]; eauto. done.
Qed.
End cache.

(** ** A run: update, miss, store, heartbeat, hit *)
#[local] Existing Instance map_range_std.
#[local] Existing Instance ex_rand.

Definition ex_heartbeats : Desc :=
  mkDesc ((λ i, set_Timestamp 150 (sort_instance i)) <$> Ingesters ex_desc).
Definition ex_computed : subring :=
  match ShuffleShard_lookup "tenant" 2 (120 * Second) (ex_updated false) with
  | Some (_, _, Some s) => s
  | _ => sub (ex_updated false)
  end.
Definition ex_after_store : Ring := setCachedShuffledSubring "tenant" 2 ex_computed (ex_updated false).
Definition ex_after_heartbeats : Ring :=
  updateRingState ex_heartbeats (160 * Second) (160 * Second) ex_after_store.
Definition ex_answer : subring :=
  match ShuffleShard_lookup "tenant" 2 (170 * Second) ex_after_heartbeats with
  | Some (_, SubRing s, _) => s
  | _ => sub ex_after_heartbeats
  end.
Definition ex_ring_after : Ring :=
  match ShuffleShard_lookup "tenant" 2 (170 * Second) ex_after_heartbeats with
  | Some (r, _, _) => r
  | _ => ex_after_heartbeats
  end.

Lemma ex_hit :
  ShuffleShard_lookup "tenant" 2 (170 * Second) (c_ring (mkC ex_after_heartbeats []))
  = Some (ex_ring_after, SubRing ex_answer, None).
Proof. vm_compute. reflexivity. Qed.

Lemma ex_miss : 
  ShuffleShard_lookup "tenant" 2 (120 * Second) (ex_updated false)
  = Some (ex_updated false, SubRing ex_computed, Some ex_computed).
Proof. vm_compute. reflexivity. Qed.

Lemma ex_run : rtc cstep (mkC (ex_Ring false) []) (mkC ex_after_heartbeats []).
Proof.
  apply rtc_l with (mkC (ex_updated false) []).
  { unfold ex_updated. apply (c_update ex_desc (110 * Second) (110 * Second) (ex_Ring false) []). reflexivity. }
  apply rtc_l with (mkC (ex_updated false) [("tenant", 2, ex_computed)]).
  { apply (c_miss "tenant" 2 (120 * Second) (ex_updated false) [] (ex_updated false) (SubRing ex_computed)).
    exact ex_miss. }
  apply rtc_l with (mkC ex_after_store []).
  { unfold ex_after_store. apply (c_store "tenant" 2 ex_computed (ex_updated false) [] []). }
  apply rtc_l with (mkC ex_after_heartbeats []).
  { unfold ex_after_heartbeats. apply (c_update ex_heartbeats (160 * Second) (160 * Second) ex_after_store []). vm_compute. reflexivity. }
  apply rtc_refl.
Qed.

Lemma ShuffleShard_cache_transparent_witness :
  ShuffleShard_lookup "tenant" 2 (170 * Second) (c_ring (mkC ex_after_heartbeats []))
    = Some (ex_ring_after, SubRing ex_answer, None) ∧
  shuffleShard (sub (c_ring (mkC ex_after_heartbeats []))) "tenant" 2 0 (170 * Second) = Some ex_answer.
Proof.
  split; [exact ex_hit|].
  exact (ShuffleShard_cache_transparent (ex_config false) defaultReplicationStrategy_Filter (ex_Ring false)
    (mkC ex_after_heartbeats []) "tenant" 2 (170 * Second) ex_ring_after ex_answer None eq_refl ex_run ex_hit).
Defined.
