(* ===== verification/Replication.v ===== *)
(** * Talking to a replication set: [ring/replication_set.go], [ring/replication_set_tracker.go]

    The result trackers, and the loop of [ReplicationSet.Do] that collects the
    results of the goroutines it has spawned. *)
From Stdlib Require Import ZArith Lia.
From stdpp Require Import base gmap strings list sorting fin_maps relations fin_sets.
From S2P Require Import Prelude Model Ring.

(** ** The trackers *)
Record defaultResultTracker := mkDefaultTracker {
  minSucceeded : Z;
  numSucceeded : Z;
  numErrors : Z;
  maxErrors : Z
}.
Record zoneAwareResultTracker := mkZoneTracker {
  waitingByZone : gmap string Z;
  failuresByZone : gmap string Z;
  minSuccessfulZones : Z;
  maxUnavailableZones : Z
}.
(** [replicationSetResultTracker]: the two implementations of the interface *)
Inductive resultTracker :=
| DefaultTracker (t : defaultResultTracker)
| ZoneTracker (t : zoneAwareResultTracker).

Definition newDefaultResultTracker (instances : list InstanceDesc) (maxErrs : Z) : defaultResultTracker :=
  mkDefaultTracker (Z.of_nat (length instances) - maxErrs) 0 0 maxErrs.

(** [m[k] += v], a missing key counting for 0 *)
Definition map_add (m : gmap string Z) (k : string) (v : Z) : gmap string Z :=
  <[k := default 0 (m !! k) + v]> m.

Definition newZoneAwareResultTracker (instances : list InstanceDesc) (maxUnavailable : Z)
    : zoneAwareResultTracker :=
  let waiting := foldl (λ m i, map_add m (Zone i) 1) ∅ instances in
  mkZoneTracker waiting ∅ (Z.of_nat (size waiting) - maxUnavailable) maxUnavailable.

Section trackers.
Context `{!MapRange}.

Definition default_done (t : defaultResultTracker) (failed : bool) : defaultResultTracker :=
  if failed
  then mkDefaultTracker (minSucceeded t) (numSucceeded t) (numErrors t + 1) (maxErrors t)
  else mkDefaultTracker (minSucceeded t) (numSucceeded t + 1) (numErrors t) (maxErrors t).
Definition zone_done (t : zoneAwareResultTracker) (zone : string) (failed : bool) : zoneAwareResultTracker :=
  mkZoneTracker (map_add (waitingByZone t) zone (-1))
    (if failed then map_add (failuresByZone t) zone 1 else failuresByZone t)
    (minSuccessfulZones t) (maxUnavailableZones t).

Definition zone_successful (t : zoneAwareResultTracker) : Z :=
  foldl (λ successfulZones '(zone, numWaiting),
    if bool_decide (numWaiting = 0) && bool_decide (default 0 (failuresByZone t !! zone) = 0)
    then successfulZones + 1 else successfulZones)
    0 (map_range 84 (waitingByZone t)).

Definition tracker_done (t : resultTracker) (i : InstanceDesc) (failed : bool) : resultTracker :=
  match t with
  | DefaultTracker t => DefaultTracker (default_done t failed)
  | ZoneTracker t => ZoneTracker (zone_done t (Zone i) failed)
  end.
Definition tracker_succeeded (t : resultTracker) : bool :=
  match t with
  | DefaultTracker t => bool_decide (minSucceeded t ≤ numSucceeded t)
  | ZoneTracker t => bool_decide (minSuccessfulZones t ≤ zone_successful t)
  end.
Definition tracker_failed (t : resultTracker) : bool :=
  match t with
  | DefaultTracker t => bool_decide (maxErrors t < numErrors t)
  | ZoneTracker t => bool_decide (maxUnavailableZones t < Z.of_nat (size (failuresByZone t)))
  end.

(** ** [Do] *)
Section do.
Context {Res Err : Type}.

(** what the [select] of the loop can receive *)
Inductive do_event :=
| InstanceResult (i : InstanceDesc) (r : Res + Err)
| ContextDone (e : Err).

Inductive do_outcome :=
| DoReturned (results : list Res)
| DoFailed (e : Err)
| DoWaiting.   (* blocked in the select *)

(** The loop on the events it receives, with the number of tokens it sends on
    [forceStart].  [force] is [delay > 0 && r.MaxUnavailableZones == 0]. *)
Fixpoint Do_loop (force : bool) (events : list do_event) (tracker : resultTracker)
    (results : list Res) (forced : Z) : do_outcome * Z :=
  if tracker_succeeded tracker then (DoReturned results, forced)
  else
    match events with
    | [] => (DoWaiting, forced)
    | ContextDone e :: _ => (DoFailed e, forced)
    | InstanceResult i (inr e) :: events =>
        let tracker := tracker_done tracker i true in
        if tracker_failed tracker then (DoFailed e, forced)
        else Do_loop force events tracker results (if force then forced + 1 else forced)
    | InstanceResult i (inl res) :: events =>
        Do_loop force events (tracker_done tracker i false) (results ++ [res]) forced
    end.

Definition Do_tracker (r : ReplicationSet) : resultTracker :=
  if bool_decide (0 < MaxUnavailableZones r)
  then ZoneTracker (newZoneAwareResultTracker (Instances r) (MaxUnavailableZones r))
  else DefaultTracker (newDefaultResultTracker (Instances r) (MaxErrors r)).

Definition Do (r : ReplicationSet) (delay : Z) (events : list do_event) : do_outcome * Z :=
  let force := bool_decide (0 < delay) && bool_decide (MaxUnavailableZones r = 0) in
  Do_loop force events (Do_tracker r) [] 0.

(** the instances whose request waits for the delay or a [forceStart] token *)
Definition Do_delayed (r : ReplicationSet) (delay : Z) (i : nat) : bool :=
  bool_decide (0 < delay) && bool_decide (MaxUnavailableZones r = 0)
  && bool_decide (Z.of_nat (length (Instances r)) - MaxErrors r ≤ Z.of_nat i).
End do.
End trackers.
Arguments InstanceResult {Res Err} i r.
Arguments ContextDone {Res Err} e.
Arguments DoReturned {Res Err} results.
Arguments DoFailed {Res Err} e.
Arguments DoWaiting {Res Err}.

(** ** The other methods of [ReplicationSet] *)
Definition Includes (r : ReplicationSet) (addr : string) : bool :=
  existsb (λ i, bool_decide (Addr i = addr)) (Instances r).
Definition GetAddresses (r : ReplicationSet) : list string := Addr <$> Instances r.
Definition GetAddressesWithout (r : ReplicationSet) (exclude : string) : list string :=
  Addr <$> filter (λ i, Addr i ≠ exclude) (Instances r).

(** [sort.Sort(ByAddr(...))]: the result is determined when the addresses are
    distinct *)
Definition by_addr (i j : InstanceDesc) : Prop := String.le (Addr i) (Addr j).
#[export] Instance by_addr_dec i j : Decision (by_addr i j).
Proof. unfold by_addr. apply _. Defined.

Fixpoint instances_differ (exclude : InstanceDesc → InstanceDesc) (b a : list InstanceDesc) : bool :=
  match b, a with
  | i :: b, j :: a => if bool_decide (exclude i ≠ exclude j) then true else instances_differ exclude b a
  | _, _ => false
  end.
Definition hasReplicationSetChangedExcluding (before after : ReplicationSet)
    (exclude : InstanceDesc → InstanceDesc) : bool :=
  if bool_decide (length (Instances before) ≠ length (Instances after)) then true
  else instances_differ exclude (merge_sort by_addr (Instances before)) (merge_sort by_addr (Instances after)).
Definition HasReplicationSetChanged (before after : ReplicationSet) : bool :=
  hasReplicationSetChangedExcluding before after (λ i, set_Timestamp 0 i).
Definition HasReplicationSetChangedWithoutState (before after : ReplicationSet) : bool :=
  hasReplicationSetChangedExcluding before after (λ i, set_State PENDING (set_Timestamp 0 i)).

(** ** [ReplicationSet.Do] always decides

    The trackers reach exactly one of success and failure, so the collecting
    loop never waits for a result that will not come. *)
Section do.
Context `{R : MapRange} {Res Err : Type}.
Abbreviation report := (InstanceDesc * (Res + Err))%type.
Implicit Types l : list report.

Definition event (p : report) : do_event (Res:=Res) (Err:=Err) := InstanceResult p.1 p.2.
Definition is_failure (p : report) : bool := match p.2 with inl _ => false | inr _ => true end.
Definition failures l : Z := Z.of_nat (length (filter (λ p, is_failure p = true) l)).
Definition failed_zones l : gset string :=
  list_to_set ((λ p : report, Zone p.1) <$> filter (λ p, is_failure p = true) l).

Lemma failures_cons p l : failures (p :: l) = (if is_failure p then 1 else 0) + failures l.
Proof.
  unfold failures. rewrite filter_cons. destruct (is_failure p); [|done].
  rewrite decide_True by done. simpl. lia.
Qed.
Lemma failures_nonneg l : 0 ≤ failures l.
Proof. unfold failures. lia. Qed.

Lemma failed_zones_cons p l :
  failed_zones (p :: l) = (if is_failure p then {[Zone p.1]} else ∅) ∪ failed_zones l.
Proof.
  unfold failed_zones. rewrite filter_cons. destruct (is_failure p).
  - by rewrite decide_True.
  - rewrite decide_False by done. set_solver.
Qed.

(** [Do] with enough successes returns, with too many failures fails *)
Definition decides (ok : Prop) (o : do_outcome (Res:=Res) (Err:=Err)) : Prop :=
  match o with
  | DoReturned _ => ok
  | DoFailed _ => ¬ ok
  | DoWaiting => False
  end.

Lemma Do_default_decides force l t results forced :
  0 ≤ numErrors t ≤ maxErrors t →
  numSucceeded t + numErrors t + Z.of_nat (length l) = minSucceeded t + maxErrors t →
  let '(o, forced') := Do_loop force (event <$> l) (DefaultTracker t) results forced in
  decides (numErrors t + failures l ≤ maxErrors t) o ∧ forced' ≤ forced + (maxErrors t - numErrors t).
Proof.
  revert t results forced. induction l as [|[i r] l IH]; intros t results forced He Hn.
  - cbn. unfold failures in *. simpl in *. rewrite bool_decide_eq_true_2 by lia. simpl. lia.
  - rewrite failures_cons. pose proof (failures_nonneg l) as Hf. cbn.
    case_bool_decide as Hs.
    + simpl. split; [|lia]. simpl in Hn.
      assert (failures ((i, r) :: l) ≤ Z.of_nat (length ((i, r) :: l))) as Hle.
      { unfold failures. apply inj_le, length_filter. }
      rewrite failures_cons in Hle. simpl in Hle. lia.
    + unfold event. cbn [fst snd]. destruct r as [res|e].
      * specialize (IH (default_done t false) (results ++ [res]) forced).
        cbn [Do_loop tracker_done default_done] in *. destruct (Do_loop _ _ _ _ _).
        simpl in *. apply IH; lia.
      * cbn. case_bool_decide as Hfail; [simpl; lia|].
        specialize (IH (default_done t true) results (if force then forced + 1 else forced)).
        cbn [default_done] in *. destruct (Do_loop _ _ _ _ _). simpl in *.
        destruct IH as [H1 H2]; [lia|lia|]. split; [|destruct force; lia].
        destruct d; simpl in *; lia || done.
Qed.

(** *** The zone-aware tracker *)
Definition zone_count (z : string) l : Z := Z.of_nat (length (filter (λ p, Zone p.1 = z) l)).

Lemma zone_count_cons z p l : zone_count z (p :: l) = (if decide (Zone p.1 = z) then 1 else 0) + zone_count z l.
Proof. unfold zone_count. rewrite filter_cons. case_decide; simpl; lia. Qed.

Lemma zone_count_zero z l : zone_count z l = 0 → ∀ p, p ∈ l → Zone p.1 ≠ z.
Proof.
  unfold zone_count. intros Hz p Hp Hpz.
  assert (p ∈ filter (λ p, Zone p.1 = z) l) as Hin by by apply list_elem_of_filter.
  destruct (filter _ l); [by apply elem_of_nil in Hin|simpl in Hz; lia].
Qed.

(** the tracker when the reports [l] are still to come *)
Record zone_inv (t : zoneAwareResultTracker) l : Prop := {
  zi_waiting : ∀ z w, waitingByZone t !! z = Some w → w = zone_count z l;
  zi_zones : ∀ p, p ∈ l → is_Some (waitingByZone t !! Zone p.1);
  zi_failures : ∀ z n, failuresByZone t !! z = Some n → 0 < n ∧ is_Some (waitingByZone t !! z);
  zi_min : minSuccessfulZones t = Z.of_nat (size (waitingByZone t)) - maxUnavailableZones t
}.

Definition all_failed (t : zoneAwareResultTracker) l : gset string := dom (failuresByZone t) ∪ failed_zones l.

Definition successful (t : zoneAwareResultTracker) (kv : string * Z) : bool :=
  bool_decide (kv.2 = 0) && bool_decide (default 0 (failuresByZone t !! kv.1) = 0).

Lemma zone_successful_size t :
  zone_successful t = Z.of_nat (size (filter (λ kv, successful t kv = true) (waitingByZone t))).
Proof.
  unfold zone_successful.
  transitivity (foldl (λ n kv, if successful t kv then n + 1 else n) 0 (map_range 84 (waitingByZone t))).
  { assert (∀ (l : list (string * Z)) a,
      foldl (λ successfulZones '(zone, numWaiting),
        if bool_decide (numWaiting = 0) && bool_decide (default 0 (failuresByZone t !! zone) = 0)
        then successfulZones + 1 else successfulZones) a l
      = foldl (λ n kv, if successful t kv then n + 1 else n) a l) as Hl.
    { induction l as [|[z w] l IH]; intros a; [done|]. simpl. apply IH. }
    apply Hl. }
  rewrite foldl_count. f_equal. rewrite map_range_perm.
  rewrite <- (length_map_to_list (filter _ (waitingByZone t))), map_filter_alt.
  rewrite map_to_list_to_map; [done|].
  eapply sublist_NoDup; [apply (NoDup_fst_map_to_list (waitingByZone t))|]. apply fmap_sublist, sublist_filter.
Qed.

Lemma size_union_le (x y : gset string) : (size (x ∪ y) ≤ size x + size y)%nat.
Proof.
  rewrite size_union_alt. assert (size (y ∖ x) ≤ size y)%nat by (apply subseteq_size; set_solver). lia.
Qed.

(** a zone cannot be successful and failed *)
Lemma successful_bound t l :
  zone_inv t l → zone_successful t + Z.of_nat (size (all_failed t l)) ≤ Z.of_nat (size (waitingByZone t)).
Proof.
  intros [Hw Hz Hf _]. rewrite zone_successful_size, <- !(size_dom (D:=gset string)).
  unfold all_failed. rewrite <- Nat2Z.inj_add, <- size_union.
  - apply inj_le, subseteq_size. intros z [Hin|Hin]%elem_of_union.
    + apply elem_of_dom in Hin as [w [Hin _]%map_lookup_filter_Some]. by apply elem_of_dom_2 in Hin.
    + apply elem_of_dom. apply elem_of_union in Hin as [[n Hn]%elem_of_dom|Hin].
      * by apply (Hf z n).
      * apply elem_of_list_to_set, list_elem_of_fmap in Hin as (p & -> & [_ Hp]%list_elem_of_filter). by apply Hz.
  - intros z Hin Hfail. unfold all_failed in Hfail. apply elem_of_dom in Hin as [w [Hin Hs]%map_lookup_filter_Some].
    unfold successful in Hs. simpl in Hs. reflect.
    apply elem_of_union in Hfail as [[n Hn]%elem_of_dom|Hfail].
    + destruct (Hf z n Hn) as [Hpos _]. rewrite Hn in H0. simpl in H0. lia.
    + apply elem_of_list_to_set, list_elem_of_fmap in Hfail as (p & -> & [_ Hp]%list_elem_of_filter).
      apply Hw in Hin. rewrite Hin in H. by apply (zone_count_zero (Zone p.1) l H p Hp).
Qed.

(** when everything has been reported every zone is successful or failed *)
Lemma successful_all t :
  zone_inv t [] → zone_successful t + Z.of_nat (size (all_failed t [])) = Z.of_nat (size (waitingByZone t)).
Proof.
  intros Hi. pose proof (successful_bound t [] Hi) as Hle. destruct Hi as [Hw Hz Hf _].
  enough (Z.of_nat (size (waitingByZone t)) ≤ zone_successful t + Z.of_nat (size (all_failed t []))) by lia.
  rewrite zone_successful_size, <- !(size_dom (D:=gset string)).
  rewrite <- Nat2Z.inj_add. apply inj_le.
  etrans; [|apply size_union_le]. apply subseteq_size.
  intros z [w Hzw]%elem_of_dom. apply elem_of_union. destruct (failuresByZone t !! z) as [n|] eqn:Hn.
  - right. unfold all_failed. apply elem_of_union_l. by eapply elem_of_dom_2.
  - left. apply elem_of_dom. exists w. apply map_lookup_filter_Some. split; [done|].
    unfold successful. simpl. rewrite Hn. simpl. rewrite (Hw z w Hzw). done.
Qed.

Lemma zone_done_inv t p l : zone_inv t (p :: l) → zone_inv (zone_done t (Zone p.1) (is_failure p)) l.
Proof.
  intros [Hw Hz Hf Hm]. destruct (Hz p ltac:(by left)) as [w0 Hw0].
  assert (∀ z, is_Some (waitingByZone (zone_done t (Zone p.1) (is_failure p)) !! z) ↔ is_Some (waitingByZone t !! z)) as Hdom.
  { intros z. unfold zone_done, map_add. simpl. destruct (decide (z = Zone p.1)) as [->|Hne].
    - rewrite lookup_insert_eq, Hw0. split; eauto.
    - by rewrite lookup_insert_ne. }
  constructor.
  - intros z w. unfold zone_done, map_add. simpl. destruct (decide (z = Zone p.1)) as [->|Hne].
    + rewrite lookup_insert_eq. intros [= <-]. rewrite Hw0. simpl. rewrite (Hw _ _ Hw0), zone_count_cons, decide_True by done. lia.
    + rewrite lookup_insert_ne by done. intros Hzw. rewrite (Hw _ _ Hzw), zone_count_cons, decide_False by done. lia.
  - intros p' Hp'. apply Hdom, Hz. by right.
  - intros z n Hn. rewrite Hdom. revert Hn. unfold zone_done, map_add. simpl.
    destruct (is_failure p); [|apply Hf]. destruct (decide (z = Zone p.1)) as [->|Hne].
    + rewrite lookup_insert_eq. intros [= <-]. split; [|eauto].
      destruct (failuresByZone t !! Zone p.1) as [n|] eqn:Hn; simpl; [|lia]. apply Hf in Hn. lia.
    + rewrite lookup_insert_ne by done. apply Hf.
  - simpl. rewrite Hm. f_equal. unfold map_add. by rewrite map_size_insert_Some by eauto.
Qed.

Lemma zone_done_failed t p l :
  all_failed (zone_done t (Zone p.1) (is_failure p)) l = all_failed t (p :: l).
Proof.
  unfold all_failed. rewrite failed_zones_cons. unfold zone_done, map_add. simpl.
  destruct (is_failure p); [rewrite dom_insert_L|]; set_solver.
Qed.

Lemma Do_zone_decides force l t results forced :
  zone_inv t l → Z.of_nat (size (failuresByZone t)) ≤ maxUnavailableZones t →
  decides (Z.of_nat (size (all_failed t l)) ≤ maxUnavailableZones t)
    (Do_loop force (event <$> l) (ZoneTracker t) results forced).1.
Proof.
  revert t results forced. induction l as [|[i r] l IH]; intros t results forced Hi Hf.
  - cbn. pose proof (successful_all t Hi) as Hall. pose proof (zi_min _ _ Hi) as Hm.
    assert (all_failed t [] = dom (failuresByZone t)) as He by (unfold all_failed, failed_zones; set_solver).
    rewrite He, size_dom in Hall |- *. rewrite bool_decide_eq_true_2 by lia. simpl. lia.
  - pose proof (successful_bound t _ Hi) as Hb. pose proof (zi_min _ _ Hi) as Hm. cbn.
    case_bool_decide as Hs; [simpl; lia|].
    pose proof (zone_done_inv t (i, r) l Hi) as Hi'. pose proof (zone_done_failed t (i, r) l) as Hfail.
    unfold event. cbn [fst snd] in *. rewrite <- Hfail. destruct r as [res|e]; cbn [is_failure snd] in *.
    + exact (IH (zone_done t (Zone i) false) _ _ Hi' Hf).
    + cbn. case_bool_decide as Hfl.
      * simpl. unfold decides, all_failed.
        assert (size (dom (map_add (failuresByZone t) (Zone i) 1)) ≤
          size (dom (map_add (failuresByZone t) (Zone i) 1) ∪ failed_zones l))%nat
          by (apply subseteq_size; set_solver).
        rewrite size_dom in H. unfold zone_done. simpl. lia.
      * apply (IH (zone_done t (Zone i) true) results _ Hi'). simpl in *. lia.
Qed.

Lemma Do_loop_unforced (es : list (do_event (Res:=Res) (Err:=Err))) t results forced :
  (Do_loop false es t results forced).2 = forced.
Proof.
  revert t results. induction es as [|[i [res|e]|e] es IH]; intros t results; cbn; repeat case_match; auto.
Qed.

Lemma zone_inv_init instances mu l :
  l.*1 ≡ₚ instances → zone_inv (newZoneAwareResultTracker instances mu) l.
Proof.
  intros Hp. set (waiting := foldl (λ m i, map_add m (Zone i) 1) ∅ instances).
  assert (∀ (insts : list InstanceDesc) (m : gmap string Z) z,
    default 0 (foldl (λ m i, map_add m (Zone i) 1) m insts !! z)
      = default 0 (m !! z) + Z.of_nat (length (filter (λ i, Zone i = z) insts)) ∧
    (is_Some (foldl (λ m i, map_add m (Zone i) 1) m insts !! z) ↔ is_Some (m !! z) ∨ ∃ i, i ∈ insts ∧ Zone i = z)) as Hw.
  { induction insts as [|i insts IH]; intros m z.
    - simpl. split; [lia|]. split; [by left|]. intros [?|(i & Hi & _)]; [done|]. by apply elem_of_nil in Hi.
    - simpl. destruct (IH (map_add m (Zone i) 1) z) as [-> ->]. rewrite filter_cons. unfold map_add.
      destruct (decide (Zone i = z)) as [<-|Hne].
      + rewrite lookup_insert_eq. simpl. split; [lia|]. split; [|eauto]. intros _. right. exists i. split; [by left|done].
      + rewrite lookup_insert_ne by done. split; [done|]. setoid_rewrite elem_of_cons.
        split; [intros [?|(j & ? & ?)]; eauto|]. intros [?|(j & [->|?] & ?)]; eauto; congruence. }
  assert (∀ z, zone_count z l = Z.of_nat (length (filter (λ i, Zone i = z) instances))) as Hc.
  { intros z. unfold zone_count. f_equal. rewrite <- Hp. clear. induction l as [|p l IH]; [done|].
    rewrite fmap_cons, !filter_cons. destruct (decide (Zone p.1 = z)); simpl; by rewrite IH. }
  constructor; simpl; fold waiting.
  - intros z w Hz. destruct (Hw instances ∅ z) as [Hd _]. fold waiting in Hd. rewrite Hz, lookup_empty in Hd.
    simpl in Hd. by rewrite Hc.
  - intros p Hin. apply (Hw instances ∅ (Zone p.1)). right. exists p.1. split; [|done].
    rewrite <- Hp. by apply list_elem_of_fmap_2.
  - intros z n Hz. by rewrite lookup_empty in Hz.
  - done.
Qed.

(** every instance reports once, in the order [reports] *)
Definition all_report (r : ReplicationSet) (reports : list report) : Prop := reports.*1 ≡ₚ Instances r.

(** the failures the replication set tolerates *)
Definition tolerated (r : ReplicationSet) (reports : list report) : Prop :=
  if bool_decide (0 < MaxUnavailableZones r)
  then Z.of_nat (size (failed_zones reports)) ≤ MaxUnavailableZones r
  else failures reports ≤ MaxErrors r.

(** C23. [ReplicationSet.Do]: when every instance eventually reports, in
    whatever order, the collecting loop never stays blocked: it returns the
    results when the failures are within the tolerance of the set (at most
    [MaxErrors] failed instances, or at most [MaxUnavailableZones] zones with a
    failed instance) and an error when they are not; and it never sends more
    than [MaxErrors] tokens on [forceStart], so that it does not block on that
    channel, whose capacity that is. *)
Theorem Do_decides (r : ReplicationSet) (delay : Z) (reports : list report) :
  0 ≤ MaxErrors r ≤ Z.of_nat (length (Instances r)) → all_report r reports →
  decides (tolerated r reports) (Do r delay (event <$> reports)).1 ∧
  (Do r delay (event <$> reports)).2 ≤ MaxErrors r.
Proof.
  intros Hme Hall. unfold Do, Do_tracker, tolerated. case_bool_decide as Hz.
  - rewrite (bool_decide_eq_false_2 (MaxUnavailableZones r = 0)) by lia. rewrite andb_false_r. split.
    + pose proof (Do_zone_decides false reports (newZoneAwareResultTracker (Instances r) (MaxUnavailableZones r)) [] 0
        (zone_inv_init _ _ _ Hall)) as Hd.
      unfold all_failed in Hd. simpl in Hd. rewrite dom_empty_L, union_empty_l_L in Hd. apply Hd. rewrite map_size_empty. lia.
    + rewrite Do_loop_unforced. lia.
  - pose proof (Do_default_decides (bool_decide (0 < delay) && bool_decide (MaxUnavailableZones r = 0)) reports
      (newDefaultResultTracker (Instances r) (MaxErrors r)) [] 0) as Hd.
    destruct (Do_loop _ _ _ _ _) as [o f]. unfold all_report in Hall. apply Permutation_length in Hall.
    rewrite length_fmap in Hall. simpl in Hd |- *. destruct Hd as [Hd1 Hd2]; [lia|lia|]. split; [|lia].
    by replace (0 + failures reports) with (failures reports) in Hd1 by lia.
Qed.
End do.

(** ** [HasReplicationSetChanged] *)
Section changed.
Variable exclude : InstanceDesc → InstanceDesc.
Hypothesis exclude_Addr : ∀ i, Addr (exclude i) = Addr i.

Lemma instances_differ_false b a :
  length b = length a → instances_differ exclude b a = false ↔ exclude <$> b = exclude <$> a.
Proof using Type.
  clear exclude_Addr. revert a. induction b as [|i b IH]; intros [|j a] Hl; try done. simpl in Hl. cbn [instances_differ fmap list_fmap].
  simpl. case_bool_decide as Hd; [split; [done|intros [= H1 H2]; congruence]|]. rewrite IH by lia. split; [intros H; by rewrite Hd, H|by intros [= _ H]].
Qed.

#[local] Instance by_addr_trans : Transitive by_addr.
Proof. intros i j k. unfold by_addr. apply transitivity. Qed.
#[local] Instance by_addr_total : Total by_addr.
Proof. intros i j. unfold by_addr. apply (total String.le). Qed.

Lemma excluding_false before after :
  NoDup (Addr <$> Instances before) →
  hasReplicationSetChangedExcluding before after exclude = false
  ↔ exclude <$> Instances before ≡ₚ exclude <$> Instances after.
Proof using exclude_Addr.
  intros Hnd. unfold hasReplicationSetChangedExcluding. case_bool_decide as Hlen.
  { split; [done|]. intros Hp%Permutation_length. rewrite !length_fmap in Hp. done. }
  pose proof (merge_sort_Permutation by_addr (Instances before)) as Hpb.
  pose proof (merge_sort_Permutation by_addr (Instances after)) as Hpa.
  rewrite instances_differ_false by (by rewrite Hpb, Hpa). split.
  - intros He. by rewrite <- Hpb, He, Hpa.
  - intros Hp. assert (∀ l, StronglySorted by_addr (exclude <$> merge_sort by_addr l)) as Hs.
    { intros l. pose proof (StronglySorted_merge_sort by_addr l) as Hs.
      induction Hs as [|x l' Hs IH Hx]; [constructor|]. constructor; [done|].
      apply Forall_fmap. eapply Forall_impl; [exact Hx|]. intros y. unfold by_addr. simpl. by rewrite !exclude_Addr. }
    apply (StronglySorted_unique_strong by_addr); [|apply Hs|apply Hs|by rewrite Hpb, Hpa].
    intros x y Hx Hy Hxy Hyx. rewrite Hpa, <- Hp in Hy. rewrite Hpb in Hx.
    apply list_elem_of_fmap in Hx as (x' & -> & Hx). apply list_elem_of_fmap in Hy as (y' & -> & Hy).
    f_equal. unfold by_addr in *. rewrite !exclude_Addr in *.
    assert (Addr x' = Addr y') as Ha by by apply (anti_symm String.le).
    apply list_elem_of_lookup in Hx as [n Hx], Hy as [m Hy].
    enough (n = m) by congruence. eapply (NoDup_lookup _ n m (Addr x') Hnd); rewrite list_lookup_fmap.
    + by rewrite Hx.
    + by rewrite Hy, Ha.
Qed.
End changed.

(** [HasReplicationSetChanged] and [HasReplicationSetChangedWithoutState]
    return [false] exactly when the two sets hold the same instances, in any
    order, up to the timestamps (and states): they return [true] when the sets
    differ. *)
Theorem HasReplicationSetChanged_decides (before after : ReplicationSet) :
  NoDup (Addr <$> Instances before) →
  (HasReplicationSetChanged before after = false ↔
     set_Timestamp 0 <$> Instances before ≡ₚ set_Timestamp 0 <$> Instances after) ∧
  (HasReplicationSetChangedWithoutState before after = false ↔
     (λ i, set_State PENDING (set_Timestamp 0 i)) <$> Instances before ≡ₚ
     (λ i, set_State PENDING (set_Timestamp 0 i)) <$> Instances after).
Proof. intros Hnd. split; apply excluding_false; done. Qed.

(** ** Witnesses *)
Section witnesses.
#[local] Existing Instance map_range_std.

Definition ex_i (addr zone : string) (ts : Z) : InstanceDesc := mkInstanceDesc addr ts ACTIVE [] zone 0.
Definition ex_set (me mz : Z) : ReplicationSet :=
  mkReplicationSet [ex_i "a" "z1" 1; ex_i "b" "z1" 1; ex_i "c" "z2" 1; ex_i "d" "z3" 1] me mz.
(** two failures in zone z1 *)
Definition ex_reports : list (InstanceDesc * (nat + nat)) :=
  [(ex_i "d" "z3" 1, inl 4%nat); (ex_i "b" "z1" 1, inr 2%nat); (ex_i "a" "z1" 1, inr 1%nat);
   (ex_i "c" "z2" 1, inl 3%nat)].

Lemma ex_reports_all me mz : all_report (ex_set me mz) ex_reports.
Proof.
  unfold all_report, ex_set, ex_reports. simpl.
  apply NoDup_Permutation; [(refine (bool_decide_unpack _ _); vm_compute; exact I)|(refine (bool_decide_unpack _ _); vm_compute; exact I)|]. intros i. rewrite !elem_of_cons, elem_of_nil. tauto.
Qed.

(** one failed zone is tolerated, two failed instances are not *)
Lemma Do_decides_witness :
  (decides (tolerated (ex_set 0 1) ex_reports) (Do (ex_set 0 1) 0 (event <$> ex_reports)).1 ∧
   (Do (ex_set 0 1) 0 (event <$> ex_reports)).2 ≤ 0) ∧
  (decides (tolerated (ex_set 1 0) ex_reports) (Do (ex_set 1 0) 5 (event <$> ex_reports)).1 ∧
   (Do (ex_set 1 0) 5 (event <$> ex_reports)).2 ≤ 1).
Proof.
  refine (conj (Do_decides (ex_set 0 1) 0 ex_reports _ (ex_reports_all 0 1))
    (Do_decides (ex_set 1 0) 5 ex_reports _ (ex_reports_all 1 0))); vm_compute; split; discriminate.
Defined.

Example Do_runs :
  (Do (ex_set 0 1) 0 (event <$> ex_reports)).1 = DoReturned [4%nat; 3%nat] ∧
  (Do (ex_set 1 0) 5 (event <$> ex_reports)) = (DoFailed 1%nat, 1).
Proof. split; vm_compute; reflexivity. Qed.

Lemma HasReplicationSetChanged_decides_witness :
  let after := mkReplicationSet [ex_i "d" "z3" 2; ex_i "c" "z2" 1; ex_i "a" "z1" 1; ex_i "b" "z1" 9] 0 0 in
  (HasReplicationSetChanged (ex_set 1 0) after = false ↔
     set_Timestamp 0 <$> Instances (ex_set 1 0) ≡ₚ set_Timestamp 0 <$> Instances after) ∧
  (HasReplicationSetChangedWithoutState (ex_set 1 0) after = false ↔
     (λ i, set_State PENDING (set_Timestamp 0 i)) <$> Instances (ex_set 1 0) ≡ₚ
     (λ i, set_State PENDING (set_Timestamp 0 i)) <$> Instances after).
Proof. intros after. apply (HasReplicationSetChanged_decides (ex_set 1 0) after). (refine (bool_decide_unpack _ _); vm_compute; exact I). Defined.
End witnesses.
