(* ===== verification/Batch.v ===== *)
(** * Batches of keys: [ring/batch.go]

    [DoBatch] groups the keys by instance, starts a goroutine per instance and
    waits for the first of: enough successes for every key, too many failures
    for one key, the end of the context.  The goroutines share the item
    trackers and the two counters of the [batchTracker] through atomic
    operations only: the model interleaves these operations and the sends on
    the two channels, which have room for one value. *)
From Stdlib Require Import ZArith Lia.
From stdpp Require Import base gmap strings list sorting fin_maps relations.
From S2P Require Import Prelude Model Ring.

(** The part of the [ReadRing] interface the batch uses *)
Class ReadRing := {
  InstancesCount : Z;
  Ring_ReplicationFactor : Z;
  ReadRing_Get : Z → Operation → result ring_error ReplicationSet
}.
(** what [DoBatch] needs from [Get]: at least one of the instances has to
    succeed *)
Class ReadRingLaws (r : ReadRing) :=
  Get_errors : ∀ key op rs, ReadRing_Get key op = Ok rs →
    0 ≤ MaxErrors rs < Z.of_nat (length (Instances rs)).

(** [itemTracker]; the [int32] counters *)
Record itemTracker := mkItemTracker {
  minSuccess : Z;
  maxFailures : Z;
  succeeded : Z;
  failed : Z
}.
(** [instance]: the item trackers are pointers into the slice of all the
    trackers, so their positions in it *)
Record instance := mkInstanceBatch {
  desc : InstanceDesc;
  itemTrackers : list nat;
  indexes : list nat
}.

Inductive batch_error (E : Type) :=
| ErrInstancesCount
| ErrRing (e : ring_error)
| ErrCallback (e : E)
| ErrContext.
Arguments ErrInstancesCount {E}.
Arguments ErrRing {E} e.
Arguments ErrCallback {E} e.
Arguments ErrContext {E}.

(** ** Grouping the keys *)
Definition DoBatch_add (i : nat) (instances : gmap string instance) (d : InstanceDesc) : gmap string instance :=
  let curr := default (mkInstanceBatch d [] []) (instances !! Addr d) in
  <[Addr d := mkInstanceBatch d (itemTrackers curr ++ [i]) (indexes curr ++ [i])]> instances.

Fixpoint DoBatch_keys `{ReadRing} (op : Operation) (i : nat) (keys : list Z)
    (items : list itemTracker) (instances : gmap string instance)
    : result ring_error (list itemTracker * gmap string instance) :=
  match keys with
  | [] => Ok (items, instances)
  | key :: keys =>
      match ReadRing_Get key op with
      | Err e => Err e
      | Ok replicationSet =>
          let item := mkItemTracker
            (Z.of_nat (length (Instances replicationSet)) - MaxErrors replicationSet)
            (MaxErrors replicationSet) 0 0 in
          DoBatch_keys op (S i) keys (<[i := item]> items)
            (foldl (DoBatch_add i) instances (Instances replicationSet))
      end
  end.

(** ** The goroutines *)
Section batch.
Context {E : Type}.

(** Where the goroutine of an instance is: in the callback, at the head of the
    loop of [record], or before one of its other shared operations; with the
    trackers it has still to process after the current one. *)
Inductive worker :=
| Calling (items : list nat)
| Recording (err : option E) (rest : list nat)
| IncRpcsFailed (err : E) (rest : list nat)
| SendErr (err : E) (rest : list nat)
| DecRpcsPending (rest : list nat)
| SendDone (rest : list nat)
| WgDone.

(** The caller of [DoBatch], waiting in the [select] or returned.  The
    channels [done] and [err] hold at most one value each. *)
Record batch := mkBatch {
  items : list itemTracker;
  rpcsPending : Z;
  rpcsFailed : Z;
  done_chan : nat;
  err_chan : list E;
  workers : list worker;
  cleanups : nat;
  returned : option (result (batch_error E) unit)
}.
Definition set_items x (b : batch) := mkBatch x (rpcsPending b) (rpcsFailed b) (done_chan b) (err_chan b) (workers b) (cleanups b) (returned b).
Definition set_rpcsPending x (b : batch) := mkBatch (items b) x (rpcsFailed b) (done_chan b) (err_chan b) (workers b) (cleanups b) (returned b).
Definition set_rpcsFailed x (b : batch) := mkBatch (items b) (rpcsPending b) x (done_chan b) (err_chan b) (workers b) (cleanups b) (returned b).
Definition set_done_chan x (b : batch) := mkBatch (items b) (rpcsPending b) (rpcsFailed b) x (err_chan b) (workers b) (cleanups b) (returned b).
Definition set_err_chan x (b : batch) := mkBatch (items b) (rpcsPending b) (rpcsFailed b) (done_chan b) x (workers b) (cleanups b) (returned b).
Definition set_workers x (b : batch) := mkBatch (items b) (rpcsPending b) (rpcsFailed b) (done_chan b) (err_chan b) x (cleanups b) (returned b).
Definition set_cleanups x (b : batch) := mkBatch (items b) (rpcsPending b) (rpcsFailed b) (done_chan b) (err_chan b) (workers b) x (returned b).
Definition set_returned x (b : batch) := mkBatch (items b) (rpcsPending b) (rpcsFailed b) (done_chan b) (err_chan b) (workers b) (cleanups b) x.

Definition IncFailed (t : itemTracker) : itemTracker :=
  mkItemTracker (minSuccess t) (maxFailures t) (succeeded t) (i32 (failed t + 1)).
Definition IncSucceeded (t : itemTracker) : itemTracker :=
  mkItemTracker (minSuccess t) (maxFailures t) (i32 (succeeded t + 1)) (failed t).

(** One atomic operation of [record] by a worker.  [None]: it cannot move (it
    has finished, is in its callback, or the channel is full). *)
Definition record_step (b : batch) (w : worker) : option (batch * worker) :=
  match w with
  | Calling _ => None
  | Recording _ [] => Some (b, WgDone)
  | Recording (Some e) (i :: rest) =>
      t ← items b !! i;
      let t := IncFailed t in
      Some (set_items (<[i := t]> (items b)) b,
            if bool_decide (failed t ≤ i32 (maxFailures t)) then Recording (Some e) rest
            else IncRpcsFailed e rest)
  | Recording None (i :: rest) =>
      t ← items b !! i;
      let t := IncSucceeded t in
      Some (set_items (<[i := t]> (items b)) b,
            if bool_decide (succeeded t ≠ i32 (minSuccess t)) then Recording None rest
            else DecRpcsPending rest)
  | IncRpcsFailed e rest =>
      let n := i32 (rpcsFailed b + 1) in
      Some (set_rpcsFailed n b, if bool_decide (n = 1) then SendErr e rest else Recording (Some e) rest)
  | SendErr e rest =>
      if bool_decide (length (err_chan b) < 1)%nat
      then Some (set_err_chan (err_chan b ++ [e]) b, Recording (Some e) rest) else None
  | DecRpcsPending rest =>
      let n := i32 (rpcsPending b - 1) in
      Some (set_rpcsPending n b, if bool_decide (n = 0) then SendDone rest else Recording None rest)
  | SendDone rest =>
      if bool_decide (done_chan b < 1)%nat
      then Some (set_done_chan (S (done_chan b)) b, Recording None rest) else None
  | WgDone => None
  end.

(** the steps of the program, the end of the context apart *)
Inductive go_step : batch → batch → Prop :=
(** the callback of an instance returns *)
| step_callback b n l err :
    workers b !! n = Some (Calling l) →
    go_step b (set_workers (<[n := Recording err l]> (workers b)) b)
(** a worker makes one step of [record] *)
| step_record b n w b' w' :
    workers b !! n = Some w → record_step b w = Some (b', w') →
    go_step b (set_workers (<[n := w']> (workers b')) b')
(** the goroutine that waits for all the workers and cleans up *)
| step_cleanup b :
    Forall (λ w, w = WgDone) (workers b) → cleanups b = 0%nat →
    go_step b (set_cleanups (S (cleanups b)) b)
(** the [select] of the caller *)
| step_err b e es :
    returned b = None → err_chan b = e :: es →
    go_step b (set_returned (Some (Err (ErrCallback e))) (set_err_chan es b))
| step_done b n :
    returned b = None → done_chan b = S n →
    go_step b (set_returned (Some (Ok tt)) (set_done_chan n b)).

(** the context can end at any time *)
Inductive batch_step : batch → batch → Prop :=
| step_go b b' : go_step b b' → batch_step b b'
| step_context b :
    returned b = None → batch_step b (set_returned (Some (Err ErrContext)) b).

(** ** [DoBatch]: the early returns, which clean up at once, or the state in
    which the goroutines have just been started *)
Definition start_worker (kv : string * instance) : worker := Calling (itemTrackers kv.2).

Definition DoBatch_start `{MapRange, ReadRing} (op : Operation) (keys : list Z) : batch :=
  let stopped e := mkBatch [] 0 0 0 [] [] 1 (Some (Err e)) in
  if bool_decide (InstancesCount ≤ 0) then stopped ErrInstancesCount
  else
    match DoBatch_keys op 0 keys (replicate (length keys) (mkItemTracker 0 0 0 0)) ∅ with
    | Err e => stopped (ErrRing e)
    | Ok (its, instances) =>
        mkBatch its (i32 (Z.of_nat (length its))) 0 0 []
          (start_worker <$> map_range 89 instances) 0 None
    end.
End batch.
Arguments worker : clear implicits.
Arguments batch : clear implicits.
