(* ===== verification/BatchFacts.v ===== *)
(** * [DoBatch] sends exactly one signal

    The invariant of the interleaved goroutines of a batch, and the theorem:
    the caller is woken up, once, with the right verdict. *)
From Stdlib Require Import ZArith Lia.
From stdpp Require Import base gmap strings list sorting fin_maps relations.
From S2P Require Import Prelude Model Ring RingFacts Batch.

(** ** Sums over lists *)
Definition lsum {A} (f : A → Z) (l : list A) : Z := foldr (λ x s, f x + s) 0 l.

Section lsum.
Context {A : Type}.
Implicit Types (f g : A → Z) (l : list A).

Lemma lsum_insert f l n x y : l !! n = Some x → lsum f (<[n := y]> l) = lsum f l - f x + f y.
Proof.
  revert n. induction l as [|z l IH]; intros [|n] Hn; try done; simpl.
  - injection Hn as ->. lia.
  - rewrite IH by done. lia.
Qed.
Lemma lsum_nonneg f l : (∀ x, 0 ≤ f x) → 0 ≤ lsum f l.
Proof. intros Hf. induction l as [|x l IH]; simpl; [done|]. specialize (Hf x). lia. Qed.
Lemma lsum_ge f l n x : (∀ x, 0 ≤ f x) → l !! n = Some x → f x ≤ lsum f l.
Proof.
  intros Hf. revert n. induction l as [|z l IH]; intros [|n] Hn; try done; simpl in *.
  - injection Hn as ->. pose proof (lsum_nonneg f l Hf). lia.
  - specialize (IH _ Hn). specialize (Hf z). lia.
Qed.
Lemma lsum_le f g l : (∀ x, x ∈ l → f x ≤ g x) → lsum f l ≤ lsum g l.
Proof.
  induction l as [|x l IH]; intros Hfg; simpl; [done|].
  specialize (Hfg x) as Hx. specialize (IH (λ y Hy, Hfg y ltac:(by right))). assert (f x ≤ g x) by (apply Hx; by left). lia.
Qed.
Lemma lsum_zero f l : (∀ x, x ∈ l → f x = 0) → lsum f l = 0.
Proof.
  induction l as [|x l IH]; intros Hf; simpl; [done|]. rewrite (Hf x) by (by left).
  rewrite IH; [done|]. intros y Hy. apply Hf. by right.
Qed.
Lemma lsum_zero_inv f l : (∀ x, 0 ≤ f x) → lsum f l = 0 → ∀ x, x ∈ l → f x = 0.
Proof.
  intros Hf Hz x [n Hn]%list_elem_of_lookup. pose proof (lsum_ge f l n x Hf Hn). specialize (Hf x). lia.
Qed.
Lemma lsum_perm f l l' : l ≡ₚ l' → lsum f l = lsum f l'.
Proof. induction 1; simpl; lia. Qed.
Lemma lsum_pos f l : (∀ x, 0 ≤ f x) → 0 < lsum f l → ∃ x, x ∈ l ∧ 0 < f x.
Proof.
  intros Hf. induction l as [|x l IH]; simpl; [lia|]. intros Hp. destruct (decide (0 < f x)).
  - exists x. split; [by left|done].
  - specialize (Hf x). destruct IH as (y & Hy & ?); [lia|]. exists y. split; [by right|done].
Qed.
End lsum.

Lemma lsum_fmap {A B} (g : A → B) (f : B → Z) l : lsum f (g <$> l) = lsum (f ∘ g) l.
Proof. induction l as [|x l IH]; [done|]. simpl. by rewrite <- IH. Qed.

Lemma lsum_map_insert {V} (f : string * V → Z) (m : gmap string V) k v :
  lsum f (map_to_list (<[k := v]> m))
  = lsum f (map_to_list m) - match m !! k with Some v0 => f (k, v0) | None => 0 end + f (k, v).
Proof.
  destruct (m !! k) as [v0|] eqn:Hk.
  - rewrite <- (insert_delete_eq m k v), <- (insert_id m k v0 Hk) at 1.
    rewrite <- (insert_id m k v0 Hk) at 2. rewrite <- (insert_delete_eq m k v0) at 2.
    rewrite delete_insert_eq.
    rewrite (lsum_perm f _ _ (map_to_list_insert (delete k m) k v (lookup_delete_eq _ _))).
    rewrite (lsum_perm f _ _ (map_to_list_insert (delete k m) k v0 (lookup_delete_eq _ _))). simpl. lia.
  - rewrite (lsum_perm f _ _ (map_to_list_insert m k v Hk)). simpl. lia.
Qed.

(** ** The invariant *)
Section batch.
Context {E : Type}.
Implicit Types (b : batch E) (w : worker E) (t : itemTracker).

Definition todo w : list nat :=
  match w with
  | Calling l | Recording _ l | IncRpcsFailed _ l | SendErr _ l | DecRpcsPending l | SendDone l => l
  | WgDone => []
  end.
Definition occurs (i : nat) (l : list nat) : Z := lsum (λ j, if decide (j = i) then 1 else 0) l.
Definition is_IncRpcsFailed w : Z := match w with IncRpcsFailed _ _ => 1 | _ => 0 end.
Definition is_SendErr w : Z := match w with SendErr _ _ => 1 | _ => 0 end.
Definition is_DecRpcsPending w : Z := match w with DecRpcsPending _ => 1 | _ => 0 end.
Definition is_SendDone w : Z := match w with SendDone _ => 1 | _ => 0 end.
Definition returned_ok b : Z := match returned b with Some (Ok _) => 1 | _ => 0 end.
Definition returned_err b : Z := match returned b with Some (Err (ErrCallback _)) => 1 | _ => 0 end.

(** the replicas of an item, the failures in excess, whether it still waits *)
Definition replicas_of t : Z := minSuccess t + maxFailures t.
Definition excess t : Z := Z.max 0 (failed t - maxFailures t).
Definition waiting t : Z := if decide (succeeded t < minSuccess t) then 1 else 0.

(** the responses an item still has to get *)
Definition outstanding (i : nat) b : Z := lsum (λ w, occurs i (todo w)) (workers b).

Record item_ok (i : nat) b t : Prop := {
  item_balance : succeeded t + failed t + outstanding i b = replicas_of t;
  item_succeeded : 0 ≤ succeeded t;
  item_failed : 0 ≤ failed t;
  item_minSuccess : 1 ≤ minSuccess t;
  item_maxFailures : 0 ≤ maxFailures t
}.

Record batch_inv b : Prop := {
  inv_nonempty : items b ≠ [];
  inv_size : lsum replicas_of (items b) < 2 ^ 31;
  inv_items : ∀ i t, items b !! i = Some t → item_ok i b t;
  inv_todo : ∀ w i, w ∈ workers b → i ∈ todo w → is_Some (items b !! i);
  inv_pending : rpcsPending b = lsum waiting (items b) + lsum is_DecRpcsPending (workers b);
  inv_pending_max : rpcsPending b < 2 ^ 31;
  inv_done : Z.of_nat (done_chan b) + returned_ok b + lsum is_SendDone (workers b)
             = if decide (rpcsPending b = 0) then 1 else 0;
  inv_failed_nonneg : 0 ≤ rpcsFailed b;
  inv_failed : rpcsFailed b + lsum is_IncRpcsFailed (workers b) = lsum excess (items b);
  inv_err : Z.of_nat (length (err_chan b)) + returned_err b + lsum is_SendErr (workers b)
            = if decide (rpcsFailed b = 0) then 0 else 1;
  inv_cleanups : (cleanups b = 0%nat ∨ cleanups b = 1%nat ∧ Forall (λ w, w = WgDone) (workers b))
}.

Lemma occurs_nonneg i l : 0 ≤ occurs i l.
Proof. apply lsum_nonneg. intros j. case_decide; lia. Qed.
Lemma occurs_cons i j l : occurs i (j :: l) = (if decide (j = i) then 1 else 0) + occurs i l.
Proof. done. Qed.
Lemma occurs_self i l : 1 ≤ occurs i (i :: l).
Proof. rewrite occurs_cons, decide_True by done. pose proof (occurs_nonneg i l). lia. Qed.
Lemma occurs_zero i l : occurs i l = 0 → i ∉ l.
Proof.
  induction l as [|j l IH]; intros Hz; [apply not_elem_of_nil|]. rewrite occurs_cons in Hz.
  pose proof (occurs_nonneg i l). apply not_elem_of_cons. split; [intros ->; rewrite decide_True in Hz by done; lia|].
  apply IH. case_decide; lia.
Qed.
Lemma kinds_nonneg w :
  0 ≤ is_IncRpcsFailed w ∧ 0 ≤ is_SendErr w ∧ 0 ≤ is_DecRpcsPending w ∧ 0 ≤ is_SendDone w.
Proof. destruct w; simpl; lia. Qed.
Lemma waiting_nonneg t : 0 ≤ waiting t.
Proof. unfold waiting. case_decide; lia. Qed.
Lemma outstanding_nonneg i b : 0 ≤ outstanding i b.
Proof. apply lsum_nonneg. intros w. apply occurs_nonneg. Qed.
Lemma excess_nonneg t : 0 ≤ excess t.
Proof. unfold excess. lia. Qed.

(** what a worker counts for in a sum over the workers *)
Lemma worker_counts b n w (f : worker E → Z) :
  (∀ w, 0 ≤ f w) → workers b !! n = Some w → f w ≤ lsum f (workers b).
Proof. apply lsum_ge. Qed.

Lemma item_bounds b i t :
  batch_inv b → items b !! i = Some t →
  0 ≤ maxFailures t ∧ 1 ≤ minSuccess t ∧ 0 ≤ succeeded t ∧ 0 ≤ failed t ∧ replicas_of t < 2 ^ 31 ∧
  succeeded t + failed t + outstanding i b = replicas_of t.
Proof.
  intros Hi Ht. destruct (inv_items _ Hi i t Ht). repeat (split; [done|]). split; [|done].
  eapply Z.le_lt_trans; [|apply (inv_size _ Hi)].
  apply list_elem_of_lookup_2 in Ht as Hin. apply list_elem_of_lookup in Hin as [k Hk].
  assert (∀ (l : list itemTracker), (∀ t, t ∈ l → 0 ≤ replicas_of t) → ∀ k, l !! k = Some t → replicas_of t ≤ lsum replicas_of l) as Hl.
  { induction l as [|z l IH]; intros Hz [|k'] Hk'; try done; simpl in *.
    - injection Hk' as ->. assert (0 ≤ lsum replicas_of l); [|lia].
      clear -Hz. induction l as [|y l IH]; simpl; [lia|].
      assert (0 ≤ replicas_of y) by (apply Hz; set_solver). assert (0 ≤ lsum replicas_of l) by (apply IH; set_solver). lia.
    - assert (0 ≤ replicas_of z) by (apply Hz; by left).
      assert (replicas_of t ≤ lsum replicas_of l) by (eapply IH; [|done]; set_solver). lia. }
  eapply Hl; [|exact Hk]. intros t' [i' Ht']%list_elem_of_lookup.
  destruct (inv_items _ Hi i' t' Ht'). unfold replicas_of. lia.
Qed.

Lemma not_cleaned b n w : batch_inv b → workers b !! n = Some w → w ≠ WgDone → cleanups b = 0%nat.
Proof.
  intros Hi Hw Hne. destruct (inv_cleanups _ Hi) as [?|[_ Hall]]; [done|].
  rewrite Forall_lookup in Hall. by apply Hall in Hw.
Qed.

Lemma todo_inserted b n w w' i :
  workers b !! n = Some w → (∀ i, i ∈ todo w' → i ∈ todo w) →
  ∀ v, v ∈ <[n := w']> (workers b) → i ∈ todo v → ∃ v', v' ∈ workers b ∧ i ∈ todo v'.
Proof.
  intros Hw Hsub v [m Hm]%list_elem_of_lookup Hin.
  apply list_lookup_insert_Some in Hm as [(-> & <- & _)|(_ & Hm)].
  - exists w. split; [by eapply list_elem_of_lookup_2|auto].
  - exists v. split; [by eapply list_elem_of_lookup_2|done].
Qed.

(** a step that leaves the items alone *)
Lemma inv_shared b n w w' pend fail dn er :
  batch_inv b → workers b !! n = Some w → w ≠ WgDone → todo w' = todo w →
  pend < 2 ^ 31 → 0 ≤ fail →
  pend = rpcsPending b + is_DecRpcsPending w' - is_DecRpcsPending w →
  fail + is_IncRpcsFailed w' = rpcsFailed b + is_IncRpcsFailed w →
  Z.of_nat dn + returned_ok b + (lsum is_SendDone (workers b) - is_SendDone w + is_SendDone w')
    = (if decide (pend = 0) then 1 else 0) →
  Z.of_nat (length er) + returned_err b + (lsum is_SendErr (workers b) - is_SendErr w + is_SendErr w')
    = (if decide (fail = 0) then 0 else 1) →
  batch_inv (mkBatch (items b) pend fail dn er (<[n := w']> (workers b)) (cleanups b) (returned b)).
Proof.
  intros Hi Hw Hne Htodo Hp Hf Hpend Hfail Hdn Her.
  constructor; simpl; rewrite ?(lsum_insert _ _ _ _ _ Hw); try done.
  - apply (inv_nonempty _ Hi).
  - apply (inv_size _ Hi).
  - intros i t Ht. destruct (inv_items _ Hi i t Ht) as [Hb ????]. constructor; try done.
    unfold outstanding in *. simpl. rewrite (lsum_insert _ _ _ _ _ Hw), Htodo. lia.
  - intros v i Hv Hin. destruct (todo_inserted b n w w' i Hw ltac:(by rewrite Htodo) v Hv Hin) as (v' & Hv' & Hin').
    by eapply (inv_todo _ Hi).
  - pose proof (inv_pending _ Hi). lia.
  - pose proof (inv_failed _ Hi). lia.
  - left. by eapply not_cleaned.
Qed.

(** a step that processes one item *)
Lemma inv_item b n w w' i rest t t' :
  batch_inv b → workers b !! n = Some w → w ≠ WgDone → todo w = i :: rest → todo w' = rest →
  items b !! i = Some t → minSuccess t' = minSuccess t → maxFailures t' = maxFailures t →
  succeeded t' + failed t' = succeeded t + failed t + 1 → 0 ≤ succeeded t' → 0 ≤ failed t' →
  waiting t' + is_DecRpcsPending w' = waiting t + is_DecRpcsPending w →
  excess t' + is_IncRpcsFailed w = excess t + is_IncRpcsFailed w' →
  is_SendErr w' = is_SendErr w → is_SendDone w' = is_SendDone w →
  batch_inv (mkBatch (<[i := t']> (items b)) (rpcsPending b) (rpcsFailed b) (done_chan b) (err_chan b)
    (<[n := w']> (workers b)) (cleanups b) (returned b)).
Proof.
  intros Hi Hw Hne Htodo Htodo' Ht Hmin Hmax Hsum Hs Hf Hwait Hexc Hse Hsd.
  constructor; simpl; rewrite ?(lsum_insert _ _ _ _ _ Hw), ?(lsum_insert _ _ _ _ _ Ht).
  - intros He. apply (inv_nonempty _ Hi). apply length_zero_iff_nil. by rewrite <- (length_insert (items b) i t'), He.
  - unfold replicas_of at 2 3. rewrite Hmin, Hmax. pose proof (inv_size _ Hi). lia.
  - intros j u Hu. unfold outstanding. simpl. 
    assert (outstanding j b - occurs j (i :: rest) + occurs j rest
            = outstanding j b - if decide (i = j) then 1 else 0) as Hout by (rewrite occurs_cons; lia).
    apply list_lookup_insert_Some in Hu as [(-> & <- & _)|(Hij & Hu)].
    + destruct (inv_items _ Hi _ _ Ht) as [Hb ????].
      constructor; [|lia|lia|lia|lia]. unfold outstanding. simpl. rewrite (lsum_insert _ _ _ _ _ Hw), Htodo, Htodo'.
      fold (outstanding j b). rewrite Hout, decide_True by done. unfold replicas_of in *. lia.
    + destruct (inv_items _ Hi _ _ Hu) as [Hb ????]. constructor; try done. unfold outstanding. simpl.
      rewrite (lsum_insert _ _ _ _ _ Hw), Htodo, Htodo'. fold (outstanding j b). rewrite Hout, decide_False by done. lia.
  - intros v j Hv Hin. destruct (todo_inserted b n w w' j Hw) with (v := v) as (v' & Hv' & Hin'); [|done|done|].
    { rewrite Htodo, Htodo'. intros k Hk. by right. }
    destruct (inv_todo _ Hi v' j Hv' Hin') as [u Hu].
    apply lookup_lt_is_Some. rewrite length_insert. apply lookup_lt_is_Some. eauto.
  - pose proof (inv_pending _ Hi). lia.
  - apply (inv_pending_max _ Hi).
  - pose proof (inv_done _ Hi). rewrite Hsd. unfold returned_ok in *. simpl. lia.
  - apply (inv_failed_nonneg _ Hi).
  - pose proof (inv_failed _ Hi). lia.
  - pose proof (inv_err _ Hi). rewrite Hse. unfold returned_err in *. simpl. lia.
  - left. by eapply not_cleaned.
Qed.

Lemma outstanding_processed b n w i rest :
  workers b !! n = Some w → todo w = i :: rest → 1 ≤ outstanding i b.
Proof.
  intros Hw Ht. etrans; [|apply (lsum_ge (λ w, occurs i (todo w)) (workers b) n w)]; [|intros ?; apply occurs_nonneg|done].
  rewrite Ht. apply occurs_self.
Qed.

Lemma kind_counts b n w :
  workers b !! n = Some w →
  is_IncRpcsFailed w ≤ lsum is_IncRpcsFailed (workers b) ∧ is_SendErr w ≤ lsum is_SendErr (workers b) ∧
  is_DecRpcsPending w ≤ lsum is_DecRpcsPending (workers b) ∧ is_SendDone w ≤ lsum is_SendDone (workers b).
Proof. intros Hw. repeat split; eapply lsum_ge; eauto; intros v; apply (kinds_nonneg v). Qed.

Lemma failed_bound b : batch_inv b → lsum excess (items b) < 2 ^ 31.
Proof.
  intros Hi. eapply Z.le_lt_trans; [|apply (inv_size _ Hi)]. apply lsum_le. intros t [i Ht]%list_elem_of_lookup.
  pose proof (item_bounds b i t Hi Ht). pose proof (outstanding_nonneg i b). unfold excess, replicas_of in *. lia.
Qed.

(** the counters that are about to be changed *)
Lemma pending_positive b n w :
  batch_inv b → workers b !! n = Some w → is_DecRpcsPending w = 1 → 1 ≤ rpcsPending b.
Proof.
  intros Hi Hw Hk. rewrite (inv_pending _ Hi). pose proof (kind_counts b n w Hw) as (_ & _ & Hd & _).
  pose proof (lsum_nonneg waiting (items b) waiting_nonneg). lia.
Qed.

Lemma record_step_inv b n w b' w' :
  batch_inv b → workers b !! n = Some w → record_step b w = Some (b', w') →
  batch_inv (set_workers (<[n := w']> (workers b')) b').
Proof.
  intros Hi Hw Hs. pose proof (inv_pending_max _ Hi) as Hpm. pose proof (inv_failed_nonneg _ Hi) as Hfn.
  pose proof (inv_done _ Hi) as Hdone. pose proof (inv_err _ Hi) as Herr. pose proof (inv_failed _ Hi) as Hfailed.
  pose proof (failed_bound b Hi) as Hfb. pose proof (kind_counts b n w Hw) as (Hk1 & Hk2 & Hk3 & Hk4).
  destruct w as [l|[e|] [|i rest]|e rest|e rest|rest|rest|]; cbn [record_step] in Hs; try done.
  - injection Hs as <- <-. apply (inv_shared b n (Recording (Some e) [])); simpl; try done; lia.
  - destruct (items b !! i) as [t|] eqn:Ht; [|done]. cbn [mbind option_bind] in Hs.
    pose proof (item_bounds b i t Hi Ht) as (Hm & Hn & H1 & H2 & H3 & H4).
    pose proof (outstanding_processed b n _ i rest Hw eq_refl) as Ho.
    assert (0 ≤ failed t + 1 ≤ replicas_of t) as Hf by lia.
    assert (IncFailed t = mkItemTracker (minSuccess t) (maxFailures t) (succeeded t) (failed t + 1)) as Hinc
      by (unfold IncFailed; rewrite i32_id by lia; done).
    rewrite Hinc in Hs. cbn [failed maxFailures] in Hs. rewrite (i32_id (maxFailures t)) in Hs by (unfold replicas_of in *; lia).
    injection Hs as <- <-.
    apply (inv_item b n (Recording (Some e) (i :: rest)) _ i rest t); try done; simpl; unfold waiting, excess; simpl;
      try case_bool_decide; simpl; try done; lia.
  - injection Hs as <- <-. apply (inv_shared b n (Recording None [])); simpl; try done; lia.
  - destruct (items b !! i) as [t|] eqn:Ht; [|done]. cbn [mbind option_bind] in Hs.
    pose proof (item_bounds b i t Hi Ht) as (Hm & Hn & H1 & H2 & H3 & H4).
    pose proof (outstanding_processed b n _ i rest Hw eq_refl) as Ho.
    assert (0 ≤ succeeded t + 1 ≤ replicas_of t) as Hf by lia.
    assert (IncSucceeded t = mkItemTracker (minSuccess t) (maxFailures t) (succeeded t + 1) (failed t)) as Hinc
      by (unfold IncSucceeded; rewrite i32_id by lia; done).
    rewrite Hinc in Hs. cbn [succeeded minSuccess] in Hs. rewrite (i32_id (minSuccess t)) in Hs by (unfold replicas_of in *; lia).
    injection Hs as <- <-.
    apply (inv_item b n (Recording None (i :: rest)) _ i rest t); try done; simpl; unfold waiting, excess; simpl;
      try case_bool_decide; simpl; try done; repeat case_decide; lia.
  - rewrite i32_id in Hs by (simpl in Hk1; lia). injection Hs as <- <-. simpl in Hk1.
    apply (inv_shared b n (IncRpcsFailed e rest)); simpl; try done; try case_bool_decide; simpl; try done; try lia;
      repeat case_decide; lia.
  - case_bool_decide as Hc; [|done]. injection Hs as <- <-.
    apply (inv_shared b n (SendErr e rest)); simpl; try done; try lia. rewrite length_app. simpl. lia.
  - pose proof (pending_positive b n _ Hi Hw eq_refl) as Hpp. rewrite i32_id in Hs by lia. injection Hs as <- <-.
    apply (inv_shared b n (DecRpcsPending rest)); simpl; try done; try case_bool_decide; simpl; try done; try lia;
      repeat case_decide; lia.
  - case_bool_decide as Hc; [|done]. injection Hs as <- <-.
    apply (inv_shared b n (SendDone rest)); simpl; try done; lia.
Qed.

Lemma item_ok_frame b b' :
  (∀ i t, items b !! i = Some t → item_ok i b t) → items b' = items b → workers b' = workers b →
  ∀ i t, items b' !! i = Some t → item_ok i b' t.
Proof.
  intros Hb Hits Hws i t Ht. rewrite Hits in Ht. destruct (Hb i t Ht) as [Hbal ????]. constructor; try done.
  unfold outstanding in *. by rewrite Hws.
Qed.

Lemma batch_step_inv b b' : batch_inv b → batch_step b b' → batch_inv b'.
Proof.
  intros Hi Hstep. destruct Hstep as [b b' Hgo|b Hret].
  - destruct Hgo as [b n l err Hw|b n w b' w' Hw Hs|b Hall Hc|b e es Hr He|b n Hr Hd].
    + apply (inv_shared b n (Calling l)); try done; simpl; try lia.
      * apply (inv_pending_max _ Hi).
      * apply (inv_failed_nonneg _ Hi).
      * rewrite Z.sub_0_r, Z.add_0_r. apply (inv_done _ Hi).
      * rewrite Z.sub_0_r, Z.add_0_r. apply (inv_err _ Hi).
    + by eapply record_step_inv.
    + destruct Hi. constructor; try done; [by apply (item_ok_frame b)|]. right. simpl. by rewrite Hc.
    + pose proof (inv_done _ Hi) as Hd'. pose proof (inv_err _ Hi) as He'. unfold returned_ok, returned_err in *.
      rewrite Hr in Hd', He'. rewrite He in He'. simpl in He'.
      destruct Hi. constructor; try done; try (by apply (item_ok_frame b)); unfold returned_ok, returned_err in *; simpl; lia.
    + pose proof (inv_done _ Hi) as Hd'. pose proof (inv_err _ Hi) as He'. unfold returned_ok, returned_err in *.
      rewrite Hr in Hd', He'. rewrite Hd in Hd'.
      destruct Hi. constructor; try done; try (by apply (item_ok_frame b)); unfold returned_ok, returned_err in *; simpl; lia.
  - pose proof (inv_done _ Hi) as Hd'. pose proof (inv_err _ Hi) as He'. unfold returned_ok, returned_err in *.
    rewrite Hret in Hd', He'. destruct Hi. constructor; try done; try (by apply (item_ok_frame b)); unfold returned_ok, returned_err in *; simpl; lia.
Qed.

(** ** The start *)
Definition total (j : nat) (m : gmap string instance) : Z :=
  lsum (λ kv : string * instance, occurs j (itemTrackers kv.2)) (map_to_list m).

Lemma occurs_app j l l' : occurs j (l ++ l') = occurs j l + occurs j l'.
Proof. unfold occurs. induction l as [|k l IH]; simpl; [done|]. rewrite IH. lia. Qed.

Lemma total_add i j m d : total j (DoBatch_add i m d) = total j m + if decide (i = j) then 1 else 0.
Proof.
  unfold total, DoBatch_add. rewrite lsum_map_insert. simpl.
  destruct (m !! Addr d) as [v|] eqn:Hm; simpl; rewrite ?occurs_app, ?occurs_cons; unfold occurs; simpl; lia.
Qed.

Lemma total_add_all i j m l :
  total j (foldl (DoBatch_add i) m l) = total j m + if decide (i = j) then Z.of_nat (length l) else 0.
Proof.
  revert m. induction l as [|d l IH]; intros m; simpl; [case_decide; lia|].
  rewrite IH, total_add. case_decide; lia.
Qed.

Definition fresh_item (j : nat) (m : gmap string instance) t : Prop :=
  succeeded t = 0 ∧ failed t = 0 ∧ 1 ≤ minSuccess t ∧ 0 ≤ maxFailures t ∧ total j m = replicas_of t.

Lemma DoBatch_keys_spec {r : ReadRing} {L : ReadRingLaws r} op i keys its m its' m' :
  DoBatch_keys op i keys its m = Ok (its', m') → length its = (i + length keys)%nat →
  (∀ j t, its !! j = Some t → (j < i)%nat → fresh_item j m t) → (∀ j, (i ≤ j)%nat → total j m = 0) →
  length its' = length its ∧ (∀ j t, its' !! j = Some t → fresh_item j m' t) ∧
  (∀ j, (length its ≤ j)%nat → total j m' = 0).
Proof.
  revert i its m. induction keys as [|key keys IH]; intros i its m Hk Hlen Hits Hm; simpl in *.
  - injection Hk as -> ->. split; [done|]. split; [|intros j Hj; apply Hm; lia].
    intros j t Ht. apply Hits; [done|]. apply lookup_lt_Some in Ht. lia.
  - destruct (ReadRing_Get key op) as [rs|e] eqn:Hg; [|done]. apply L in Hg.
    apply IH in Hk; [by rewrite length_insert in Hk|rewrite length_insert; lia| |].
    + intros j t [(-> & <- & _)|(Hij & Ht)]%list_lookup_insert_Some Hj; unfold fresh_item; simpl; rewrite total_add_all.
      * rewrite decide_True by done. unfold replicas_of. simpl. rewrite Hm by lia. lia.
      * rewrite decide_False by done. destruct (Hits j t Ht ltac:(lia)) as (?&?&?&?&?). repeat split; try done. lia.
    + intros j Hj. rewrite total_add_all, decide_False by lia. rewrite Hm; lia.
Qed.

Lemma start_total `{MapRange} j (m : gmap string instance) site :
  lsum (λ w : worker E, occurs j (todo w)) (start_worker <$> map_range site m) = total j m.
Proof. rewrite lsum_fmap. unfold total. apply lsum_perm, map_range_perm. Qed.

Lemma DoBatch_start_inv `{MapRange} {r : ReadRing} {L : ReadRingLaws r} op keys :
  keys ≠ [] → returned (DoBatch_start (E:=E) op keys) = None →
  lsum replicas_of (items (DoBatch_start (E:=E) op keys)) < 2 ^ 31 →
  batch_inv (DoBatch_start op keys).
Proof.
  intros Hne. unfold DoBatch_start. case_bool_decide as Hc; [done|].
  destruct (DoBatch_keys _ _ _ _ _) as [[its m]|e] eqn:Hk; [|done]. intros _ Hsize. simpl in Hsize.
  apply DoBatch_keys_spec in Hk as (Hlen & Hits & Hout).
  2: { by rewrite length_replicate. }
  2: { lia. }
  2: { intros j _. unfold total. by rewrite map_to_list_empty. }
  rewrite length_replicate in Hlen, Hout.
  assert (lsum waiting its = Z.of_nat (length its) ∧ lsum excess its = 0 ∧ Z.of_nat (length its) ≤ lsum replicas_of its) as (Hw & He & Hn).
  { assert (∀ t, t ∈ its → waiting t = 1 ∧ excess t = 0 ∧ 1 ≤ replicas_of t) as Hall.
    { intros t [j Ht]%list_elem_of_lookup. destruct (Hits j t Ht) as (?&?&?&?&?).
      unfold waiting, excess, replicas_of. rewrite decide_True by lia. lia. }
    clear -Hall. induction its as [|t its IH]; simpl; [done|].
    destruct (Hall t ltac:(by left)) as (?&?&?). destruct IH as (?&?&?); [|lia].
    intros u Hu. apply Hall. by right. }
  assert (∀ f : worker E → Z, (∀ l, f (Calling l) = 0) → lsum f (start_worker <$> map_range 89 m) = 0) as Hf.
  { intros f Hf. apply lsum_zero. intros w (kv & -> & _)%list_elem_of_fmap. apply Hf. }
  constructor; simpl; rewrite ?Hf by done.
  - intros ->. destruct keys; [done|]. simpl in Hlen. lia.
  - done.
  - intros i t Ht. destruct (Hits i t Ht) as (?&?&?&?&Htot). constructor; try lia.
    unfold outstanding. simpl. rewrite start_total. lia.
  - intros w i Hin Hi. apply lookup_lt_is_Some. destruct (decide (i < length its)%nat) as [?|Hge]; [done|].
    exfalso. assert (lsum (λ w : worker E, occurs i (todo w)) (start_worker <$> map_range 89 m) = 0) as Hz.
    { rewrite start_total. apply Hout. lia. }
    pose proof (lsum_zero_inv _ _ (λ w, occurs_nonneg i (todo w)) Hz w Hin) as Hw0. simpl in Hw0.
    by apply (occurs_zero i (todo w)).
  - rewrite i32_id by lia. lia.
  - rewrite i32_id by lia. lia.
  - unfold returned_ok. simpl. rewrite i32_id by lia. rewrite decide_False; [done|].
    destruct keys; [done|]. simpl in Hlen. lia.
  - done.
  - lia.
  - done.
  - by left.
Qed.

(** ** Termination and progress *)
Definition worker_fuel w : Z :=
  match w with
  | Calling l => 3 * Z.of_nat (length l) + 2
  | Recording _ l => 3 * Z.of_nat (length l) + 1
  | IncRpcsFailed _ l | DecRpcsPending l => 3 * Z.of_nat (length l) + 3
  | SendErr _ l | SendDone l => 3 * Z.of_nat (length l) + 2
  | WgDone => 0
  end.
Definition batch_fuel b : Z :=
  lsum worker_fuel (workers b) + (if decide (cleanups b = 0%nat) then 1 else 0) +
  (match returned b with None => 1 | Some _ => 0 end).

Lemma worker_fuel_nonneg w : 0 ≤ worker_fuel w.
Proof. destruct w; simpl; lia. Qed.
Lemma batch_fuel_nonneg b : 0 ≤ batch_fuel b.
Proof.
  unfold batch_fuel. pose proof (lsum_nonneg worker_fuel (workers b) worker_fuel_nonneg).
  case_decide; destruct (returned b); lia.
Qed.

Lemma record_step_fuel b w b' w' :
  record_step b w = Some (b', w') →
  worker_fuel w' < worker_fuel w ∧ workers b' = workers b ∧ cleanups b' = cleanups b ∧ returned b' = returned b.
Proof.
  destruct w as [l|[e|] [|i rest]|e rest|e rest|rest|rest|]; cbn [record_step]; try done; intros Hs;
    try (destruct (items b !! i) as [t|]; [|done]; cbn [mbind option_bind] in Hs);
    repeat (case_bool_decide; [|try done]); simplify_eq/=; split; try done; lia.
Qed.

Lemma batch_step_fuel b b' : batch_step b b' → batch_fuel b' < batch_fuel b.
Proof.
  intros Hstep. destruct Hstep as [b b' Hgo|b Hret].
  - destruct Hgo as [b n l err Hw|b n w b' w' Hw Hs|b Hall Hc|b e es Hr He|b n Hr Hd]; unfold batch_fuel; simpl.
    + rewrite (lsum_insert _ _ _ _ _ Hw). simpl. lia.
    + apply record_step_fuel in Hs as (Hlt & -> & -> & ->). rewrite (lsum_insert _ _ _ _ _ Hw). lia.
    + rewrite Hc. simpl. lia.
    + rewrite Hr. lia.
    + rewrite Hr. lia.
  - unfold batch_fuel. simpl. rewrite Hret. lia.
Qed.

(** a worker that has not finished can move: the channels have room for what
    it sends *)
Lemma worker_progress b n w :
  batch_inv b → workers b !! n = Some w → w ≠ WgDone → ∃ b', go_step b b'.
Proof.
  intros Hi Hw Hne. pose proof (kind_counts b n w Hw) as (_ & Hse & _ & Hsd).
  assert (∀ i, i ∈ todo w → is_Some (items b !! i)) as Htodo.
  { intros i. apply (inv_todo _ Hi). by eapply list_elem_of_lookup_2. }
  destruct w as [l|err [|i rest]|e rest|e rest|rest|rest|]; try done; simpl in *.
  1: { eexists. by apply (step_callback b n l None). }
  all: match type of Hw with _ = Some ?w0 =>
    enough (∃ b' w', record_step b w0 = Some (b', w')) as (b' & w' & Hs)
      by (eexists; eapply step_record; [exact Hw|exact Hs]) end; cbn [record_step].
  - destruct err; eauto.
  - destruct (Htodo i ltac:(by left)) as [t ->]. cbn [mbind option_bind]. destruct err; eauto.
  - eauto.
  - rewrite bool_decide_eq_true_2; [eauto|]. pose proof (inv_err _ Hi) as He. unfold returned_err in He.
    destruct (returned b) as [[|[]]|]; case_decide; lia.
  - eauto.
  - rewrite bool_decide_eq_true_2; [eauto|]. pose proof (inv_done _ Hi) as Hd. unfold returned_ok in Hd.
    destruct (returned b) as [[|[]]|]; case_decide; lia.
Qed.

Definition go_stuck b : Prop := ∀ b', ¬ go_step b b'.

Lemma stuck_finished b :
  batch_inv b → go_stuck b →
  Forall (λ w, w = WgDone) (workers b) ∧ cleanups b = 1%nat ∧ returned b ≠ None.
Proof.
  intros Hi Hst.
  assert (Forall (λ w, w = WgDone) (workers b)) as Hall.
  { apply Forall_lookup. intros n w Hw. assert (w = WgDone ∨ w ≠ WgDone) as [?|Hne] by (destruct w; (by left) || by right); [done|].
    destruct (worker_progress b n w Hi Hw Hne) as [b' Hb']. by apply Hst in Hb'. }
  split; [done|]. split.
  - destruct (inv_cleanups _ Hi) as [Hc|[? _]]; [|done]. exfalso. eapply Hst. by apply step_cleanup.
  - intros Hr.
    assert (∀ f : worker E → Z, f WgDone = 0 → lsum f (workers b) = 0) as Hz.
    { intros f Hf. apply lsum_zero. intros w Hw. rewrite Forall_forall in Hall. by rewrite (Hall w Hw). }
    destruct (done_chan b) as [|d] eqn:Hd; [|eapply Hst; by eapply step_done].
    destruct (err_chan b) as [|e es] eqn:He; [|eapply Hst; by eapply step_err].
    pose proof (inv_done _ Hi) as H1. pose proof (inv_err _ Hi) as H2. pose proof (inv_pending _ Hi) as H3.
    pose proof (inv_failed _ Hi) as H4. unfold returned_ok, returned_err in *. rewrite Hr, Hd in *. rewrite He in H2.
    rewrite Hz in H1, H2, H3, H4 by done. simpl in *.
    destruct (decide (rpcsPending b = 0)) as [Hp|Hp]; [lia|]. destruct (decide (rpcsFailed b = 0)) as [Hf|Hf]; [|lia].
    destruct (lsum_pos waiting (items b) waiting_nonneg) as (t & Hin & Ht).
    { pose proof (lsum_nonneg waiting (items b) waiting_nonneg). lia. }
    assert (excess t = 0) as He0 by (apply (lsum_zero_inv excess (items b) excess_nonneg); [lia|done]).
    apply list_elem_of_lookup in Hin as [i Hin]. destruct (inv_items _ Hi i t Hin) as [Hb ????].
    unfold outstanding in Hb. rewrite Hz in Hb by done. unfold waiting in Ht. unfold excess in He0. case_decide; [|lia].
    unfold replicas_of in Hb. lia.
Qed.

Lemma ok_complete b :
  batch_inv b → returned b = Some (Ok tt) → Forall (λ t, minSuccess t ≤ succeeded t) (items b).
Proof.
  intros Hi Hr. pose proof (inv_done _ Hi) as H1. unfold returned_ok in H1. rewrite Hr in H1.
  pose proof (lsum_nonneg is_SendDone (workers b) (λ w, proj2 (proj2 (proj2 (kinds_nonneg w))))) as H2.
  case_decide as Hp; [|lia]. pose proof (inv_pending _ Hi) as H3.
  pose proof (lsum_nonneg waiting (items b) waiting_nonneg) as H4.
  pose proof (lsum_nonneg is_DecRpcsPending (workers b) (λ w, proj1 (proj2 (proj2 (kinds_nonneg w))))) as H5.
  apply Forall_forall. intros t Ht. pose proof (lsum_zero_inv waiting (items b) waiting_nonneg ltac:(lia) t Ht) as Hw.
  unfold waiting in Hw. case_decide; lia.
Qed.

Lemma err_excess b e :
  batch_inv b → returned b = Some (Err (ErrCallback e)) → Exists (λ t, maxFailures t < failed t) (items b).
Proof.
  intros Hi Hr. pose proof (inv_err _ Hi) as H1. unfold returned_err in H1. rewrite Hr in H1.
  pose proof (lsum_nonneg is_SendErr (workers b) (λ w, proj1 (proj2 (kinds_nonneg w)))) as H2.
  case_decide as Hp; [lia|]. pose proof (inv_failed _ Hi) as H3. pose proof (inv_failed_nonneg _ Hi).
  pose proof (lsum_nonneg is_IncRpcsFailed (workers b) (λ w, proj1 (kinds_nonneg w))) as H5.
  destruct (lsum_pos excess (items b) excess_nonneg ltac:(lia)) as (t & Hin & Ht).
  apply Exists_exists. exists t. split; [done|]. unfold excess in Ht. lia.
Qed.

Lemma batch_steps_inv b b' : batch_inv b → rtc batch_step b b' → batch_inv b'.
Proof. intros Hi Hr. induction Hr as [|b b' b'' Hs _ IH]; [done|]. apply IH. by eapply batch_step_inv. Qed.

Lemma batch_terminates b : sn batch_step b.
Proof.
  remember (Z.to_nat (batch_fuel b)) as n eqn:Hn. revert b Hn.
  induction (lt_wf n) as [n _ IH]. intros b ->. constructor. intros b' Hs.
  eapply IH; [|done]. apply batch_step_fuel in Hs. pose proof (batch_fuel_nonneg b'). lia.
Qed.

(** a batch that has returned at once does not move *)
Lemma stopped_final e b : rtc (batch_step (E:=E)) (mkBatch [] 0 0 0 [] [] 1 (Some (Err e))) b →
  b = mkBatch [] 0 0 0 [] [] 1 (Some (Err e)).
Proof. inversion_clear 1 as [|? b' ? Hs]; [done|]. inversion Hs as [? ? Hgo|]; [inversion Hgo|]; naive_solver. Qed.

Lemma DoBatch_start_cases `{MapRange} {r : ReadRing} op keys :
  returned (DoBatch_start (E:=E) op keys) = None ∨
  ∃ e, DoBatch_start (E:=E) op keys = mkBatch [] 0 0 0 [] [] 1 (Some (Err e)) ∧ (∀ e', e ≠ ErrCallback e').
Proof.
  unfold DoBatch_start. case_bool_decide; [right; by eexists|].
  destruct (DoBatch_keys _ _ _ _ _) as [[its m]|e]; [by left|right; by eexists].
Qed.
End batch.

(** C24. [DoBatch] on a non-empty list of keys: however the callbacks, the atomic
    operations of [record] and the caller interleave, the batch terminates; the
    caller returns [nil] only when every key has reached its [minSuccess]
    successes, and the error of a callback only when some key has more than
    [maxFailures] failures; no goroutine is ever left blocked on a channel, and
    when nothing can move any more the caller has returned and the cleanup has
    run exactly once. *)
Theorem DoBatch_signals `{MapRange} {r : ReadRing} {L : ReadRingLaws r} {E : Type} (op : Operation)
    (keys : list Z) (b : batch E) :
  keys ≠ [] → lsum replicas_of (items (DoBatch_start (E:=E) op keys)) < 2 ^ 31 →
  rtc batch_step (DoBatch_start op keys) b →
  sn batch_step b ∧
  (returned b = Some (Ok tt) → Forall (λ t, minSuccess t ≤ succeeded t) (items b)) ∧
  (∀ e, returned b = Some (Err (ErrCallback e)) → Exists (λ t, maxFailures t < failed t) (items b)) ∧
  (go_stuck b → returned b ≠ None ∧ Forall (λ w, w = WgDone) (workers b) ∧ cleanups b = 1%nat).
Proof.
  intros Hne Hsize Hb. split; [apply batch_terminates|].
  destruct (DoBatch_start_cases (E:=E) op keys) as [Hret|(e & He & Hcb)].
  - assert (batch_inv b) as Hi by (eapply batch_steps_inv; [|exact Hb]; by apply DoBatch_start_inv).
    split; [by apply ok_complete|]. split; [intros e; by apply err_excess|].
    intros Hst. destruct (stuck_finished b Hi Hst) as (?&?&?). done.
  - rewrite He in Hb. apply stopped_final in Hb as ->. simpl. repeat split; try done. naive_solver.
Qed.

(** With no key to send nobody wakes the caller up: [DoBatch] returns only when
    its context ends. *)
Lemma DoBatch_no_keys `{MapRange} {r : ReadRing} {E : Type} op (b : batch E) :
  0 < InstancesCount → rtc batch_step (DoBatch_start op []) b →
  returned b = None ∨ returned b = Some (Err ErrContext).
Proof.
  intros Hc Hb.
  enough (workers b = [] ∧ err_chan b = [] ∧ done_chan b = 0%nat ∧ (returned b = None ∨ returned b = Some (Err ErrContext)))
    as (_ & _ & _ & ?) by done.
  assert (workers (DoBatch_start (E:=E) op []) = [] ∧ err_chan (DoBatch_start (E:=E) op []) = [] ∧
    done_chan (DoBatch_start (E:=E) op []) = 0%nat ∧ returned (DoBatch_start (E:=E) op []) = None) as (Hw & He & Hd & Hr).
  { unfold DoBatch_start. rewrite bool_decide_eq_false_2 by lia. simpl. rewrite (proj2 (map_range_nil 89 ∅)); done. }
  assert (returned (DoBatch_start (E:=E) op []) = None ∨ returned (DoBatch_start (E:=E) op []) = Some (Err ErrContext)) as Hr' by by left.
  clear Hr. induction Hb as [b|b b' b'' Hs _ IH]; [done|]. apply IH; clear IH;
    destruct Hs as [b0 b1 [c n l err Hn|c n w c' w' Hn _|c _ _|c e es _ Hn|c n _ Hn]|b0 Hn]; simpl in *; simplify_eq/=; auto;
    by rewrite ?Hw, ?He, ?Hd in Hn.
Qed.

(** ** The ring as a [ReadRing] *)
Definition Ring_ReadRing `{MapRange} (rg : subring) (now : Z) : ReadRing := {|
  InstancesCount := Z.of_nat (size (Ingesters (ringDesc rg)));
  Ring_ReplicationFactor := ReplicationFactor (cfg rg);
  ReadRing_Get key op := Get rg key op now
|}.

Lemma Ring_ReadRing_laws `{MapRange} (rg : subring) (now : Z) :
  strategy rg = defaultReplicationStrategy_Filter → ReadRingLaws (Ring_ReadRing rg now).
Proof.
  intros Hs key op rs. simpl. unfold Get. case_bool_decide; [done|].
  destruct (Get_loop _ _ _ _ _) as [acc|e]; [|done]. rewrite Hs. unfold defaultReplicationStrategy_Filter.
  set (rf := if bool_decide _ then _ else _). destruct (filter_healthy _ _ _ _) as [healthy un].
  case_bool_decide as Hle; [done|]. intros [= <-]. simpl.
  assert (0 ≤ rf) as Hrf by (unfold rf; case_bool_decide; lia).
  pose proof (Z.quot_pos rf 2 Hrf ltac:(lia)). lia.
Qed.

(** ** Witness: two keys, replicated three times, on the example ring; the
    instances answer one after the other and one of them fails *)
Section witness.
#[local] Existing Instance map_range_std.
#[local] Instance ex_ReadRing : ReadRing := Ring_ReadRing (sub (ex_updated true)) (110 * Second).
#[local] Instance ex_laws : ReadRingLaws ex_ReadRing.
Proof. apply Ring_ReadRing_laws. vm_compute. reflexivity. Qed.

Definition ex_start : batch nat := DoBatch_start Reporting [25; 45].

(** run the first worker that can move, a callback failing when its number is
    in [fails], then the caller *)
Fixpoint first_move (fails : list nat) (b : batch nat) (n : nat) (ws : list (worker nat)) : option (batch nat) :=
  match ws with
  | [] => None
  | Calling l :: _ =>
      Some (set_workers (<[n := Recording (if decide (n ∈ fails) then Some n else None) l]> (workers b)) b)
  | w :: ws =>
      match record_step b w with
      | Some (b', w') => Some (set_workers (<[n := w']> (workers b')) b')
      | None => first_move fails b (S n) ws
      end
  end.
Fixpoint run (fuel : nat) (fails : list nat) (b : batch nat) : batch nat :=
  match fuel with
  | O => b
  | S fuel => match first_move fails b 0 (workers b) with Some b' => run fuel fails b' | None => b end
  end.
Definition deliver (b : batch nat) : batch nat :=
  match returned b, done_chan b with
  | None, S n => set_returned (Some (Ok tt)) (set_done_chan n b)
  | _, _ => b
  end.

Lemma first_move_step fails b b' ws n :
  (∀ k w, ws !! k = Some w → workers b !! (n + k)%nat = Some w) →
  first_move fails b n ws = Some b' → batch_step b b'.
Proof.
  revert n. induction ws as [|w ws IH]; intros n Hws; [done|]. simpl.
  assert (workers b !! n = Some w) as Hn by (specialize (Hws 0%nat w eq_refl); by rewrite Nat.add_0_r in Hws).
  assert (record_step b w = None → first_move fails b (S n) ws = Some b' → batch_step b b') as Hnone.
  { intros _. apply IH. intros k v Hk. specialize (Hws (S k) v Hk). by rewrite Nat.add_succ_r in Hws. }
  destruct w as [l|err l|e l|e l|l|l|]; [intros [= <-]; apply step_go; by eapply step_callback|..];
    (destruct (record_step b _) as [[b0 w']|] eqn:Hs; [|by apply Hnone]); intros [= <-]; apply step_go;
    by eapply step_record.
Qed.
Lemma run_steps fuel fails b : rtc batch_step b (run fuel fails b).
Proof.
  revert b. induction fuel as [|fuel IH]; intros b; [constructor|]. simpl.
  destruct (first_move fails b 0 (workers b)) as [b'|] eqn:Hm; [|constructor].
  eapply rtc_l; [|apply IH]. eapply first_move_step; [|exact Hm]. done.
Qed.
Lemma deliver_step b : rtc batch_step b (deliver b).
Proof.
  unfold deliver. destruct (returned b) eqn:Hr; [constructor|]. destruct (done_chan b) eqn:Hd; [constructor|].
  eapply rtc_once, step_go. by apply step_done.
Qed.

Definition ex_final : batch nat := deliver (run 100 [1%nat] ex_start).

Lemma ex_final_returned : returned ex_final = Some (Ok tt).
Proof. vm_compute. reflexivity. Qed.

Lemma DoBatch_signals_witness :
  returned ex_final = Some (Ok tt) ∧ Forall (λ t, minSuccess t ≤ succeeded t) (items ex_final).
Proof.
  split; [apply ex_final_returned|].
  refine (proj1 (proj2 (DoBatch_signals Reporting [25; 45] ex_final _ _ _)) ex_final_returned).
  - discriminate.
  - vm_compute. reflexivity.
  - etrans; [apply (run_steps 100 [1%nat] ex_start)|apply deliver_step].
Defined.
End witness.
