(* ===== verification/TokensFile.v ===== *)
(** * Tokens on disk and fresh tokens: [ring/tokens.go], [GenerateTokens] of [ring/util.go]

    The file system is the content of the files by name; an operation of the
    [os] package that fails leaves the effect it has had so far.  The JSON
    encoder is a parameter.  [GenerateTokens] reads the stream of its random
    generator from a list: [None] is a loop still running at its end. *)
From Stdlib Require Import ZArith Lia Ascii String.
From stdpp Require Import base gmap strings list sorting fin_maps fin_sets relations.
From S2P Require Import Prelude Model.

Definition bytes := list Byte.byte.
Abbreviation FileSystem := (gmap string bytes).

(** [encoding/json] on the [tokensJSON] struct *)
Class TokensJSON := {
  json_error : Type;
  json_Marshal : list Z → result json_error bytes;
  json_Unmarshal : bytes → result json_error (list Z)
}.
(** what is encoded can be read back, for the [uint32] the field holds *)
Definition json_roundtrip (J : TokensJSON) : Prop :=
  ∀ t b, Forall (λ v, 0 ≤ v ≤ MaxUint32) t → json_Marshal t = Ok b → json_Unmarshal b = Ok t.

Section tokens_file.
Context {J : TokensJSON}.

Inductive os_error :=
| ErrPathEmpty
| ErrCreate | ErrWrite | ErrClose | ErrRename | ErrRead
| ErrJSON (e : json_error).

(** Which operation of [StoreToFile] fails, if any; a failed [Write] may have
    written some of its bytes. *)
Inductive os_fault := NoFault | CreateFails | WriteFails (written : nat) | CloseFails | RenameFails.
#[local] Instance os_fault_eq_dec : EqDecision os_fault.
Proof. solve_decision. Defined.

Definition Tokens_Marshal (t : list Z) : result json_error bytes := json_Marshal t.
(** [( t *Tokens ) Unmarshal]: the tokens after the call, and the error *)
Definition Tokens_Unmarshal (t : list Z) (b : bytes) : list Z * option json_error :=
  match json_Unmarshal b with
  | Err e => (t, Some e)
  | Ok tj => (tj, None)
  end.

Definition tmp_path (tokenFilePath : string) : string := (tokenFilePath ++ ".tmp")%string.

Definition StoreToFile (t : list Z) (tokenFilePath : string) (fault : os_fault) (fs : FileSystem)
    : FileSystem * option os_error :=
  if bool_decide (tokenFilePath = ""%string) then (fs, Some ErrPathEmpty)
  else
    let tmp := tmp_path tokenFilePath in
    match fault with
    | CreateFails => (fs, Some ErrCreate)
    | _ =>
        let fs := <[tmp := []]> fs in
        match Tokens_Marshal t with
        | Err e => (fs, Some (ErrJSON e))
        | Ok b =>
            match fault with
            | WriteFails n => (<[tmp := take n b]> fs, Some ErrWrite)
            | _ =>
                let fs := <[tmp := b]> fs in
                match fault with
                | CloseFails => (fs, Some ErrClose)
                | RenameFails => (fs, Some ErrRename)
                | _ => (<[tokenFilePath := b]> (delete tmp fs), None)
                end
            end
        end
    end.

(** [ReadFile] fails when there is no such file *)
Definition LoadTokensFromFile (tokenFilePath : string) (fs : FileSystem) : list Z * option os_error :=
  match fs !! tokenFilePath with
  | None => ([], Some ErrRead)
  | Some b =>
      let '(t, err) := Tokens_Unmarshal [] b in
      (if IsSorted t then t else sort_tokens t, ErrJSON <$> err)
  end.

Lemma tmp_path_ne path : tmp_path path ≠ path.
Proof.
  assert (String.length (tmp_path path) = String.length path + 4)%nat as Hl.
  { unfold tmp_path. induction path as [|c p IH]; [done|]. simpl. by rewrite IH. }
  intros He. rewrite He in Hl. lia.
Qed.

(** Whatever operation fails while the tokens are stored, the tokens file
    holds what it held before, and it holds exactly the new tokens, sorted when
    read back, once [StoreToFile] succeeds; no other file but the temporary one
    is touched. *)
Theorem StoreToFile_atomic (t : list Z) (path : string) (fault : os_fault) (fs fs' : FileSystem) (err : option os_error) :
  json_roundtrip J → Forall (λ v, 0 ≤ v ≤ MaxUint32) t →
  StoreToFile t path fault fs = (fs', err) →
  (err ≠ None → fs' !! path = fs !! path) ∧
  (err = None → LoadTokensFromFile path fs' = (sort_tokens t, None)) ∧
  (∀ other, other ≠ path → other ≠ tmp_path path → fs' !! other = fs !! other).
Proof.
  intros HJ Ht. pose proof (tmp_path_ne path) as Htmp. unfold StoreToFile, Tokens_Marshal.
  case_bool_decide; [by intros [= <- <-]|].
  assert (∀ b, fs' = <[path := b]> (delete (tmp_path path) (<[tmp_path path := b]> (<[tmp_path path := []]> fs))) →
    json_Marshal t = Ok b → LoadTokensFromFile path fs' = (sort_tokens t, None)) as Hload.
  { intros b -> Hb. unfold LoadTokensFromFile, Tokens_Unmarshal. rewrite lookup_insert_eq, (HJ t b Ht Hb). simpl.
    by rewrite sort_if_needed. }
  destruct fault; destruct (json_Marshal t) as [b|e] eqn:Hb; intros [= <- <-]; (split; [|split]); try done;
    intros; rewrite ?lookup_insert_ne, ?lookup_delete_ne, ?lookup_insert_ne by done; eauto.
Qed.

(** ** [GenerateTokens] *)
Fixpoint GenerateTokens_loop (draws : list Z) (n : nat) (used : gset Z) (tokens : list Z) : option (list Z) :=
  match n with
  | O => Some tokens
  | S n' =>
      match draws with
      | [] => None
      | candidate :: draws =>
          if bool_decide (candidate ∈ used) then GenerateTokens_loop draws n used tokens
          else GenerateTokens_loop draws n' ({[candidate]} ∪ used) (tokens ++ [candidate])
      end
  end.
Definition GenerateTokens (draws : list Z) (numTokens : Z) (takenTokens : list Z) : option (list Z) :=
  if bool_decide (numTokens ≤ 0) then Some []
  else sort_tokens <$> GenerateTokens_loop draws (Z.to_nat numTokens) (list_to_set takenTokens) [].

(** the draws that can be used *)
Definition fresh_draws (draws : list Z) (used : gset Z) : gset Z := list_to_set draws ∖ used.

Lemma GenerateTokens_loop_spec draws n used tokens :
  NoDup tokens → (∀ t, t ∈ tokens → t ∈ used) →
  match GenerateTokens_loop draws n used tokens with
  | Some l => ∃ new, l = tokens ++ new ∧ length new = n ∧ NoDup l ∧
      (∀ t, t ∈ new → t ∈ draws ∧ t ∉ used) ∧ (n ≤ size (fresh_draws draws used))%nat
  | None => (size (fresh_draws draws used) < n)%nat
  end.
Proof.
  revert n used tokens. induction draws as [|c draws IH]; intros [|n] used tokens Hnd Hus; cbn [GenerateTokens_loop].
  1,3: exists []; split; [by rewrite app_nil_r|]; do 2 (split; [done|]); split; [by intros ? ?%elem_of_nil|lia].
  - unfold fresh_draws. replace (list_to_set [] ∖ used) with (∅ : gset Z) by set_solver. rewrite size_empty. lia.
  - case_bool_decide as Hc.
    + assert (fresh_draws (c :: draws) used = fresh_draws draws used) as -> by (unfold fresh_draws; set_solver).
      specialize (IH (S n) used tokens Hnd Hus). destruct (GenerateTokens_loop _ _ _ _); [|done].
      destruct IH as (new & -> & Hl & Hnd' & Hnew & Hs). exists new. repeat split; try done; [right|]; by apply Hnew.
    + assert (size (fresh_draws (c :: draws) used) = S (size (fresh_draws draws ({[c]} ∪ used)))) as Hsize.
      { assert (fresh_draws (c :: draws) used = {[c]} ∪ fresh_draws draws ({[c]} ∪ used)) as ->.
        { unfold fresh_draws. apply set_eq. intros t. rewrite list_to_set_cons.
          destruct (decide (t = c)) as [->|]; set_solver. }
        rewrite size_union, size_singleton; [done|]. unfold fresh_draws. set_solver. }
      assert (NoDup (tokens ++ [c])) as Hnd'.
      { apply NoDup_app. split; [done|]. split; [|apply NoDup_singleton].
        intros t Ht ->%list_elem_of_singleton. auto. }
      rewrite Hsize. specialize (IH n ({[c]} ∪ used) (tokens ++ [c]) Hnd' ltac:(set_solver)).
      destruct (GenerateTokens_loop _ _ _ _); [|lia].
      destruct IH as (new & -> & Hl & Hnd'' & Hnew & Hs).
      exists (c :: new). rewrite <- app_assoc in *. split; [done|]. split; [simpl; lia|]. split; [done|].
      split; [|lia]. intros t [->|[? ?]%Hnew]%elem_of_cons; [|set_solver]. split; [by left|done].
Qed.

(** [GenerateTokens] ends exactly when its generator has produced enough
    values that are neither taken nor repeated; the tokens are then as many as
    asked, sorted, without duplicates, and none of them is taken. *)
Theorem GenerateTokens_spec (draws : list Z) (numTokens : Z) (takenTokens : list Z) :
  match GenerateTokens draws numTokens takenTokens with
  | Some l => Z.of_nat (length l) = Z.max 0 numTokens ∧ SSorted l ∧
      (∀ t, t ∈ l → t ∈ draws ∧ t ∉ takenTokens)
  | None => Z.of_nat (size (fresh_draws draws (list_to_set takenTokens))) < numTokens
  end.
Proof.
  unfold GenerateTokens. case_bool_decide as Hn.
  { simpl. split; [lia|]. split; [constructor|]. by intros ? ?%elem_of_nil. }
  pose proof (GenerateTokens_loop_spec draws (Z.to_nat numTokens) (list_to_set takenTokens) []
    (NoDup_nil_2) ltac:(by intros ? ?%elem_of_nil)) as Hs.
  destruct (GenerateTokens_loop _ _ _ _); simpl; [|lia].
  destruct Hs as (new & -> & Hl & Hnd & Hnew & _). simpl in *. split; [|split].
  - rewrite sort_tokens_perm. lia.
  - by apply SSorted_sort.
  - intros t. rewrite sort_tokens_elem. intros [? Hu]%Hnew. split; [done|]. by rewrite elem_of_list_to_set in Hu.
Qed.
End tokens_file.

(** ** Witness: an encoder of four bytes per token *)
Section witness.
Definition z_byte (z : Z) : Byte.byte := default Byte.x00 (Byte.of_N (Z.to_N (z mod 256))).
Definition byte_z (b : Byte.byte) : Z := Z.of_N (Byte.to_N b).
Lemma byte_z_byte z : byte_z (z_byte z) = z mod 256.
Proof.
  unfold z_byte, byte_z. pose proof (Z.mod_pos_bound z 256 ltac:(lia)) as Hb.
  destruct (Byte.of_N (Z.to_N (z mod 256))) as [b|] eqn:Hz; simpl.
  - apply Byte.to_of_N in Hz. rewrite Hz. lia.
  - apply Byte.of_N_None_iff in Hz. lia.
Qed.

Fixpoint encode (t : list Z) : bytes :=
  match t with
  | [] => []
  | v :: t => z_byte v :: z_byte (v / 256) :: z_byte (v / 65536) :: z_byte (v / 16777216) :: encode t
  end.
Fixpoint decode (b : bytes) : result unit (list Z) :=
  match b with
  | [] => Ok []
  | b0 :: b1 :: b2 :: b3 :: b =>
      t ← decode b;
      Ok (byte_z b0 + 256 * byte_z b1 + 65536 * byte_z b2 + 16777216 * byte_z b3 :: t)
  | _ => Err tt
  end.
#[local] Instance ex_json : TokensJSON := {|
  json_error := unit; json_Marshal t := Ok (encode t); json_Unmarshal := decode |}.

Lemma ex_json_roundtrip : json_roundtrip ex_json.
Proof.
  intros t b Ht [= <-]. simpl. induction Ht as [|v t Hv Ht IH]; [done|]. cbn [encode decode].
  rewrite IH. cbn [mbind result_bind]. rewrite !byte_z_byte. do 2 f_equal. unfold MaxUint32 in Hv.
  rewrite (Z.mod_small (v / 16777216)) by (split; [apply Z.div_pos|apply Z.div_lt_upper_bound]; lia).
  change 65536 with (256 * 256). change 16777216 with (256 * (256 * 256)).
  rewrite <- !Z.div_div by lia.
  pose proof (Z.div_mod v 256 ltac:(lia)). pose proof (Z.div_mod (v / 256) 256 ltac:(lia)).
  pose proof (Z.div_mod (v / 256 / 256) 256 ltac:(lia)). lia.
Qed.

Lemma StoreToFile_atomic_witness :
  let fs : FileSystem := {[ "tokens"%string := encode [7; 9] ]} in
  LoadTokensFromFile "tokens" (StoreToFile [500; 3; 70000] "tokens" NoFault fs).1 = ([3; 500; 70000], None) ∧
  (StoreToFile [500; 3; 70000] "tokens" (WriteFails 5) fs).1 !! "tokens"%string = Some (encode [7; 9]).
Proof.
  intros fs. assert (Forall (λ v, 0 ≤ v ≤ MaxUint32) [500; 3; 70000]) as Ht
    by (repeat constructor; unfold MaxUint32; lia).
  split.
  - exact (proj1 (proj2 (StoreToFile_atomic [500; 3; 70000] "tokens" NoFault fs _ None ex_json_roundtrip Ht eq_refl)) eq_refl).
  - refine (proj1 (StoreToFile_atomic [500; 3; 70000] "tokens" (WriteFails 5) fs _ (Some ErrWrite) ex_json_roundtrip Ht eq_refl) _).
    discriminate.
Defined.
End witness.
