(* ===== verification/KV.v ===== *)
(** * The CAS contract of [kv.Client] ([kv/client.go])

    [CAS] calls its callback with the current value of the key, then tries to
    swap the value for the one returned, and calls the callback again when that
    fails.  What the store and the environment do is an explicit sequence of
    events; a callback works on the state [S] of its caller, which it may
    change even when the attempt fails.  After a swap that fails the script
    decides whether there is another attempt: the memberlist client gives up
    when the callback asks for no retry, the Consul and etcd clients do not look
    at the flag then. *)
From Stdlib Require Import ZArith Lia.
From stdpp Require Import base gmap strings list.
From S2P Require Import Prelude.

Section cas.
Context {V Env Err KVErr S : Type}.

(** what a callback returns: [(out, retry, err)] *)
Record cas_out := mkCasOut { cas_value : option V; cas_retry : bool; cas_err : option Err }.

(** One attempt: the value read, the inputs of the callback (clock, random
    numbers), and whether the store accepts the swap. *)
Record attempt := mkAttempt { att_in : option V; att_env : Env; att_stored : bool }.
Inductive cas_event :=
| Attempt (a : attempt)
| GiveUp (e : KVErr).       (* the store fails, or the attempts are exhausted *)

Inductive cas_result :=
| CasOk (written : option V)  (* [None]: the callback was happy with the value *)
| CasCallbackErr (e : Err)
| CasKVErr (e : KVErr).

(** [None]: the call has not returned yet. *)
Fixpoint CAS (f : option V → Env → S → option (cas_out * S)) (script : list cas_event) (s : S)
    : option (cas_result * S) :=
  match script with
  | [] => None
  | GiveUp e :: _ => Some (CasKVErr e, s)
  | Attempt a :: script =>
      match f (att_in a) (att_env a) s with
      | None => None
      | Some (out, s) =>
          match cas_err out with
          | Some e => if cas_retry out then CAS f script s else Some (CasCallbackErr e, s)
          | None =>
              match cas_value out with
              | None => Some (CasOk None, s)
              | Some v =>
                  if att_stored a then Some (CasOk (Some v), s)
                  else CAS f script s
              end
          end
      end
  end.

(** What holds of the caller's state before a call, and is kept by every run of
    the callback that can be followed by another one, holds before the last run;
    a call that succeeds is such a run on a value that was read. *)
Lemma CAS_last (P : S → Prop) f script s r s' :
  (∀ a s out s', Attempt a ∈ script → P s → f (att_in a) (att_env a) s = Some (out, s') →
     (cas_err out = None → cas_value out ≠ None) → P s') →
  P s → CAS f script s = Some (r, s') →
  match r with
  | CasOk w => ∃ a s0 out, Attempt a ∈ script ∧ P s0 ∧ f (att_in a) (att_env a) s0 = Some (out, s') ∧
      cas_err out = None ∧ cas_value out = w ∧ (w ≠ None → att_stored a = true)
  | CasCallbackErr e => ∃ a s0 out, Attempt a ∈ script ∧ P s0 ∧ f (att_in a) (att_env a) s0 = Some (out, s') ∧
      cas_err out = Some e
  | CasKVErr e => P s'
  end.
Proof.
  revert s. induction script as [|ev script IH]; intros s Hf Hs Hc; [done|].
  assert (∀ s, P s → CAS f script s = Some (r, s') → match r with
    | CasOk w => ∃ a s0 out, Attempt a ∈ ev :: script ∧ P s0 ∧ f (att_in a) (att_env a) s0 = Some (out, s') ∧
        cas_err out = None ∧ cas_value out = w ∧ (w ≠ None → att_stored a = true)
    | CasCallbackErr e => ∃ a s0 out, Attempt a ∈ ev :: script ∧ P s0 ∧ f (att_in a) (att_env a) s0 = Some (out, s') ∧
        cas_err out = Some e
    | CasKVErr e => P s' end) as IH'.
  { clear s Hs Hc. intros s Hs Hc. specialize (IH s (λ a s out s' Hin, Hf a s out s' ltac:(by right)) Hs Hc).
    destruct r; [destruct IH as (a & s0 & out & Hin & ?); exists a, s0, out; split; [by right|done]..|done]. }
  clear IH. simpl in Hc. destruct ev as [a|e]; [|by injection Hc as <- <-].
  destruct (f (att_in a) (att_env a) s) as [[out s1]|] eqn:Hfs; [|done].
  assert (Attempt a ∈ Attempt a :: script) as Ha by by left.
  specialize (Hf a s out s1 Ha Hs Hfs). destruct (cas_err out) as [e|] eqn:He.
  - destruct (cas_retry out); [apply (IH' s1); naive_solver|]. injection Hc as <- <-. by exists a, s, out.
  - destruct (cas_value out) as [v|] eqn:Hv.
    + destruct (att_stored a) eqn:Hst.
      * injection Hc as <- <-. exists a, s, out. naive_solver.
      * apply (IH' s1); naive_solver.
    + injection Hc as <- <-. exists a, s, out. naive_solver.
Qed.

Lemma CAS_inv (P : S → Prop) f script s r s' :
  (∀ v env s out s', P s → f v env s = Some (out, s') → P s') → P s → CAS f script s = Some (r, s') → P s'.
Proof.
  intros Hf Hs Hc. pose proof Hc as Hl. apply (CAS_last P) in Hl; [|by intros; eapply Hf|done].
  destruct r as [w|e|e]; [destruct Hl as (a & s0 & o & _ & Hp & Hr & _)|destruct Hl as (a & s0 & o & _ & Hp & Hr & _)|done]; by eapply Hf.
Qed.
End cas.
Arguments cas_out : clear implicits.
Arguments attempt : clear implicits.
Arguments cas_event : clear implicits.
Arguments cas_result : clear implicits.

(** ** Errors of the store *)
Section kv_err.
Context {V Env Err KVErr KVErr' S : Type} (g : KVErr → KVErr').
Definition map_KVErr (r : cas_result V Err KVErr) : cas_result V Err KVErr' :=
  match r with CasOk w => CasOk w | CasCallbackErr e => CasCallbackErr e | CasKVErr e => CasKVErr (g e) end.
Definition map_event (ev : cas_event V Env KVErr) : cas_event V Env KVErr' :=
  match ev with Attempt a => Attempt a | GiveUp e => GiveUp (g e) end.
Lemma CAS_map_KVErr (f : option V → Env → S → option (cas_out V Err * S)) script s r s' :
  CAS f script s = Some (r, s') → CAS f (map_event <$> script) s = Some (map_KVErr r, s').
Proof.
  revert s. induction script as [|ev script IH]; intros s Hc; [done|]. simpl in *. destruct ev as [a|e]; [|by simplify_eq].
  simpl. destruct (f _ _ s) as [[out s1]|]; [|done].
  destruct (cas_err out); [destruct (cas_retry out); [auto|by simplify_eq]|].
  destruct (cas_value out); [destruct (att_stored a); [by simplify_eq|auto]|by simplify_eq].
Qed.
End kv_err.
