(* ===== verification/Lifecycler.v ===== *)
(** * The lifecycler: [ring/lifecycler.go], [ring/flush.go]

    The state of a [Lifecycler], its operations on the ring in the KV store
    (callbacks run by [CAS]), the loop as a step function on the events its
    [select] receives, and the shutdown.  The clock and the draws of the random
    generator of an attempt are in its environment.  The mutexes only make the
    accesses to single fields atomic; the operations run on the goroutine of
    the loop, one after the other. *)
From Stdlib Require Import ZArith Lia.
From stdpp Require Import base gmap strings list sorting fin_maps relations.
From S2P Require Import Prelude Model Ring TokensFile KV.

Record LifecyclerConfig := mkLifecyclerConfig {
  NumTokens : Z;
  HeartbeatPeriod : Z;
  ObservePeriod : Z;
  MinReadyDuration : Z;
  TokensFilePath : string;
  ReadinessCheckRingHealth : bool;
  RingConfig_HeartbeatTimeout : Z
}.

Inductive lifecycler_error (KVErr : Type) :=
| ErrDisallowed (from to : InstanceState)   (* Changing instance state is disallowed *)
| ErrEmptyRingToClaim
| ErrEmptyRingToUnregister
| ErrNoTokens
| ErrKV (e : KVErr)
| ErrNoRing
| ErrNotInRing
| ErrNotReady (e : model_error)
| ErrWaitingAfterReady.
Arguments ErrDisallowed {KVErr} from to.
Arguments ErrEmptyRingToClaim {KVErr}.
Arguments ErrEmptyRingToUnregister {KVErr}.
Arguments ErrNoTokens {KVErr}.
Arguments ErrKV {KVErr} e.
Arguments ErrNoRing {KVErr}.
Arguments ErrNotInRing {KVErr}.
Arguments ErrNotReady {KVErr} e.
Arguments ErrWaitingAfterReady {KVErr}.

(** [ring_desc] is the variable the callbacks share with [updateCounters];
    [disk] the file system the tokens file is on. *)
Record Lifecycler := mkLifecycler {
  lc_cfg : LifecyclerConfig;
  ID : string;
  lc_Addr : string;
  lc_Zone : string;
  flushOnShutdown : bool;
  unregisterOnShutdown : bool;
  state : InstanceState;
  tokens : list Z;
  registeredAt : Z;
  ready : bool;
  readySince : Z;
  healthyInstancesCount : Z;
  zonesCount : Z;
  disk : FileSystem
}.
Definition set_state x (i : Lifecycler) := mkLifecycler (lc_cfg i) (ID i) (lc_Addr i) (lc_Zone i) (flushOnShutdown i)
  (unregisterOnShutdown i) x (tokens i) (registeredAt i) (ready i) (readySince i) (healthyInstancesCount i) (zonesCount i) (disk i).
Definition set_tokens x (i : Lifecycler) := mkLifecycler (lc_cfg i) (ID i) (lc_Addr i) (lc_Zone i) (flushOnShutdown i)
  (unregisterOnShutdown i) (state i) x (registeredAt i) (ready i) (readySince i) (healthyInstancesCount i) (zonesCount i) (disk i).
Definition set_registeredAt x (i : Lifecycler) := mkLifecycler (lc_cfg i) (ID i) (lc_Addr i) (lc_Zone i) (flushOnShutdown i)
  (unregisterOnShutdown i) (state i) (tokens i) x (ready i) (readySince i) (healthyInstancesCount i) (zonesCount i) (disk i).
Definition set_ready x y (i : Lifecycler) := mkLifecycler (lc_cfg i) (ID i) (lc_Addr i) (lc_Zone i) (flushOnShutdown i)
  (unregisterOnShutdown i) (state i) (tokens i) (registeredAt i) x y (healthyInstancesCount i) (zonesCount i) (disk i).
Definition set_counters x y (i : Lifecycler) := mkLifecycler (lc_cfg i) (ID i) (lc_Addr i) (lc_Zone i) (flushOnShutdown i)
  (unregisterOnShutdown i) (state i) (tokens i) (registeredAt i) (ready i) (readySince i) x y (disk i).
Definition set_disk x (i : Lifecycler) := mkLifecycler (lc_cfg i) (ID i) (lc_Addr i) (lc_Zone i) (flushOnShutdown i)
  (unregisterOnShutdown i) (state i) (tokens i) (registeredAt i) (ready i) (readySince i) (healthyInstancesCount i) (zonesCount i) x.

(** the accessors; each takes its lock for one field only *)
Definition GetState (i : Lifecycler) : InstanceState := state i.
Definition HealthyInstancesCount (i : Lifecycler) : Z := healthyInstancesCount i.
Definition ZonesCount (i : Lifecycler) : Z := zonesCount i.
Definition FlushOnShutdown (i : Lifecycler) : bool := flushOnShutdown i.
Definition SetFlushOnShutdown (b : bool) (i : Lifecycler) : Lifecycler := mkLifecycler (lc_cfg i) (ID i) (lc_Addr i) (lc_Zone i) b
  (unregisterOnShutdown i) (state i) (tokens i) (registeredAt i) (ready i) (readySince i) (healthyInstancesCount i) (zonesCount i) (disk i).
Definition ShouldUnregisterOnShutdown (i : Lifecycler) : bool := unregisterOnShutdown i.
Definition SetUnregisterOnShutdown (b : bool) (i : Lifecycler) : Lifecycler := mkLifecycler (lc_cfg i) (ID i) (lc_Addr i) (lc_Zone i) (flushOnShutdown i)
  b (state i) (tokens i) (registeredAt i) (ready i) (readySince i) (healthyInstancesCount i) (zonesCount i) (disk i).

(** the inputs of one run of a callback *)
Record env := mkEnv { now : Z; draws : list Z; fault : os_fault }.

Section lifecycler.
Context `{MapRange} {J : TokensJSON} {KVErr : Type}.
Abbreviation lc_error := (lifecycler_error KVErr).
Abbreviation out := (cas_out Desc lc_error).
Abbreviation result_of A := (option (A * Lifecycler)).
Abbreviation script := (list (cas_event Desc env KVErr)).

(** [getTokens] and the other getters are the fields; [setTokens] only logs a
    failure to store the tokens *)
Definition setTokens (ts : list Z) (f : os_fault) (i : Lifecycler) : Lifecycler :=
  let i := set_tokens ts i in
  if bool_decide (TokensFilePath (lc_cfg i) ≠ ""%string)
  then set_disk (StoreToFile ts (TokensFilePath (lc_cfg i)) f (disk i)).1 i
  else i.

Definition updateCounters (ringDesc : option Desc) (now : Z) (i : Lifecycler) : Lifecycler :=
  match ringDesc with
  | None => set_counters 0 0 i
  | Some ringDesc =>
      let l := map_range 788 (Ingesters ringDesc) in
      let zones := foldl (λ (z : gset string) kv, {[Zone kv.2]} ∪ z) ∅ l in
      let healthy := foldl (λ n kv,
        if IsHealthy kv.2 Write (RingConfig_HeartbeatTimeout (lc_cfg i)) now then n + 1 else n) 0 l in
      set_counters healthy (Z.of_nat (size zones)) i
  end.

(** the callbacks work on the lifecycler and on the captured [ringDesc] *)
Abbreviation cb := (option Desc → env → Lifecycler * option Desc → option (out * (Lifecycler * option Desc))).
Definition store (i : Lifecycler) (d : Desc) : option (out * (Lifecycler * option Desc)) :=
  Some (mkCasOut (Some d) true None, (i, Some d)).

(** [if err == nil { i.updateCounters(ringDesc) }; return err] *)
Definition with_counters (now : Z) (r : option (cas_result Desc lc_error KVErr * (Lifecycler * option Desc)))
    : result_of (option lc_error) :=
  match r with
  | None => None
  | Some (CasOk _, (i, ringDesc)) => Some (None, updateCounters ringDesc now i)
  | Some (CasCallbackErr e, (i, _)) => Some (Some e, i)
  | Some (CasKVErr e, (i, _)) => Some (Some (ErrKV e), i)
  end.

(** ** [initRing] *)
Definition initRing_f (tokensFromFile : list Z) : cb := λ in_ e '(i, _),
  let ringDesc := default NewDesc in_ in
  match Ingesters ringDesc !! ID i with
  | None =>
      let registeredAt := now e in
      let i := set_registeredAt registeredAt i in
      if bool_decide (0 < Z.of_nat (length tokensFromFile)) then
        let i := if bool_decide (NumTokens (lc_cfg i) ≤ Z.of_nat (length tokensFromFile))
                 then set_state ACTIVE i else i in
        let d := (AddIngester ringDesc (ID i) (lc_Addr i) (lc_Zone i) tokensFromFile (state i) registeredAt (now e)).1 in
        store (setTokens tokensFromFile (fault e) i) d
      else
        store i (AddIngester ringDesc (ID i) (lc_Addr i) (lc_Zone i) [] (state i) registeredAt (now e)).1
  | Some instanceDesc =>
      let i := set_registeredAt (GetRegisteredAt (Some instanceDesc)) i in
      if bool_decide (State instanceDesc = JOINING) then
        (* the assignment changes the local copy of the entry *)
        store i ringDesc
      else
        let instanceDesc :=
          if bool_decide (State instanceDesc = LEAVING)
             && bool_decide (Z.of_nat (length (Tokens instanceDesc)) = NumTokens (lc_cfg i))
          then set_State ACTIVE instanceDesc else instanceDesc in
        let i := set_state (State instanceDesc) i in
        let '(ringDesc, (ts, _)) := TokensFor ringDesc (ID i) in
        (* the copy shares its slice of tokens, now sorted, with the ring *)
        let instanceDesc := set_Tokens (Tokens (ingester ringDesc (ID i))) instanceDesc in
        let i := setTokens ts (fault e) i in
        if bool_decide (HeartbeatPeriod (lc_cfg i) = 0)
           && negb (bool_decide (instanceDesc = ingester ringDesc (ID i)))
        then
          let instanceDesc := set_Timestamp (time_Unix (now e)) instanceDesc in
          store i (mkDesc (<[ID i := instanceDesc]> (Ingesters ringDesc)))
        else Some (mkCasOut None true None, (i, Some ringDesc))
  end.

Definition initRing (s : script) (now : Z) (i : Lifecycler) : result_of (option lc_error) :=
  let tokensFromFile :=
    if bool_decide (TokensFilePath (lc_cfg i) ≠ ""%string)
    then (LoadTokensFromFile (TokensFilePath (lc_cfg i)) (disk i)).1 else [] in
  with_counters now (CAS (initRing_f tokensFromFile) s (i, None)).

(** ** [verifyTokens] *)
Definition compareTokens (fromRing : list Z) (i : Lifecycler) : bool * Lifecycler :=
  let fromRing := sort_tokens fromRing in
  (* sorted in place *)
  let i := set_tokens (sort_tokens (tokens i)) i in
  (bool_decide (tokens i = fromRing), i).

(** the state is the lifecycler and the variable [result] *)
Definition verifyTokens_f : option Desc → env → Lifecycler * bool → option (out * (Lifecycler * bool)) :=
  λ in_ e '(i, result),
  let ringDesc := default NewDesc in_ in
  let '(ringDesc, (ringTokens, takenTokens)) := TokensFor ringDesc (ID i) in
  let '(same, i) := compareTokens ringTokens i in
  if negb same then
    let needTokens := NumTokens (lc_cfg i) - Z.of_nat (length ringTokens) in
    newTokens ← GenerateTokens (draws e) needTokens takenTokens;
    let ringTokens := sort_tokens (ringTokens ++ newTokens) in
    let d := (AddIngester ringDesc (ID i) (lc_Addr i) (lc_Zone i) ringTokens (state i) (registeredAt i) (now e)).1 in
    Some (mkCasOut (Some d) true None, (setTokens ringTokens (fault e) i, result))
  else Some (mkCasOut None true None, (i, true)).

Definition verifyTokens (s : script) (i : Lifecycler) : result_of bool :=
  match CAS verifyTokens_f s (i, false) with
  | None => None
  | Some (CasOk _, (i, result)) => Some (result, i)
  | Some (_, (i, _)) => Some (false, i)
  end.

(** ** [autoJoin] *)
Definition autoJoin_f (targetState : InstanceState) : cb := λ in_ e '(i, _),
  let ringDesc := default NewDesc in_ in
  let '(ringDesc, (myTokens, takenTokens)) := TokensFor ringDesc (ID i) in
  newTokens ← GenerateTokens (draws e) (NumTokens (lc_cfg i) - Z.of_nat (length myTokens)) takenTokens;
  let i := set_state targetState i in
  let myTokens := sort_tokens (myTokens ++ newTokens) in
  let i := setTokens myTokens (fault e) i in
  store i (AddIngester ringDesc (ID i) (lc_Addr i) (lc_Zone i) (tokens i) (state i) (registeredAt i) (now e)).1.

Definition autoJoin (targetState : InstanceState) (s : script) (now : Z) (i : Lifecycler) : result_of (option lc_error) :=
  with_counters now (CAS (autoJoin_f targetState) s (i, None)).

(** ** [updateConsul], [changeState] *)
Definition updateConsul_f : cb := λ in_ e '(i, _),
  let ringDesc := default NewDesc in_ in
  match Ingesters ringDesc !! ID i with
  | None =>
      store i (AddIngester ringDesc (ID i) (lc_Addr i) (lc_Zone i) (tokens i) (state i) (registeredAt i) (now e)).1
  | Some instanceDesc =>
      let instanceDesc := {|
        Timestamp := time_Unix (now e);
        State := state i;
        Addr := lc_Addr i;
        Zone := lc_Zone i;
        RegisteredTimestamp := time_Unix (registeredAt i);
        Tokens := Tokens instanceDesc
      |} in
      store i (mkDesc (<[ID i := instanceDesc]> (Ingesters ringDesc)))
  end.

Definition updateConsul (s : script) (now : Z) (i : Lifecycler) : result_of (option lc_error) :=
  with_counters now (CAS updateConsul_f s (i, None)).

Definition allowed (currState state : InstanceState) : bool :=
  (bool_decide (currState = PENDING) && bool_decide (state = JOINING))
  || (bool_decide (currState = JOINING) && bool_decide (state = PENDING))
  || (bool_decide (currState = JOINING) && bool_decide (state = ACTIVE))
  || (bool_decide (currState = PENDING) && bool_decide (state = ACTIVE))
  || (bool_decide (currState = ACTIVE) && bool_decide (state = LEAVING)).

Definition changeState (st : InstanceState) (s : script) (now : Z) (i : Lifecycler) : result_of (option lc_error) :=
  let currState := state i in
  if negb (allowed currState st) then Some (Some (ErrDisallowed currState st), i)
  else updateConsul s now (set_state st i).

(** ** [ClaimTokensFor], [unregister] *)
(** the state is the variable [tokens] of the closure *)
Definition claimTokens (fromID toID : string) : option Desc → env → list Z → option (out * list Z) :=
  λ in_ e ts,
  match in_ with
  | None => Some (mkCasOut None false (Some ErrEmptyRingToClaim), ts)
  | Some ringDesc =>
      let '(ringDesc, ts) := ClaimTokens ringDesc fromID toID in
      let ing := set_Timestamp (time_Unix (now e)) (ingester ringDesc toID) in
      let ts := sort_tokens ts in
      let ing := set_Tokens ts ing in
      Some (mkCasOut (Some (mkDesc (<[toID := ing]> (Ingesters ringDesc)))) true None, ts)
  end.
(** what the loop runs for [ClaimTokensFor]: the error of [CAS] is only logged *)
Definition ClaimTokensFor (ingesterID : string) (s : script) (f : os_fault) (i : Lifecycler) : option Lifecycler :=
  '(_, ts) ← CAS (claimTokens ingesterID (ID i)) s [];
  Some (setTokens ts f i).

Definition unregister_f (id : string) : option Desc → env → unit → option (out * unit) :=
  λ in_ _ _,
  match in_ with
  | None => Some (mkCasOut None false (Some ErrEmptyRingToUnregister), tt)
  | Some ringDesc => Some (mkCasOut (Some (RemoveIngester ringDesc id)) true None, tt)
  end.
Definition unregister (s : script) (i : Lifecycler) : option (option lc_error) :=
  match CAS (unregister_f (ID i)) s tt with
  | None => None
  | Some (CasOk _, _) => Some None
  | Some (CasCallbackErr e, _) => Some (Some e)
  | Some (CasKVErr e, _) => Some (Some (ErrKV e))
  end.

(** ** [CheckReady]: [got] is what [KVStore.Get] returns; [now1], [now2], [now3]
    the clock each time it is read *)
Definition checkRingHealthForReadiness (got : result KVErr (option Desc)) (now1 : Z) (i : Lifecycler) : option lc_error :=
  if bool_decide (length (tokens i) = 0%nat) then Some ErrNoTokens
  else
    match got with
    | Err e => Some (ErrKV e)
    | Ok None => Some ErrNoRing
    | Ok (Some ringDesc) =>
        if ReadinessCheckRingHealth (lc_cfg i) then
          match Desc_IsReady ringDesc now1 (RingConfig_HeartbeatTimeout (lc_cfg i)) with
          | Err e => Some (ErrNotReady e)
          | Ok _ => None
          end
        else
          match Ingesters ringDesc !! ID i with
          | None => Some ErrNotInRing
          | Some inst =>
              match InstanceDesc_IsReady inst now1 (RingConfig_HeartbeatTimeout (lc_cfg i)) with
              | Err e => Some (ErrNotReady e)
              | Ok _ => None
              end
          end
    end.
Definition CheckReady (got : result KVErr (option Desc)) (now1 now2 now3 : Z) (i : Lifecycler) : option lc_error * Lifecycler :=
  if ready i then (None, i)
  else
    match checkRingHealthForReadiness got now1 i with
    | Some err => (Some err, set_ready (ready i) zeroTime i)
    | None =>
        let i := if time_IsZero (readySince i) then set_ready (ready i) now2 i else i in
        if bool_decide (time_Sub now3 (readySince i) < MinReadyDuration (lc_cfg i))
        then (Some ErrWaitingAfterReady, i)
        else (None, set_ready true (readySince i) i)
    end.

(** ** The loop *)
Record loop_state := mkLoop {
  lc : Lifecycler;
  autoJoinAfter : bool;   (* the timer has not fired yet *)
  observeChan : bool      (* observing the ring: the timer is set *)
}.
Inductive loop_event :=
| JoinAfterExpired (s : script) (now : Z)
| ObserveExpired (s1 s2 : script) (now : Z)
| HeartbeatTick (s : script) (now : Z)
| ActorChangeState (st : InstanceState) (s : script) (now : Z)
| ActorClaimTokensFor (id : string) (s : script) (f : os_fault)
| LoopContextDone.
Inductive loop_result :=
| Running (l : loop_state)
| LoopExited (i : Lifecycler)                     (* returned [nil] *)
| LoopFailed (e : lc_error) (i : Lifecycler).

(** [None]: the event cannot happen now, or the operation it triggers has not
    returned *)
Definition loop_step (ev : loop_event) (l : loop_state) : option loop_result :=
  let i := lc l in
  match ev with
  | JoinAfterExpired s now =>
      if negb (autoJoinAfter l) then None
      else if bool_decide (state i = PENDING) then
        if bool_decide (0 < ObservePeriod (lc_cfg i)) then
          '(err, i) ← autoJoin JOINING s now i;
          Some (match err with Some e => LoopFailed e i | None => Running (mkLoop i false true) end)
        else
          '(err, i) ← autoJoin ACTIVE s now i;
          Some (match err with Some e => LoopFailed e i | None => Running (mkLoop i false (observeChan l)) end)
      else Some (Running (mkLoop i false (observeChan l)))
  | ObserveExpired s1 s2 now =>
      if negb (observeChan l) then None
      else
        '(verified, i) ← verifyTokens s1 i;
        if verified : bool then
          '(_, i) ← changeState ACTIVE s2 now i;
          Some (Running (mkLoop i (autoJoinAfter l) false))
        else Some (Running (mkLoop i (autoJoinAfter l) true))
  | HeartbeatTick s now =>
      if bool_decide (HeartbeatPeriod (lc_cfg i) = 0) then None
      else
        '(_, i) ← updateConsul s now i;
        Some (Running (mkLoop i (autoJoinAfter l) (observeChan l)))
  | ActorChangeState st s now =>
      '(_, i) ← changeState st s now i;
      Some (Running (mkLoop i (autoJoinAfter l) (observeChan l)))
  | ActorClaimTokensFor id s f =>
      i ← ClaimTokensFor id s f i;
      Some (Running (mkLoop i (autoJoinAfter l) (observeChan l)))
  | LoopContextDone => Some (LoopExited i)
  end.

(** the beginning of [loop] *)
Definition loop_start (s : script) (now : Z) (i : Lifecycler) : option loop_result :=
  '(err, i) ← initRing s now i;
  Some (match err with Some e => LoopFailed e i | None => Running (mkLoop i true false) end).

(** ** Stopping *)
(** [processShutdown]: whether [Flush] is called *)
Inductive transfer := TransferOk | TransferDisabled | TransferFailed.
Definition processShutdown (TransferOut : transfer) (i : Lifecycler) : bool :=
  let flushRequired := flushOnShutdown i in
  match TransferOut with
  | TransferOk => false
  | TransferDisabled | TransferFailed => flushRequired
  end.

(** the heartbeats until the transfer is done *)
Fixpoint heartbeatLoop (beats : list (script * Z)) (i : Lifecycler) : option Lifecycler :=
  match beats with
  | [] => Some i
  | (s, now) :: beats =>
      if bool_decide (HeartbeatPeriod (lc_cfg i) = 0) then None
      else '(_, i) ← updateConsul s now i; heartbeatLoop beats i
  end.

(** the error, and whether [Flush] is called *)
Definition stopping (runningError : option lc_error) (TransferOut : transfer) (s1 : script) (now : Z)
    (beats : list (script * Z)) (s2 : script) (i : Lifecycler) : result_of (option lc_error * bool) :=
  match runningError with
  | Some _ => Some ((None, false), i)
  | None =>
      '(_, i) ← changeState LEAVING s1 now i;
      let flushed := processShutdown TransferOut i in
      i ← heartbeatLoop beats i;
      if unregisterOnShutdown i then
        err ← unregister s2 i;
        Some ((err, flushed), i)
      else Some ((None, flushed), i)
  end.
End lifecycler.
