(* ===== verification/LifecyclerFacts.v ===== *)
(** * Correctness of the lifecycler

    The tokens it registers, the transitions of its state, its heartbeat and
    its readiness. *)
From Stdlib Require Import ZArith Lia.
From stdpp Require Import base gmap strings list sorting fin_maps fin_sets relations.
From S2P Require Import Prelude Model ModelFacts Ring RingFacts ResolveFacts TokensFile KV Lifecycler.

(** every instance has distinct tokens and no token has two owners *)
Definition tokens_ok (d : Desc) : Prop :=
  map_Forall (λ _ i, NoDup (Tokens i)) (Ingesters d) ∧ conflict_free (Ingesters d).

Lemma tokens_ok_new : tokens_ok NewDesc.
Proof. split; [apply map_Forall_empty|]. intros k1 k2 i1 i2 t Hk. unfold NewDesc in Hk. simpl in Hk. by rewrite lookup_empty in Hk. Qed.

Lemma ingester_elem d id t : t ∈ Tokens (ingester d id) → ∃ i, Ingesters d !! id = Some i ∧ t ∈ Tokens i.
Proof. unfold ingester. destruct (Ingesters d !! id); simpl; [eauto|by intros ?%elem_of_nil]. Qed.

Section facts.
Context `{R : MapRange} {J : TokensJSON} {KVErr : Type}.
Abbreviation script := (list (cas_event Desc env KVErr)).

Lemma TokensFor_eq d id :
  TokensFor d id = (sorted_desc d, (sort_tokens (Tokens (ingester d id)), (GetTokens d).2)).
Proof.
  unfold TokensFor. rewrite GetTokens_spec. simpl. do 2 f_equal. unfold ingester, sorted_desc. simpl.
  rewrite lookup_fmap. by destruct (Ingesters d !! id).
Qed.

(** what cannot change while a lifecycler runs *)
Definition identity (i : Lifecycler) :=
  (lc_cfg i, ID i, lc_Addr i, lc_Zone i, flushOnShutdown i, unregisterOnShutdown i).

Lemma setTokens_spec ts f i :
  identity (setTokens ts f i) = identity i ∧ state (setTokens ts f i) = state i ∧
  tokens (setTokens ts f i) = ts ∧ registeredAt (setTokens ts f i) = registeredAt i.
Proof. unfold setTokens. by case_bool_decide. Qed.
Lemma updateCounters_spec d n i :
  identity (updateCounters d n i) = identity i ∧ state (updateCounters d n i) = state i ∧
  tokens (updateCounters d n i) = tokens i ∧ registeredAt (updateCounters d n i) = registeredAt i.
Proof. unfold updateCounters. by destruct d. Qed.

(** ** The tokens an instance joins with *)
(** [d'] is [d] where the instance of [i] is registered with the tokens it had
    and fresh ones, [n] in all *)
Record joined (i : Lifecycler) (st : InstanceState) (n : Z) (d d' : Desc) (e : env) (ts : list Z) : Prop := {
  joined_entry : Ingesters d' !! ID i = Some (AddIngester d (ID i) (lc_Addr i) (lc_Zone i) ts st (registeredAt i) (now e)).2;
  joined_others : ∀ k, k ≠ ID i → Ingesters d' !! k = sort_instance <$> Ingesters d !! k;
  joined_kept : ∀ t, t ∈ Tokens (ingester d (ID i)) → t ∈ ts;
  joined_count : Z.of_nat (length ts) = Z.max n (Z.of_nat (length (Tokens (ingester d (ID i)))));
  joined_ok : tokens_ok d → tokens_ok d' ∧ SSorted ts
}.

(** tokens the instance has with fresh ones: no conflict appears *)
Lemma fresh_entry_ok d id inst draws need new :
  GenerateTokens draws need (GetTokens d).2 = Some new →
  Tokens inst = sort_tokens (sort_tokens (Tokens (ingester d id)) ++ new) →
  tokens_ok d → tokens_ok (mkDesc (<[id := inst]> (Ingesters (sorted_desc d)))) ∧ SSorted (Tokens inst).
Proof.
  intros Hg Hinst [Hnd Hcf]. pose proof (GenerateTokens_spec draws need (GetTokens d).2) as Hs.
  rewrite Hg in Hs. destruct Hs as (_ & Hsort & Hfresh).
  assert (∀ t, t ∈ Tokens inst ↔ t ∈ Tokens (ingester d id) ∨ t ∈ new) as Hts.
  { intros t. by rewrite Hinst, sort_tokens_elem, elem_of_app, sort_tokens_elem. }
  assert (∀ t k j, Ingesters d !! k = Some j → t ∈ Tokens j → t ∉ new) as Hdisj.
  { intros t k j Hk Ht Hn. apply Hfresh in Hn as [_ Hn]. apply Hn, GetTokens_elem. eauto. }
  assert (NoDup (Tokens inst)) as Hndts.
  { rewrite Hinst, sort_tokens_perm, sort_tokens_perm. apply NoDup_app. split.
    - unfold ingester. destruct (Ingesters d !! id) as [j|] eqn:Hj; simpl; [by eapply Hnd|constructor].
    - split; [|by apply SSorted_NoDup]. intros t Ht%ingester_elem. destruct Ht as (j & Hj & Ht). by eapply Hdisj. }
  split; [|by apply SSorted_of_le; [rewrite Hinst; apply sort_tokens_sorted|]].
  assert (∀ k j, Ingesters (sorted_desc d) !! k = Some j → ∃ j0, Ingesters d !! k = Some j0 ∧ Tokens j = sort_tokens (Tokens j0)) as Hold.
  { intros k j. simpl. rewrite lookup_fmap. destruct (Ingesters d !! k) as [j0|]; [|done]. intros [= <-]. eauto. }
  split; simpl Ingesters.
  - intros k j [(<- & <-)|(Hk & (j0 & Hj0 & ->)%Hold)]%lookup_insert_Some; [done|].
    rewrite sort_tokens_perm. by eapply Hnd.
  - assert (∀ k j t, k ≠ id → Ingesters (sorted_desc d) !! k = Some j → t ∈ Tokens j → t ∉ Tokens inst) as Hother.
    { intros k j t Hk (j0 & Hj0 & ->)%Hold. rewrite sort_tokens_elem. intros Ht [Hin|Hin]%Hts; [|by apply (Hdisj t k j0)].
      apply ingester_elem in Hin as (i0 & Hi0 & Hin). by apply Hk, (Hcf k id j0 i0 t). }
    intros k1 k2 j1 j2 t [(<- & <-)|(Hk1 & Hj1)]%lookup_insert_Some [(<- & <-)|(Hk2 & Hj2)]%lookup_insert_Some Ht1 Ht2; try done.
    + by destruct (Hother k2 j2 t).
    + by destruct (Hother k1 j1 t).
    + apply Hold in Hj1 as (i1 & H1 & E1), Hj2 as (i2 & H2 & E2). rewrite E1 in Ht1. rewrite E2 in Ht2.
      rewrite sort_tokens_elem in Ht1, Ht2. by apply (Hcf k1 k2 i1 i2 t).
Qed.

Lemma join_fresh i st n d e new :
  GenerateTokens (draws e) (n - Z.of_nat (length (Tokens (ingester d (ID i))))) (GetTokens d).2 = Some new →
  let ts := sort_tokens (sort_tokens (Tokens (ingester d (ID i))) ++ new) in
  joined i st n d (AddIngester (sorted_desc d) (ID i) (lc_Addr i) (lc_Zone i) ts st (registeredAt i) (now e)).1 e ts.
Proof.
  intros Hg ts. pose proof (GenerateTokens_spec (draws e) (n - Z.of_nat (length (Tokens (ingester d (ID i))))) (GetTokens d).2) as Hs.
  rewrite Hg in Hs. destruct Hs as (Hlen & _). constructor.
  - simpl. by rewrite lookup_insert_eq.
  - intros k Hk. simpl. rewrite lookup_insert_ne by done. by rewrite lookup_fmap.
  - intros t Ht. unfold ts. rewrite sort_tokens_elem, elem_of_app, sort_tokens_elem. by left.
  - unfold ts. rewrite sort_tokens_perm, length_app, sort_tokens_perm. lia.
  - by eapply fresh_entry_ok.
Qed.

(** the lifecycler [j] is still the same registration as [i] *)
Definition same_registration (i j : Lifecycler) : Prop := identity j = identity i ∧ registeredAt j = registeredAt i.

Lemma joined_same i j st n d d' e ts : same_registration i j → joined j st n d d' e ts → joined i st n d d' e ts.
Proof.
  unfold same_registration, identity. intros [Hid Hreg] [H1 H2 H3 H4 H5].
  injection Hid as Hcfg HID HA HZ _ _. rewrite HID, HA, HZ, Hreg in *. by constructor.
Qed.
Lemma setTokens_same i j ts f : same_registration i j → same_registration i (setTokens ts f j).
Proof. unfold same_registration. destruct (setTokens_spec ts f j) as (-> & _ & _ & ->). done. Qed.
Lemma updateCounters_same i j d n : same_registration i j → same_registration i (updateCounters d n j).
Proof. unfold same_registration. destruct (updateCounters_spec d n j) as (-> & _ & _ & ->). done. Qed.

(** the ring a run of [CAS] has written *)
Definition written {S} (r : option (cas_result Desc (lifecycler_error KVErr) KVErr * S)) (d : Desc) : Prop :=
  ∃ s, r = Some (CasOk (Some d), s).

(** a run of [autoJoin]'s callback *)
Lemma autoJoin_f_run st in_ e (j j' : Lifecycler) v v' o :
  autoJoin_f (KVErr:=KVErr) st in_ e (j, v) = Some (o, (j', v')) →
  same_registration j j' ∧ state j' = st ∧
  ∃ d', o = mkCasOut (Some d') true None ∧
    joined j st (NumTokens (lc_cfg j)) (default NewDesc in_) d' e (tokens j').
Proof.
  unfold autoJoin_f. rewrite TokensFor_eq.
  rewrite sort_tokens_perm.
  destruct (GenerateTokens _ _ _) as [new|] eqn:Hg; [|done]. cbn [mbind option_bind]. unfold store.
  set (ts := sort_tokens (_ ++ _)).
  pose proof (setTokens_spec ts (fault e) (set_state st j)) as (Hid & Hst & Hts & Hreg).
  intros [= <- <- _]. split; [by split; [rewrite Hid|rewrite Hreg]|]. split; [by rewrite Hst|].
  eexists. split; [done|]. rewrite Hts, Hst, Hreg. unfold identity in Hid. injection Hid as _ -> -> -> _ _.
  apply (join_fresh j st (NumTokens (lc_cfg j)) (default NewDesc in_) e new Hg).
Qed.

Lemma with_counters_ok (r : option (cas_result Desc (lifecycler_error KVErr) KVErr * (Lifecycler * option Desc))) n i' :
  with_counters n r = Some (None, i') →
  ∃ w j v, r = Some (CasOk w, (j, v)) ∧ i' = updateCounters v n j.
Proof. destruct r as [[[w|e|e] [j v]]|]; [|done..]. intros [= <-]. eauto. Qed.

Lemma autoJoin_same st in_ e i (s s' : Lifecycler * option Desc) o :
  same_registration i s.1 → autoJoin_f (KVErr:=KVErr) st in_ e s = Some (o, s') → same_registration i s'.1.
Proof.
  destruct s as [j v], s' as [j' v']. cbn [fst]. intros [H1 H2] Hr.
  apply autoJoin_f_run in Hr as [[H3 H4] _]. split; congruence.
Qed.

(** a run of [verifyTokens]'s callback *)
Lemma verifyTokens_f_run in_ e (j j' : Lifecycler) res res' o :
  let d := default NewDesc in_ in
  verifyTokens_f (KVErr:=KVErr) in_ e (j, res) = Some (o, (j', res')) →
  same_registration j j' ∧ state j' = state j ∧
  ((o = mkCasOut None true None ∧ res' = true ∧ tokens j' = sort_tokens (Tokens (ingester d (ID j))) ∧ tokens j' ≡ₚ tokens j) ∨
   (res' = res ∧ ¬ (tokens j ≡ₚ Tokens (ingester d (ID j))) ∧
    ∃ d', o = mkCasOut (Some d') true None ∧ joined j (state j) (NumTokens (lc_cfg j)) d d' e (tokens j'))).
Proof.
  intros d. unfold verifyTokens_f. fold d. rewrite TokensFor_eq. unfold compareTokens.
  rewrite (sort_tokens_id (sort_tokens _)) by apply sort_tokens_sorted.
  change (tokens (set_tokens (sort_tokens (tokens j)) j)) with (sort_tokens (tokens j)).
  case_bool_decide as Hsame; cbn [negb].
  - intros [= <- <- <-]. split; [done|]. split; [done|]. left. repeat split; try done. simpl. apply sort_tokens_perm.
  - change (ID (set_tokens (sort_tokens (tokens j)) j)) with (ID j).
    change (lc_cfg (set_tokens (sort_tokens (tokens j)) j)) with (lc_cfg j). rewrite (sort_tokens_perm (Tokens _)) at 1.
    destruct (GenerateTokens _ _ _) as [new|] eqn:Hg; [|done]. cbn [mbind option_bind].
    set (ts := sort_tokens (_ ++ _)). set (j0 := set_tokens (sort_tokens (tokens j)) j).
    pose proof (setTokens_spec ts (fault e) j0) as (Hid & Hst & Hts & Hreg).
    intros [= <- <- <-]. split; [by split; [rewrite Hid|rewrite Hreg]|]. split; [by rewrite Hst|]. right.
    split; [done|]. split; [by intros He; apply Hsame, sort_tokens_proper|].
    eexists. split; [done|]. rewrite Hts. apply (join_fresh j (state j) (NumTokens (lc_cfg j)) d e new Hg).
Qed.

Lemma verifyTokens_same in_ e i (s s' : Lifecycler * bool) o :
  same_registration i s.1 ∧ state s.1 = state i → verifyTokens_f (KVErr:=KVErr) in_ e s = Some (o, s') →
  same_registration i s'.1 ∧ state s'.1 = state i.
Proof.
  destruct s as [j v], s' as [j' v']. cbn [fst]. intros [[H1 H2] H3] Hr.
  apply verifyTokens_f_run in Hr as [[H4 H5] [H6 _]].
  split; [split|]; congruence.
Qed.

Lemma same_cfg i j : same_registration i j → lc_cfg j = lc_cfg i ∧ ID j = ID i.
Proof. unfold same_registration, identity. intros [Hid _]. by injection Hid. Qed.

(** C25. When [autoJoin] returns no error, the ring it has written is the ring
    read by its last attempt where the instance is in the target state and owns
    the tokens it had plus fresh ones, [NumTokens] in all; nobody else's entry
    changes, the local state and tokens are those of the entry, and a ring
    without shared or repeated tokens stays so. *)
Theorem autoJoin_correct (target : InstanceState) (s : script) (n : Z) (i i' : Lifecycler) :
  autoJoin target s n i = Some (None, i') →
  ∃ a d', Attempt a ∈ s ∧ att_stored a = true ∧ written (CAS (autoJoin_f target) s (i, None)) d' ∧
    state i' = target ∧
    joined i target (NumTokens (lc_cfg i)) (default NewDesc (att_in a)) d' (att_env a) (tokens i').
Proof.
  unfold autoJoin. intros Hj. apply with_counters_ok in Hj as (w & j & v & Hc & ->).
  pose proof (updateCounters_spec v n j) as (_ & -> & -> & _).
  pose proof Hc as Hlast. apply (CAS_last (λ s, same_registration i s.1)) in Hlast
    as (a & [j0 v0] & o & Hin & Hsame & Hrun & _ & Hw & Hst).
  - apply autoJoin_f_run in Hrun as (_ & Hstate & d' & -> & Hjoined). simpl in Hw. subst w.
    exists a, d'. split; [done|]. split; [by apply Hst|]. split; [by eexists|]. split; [done|].
    cbn [fst] in Hsame. apply (joined_same i j0); [done|]. by destruct (same_cfg _ _ Hsame) as [<- _].
  - intros ? ? ? ? _ Hs Hr _. by eapply autoJoin_same.
  - done.
Qed.

(** [verifyTokens] returns [true] only when the tokens registered in the ring
    are those of the instance; when it has to replace lost tokens it writes the
    ring with the remaining ones and fresh ones, [NumTokens] in all, and keeps
    them, so that the tokens of the ring it has written are those of the
    instance. *)
Theorem verifyTokens_correct (s : script) (i i' : Lifecycler) (verified : bool) :
  verifyTokens s i = Some (verified, i') →
  state i' = state i ∧
  (verified = true → ∃ a, Attempt a ∈ s ∧
     tokens i' = sort_tokens (Tokens (ingester (default NewDesc (att_in a)) (ID i)))) ∧
  (∀ d', written (CAS verifyTokens_f s (i, false)) d' →
     verified = false ∧ tokens i' = Tokens (ingester d' (ID i)) ∧
     ∃ a, Attempt a ∈ s ∧ att_stored a = true ∧
       joined i (state i) (NumTokens (lc_cfg i)) (default NewDesc (att_in a)) d' (att_env a) (tokens i')).
Proof.
  unfold verifyTokens. destruct (CAS _ _ _) as [[r [j res]]|] eqn:Hc; [|done].
  intros Hv. assert (i' = j ∧ (verified = true → res = true ∧ ∃ w, r = CasOk w) ∧ (∀ w, r = CasOk w → verified = res))
    as (-> & Hver & Hres) by (destruct r; injection Hv as <- <-; naive_solver).
  apply (CAS_last (λ s, (same_registration i s.1 ∧ state s.1 = state i) ∧ s.2 = false)) in Hc.
  2: { intros a [j0 res0] o [j1 res1] _ [Hs Hres0] Hr Ho. split; [by eapply verifyTokens_same|].
       apply verifyTokens_f_run in Hr as (_ & _ & [(-> & _)|(-> & _)]); [by destruct (Ho eq_refl)|done]. }
  2: { done. }
  destruct r as [w|e|e].
  - destruct Hc as (a & [j0 res0] & o & Hin & [[Hsame Hst] Hres0] & Hrun & _ & Hw & Hstored). cbn [fst snd] in *.
    destruct (same_cfg _ _ Hsame) as [Hcfg HID].
    apply verifyTokens_f_run in Hrun as (_ & Hst' & [(-> & -> & Htok & _)|(-> & _ & d1 & -> & Hj)]).
    + split; [congruence|]. split; [intros _; exists a; by rewrite <- HID|].
      intros d' (s0 & Hd). simpl in Hw. congruence.
    + split; [congruence|]. split; [intros Ht; exfalso; apply Hver in Ht as [? _]; congruence|].
      intros d' (s0 & [= Hd _]). simpl in Hw. assert (d1 = d') as -> by congruence.
      rewrite Hcfg, Hst in Hj. apply (joined_same i) in Hj; [|done].
      split; [by rewrite (Hres w)|]. split; [|exists a; split; [done|]; split; [apply Hstored; congruence|done]].
      unfold ingester. by rewrite (joined_entry _ _ _ _ _ _ _ Hj).
  - destruct Hc as (a & [j0 res0] & o & _ & [[_ Hst] _] & Hrun & He). cbn [fst] in *.
    apply verifyTokens_f_run in Hrun as (_ & _ & [(-> & _)|(_ & _ & d1 & -> & _)]); done.
  - destruct Hc as [[_ Hst] _]. cbn [fst] in Hst. split; [done|]. split; [intros Ht; by apply Hver in Ht as [_ [w [=]]]|].
    intros d' (s0 & [=]).
Qed.

(** ** Heartbeats *)
(** the entry a heartbeat writes: the one of the ring brought up to date, or a
    new one *)
Definition heartbeat_entry (i : Lifecycler) (e : env) (old : option InstanceDesc) : InstanceDesc := {|
  Addr := lc_Addr i;
  Timestamp := time_Unix (now e);
  State := state i;
  Tokens := match old with Some inst => Tokens inst | None => tokens i end;
  Zone := lc_Zone i;
  RegisteredTimestamp :=
    match old with
    | Some _ => time_Unix (registeredAt i)
    | None => if time_IsZero (registeredAt i) then 0 else time_Unix (registeredAt i)
    end
|}.
Definition heartbeat (i : Lifecycler) (e : env) (d : Desc) : Desc :=
  mkDesc (<[ID i := heartbeat_entry i e (Ingesters d !! ID i)]> (Ingesters d)).

Lemma updateConsul_f_run in_ e (j : Lifecycler) v :
  let d' := heartbeat j e (default NewDesc in_) in
  updateConsul_f (KVErr:=KVErr) in_ e (j, v) = Some (mkCasOut (Some d') true None, (j, Some d')).
Proof.
  unfold updateConsul_f, heartbeat, heartbeat_entry, AddIngester, store.
  destruct (Ingesters (default NewDesc in_) !! ID j); [done|]. simpl. by destruct (time_IsZero (registeredAt j)).
Qed.

Lemma updateConsul_frame s n i r i' :
  updateConsul (KVErr:=KVErr) s n i = Some (r, i') → ∃ hc zc, i' = set_counters hc zc i.
Proof.
  unfold updateConsul. destruct (CAS _ _ _) as [[cr [j v]]|] eqn:Hc; [|done].
  apply (CAS_inv (λ s, s.1 = i)) in Hc; [|by intros w e [j0 v0] o s' Hj0; rewrite updateConsul_f_run; intros [= _ <-]|done].
  cbn [fst] in Hc. subst j.
  destruct cr; simpl; intros [= _ <-]; [unfold updateCounters; destruct v; eauto|..];
    exists (healthyInstancesCount i), (zonesCount i); by destruct i.
Qed.

(** A heartbeat, whatever other instances write meanwhile, writes the ring it
    has read with its own entry only replaced: the state, the address and the
    zone are the local ones, the time is now and the tokens are those of the
    ring; an instance the store has lost is registered again with its local
    tokens.  Only the counters of the lifecycler change. *)
Theorem updateConsul_correct (s : script) (n : Z) (i i' : Lifecycler) :
  updateConsul s n i = Some (None, i') →
  ∃ a, Attempt a ∈ s ∧ att_stored a = true ∧
    written (CAS updateConsul_f s (i, None)) (heartbeat i (att_env a) (default NewDesc (att_in a))) ∧
    i' = updateCounters (Some (heartbeat i (att_env a) (default NewDesc (att_in a)))) n i.
Proof.
  unfold updateConsul. intros Hj. apply with_counters_ok in Hj as (w & j & v & Hc & ->).
  pose proof Hc as Hlast. apply (CAS_last (λ s, s.1 = i)) in Hlast
    as (a & [j0 v0] & o & Hin & Hj0 & Hrun & _ & Hw & Hst).
  - cbn [fst] in Hj0. subst j0. rewrite updateConsul_f_run in Hrun. injection Hrun as <- <- <-. simpl in Hw. subst w.
    exists a. split; [done|]. split; [by apply Hst|]. split; [by eexists|done].
  - intros a [j0 v0] o s' _ Hj0. rewrite updateConsul_f_run. by intros [= _ <-].
  - done.
Qed.

(** When the registration time is not known, a heartbeat on an existing entry
    writes the Unix time of the zero [time.Time], not 0. *)
Lemma heartbeat_zero_registered i e inst :
  registeredAt i = GetRegisteredAt (Some (set_Tokens [] inst)) → RegisteredTimestamp inst = 0 →
  RegisteredTimestamp (heartbeat_entry i e (Some inst)) = -62135596800.
Proof. intros Hr Hz. simpl. rewrite Hr. unfold GetRegisteredAt. simpl. by rewrite Hz. Qed.

(** ** Transitions *)
Lemma autoJoin_state st s n i r i' :
  autoJoin (KVErr:=KVErr) st s n i = Some (r, i') →
  same_registration i i' ∧ (state i' = state i ∨ state i' = st).
Proof.
  unfold autoJoin. destruct (CAS _ _ _) as [[cr [j v]]|] eqn:Hc; [|done].
  apply (CAS_inv (λ s, same_registration i s.1 ∧ (state s.1 = state i ∨ state s.1 = st))) in Hc; [| |by split; [|left]].
  - cbn [fst] in Hc. pose proof (updateCounters_spec v n j) as (_ & H2 & _ & _).
    pose proof (updateCounters_same i j v n (proj1 Hc)). destruct cr; simpl; intros [= _ <-]; rewrite ?H2; (done || by split; [|apply Hc]).
  - intros w e [j0 v0] o [j1 v1] [Hs _] Hr. cbn [fst] in *. split; [by eapply (autoJoin_same _ _ _ _ (j0, v0) (j1, v1))|].
    apply autoJoin_f_run in Hr as (_ & -> & _). by right.
Qed.

Lemma verifyTokens_state s i r i' :
  verifyTokens (KVErr:=KVErr) s i = Some (r, i') → same_registration i i' ∧ state i' = state i.
Proof.
  unfold verifyTokens. destruct (CAS _ _ _) as [[cr [j v]]|] eqn:Hc; [|done].
  apply (CAS_inv (λ s, same_registration i s.1 ∧ state s.1 = state i)) in Hc; [| |done].
  - destruct cr; intros [= _ <-]; apply Hc.
  - intros w e s0 o s1 Hs Hr. by eapply verifyTokens_same.
Qed.

Lemma updateConsul_state s n i r i' :
  updateConsul (KVErr:=KVErr) s n i = Some (r, i') → same_registration i i' ∧ state i' = state i.
Proof. intros (hc & zc & ->)%updateConsul_frame. done. Qed.

Definition moves (st st' : InstanceState) : Prop := st' = st ∨ allowed st st' = true.

Lemma changeState_moves st s n i r i' :
  changeState (KVErr:=KVErr) st s n i = Some (r, i') →
  same_registration i i' ∧ state i' = (if allowed (state i) st then st else state i).
Proof.
  unfold changeState. destruct (allowed (state i) st) eqn:Ha; simpl; [|by intros [= _ <-]].
  intros Hu%updateConsul_state. destruct Hu as [Hs ->]. done.
Qed.

Definition result_lc (r : loop_result (KVErr:=KVErr)) : Lifecycler :=
  match r with Running l => lc l | LoopExited i | LoopFailed _ i => i end.

Lemma loop_step_moves ev l r :
  loop_step (KVErr:=KVErr) ev l = Some r →
  same_registration (lc l) (result_lc r) ∧ moves (state (lc l)) (state (result_lc r)).
Proof.
  unfold loop_step, moves. intros Hs. destruct ev as [s n|s1 s2 n|s n|st s n|id s f|].
  - destruct (autoJoinAfter l); [|done]. simpl in Hs. case_bool_decide as Hp; [|injection Hs as <-; simpl; split; [done|by left]].
    case_bool_decide; destruct (autoJoin _ _ _ _) as [[err i']|] eqn:Hj; try done; simpl in Hs; injection Hs as <-;
      apply autoJoin_state in Hj as [Hid Hst]; destruct err; simpl; (split; [done|]); rewrite Hp in *;
      destruct Hst as [->| ->]; auto.
  - destruct (observeChan l); [|done]. simpl in Hs.
    destruct (verifyTokens _ _) as [[b i1]|] eqn:Hv; [|done]. apply verifyTokens_state in Hv as [[Hid Hreg] Hst].
    destruct b; simpl in Hs; [|injection Hs as <-; simpl; split; [done|by left]].
    destruct (changeState _ _ _ _) as [[r1 i2]|] eqn:Hc; [|done]. simpl in Hs. injection Hs as <-.
    apply changeState_moves in Hc as [[Hid' Hreg'] Hst']. simpl. split; [split; congruence|]. rewrite Hst', Hst.
    destruct (allowed (state (lc l)) ACTIVE) eqn:Ha; auto.
  - case_bool_decide; [done|]. destruct (updateConsul _ _ _) as [[r1 i1]|] eqn:Hu; [|done]. injection Hs as <-.
    apply updateConsul_state in Hu as [? ?]. simpl. auto.
  - destruct (changeState _ _ _ _) as [[r1 i2]|] eqn:Hc; [|done]. simpl in Hs. injection Hs as <-.
    apply changeState_moves in Hc as [? Hst]. simpl. rewrite Hst. split; [done|]. destruct (allowed (state (lc l)) st) eqn:Ha; auto.
  - unfold ClaimTokensFor in Hs. destruct (CAS _ _ _) as [[r1 ts]|]; [|done]. simpl in Hs. injection Hs as <-. simpl.
    split; [by apply setTokens_same|]. left. apply setTokens_spec.
  - injection Hs as <-. simpl. split; [done|by left].
Qed.

Definition loop_run (l l' : loop_state) : Prop := ∃ ev, loop_step (KVErr:=KVErr) ev l = Some (Running l').

Lemma heartbeatLoop_state beats i i' :
  heartbeatLoop (KVErr:=KVErr) beats i = Some i' → same_registration i i' ∧ state i' = state i.
Proof.
  revert i. induction beats as [|[s n] beats IH]; intros i; simpl; [by intros [= <-]|].
  case_bool_decide; [done|]. destruct (updateConsul _ _ _) as [[r1 i1]|] eqn:Hu; [|done]. cbn [mbind option_bind].
  intros Hb%IH. destruct (updateConsul_state _ _ _ _ _ Hu) as [[? ?] ?]. destruct Hb as [[? ?] ?].
  split; [split|]; congruence.
Qed.

Lemma loop_run_moves l l' :
  rtc loop_run l l' →
  same_registration (lc l) (lc l') ∧ rtc (λ a b, allowed a b = true) (state (lc l)) (state (lc l')).
Proof.
  induction 1 as [l|l l1 l2 [ev Hs] _ [[? ?] Hr]]; [done|].
  apply loop_step_moves in Hs as [[? ?] [Hst|Hst]]; cbn [result_lc] in *; (split; [split; congruence|]).
  - by rewrite <- Hst.
  - by eapply rtc_l.
Qed.

Lemma allowed_from_LEAVING st : rtc (λ a b, allowed a b = true) LEAVING st → st = LEAVING.
Proof. inversion_clear 1 as [|? st' ? Ha]; [done|]. by destruct st'. Qed.
Lemma allowed_from_ACTIVE st : rtc (λ a b, allowed a b = true) ACTIVE st → st = ACTIVE ∨ st = LEAVING.
Proof.
  inversion_clear 1 as [|? st' ? Ha Hr]; [by left|]. destruct st'; try done. apply allowed_from_LEAVING in Hr. by right.
Qed.

(** C26. Whatever events the loop handles, the state of the instance only follows
    the transitions [changeState] allows: once [ACTIVE] it is [ACTIVE] or
    [LEAVING], once [LEAVING] it stays so, and its identity never changes.  A
    clean shutdown then moves an [ACTIVE] instance to [LEAVING] and flushes
    unless it must not or the transfer has succeeded; an instance that is not
    [ACTIVE] yet keeps its state. *)
Theorem lifecycle_transitions (l l' : loop_state) (tr : transfer) (s1 s2 : script) (n : Z) (beats : list (script * Z))
    (err : option (lifecycler_error KVErr)) (flushed : bool) (i : Lifecycler) :
  rtc loop_run l l' → stopping None tr s1 n beats s2 (lc l') = Some ((err, flushed), i) →
  rtc (λ a b, allowed a b = true) (state (lc l)) (state (lc l')) ∧
  (state (lc l) = LEAVING → state (lc l') = LEAVING) ∧
  (state (lc l) = ACTIVE → state (lc l') = ACTIVE ∨ state (lc l') = LEAVING) ∧
  identity i = identity (lc l) ∧
  state i = (if bool_decide (state (lc l') = ACTIVE) then LEAVING else state (lc l')) ∧
  flushed = flushOnShutdown (lc l) && (match tr with TransferOk => false | _ => true end).
Proof.
  intros Hrun Hst. destruct (loop_run_moves l l' Hrun) as [[Hid _] Hmoves]. split; [done|].
  split; [intros He; rewrite He in Hmoves; by apply allowed_from_LEAVING|].
  split; [intros He; rewrite He in Hmoves; by apply allowed_from_ACTIVE|].
  unfold stopping in Hst. destruct (changeState _ _ _ _) as [[e1 i1]|] eqn:Hc; [|done]. cbn [mbind option_bind] in Hst.
  destruct (heartbeatLoop _ _) as [i2|] eqn:Hb; [|done]. cbn [mbind option_bind] in Hst.
  apply changeState_moves in Hc as [[Hid1 _] Hst1]. apply heartbeatLoop_state in Hb as [[Hid2 _] Hst2].
  assert (i = i2 ∧ flushed = processShutdown tr i1) as [-> ->].
  { destruct (unregisterOnShutdown i2); [destruct (unregister _ _) as [u|]; [|done]|]; by injection Hst as _ <- <-. }
  split; [congruence|]. split.
  - rewrite Hst2, Hst1. by destruct (state (lc l')).
  - assert (flushOnShutdown i1 = flushOnShutdown (lc l)) as Hfl.
    { rewrite Hid in Hid1. unfold identity in Hid1. by injection Hid1. }
    rewrite <- Hfl. unfold processShutdown. destruct tr; [by rewrite andb_false_r|by rewrite andb_true_r..].
Qed.

(** ** Readiness *)
(** a call of [CheckReady]: what the store returns and the clock *)
Record ready_call := mkCall { call_got : result KVErr (option Desc); call_now1 : Z; call_now2 : Z; call_now3 : Z }.
Definition do_call (i : Lifecycler) (c : ready_call) : Lifecycler :=
  (CheckReady (call_got c) (call_now1 c) (call_now2 c) (call_now3 c) i).2.
Definition is_ready (i : Lifecycler) (c : ready_call) : bool :=
  bool_decide ((CheckReady (call_got c) (call_now1 c) (call_now2 c) (call_now3 c) i).1 = None).
Definition passes (i : Lifecycler) (c : ready_call) : Prop :=
  checkRingHealthForReadiness (call_got c) (call_now1 c) i = None.

(** what the calls [cs] have done to [i] *)
Record ready_inv (i : Lifecycler) (cs : list ready_call) (i' : Lifecycler) : Prop := {
  ri_cfg : lc_cfg i' = lc_cfg i ∧ tokens i' = tokens i ∧ ID i' = ID i;
  ri_ready : ready i' = true → ∃ before first good last after,
    cs = before ++ (first :: good) ++ after ∧ list.last (first :: good) = Some last ∧
    Forall (passes i) (first :: good) ∧ MinReadyDuration (lc_cfg i) ≤ time_Sub (call_now3 last) (call_now2 first);
  ri_since : ready i' = false → readySince i' ≠ zeroTime → ∃ before first good,
    cs = before ++ first :: good ∧ Forall (passes i) (first :: good) ∧ readySince i' = call_now2 first
}.

Lemma passes_eq i i' c : lc_cfg i' = lc_cfg i ∧ tokens i' = tokens i ∧ ID i' = ID i → passes i' c ↔ passes i c.
Proof. intros (H1 & H2 & H3). unfold passes, checkRingHealthForReadiness. by rewrite H1, H2, H3. Qed.

Lemma do_call_inv i cs i' c : ready_inv i cs i' → ready_inv i (cs ++ [c]) (do_call i' c).
Proof.
  intros [Hcfg Hr Hs]. pose proof (passes_eq i i' c Hcfg) as Hp. unfold do_call, CheckReady. destruct (ready i') eqn:Hready.
  - simpl. constructor; [done| |congruence]. intros _. destruct (Hr eq_refl) as (b & f & g & la & a & -> & ?).
    exists b, f, g, la, (a ++ [c]). by rewrite <- !app_assoc.
  - unfold passes in Hp at 1. destruct (checkRingHealthForReadiness _ _ _) as [err|]; [by constructor|].
    assert (passes i c) as Hpc by by apply Hp. clear Hp.
    set (i1 := if time_IsZero (readySince i') then _ else i').
    assert (∃ before first good, cs ++ [c] = before ++ first :: good ∧ Forall (passes i) (first :: good) ∧
      list.last (first :: good) = Some c ∧ readySince i1 = call_now2 first) as (b & f & g & Hcs & Hall & Hla & Hsince).
    { unfold i1, time_IsZero. case_bool_decide as Hz; [exists cs, c, []; by repeat constructor|].
      destruct (Hs eq_refl Hz) as (b & f & g & -> & Hall & Heq). exists b, f, (g ++ [c]).
      rewrite <- app_assoc. repeat split; [|by rewrite app_comm_cons, last_snoc|done].
      rewrite app_comm_cons. apply Forall_app. split; [done|by constructor]. }
    assert (lc_cfg i1 = lc_cfg i ∧ tokens i1 = tokens i ∧ ID i1 = ID i) as Hcfg1 by (unfold i1; by destruct (time_IsZero _)).
    assert (ready i1 = false) as Hr1 by (unfold i1; by destruct (time_IsZero _)).
    case_bool_decide as Hlt; simpl.
    + constructor; [done|by rewrite Hr1|]. intros _ _. by exists b, f, g.
    + constructor; [done| |done]. intros _. exists b, f, g, c, []. rewrite app_nil_r. repeat split; try done.
      destruct Hcfg1 as (<- & _ & _). rewrite <- Hsince. lia.
Qed.

Lemma is_ready_latch j c : is_ready j c = true → ready (do_call j c) = true.
Proof.
  unfold is_ready, do_call, CheckReady. intros His. destruct (ready j) eqn:Hr; [exact Hr|].
  destruct (checkRingHealthForReadiness _ _ _); [by apply bool_decide_eq_true in His|].
  destruct (bool_decide (time_Sub _ _ < _)); [by apply bool_decide_eq_true in His|done].
Qed.

(** [CheckReady] latches and honours [MinReadyDuration]: from a lifecycler
    that has not been found ready yet, it returns [nil] only if some
    consecutive calls all passed the checks of the ring, the last one at least
    [MinReadyDuration] after the first; and once it has returned [nil] it does
    so for ever. *)
Theorem CheckReady_latches (i : Lifecycler) (cs : list ready_call) (c : ready_call) :
  ready i = false → readySince i = zeroTime →
  is_ready (foldl do_call i cs) c = true →
  (∃ before first good last after, cs ++ [c] = before ++ (first :: good) ++ after ∧
     list.last (first :: good) = Some last ∧ Forall (passes i) (first :: good) ∧
     MinReadyDuration (lc_cfg i) ≤ time_Sub (call_now3 last) (call_now2 first)) ∧
  (∀ cs' c', is_ready (foldl do_call i (cs ++ c :: cs')) c' = true).
Proof.
  intros Hready Hsince His.
  assert (∀ cs, ready_inv i cs (foldl do_call i cs)) as Hinv.
  { clear cs His. intros cs. induction cs as [|c0 cs IH] using rev_ind.
    - constructor; [done|simpl; congruence|simpl; congruence].
    - rewrite foldl_app. simpl. by apply do_call_inv. }
  assert (ready (foldl do_call i (cs ++ [c])) = true) as Hlatched.
  { rewrite foldl_app. by apply is_ready_latch. }
  split; [by apply (ri_ready _ _ _ (Hinv (cs ++ [c])))|]. intros cs' c'.
  rewrite cons_middle, app_assoc, foldl_app.
  assert (ready (foldl do_call (foldl do_call i (cs ++ [c])) cs') = true) as Hr.
  { generalize dependent (foldl do_call i (cs ++ [c])). induction cs' as [|c0 cs' IH]; intros j Hj; [done|].
    simpl. apply IH. unfold do_call, CheckReady. by rewrite Hj. }
  unfold is_ready, CheckReady. by rewrite Hr.
Qed.

(** ** Two corners *)
(** An instance found [JOINING] in the ring is meant to go back to [PENDING]; the
    ring that is stored is the one that was read. *)
Lemma initRing_joining_unchanged file d e i v inst :
  Ingesters d !! ID i = Some inst → State inst = JOINING →
  ∃ j, initRing_f (KVErr:=KVErr) file (Some d) e (i, v) = Some (mkCasOut (Some d) true None, (j, Some d)) ∧ state j = state i.
Proof. intros Hd Hs. unfold initRing_f. simpl. rewrite Hd, bool_decide_eq_true_2 by done. by eexists. Qed.

(** A claim that fails is only logged: the instance forgets its own tokens. *)
Lemma ClaimTokensFor_forgets id e b f i :
  ClaimTokensFor (KVErr:=KVErr) id [Attempt (mkAttempt None e b)] f i = Some (setTokens [] f i).
Proof. done. Qed.
End facts.

(** ** Witnesses *)
Section witnesses.
#[local] Existing Instance map_range_std.
#[local] Existing Instance ex_json.
Abbreviation exscript := (list (cas_event Desc env unit)).

Definition ex_lcfg : LifecyclerConfig := mkLifecyclerConfig 4 (5 * Second) 0 (15 * Second) "" true (60 * Second).
Definition ex_lc (st : InstanceState) (ts : list Z) : Lifecycler :=
  mkLifecycler ex_lcfg "n" "addr-n" "z1" true true st ts (100 * Second) false zeroTime 0 0 ∅.
Definition ex_env : env := mkEnv (110 * Second) [20; 5; 15; 5; 70; 25; 35] NoFault.
(** the first attempt loses the race, the second one reads another ring *)
Definition ex_script (d : Desc) : exscript :=
  [Attempt (mkAttempt None ex_env false); Attempt (mkAttempt (Some d) ex_env true)].
Definition ex_lost : Desc := mkDesc (<["n" := ex_inst "addr-n" "z1" 100 JOINING [5; 90]]> (Ingesters ex_desc)).

Definition ex_joined : Lifecycler :=
  match autoJoin ACTIVE (ex_script ex_desc) (111 * Second) (ex_lc PENDING []) with
  | Some (_, i) => i | None => ex_lc LEFT [] end.
Lemma ex_joined_run :
  autoJoin ACTIVE (ex_script ex_desc) (111 * Second) (ex_lc PENDING []) = Some (None, ex_joined) ∧
  tokens ex_joined = [5; 15; 25; 35].
Proof. split; vm_compute; reflexivity. Qed.
Lemma autoJoin_correct_witness :
  ∃ a d', Attempt a ∈ ex_script ex_desc ∧ att_stored a = true ∧
    written (CAS (autoJoin_f ACTIVE) (ex_script ex_desc) (ex_lc PENDING [], None)) d' ∧ state ex_joined = ACTIVE ∧
    joined (ex_lc PENDING []) ACTIVE 4 (default NewDesc (att_in a)) d' (att_env a) (tokens ex_joined).
Proof. exact (autoJoin_correct ACTIVE (ex_script ex_desc) (111 * Second) (ex_lc PENDING []) ex_joined (proj1 ex_joined_run)). Defined.

Definition ex_verified : Lifecycler :=
  match verifyTokens (ex_script ex_lost) (ex_lc JOINING [5; 10; 40; 90]) with
  | Some (_, i) => i | None => ex_lc LEFT [] end.
Lemma ex_verified_run :
  verifyTokens (ex_script ex_lost) (ex_lc JOINING [5; 10; 40; 90]) = Some (false, ex_verified) ∧
  tokens ex_verified = [5; 15; 25; 90].
Proof. split; vm_compute; reflexivity. Qed.
Lemma verifyTokens_correct_witness : state ex_verified = JOINING.
Proof. exact (proj1 (verifyTokens_correct (ex_script ex_lost) (ex_lc JOINING [5; 10; 40; 90]) ex_verified false (proj1 ex_verified_run))). Defined.

Definition ex_beaten : Lifecycler :=
  match updateConsul (ex_script ex_lost) (111 * Second) (ex_lc ACTIVE [5; 90]) with
  | Some (_, i) => i | None => ex_lc LEFT [] end.
Lemma ex_beaten_run : updateConsul (ex_script ex_lost) (111 * Second) (ex_lc ACTIVE [5; 90]) = Some (None, ex_beaten).
Proof. vm_compute. reflexivity. Qed.
Lemma updateConsul_correct_witness :
  ∃ a, Attempt a ∈ ex_script ex_lost ∧ att_stored a = true ∧
    written (CAS updateConsul_f (ex_script ex_lost) (ex_lc ACTIVE [5; 90], None))
      (heartbeat (ex_lc ACTIVE [5; 90]) (att_env a) (default NewDesc (att_in a))) ∧
    ex_beaten = updateCounters (Some (heartbeat (ex_lc ACTIVE [5; 90]) (att_env a) (default NewDesc (att_in a)))) (111 * Second) (ex_lc ACTIVE [5; 90]).
Proof. exact (updateConsul_correct (ex_script ex_lost) (111 * Second) (ex_lc ACTIVE [5; 90]) ex_beaten ex_beaten_run). Defined.

(** joining, then a clean shutdown whose transfer fails *)
Definition ex_loop : loop_state := mkLoop (ex_lc PENDING []) true false.
Definition ex_loop' : loop_state := mkLoop ex_joined false false.
Lemma ex_loop_run : rtc (loop_run (KVErr:=unit)) ex_loop ex_loop'.
Proof. apply rtc_once. exists (JoinAfterExpired (ex_script ex_desc) (111 * Second)). vm_compute. reflexivity. Qed.
Definition ex_stop :=
  stopping None TransferFailed (ex_script ex_lost) (112 * Second) [(ex_script ex_lost, 113 * Second)] (ex_script ex_lost) ex_joined.
Definition ex_stopped : Lifecycler := match ex_stop with Some (_, i) => i | None => ex_lc LEFT [] end.
Lemma ex_stop_run : ex_stop = Some ((Some ErrEmptyRingToUnregister, true), ex_stopped).
Proof. vm_compute. reflexivity. Qed.
Lemma lifecycle_transitions_witness : state (lc ex_loop') = ACTIVE ∧ state ex_stopped = LEAVING.
Proof.
  split; [reflexivity|].
  exact (proj1 (proj2 (proj2 (proj2 (proj2 (lifecycle_transitions ex_loop ex_loop' TransferFailed (ex_script ex_lost) (ex_script ex_lost)
    (112 * Second) [(ex_script ex_lost, 113 * Second)] (Some ErrEmptyRingToUnregister) true ex_stopped ex_loop_run ex_stop_run)))))).
Defined.

(** not ready while an instance is leaving; ready once all have been active for
    the minimum duration *)
Definition ex_call (d : Desc) (t : Z) : ready_call (KVErr:=unit) := mkCall (Ok (Some d)) (t * Second) (t * Second) (t * Second).
Definition ex_active : Desc := mkDesc {["n" := ex_inst "addr-n" "z1" 100 ACTIVE [5; 90]]}.
Lemma CheckReady_latches_witness :
  is_ready (foldl do_call (ex_lc ACTIVE [5; 90]) [ex_call ex_active 105; ex_call ex_lost 110; ex_call ex_active 120])
    (ex_call ex_active 135) = true ∧
  ∀ (cs' : list (ready_call (KVErr:=unit))) (c' : ready_call (KVErr:=unit)), is_ready (foldl do_call (ex_lc ACTIVE [5; 90])
    ([ex_call ex_active 105; ex_call ex_lost 110; ex_call ex_active 120] ++ ex_call ex_active 135 :: cs')) c' = true.
Proof.
  assert (is_ready (foldl do_call (ex_lc ACTIVE [5; 90]) [ex_call ex_active 105; ex_call ex_lost 110; ex_call ex_active 120])
    (ex_call ex_active 135) = true) as Hr by (vm_compute; reflexivity).
  exact (conj Hr (proj2 (CheckReady_latches (ex_lc ACTIVE [5; 90]) [ex_call ex_active 105; ex_call ex_lost 110; ex_call ex_active 120]
    (ex_call ex_active 135) eq_refl eq_refl Hr))).
Defined.
End witnesses.
