(* ===== verification/Services.v ===== *)
(** * Services: [services/basic_service.go], [services/service.go]

    A [BasicService] as a transition system: the goroutine running [main], the
    callers of [StartAsync], [StopAsync] and [AddListener], the listeners.
    What is done under [stateMu] is one step.  The three functions of the
    service return when and what they want; a [nil] function is one that
    returns [nil].  A step that would panic or block while holding the lock is
    [None]. *)
From Stdlib Require Import ZArith Lia.
From stdpp Require Import base gmap strings list relations.
From S2P Require Import Prelude.

(** [State] *)
Inductive State := New | Starting | Running | Stopping | Terminated | Failed.
#[export] Instance State_eq_dec : EqDecision State.
Proof. solve_decision. Defined.
#[export] Instance State_countable : Countable State.
Proof.
  refine (inj_countable' (λ s, match s with New => 0 | Starting => 1 | Running => 2 | Stopping => 3 | Terminated => 4 | Failed => 5 end%nat)
    (λ n, match n with 0 => New | 1 => Starting | 2 => Running | 3 => Stopping | 4 => Terminated | _ => Failed end%nat) _).
  by intros [].
Defined.

(** the state diagram of [service.go] *)
Definition diagram (from to : State) : bool :=
  match from, to with
  | New, (Starting | Terminated) | Starting, (Running | Stopping | Failed)
  | Running, Stopping | Stopping, (Terminated | Failed) => true
  | _, _ => false
  end.
Definition terminal (s : State) : bool :=
  match s with Terminated | Failed => true | _ => false end.

Section service.
Context {E : Type}.

(** the methods of [Listener] *)
Inductive event :=
| OnStarting
| OnRunning
| OnStopping (from : State)
| OnTerminated (from : State)
| OnFailed (from : State) (failure : E).
Definition event_from (e : event) : State :=
  match e with OnStarting => New | OnRunning => Starting | OnStopping f | OnTerminated f | OnFailed f _ => f end.
Definition event_to (e : event) : State :=
  match e with OnStarting => Starting | OnRunning => Running | OnStopping _ => Stopping
  | OnTerminated _ => Terminated | OnFailed _ _ => Failed end.

(** The channel of a listener: what has been sent, how much of it the
    listener's goroutine has received; [since] is the state of the service when
    the listener was added. *)
Record listener := mkListener { since : State; sent : list event; received : nat; closed : bool }.
Definition listener_cap : nat := 4.

Definition send (e : event) (closeChan : bool) (l : listener) : option listener :=
  if closed l then None   (* send on a closed channel *)
  else if bool_decide (length (sent l) - received l < listener_cap)%nat
  then Some (mkListener (since l) (sent l ++ [e]) (received l) closeChan)
  else None.              (* full *)
Definition notifyListeners (e : event) (closeChan : bool) (ls : list listener) : option (list listener) :=
  mapM (send e closeChan) ls.

(** where [main] is: in one of the three functions, or before its next step *)
Inductive main_pc :=
| NotStarted
| InStartFn
| ToFailed (err : E)
| CheckContext
| ToRunning
| InRunningFn
| ToStopping (from : State) (failure : option E)
| CancelContext (failure : option E)
| InStoppingFn (failure : option E)
| Finish (failure : option E)
| MainDone.

(** what the three functions have returned *)
Inductive call := StartCall (err : option E) | RunCall (err : option E) | StopCall (failureCase err : option E).

(** a call of [StopAsync] after its first test, and after its failed switch *)
Inductive stop_pc := ToTerminated | ToCancel.

Record service := mkService {
  svc_state : State;
  failureCase : option E;
  runningWaiters : nat;       (* how often [runningWaitersCh] has been closed *)
  terminatedWaiters : nat;
  listeners : list listener;
  serviceContext : option bool;   (* [nil], or whether it is done *)
  main : main_pc;
  stoppers : list stop_pc;
  calls : list call
}.

Definition NewBasicService : service := mkService New None 0 0 [] None NotStarted [] [].

Definition set_main (pc : main_pc) (s : service) : service :=
  mkService (svc_state s) (failureCase s) (runningWaiters s) (terminatedWaiters s) (listeners s) (serviceContext s) pc (stoppers s) (calls s).
Definition set_context (c : option bool) (s : service) : service :=
  mkService (svc_state s) (failureCase s) (runningWaiters s) (terminatedWaiters s) (listeners s) c (main s) (stoppers s) (calls s).
Definition set_stoppers (l : list stop_pc) (s : service) : service :=
  mkService (svc_state s) (failureCase s) (runningWaiters s) (terminatedWaiters s) (listeners s) (serviceContext s) (main s) l (calls s).
Definition set_listeners (l : list listener) (s : service) : service :=
  mkService (svc_state s) (failureCase s) (runningWaiters s) (terminatedWaiters s) l (serviceContext s) (main s) (stoppers s) (calls s).
Definition add_call (c : call) (s : service) : service :=
  mkService (svc_state s) (failureCase s) (runningWaiters s) (terminatedWaiters s) (listeners s) (serviceContext s) (main s) (stoppers s) (calls s ++ [c]).

(** [switchState] with the effects of its [stateFn]: the failure case, the
    waiters it wakes up, and the notification.  [inl] is the state found. *)
Definition switchState (from to : State) (failure : option E) (closeRunning closeTerminated : bool)
    (e : event) (closeChan : bool) (s : service) : State + option service :=
  if bool_decide (svc_state s ≠ from) then inl (svc_state s)
  else
    inr (if (closeRunning && negb (bool_decide (runningWaiters s = 0%nat)))
            || (closeTerminated && negb (bool_decide (terminatedWaiters s = 0%nat)))
         then None   (* close of a closed channel *)
         else
           ls ← notifyListeners e closeChan (listeners s);
           Some (mkService to (match failure with Some _ => failure | None => failureCase s end)
                   (runningWaiters s + if closeRunning then 1 else 0)%nat
                   (terminatedWaiters s + if closeTerminated then 1 else 0)%nat
                   ls (serviceContext s) (main s) (stoppers s) (calls s))).
(** [mustSwitchState] panics when the switch fails *)
Definition mustSwitchState (from to : State) failure closeRunning closeTerminated e closeChan (s : service) : option service :=
  match switchState from to failure closeRunning closeTerminated e closeChan s with
  | inl _ => None
  | inr s => s
  end.

(** [StartAsync]: [inl] is the error; the context may be done already *)
Definition StartAsync (s : service) : State + option service :=
  match switchState New Starting None false false OnStarting false s with
  | inl st => inl st
  | inr None => inr None
  | inr (Some s) => inr (Some (set_main InStartFn (set_context (Some false) s)))
  end.

(** [serviceCancel()]: calling a [nil] function panics *)
Definition cancel (s : service) : option service :=
  match serviceContext s with
  | None => None
  | Some _ => Some (set_context (Some true) s)
  end.

(** a step of [main]; [ret] is what the function returns, in a step that ends
    a call *)
Definition main_step (ret : option E) (s : service) : option service :=
  match main s with
  | NotStarted | MainDone => None
  | InStartFn =>
      Some (set_main (match ret with Some e => ToFailed e | None => CheckContext end) (add_call (StartCall ret) s))
  | ToFailed e =>
      (* the context is cancelled under the same lock *)
      s ← cancel s;
      s ← mustSwitchState Starting Failed (Some e) true true (OnFailed Starting e) true s;
      Some (set_main MainDone s)
  | CheckContext =>
      Some (set_main (if default false (serviceContext s) then ToStopping Starting None else ToRunning) s)
  | ToRunning =>
      s ← mustSwitchState Starting Running None true false OnRunning false s;
      Some (set_main InRunningFn s)
  | InRunningFn => Some (set_main (ToStopping Running ret) (add_call (RunCall ret) s))
  | ToStopping from failure =>
      s ← mustSwitchState from Stopping None (bool_decide (from = Starting)) false (OnStopping from) false s;
      Some (set_main (CancelContext failure) s)
  | CancelContext failure => s ← cancel s; Some (set_main (InStoppingFn failure) s)
  | InStoppingFn failure =>
      Some (set_main (Finish (match failure with Some _ => failure | None => ret end)) (add_call (StopCall failure ret) s))
  | Finish (Some failure) =>
      s ← mustSwitchState Stopping Failed (Some failure) false true (OnFailed Stopping failure) true s;
      Some (set_main MainDone s)
  | Finish None =>
      s ← mustSwitchState Stopping Terminated None false true (OnTerminated Stopping) true s;
      Some (set_main MainDone s)
  end.

(** [StopAsync], in its three steps *)
Definition stop_check (s : service) : service :=
  match svc_state s with
  | Stopping | Terminated | Failed => s
  | _ => set_stoppers (stoppers s ++ [ToTerminated]) s
  end.
Definition stop_step (n : nat) (s : service) : option service :=
  match stoppers s !! n with
  | None => Some s
  | Some ToTerminated =>
      match switchState New Terminated None true true (OnTerminated New) true s with
      | inl _ => Some (set_stoppers (<[n := ToCancel]> (stoppers s)) s)
      | inr r => s ← r; Some (set_stoppers (delete n (stoppers s)) s)
      end
  | Some ToCancel => s ← cancel s; Some (set_stoppers (delete n (stoppers s)) s)
  end.

Definition AddListener (s : service) : service :=
  if terminal (svc_state s) then s
  else set_listeners (listeners s ++ [mkListener (svc_state s) [] 0 false]) s.

Definition receive (n : nat) (s : service) : service :=
  match listeners s !! n with
  | Some l =>
      if bool_decide (received l < length (sent l))%nat
      then set_listeners (<[n := mkListener (since l) (sent l) (S (received l)) (closed l)]> (listeners s)) s
      else s
  | None => s
  end.

(** [ServiceContext] and [awaitState] on a closed channel *)
Definition ServiceContext (s : service) : option bool :=
  if bool_decide (svc_state s = New) then None else serviceContext s.
(** [None]: still waiting; [Some None]: no error; the failure is included *)
Definition awaitState (expectedState : State) (chClosed : bool) (s : service) : option (option (State * option E)) :=
  if negb chClosed then None
  else if bool_decide (svc_state s = expectedState) then Some None
  else Some (Some (svc_state s, failureCase s)).
Definition AwaitRunning (s : service) := awaitState Running (bool_decide (runningWaiters s ≠ 0%nat)) s.
Definition AwaitTerminated (s : service) := awaitState Terminated (bool_decide (terminatedWaiters s ≠ 0%nat)) s.

(** ** [services/services.go] *)
Inductive await_error :=
| InvalidState (state expected : State) (failure : option E)
| FailureCase (e : E)
| ContextErr.
(** [AwaitRunning] or [AwaitTerminated] seen at the end of the wait: the context
    may be done too *)
Definition await_result (r : option (option (State * option E))) (expected : State) (ctxDone : bool) : option (option await_error) :=
  if ctxDone then Some (Some ContextErr)
  else match r with
       | None => None
       | Some None => Some None
       | Some (Some (st, f)) => Some (Some (InvalidState st expected f))
       end.
(** after a [StartAsync] that has not failed; [s] is the service when
    [AwaitRunning] returns *)
Definition StartAndAwaitRunning (ctxDone : bool) (s : service) : option (option await_error) :=
  match await_result (AwaitRunning s) Running ctxDone with
  | None => None
  | Some err => match failureCase s with Some e => Some (Some (FailureCase e)) | None => Some err end
  end.
Definition StopAndAwaitTerminated (ctxDone : bool) (s : service) : option (option await_error) :=
  match await_result (AwaitTerminated s) Terminated ctxDone with
  | None => None
  | Some None => Some None
  | Some (Some err) => match failureCase s with Some e => Some (Some (FailureCase e)) | None => Some (Some err) end
  end.

(** the running function of [NewTimerService]: [inl] is a tick and what the
    iteration returns, [inr] the end of the context; [None]: still running *)
Fixpoint timer_run (events : list (option E + unit)) : option (option E) :=
  match events with
  | [] => None
  | inl (Some err) :: _ => Some (Some err)
  | inl None :: events => timer_run events
  | inr _ :: _ => Some None
  end.
(** the running function of [NewIdleService] *)
Definition idle_run (ctxDone : bool) : option (option E) := if ctxDone then Some None else None.

Inductive service_step : service → service → Prop :=
| step_StartAsync s s' : StartAsync s = inr (Some s') → service_step s s'
| step_main s s' ret : main_step ret s = Some s' → service_step s s'
| step_StopAsync s : service_step s (stop_check s)
| step_stopping s s' n : stop_step n s = Some s' → service_step s s'
| step_AddListener s : service_step s (AddListener s)
| step_receive s n : service_step s (receive n s)
(** the parent context is done *)
| step_parent s c : serviceContext s = Some c → service_step s (set_context (Some true) s).

Definition service_reachable (s : service) : Prop := rtc service_step NewBasicService s.
End service.
Arguments event : clear implicits.
Arguments listener : clear implicits.
Arguments main_pc : clear implicits.
Arguments call : clear implicits.
Arguments service : clear implicits.
