(* ===== verification/ServicesFacts.v ===== *)
(** * A [BasicService] follows its contract

    The invariant of the transition system of [Services.v], and what it gives
    to the users of a service. *)
From Stdlib Require Import ZArith Lia.
From stdpp Require Import base gmap strings list relations.
From S2P Require Import Prelude Services.

Section facts.
Context {E : Type}.
Implicit Types (s : service E) (l : listener E) (e : event E).

(** ** Paths of the state diagram *)
Fixpoint path (from : State) (es : list (event E)) (to : State) : Prop :=
  match es with
  | [] => from = to
  | e :: es => event_from e = from ∧ diagram from (event_to e) = true ∧ path (event_to e) es to
  end.
Definition rank (st : State) : nat :=
  match st with New => 0 | Starting => 1 | Running => 2 | Stopping => 3 | Terminated | Failed => 4 end.

Lemma path_snoc from es st e :
  path from es st → event_from e = st → diagram st (event_to e) = true → path from (es ++ [e]) (event_to e).
Proof.
  revert from. induction es as [|e0 es IH]; intros from; simpl; [intros ->; auto|].
  intros (H1 & H2 & H3) He Hd. auto.
Qed.
Lemma path_length from es to : path from es to → (length es + rank from ≤ rank to)%nat.
Proof.
  revert from. induction es as [|e es IH]; intros from; simpl; [intros ->; lia|].
  intros (_ & Hd & Hp). apply IH in Hp. destruct from, (event_to e); simpl in *; try done; lia.
Qed.
Lemma rank_max st : (rank st ≤ 4)%nat.
Proof. destruct st; simpl; lia. Qed.

(** ** Waiters and listeners *)
Definition early (st : State) : bool := match st with New | Starting => true | _ => false end.
Definition listener_ok (st : State) l : Prop :=
  path (since l) (sent l) st ∧ (received l ≤ length (sent l))%nat ∧ closed l = terminal st.

Record base_inv s : Prop := {
  bi_running : runningWaiters s = (if early (svc_state s) then 0 else 1)%nat;
  bi_terminated : terminatedWaiters s = (if terminal (svc_state s) then 1 else 0)%nat;
  bi_listeners : Forall (listener_ok (svc_state s)) (listeners s)
}.

Lemma notify_ok st e ls :
  Forall (listener_ok st) ls → event_from e = st → diagram st (event_to e) = true →
  ∃ ls', notifyListeners e (terminal (event_to e)) ls = Some ls' ∧ Forall (listener_ok (event_to e)) ls'.
Proof.
  intros Hls He Hd. induction Hls as [|l ls (Hp & Hr & Hc) Hls (ls' & Hn & Hall)]; [by exists []|].
  assert (terminal st = false) as Ht by (by destruct st).
  pose proof (path_snoc (since l) (sent l) st e Hp He Hd) as Hp'.
  pose proof (path_length _ _ _ Hp') as Hlen. rewrite length_app in Hlen. pose proof (rank_max (event_to e)). simpl in Hlen.
  exists (mkListener (since l) (sent l ++ [e]) (received l) (terminal (event_to e)) :: ls'). split.
  - unfold notifyListeners in *. simpl. rewrite Hn. unfold send at 1. rewrite Hc, Ht.
    rewrite bool_decide_eq_true_2 by (unfold listener_cap; lia). done.
  - constructor; [|done]. split; [done|]. split; [|done]. simpl. rewrite length_app. lia.
Qed.

Definition switched s to (failure : option E) ls : service E :=
  mkService to (match failure with Some _ => failure | None => failureCase s end)
    (if early to then 0 else 1)%nat (if terminal to then 1 else 0)%nat ls
    (serviceContext s) (main s) (stoppers s) (calls s).

Lemma switchState_ok to failure e s :
  base_inv s → diagram (svc_state s) to = true → event_from e = svc_state s → event_to e = to →
  ∃ ls, switchState (svc_state s) to failure (early (svc_state s) && negb (early to)) (terminal to) e (terminal to) s
        = inr (Some (switched s to failure ls)) ∧ base_inv (switched s to failure ls).
Proof.
  intros [Hr Ht Hl] Hd He <-. destruct (notify_ok _ e _ Hl He Hd) as (ls & Hn & Hls). exists ls.
  split; [|by constructor]. unfold switchState. rewrite bool_decide_eq_false_2 by (by intros []).
  rewrite Hr, Ht, Hn. unfold switched. destruct (svc_state s), (event_to e); done.
Qed.
Lemma switchState_fails from to failure cr ct e cc s :
  svc_state s ≠ from → switchState from to failure cr ct e cc s = inl (svc_state s).
Proof. intros Hne. unfold switchState. by rewrite bool_decide_eq_true_2. Qed.

(** ** The functions of the service *)
(** the error that makes the service fail *)
Definition first_error (cs : list (call E)) : option E :=
  foldr (λ c r, match c with StartCall (Some err) | RunCall (Some err) | StopCall _ (Some err) => Some err | _ => r end) None cs.

(** what has been called, in order, where [main] stands *)
Definition calls_at (pc : main_pc E) (cs : list (call E)) : Prop :=
  match pc with
  | NotStarted | InStartFn => cs = []
  | ToFailed err => cs = [StartCall (Some err)]
  | CheckContext | ToRunning | InRunningFn => cs = [StartCall None]
  | ToStopping from f => (from = Starting ∧ f = None ∧ cs = [StartCall None]) ∨ (from = Running ∧ cs = [StartCall None; RunCall f])
  | CancelContext f | InStoppingFn f => (f = None ∧ cs = [StartCall None]) ∨ cs = [StartCall None; RunCall f]
  | Finish f => (∃ r, f = r ∧ cs = [StartCall None; StopCall None r]) ∨
      ∃ g r, f = (match g with Some _ => g | None => r end) ∧ cs = [StartCall None; RunCall g; StopCall g r]
  | MainDone => (∃ err, cs = [StartCall (Some err)]) ∨ (∃ r, cs = [StartCall None; StopCall None r]) ∨
      ∃ g r, cs = [StartCall None; RunCall g; StopCall g r]
  end.
Definition state_at (pc : main_pc E) (st : State) : Prop :=
  match pc with
  | NotStarted => st = New ∨ st = Terminated
  | InStartFn | ToFailed _ | CheckContext | ToRunning => st = Starting
  | InRunningFn => st = Running
  | ToStopping from _ => st = from ∧ (from = Starting ∨ from = Running)
  | CancelContext _ | InStoppingFn _ | Finish _ => st = Stopping
  | MainDone => st = Terminated ∨ st = Failed
  end.

(** from where the context is known to be done *)
Definition cancelled_at (pc : main_pc E) : Prop :=
  match pc with InStoppingFn _ | Finish _ | MainDone => True | _ => False end.

Record service_inv s : Prop := {
  si_base : base_inv s;
  si_state : state_at (main s) (svc_state s);
  si_calls : calls_at (main s) (calls s);
  si_context : match main s with NotStarted => serviceContext s = None | _ => is_Some (serviceContext s) end;
  si_done : cancelled_at (main s) → serviceContext s = Some true;
  si_failure : failureCase s = (if bool_decide (svc_state s = Failed) then first_error (calls s) else None);
  si_failed : svc_state s = Failed ↔ first_error (calls s) ≠ None ∧ main s = MainDone
}.

(** a service whose listeners, stoppers or (from [New]) context change *)
Lemma inv_frame s s' :
  service_inv s → svc_state s' = svc_state s → failureCase s' = failureCase s → runningWaiters s' = runningWaiters s →
  terminatedWaiters s' = terminatedWaiters s → Forall (listener_ok (svc_state s)) (listeners s') →
  (serviceContext s' = serviceContext s ∨ is_Some (serviceContext s) ∧ serviceContext s' = Some true) →
  main s' = main s → calls s' = calls s → service_inv s'.
Proof.
  intros [[Hr Ht Hl] Hst Hca Hctx Hdone Hf Hfd] H1 H2 H3 H4 H5 H6 H7 H8.
  constructor; rewrite ?H7, ?H8, ?H1, ?H2; try done.
  - constructor; by rewrite ?H1, ?H3, ?H4.
  - destruct H6 as [->|[Hs ->]]; [done|]. destruct (main s); try done. rewrite Hctx in Hs. by destruct Hs.
  - intros Hm. destruct H6 as [->|[_ ->]]; auto.
Qed.

Lemma stop_check_inv s : service_inv s → service_inv (stop_check s).
Proof.
  intros Hi. pose proof (bi_listeners _ (si_base _ Hi)) as Hl. unfold stop_check.
  assert (service_inv (set_stoppers (stoppers s ++ [ToTerminated]) s)) as Hs by (by apply (inv_frame s); auto).
  by destruct (svc_state s).
Qed.

Lemma cancel_inv s s' : service_inv s → cancel s = Some s' → service_inv s'.
Proof.
  intros Hi. unfold cancel. destruct (serviceContext s) as [c|] eqn:Hc; [|done]. intros [= <-].
  pose proof (bi_listeners _ (si_base _ Hi)). apply (inv_frame s); try done. right. simpl. by rewrite Hc.
Qed.

Lemma stop_step_inv n s s' : service_inv s → stop_step n s = Some s' → service_inv s'.
Proof.
  intros Hi. pose proof (bi_listeners _ (si_base _ Hi)) as Hl. unfold stop_step.
  destruct (stoppers s !! n) as [[|]|]; [| |by intros [= <-]].
  - destruct (decide (svc_state s = New)) as [Hn|Hn].
    + destruct (switchState_ok Terminated None (OnTerminated New) s) as (ls & Hsw & Hb); [apply Hi|by rewrite ?Hn..|].
      rewrite Hn in Hsw. simpl in Hsw. rewrite Hsw. intros [= <-].
      assert (main s = NotStarted) as Hm.
      { pose proof (si_state _ Hi) as Hs. rewrite Hn in Hs. destruct (main s); simpl in Hs; naive_solver. }
      pose proof (si_failure _ Hi) as Hf. pose proof (si_context _ Hi) as Hctx. pose proof (si_calls _ Hi) as Hca.
      rewrite Hn in Hf. simpl in Hf. rewrite Hm in Hctx, Hca.
      constructor; simpl; rewrite ?Hm; try done; [by destruct Hb; constructor|by right|by split; [|intros [_ [=]]]].
    + rewrite switchState_fails by done. intros [= <-]. by apply (inv_frame s); auto.
  - destruct (cancel s) as [s1|] eqn:Hc; [|done]. intros [= <-]. pose proof (cancel_inv _ _ Hi Hc) as Hi1.
    apply (inv_frame s1); auto. apply (bi_listeners _ (si_base _ Hi1)).
Qed.

Lemma AddListener_inv s : service_inv s → service_inv (AddListener s).
Proof.
  intros Hi. unfold AddListener. destruct (terminal (svc_state s)) eqn:Ht; [done|]. apply (inv_frame s); auto.
  simpl. apply Forall_app. split; [apply (bi_listeners _ (si_base _ Hi))|]. constructor; [|done]. by split.
Qed.
Lemma receive_inv n s : service_inv s → service_inv (receive n s).
Proof.
  intros Hi. pose proof (bi_listeners _ (si_base _ Hi)) as Hl. unfold receive.
  destruct (listeners s !! n) as [l|] eqn:Hn; [|done]. case_bool_decide; [|done]. apply (inv_frame s); auto.
  simpl. apply Forall_insert; [done|]. rewrite Forall_lookup in Hl. destruct (Hl n l Hn) as (?&?&?). split; [done|]. split; [simpl; lia|done].
Qed.

Lemma StartAsync_inv s s' : service_inv s → StartAsync s = inr (Some s') → service_inv s'.
Proof.
  intros Hi. unfold StartAsync. destruct (decide (svc_state s = New)) as [Hn|Hn]; [|by rewrite switchState_fails].
  destruct (switchState_ok Starting None OnStarting s) as (ls & Hsw & Hb); [apply Hi|by rewrite ?Hn..|].
  rewrite Hn in Hsw. simpl in Hsw. rewrite Hsw. intros [= <-].
  assert (main s = NotStarted) as Hm.
  { pose proof (si_state _ Hi) as Hs. rewrite Hn in Hs. destruct (main s); simpl in Hs; naive_solver. }
  pose proof (si_failure _ Hi) as Hf. pose proof (si_calls _ Hi) as Hca. rewrite Hn in Hf. simpl in Hf. rewrite Hm in Hca.
  constructor; simpl; try done; [by destruct Hb; constructor|by split; [|intros [_ [=]]]].
Qed.

(** [main] moves to its next step without a change of state *)
Lemma inv_main s pc s' :
  service_inv s → s' = set_main pc s ∨ (∃ c, s' = set_main pc (add_call c s)) →
  main s ≠ NotStarted → main s ≠ MainDone → pc ≠ MainDone → pc ≠ NotStarted →
  (cancelled_at pc → serviceContext s = Some true) →
  state_at pc (svc_state s) → calls_at pc (calls s') → service_inv s'.
Proof.
  intros [Hb Hst Hca Hctx Hdone Hf Hfd] Hs' Hn Hd Hpd Hpn Hcan Hst' Hca'.
  assert (svc_state s ≠ Failed) as Hnf by naive_solver.
  assert (failureCase s = None) as Hfn by (by rewrite Hf, bool_decide_eq_false_2).
  assert (is_Some (serviceContext s)) as Hctx' by (by destruct (main s)).
  destruct Hs' as [->|[c ->]]; (constructor; simpl; try done;
    try (by destruct Hb; constructor); try (by destruct pc); try (by rewrite Hfn, bool_decide_eq_false_2);
    by split; [|intros [_ ?]]).
Qed.

(** [main] switches the state *)
Lemma inv_switch s to failure e pc :
  service_inv s → main s ≠ NotStarted → main s ≠ MainDone →
  diagram (svc_state s) to = true → event_from e = svc_state s → event_to e = to →
  state_at pc to → calls_at pc (calls s) → pc ≠ NotStarted → (cancelled_at pc → serviceContext s = Some true) →
  (to = Failed ↔ first_error (calls s) ≠ None ∧ pc = MainDone) →
  failure = (if bool_decide (to = Failed) then first_error (calls s) else None) →
  ∃ s', switchState (svc_state s) to failure (early (svc_state s) && negb (early to)) (terminal to) e (terminal to) s = inr (Some s') ∧
    serviceContext s' = serviceContext s ∧ service_inv (set_main pc s').
Proof.
  intros [Hb Hst Hca Hctx Hdone Hf Hfd] Hn Hd Hdi He1 He2 Hst' Hca' Hpn Hpd Hto Hfail.
  destruct (switchState_ok to failure e s Hb Hdi He1 He2) as (ls & Hsw & Hb'). exists (switched s to failure ls).
  split; [done|]. split; [done|].
  assert (is_Some (serviceContext s)) as Hctx' by (by destruct (main s)).
  assert (failureCase s = None) as Hfn.
  { rewrite Hf, bool_decide_eq_false_2; [done|]. intros Hff. rewrite Hff in Hdi. by destruct to. }
  constructor; simpl; try done; try (by destruct Hb'; constructor); try (by destruct pc).
  rewrite Hfn. subst failure. case_bool_decide; [|done]. by destruct (first_error (calls s)).
Qed.

Lemma cancel_ok s : is_Some (serviceContext s) → cancel s = Some (set_context (Some true) s).
Proof. intros [c Hc]. unfold cancel. by rewrite Hc. Qed.

Lemma cancelled_inv s : service_inv s → is_Some (serviceContext s) → service_inv (set_context (Some true) s).
Proof. intros Hi Hc. apply (cancel_inv s); [done|by apply cancel_ok]. Qed.

Lemma main_step_ok s ret :
  service_inv s → main s ≠ NotStarted → main s ≠ MainDone → ∃ s', main_step ret s = Some s' ∧ service_inv s'.
Proof.
  intros Hi Hn Hd. pose proof (si_state _ Hi) as Hst. pose proof (si_calls _ Hi) as Hca.
  pose proof (si_done _ Hi) as Hcan.
  assert (is_Some (serviceContext s)) as Hctx by (pose proof (si_context _ Hi); by destruct (main s)).
  unfold main_step. destruct (main s) as [| |err| | | |from f|f|f|f|] eqn:Hm; try done; simpl in Hst, Hca, Hcan.
  - eexists. split; [done|]. eapply (inv_main s); eauto; rewrite ?Hm; try done; destruct ret; simpl; by rewrite ?Hca.
  - rewrite cancel_ok by done. cbn [mbind option_bind].
    edestruct (inv_switch (set_context (Some true) s) Failed (Some err) (OnFailed Starting err) MainDone) as (s1 & Hsw & Hc1 & Hi1);
      [by apply cancelled_inv|by simpl; rewrite ?Hm, ?Hst, ?Hca..|by right|by simpl; rewrite Hca; left; eexists|done|done| | |].
    { simpl. rewrite Hca. done. }
    { simpl. by rewrite Hca. }
    simpl in Hsw. rewrite Hst in Hsw. unfold mustSwitchState. simpl in Hsw. rewrite Hsw. eauto.
  - eexists. split; [done|]. eapply (inv_main s); eauto; rewrite ?Hm; try done; destruct (default false (serviceContext s)); simpl; auto.
  - destruct (inv_switch s Running None OnRunning InRunningFn) as (s1 & Hsw & Hc1 & Hi1); rewrite ?Hm, ?Hst, ?Hca; try done.
    { by split; [|intros [_ ?]]. }
    rewrite Hst in Hsw. unfold mustSwitchState. simpl in Hsw. rewrite Hsw. eauto.
  - eexists. split; [done|]. eapply (inv_main s); eauto; rewrite ?Hm; try done; simpl; rewrite ?Hca; auto.
  - destruct Hst as [Hst Hfrom].
    destruct (inv_switch s Stopping None (OnStopping from) (CancelContext f)) as (s1 & Hsw & Hc1 & Hi1); rewrite ?Hm, ?Hst; try done.
    { by destruct Hfrom as [-> | ->]. }
    { simpl. destruct Hca as [(_ & -> & ->)|(_ & ->)]; auto. }
    { by split; [|intros [_ ?]]. }
    rewrite Hst in Hsw. unfold mustSwitchState.
    replace (bool_decide (from = Starting)) with (early from && negb (early Stopping)) by (by destruct Hfrom as [-> | ->]).
    simpl in Hsw. simpl. rewrite Hsw. eauto.
  - rewrite cancel_ok by done. eexists. split; [done|].
    apply (inv_main (set_context (Some true) s) (InStoppingFn f)); [by apply cancelled_inv|by left|simpl; by rewrite Hm..|done|done|done|done|done].
  - eexists. split; [done|]. eapply (inv_main s); eauto; rewrite ?Hm; try done. simpl.
    destruct Hca as [(-> & ->)| ->]; [left|right]; eauto.
  - assert (first_error (calls s) = f) as Hfe.
    { destruct Hca as [(r & -> & ->)|(g & r & -> & ->)]; [by destruct r|by destruct g, r]. }
    assert (calls_at MainDone (calls s)) as Hca'.
    { simpl. destruct Hca as [(r & _ & ->)|(g & r & _ & ->)]; eauto. }
    destruct f as [f|].
    + destruct (inv_switch s Failed (Some f) (OnFailed Stopping f) MainDone) as (s1 & Hsw & Hc1 & Hi1);
        rewrite ?Hm, ?Hst, ?Hfe; try done; try (by right); auto.
      rewrite Hst in Hsw. unfold mustSwitchState. simpl in Hsw. rewrite Hsw. eauto.
    + destruct (inv_switch s Terminated None (OnTerminated Stopping) MainDone) as (s1 & Hsw & Hc1 & Hi1);
        rewrite ?Hm, ?Hst, ?Hfe; try done; try (by left); try (by split; [|intros []]); auto.
      rewrite Hst in Hsw. unfold mustSwitchState. simpl in Hsw. rewrite Hsw. eauto.
Qed.

Lemma service_step_inv s s' : service_inv s → service_step s s' → service_inv s'.
Proof.
  intros Hi Hs. destruct Hs as [s s' Hs|s s' ret Hs|s|s s' n Hs|s|s n|s c Hc].
  - by eapply StartAsync_inv.
  - destruct (main s) eqn:Hm; (destruct (main_step_ok s ret Hi) as (s1 & Hs1 & Hi1); [by rewrite Hm..|congruence]) || idtac;
      unfold main_step in Hs; by rewrite Hm in Hs.
  - by apply stop_check_inv.
  - by eapply stop_step_inv.
  - by apply AddListener_inv.
  - by apply receive_inv.
  - apply cancelled_inv; [done|by eexists].
Qed.

Lemma NewBasicService_inv : service_inv NewBasicService.
Proof.
  constructor; simpl; try done; try (by left); try (constructor; [done|done|constructor]); by split; [|intros [? _]].
Qed.

Lemma reachable_inv s : service_reachable s → service_inv s.
Proof.
  unfold service_reachable. generalize NewBasicService_inv. generalize (NewBasicService (E:=E)). intros s0 Hi Hr.
  induction Hr as [s|s s1 s2 Hs _ IH]; [done|]. by apply IH, (service_step_inv s).
Qed.

(** the orders in which the functions of a service can be called, and the
    failure case the stopping function is given *)
Inductive call_order : list (call E) → Prop :=
| not_called : call_order []
| start_only r : call_order [StartCall r]
| start_run r : call_order [StartCall None; RunCall r]
| start_stop r : call_order [StartCall None; StopCall None r]
| start_run_stop r r' : call_order [StartCall None; RunCall r; StopCall r r'].

Lemma calls_at_order pc cs : calls_at pc cs → call_order cs.
Proof.
  destruct pc; simpl; intros Hc; decompose [and or ex] Hc; subst; constructor.
Qed.

(** a call of [StopAsync] whose switch has failed has seen the service leave
    [New] *)
Definition stoppers_inv s : Prop := ToCancel ∈ stoppers s → svc_state s ≠ New.

Lemma switchState_frame from to failure cr ct e cc s s' :
  switchState from to failure cr ct e cc s = inr (Some s') → svc_state s' = to ∧ stoppers s' = stoppers s.
Proof.
  unfold switchState. case_bool_decide; [done|]. destruct (_ || _); [done|].
  destruct (notifyListeners _ _ _); [|done]. by intros [= <-].
Qed.
Lemma mustSwitchState_frame from to failure cr ct e cc s s' :
  mustSwitchState from to failure cr ct e cc s = Some s' → svc_state s' = to ∧ stoppers s' = stoppers s.
Proof.
  unfold mustSwitchState. destruct (switchState _ _ _ _ _ _ _ _) eqn:Hs; [done|]. intros ->. by eapply switchState_frame.
Qed.
Lemma cancel_frame s s' : cancel s = Some s' → svc_state s' = svc_state s ∧ stoppers s' = stoppers s.
Proof. unfold cancel. destruct (serviceContext s); [|done]. by intros [= <-]. Qed.

#[local] Ltac frame_switch :=
  match goal with |- context [mustSwitchState ?a ?b ?c ?d ?e ?f ?g ?h] =>
    destruct (mustSwitchState a b c d e f g h) as [s2|] eqn:Hm; [|done]; intros [= <-];
    apply mustSwitchState_frame in Hm as [H3 H4]; simpl; rewrite H3, H4; auto
  end.

Lemma main_step_frame ret s s' :
  main_step ret s = Some s' → stoppers s' = stoppers s ∧ (svc_state s' = svc_state s ∨ svc_state s' ≠ New).
Proof.
  unfold main_step. destruct (main s) as [| |err| | | |from f|f|f|[f|]|]; try done; try (intros [= <-]; by auto).
  - destruct (cancel s) as [s1|] eqn:Hc; [|done]. cbn [mbind option_bind]. apply cancel_frame in Hc as [H1 H2].
    frame_switch.
  - frame_switch.
  - frame_switch.
  - destruct (cancel s) as [s1|] eqn:Hc; [|done]. intros [= <-]. apply cancel_frame in Hc as [H1 H2]. simpl. auto.
  - frame_switch.
  - frame_switch.
Qed.

Lemma stop_step_frame n s s' : stoppers_inv s → stop_step n s = Some s' → stoppers_inv s'.
Proof.
  unfold stop_step, stoppers_inv. intros Hi. destruct (stoppers s !! n) as [[|]|] eqn:Hn; [| |by intros [= <-]].
  - destruct (switchState _ _ _ _ _ _ _ _) as [st|[s1|]] eqn:Hs; [| |done]; intros [= <-]; simpl.
    + intros _ Hnew. unfold switchState in Hs. rewrite bool_decide_eq_false_2 in Hs; [done|]. auto.
    + apply switchState_frame in Hs as [-> _]. done.
  - destruct (cancel s) as [s1|] eqn:Hc; [|done]. intros [= <-]. apply cancel_frame in Hc as [H1 H2]. simpl. rewrite H1, H2.
    intros _. apply Hi. by eapply list_elem_of_lookup_2.
Qed.

Lemma service_step_stoppers s s' : stoppers_inv s → service_step s s' → stoppers_inv s'.
Proof.
  intros Hi Hs. destruct Hs as [s s' Hs|s s' ret Hs|s|s s' n Hs|s|s n|s c Hc].
  - unfold StartAsync in Hs. destruct (switchState _ _ _ _ _ _ _ _) as [|[s1|]] eqn:Hsw; [done| |done].
    injection Hs as <-. apply switchState_frame in Hsw as [H1 H2]. unfold stoppers_inv. simpl. by rewrite H1.
  - apply main_step_frame in Hs as [H1 H2]. unfold stoppers_inv. rewrite H1. intros Hin. destruct H2 as [->|]; auto.
  - unfold stop_check, stoppers_inv in *. destruct (svc_state s) eqn:Hst; simpl; try rewrite Hst; try done.
    intros [Hin|[=]%list_elem_of_singleton]%elem_of_app. auto.
  - by eapply stop_step_frame.
  - unfold AddListener. by destruct (terminal _).
  - unfold receive. destruct (listeners s !! n); [|done]. by case_bool_decide.
  - done.
Qed.
Lemma reachable_stoppers s : service_reachable s → stoppers_inv s.
Proof.
  unfold service_reachable. assert (stoppers_inv NewBasicService) as Hi by (by intros ?%elem_of_nil).
  revert Hi. generalize (NewBasicService (E:=E)). intros s0 Hi Hr.
  induction Hr as [s|s s1 s2 Hs _ IH]; [done|]. by apply IH, (service_step_stoppers s).
Qed.

Lemma stop_step_None n s :
  service_inv s → stoppers_inv s → stop_step n s = None →
  stoppers s !! n = Some ToCancel ∧ svc_state s = Terminated ∧ calls s = [].
Proof.
  intros Hi Hsi. unfold stop_step. destruct (stoppers s !! n) as [[|]|] eqn:Hn0; [| |done].
  - destruct (decide (svc_state s = New)) as [Hn|Hn]; [|by rewrite switchState_fails].
    destruct (switchState_ok Terminated None (OnTerminated New) s) as (ls & Hsw & Hb); [apply Hi|by rewrite ?Hn..|].
    rewrite Hn in Hsw. simpl in Hsw. by rewrite Hsw.
  - unfold cancel. destruct (serviceContext s) eqn:Hc; [done|]. intros _. split; [done|].
    pose proof (si_context _ Hi) as Hctx. rewrite Hc in Hctx. pose proof (si_state _ Hi) as Hst. pose proof (si_calls _ Hi) as Hca.
    destruct (main s) eqn:Hm; try (by destruct Hctx). simpl in *. split; [|done].
    destruct Hst as [Hn|]; [|done]. by destruct (Hsi (list_elem_of_lookup_2 _ _ _ Hn0)).
Qed.

(** C27. A [BasicService], whatever its functions return and however [StartAsync],
    [StopAsync], [AddListener], the listeners and the parent context interleave:
    the waiters of [AwaitRunning] and [AwaitTerminated] are woken up once, when
    the state is past [Starting], respectively terminal; a listener is sent a
    path of the state diagram from the state it was added in to the current
    one, at most four events, and its channel is closed in a terminal state;
    the functions are called at most once and in order; the service fails
    exactly when one of them has failed, with the first error; and [main]
    neither panics nor blocks on a channel. *)
Theorem service_contract (s : service E) :
  service_reachable s →
  (runningWaiters s = (if early (svc_state s) then 0 else 1)%nat ∧
   terminatedWaiters s = (if terminal (svc_state s) then 1 else 0)%nat) ∧
  Forall (λ l, path (since l) (sent l) (svc_state s) ∧ (length (sent l) ≤ 4)%nat ∧ closed l = terminal (svc_state s)) (listeners s) ∧
  call_order (calls s) ∧
  (svc_state s = Failed → first_error (calls s) ≠ None ∧ failureCase s = first_error (calls s)) ∧
  (svc_state s = Terminated → first_error (calls s) = None ∧ failureCase s = None) ∧
  (main s ≠ NotStarted → main s ≠ MainDone → ∀ ret, is_Some (main_step ret s)) ∧
  (∀ n, stop_step n s = None → stoppers s !! n = Some ToCancel ∧ svc_state s = Terminated ∧ calls s = []).
Proof.
  intros Hr. pose proof (reachable_inv s Hr) as Hi. pose proof (reachable_stoppers s Hr) as Hsi.
  split; [split; apply Hi|]. split; [|split; [|split; [|split; [|split]]]].
  - eapply Forall_impl; [apply (bi_listeners _ (si_base _ Hi))|]. intros l (Hp & _ & Hc). split; [done|]. split; [|done].
    apply path_length in Hp. pose proof (rank_max (svc_state s)). lia.
  - eapply calls_at_order, (si_calls _ Hi).
  - intros Hf. split; [by apply (si_failed _ Hi)|]. by rewrite (si_failure _ Hi), bool_decide_eq_true_2.
  - intros Ht. split; [|by rewrite (si_failure _ Hi), bool_decide_eq_false_2 by (by rewrite Ht)].
    destruct (first_error (calls s)) eqn:Hfe; [|done]. assert (main s = MainDone ∨ main s = NotStarted) as [Hm|Hm].
    { pose proof (si_state _ Hi) as Hst. rewrite Ht in Hst. destruct (main s); simpl in Hst; naive_solver. }
    + assert (svc_state s = Failed) by (by apply (si_failed _ Hi); rewrite Hfe). congruence.
    + pose proof (si_calls _ Hi) as Hca. rewrite Hm in Hca. simpl in Hca. by rewrite Hca in Hfe.
  - intros Hn Hd ret. destruct (main_step_ok s ret Hi Hn Hd) as (s' & -> & _). eauto.
  - intros n. by apply stop_step_None.
Qed.

(** [StopAndAwaitTerminated] returns no error for a service that has terminated *)
Lemma StopAndAwaitTerminated_terminated s :
  service_reachable s → svc_state s = Terminated → StopAndAwaitTerminated false s = Some None.
Proof.
  intros Hr Ht. pose proof (reachable_inv s Hr) as Hi. unfold StopAndAwaitTerminated, AwaitTerminated, awaitState.
  rewrite (bi_terminated _ (si_base _ Hi)), Ht. done.
Qed.
(** and the failure case for one that has failed *)
Lemma StopAndAwaitTerminated_failed s :
  service_reachable s → svc_state s = Failed →
  ∃ err, failureCase s = Some err ∧ StopAndAwaitTerminated false s = Some (Some (FailureCase err)).
Proof.
  intros Hr Hf. pose proof (reachable_inv s Hr) as Hi. pose proof (si_failure _ Hi) as Hfc.
  pose proof (proj1 (si_failed _ Hi) Hf) as [Hne _]. rewrite bool_decide_eq_true_2 in Hfc by done.
  destruct (first_error (calls s)) as [err|]; [|done]. exists err. split; [done|].
  unfold StopAndAwaitTerminated, AwaitTerminated, awaitState.
  rewrite (bi_terminated _ (si_base _ Hi)), Hf. simpl. by rewrite Hfc.
Qed.
End facts.

(** Two concurrent [StopAsync] on a service that has not been started: the
    second one, which has seen the service [New], fails to switch it to
    [Terminated] and calls [serviceCancel], which is [nil]: it panics. *)
Theorem StopAsync_race :
  ∃ s : service nat, service_reachable s ∧ svc_state s = Terminated ∧ stoppers s !! 0%nat = Some ToCancel ∧ stop_step 0 s = None.
Proof.
  exists (mkService Terminated None 1 1 [] None NotStarted [ToCancel] []).
  split; [|done]. unfold service_reachable.
  eapply rtc_l; [apply step_StopAsync|]. eapply rtc_l; [apply step_StopAsync|].
  eapply rtc_l; [by apply (step_stopping _ _ 0)|]. eapply rtc_l; [by apply (step_stopping _ _ 0)|]. constructor.
Qed.

(** ** Witness: a service that runs and whose stopping function fails *)
Definition ex_failed : service nat :=
  mkService Failed (Some 7%nat) 1 1
    [mkListener New [OnStarting; OnRunning; OnStopping Running; OnFailed Stopping 7%nat] 0 true] (Some true) MainDone []
    [StartCall None; RunCall None; StopCall None (Some 7%nat)].
Lemma ex_failed_reachable : service_reachable ex_failed.
Proof.
  unfold service_reachable. eapply rtc_l; [apply step_AddListener|]. eapply rtc_l; [by apply step_StartAsync|].
  do 6 (eapply rtc_l; [by apply (step_main _ _ None)|]).
  eapply rtc_l; [by apply (step_main _ _ (Some 7%nat))|]. eapply rtc_l; [by apply (step_main _ _ None)|]. constructor.
Qed.
Lemma service_contract_witness : first_error (calls ex_failed) ≠ None ∧ failureCase ex_failed = first_error (calls ex_failed).
Proof. exact (proj1 (proj2 (proj2 (proj2 (service_contract ex_failed ex_failed_reachable)))) eq_refl). Defined.
