(* ===== verification/Manager.v ===== *)
(** * The service manager: [services/manager.go]

    A [Manager] keeps its services by state, as their listeners report the
    transitions.  Services are numbered.  A step that would close a closed
    channel, or send on a full or closed one, is [None]. *)
From Stdlib Require Import ZArith Lia.
From stdpp Require Import base gmap strings list relations.
From S2P Require Import Prelude Services ServicesFacts.

Inductive managerState := unknown | healthy | stopped.
#[export] Instance managerState_eq_dec : EqDecision managerState.
Proof. solve_decision. Defined.

Inductive manager_event := OnHealthy | OnStopped | OnFailure (service : nat).
(** the channel of a [ManagerListener]: nothing has to be received for the
    manager not to block *)
Record manager_listener := mkManagerListener { m_sent : list manager_event; m_received : nat; m_closed : bool }.

Record Manager := mkManager {
  services : nat;                         (* their number *)
  m_state : managerState;
  byState : gmap State (list nat);
  healthyClosed : bool;
  healthyCh : nat;                        (* how often it has been closed *)
  stoppedCh : nat;
  m_listeners : list manager_listener
}.

Definition m_send (services : nat) (e : manager_event) (closeChan : bool) (l : manager_listener) : option manager_listener :=
  if m_closed l then None
  else if bool_decide (length (m_sent l) - m_received l < services + 2)%nat
  then Some (mkManagerListener (m_sent l ++ [e]) (m_received l) closeChan)
  else None.
Definition m_notify (e : manager_event) (closeChan : bool) (m : Manager) : option Manager :=
  ls ← mapM (m_send (services m) e closeChan) (m_listeners m);
  Some (mkManager (services m) (m_state m) (byState m) (healthyClosed m) (healthyCh m) (stoppedCh m) ls).

Definition set_m_state (st : managerState) (m : Manager) : Manager :=
  mkManager (services m) st (byState m) (healthyClosed m) (healthyCh m) (stoppedCh m) (m_listeners m).
Definition set_byState (b : gmap State (list nat)) (m : Manager) : Manager :=
  mkManager (services m) (m_state m) b (healthyClosed m) (healthyCh m) (stoppedCh m) (m_listeners m).
Definition close_healthy (m : Manager) : option Manager :=
  if bool_decide (healthyCh m = 0%nat)
  then Some (mkManager (services m) (m_state m) (byState m) true 1 (stoppedCh m) (m_listeners m)) else None.
Definition close_stopped (m : Manager) : option Manager :=
  if bool_decide (stoppedCh m = 0%nat)
  then Some (mkManager (services m) (m_state m) (byState m) (healthyClosed m) (healthyCh m) 1 (m_listeners m)) else None.

(** [NewManager] on services that are [New]; their states *)
Definition NewManager (states : list State) : option Manager :=
  if bool_decide (length states = 0%nat) then None
  else if bool_decide (Forall (λ st, st = New) states)
  then Some (mkManager (length states) unknown {[ New := seq 0 (length states) ]} false 0 0 [])
  else None.

(** removal of the first occurrence *)
Fixpoint remove_service (s : nat) (l : list nat) : list nat :=
  match l with
  | [] => []
  | x :: l => if bool_decide (x = s) then l else x :: remove_service s l
  end.
Definition move_service (s : nat) (from to : State) (b : gmap State (list nat)) : gmap State (list nat) :=
  let fs := remove_service s (default [] (b !! from)) in
  let b := if bool_decide (length fs = 0%nat) then delete from b else <[from := fs]> b in
  <[to := default [] (b !! to) ++ [s]]> b.
Definition in_state (st : State) (m : Manager) : nat := length (default [] (byState m !! st)).

Definition serviceStateChanged (s : nat) (from to : State) (m : Manager) : option Manager :=
  let m := set_byState (move_service s from to (byState m)) m in
  m ← (if bool_decide (to = Failed) then m_notify (OnFailure s) false m else Some m);
  let running := in_state Running m in
  let stopping := in_state Stopping m in
  let done := (in_state Terminated m + in_state Failed m)%nat in
  let all := services m in
  if bool_decide (running = all) then
    m ← close_healthy m;
    m_notify OnHealthy false (set_m_state healthy m)
  else if bool_decide (done = all) then
    m ← (if negb (healthyClosed m) then close_healthy m else Some m);
    m ← close_stopped m;
    m_notify OnStopped true (set_m_state stopped m)
  else
    m ← (if negb (healthyClosed m) && (bool_decide (0 < done)%nat || bool_decide (0 < stopping)%nat)
         then close_healthy m else Some m);
    Some (set_m_state unknown m).

(** the methods of the listener the manager adds to each service *)
Definition manager_on {E} (s : nat) (e : event E) (m : Manager) : option Manager :=
  match e with
  | OnStarting => serviceStateChanged s New Starting m
  | OnRunning => serviceStateChanged s Starting Running m
  | OnStopping from => serviceStateChanged s from Stopping m
  | OnTerminated from => serviceStateChanged s from Terminated m
  | OnFailed from _ => serviceStateChanged s from Failed m
  end.

Definition m_AddListener (m : Manager) : Manager :=
  if bool_decide (m_state m = stopped) then m
  else mkManager (services m) (m_state m) (byState m) (healthyClosed m) (healthyCh m) (stoppedCh m)
         (m_listeners m ++ [mkManagerListener [] 0 false]).
Definition IsHealthy (m : Manager) : bool := bool_decide (m_state m = healthy).
Definition IsStopped (m : Manager) : bool := bool_decide (m_state m = stopped).
(** [None]: waiting; [Some None]: no error; otherwise the counts reported *)
Definition AwaitHealthy (m : Manager) : option (option (nat * nat)) :=
  if bool_decide (healthyCh m = 0%nat) then None
  else if bool_decide (m_state m ≠ healthy) then Some (Some (in_state Terminated m, in_state Failed m))
  else Some None.
Definition AwaitStopped (m : Manager) : option unit :=
  if bool_decide (stoppedCh m = 0%nat) then None else Some tt.

(** what happens to a manager: one of its service listeners is called, or a
    [ManagerListener] is added *)
Inductive manager_input (E : Type) :=
| Reports (service : nat) (e : event E)
| AddsListener.
Arguments Reports {E} service e.
Arguments AddsListener {E}.
Definition manager_input_step {E} (i : manager_input E) (m : Manager) : option Manager :=
  match i with
  | Reports s e => manager_on s e m
  | AddsListener => Some (m_AddListener m)
  end.
Definition run_manager {E} (l : list (manager_input E)) (m : Manager) : option Manager :=
  foldl (λ m i, m ≫= manager_input_step i) (Some m) l.

(** ** The manager knows the states of its services

    Fed with the transitions of its services, each service's in order, the
    manager classifies the group rightly and closes each of its channels at
    most once. *)
(** ** Lists of service numbers *)
Lemma remove_service_spec s l :
  NoDup l → NoDup (remove_service s l) ∧ ∀ i, i ∈ remove_service s l ↔ i ∈ l ∧ i ≠ s.
Proof.
  induction 1 as [|x l Hx Hnd [IHn IHe]]; simpl; [split; [constructor|]; intros i; rewrite elem_of_nil; tauto|].
  case_bool_decide as Hs; [subst x|].
  - split; [done|]. intros i. rewrite elem_of_cons. split; [intros Hi; split; [by right|intros ->; done]|].
    intros [[->|?] ?]; done.
  - split; [constructor; [rewrite IHe; tauto|done]|]. intros i. rewrite !elem_of_cons, IHe. naive_solver.
Qed.

Lemma numbers_length (l : list nat) n :
  NoDup l → (∀ i, i ∈ l → (i < n)%nat) → (length l ≤ n)%nat.
Proof.
  intros Hnd Hl. rewrite <- (length_seq n 0). apply submseteq_length, NoDup_submseteq; [done|].
  intros i Hi%Hl. apply elem_of_seq. lia.
Qed.
Lemma numbers_all (l : list nat) n :
  NoDup l → (∀ i, i ∈ l → (i < n)%nat) → length l = n ↔ ∀ i, (i < n)%nat → i ∈ l.
Proof.
  intros Hnd Hl. assert (l ⊆+ seq 0 n) as Hsub.
  { apply NoDup_submseteq; [done|]. intros i Hi%Hl. apply elem_of_seq. lia. }
  split.
  - intros Hlen i Hi. assert (l ≡ₚ seq 0 n) as ->; [|apply elem_of_seq; lia].
    apply submseteq_length_Permutation; [done|]. rewrite length_seq. lia.
  - intros Hall. apply Nat.le_antisymm; [by apply numbers_length|]. rewrite <- (length_seq n 0) at 1.
    apply submseteq_length, NoDup_submseteq; [apply NoDup_seq|]. intros i Hi%elem_of_seq. apply Hall. lia.
Qed.

(** ** The states the manager has been told *)
Definition all_are (P : State → bool) (view : list State) : Prop := ∀ i st, view !! i = Some st → P st = true.
Definition some_is (P : State → bool) (view : list State) : Prop := ∃ i st, view !! i = Some st ∧ P st = true.
Definition running (st : State) : bool := bool_decide (st = Running).
Definition late (st : State) : bool := match st with Stopping | Terminated | Failed => true | _ => false end.

Definition in_list (st : State) (m : Manager) : list nat := default [] (byState m !! st).

Record byState_ok (m : Manager) (view : list State) : Prop := {
  bs_services : services m = length view;
  bs_NoDup : ∀ st, NoDup (in_list st m);
  bs_elem : ∀ st i, i ∈ in_list st m ↔ view !! i = Some st
}.

Lemma in_list_lt m view st i : byState_ok m view → i ∈ in_list st m → (i < length view)%nat.
Proof. intros Hb Hi. apply (bs_elem _ _ Hb) in Hi. by eapply lookup_lt_Some. Qed.

Lemma count_all m view st :
  byState_ok m view → in_state st m = services m ↔ all_are (λ x, bool_decide (x = st)) view.
Proof.
  intros Hb. rewrite (bs_services _ _ Hb). unfold in_state. fold (in_list st m).
  rewrite (numbers_all _ _ (bs_NoDup _ _ Hb st)) by (intros i; by apply in_list_lt). split.
  - intros Hall i x Hx. apply bool_decide_eq_true. specialize (Hall i (lookup_lt_Some _ _ _ Hx)).
    apply (bs_elem _ _ Hb) in Hall. congruence.
  - intros Hall i Hi. apply (bs_elem _ _ Hb). destruct (lookup_lt_is_Some_2 _ _ Hi) as [x Hx].
    specialize (Hall i x Hx). apply bool_decide_eq_true in Hall. by subst.
Qed.

Lemma count_done m view :
  byState_ok m view → (in_state Terminated m + in_state Failed m)%nat = services m ↔ all_are terminal view.
Proof.
  intros Hb. rewrite (bs_services _ _ Hb). unfold in_state. fold (in_list Terminated m) (in_list Failed m).
  rewrite <- length_app, numbers_all.
  - setoid_rewrite elem_of_app. setoid_rewrite (bs_elem _ _ Hb). split.
    + intros Hall i x Hx. destruct (Hall i (lookup_lt_Some _ _ _ Hx)) as [H|H]; rewrite Hx in H; by injection H as ->.
    + intros Hall i Hi. destruct (lookup_lt_is_Some_2 _ _ Hi) as [x Hx]. specialize (Hall i x Hx).
      destruct x; try done; [left|right]; done.
  - apply NoDup_app. split; [apply (bs_NoDup _ _ Hb)|]. split; [|apply (bs_NoDup _ _ Hb)].
    intros i Hi%(bs_elem _ _ Hb) Hi'%(bs_elem _ _ Hb). congruence.
  - intros i [Hi|Hi]%elem_of_app; by eapply in_list_lt.
Qed.

Lemma count_some m view st :
  byState_ok m view → (0 < in_state st m)%nat ↔ some_is (λ x, bool_decide (x = st)) view.
Proof.
  intros Hb. unfold in_state. fold (in_list st m). split.
  - destruct (in_list st m) as [|i l] eqn:Hl; simpl; [lia|]. intros _. exists i, st. split; [|by apply bool_decide_eq_true].
    apply (bs_elem _ _ Hb). rewrite Hl. by left.
  - intros (i & x & Hx & ->%bool_decide_eq_true). apply (bs_elem _ _ Hb) in Hx. destruct (in_list st m); [by apply elem_of_nil in Hx|simpl; lia].
Qed.

Lemma some_late m view :
  byState_ok m view →
  (0 < in_state Terminated m + in_state Failed m ∨ 0 < in_state Stopping m)%nat ↔ some_is late view.
Proof.
  intros Hb. pose proof (count_some m view Terminated Hb) as H1. pose proof (count_some m view Failed Hb) as H2.
  pose proof (count_some m view Stopping Hb) as H3. unfold some_is in *. split.
  - intros [H|H]; [assert (0 < in_state Terminated m ∨ 0 < in_state Failed m)%nat as [H'|H'] by lia; [apply H1 in H'|apply H2 in H']|apply H3 in H as H'];
      destruct H' as (i & x & Hx & ->%bool_decide_eq_true); exists i; eauto.
  - intros (i & x & Hx & Hl). destruct x; try done.
    + right. apply H3. exists i, Stopping. by rewrite bool_decide_eq_true.
    + left. assert (0 < in_state Terminated m)%nat; [|lia]. apply H1. exists i, Terminated. by rewrite bool_decide_eq_true.
    + left. assert (0 < in_state Failed m)%nat; [|lia]. apply H2. exists i, Failed. by rewrite bool_decide_eq_true.
Qed.

Lemma move_service_ok m view s from to :
  byState_ok m view → view !! s = Some from → from ≠ to →
  byState_ok (set_byState (move_service s from to (byState m)) m) (<[s := to]> view).
Proof.
  intros Hb Hs Hne. set (fs := remove_service s (in_list from m)).
  destruct (remove_service_spec s (in_list from m) (bs_NoDup _ _ Hb from)) as [Hnd Hel]. fold fs in Hnd, Hel.
  assert (∀ st, in_list st (set_byState (move_service s from to (byState m)) m)
    = if decide (st = to) then in_list to m ++ [s] else if decide (st = from) then fs else in_list st m) as Hin.
  { intros st. unfold in_list, move_service. simpl. fold (in_list from m) fs.
    assert (∀ st', st' ≠ from → (if bool_decide (length fs = 0%nat) then delete from (byState m) else <[from:=fs]> (byState m)) !! st' = byState m !! st') as Hother.
    { intros st' Hst'. case_bool_decide; [by rewrite lookup_delete_ne|by rewrite lookup_insert_ne]. }
    destruct (decide (st = to)) as [->|Hst]; [by rewrite lookup_insert_eq, Hother by done|].
    rewrite lookup_insert_ne by done. destruct (decide (st = from)) as [->|Hsf]; [|by rewrite Hother].
    case_bool_decide as Hl; [|by rewrite lookup_insert_eq]. rewrite lookup_delete_eq. by destruct fs. }
  constructor.
  - simpl. rewrite length_insert. apply (bs_services _ _ Hb).
  - intros st. rewrite Hin. case_decide as H1; [|case_decide; [done|apply (bs_NoDup _ _ Hb)]].
    apply NoDup_app. split; [apply (bs_NoDup _ _ Hb)|]. split; [|apply NoDup_singleton].
    intros i Hi%(bs_elem _ _ Hb) ->%list_elem_of_singleton. congruence.
  - intros st i. rewrite Hin. assert (s < length view)%nat as Hlt by by eapply lookup_lt_Some.
    destruct (decide (i = s)) as [->|Hi].
    + rewrite list_lookup_insert_eq by done. case_decide as H1; [subst; rewrite elem_of_app, list_elem_of_singleton; naive_solver|].
      case_decide as H2; [rewrite Hel; naive_solver|]. rewrite (bs_elem _ _ Hb). naive_solver.
    + rewrite list_lookup_insert_ne by done. case_decide as H1.
      * subst. rewrite elem_of_app, list_elem_of_singleton, (bs_elem _ _ Hb). naive_solver.
      * case_decide as H2; [subst; rewrite Hel, (bs_elem _ _ Hb)|rewrite (bs_elem _ _ Hb)]; naive_solver.
Qed.

(** ** The invariant *)
Record manager_inv (m : Manager) (view : list State) : Prop := {
  mi_byState : byState_ok m view;
  mi_services : (0 < length view)%nat;
  mi_healthy : m_state m = healthy ↔ all_are running view;
  mi_stopped : m_state m = stopped ↔ all_are terminal view;
  mi_healthyCh : healthyCh m = (if healthyClosed m then 1 else 0)%nat;
  mi_healthyClosed : healthyClosed m = true ↔ all_are running view ∨ some_is late view;
  mi_stoppedCh : stoppedCh m = 0%nat ∧ ¬ all_are terminal view ∨ stoppedCh m = 1%nat ∧ all_are terminal view;
  mi_listeners : Forall (λ l, (m_closed l = true → all_are terminal view) ∧
    (length (m_sent l) ≤ in_state Failed m + (if healthyClosed m then 1 else 0) +
       (if bool_decide (m_state m = stopped) then 1 else 0))%nat) (m_listeners m)
}.

Lemma m_notify_ok e cc m :
  Forall (λ l, m_closed l = false ∧ (length (m_sent l) < services m + 2)%nat) (m_listeners m) →
  ∃ ls, m_notify e cc m = Some (mkManager (services m) (m_state m) (byState m) (healthyClosed m) (healthyCh m) (stoppedCh m) ls) ∧
    Forall2 (λ l l', m_closed l' = cc ∧ length (m_sent l') = S (length (m_sent l))) (m_listeners m) ls.
Proof.
  unfold m_notify. intros Hall.
  assert (∃ ls, mapM (m_send (services m) e cc) (m_listeners m) = Some ls ∧
    Forall2 (λ l l', m_closed l' = cc ∧ length (m_sent l') = S (length (m_sent l))) (m_listeners m) ls) as (ls & -> & Hls); [|by exists ls].
  induction Hall as [|l ls [Hc Hl] Hall (ls' & Hm & Hf)]; [by exists []|].
  assert (m_send (services m) e cc l = Some (mkManagerListener (m_sent l ++ [e]) (m_received l) cc)) as Hsend.
  { unfold m_send. rewrite Hc, bool_decide_eq_true_2 by lia. done. }
  exists (mkManagerListener (m_sent l ++ [e]) (m_received l) cc :: ls'). cbn [mapM]. rewrite Hsend, Hm. split; [done|].
  constructor; [|done]. split; [done|]. simpl. rewrite length_app. simpl. lia.
Qed.

Lemma all_are_update P view s to : all_are P (<[s := to]> view) → (s < length view)%nat → P to = true.
Proof. intros Ha Hs. apply (Ha s). by apply list_lookup_insert_eq. Qed.

Lemma some_is_update P view s to : (s < length view)%nat → P to = true → some_is P (<[s := to]> view).
Proof. intros Hs Hp. exists s, to. split; [by apply list_lookup_insert_eq|done]. Qed.

(** what a transition of a service makes of the group *)
Lemma transition_facts view s from to :
  view !! s = Some from → diagram from to = true →
  ¬ all_are terminal view ∧
  (all_are running (<[s := to]> view) → ¬ (all_are running view ∨ some_is late view)) ∧
  (all_are running view ∨ some_is late view → some_is late (<[s := to]> view)) ∧
  (to = Failed → ¬ all_are running (<[s := to]> view)).
Proof.
  intros Hs Hd. assert (s < length view)%nat as Hlt by by eapply lookup_lt_Some. split; [|split; [|split]].
  - intros Ha. specialize (Ha s from Hs). by destruct from.
  - intros Ha [Hr|(i & x & Hx & Hl)].
    + pose proof (Hr s from Hs) as Hf. pose proof (all_are_update _ _ _ _ Ha Hlt) as Ht. unfold running in *. reflect. by subst.
    + destruct (decide (i = s)) as [->|Hi].
      * pose proof (all_are_update _ _ _ _ Ha Hlt) as Ht. unfold running in Ht. reflect. subst to.
        assert (x = from) as -> by congruence. by destruct from.
      * specialize (Ha i x). rewrite list_lookup_insert_ne in Ha by done. specialize (Ha Hx). unfold running in Ha. reflect. by subst.
  - intros [Hr|(i & x & Hx & Hl)].
    + pose proof (Hr s from Hs) as Hf. unfold running in Hf. reflect. subst from. apply some_is_update; [done|]. by destruct to.
    + destruct (decide (i = s)) as [->|Hi].
      * assert (x = from) as -> by congruence. apply some_is_update; [done|]. by destruct from, to.
      * exists i, x. by rewrite list_lookup_insert_ne.
  - intros -> Ha. pose proof (all_are_update _ _ _ _ Ha Hlt) as Ht. done.
Qed.

Lemma in_state_le m view st : byState_ok m view → (in_state st m ≤ services m)%nat.
Proof.
  intros Hb. rewrite (bs_services _ _ Hb). apply numbers_length; [apply (bs_NoDup _ _ Hb)|].
  intros i. by apply in_list_lt.
Qed.
Lemma in_state_not_all m view st s x :
  byState_ok m view → view !! s = Some x → x ≠ st → (in_state st m < services m)%nat.
Proof.
  intros Hb Hs Hne. pose proof (in_state_le m view st Hb). assert (in_state st m ≠ services m); [|lia].
  intros Heq. apply (count_all m view st Hb) in Heq. specialize (Heq s x Hs). by apply bool_decide_eq_true in Heq.
Qed.

Lemma running_not_terminal view : (0 < length view)%nat → all_are running view → ¬ all_are terminal view.
Proof.
  intros Hn Hr Ht. destruct (lookup_lt_is_Some_2 view 0%nat Hn) as [x Hx]. specialize (Hr _ _ Hx). specialize (Ht _ _ Hx).
  unfold running in Hr. reflect. by subst.
Qed.

Lemma move_service_count m view s from to :
  byState_ok m view → view !! s = Some from → from ≠ to → from ≠ Failed →
  in_state Failed (set_byState (move_service s from to (byState m)) m)
  = (in_state Failed m + if bool_decide (to = Failed) then 1 else 0)%nat.
Proof.
  intros Hb Hs Hne Hf. unfold in_state, move_service. simpl.
  assert (∀ fs : list nat, (if bool_decide (length fs = 0%nat) then delete from (byState m) else <[from:=fs]> (byState m)) !! Failed = byState m !! Failed) as Hother.
  { intros fs. case_bool_decide; [by rewrite lookup_delete_ne|by rewrite lookup_insert_ne]. }
  destruct (decide (to = Failed)) as [->|Ht].
  - rewrite lookup_insert_eq, Hother. simpl. by rewrite length_app.
  - rewrite lookup_insert_ne, Hother, bool_decide_eq_false_2 by done. lia.
Qed.

(** the channels of the listeners after the services have been counted again *)
Definition listeners_open (m : Manager) (n : nat) : Prop :=
  Forall (λ l, m_closed l = false ∧ (length (m_sent l) ≤ n)%nat) (m_listeners m).

Lemma notify_open e cc m n :
  listeners_open m n → (n < services m + 2)%nat →
  ∃ ls, m_notify e cc m = Some (mkManager (services m) (m_state m) (byState m) (healthyClosed m) (healthyCh m) (stoppedCh m) ls) ∧
    Forall (λ l, m_closed l = cc ∧ (length (m_sent l) ≤ S n)%nat) ls.
Proof.
  intros Hl Hn. destruct (m_notify_ok e cc m) as (ls & -> & Hf2).
  { eapply Forall_impl; [exact Hl|]. intros l [? ?]. split; [done|lia]. }
  exists ls. split; [done|]. unfold listeners_open in Hl. clear -Hl Hf2.
  induction Hf2 as [|l l' ls ls' [? ?] _ IH]; inversion_clear Hl as [|? ? [? ?] ?]; constructor; [|auto]. split; [done|lia].
Qed.

Lemma failure_notified m view s from to :
  manager_inv m view → view !! s = Some from → diagram from to = true →
  let m1 := set_byState (move_service s from to (byState m)) m in
  ∃ m2, (if bool_decide (to = Failed) then m_notify (OnFailure s) false m1 else Some m1) = Some m2 ∧
    byState_ok m2 (<[s := to]> view) ∧ services m2 = services m ∧ healthyClosed m2 = healthyClosed m ∧
    healthyCh m2 = healthyCh m ∧ stoppedCh m2 = stoppedCh m ∧
    listeners_open m2 (in_state Failed m2 + if healthyClosed m2 then 1 else 0).
Proof.
  intros Hi Hs Hd m1. assert (from ≠ to ∧ from ≠ Failed) as [Hne Hnf] by (by destruct from, to).
  pose proof (move_service_ok m view s from to (mi_byState _ _ Hi) Hs Hne) as Hb1.
  pose proof (move_service_count m view s from to (mi_byState _ _ Hi) Hs Hne Hnf) as Hcount. fold m1 in Hb1, Hcount.
  destruct (transition_facts view s from to Hs Hd) as (Hnt & _ & _ & _).
  assert (m_state m ≠ stopped) as Hns by (intros Hst; by apply Hnt, (mi_stopped _ _ Hi)).
  assert (listeners_open m1 (in_state Failed m + if healthyClosed m then 1 else 0)) as Hopen.
  { eapply Forall_impl; [apply (mi_listeners _ _ Hi)|]. intros l [Hc Hl]. rewrite bool_decide_eq_false_2 in Hl by done.
    split; [|lia]. destruct (m_closed l); [by destruct (Hnt (Hc eq_refl))|done]. }
  case_bool_decide as Hto.
  2: { exists m1. split; [done|]. split; [done|]. repeat (split; [done|]). rewrite Nat.add_0_r in Hcount. by rewrite Hcount. }
  pose proof (in_state_not_all m view Failed s from (mi_byState _ _ Hi) Hs Hnf) as Hlt.
  destruct (notify_open (OnFailure s) false m1 _ Hopen) as (ls & -> & Hls); [simpl; destruct (healthyClosed m); lia|].
  eexists. split; [done|]. split; [by destruct Hb1; constructor|]. repeat (split; [done|]).
  unfold listeners_open. simpl. change (in_state Failed _) with (in_state Failed m1). rewrite Hcount.
  eapply Forall_impl; [exact Hls|]. intros l [? ?]. split; [done|lia].
Qed.

Lemma serviceStateChanged_ok m view s from to :
  manager_inv m view → view !! s = Some from → diagram from to = true →
  ∃ m', serviceStateChanged s from to m = Some m' ∧ manager_inv m' (<[s := to]> view).
Proof.
  intros Hi Hs Hd. destruct (failure_notified m view s from to Hi Hs Hd) as (m2 & Hm2 & Hb & Hsv & Hhc & Hch & Hsc & Hopen).
  destruct (transition_facts view s from to Hs Hd) as (Hnt & Hrun & Hlate & Hfail).
  unfold serviceStateChanged. rewrite Hm2. cbn [mbind option_bind]. clear Hm2.
  set (view' := <[s := to]> view) in *. assert (0 < length view')%nat as Hn by (unfold view'; rewrite length_insert; apply Hi).
  pose proof (mi_healthyClosed _ _ Hi) as HhC. pose proof (mi_healthyCh _ _ Hi) as HCh.
  assert (stoppedCh m2 = 0%nat) as Hsc0 by (rewrite Hsc; destruct (mi_stoppedCh _ _ Hi) as [[? _]|[_ ?]]; done).
  pose proof (in_state_le m2 view' Failed Hb) as Hfle.
  assert (m2 = mkManager (services m2) (m_state m2) (byState m2) (healthyClosed m2) (healthyCh m2) (stoppedCh m2) (m_listeners m2))
    as Heta by by destruct m2.
  case_bool_decide as Hr; [|case_bool_decide as Hdn].
  - (* all the services are running *)
    pose proof Hr as Hall. apply (count_all _ _ _ Hb) in Hall. fold running in Hall. pose proof (Hrun Hall) as Hnot.
    assert (healthyClosed m = false) as Hf by (apply not_true_is_false; by rewrite HhC).
    unfold close_healthy. rewrite Hhc, Hf in Hopen. rewrite Hch, HCh, Hf. rewrite bool_decide_eq_true_2 by done. cbn [mbind option_bind].
    destruct (notify_open OnHealthy false (set_m_state healthy (mkManager (services m2) (m_state m2) (byState m2) true 1 (stoppedCh m2) (m_listeners m2)))
      _ Hopen) as (ls & -> & Hls); [simpl; lia|].
    eexists. split; [done|]. simpl. pose proof (running_not_terminal view' Hn Hall).
    constructor; simpl; try done; [by destruct Hb; constructor|tauto|by left|].
    eapply Forall_impl; [exact Hls|]. intros l [-> Hl]. split; [done|]. change (in_state Failed _) with (in_state Failed m2). lia.
  - (* all have stopped *)
    pose proof Hdn as Hall. apply (count_done _ _ Hb) in Hall.
    assert (∃ m3, (if negb (healthyClosed m2) then close_healthy m2 else Some m2) = Some m3 ∧
      m3 = mkManager (services m2) (m_state m2) (byState m2) true 1 (stoppedCh m2) (m_listeners m2)) as (m3 & -> & ->).
    { rewrite Hhc. unfold close_healthy. rewrite Hch, HCh. destruct (healthyClosed m); [|by eexists].
      exists m2. split; [done|]. rewrite Heta at 1. by rewrite Hhc, Hch, HCh. }
    cbn [mbind option_bind]. unfold close_stopped. simpl. rewrite Hsc0. simpl.
    destruct (notify_open OnStopped true (set_m_state stopped (mkManager (services m2) (m_state m2) (byState m2) true 1 1 (m_listeners m2)))
      (in_state Failed m2 + 1)%nat) as (ls & -> & Hls).
    { eapply Forall_impl; [exact Hopen|]. intros l [? Hl]. split; [done|]. destruct (healthyClosed m2); lia. }
    { simpl. lia. }
    assert (some_is late view') as Hsl.
    { destruct (lookup_lt_is_Some_2 view' 0%nat Hn) as [x Hx]. exists 0%nat, x. split; [done|]. pose proof (Hall _ _ Hx). by destruct x. }
    eexists. split; [done|]. constructor; simpl; try done; [by destruct Hb; constructor| | |by right|].
    + split; [done|]. intros Hr'. by destruct (running_not_terminal view' Hn Hr').
    + split; [by right|done].
    + eapply Forall_impl; [exact Hls|]. intros l [-> Hl]. split; [done|]. change (in_state Failed _) with (in_state Failed m2). lia.
  - (* otherwise *)
    assert (¬ all_are running view') as Hnr by (intros Ha; by apply Hr, (count_all _ _ _ Hb)).
    assert (¬ all_are terminal view') as Hnt' by (intros Ha; by apply Hdn, (count_done _ _ Hb)).
    pose proof (some_late m2 view' Hb) as Hsl.
    assert (∃ m3 c, (if negb (healthyClosed m2) && (bool_decide (0 < in_state Terminated m2 + in_state Failed m2)%nat || bool_decide (0 < in_state Stopping m2)%nat)
         then close_healthy m2 else Some m2) = Some m3 ∧
      m3 = mkManager (services m2) (m_state m2) (byState m2) c (if c then 1 else 0) (stoppedCh m2) (m_listeners m2) ∧
      (c = true ↔ some_is late view') ∧ (healthyClosed m2 = true → c = true)) as (m3 & c & -> & -> & Hc & Hcm).
    { rewrite <- bool_decide_or. unfold close_healthy. rewrite Hch, HCh, Hhc. destruct (healthyClosed m); simpl.
      - exists m2, true. split; [done|]. split; [rewrite Heta at 1; by rewrite Hhc, Hch, HCh|].
        split; [|done]. split; [intros _; by apply Hlate, HhC|done].
      - case_bool_decide as Hl; [exists (mkManager (services m2) (m_state m2) (byState m2) true 1 (stoppedCh m2) (m_listeners m2)), true|exists m2, false];
          (split; [done|]); (split; [try done; rewrite Heta at 1; by rewrite Hhc, Hch, HCh|]); (split; [|done]);
          rewrite <- Hsl; by split. }
    eexists. split; [done|]. constructor; simpl; try done; [by destruct Hb; constructor|tauto|by left|].
    eapply Forall_impl; [exact Hopen|]. intros l [-> Hl]. split; [done|]. change (in_state Failed _) with (in_state Failed m2).
    destruct (healthyClosed m2); [rewrite (Hcm eq_refl)|]; lia.
Qed.

(** ** The manager fed by its services *)
Section fed.
Context {E : Type}.
Implicit Types l : list (manager_input E).

(** what one service has reported *)
Definition reported (s : nat) l : list (event E) :=
  omap (λ i, match i with Reports s' e => if bool_decide (s' = s) then Some e else None | AddsListener => None end) l.

Lemma manager_on_ok m view s (e : event E) :
  manager_inv m view → view !! s = Some (event_from e) → diagram (event_from e) (event_to e) = true →
  ∃ m', manager_on s e m = Some m' ∧ manager_inv m' (<[s := event_to e]> view).
Proof. intros Hi Hs Hd. destruct e; simpl in *; by apply serviceStateChanged_ok. Qed.

Lemma m_AddListener_inv m view : manager_inv m view → manager_inv (m_AddListener m) view.
Proof.
  intros Hi. unfold m_AddListener. case_bool_decide; [done|]. destruct Hi. constructor; simpl; try done.
  - by destruct mi_byState0; constructor.
  - apply Forall_app. split; [done|]. constructor; [|done]. split; [done|simpl; lia].
Qed.

Lemma run_manager_ok l m view finals :
  manager_inv m view → length finals = length view →
  (∀ s e, Reports s e ∈ l → (s < length view)%nat) →
  (∀ s st st', view !! s = Some st → finals !! s = Some st' → path st (reported s l) st') →
  ∃ m', run_manager l m = Some m' ∧ manager_inv m' finals.
Proof.
  revert m view. induction l as [|i l IH]; intros m view Hi Hlen Hlt Hp.
  - exists m. split; [done|]. replace finals with view; [done|]. apply list_eq_same_length with (n := length view); [done|done|].
    intros k st st' _ Hk Hk'. by apply (Hp k st st').
  - destruct i as [s e|].
    + assert (s < length view)%nat as Hs by (apply (Hlt s e); by left).
      destruct (lookup_lt_is_Some_2 view s Hs) as [st Hst]. rewrite <- Hlen in Hs.
      destruct (lookup_lt_is_Some_2 finals s Hs) as [st' Hst'].
      pose proof (Hp s st st' Hst Hst') as Hpath. cbn [reported omap list_omap] in Hpath.
      rewrite bool_decide_eq_true_2 in Hpath by done. destruct Hpath as (<- & Hd & Hpath).
      destruct (manager_on_ok m view s e Hi Hst Hd) as (m1 & Hm1 & Hi1).
      unfold run_manager. simpl. rewrite Hm1. apply (IH m1 _ Hi1).
      * by rewrite length_insert.
      * intros s' e' Hin. rewrite length_insert. apply (Hlt s' e'). by right.
      * intros s' x x' Hx Hx'. destruct (decide (s' = s)) as [->|Hne].
        -- rewrite list_lookup_insert_eq in Hx by lia. injection Hx as <-. assert (x' = st') as -> by congruence. done.
        -- rewrite list_lookup_insert_ne in Hx by done. specialize (Hp s' x x' Hx Hx').
           cbn [reported omap list_omap] in Hp. by rewrite bool_decide_eq_false_2 in Hp by done.
    + unfold run_manager. simpl. apply (IH (m_AddListener m) view); [by apply m_AddListener_inv|done| |done].
      intros s e Hin. apply (Hlt s e). by right.
Qed.
End fed.

Lemma NewManager_inv n :
  (0 < n)%nat → ∃ m, NewManager (replicate n New) = Some m ∧ manager_inv m (replicate n New) ∧ m_listeners m = [].
Proof.
  intros Hn. unfold NewManager. rewrite length_replicate, bool_decide_eq_false_2 by lia.
  rewrite bool_decide_eq_true_2 by (by apply Forall_replicate).
  eexists. split; [done|]. split; [|done].
  assert ((0 : nat) < length (replicate n New))%nat as Hn' by by rewrite length_replicate.
  assert (replicate n New !! 0%nat = Some New) as H0 by by apply lookup_replicate_2.
  constructor; simpl; try done.
  - constructor; simpl; [by rewrite length_replicate| |].
    + intros st. unfold in_list. simpl. destruct (decide (st = New)) as [->|Hst].
      * rewrite lookup_singleton_eq. apply NoDup_seq.
      * rewrite lookup_singleton_ne by done. constructor.
    + intros st i. unfold in_list. simpl. rewrite lookup_replicate. destruct (decide (st = New)) as [->|Hst].
      * rewrite lookup_singleton_eq. simpl. rewrite elem_of_seq. split; [intros ?; split; [done|lia]|lia].
      * rewrite lookup_singleton_ne by done. simpl. rewrite elem_of_nil. naive_solver.
  - split; [done|]. intros Ha. by specialize (Ha _ _ H0).
  - split; [done|]. intros Ha. by specialize (Ha _ _ H0).
  - split; [done|]. intros [Ha|(i & x & [-> _]%lookup_replicate & Hx)]; [by specialize (Ha _ _ H0)|done].
  - left. split; [done|]. intros Ha. by specialize (Ha _ _ H0).
Qed.

(** C28. A [Manager] of [n] new services which is told, in any interleaving, the
    transitions of each service in the order its listener receives them (a path
    of the state diagram, as every [BasicService] sends) never panics nor blocks,
    whatever listeners are added to it: it is healthy exactly when all the
    services are running and stopped exactly when all have terminated or failed;
    [AwaitHealthy] returns no error exactly in the first case, and an error as
    soon as some service is stopping or stopped; [AwaitStopped] returns exactly
    in the second case. *)
Theorem manager_correct {E : Type} (n : nat) (l : list (manager_input E)) (finals : list State) :
  (0 < n)%nat → length finals = n → (∀ s e, Reports s e ∈ l → (s < n)%nat) →
  (∀ s st, finals !! s = Some st → path New (reported s l) st) →
  ∃ m, (NewManager (replicate n New) ≫= run_manager l) = Some m ∧
    (IsHealthy m = true ↔ Forall (λ st, st = Running) finals) ∧
    (IsStopped m = true ↔ Forall (λ st, terminal st = true) finals) ∧
    (AwaitHealthy m = Some None ↔ Forall (λ st, st = Running) finals) ∧
    (AwaitHealthy m = None ↔ Forall (λ st, late st = false) finals ∧ ¬ Forall (λ st, st = Running) finals) ∧
    (AwaitStopped m = Some tt ↔ Forall (λ st, terminal st = true) finals).
Proof.
  intros Hn Hlen Hlt Hp. destruct (NewManager_inv n Hn) as (m0 & -> & Hi0 & _). cbn [mbind option_bind].
  destruct (run_manager_ok l m0 (replicate n New) finals Hi0) as (m & -> & Hi).
  { by rewrite length_replicate. }
  { by rewrite length_replicate. }
  { intros s st st' [-> _]%lookup_replicate. apply Hp. }
  exists m. split; [done|].
  assert (all_are running finals ↔ Forall (λ st, st = Running) finals) as Hrun.
  { rewrite Forall_lookup. unfold all_are, running. setoid_rewrite bool_decide_eq_true. done. }
  assert (all_are terminal finals ↔ Forall (λ st, terminal st = true) finals) as Hterm by by rewrite Forall_lookup.
  assert (Forall (λ st, late st = false) finals ↔ ¬ some_is late finals) as Hlate.
  { rewrite Forall_lookup. unfold some_is. split.
    - intros Ha (i & x & Hx & Hl). rewrite (Ha i x Hx) in Hl. done.
    - intros Hns i x Hx. apply not_true_is_false. intros Hl. apply Hns. eauto. }
  rewrite Hlate, <- Hrun, <- Hterm. unfold IsHealthy, IsStopped, AwaitHealthy, AwaitStopped. rewrite !bool_decide_eq_true.
  pose proof (mi_healthy _ _ Hi) as H1. pose proof (mi_stopped _ _ Hi) as H2. pose proof (mi_healthyCh _ _ Hi) as H3.
  pose proof (mi_healthyClosed _ _ Hi) as H4. pose proof (mi_stoppedCh _ _ Hi) as H5.
  split; [done|]. split; [done|]. split; [|split].
  - rewrite H3. destruct (healthyClosed m); simpl.
    + case_bool_decide as Hh; [split; [done|]; tauto|]. tauto.
    + split; [done|]. intros Ha. assert (false = true) by tauto. done.
  - rewrite H3. destruct (healthyClosed m); simpl.
    + case_bool_decide; (split; [done|]); tauto.
    + split; [|done]. intros _. assert (¬ (false = true)) by done. tauto.
  - case_bool_decide; (split; [try done|]); destruct H5 as [[? ?]|[? ?]]; try done; congruence.
Qed.

(** ** Witness: the transitions of a service that fails, those of
    [ServicesFacts.ex_failed], interleaved with a service that is stopped before
    it starts *)
Definition ex_inputs : list (manager_input nat) :=
  [AddsListener; Reports 0 OnStarting; Reports 0 OnRunning; Reports 1 (OnTerminated New); AddsListener;
   Reports 0 (OnStopping Running); Reports 0 (OnFailed Stopping 7%nat)].
Lemma manager_correct_witness :
  ∃ m, (NewManager (replicate 2 New) ≫= run_manager ex_inputs) = Some m ∧
    (IsHealthy m = true ↔ Forall (λ st, st = Running) [Failed; Terminated]) ∧
    (IsStopped m = true ↔ Forall (λ st, terminal st = true) [Failed; Terminated]) ∧
    (AwaitHealthy m = Some None ↔ Forall (λ st, st = Running) [Failed; Terminated]) ∧
    (AwaitHealthy m = None ↔ Forall (λ st, late st = false) [Failed; Terminated] ∧ ¬ Forall (λ st, st = Running) [Failed; Terminated]) ∧
    (AwaitStopped m = Some tt ↔ Forall (λ st, terminal st = true) [Failed; Terminated]).
Proof.
  apply (manager_correct 2 ex_inputs [Failed; Terminated]); [lia|done| |].
  - intros s e Hin. unfold ex_inputs in Hin. rewrite !elem_of_cons, elem_of_nil in Hin. naive_solver lia.
  - intros [|[|s]] st [= <-]; by repeat split.
Defined.
