(* ===== verification/Modules.v ===== *)
(** * The module manager: [modules/modules.go], [modules/module_service.go]

    Modules, their dependencies, and the order in which they are initialised.
    The recursion on the dependencies and the loop of [orderedDeps] do not
    terminate on a cycle: they take fuel, [OutOfFuel] being a run that goes on.
    A dependency that is not registered is a [nil] module: using it panics. *)
From Stdlib Require Import ZArith Lia.
From stdpp Require Import base gmap strings list sorting fin_maps relations.
From S2P Require Import Prelude.

Inductive fault := NilModule (name : string) | OutOfFuel.

Section modules.
Context {E : Type}.

(** [initFn] is [nil], or returns an error, no service, or a service (a number
    here) *)
Record module := mkModule {
  deps : list string;
  initFn : option (result E (option nat));
  userVisible : bool
}.
Definition Manager := gmap string module.

Definition NewManager : Manager := ∅.
Definition UserInvisibleModule (m : module) : module := mkModule (deps m) (initFn m) false.
Definition RegisterModule (name : string) (init : option (result E (option nat))) (options : list (module → module))
    (m : Manager) : Manager :=
  <[name := foldl (λ md o, o md) (mkModule [] init true) options]> m.
(** [None]: no such module *)
Definition AddDependency (name : string) (dependsOn : list string) (m : Manager) : option Manager :=
  md ← m !! name;
  Some (<[name := mkModule (deps md ++ dependsOn) (initFn md) (userVisible md)]> m).

Definition lookup_module (m : Manager) (name : string) : result fault module :=
  match m !! name with Some md => Ok md | None => Err (NilModule name) end.

(** [for _, d := range l { acc = append(acc, f(d)...) }] *)
Fixpoint append_all (f : string → result fault (list string)) (l acc : list string) : result fault (list string) :=
  match l with
  | [] => Ok acc
  | d :: l => ds ← f d; append_all f l (acc ++ ds)
  end.
Fixpoint listDeps (fuel : nat) (m : Manager) (name : string) : result fault (list string) :=
  match fuel with
  | O => Err OutOfFuel
  | S fuel =>
      md ← lookup_module m name;
      append_all (listDeps fuel m) (deps md) (deps md)
  end.

Section ordered.
Context `{MapRange}.

(** one round of the outer loop, on the names in the order of the range; the
    flag is read when the name is visited *)
Fixpoint ordered_pass (m : Manager) (names : list string) (uniq : gmap string bool) (res : list string)
    : result fault (gmap string bool * list string) :=
  match names with
  | [] => Ok (uniq, res)
  | name :: names =>
      if default false (uniq !! name) then ordered_pass m names uniq res
      else
        md ← lookup_module m name;
        if forallb (λ dep, default false (uniq !! dep)) (deps md)
        then ordered_pass m names (<[name := true]> uniq) (res ++ [name])
        else ordered_pass m names uniq res
  end.
Fixpoint ordered_loop (fuel : nat) (m : Manager) (uniq : gmap string bool) (res : list string) : result fault (list string) :=
  if bool_decide (length res < size uniq)%nat then
    match fuel with
    | O => Err OutOfFuel
    | S fuel =>
        '(uniq, res) ← ordered_pass m (map_range 187 uniq).*1 uniq res;
        ordered_loop fuel m uniq res
    end
  else Ok res.
Definition uniq_of (ds : list string) : gmap string bool := foldl (λ u dep, <[dep := false]> u) ∅ ds.
Definition orderedDeps (fuel : nat) (m : Manager) (name : string) : result fault (list string) :=
  ds ← listDeps fuel m name;
  ordered_loop fuel m (uniq_of ds) [].

Fixpoint findInverseDependencies (m : Manager) (name : string) (mods : list string) : result fault (list string) :=
  match mods with
  | [] => Ok []
  | n :: mods =>
      md ← lookup_module m n;
      rest ← findInverseDependencies m name mods;
      Ok (if bool_decide (name ∈ deps md) then n :: rest else rest)
  end.
Definition DependenciesForModule (fuel : nat) (m : Manager) (name : string) : result fault (list string) :=
  ds ← listDeps fuel m name;
  let dedup : gmap string bool := foldl (λ u d, <[d := true]> u) ∅ ds in
  Ok (sort_Strings (map_range 232 dedup).*1).

(** ** Initialisation *)
(** [newModuleServiceWrapper]: the service of a module with the names of the
    modules it waits for when it starts and when it stops *)
Record wrapper := mkWrapper { w_service : nat; w_startDeps : list string; w_stopDeps : list string }.
Inductive init_error :=
| UnrecognisedModule (name : string)
| InitError (name : string) (e : E)
| InitFault (f : fault).
(** with the modules whose [initFn] has been called, in order *)
Record init_state := mkInit {
  servicesMap : gmap string wrapper;
  initMap : gset string;
  init_calls : list string
}.

Definition lift {A} (r : result fault A) : result init_error A :=
  match r with Ok a => Ok a | Err f => Err (InitFault f) end.

Definition init_one (fuel : nat) (m : Manager) (n : string) (later : list string) (st : init_state)
    : result init_error init_state :=
  if bool_decide (n ∈ initMap st) then Ok st
  else
    md ← lift (lookup_module m n);
    match initFn md with
    | None => Ok (mkInit (servicesMap st) ({[n]} ∪ initMap st) (init_calls st))
    | Some (Err e) => Err (InitError n e)
    | Some (Ok None) => Ok (mkInit (servicesMap st) ({[n]} ∪ initMap st) (init_calls st ++ [n]))
    | Some (Ok (Some s)) =>
        start ← lift (DependenciesForModule fuel m n);
        stop ← lift (findInverseDependencies m n later);
        Ok (mkInit (<[n := mkWrapper s start stop]> (servicesMap st)) ({[n]} ∪ initMap st) (init_calls st ++ [n]))
    end.
Fixpoint init_list (fuel : nat) (m : Manager) (ds : list string) (st : init_state) : result init_error init_state :=
  match ds with
  | [] => Ok st
  | n :: ds => st ← init_one fuel m n ds st; init_list fuel m ds st
  end.
Definition initModule (fuel : nat) (m : Manager) (name : string) (st : init_state) : result init_error init_state :=
  match m !! name with
  | None => Err (UnrecognisedModule name)
  | Some _ =>
      ds ← lift (orderedDeps fuel m name);
      init_list fuel m (ds ++ [name]) st
  end.
Definition InitModuleServices_state (fuel : nat) (m : Manager) (names : list string) : result init_error init_state :=
  foldl (λ st name, st ← st; initModule fuel m name st) (Ok (mkInit ∅ ∅ [])) names.
Definition InitModuleServices (fuel : nat) (m : Manager) (names : list string) : result init_error (gmap string wrapper) :=
  st ← InitModuleServices_state fuel m names; Ok (servicesMap st).

(** ** Queries *)
Definition UserVisibleModuleNames (m : Manager) : list string :=
  sort_Strings (foldl (λ res '(key, val), if userVisible val then res ++ [key] else res) [] (map_range 132 m)).
Definition IsUserVisibleModule (m : Manager) (name : string) : bool :=
  match m !! name with Some val => userVisible val | None => false end.
Definition IsModuleRegistered (m : Manager) (name : string) : bool := bool_decide (is_Some (m !! name)).
End ordered.
End modules.
Arguments module : clear implicits.
Arguments Manager : clear implicits.
Arguments init_error : clear implicits.
