(* ===== verification/ModulesFacts.v ===== *)
(** * Modules are initialised after their dependencies

    On modules without cycle the dependencies are listed and ordered; on a
    cycle the recursion does not terminate. *)
From Stdlib Require Import ZArith Lia.
From stdpp Require Import base gmap strings list sorting fin_maps fin_sets relations.
From S2P Require Import Prelude Modules.

Section facts.
Context `{R : MapRange} {E : Type} (m : Manager E).

(** [n] depends directly on [d] *)
Definition depends (n d : string) : Prop := ∃ md, m !! n = Some md ∧ d ∈ deps md.

(** ** Cycles *)
Lemma append_all_inv f l acc out d :
  append_all f l acc = Ok out → d ∈ l → ∃ ds, f d = Ok ds.
Proof.
  revert acc. induction l as [|x l IH]; intros acc Ha Hd; [by apply elem_of_nil in Hd|].
  cbn [append_all] in Ha. destruct (f x) as [ds|e] eqn:Hx; [|done]. apply elem_of_cons in Hd as [->|Hd]; [eauto|].
  by eapply IH.
Qed.
Lemma listDeps_direct fuel n ds d :
  listDeps fuel m n = Ok ds → depends n d → ∃ fuel' ds', (fuel' < fuel)%nat ∧ listDeps fuel' m d = Ok ds'.
Proof.
  intros Hl (md & Hmd & Hd). destruct fuel as [|fuel]; [done|]. cbn [listDeps] in Hl. unfold lookup_module in Hl.
  rewrite Hmd in Hl. cbn [mbind result_bind] in Hl. apply (append_all_inv _ _ _ _ d) in Hl as [ds' Hds]; [|done].
  exists fuel, ds'. split; [lia|done].
Qed.
Lemma listDeps_reaches fuel n d :
  tc depends n d → ∀ ds, listDeps fuel m n = Ok ds → ∃ fuel' ds', (fuel' < fuel)%nat ∧ listDeps fuel' m d = Ok ds'.
Proof.
  intros Ht. revert fuel. induction Ht as [n d Hd|n x d Hd _ IH]; intros fuel ds Hl.
  - by eapply listDeps_direct.
  - destruct (listDeps_direct _ _ _ _ Hl Hd) as (f1 & ds1 & Hf1 & Hl1). destruct (IH f1 ds1 Hl1) as (f2 & ds2 & Hf2 & Hl2).
    exists f2, ds2. split; [lia|done].
Qed.
(** on a module that reaches a cycle, [listDeps] never returns *)
Lemma listDeps_cycle n d fuel ds : rtc depends n d → tc depends d d → listDeps fuel m n ≠ Ok ds.
Proof.
  intros Hr Hc. assert (tc depends n d) as Ht by (by eapply tc_rtc_l).
  revert n Hr Ht ds. induction (lt_wf fuel) as [fuel _ IH]. intros n Hr Ht ds Hl.
  destruct (listDeps_reaches _ _ _ Ht _ Hl) as (f1 & ds1 & Hf1 & Hl1).
  by eapply (IH f1 Hf1 d).
Qed.

(** ** Modules without cycle *)
Variable rank : string → nat.
Hypothesis ranked : ∀ n d, depends n d → is_Some (m !! d) ∧ (rank d < rank n)%nat.

Lemma append_all_ok f l acc :
  (∀ d, d ∈ l → ∃ ds, f d = Ok ds ∧ ∀ x, x ∈ ds ↔ tc depends d x) →
  ∃ out, append_all f l acc = Ok out ∧ ∀ x, x ∈ out ↔ x ∈ acc ∨ ∃ d, d ∈ l ∧ tc depends d x.
Proof.
  clear ranked rank. revert acc. induction l as [|d l IH]; intros acc Hf.
  - exists acc. split; [done|]. intros x. split; [by left|]. intros [?|(d & Hd & _)]; [done|by apply elem_of_nil in Hd].
  - destruct (Hf d ltac:(by left)) as (ds & Hds & Hel). cbn [append_all]. rewrite Hds. cbn [mbind result_bind].
    destruct (IH (acc ++ ds)) as (out & -> & Hout); [intros d' Hd'; apply Hf; by right|].
    exists out. split; [done|]. intros x. rewrite Hout, elem_of_app, Hel. setoid_rewrite elem_of_cons. split.
    + intros [[?|?]|(d' & ? & ?)]; eauto.
    + intros [?|(d' & [->|?] & ?)]; eauto.
Qed.

Lemma listDeps_ok fuel n :
  is_Some (m !! n) → (rank n < fuel)%nat → ∃ ds, listDeps fuel m n = Ok ds ∧ ∀ d, d ∈ ds ↔ tc depends n d.
Proof.
  revert n. induction fuel as [|fuel IH]; intros n [md Hmd] Hr; [lia|]. cbn [listDeps]. unfold lookup_module.
  rewrite Hmd. cbn [mbind result_bind].
  destruct (append_all_ok (listDeps fuel m) (deps md) (deps md)) as (out & Hout & Hel).
  { intros d Hd. destruct (ranked n d) as [Hs Hlt]; [by exists md|]. apply IH; [done|lia]. }
  exists out. split; [done|]. intros d. rewrite Hel. split.
  - intros [Hd|(x & Hx & Ht)]; [apply tc_once; by exists md|]. eapply tc_l; [|exact Ht]. by exists md.
  - intros Ht. inversion Ht as [? ? (md' & ? & ?)|? x ? (md' & ? & ?) ?]; simplify_eq; eauto.
Qed.

(** every module of the list comes after its dependencies *)
Definition topological (l : list string) : Prop :=
  ∀ l1 n l2, l = l1 ++ n :: l2 → ∀ d, depends n d → d ∈ l1.

Lemma topological_nil : topological [].
Proof. intros [|? ?]; done. Qed.
Lemma topological_snoc l n : topological l → (∀ d, depends n d → d ∈ l) → topological (l ++ [n]).
Proof.
  intros Ht Hn l1 x l2 Heq. destruct l2 as [|y l2 _] using rev_ind.
  - apply app_inj_tail in Heq as [-> ->]. apply Hn.
  - rewrite app_comm_cons, app_assoc in Heq. apply app_inj_tail in Heq as [-> _]. by eapply Ht.
Qed.

Section passes.
(** the modules to order *)
Variable D : gset string.
Hypothesis D_registered : ∀ n, n ∈ D → is_Some (m !! n).
Hypothesis D_closed : ∀ n d, n ∈ D → depends n d → d ∈ D.

Record pass_inv (uniq : gmap string bool) (res : list string) : Prop := {
  pi_dom : dom uniq = D;
  pi_added : ∀ n, uniq !! n = Some true ↔ n ∈ res;
  pi_NoDup : NoDup res;
  pi_sorted : topological res
}.

Lemma added_true uniq res n : pass_inv uniq res → default false (uniq !! n) = true ↔ n ∈ res.
Proof.
  intros Hi. rewrite <- (pi_added _ _ Hi). destruct (uniq !! n) as [[]|]; simpl; split; done.
Qed.

Lemma ordered_pass_ok names uniq res :
  pass_inv uniq res → (∀ n, n ∈ names → n ∈ D) →
  ∃ uniq' more, ordered_pass m names uniq res = Ok (uniq', res ++ more) ∧ pass_inv uniq' (res ++ more) ∧
    ∀ n, n ∈ names → (∀ d, depends n d → d ∈ res) → n ∈ res ++ more.
Proof.
  revert uniq res. induction names as [|n names IH]; intros uniq res Hi Hn.
  { exists uniq, []. rewrite app_nil_r. split; [done|]. split; [done|]. by intros n ?%elem_of_nil. }
  assert (∀ n, n ∈ names → n ∈ D) as Hn' by (intros x Hx; apply Hn; by right).
  destruct (D_registered n (Hn n ltac:(by left))) as [md Hmd]. cbn [ordered_pass].
  destruct (default false (uniq !! n)) eqn:Had.
  - apply (added_true uniq res n Hi) in Had. destruct (IH uniq res Hi Hn') as (u & more & -> & Hi' & Hall).
    exists u, more. split; [done|]. split; [done|]. intros x [->|Hx]%elem_of_cons Hd; [apply elem_of_app; by left|auto].
  - assert (n ∉ res) as Hnr by (rewrite <- (added_true uniq res n Hi); congruence).
    unfold lookup_module. rewrite Hmd. cbn [mbind result_bind].
    destruct (forallb _ _) eqn:Hfb.
    + rewrite forallb_forall in Hfb.
      assert (∀ d, depends n d → d ∈ res) as Hdeps.
      { intros d (md' & Hmd' & Hd). simplify_eq. apply (added_true uniq res d Hi), Hfb, list_elem_of_In, Hd. }
      destruct (IH (<[n := true]> uniq) (res ++ [n])) as (u & more & -> & Hi' & Hall); [|done|].
      { constructor.
        - rewrite dom_insert_L, (pi_dom _ _ Hi). specialize (Hn n ltac:(by left)). set_solver.
        - intros x. rewrite elem_of_app, list_elem_of_singleton, <- (pi_added _ _ Hi). destruct (decide (x = n)) as [->|Hx].
          + rewrite lookup_insert_eq. naive_solver.
          + rewrite lookup_insert_ne by done. naive_solver.
        - apply NoDup_app. split; [apply Hi|]. split; [|apply NoDup_singleton]. by intros x Hx ->%list_elem_of_singleton.
        - apply topological_snoc; [apply Hi|done]. }
      exists u, (n :: more). rewrite <- app_assoc in Hi', Hall |- *. split; [done|]. split; [done|].
      intros x [->|Hx]%elem_of_cons Hd; [apply elem_of_app; right; by left|]. apply Hall; [done|].
      intros d Hxd. apply elem_of_app. left. auto.
    + destruct (IH uniq res Hi Hn') as (u & more & -> & Hi' & Hall). exists u, more. split; [done|]. split; [done|].
      intros x [->|Hx]%elem_of_cons Hd; [|auto]. exfalso. apply not_true_iff_false in Hfb. apply Hfb, forallb_forall.
      intros d Hdd%list_elem_of_In. apply (added_true uniq res d Hi), Hd. by exists md.
Qed.

(** a module that is missing has one whose dependencies are all there *)
Lemma minimal_missing (res : list string) n : n ∈ D → n ∉ res → ∃ x, x ∈ D ∧ x ∉ res ∧ ∀ d, depends x d → d ∈ res.
Proof.
  remember (rank n) as r eqn:Hr. revert n Hr. induction (lt_wf r) as [r _ IH]. intros n -> Hn Hnr.
  destruct (D_registered n Hn) as [md Hmd].
  destruct (decide (Forall (λ d, d ∈ res) (deps md))) as [Hall|Hex].
  - exists n. split; [done|]. split; [done|]. intros d (md' & ? & Hd). simplify_eq. rewrite Forall_forall in Hall. auto.
  - apply not_Forall_Exists in Hex; [|intros ?; apply _]. apply Exists_exists in Hex as (d & Hd & Hdr).
    assert (depends n d) as Hdep by by exists md. destruct (ranked n d Hdep) as [_ Hlt].
    apply (IH (rank d) Hlt d eq_refl); [by eapply D_closed|done].
Qed.

Lemma missing_exists uniq res : pass_inv uniq res → (length res < size uniq)%nat → ∃ n, n ∈ D ∧ n ∉ res.
Proof.
  intros Hi Hlt. destruct (set_choose_or_empty (D ∖ list_to_set res)) as [[n Hn]|He].
  - exists n. clear -Hn. set_solver.
  - exfalso. assert (D ⊆ list_to_set res) as Hsub by (clear -He; set_solver). apply subseteq_size in Hsub.
    rewrite <- (pi_dom _ _ Hi), size_dom, size_list_to_set in Hsub by apply Hi. lia.
Qed.

Lemma ordered_loop_ok fuel uniq res :
  pass_inv uniq res → (size uniq - length res ≤ fuel)%nat →
  ∃ out, ordered_loop fuel m uniq res = Ok out ∧ NoDup out ∧ topological out ∧ ∀ n, n ∈ out ↔ n ∈ D.
Proof.
  revert uniq res. induction fuel as [|fuel IH]; intros uniq res Hi Hf; cbn [ordered_loop]; case_bool_decide as Hlt.
  1: lia.
  2: destruct (ordered_pass_ok (map_range 187 uniq).*1 uniq res Hi) as (u & more & Hpass & Hi' & Hall).
  2: { intros n ([x b] & -> & Hn%map_range_elem)%list_elem_of_fmap. rewrite <- (pi_dom _ _ Hi). simpl. by eapply elem_of_dom_2. }
  2: { destruct (missing_exists uniq res Hi Hlt) as (n & Hn & Hnr). destruct (minimal_missing res n Hn Hnr) as (x & Hx & Hxr & Hd).
    assert (x ∈ res ++ more) as Hin.
    { apply Hall; [|done]. rewrite <- (pi_dom _ _ Hi) in Hx. apply elem_of_dom in Hx as [b Hb].
      apply list_elem_of_fmap. exists (x, b). by rewrite map_range_elem. }
    assert (more ≠ []) as Hm by (intros ->; by rewrite app_nil_r in Hin).
    rewrite Hpass. cbn [mbind result_bind]. apply IH; [done|].
    rewrite <- !(size_dom (D:=gset string)), (pi_dom _ _ Hi'), <- (pi_dom _ _ Hi), size_dom, length_app.
    destruct more; [done|simpl; lia]. }
  all: exists res; split; [done|]; split; [apply Hi|]; split; [apply Hi|]; intros n; split;
    [intros Hn%(pi_added _ _ Hi); rewrite <- (pi_dom _ _ Hi); by eapply elem_of_dom_2|];
    intros Hn; destruct (decide (n ∈ res)) as [?|Hnr]; [done|]; exfalso;
    assert (size (list_to_set (n :: res) : gset string) ≤ size D)%nat as Hsz;
    [apply subseteq_size; intros x [->|Hx]%elem_of_list_to_set%elem_of_cons; [done|];
     apply (pi_added _ _ Hi) in Hx; rewrite <- (pi_dom _ _ Hi); by eapply elem_of_dom_2
    |rewrite size_list_to_set in Hsz by (constructor; [done|apply Hi]); rewrite <- (pi_dom _ _ Hi), size_dom in Hsz; simpl in Hsz; lia].
Qed.
End passes.

Lemma uniq_of_lookup ds n : uniq_of ds !! n = if decide (n ∈ ds) then Some false else None.
Proof.
  unfold uniq_of. assert (∀ (ds : list string) (u : gmap string bool),
    foldl (λ u dep, <[dep := false]> u) u ds !! n = if decide (n ∈ ds) then Some false else u !! n) as Hl.
  { clear. induction ds as [|d ds IH]; intros u; [done|]. simpl. rewrite IH. destruct (decide (n = d)) as [->|Hne].
    - rewrite lookup_insert_eq. rewrite (decide_True (P:=d ∈ d :: ds)) by (by left). by destruct (decide (d ∈ ds)).
    - rewrite lookup_insert_ne by done. destruct (decide (n ∈ ds)); [rewrite decide_True by (by right)|rewrite decide_False by (by intros [?|?]%elem_of_cons)]; done. }
  rewrite Hl. by rewrite lookup_empty.
Qed.

Lemma tc_registered n d : tc depends n d → is_Some (m !! d).
Proof. induction 1 as [n d Hd|n x d _ _ IH]; [by apply (ranked n d Hd)|done]. Qed.

Lemma orderedDeps_ok fuel n :
  is_Some (m !! n) → (rank n < fuel)%nat → (size m ≤ fuel)%nat →
  ∃ out, orderedDeps fuel m n = Ok out ∧ NoDup out ∧ topological out ∧ ∀ d, d ∈ out ↔ tc depends n d.
Proof.
  intros Hn Hr Hs. destruct (listDeps_ok fuel n Hn Hr) as (ds & Hds & Hel). unfold orderedDeps. rewrite Hds. cbn [mbind result_bind].
  set (D := list_to_set ds : gset string).
  assert (∀ x, x ∈ D ↔ tc depends n x) as HD by (intros x; unfold D; by rewrite elem_of_list_to_set).
  assert (dom (uniq_of ds) = D) as Hdom.
  { apply set_eq. intros x. unfold D. rewrite elem_of_dom, uniq_of_lookup, elem_of_list_to_set.
    case_decide; (split; [|done || by intros _; eexists]); [done|by intros [? [=]]]. }
  destruct (ordered_loop_ok D) with (fuel := fuel) (uniq := uniq_of ds) (res := @nil string) as (out & Ho & Hnd & Ht & Hin).
  - intros x Hx. apply (tc_registered n), HD, Hx.
  - intros x d Hx Hd. apply HD. apply HD in Hx. by eapply tc_r.
  - constructor; [done| |constructor|apply topological_nil]. intros x. rewrite uniq_of_lookup, elem_of_nil.
    case_decide; split; done.
  - rewrite <- (size_dom (D:=gset string)), Hdom. simpl.
    assert (size D ≤ size m)%nat as Hsz; [|simpl; lia]. transitivity (size (dom (m : gmap string (module E)) : gset string)); [|by rewrite size_dom].
    apply subseteq_size. intros x Hx%HD. apply elem_of_dom. by eapply tc_registered.
  - exists out. split; [done|]. split; [done|]. split; [done|]. intros d. rewrite Hin. apply HD.
Qed.
End facts.

(** ** Initialisation *)
Section init.
Context `{R : MapRange} {E : Type} (m : Manager E).
Variable rank : string → nat.
Hypothesis ranked : ∀ n d, depends m n d → is_Some (m !! d) ∧ (rank d < rank n)%nat.
Variable fuel : nat.
Hypothesis fuel_rank : ∀ n, (rank n < fuel)%nat.
Hypothesis fuel_size : (size m ≤ fuel)%nat.

(** a module whose [initFn] is not [nil] *)
Definition has_init (n : string) : Prop := ∃ md f, m !! n = Some md ∧ initFn md = Some f.

Record init_inv (st : init_state) : Prop := {
  ii_NoDup : NoDup (init_calls st);
  ii_calls : ∀ n, n ∈ init_calls st ↔ n ∈ initMap st ∧ has_init n;
  ii_closed : ∀ n d, n ∈ initMap st → depends m n d → d ∈ initMap st;
  ii_sorted : ∀ l1 n l2, init_calls st = l1 ++ n :: l2 → ∀ d, tc (depends m) n d → has_init d → d ∈ l1;
  ii_services : ∀ n w, servicesMap st !! n = Some w ↔
    n ∈ initMap st ∧ (∃ md, m !! n = Some md ∧ initFn md = Some (Ok (Some (w_service w)))) ∧ servicesMap st !! n = Some w;
  ii_startDeps : ∀ n w, servicesMap st !! n = Some w → ∀ d, d ∈ w_startDeps w ↔ tc (depends m) n d
}.

Lemma closed_tc st n d : init_inv st → n ∈ initMap st → tc (depends m) n d → d ∈ initMap st.
Proof.
  intros Hi Hn Ht. revert Hn. induction Ht as [n d Hd|n x d Hd _ IH]; intros Hn; [|apply IH]; by eapply (ii_closed _ Hi).
Qed.

Lemma findInverse_ok n mods :
  (∀ x, x ∈ mods → is_Some (m !! x)) → ∃ l, findInverseDependencies m n mods = Ok l ∧ ∀ x, x ∈ l ↔ x ∈ mods ∧ depends m x n.
Proof.
  clear. induction mods as [|x mods IH]; intros Hr.
  - exists []. split; [done|]. intros x. rewrite elem_of_nil. tauto.
  - destruct (Hr x ltac:(by left)) as [md Hmd]. cbn [findInverseDependencies]. unfold lookup_module. rewrite Hmd. cbn [mbind result_bind].
    destruct IH as (l & -> & Hl); [intros y Hy; apply Hr; by right|]. cbn [mbind result_bind].
    assert (depends m x n ↔ n ∈ deps md) as Hd.
    { split; [intros (md' & ? & ?); by simplify_eq|by exists md]. }
    eexists. split; [done|]. intros y. case_bool_decide; rewrite ?elem_of_cons, ?Hl; naive_solver.
Qed.

Lemma DependenciesForModule_ok n :
  is_Some (m !! n) → ∃ l, DependenciesForModule fuel m n = Ok l ∧ ∀ d, d ∈ l ↔ tc (depends m) n d.
Proof.
  intros Hn. destruct (listDeps_ok m rank ranked fuel n Hn (fuel_rank n)) as (ds & Hds & Hel).
  unfold DependenciesForModule. rewrite Hds. cbn [mbind result_bind]. eexists. split; [done|]. intros d.
  unfold sort_Strings. rewrite merge_sort_Permutation, <- Hel.
  assert (∀ (ds : list string) (u : gmap string bool) k,
    is_Some (foldl (λ u d, <[d := true]> u) u ds !! k) ↔ k ∈ ds ∨ is_Some (u !! k)) as Hk.
  { clear. induction ds as [|x ds IH]; intros u k; simpl; [rewrite elem_of_nil; tauto|].
    rewrite IH, elem_of_cons. destruct (decide (k = x)) as [->|Hne]; [rewrite lookup_insert_eq|rewrite lookup_insert_ne by done; tauto].
    split; [by eauto|intros _; right; by eexists]. }
  specialize (Hk ds ∅ d). rewrite lookup_empty in Hk. rewrite list_elem_of_fmap. split.
  - intros ([k b] & -> & Hin%map_range_elem). destruct Hk as [Hk _]. destruct Hk as [?|[? [=]]]; [by eexists|done].
  - intros Hd. destruct Hk as [_ Hk]. destruct Hk as [b Hb]; [by left|]. exists (d, b). by rewrite map_range_elem.
Qed.

Definition good (r : result (init_error E) init_state) (P : init_state → Prop) : Prop :=
  match r with
  | Ok st => init_inv st ∧ P st
  | Err (InitError n e) => ∃ md, m !! n = Some md ∧ initFn md = Some (Err e)
  | Err (UnrecognisedModule n) => m !! n = None
  | Err (InitFault _) => False
  end.

(** a module is added to those that are initialised *)
Lemma init_inv_add st n call svc :
  init_inv st → n ∉ initMap st → (∀ d, depends m n d → d ∈ initMap st) →
  (call = true ↔ has_init n) →
  (∀ w, svc = Some w → (∃ md, m !! n = Some md ∧ initFn md = Some (Ok (Some (w_service w)))) ∧ ∀ d, d ∈ w_startDeps w ↔ tc (depends m) n d) →
  init_inv (mkInit (match svc with Some w => <[n := w]> (servicesMap st) | None => servicesMap st end)
              ({[n]} ∪ initMap st) (if call then init_calls st ++ [n] else init_calls st)).
Proof.
  intros Hi Hn Hdeps Hcall Hsvc. assert (n ∉ init_calls st) as Hnc by (rewrite (ii_calls _ Hi); tauto).
  assert (∀ d, tc (depends m) n d → d ∈ initMap st) as Htc.
  { intros d Ht. inversion Ht as [? ? Hd|? x ? Hd Ht']; subst; [by apply Hdeps|]. eapply closed_tc; [done| |exact Ht']. by apply Hdeps. }
  constructor; simpl.
  - destruct call; [|apply Hi]. apply NoDup_app. split; [apply Hi|]. split; [|apply NoDup_singleton].
    by intros x Hx ->%list_elem_of_singleton.
  - intros x. rewrite elem_of_union, elem_of_singleton.
    assert (x ∈ (if call then init_calls st ++ [n] else init_calls st) ↔ x ∈ init_calls st ∨ call = true ∧ x = n) as ->.
    { destruct call; [rewrite elem_of_app, list_elem_of_singleton|]; naive_solver. }
    rewrite (ii_calls _ Hi). naive_solver.
  - intros x d. rewrite !elem_of_union, !elem_of_singleton. intros [->|Hx] Hd; right; [by apply Hdeps|by eapply (ii_closed _ Hi)].
  - intros l1 x l2 Heq d Ht Hin. destruct call; [|by eapply (ii_sorted _ Hi)].
    destruct l2 as [|y l2 _] using rev_ind.
    + apply app_inj_tail in Heq as [<- <-]. apply (ii_calls _ Hi). auto.
    + rewrite app_comm_cons, app_assoc in Heq. apply app_inj_tail in Heq as [Heq _]. by eapply (ii_sorted _ Hi).
  - intros x w. split; [|tauto]. intros Hw. split; [|split; [|done]]; destruct svc as [v|];
      try (apply lookup_insert_Some in Hw as [(<- & <-)|(Hx & Hw)]); try (apply (ii_services _ Hi) in Hw as (? & ? & _));
      try done; try (clear -H; set_solver); try (by apply Hsvc); set_solver.
  - intros x w Hw. destruct svc as [v|]; [|by apply (ii_startDeps _ Hi)].
    apply lookup_insert_Some in Hw as [(<- & <-)|(Hx & Hw)]; [by apply Hsvc|by apply (ii_startDeps _ Hi)].
Qed.

Lemma init_one_ok n later st :
  init_inv st → is_Some (m !! n) → (∀ d, depends m n d → d ∈ initMap st) → (∀ x, x ∈ later → is_Some (m !! x)) →
  good (init_one fuel m n later st) (λ st', initMap st ⊆ initMap st' ∧ n ∈ initMap st').
Proof.
  intros Hi Hn Hd Hl. unfold init_one. case_bool_decide as Hin; [by split|]. destruct Hn as [md Hmd].
  unfold lookup_module. rewrite Hmd. cbn [lift mbind result_bind].
  assert (∀ f, initFn md = f → (f ≠ None ↔ has_init n)) as Hhas.
  { intros f Hf. split; [intros Hne; destruct f as [f|]; [by exists md, f|done]|intros (md' & f' & ? & ?); simplify_eq; congruence]. }
  destruct (initFn md) as [[[s|]|e]|] eqn:Hf.
  - destruct (DependenciesForModule_ok n ltac:(by eexists)) as (start & -> & Hstart). cbn [lift mbind result_bind].
    destruct (findInverse_ok n later Hl) as (stop & -> & _). cbn [lift mbind result_bind]. split; [|simpl; set_solver].
    apply (init_inv_add st n true (Some (mkWrapper s start stop)) Hi Hin Hd); [by rewrite <- (Hhas _ eq_refl)|].
    intros w [= <-]. split; [by exists md|done].
  - split; [|simpl; set_solver]. apply (init_inv_add st n true None Hi Hin Hd); [by rewrite <- (Hhas _ eq_refl)|done].
  - exists md. done.
  - split; [|simpl; set_solver]. apply (init_inv_add st n false None Hi Hin Hd); [by rewrite <- (Hhas _ eq_refl)|done].
Qed.

Lemma init_list_ok ds st :
  init_inv st → (∀ n, n ∈ ds → is_Some (m !! n)) →
  (∀ l1 n l2, ds = l1 ++ n :: l2 → ∀ d, depends m n d → d ∈ l1 ∨ d ∈ initMap st) →
  good (init_list fuel m ds st) (λ st', initMap st ⊆ initMap st' ∧ ∀ n, n ∈ ds → n ∈ initMap st').
Proof.
  revert st. induction ds as [|n ds IH]; intros st Hi Hreg Htop; cbn [init_list].
  { split; [done|]. split; [done|]. by intros n ?%elem_of_nil. }
  pose proof (init_one_ok n ds st Hi) as Hone.
  destruct (init_one fuel m n ds st) as [st1|e]; cbn [mbind result_bind].
  - destruct Hone as (Hi1 & Hsub & Hn1).
    { apply Hreg. by left. }
    { intros d Hd. destruct (Htop [] n ds eq_refl d Hd) as [Hnil|]; [by apply elem_of_nil in Hnil|done]. }
    { intros x Hx. apply Hreg. by right. }
    specialize (IH st1 Hi1 (λ x Hx, Hreg x ltac:(by right))).
    destruct (init_list fuel m ds st1) as [st2|e].
    + destruct IH as (Hi2 & Hsub2 & Hall).
      { intros l1 x l2 -> d Hd. destruct (Htop (n :: l1) x l2 eq_refl d Hd) as [[->|?]%elem_of_cons|?]; auto. }
      split; [done|]. split; [by etrans|]. intros x [->|Hx]%elem_of_cons; auto.
    + apply IH. intros l1 x l2 -> d Hd. destruct (Htop (n :: l1) x l2 eq_refl d Hd) as [[->|?]%elem_of_cons|?]; auto.
  - apply Hone; [apply Hreg; by left| |intros x Hx; apply Hreg; by right].
    intros d Hd. destruct (Htop [] n ds eq_refl d Hd) as [Hnil|]; [by apply elem_of_nil in Hnil|done].
Qed.

Lemma initModule_ok n st :
  init_inv st → good (initModule fuel m n st) (λ st', initMap st ⊆ initMap st' ∧ n ∈ initMap st').
Proof.
  intros Hi. unfold initModule. destruct (m !! n) as [md|] eqn:Hmd; [|done].
  destruct (orderedDeps_ok m rank ranked fuel n) as (ds & -> & Hnd & Htop & Hel); [by eexists|done|done|].
  cbn [lift mbind result_bind].
  pose proof (init_list_ok (ds ++ [n]) st Hi) as Hl.
  destruct (init_list fuel m (ds ++ [n]) st) as [st'|e]; [|apply Hl].
  - destruct Hl as (Hi' & Hsub & Hall).
    + intros x [Hx%Hel| ->%list_elem_of_singleton]%elem_of_app; [by eapply tc_registered|by eexists].
    + assert (topological m (ds ++ [n])) as Ht.
      { apply topological_snoc; [done|]. intros d Hd. apply Hel. by apply tc_once. }
      intros l1 x l2 Heq d Hd. left. by eapply Ht.
    + split; [done|]. split; [done|]. apply Hall. apply elem_of_app. right. by left.
  - intros x [Hx%Hel| ->%list_elem_of_singleton]%elem_of_app; [by eapply tc_registered|by eexists].
  - assert (topological m (ds ++ [n])) as Ht.
    { apply topological_snoc; [done|]. intros d Hd. apply Hel. by apply tc_once. }
    intros l1 x l2 Heq d Hd. left. by eapply Ht.
Qed.

Lemma init_modules_ok names st :
  init_inv st →
  good (foldl (λ st name, st ← st; initModule fuel m name st) (Ok st) names)
    (λ st', initMap st ⊆ initMap st' ∧ ∀ n, n ∈ names → n ∈ initMap st').
Proof.
  revert st. induction names as [|n names IH]; intros st Hi; [split; [done|]; split; [done|]; by intros n ?%elem_of_nil|].
  cbn [foldl mbind result_bind]. pose proof (initModule_ok n st Hi) as Hn.
  destruct (initModule fuel m n st) as [st1|e].
  - destruct Hn as (Hi1 & Hsub & Hn1). specialize (IH st1 Hi1).
    destruct (foldl _ (Ok st1) names) as [st2|e]; [|done]. destruct IH as (Hi2 & Hsub2 & Hall). split; [done|].
    split; [by etrans|]. intros x [->|Hx]%elem_of_cons; auto.
  - assert (∀ l, foldl (λ st name, st ← st; initModule fuel m name st) (Err e) l = Err e) as -> by (induction l; done). done.
Qed.

Lemma init_inv_empty : init_inv (mkInit ∅ ∅ []).
Proof.
  constructor; simpl; try done; [constructor|..].
  - intros n. rewrite elem_of_nil. split; [done|]; intros [Hn _]; by apply not_elem_of_empty in Hn.
  - intros [|? ?]; done.
  - intros n w. rewrite lookup_empty. split; [done|]. by intros (_ & _ & ?).
Qed.

(** *** The modules that are waited for when stopping *)
(** the module asked for in whose pass [n] is initialised: the first that is [n] or
    depends on it *)
Definition needs (t n : string) : Prop := n = t ∨ tc (depends m) t n.
Definition pass_of (names : list string) (n t : string) : Prop :=
  ∃ l1 l2, names = l1 ++ t :: l2 ∧ needs t n ∧ ∀ t', t' ∈ l1 → ¬ needs t' n.
Lemma pass_unique names n t t' : pass_of names n t → pass_of names n t' → t = t'.
Proof.
  intros (l1 & l2 & Heq & Hn & Hf) (l1' & l2' & Heq' & Hn' & Hf'). rewrite Heq in Heq'.
  apply app_eq_inv in Heq' as [(k & Hk1 & Hk2)|(k & Hk1 & Hk2)]; destruct k as [|y k]; simpl in Hk2; injection Hk2 as Hy _; try congruence;
    exfalso; [apply (Hf t')|apply (Hf' t)]; try done; subst; apply elem_of_app; right; by left.
Qed.
(** the others of the pass that depend on it directly *)
Definition stop_inv (names : list string) (st : init_state) : Prop :=
  ∀ n w, servicesMap st !! n = Some w → ∃ t, pass_of names n t ∧ ∀ x, x ∈ w_stopDeps w ↔ depends m x n ∧ needs t x.

Lemma init_one_stop n later st st' : (∀ x, x ∈ later → is_Some (m !! x)) → init_one fuel m n later st = Ok st' →
  initMap st ⊆ initMap st' ∧ (servicesMap st' = servicesMap st ∨
  n ∉ initMap st ∧ ∃ w, servicesMap st' = <[n := w]> (servicesMap st) ∧ ∀ x, x ∈ w_stopDeps w ↔ x ∈ later ∧ depends m x n).
Proof.
  clear ranked fuel_rank fuel_size. intros Hl. unfold init_one. case_bool_decide as Hin; [intros [= <-]; by split; [|left]|].
  destruct (lookup_module m n) as [md|f]; cbn [lift mbind result_bind]; [|done].
  destruct (initFn md) as [[[s|]|e]|]; [|intros [= <-]; simpl; split; [set_solver|by left]|done|intros [= <-]; simpl; split; [set_solver|by left]].
  destruct (DependenciesForModule fuel m n) as [start|f]; cbn [lift mbind result_bind]; [|done].
  destruct (findInverse_ok n later Hl) as (stop & -> & Hstop). cbn [lift mbind result_bind]. intros [= <-]. simpl.
  split; [set_solver|]. right. split; [done|]. by eexists.
Qed.

Lemma later_in_pass L pre n later x : NoDup L → topological m L → L = pre ++ n :: later → depends m x n → x ∈ later ↔ x ∈ L.
Proof.
  clear ranked fuel_rank fuel_size. intros Hnd Ht -> Hd. split; [intros Hx; apply elem_of_app; right; by right|]. intros Hx.
  apply list_elem_of_split in Hx as (l1 & l2 & Heq). pose proof (Ht l1 x l2 Heq n Hd) as Hn.
  rewrite Heq in Hnd. apply NoDup_app in Hnd as (_ & Hdis & Hnd).
  assert (n ∉ x :: l2) as Hn2 by by apply Hdis.
  apply app_eq_inv in Heq as [(k & -> & Hk)|(k & -> & Hk)].
  - exfalso. apply Hn2. rewrite Hk. apply elem_of_app. right. by left.
  - destruct k as [|y k]; simpl in Hk; injection Hk as -> ->; [exfalso; apply Hn2; by left|]. apply elem_of_app. right. by left.
Qed.

Lemma init_list_stop L ds st st' : NoDup L → topological m L → (∀ x, x ∈ L → is_Some (m !! x)) →
  (∃ pre, L = pre ++ ds) → init_list fuel m ds st = Ok st' →
  ∀ n w, servicesMap st' !! n = Some w → servicesMap st !! n = Some w ∨
    (n ∉ initMap st ∧ n ∈ L ∧ ∀ x, x ∈ w_stopDeps w ↔ depends m x n ∧ x ∈ L).
Proof.
  clear ranked fuel_rank fuel_size. intros Hnd Ht Hreg. revert st. induction ds as [|d ds IH]; intros st [pre HL]; cbn [init_list]; [intros [= <-]; by left|].
  destruct (init_one fuel m d ds st) as [st1|e] eqn:Hone; cbn [mbind result_bind]; [|done]. intros Hrest n w Hn.
  assert (∀ x, x ∈ ds → is_Some (m !! x)) as Hl by (intros x Hx; apply Hreg; rewrite HL; apply elem_of_app; right; by right).
  apply init_one_stop in Hone as [Hsub Hsvc]; [|done].
  destruct (IH st1) with (n := n) (w := w) as [H1|(Hni & HnL & Hw)]; [exists (pre ++ [d]); by rewrite <- app_assoc|done|done| |right; split; [set_solver|done]].
  destruct Hsvc as [Heq|(Hnew & w1 & Hs1 & Hw1)]; [left; by rewrite <- Heq|]. rewrite Hs1 in H1.
  apply lookup_insert_Some in H1 as [[<- <-]|[_ ?]]; [right|by left]. split; [done|]. split; [rewrite HL; apply elem_of_app; right; by left|].
  intros x. rewrite Hw1. pose proof (later_in_pass L pre d ds x Hnd Ht HL) as Hlater. naive_solver.
Qed.

Lemma stop_inv_snoc names t st st' : init_inv st → (∀ n, n ∈ names → n ∈ initMap st) → stop_inv names st →
  initModule fuel m t st = Ok st' → stop_inv (names ++ [t]) st'.
Proof.
  intros Hi Hall Hst. unfold initModule. destruct (m !! t) as [md|] eqn:Hmd; [|done].
  destruct (orderedDeps_ok m rank ranked fuel t) as (ds & -> & Hnd & Htop & Hel); [by eexists|done|done|]. cbn [lift mbind result_bind]. intros Hl.
  assert (∀ x, x ∈ ds ++ [t] ↔ needs t x) as HL by (intros x; rewrite elem_of_app, list_elem_of_singleton, Hel; unfold needs; tauto).
  assert (¬ tc (depends m) t t) as Hirr.
  { assert (∀ a c, tc (depends m) a c → (rank c < rank a)%nat) as Hrk; [|intros H; apply Hrk in H; lia].
    induction 1 as [a c Hd|a c e Hd _ IH]; [by apply (ranked a c)|]. pose proof (proj2 (ranked _ _ Hd)). lia. }
  intros n w Hn. destruct (init_list_stop (ds ++ [t]) (ds ++ [t]) st st') with (n := n) (w := w) as [Hold|(Hni & HnL & Hw)].
  - apply NoDup_app. split; [done|]. split; [|apply NoDup_singleton]. intros x Hx ->%list_elem_of_singleton. by apply Hirr, Hel.
  - apply topological_snoc; [done|]. intros d Hd. apply Hel. by apply tc_once.
  - intros x [->|Hx]%HL; [by eexists|by eapply tc_registered].
  - by exists [].
  - done.
  - done.
  - destruct (Hst n w Hold) as (t0 & (l1 & l2 & -> & Hneed & Hfirst) & Hw). exists t0. split; [|done].
    exists l1, (l2 ++ [t]). by rewrite <- app_assoc.
  - exists t. split.
    + exists names, []. split; [done|]. split; [by apply HL|]. intros t' Ht' [->|Htc]; apply Hni; [by apply Hall|].
      eapply closed_tc; [done|by apply Hall|done].
    + intros x. by rewrite Hw, HL.
Qed.

Lemma init_modules_stop names st :
  foldl (λ st name, st ← st; initModule fuel m name st) (Ok (mkInit ∅ ∅ [])) names = Ok st → stop_inv names st.
Proof.
  revert st. induction names as [|t names IH] using rev_ind; intros st.
  - intros [= <-] n w Hn. simpl in Hn. by rewrite lookup_empty in Hn.
  - rewrite foldl_snoc. pose proof (init_modules_ok names _ init_inv_empty) as Hg.
    destruct (foldl _ _ names) as [st0|e]; [|done]. cbn [mbind result_bind]. destruct Hg as (Hi & _ & Hall).
    by apply stop_inv_snoc; [..|apply IH].
Qed.
End init.

(** C29. On modules without a cycle ([rank] decreases along the dependencies,
    which are all registered), [InitModuleServices] terminates; unless an
    [initFn] fails or an unknown module is asked for, the modules asked for and
    all they depend on are initialised, each once and after everything it
    depends on, and the service of a module waits for exactly the modules it
    depends on, directly or not. *)
Theorem InitModuleServices_order `{R : MapRange} {E : Type} (m : Manager E) (rank : string → nat) (fuel : nat) (names : list string) :
  (∀ n d, depends m n d → is_Some (m !! d) ∧ (rank d < rank n)%nat) →
  (∀ n, (rank n < fuel)%nat) → (size m ≤ fuel)%nat →
  match InitModuleServices_state fuel m names with
  | Ok st =>
      (∀ n, n ∈ names → n ∈ initMap st ∧ ∀ d, tc (depends m) n d → d ∈ initMap st) ∧
      NoDup (init_calls st) ∧ (∀ n, n ∈ init_calls st ↔ n ∈ initMap st ∧ has_init m n) ∧
      (∀ l1 n l2 d, init_calls st = l1 ++ n :: l2 → tc (depends m) n d → has_init m d → d ∈ l1) ∧
      (∀ n w d, servicesMap st !! n = Some w → d ∈ w_startDeps w ↔ tc (depends m) n d)
  | Err (InitError n e) => ∃ md, m !! n = Some md ∧ initFn md = Some (Err e)
  | Err (UnrecognisedModule n) => m !! n = None
  | Err (InitFault _) => False
  end.
Proof.
  intros Hr Hf Hs. pose proof (init_modules_ok m rank Hr fuel Hf Hs names _ (init_inv_empty m)) as Hg.
  unfold InitModuleServices_state. destruct (foldl _ _ names) as [st|e]; [|exact Hg].
  destruct Hg as (Hi & _ & Hall). split; [|split; [apply Hi|split; [apply Hi|split]]].
  - intros n Hn. split; [auto|]. intros d Ht. eapply closed_tc; [done| |exact Ht]. auto.
  - intros l1 n l2 d Heq Ht Hd. by eapply (ii_sorted _ _ Hi).
  - intros n w d Hw. by apply (ii_startDeps _ _ Hi).
Qed.

(** ** Witness, and a dependency that is not waited for *)
Section witness.
#[local] Existing Instance map_range_std.

(** [store] is used by [ingester] and by [querier] *)
Definition ex_manager : gmap string (module unit) := {[
  "store" := mkModule [] (Some (Ok (Some 1%nat))) false;
  "ingester" := mkModule ["store"; "logs"] (Some (Ok (Some 2%nat))) true;
  "querier" := mkModule ["ingester"; "store"] (Some (Ok (Some 3%nat))) true;
  "logs" := mkModule [] None true ]}.
Definition ex_rank (n : string) : nat :=
  if decide (n = "querier"%string) then 2 else if decide (n = "ingester"%string) then 1 else 0.

Lemma ex_ranked n d : depends ex_manager n d → is_Some (ex_manager !! d) ∧ (ex_rank d < ex_rank n)%nat.
Proof.
  intros (md & Hmd & Hd). change ((ex_manager : gmap string (module unit)) !! n = Some md) in Hmd. unfold ex_manager in Hmd.
  repeat (apply lookup_insert_Some in Hmd as [[<- <-]|[_ Hmd]]); [..|apply lookup_singleton_Some in Hmd as [<- <-]]; simpl in Hd;
    repeat (apply elem_of_cons in Hd as [->|Hd]); try (by apply elem_of_nil in Hd);
    (split; [vm_compute; by eexists|vm_compute; lia]).
Qed.

Definition ex_init : init_state :=
  match InitModuleServices_state 4 ex_manager ["querier"] with Ok st => st | Err _ => mkInit ∅ ∅ [] end.
Lemma ex_init_run :
  InitModuleServices_state 4 ex_manager ["querier"] = Ok ex_init ∧ init_calls ex_init = ["store"; "ingester"; "querier"].
Proof. split; vm_compute; reflexivity. Qed.

Lemma InitModuleServices_order_witness : NoDup (init_calls ex_init).
Proof.
  pose proof (InitModuleServices_order ex_manager ex_rank 4 ["querier"] ex_ranked) as H.
  rewrite (proj1 ex_init_run) in H. apply H.
  - intros n. unfold ex_rank. destruct (decide _); [lia|]. destruct (decide _); lia.
  - vm_compute. lia.
Defined.

(** When [ingester] and [querier] are both asked for, [store] is initialised
    with the first one and only waits for the modules of that pass: it stops
    without waiting for [querier], which depends on it. *)
Example inverse_dependencies_missed :
  depends ex_manager "querier" "store" ∧
  match InitModuleServices 4 ex_manager ["ingester"; "querier"] with
  | Ok svcs => w_stopDeps <$> svcs !! "store"%string = Some ["ingester"]
  | Err _ => False
  end.
Proof.
  split; [|vm_compute; reflexivity]. exists (mkModule ["ingester"; "store"] (Some (Ok (Some 3%nat))) true).
  split; [vm_compute; reflexivity|]. right. by left.
Qed.

(** A module waits when it starts for all it depends on, directly or not, and when it
    stops only for those that depend on it directly.  [gateway] depends on [store]
    through [logs], which has no service: nothing makes [store] wait for [gateway]. *)
Definition ex_through : gmap string (module unit) := {[
  "store" := mkModule [] (Some (Ok (Some 1%nat))) false;
  "logs" := mkModule ["store"] None true;
  "gateway" := mkModule ["logs"] (Some (Ok (Some 2%nat))) true ]}.
Example dependants_through_others_missed :
  tc (depends ex_through) "gateway" "store" ∧
  match InitModuleServices 4 ex_through ["gateway"] with
  | Ok svcs => w_startDeps <$> svcs !! "gateway"%string = Some ["logs"; "store"] ∧ w_stopDeps <$> svcs !! "store"%string = Some ["logs"] ∧
      svcs !! "logs"%string = None
  | Err _ => False
  end.
Proof.
  split; [|vm_compute; split_and!; reflexivity]. eapply tc_l; [|apply tc_once].
  - exists (mkModule ["logs"] (Some (Ok (Some 2%nat))) true). split; [vm_compute; reflexivity|by left].
  - exists (mkModule ["store"] None true). split; [vm_compute; reflexivity|by left].
Qed.
End witness.
