(* ===== verification/BasicLifecycler.v ===== *)
(** * The basic lifecycler and its delegates: [ring/basic_lifecycler.go],
    [ring/basic_lifecycler_delegates.go]

    A [BasicLifecyclerDelegate] is a record of functions, which the delegates of
    the repository wrap around a next one.  Callbacks run by [CAS] work on the
    lifecycler, on the variables of the closure ([X]) and on the captured
    [instanceDesc].  [stopping] runs the delegate on a goroutine of its own while
    the loop keeps heartbeating: the two threads are interleaved at the attempts
    of their [CAS] calls and at their writes of [currInstanceDesc]. *)
From Stdlib Require Import ZArith Lia.
From stdpp Require Import base gmap strings list sorting fin_maps relations.
From S2P Require Import Prelude Model TokensFile KV.

Record BasicLifecyclerConfig := mkBasicLifecyclerConfig {
  cfg_ID : string;
  cfg_Addr : string;
  cfg_Zone : string;
  cfg_HeartbeatPeriod : Z;
  cfg_TokensObservePeriod : Z;
  cfg_NumTokens : Z;
  KeepInstanceInTheRingOnShutdown : bool
}.

(** [bl_disk] is the file system the delegates reach *)
Record BasicLifecycler := mkBasicLifecycler {
  bl_cfg : BasicLifecyclerConfig;
  currInstanceDesc : option InstanceDesc;
  bl_disk : FileSystem
}.
Definition NewBasicLifecycler (cfg : BasicLifecyclerConfig) (fs : FileSystem) : BasicLifecycler :=
  mkBasicLifecycler cfg None fs.
Definition set_currInstanceDesc x (l : BasicLifecycler) := mkBasicLifecycler (bl_cfg l) x (bl_disk l).
Definition set_bl_disk x (l : BasicLifecycler) := mkBasicLifecycler (bl_cfg l) (currInstanceDesc l) x.

Definition GetInstanceID (l : BasicLifecycler) : string := cfg_ID (bl_cfg l).
Definition GetInstanceAddr (l : BasicLifecycler) : string := cfg_Addr (bl_cfg l).
Definition GetInstanceZone (l : BasicLifecycler) : string := cfg_Zone (bl_cfg l).
Definition bl_GetState (l : BasicLifecycler) : InstanceState :=
  match currInstanceDesc l with None => PENDING | Some i => State i end.
Definition bl_GetTokens (l : BasicLifecycler) : list Z :=
  match currInstanceDesc l with None => [] | Some i => Tokens i end.
Definition bl_GetRegisteredAt (l : BasicLifecycler) : Z := GetRegisteredAt (currInstanceDesc l).
Definition IsRegistered (l : BasicLifecycler) : bool := bool_decide (currInstanceDesc l ≠ None).

Inductive basic_error (KVErr : Type) :=
| ErrEmptyRing                (* found empty ring when trying to unregister *)
| ErrStore (e : KVErr)
| ErrContext.
Arguments ErrEmptyRing {KVErr}.
Arguments ErrStore {KVErr} e.
Arguments ErrContext {KVErr}.

(** the clock and the draws of the random generator of one run of a callback *)
Record basic_env := mkBasicEnv { b_now : Z; b_draws : list Z }.

(** ** Delegates *)
(** [OnRingInstanceStopping] is the sequence of states the delegate moves the
    instance to, by calls of [changeState], before it returns. *)
Record BasicLifecyclerDelegate := mkDelegate {
  OnRingInstanceRegister : BasicLifecycler → Desc → bool → string → InstanceDesc → basic_env → InstanceState * list Z;
  OnRingInstanceTokens : BasicLifecycler → list Z → BasicLifecycler;
  OnRingInstanceStopping : list InstanceState;
  OnRingInstanceHeartbeat : BasicLifecycler → Desc → InstanceDesc → basic_env → Desc * InstanceDesc
}.

Definition LeaveOnStoppingDelegate (next : BasicLifecyclerDelegate) : BasicLifecyclerDelegate := {|
  OnRingInstanceRegister := OnRingInstanceRegister next;
  OnRingInstanceTokens := OnRingInstanceTokens next;
  OnRingInstanceStopping := LEAVING :: OnRingInstanceStopping next;
  OnRingInstanceHeartbeat := OnRingInstanceHeartbeat next
|}.

Definition TokensPersistency_OnRingInstanceRegister `{J : TokensJSON} (tokensPath : string) (loadState : InstanceState)
    (next : BasicLifecyclerDelegate) (l : BasicLifecycler) (ringDesc : Desc) (instanceExists : bool)
    (instanceID : string) (instanceDesc : InstanceDesc) (e : basic_env) : InstanceState * list Z :=
  if bool_decide (tokensPath = ""%string)
  then OnRingInstanceRegister next l ringDesc instanceExists instanceID instanceDesc e
  else if instanceExists && bool_decide (0 < Z.of_nat (length (Tokens instanceDesc)))
  then OnRingInstanceRegister next l ringDesc instanceExists instanceID instanceDesc e
  else
    match LoadTokensFromFile tokensPath (bl_disk l) with
    | (_, Some _) => OnRingInstanceRegister next l ringDesc instanceExists instanceID instanceDesc e
    | (tokensFromFile, None) =>
        OnRingInstanceRegister next l ringDesc true (GetInstanceID l) {|
          Addr := GetInstanceAddr l;
          Timestamp := time_Unix (b_now e);
          RegisteredTimestamp := time_Unix (bl_GetRegisteredAt l);
          State := loadState;
          Tokens := tokensFromFile;
          Zone := GetInstanceZone l
        |} e
    end.

(** a failure to store the tokens is only logged *)
Definition TokensPersistency_OnRingInstanceTokens `{J : TokensJSON} (tokensPath : string) (fault : os_fault)
    (next : BasicLifecyclerDelegate) (l : BasicLifecycler) (tokens : list Z) : BasicLifecycler :=
  let l := if bool_decide (tokensPath ≠ ""%string)
           then set_bl_disk (StoreToFile tokens tokensPath fault (bl_disk l)).1 l else l in
  OnRingInstanceTokens next l tokens.

Definition TokensPersistencyDelegate `{J : TokensJSON} (tokensPath : string) (loadState : InstanceState)
    (fault : os_fault) (next : BasicLifecyclerDelegate) : BasicLifecyclerDelegate := {|
  OnRingInstanceRegister := TokensPersistency_OnRingInstanceRegister tokensPath loadState next;
  OnRingInstanceTokens := TokensPersistency_OnRingInstanceTokens tokensPath fault next;
  OnRingInstanceStopping := OnRingInstanceStopping next;
  OnRingInstanceHeartbeat := OnRingInstanceHeartbeat next
|}.

Definition AutoForget_OnRingInstanceHeartbeat `{R : MapRange} (forgetPeriod : Z) (next : BasicLifecyclerDelegate)
    (l : BasicLifecycler) (ringDesc : Desc) (instanceDesc : InstanceDesc) (e : basic_env) : Desc * InstanceDesc :=
  let ringDesc := foldl (λ ringDesc '(id, instance),
    let lastHeartbeat := time_of_Unix (Timestamp instance) in
    if bool_decide (time_Sub (b_now e) lastHeartbeat > forgetPeriod) then RemoveIngester ringDesc id else ringDesc)
    ringDesc (map_range 142 (Ingesters ringDesc)) in
  OnRingInstanceHeartbeat next l ringDesc instanceDesc e.

Definition AutoForgetDelegate `{R : MapRange} (forgetPeriod : Z) (next : BasicLifecyclerDelegate)
    : BasicLifecyclerDelegate := {|
  OnRingInstanceRegister := OnRingInstanceRegister next;
  OnRingInstanceTokens := OnRingInstanceTokens next;
  OnRingInstanceStopping := OnRingInstanceStopping next;
  OnRingInstanceHeartbeat := AutoForget_OnRingInstanceHeartbeat forgetPeriod next
|}.

Section basic_lifecycler.
Context `{R : MapRange} {KVErr : Type} (delegate : BasicLifecyclerDelegate).
Abbreviation bl_error := (basic_error KVErr).
Abbreviation out := (cas_out Desc bl_error).
Abbreviation script := (list (cas_event Desc basic_env KVErr)).
Abbreviation result_of A := (option (A * BasicLifecycler)).

(** ** [registerInstance] *)
Definition registerInstance_f : option Desc → basic_env → BasicLifecycler * InstanceDesc
    → option (out * (BasicLifecycler * InstanceDesc)) := λ in_ e '(l, _),
  let ringDesc := GetOrCreateRingDesc in_ in
  let instanceDesc := ingester ringDesc (cfg_ID (bl_cfg l)) in
  let exists_ := bool_decide (is_Some (Ingesters ringDesc !! cfg_ID (bl_cfg l))) in
  let '(state, tokens) := OnRingInstanceRegister delegate l ringDesc exists_ (cfg_ID (bl_cfg l)) instanceDesc e in
  let tokens := sort_tokens tokens in
  let registeredAt := if exists_ then GetRegisteredAt (Some instanceDesc) else b_now e in
  let '(ringDesc, instanceDesc) :=
    AddIngester ringDesc (cfg_ID (bl_cfg l)) (cfg_Addr (bl_cfg l)) (cfg_Zone (bl_cfg l)) tokens state registeredAt (b_now e) in
  Some (mkCasOut (Some ringDesc) true None, (l, instanceDesc)).

(** what follows the call of [CAS] *)
Definition store_instance {X} (r : option (cas_result Desc bl_error KVErr * (X * InstanceDesc)))
    (lifecycler_of : X → BasicLifecycler) : option (option bl_error * X * BasicLifecycler) :=
  match r with
  | None => None
  | Some (CasOk _, (x, instanceDesc)) => Some (None, x, set_currInstanceDesc (Some instanceDesc) (lifecycler_of x))
  | Some (CasCallbackErr e, (x, _)) => Some (Some e, x, lifecycler_of x)
  | Some (CasKVErr e, (x, _)) => Some (Some (ErrStore e), x, lifecycler_of x)
  end.

Definition registerInstance (s : script) (l : BasicLifecycler) : result_of (option bl_error) :=
  '(err, _, l) ← store_instance (CAS registerInstance_f s (l, InstanceDesc_zero)) id;
  Some (err, l).

(** ** [updateInstance] *)
(** what [update] does to the lifecycler, to the variables of its closure, to the
    ring and to its copy of the instance, and whether it reports a change *)
Definition update_fn (X : Type) : Type :=
  basic_env → BasicLifecycler * X → Desc → InstanceDesc → option (BasicLifecycler * X * (Desc * InstanceDesc * bool)).

Definition updateInstance_f {X} (update : update_fn X) : option Desc → basic_env → BasicLifecycler * X * InstanceDesc
    → option (out * (BasicLifecycler * X * InstanceDesc)) := λ in_ e '(l, x, _),
  let ringDesc := GetOrCreateRingDesc in_ in
  let '(ok, ringDesc, instanceDesc) :=
    match Ingesters ringDesc !! cfg_ID (bl_cfg l) with
    | Some instanceDesc => (true, ringDesc, instanceDesc)
    | None =>
        let '(ringDesc, instanceDesc) :=
          AddIngester ringDesc (cfg_ID (bl_cfg l)) (cfg_Addr (bl_cfg l)) (cfg_Zone (bl_cfg l))
            (bl_GetTokens l) (bl_GetState l) (bl_GetRegisteredAt l) (b_now e) in
        (false, ringDesc, instanceDesc)
    end in
  let prevTimestamp := Timestamp instanceDesc in
  '(l, x, (ringDesc, instanceDesc, changed)) ← update e (l, x) ringDesc instanceDesc;
  if ok && negb changed then Some (mkCasOut None false None, (l, x, instanceDesc))
  else
    let instanceDesc := if bool_decide (Timestamp instanceDesc = prevTimestamp)
                        then set_Timestamp (time_Unix (b_now e)) instanceDesc else instanceDesc in
    Some (mkCasOut (Some (mkDesc (<[cfg_ID (bl_cfg l) := instanceDesc]> (Ingesters ringDesc)))) true None,
          (l, x, instanceDesc)).

Definition updateInstance {X} (update : update_fn X) (s : script) (x : X) (l : BasicLifecycler)
    : result_of (option bl_error * X) :=
  '(err, (_, x), l) ← store_instance (CAS (updateInstance_f update) s (l, x, InstanceDesc_zero)) fst;
  Some ((err, x), l).

(** ** [heartbeat], [changeState], [verifyTokens] *)
Definition heartbeat_update : update_fn unit := λ e '(l, x) r i,
  let '(r, i) := OnRingInstanceHeartbeat delegate l r i e in
  Some (l, x, (r, set_Timestamp (time_Unix (b_now e)) i, true)).
(** the error is only logged *)
Definition heartbeat (s : script) (l : BasicLifecycler) : option BasicLifecycler :=
  '(_, l) ← updateInstance heartbeat_update s tt l; Some l.

Definition changeState_update (state : InstanceState) : update_fn unit := λ e '(l, x) r i,
  if bool_decide (State i = state) then Some (l, x, (r, i, false))
  else Some (l, x, (r, set_State state i, true)).
Definition changeState (state : InstanceState) (s : script) (l : BasicLifecycler) : result_of (option bl_error) :=
  '(err, _, l) ← updateInstance (changeState_update state) s tt l; Some (err, l).

(** [x] is the variable [result]; [Equals] sorts the tokens of the lifecycler in
    place, and the copy of the instance shares its slice with the ring *)
Definition verifyTokens_update : update_fn bool := λ e '(l, result) r i,
  let '(r, (actualTokens, takenTokens)) := TokensFor r (cfg_ID (bl_cfg l)) in
  let i := set_Tokens (Tokens (ingester r (cfg_ID (bl_cfg l)))) i in
  let '((_, mine), equal) := Tokens_Equals actualTokens (bl_GetTokens l) in
  let l := set_currInstanceDesc (set_Tokens mine <$> currInstanceDesc l) l in
  if equal : bool then Some (l, true, (r, i, false))
  else
    let needTokens := cfg_NumTokens (bl_cfg l) - Z.of_nat (length actualTokens) in
    newTokens ← GenerateTokens (b_draws e) needTokens takenTokens;
    Some (l, result, (r, set_Tokens (sort_tokens (actualTokens ++ newTokens)) i, true)).
Definition verifyTokens (s : script) (l : BasicLifecycler) : result_of bool :=
  '((err, result), l) ← updateInstance verifyTokens_update s false l;
  match err with Some _ => Some (false, l) | None => Some (result, l) end.

(** ** [unregisterInstance] *)
Definition unregisterInstance_f (id : string) : option Desc → basic_env → unit → option (out * unit) := λ in_ _ _,
  match in_ with
  | None => Some (mkCasOut None false (Some ErrEmptyRing), tt)
  | Some ringDesc => Some (mkCasOut (Some (RemoveIngester ringDesc id)) true None, tt)
  end.
Definition unregisterInstance (s : script) (l : BasicLifecycler) : result_of (option bl_error) :=
  match CAS (unregisterInstance_f (cfg_ID (bl_cfg l))) s tt with
  | None => None
  | Some (CasOk _, _) => Some (None, set_currInstanceDesc None l)
  | Some (CasCallbackErr e, _) => Some (Some e, l)
  | Some (CasKVErr e, _) => Some (Some (ErrStore e), l)
  end.

(** ** [starting] *)
Inductive wait_event :=
| WaitObserve (s : script)
| WaitTick (s : script)
| WaitDone.                     (* the context is done *)
Fixpoint waitStableTokens (evs : list wait_event) (l : BasicLifecycler) : result_of (option bl_error) :=
  match evs with
  | [] => None
  | WaitObserve s :: evs =>
      '(verified, l) ← verifyTokens s l;
      if verified : bool then Some (None, l) else waitStableTokens evs l
  | WaitTick s :: evs =>
      if bool_decide (cfg_HeartbeatPeriod (bl_cfg l) = 0) then None
      else l ← heartbeat s l; waitStableTokens evs l
  | WaitDone :: _ => Some (Some ErrContext, l)
  end.

(** [errors.Wrap] keeps the cause *)
Definition starting (s : script) (evs : list wait_event) (l : BasicLifecycler) : result_of (option bl_error) :=
  '(err, l) ← registerInstance s l;
  match err with
  | Some e => Some (Some e, l)
  | None =>
      '(err, l) ←
        (if bool_decide (0 < Z.of_nat (length (bl_GetTokens l))) && bool_decide (0 < cfg_TokensObservePeriod (bl_cfg l))
         then waitStableTokens evs l else Some (None, l));
      match err with
      | Some e => Some (Some e, l)
      | None =>
          let tokens := bl_GetTokens l in
          if bool_decide (0 < Z.of_nat (length tokens)) then Some (None, OnRingInstanceTokens delegate l tokens)
          else Some (None, l)
      end
  end.

(** ** [running] *)
Inductive run_event :=
| RunTick (s : script)
| RunActor (state : InstanceState) (s : script)    (* [ChangeState] *)
| RunDone.
(** [None]: still running *)
Definition running_step (ev : run_event) (l : BasicLifecycler) : option (BasicLifecycler * bool) :=
  match ev with
  | RunTick s =>
      if bool_decide (cfg_HeartbeatPeriod (bl_cfg l) = 0) then None
      else l ← heartbeat s l; Some (l, true)
  | RunActor state s => '(_, l) ← changeState state s l; Some (l, true)
  | RunDone => Some (l, false)
  end.

(** ** [stopping] *)
Inductive stop_thread := LoopThread | DelegateThread.
Inductive stop_op := OpHeartbeat | OpChangeState (state : InstanceState).
Inductive stop_phase :=
| Attempting (op : stop_op)
| Committing (instanceDesc : InstanceDesc).     (* [CAS] has returned [nil] *)
Definition op_update (op : stop_op) : update_fn unit :=
  match op with OpHeartbeat => heartbeat_update | OpChangeState st => changeState_update st end.

(** [st_ring] is the value of the key in the store; [st_todo] the calls the
    delegate has left *)
Record stop_state := mkStop {
  st_lc : BasicLifecycler;
  st_ring : option Desc;
  st_loop : option stop_phase;
  st_delegate : option stop_phase;
  st_todo : list InstanceState
}.
Definition phase_of (t : stop_thread) (s : stop_state) : option stop_phase :=
  match t with LoopThread => st_loop s | DelegateThread => st_delegate s end.
Definition set_phase (t : stop_thread) (p : option stop_phase) (s : stop_state) : stop_state :=
  match t with
  | LoopThread => mkStop (st_lc s) (st_ring s) p (st_delegate s) (st_todo s)
  | DelegateThread => mkStop (st_lc s) (st_ring s) (st_loop s) p (st_todo s)
  end.
Definition set_lc (l : BasicLifecycler) (s : stop_state) : stop_state :=
  mkStop l (st_ring s) (st_loop s) (st_delegate s) (st_todo s).
Definition set_ring (r : option Desc) (s : stop_state) : stop_state :=
  mkStop (st_lc s) r (st_loop s) (st_delegate s) (st_todo s).

Inductive stop_event :=
| TickerFires
| DelegateCalls
| AttemptOf (t : stop_thread) (e : basic_env) (stored : bool)
| StoreFails (t : stop_thread)
| CommitOf (t : stop_thread)
| OthersWrite (k : string) (i : option InstanceDesc).  (* another process sets or removes an entry *)
Definition stop_step (ev : stop_event) (s : stop_state) : option stop_state :=
  match ev with
  | TickerFires =>
      if bool_decide (cfg_HeartbeatPeriod (bl_cfg (st_lc s)) = 0) then None
      else match st_loop s with None => Some (set_phase LoopThread (Some (Attempting OpHeartbeat)) s) | Some _ => None end
  | DelegateCalls =>
      match st_delegate s, st_todo s with
      | None, st :: todo =>
          Some (mkStop (st_lc s) (st_ring s) (st_loop s) (Some (Attempting (OpChangeState st))) todo)
      | _, _ => None
      end
  | AttemptOf t e stored =>
      match phase_of t s with
      | Some (Attempting op) =>
          '(o, (l, _, instanceDesc)) ← updateInstance_f (op_update op) (st_ring s) e (st_lc s, tt, InstanceDesc_zero);
          let s := set_lc l s in
          match cas_value o with
          | None => Some (set_phase t (Some (Committing instanceDesc)) s)
          | Some v =>
              if stored : bool then Some (set_phase t (Some (Committing instanceDesc)) (set_ring (Some v) s))
              else Some s       (* the swap has failed: another attempt *)
          end
      | _ => None
      end
  | StoreFails t =>
      match phase_of t s with Some (Attempting _) => Some (set_phase t None s) | _ => None end
  | CommitOf t =>
      match phase_of t s with
      | Some (Committing instanceDesc) =>
          Some (set_phase t None (set_lc (set_currInstanceDesc (Some instanceDesc) (st_lc s)) s))
      | _ => None
      end
  | OthersWrite k i =>
      Some (set_ring (Some (mkDesc (partial_alter (λ _, i) k (Ingesters (GetOrCreateRingDesc (st_ring s)))))) s)
  end.
Fixpoint stop_run (evs : list stop_event) (s : stop_state) : option stop_state :=
  match evs with [] => Some s | ev :: evs => s ← stop_step ev s; stop_run evs s end.

(** [done] is closed and the loop has seen it *)
Definition heartbeats_over (s : stop_state) : bool :=
  match st_loop s, st_delegate s, st_todo s with None, None, [] => true | _, _, _ => false end.
Definition stop_start (ring : option Desc) (l : BasicLifecycler) : stop_state :=
  mkStop l ring None None (OnRingInstanceStopping delegate).

Definition stopping (runningError : bool) (ring : option Desc) (evs : list stop_event) (s : script) (l : BasicLifecycler)
    : result_of (option bl_error) :=
  if runningError then Some (None, l)
  else
    st ← stop_run evs (stop_start ring l);
    if heartbeats_over st then
      if KeepInstanceInTheRingOnShutdown (bl_cfg l) then Some (None, st_lc st)
      else unregisterInstance s (st_lc st)
    else None.
End basic_lifecycler.
