(* ===== verification/BasicLifecyclerFacts.v ===== *)
(** * Correctness of the basic lifecycler

    Registration, heartbeats with automatic forgetting, verified tokens, and
    the interleaved shutdown. *)
From Stdlib Require Import ZArith Lia.
From stdpp Require Import base gmap strings list sorting fin_maps relations.
From S2P Require Import Prelude Model ModelFacts RingFacts TokensFile KV LifecyclerFacts BasicLifecycler.

Section facts.
Context `{R : MapRange} {KVErr : Type}.
Implicit Types (delegate next : BasicLifecyclerDelegate) (l : BasicLifecycler).
Abbreviation script := (list (cas_event Desc basic_env KVErr)).
Abbreviation bl_error := (basic_error KVErr).

(** [0] is the unknown registration time, as is the zero time *)
Definition registered_timestamp (t : Z) : Z := if time_IsZero t then 0 else time_Unix t.

Lemma registered_known i : registered_timestamp (GetRegisteredAt (Some i)) =
  if bool_decide (RegisteredTimestamp i = time_Unix zeroTime) then 0 else RegisteredTimestamp i.
Proof.
  unfold GetRegisteredAt. destruct (decide (RegisteredTimestamp i = 0)) as [Hz|Hz].
  - rewrite bool_decide_eq_true_2 by done. unfold registered_timestamp, time_IsZero. rewrite bool_decide_eq_true_2 by done.
    rewrite Hz. by rewrite bool_decide_eq_false_2.
  - rewrite bool_decide_eq_false_2 by done. unfold registered_timestamp, time_IsZero. rewrite time_Unix_of_Unix.
    do 2 case_bool_decide; try done; exfalso;
      change (time_Unix zeroTime) with (-62135596800) in *; unfold time_of_Unix, zeroTime, Second in *; lia.
Qed.

Lemma AddIngester_eq d id addr zone ts st reg n :
  AddIngester d id addr zone ts st reg n =
    (mkDesc (<[id := mkInstanceDesc addr (time_Unix n) st ts zone (registered_timestamp reg)]> (Ingesters d)),
     mkInstanceDesc addr (time_Unix n) st ts zone (registered_timestamp reg)).
Proof. unfold AddIngester, registered_timestamp. by destruct (time_IsZero reg). Qed.

(** ** Registration *)
(** the entry [registerInstance] makes, from the entry it has found *)
Definition registered delegate l (ring : Desc) (e : basic_env) : InstanceDesc :=
  let old := Ingesters ring !! cfg_ID (bl_cfg l) in
  let '(st, ts) := OnRingInstanceRegister delegate l ring (bool_decide (is_Some old)) (cfg_ID (bl_cfg l))
                     (default InstanceDesc_zero old) e in
  {| Addr := cfg_Addr (bl_cfg l); Zone := cfg_Zone (bl_cfg l);
     Timestamp := time_Unix (b_now e);
     State := st; Tokens := sort_tokens ts;
     RegisteredTimestamp :=
       match old with
       | Some i => if bool_decide (RegisteredTimestamp i = time_Unix zeroTime) then 0 else RegisteredTimestamp i
       | None => registered_timestamp (b_now e)
       end |}.

Lemma registerInstance_f_run delegate in_ e l i0 :
  let ring := GetOrCreateRingDesc in_ in
  registerInstance_f (KVErr:=KVErr) delegate in_ e (l, i0) =
    Some (mkCasOut (Some (mkDesc (<[cfg_ID (bl_cfg l) := registered delegate l ring e]> (Ingesters ring)))) true None,
          (l, registered delegate l ring e)).
Proof.
  intros ring. unfold registerInstance_f, registered. change (GetOrCreateRingDesc in_) with ring. unfold ingester.
  destruct (Ingesters ring !! cfg_ID (bl_cfg l)) as [i|] eqn:Hi; simpl default.
  - rewrite bool_decide_eq_true_2 by eauto. destruct (OnRingInstanceRegister _ _ _ _ _ _ _) as [st ts].
    by rewrite AddIngester_eq, registered_known.
  - rewrite bool_decide_eq_false_2 by (by intros [? ?]).
    destruct (OnRingInstanceRegister _ _ _ _ _ _ _) as [st ts]. by rewrite AddIngester_eq.
Qed.

(** [registerInstance] that succeeds has written the ring it read with one
    change: the instance's entry has the configured address and zone, the state
    and the (sorted) tokens its delegate asked for, a fresh heartbeat, and the
    registration time it had, or that of the clock when it is new; the lifecycler
    remembers exactly this entry.  When it fails the lifecycler is as before. *)
Theorem registerInstance_correct delegate (s : script) l l' (err : option bl_error) :
  registerInstance delegate s l = Some (err, l') →
  match err with
  | Some _ => l' = l
  | None => ∃ a, Attempt a ∈ s ∧ att_stored a = true ∧
      let ring := GetOrCreateRingDesc (att_in a) in
      let inst := registered delegate l ring (att_env a) in
      l' = set_currInstanceDesc (Some inst) l ∧
      CAS (registerInstance_f (KVErr:=KVErr) delegate) s (l, InstanceDesc_zero) =
        Some (CasOk (Some (mkDesc (<[cfg_ID (bl_cfg l) := inst]> (Ingesters ring)))), (l, inst))
  end.
Proof.
  unfold registerInstance. destruct (CAS _ _ _) as [[r [l1 i1]]|] eqn:Hc; [|done].
  pose proof Hc as Hl. apply (CAS_last (λ x, x.1 = l)) in Hl; [|intros a [l0 i0] o [l2 i2] _ <-|done].
  2: { rewrite registerInstance_f_run. by intros [= <- <- <-]. }
  destruct r as [w|e|e]; simpl; [|by destruct Hl as (a & [l0 i0] & o & _ & <- & Hr & He);
    rewrite registerInstance_f_run in Hr; simplify_eq|simpl in Hl; subst; by intros [= <- <-]].
  intros [= <- <-]. destruct Hl as (a & [l0 i0] & o & Ha & Heq & Hr & _ & Hw & Hst). simpl in Heq. subst l0.
  rewrite registerInstance_f_run in Hr. injection Hr as <- <- <-. simpl in Hw. subst w.
  exists a. split; [done|]. split; [by apply Hst|]. done.
Qed.

(** ** Updates *)
(** the instance [updateInstance] works on, which is added back when missing *)
Definition added l (e : basic_env) : InstanceDesc :=
  mkInstanceDesc (cfg_Addr (bl_cfg l)) (time_Unix (b_now e)) (bl_GetState l) (bl_GetTokens l) (cfg_Zone (bl_cfg l))
    (registered_timestamp (bl_GetRegisteredAt l)).
Definition current l (ring : Desc) (e : basic_env) : InstanceDesc :=
  default (added l e) (Ingesters ring !! cfg_ID (bl_cfg l)).

Lemma updateInstance_f_run {X} (update : update_fn X) in_ e l x i0 :
  let ring := GetOrCreateRingDesc in_ in
  let id := cfg_ID (bl_cfg l) in
  updateInstance_f (KVErr:=KVErr) update in_ e (l, x, i0) =
    '(l1, x1, (ring1, i1, changed)) ← update e (l, x) (mkDesc (<[id := current l ring e]> (Ingesters ring))) (current l ring e);
    if bool_decide (is_Some (Ingesters ring !! id)) && negb changed then Some (mkCasOut None false None, (l1, x1, i1))
    else
      let i2 := if bool_decide (Timestamp i1 = Timestamp (current l ring e))
                then set_Timestamp (time_Unix (b_now e)) i1 else i1 in
      Some (mkCasOut (Some (mkDesc (<[cfg_ID (bl_cfg l1) := i2]> (Ingesters ring1)))) true None, (l1, x1, i2)).
Proof.
  intros ring id. unfold updateInstance_f, current. change (GetOrCreateRingDesc in_) with ring.
  change (cfg_ID (bl_cfg l)) with id. destruct (Ingesters ring !! id) as [i|] eqn:Hi; simpl default.
  - rewrite (bool_decide_eq_true_2 (is_Some _)) by eauto. rewrite insert_id by done. by destruct ring.
  - rewrite (bool_decide_eq_false_2 (is_Some _)) by (by intros [? ?]). rewrite AddIngester_eq. done.
Qed.

(** what [store_instance] makes of a run of [CAS] *)
Lemma updateInstance_inv {X} (P : BasicLifecycler * X → Prop) (update : update_fn X) (s : script) x l x' l' (err : option bl_error) :
  updateInstance update s x l = Some ((err, x'), l') →
  (∀ a lx i0 o lx' i', Attempt a ∈ s → P lx →
     updateInstance_f (KVErr:=KVErr) update (att_in a) (att_env a) (lx, i0) = Some (o, (lx', i')) →
     (cas_err o = None → cas_value o ≠ None) → P lx') →
  P (l, x) →
  match err with
  | Some _ => P (l', x') ∧ ∀ w st, CAS (updateInstance_f (KVErr:=KVErr) update) s (l, x, InstanceDesc_zero) ≠ Some (CasOk w, st)
  | None => ∃ a l0 x0 i0 o l1 inst, Attempt a ∈ s ∧ P (l0, x0) ∧
      updateInstance_f (KVErr:=KVErr) update (att_in a) (att_env a) (l0, x0, i0) = Some (o, (l1, x', inst)) ∧
      l' = set_currInstanceDesc (Some inst) l1 ∧
      CAS (updateInstance_f (KVErr:=KVErr) update) s (l, x, InstanceDesc_zero) = Some (CasOk (cas_value o), (l1, x', inst)) ∧
      (cas_value o ≠ None → att_stored a = true)
  end.
Proof.
  unfold updateInstance. destruct (CAS _ _ _) as [[r [[l1 x1] i1]]|] eqn:Hc; [|done]. intros Hr Hstep HP.
  pose proof Hc as Hl. apply (CAS_last (λ st, P st.1)) in Hl; [|by intros a [lx i0] o [lx' i'] Ha; eapply Hstep|done].
  destruct r as [w|e|e]; simpl in Hr.
  - injection Hr as <- <- <-. destruct Hl as (a & [[l0 x0] i0] & o & Ha & HP0 & Hrun & _ & <- & Hst).
    exists a, l0, x0, i0, o, l1, i1. done.
  - exfalso. destruct Hl as (a & [[l0 x0] i0] & o & _ & _ & Hrun & He). rewrite updateInstance_f_run in Hrun.
    destruct (update _ _ _ _) as [[[l2 x2] [[r2 i2] c]]|]; [|done]. simpl in Hrun. destruct (_ && _); simplify_eq.
  - injection Hr as <- <- <-. split; [done|]. by intros w st [=].
Qed.

(** an update that keeps the lifecycler and the variables of its closure *)
Lemma updateInstance_pure {X} (update : update_fn X) (s : script) x l x' l' (err : option bl_error) :
  (∀ e lx r i l1 x1 res, update e lx r i = Some (l1, x1, res) → (l1, x1) = lx) →
  updateInstance update s x l = Some ((err, x'), l') →
  x' = x ∧
  match err with
  | Some _ => l' = l
  | None => ∃ a i0 o inst, Attempt a ∈ s ∧
      updateInstance_f (KVErr:=KVErr) update (att_in a) (att_env a) (l, x, i0) = Some (o, (l, x, inst)) ∧
      l' = set_currInstanceDesc (Some inst) l ∧
      CAS (updateInstance_f (KVErr:=KVErr) update) s (l, x, InstanceDesc_zero) = Some (CasOk (cas_value o), (l, x, inst)) ∧
      (cas_value o ≠ None → att_stored a = true)
  end.
Proof.
  intros Hpure Hr. assert (∀ in_ e lx i0 o lx' i',
    updateInstance_f (KVErr:=KVErr) update in_ e (lx, i0) = Some (o, (lx', i')) → lx' = lx) as Hkeep.
  { intros in_ e [l0 x0] i0 o lx' i'. rewrite updateInstance_f_run.
    destruct (update _ _ _ _) as [[[l2 x2] [[r2 i2] c]]|] eqn:Hu; [|done]. apply Hpure in Hu. simplify_eq.
    simpl. destruct (_ && _); naive_solver. }
  apply (updateInstance_inv (λ lx, lx = (l, x))) in Hr; [|by intros a lx i0 o lx' i' _ -> Hrun%Hkeep|done].
  destruct err as [e|]; [by destruct Hr as [[= -> ->] _]|].
  destruct Hr as (a & l0 & x0 & i0 & o & l1 & inst & Ha & [= -> ->] & Hrun & -> & Hc & Hst).
  pose proof (Hkeep _ _ _ _ _ _ _ Hrun) as [= -> ->]. split; [done|]. by exists a, i0, o, inst.
Qed.

(** ** Heartbeats *)
Definition stale (forgetPeriod now : Z) (i : InstanceDesc) : bool :=
  bool_decide (time_Sub now (time_of_Unix (Timestamp i)) > forgetPeriod).

Lemma forget_lookup forgetPeriod n d k :
  Ingesters (foldl (λ ringDesc '(id, instance),
    if bool_decide (time_Sub n (time_of_Unix (Timestamp instance)) > forgetPeriod)
    then RemoveIngester ringDesc id else ringDesc) d (map_range 142 (Ingesters d))) !! k =
  (Ingesters d !! k ≫= λ i, if stale forgetPeriod n i then None else Some i).
Proof.
  etrans; [apply (map_range_local Ingesters _ (λ _ i o, if stale forgetPeriod n i then None else o))|].
  - intros d' id i. unfold stale. case_bool_decide; [simpl; apply lookup_delete_eq|done].
  - intros d' id i j Hj. case_bool_decide; [simpl; by apply lookup_delete_ne|done].
  - by destruct (Ingesters d !! k).
Qed.

(** A heartbeat of a lifecycler with the [AutoForgetDelegate] that succeeds
    has written the ring it read, where the instance's own entry (added back with
    what the lifecycler remembers if it was missing) has a fresh timestamp and is
    otherwise as it was, even if it was stale, every other entry whose heartbeat
    is older than the period is gone, and the rest is as it was; the lifecycler
    remembers its entry.  When it fails the lifecycler is as before. *)
Theorem heartbeat_forgets next (forgetPeriod : Z) (s : script) l l' (err : option bl_error) :
  (∀ l r i e, OnRingInstanceHeartbeat next l r i e = (r, i)) →
  updateInstance (heartbeat_update (AutoForgetDelegate forgetPeriod next)) s tt l = Some ((err, tt), l') →
  match err with
  | Some _ => l' = l
  | None => ∃ a, Attempt a ∈ s ∧ att_stored a = true ∧
      let ring := GetOrCreateRingDesc (att_in a) in
      let inst := set_Timestamp (time_Unix (b_now (att_env a))) (current l ring (att_env a)) in
      l' = set_currInstanceDesc (Some inst) l ∧
      CAS (updateInstance_f (KVErr:=KVErr) (heartbeat_update (AutoForgetDelegate forgetPeriod next))) s (l, tt, InstanceDesc_zero) =
        Some (CasOk (Some (mkDesc (<[cfg_ID (bl_cfg l) := inst]>
                (filter (λ kv, stale forgetPeriod (b_now (att_env a)) kv.2 = false) (Ingesters ring))))), (l, tt, inst))
  end.
Proof.
  intros Hnext Hr. apply updateInstance_pure in Hr as [_ Hr].
  2: { intros e [l0 []] r i l1 [] res. unfold heartbeat_update. destruct (OnRingInstanceHeartbeat _ _ _ _ _). by intros [= <- <-]. }
  destruct err; [done|]. destruct Hr as (a & i0 & o & inst & Ha & Hrun & -> & Hc & Hst).
  rewrite updateInstance_f_run in Hrun. unfold heartbeat_update in Hrun. simpl OnRingInstanceHeartbeat in Hrun.
  unfold AutoForget_OnRingInstanceHeartbeat in Hrun. rewrite Hnext in Hrun. cbn [mbind option_bind] in Hrun.
  rewrite andb_false_r in Hrun. exists a. split; [done|]. set (ring := GetOrCreateRingDesc (att_in a)) in *.
  assert ((if bool_decide (Timestamp (set_Timestamp (time_Unix (b_now (att_env a))) (current l ring (att_env a))) =
            Timestamp (current l ring (att_env a))) then
            set_Timestamp (time_Unix (b_now (att_env a))) (set_Timestamp (time_Unix (b_now (att_env a))) (current l ring (att_env a)))
           else set_Timestamp (time_Unix (b_now (att_env a))) (current l ring (att_env a))) =
          set_Timestamp (time_Unix (b_now (att_env a))) (current l ring (att_env a))) as He by by case_bool_decide.
  rewrite He in Hrun. clear He. simplify_eq. split; [by apply Hst|]. split; [done|]. rewrite Hc. simpl. do 5 f_equal.
  apply map_eq. intros k. destruct (decide (k = cfg_ID (bl_cfg l))) as [->|Hk]; [by rewrite !lookup_insert_eq|].
  rewrite !lookup_insert_ne by done. rewrite forget_lookup. simpl. rewrite lookup_insert_ne by done.
  symmetry. rewrite map_lookup_filter. destruct (Ingesters ring !! k) as [i|]; [|done]. simpl.
  destruct (stale _ _ i) eqn:Hs; [by rewrite option_guard_False|by rewrite option_guard_True].
Qed.

(** ** Verified tokens *)
Lemma Tokens_Equals_spec t o : ∃ t' o', Tokens_Equals t o = ((t', o'), bool_decide (sort_tokens t = sort_tokens o)) ∧
  sort_tokens o' = sort_tokens o.
Proof.
  unfold Tokens_Equals. case_bool_decide as Hl.
  - exists t, o. split; [|done]. f_equal. symmetry. apply bool_decide_eq_false_2. intros He.
    apply Hl. by rewrite <- (length_sort_tokens t), He, length_sort_tokens.
  - exists (sort_tokens t), (sort_tokens o). split; [|by rewrite sort_tokens_id by apply sort_tokens_sorted]. f_equal.
    assert (length (sort_tokens t) = length (sort_tokens o)) as Hlen by (rewrite !length_sort_tokens; lia).
    pose proof (tokensDiffer_spec _ _ Hlen) as Ht. destruct (tokensDiffer _ _); simpl; symmetry.
    + apply bool_decide_eq_false_2. naive_solver.
    + apply bool_decide_eq_true_2. naive_solver.
Qed.

(** the lifecycler is the same up to the order of the tokens it remembers *)
Definition same_up_to_order (l l' : BasicLifecycler) : Prop :=
  bl_cfg l' = bl_cfg l ∧ bl_disk l' = bl_disk l ∧ sort_tokens (bl_GetTokens l') = sort_tokens (bl_GetTokens l).

Lemma verifyTokens_update_run e l x r i l' x' r' i' changed :
  Ingesters r !! cfg_ID (bl_cfg l) = Some i →
  verifyTokens_update e (l, x) r i = Some (l', x', (r', i', changed)) →
  r' = sorted_desc r ∧ same_up_to_order l l' ∧
  ((changed = false ∧ x' = true ∧ i' = sort_instance i ∧ sort_tokens (bl_GetTokens l) = sort_tokens (Tokens i)) ∨
   (changed = true ∧ x' = x ∧ ∃ new,
      GenerateTokens (b_draws e) (cfg_NumTokens (bl_cfg l) - Z.of_nat (length (Tokens i))) (GetTokens r).2 = Some new ∧
      i' = set_Tokens (sort_tokens (sort_tokens (Tokens i) ++ new)) i)).
Proof.
  intros Hi. unfold verifyTokens_update. rewrite TokensFor_eq.
  assert (ingester r (cfg_ID (bl_cfg l)) = i) as -> by (unfold ingester; by rewrite Hi).
  assert (ingester (sorted_desc r) (cfg_ID (bl_cfg l)) = sort_instance i) as ->.
  { unfold ingester, sorted_desc. simpl. by rewrite lookup_fmap, Hi. }
  destruct (Tokens_Equals_spec (sort_tokens (Tokens i)) (bl_GetTokens l)) as (t' & o' & -> & Ho).
  set (l0 := set_currInstanceDesc _ l).
  assert (same_up_to_order l l0) as Hsame.
  { split; [done|]. split; [done|]. unfold l0, bl_GetTokens in *. simpl. by destruct (currInstanceDesc l). }
  case_bool_decide as He.
  - intros [= <- <- <- <- <-]. split; [done|]. split; [done|]. left. split; [done|]. split; [done|]. split; [done|].
    by rewrite <- He, sort_tokens_id by apply sort_tokens_sorted.
  - rewrite length_sort_tokens. destruct (GenerateTokens _ _ _) as [new|] eqn:Hg; [|done].
    intros [= <- <- <- <- <-]. split; [done|]. split; [done|]. right. split; [done|]. split; [done|]. by exists new.
Qed.

Abbreviation verify_f := (updateInstance_f (KVErr:=KVErr) verifyTokens_update).
Lemma verify_f_run in_ e l x i0 o l' x' inst i :
  let ring := GetOrCreateRingDesc in_ in
  Ingesters ring !! cfg_ID (bl_cfg l) = Some i →
  verify_f in_ e (l, x, i0) = Some (o, (l', x', inst)) →
  same_up_to_order l l' ∧ cas_err o = None ∧
  ((cas_value o = None ∧ x' = true ∧ inst = sort_instance i ∧ sort_tokens (bl_GetTokens l) = sort_tokens (Tokens i)) ∨
   (x' = x ∧ cas_value o = Some (mkDesc (<[cfg_ID (bl_cfg l) := inst]> (Ingesters (sorted_desc ring)))) ∧ ∃ new,
      GenerateTokens (b_draws e) (cfg_NumTokens (bl_cfg l) - Z.of_nat (length (Tokens i))) (GetTokens ring).2 = Some new ∧
      inst = set_Timestamp (time_Unix (b_now e)) (set_Tokens (sort_tokens (sort_tokens (Tokens i) ++ new)) i))).
Proof.
  intros ring Hi. rewrite updateInstance_f_run. change (GetOrCreateRingDesc in_) with ring.
  rewrite (bool_decide_eq_true_2 (is_Some _)) by eauto. unfold current. rewrite Hi. simpl default. rewrite insert_id by done.
  assert (mkDesc (Ingesters ring) = ring) as -> by by destruct ring.
  destruct (verifyTokens_update _ _ _ _) as [[[l2 x2] [[r2 i2] c]]|] eqn:Hu; [|done].
  apply verifyTokens_update_run in Hu as (-> & Hsame & Hu); [|done]. simpl.
  destruct Hu as [(-> & -> & -> & Ht)|(-> & -> & new & Hg & ->)]; simpl.
  - intros [= <- <- <- <-]. split; [done|]. split; [done|]. by left.
  - rewrite bool_decide_eq_true_2 by done. intros [= <- <- <- <-]. split; [done|]. split; [done|]. right.
    split; [done|]. simpl. destruct Hsame as (-> & _). split; [done|]. by exists new.
Qed.

(** every attempt of the script finds the instance in the ring it reads *)
Definition finds l (s : script) : Prop :=
  ∀ a, Attempt a ∈ s → is_Some (Ingesters (GetOrCreateRingDesc (att_in a)) !! cfg_ID (bl_cfg l)).
Lemma finds_cfg l l' s : bl_cfg l' = bl_cfg l → finds l s → finds l' s.
Proof. unfold finds. by intros ->. Qed.

Lemma same_up_to_order_trans l1 l2 l3 : same_up_to_order l1 l2 → same_up_to_order l2 l3 → same_up_to_order l1 l3.
Proof. unfold same_up_to_order. intros (? & ? & ?) (? & ? & ?). split; [|split]; congruence. Qed.

Lemma verifyTokens_run (s : script) l l' (verified : bool) :
  verifyTokens s l = Some (verified, l') → finds l s →
  bl_cfg l' = bl_cfg l ∧
  (verified = true → ∃ a i, Attempt a ∈ s ∧
     Ingesters (GetOrCreateRingDesc (att_in a)) !! cfg_ID (bl_cfg l) = Some i ∧
     sort_tokens (bl_GetTokens l) = sort_tokens (Tokens i) ∧ currInstanceDesc l' = Some (sort_instance i)) ∧
  (∀ d' st, CAS verify_f s (l, false, InstanceDesc_zero) = Some (CasOk (Some d'), st) →
     verified = false ∧ currInstanceDesc l' = Ingesters d' !! cfg_ID (bl_cfg l) ∧
     ∃ a i, Attempt a ∈ s ∧ att_stored a = true ∧
       let ring := GetOrCreateRingDesc (att_in a) in
       Ingesters ring !! cfg_ID (bl_cfg l) = Some i ∧
       (∀ k, k ≠ cfg_ID (bl_cfg l) → Ingesters d' !! k = sort_instance <$> Ingesters ring !! k) ∧
       (∀ t, t ∈ Tokens i → t ∈ bl_GetTokens l') ∧
       Z.of_nat (length (bl_GetTokens l')) = Z.max (cfg_NumTokens (bl_cfg l)) (Z.of_nat (length (Tokens i))) ∧
       (tokens_ok ring → tokens_ok d' ∧ SSorted (bl_GetTokens l'))).
Proof.
  unfold verifyTokens. destruct (updateInstance _ _ _ _) as [[[err res] l1]|] eqn:Hu; [|done].
  intros Hv Hfinds. apply (updateInstance_inv (λ lx, same_up_to_order l lx.1 ∧ lx.2 = false)) in Hu; [|clear Hv..].
  2: { intros a [l0 x0] i0 o [l2 x2] i2 Ha [Hs Hx] Hrun Hgo. simpl in Hs, Hx. subst x0.
       destruct (finds_cfg l l0 s (proj1 Hs) Hfinds a Ha) as [i Hi].
       destruct (verify_f_run _ _ _ _ _ _ _ _ _ _ Hi Hrun) as (Hs' & He & [(Hn & _)|(-> & _)]); [by apply Hgo in He|].
       split; [by eapply same_up_to_order_trans|done]. }
  2: done.
  destruct err as [e|].
  { injection Hv as <- <-. destruct Hu as [[Hs _] Hno]. split; [apply Hs|]. split; [done|].
    intros d' st Hc. by apply Hno in Hc. }
  injection Hv as <- <-. destruct Hu as (a & l0 & x0 & i0 & o & l2 & inst & Ha & [Hs Hx] & Hrun & -> & Hcas & Hst).
  simpl in Hs, Hx. subst x0. destruct (finds_cfg l l0 s (proj1 Hs) Hfinds a Ha) as [i Hi].
  destruct (verify_f_run _ _ _ _ _ _ _ _ _ _ Hi Hrun) as (Hs' & _ & Hres). destruct Hs as (Hcfg & _ & Htok).
  split; [simpl; rewrite (proj1 Hs'); done|]. rewrite Hcfg in Hi, Hres.
  destruct Hres as [(Hv & -> & -> & Heq)|(-> & Hv & new & Hg & ->)]; rewrite Hv in Hcas.
  - split; [|intros d' st Hc; rewrite Hcas in Hc; simplify_eq].
    intros _. exists a, i. split; [done|]. split; [done|]. split; [congruence|done].
  - split; [done|]. intros d' st Hc. rewrite Hcas in Hc. injection Hc as <- _. split; [done|].
    unfold bl_GetTokens. simpl. rewrite lookup_insert_eq. split; [done|].
    exists a, i. split; [done|]. split; [apply Hst; congruence|]. split; [done|].
    pose proof (GenerateTokens_spec (b_draws (att_env a)) (cfg_NumTokens (bl_cfg l) - Z.of_nat (length (Tokens i)))
      (GetTokens (GetOrCreateRingDesc (att_in a))).2) as Hspec. rewrite Hg in Hspec. destruct Hspec as (Hlen & _).
    split; [intros k Hk; rewrite lookup_insert_ne by done; by rewrite lookup_fmap|].
    split; [intros t Ht; rewrite sort_tokens_elem, elem_of_app, sort_tokens_elem; by left|].
    split; [rewrite length_sort_tokens, length_app, length_sort_tokens; lia|].
    apply (fresh_entry_ok (GetOrCreateRingDesc (att_in a)) (cfg_ID (bl_cfg l))
      (set_Timestamp _ (set_Tokens (sort_tokens (sort_tokens (Tokens i) ++ new)) i)) _ _ new Hg).
    unfold ingester. by rewrite Hi.
Qed.

(** When the attempts of [verifyTokens] find the instance in the ring, it
    returns [true] only when the instance's tokens in the ring are those the
    lifecycler remembers; when it has to replace lost tokens it returns [false]
    and has written the ring with the remaining ones and fresh ones, [NumTokens]
    in all, without creating a conflict, and it remembers the entry it wrote. *)
Theorem basic_verifyTokens_correct (s : script) l l' (verified : bool) :
  verifyTokens s l = Some (verified, l') → finds l s →
  bl_cfg l' = bl_cfg l ∧
  (verified = true → ∃ a i, Attempt a ∈ s ∧
     Ingesters (GetOrCreateRingDesc (att_in a)) !! cfg_ID (bl_cfg l) = Some i ∧
     sort_tokens (bl_GetTokens l) = sort_tokens (Tokens i) ∧ currInstanceDesc l' = Some (sort_instance i)) ∧
  (∀ d' st, CAS verify_f s (l, false, InstanceDesc_zero) = Some (CasOk (Some d'), st) →
     verified = false ∧ currInstanceDesc l' = Ingesters d' !! cfg_ID (bl_cfg l) ∧
     ∃ a i, Attempt a ∈ s ∧ att_stored a = true ∧
       let ring := GetOrCreateRingDesc (att_in a) in
       Ingesters ring !! cfg_ID (bl_cfg l) = Some i ∧
       (∀ k, k ≠ cfg_ID (bl_cfg l) → Ingesters d' !! k = sort_instance <$> Ingesters ring !! k) ∧
       (∀ t, t ∈ Tokens i → t ∈ bl_GetTokens l') ∧
       Z.of_nat (length (bl_GetTokens l')) = Z.max (cfg_NumTokens (bl_cfg l)) (Z.of_nat (length (Tokens i))) ∧
       (tokens_ok ring → tokens_ok d' ∧ SSorted (bl_GetTokens l'))).
Proof. apply verifyTokens_run. Qed.

(** ** Starting *)
Lemma registerInstance_keeps delegate (s : script) l l' :
  registerInstance delegate s l = Some (None : option bl_error, l') →
  bl_cfg l' = bl_cfg l ∧ IsRegistered l' = true.
Proof.
  unfold registerInstance. destruct (CAS _ _ _) as [[r [l1 i1]]|] eqn:Hc; [|done].
  apply (CAS_inv (λ x, x.1 = l)) in Hc; [|intros v e [l0 i0] o [l2 i2] Hl0 Hr; cbn [fst] in *; subst l0; rewrite registerInstance_f_run in Hr; by injection Hr as _ <- _|done].
  simpl in Hc. subst l1. by destruct r as [w|e|e]; intros [= <-].
Qed.

Lemma heartbeat_keeps delegate (s : script) l l' : heartbeat (KVErr:=KVErr) delegate s l = Some l' → bl_cfg l' = bl_cfg l.
Proof.
  unfold heartbeat. destruct (updateInstance _ _ _ _) as [[[err []] l1]|] eqn:Hu; [|done]. intros [= <-].
  apply updateInstance_pure in Hu as [_ Hu].
  2: { intros e [l0 []] r i l2 [] res. unfold heartbeat_update. destruct (OnRingInstanceHeartbeat _ _ _ _ _). by intros [= <- <-]. }
  destruct err; [by subst|]. by destruct Hu as (a & i0 & o & inst & _ & _ & -> & _).
Qed.

(** the tokens of [l] are those one of the observations has read from the ring *)
Definition observed l1 (evs : list (wait_event (KVErr:=KVErr))) l : Prop :=
  ∃ s a i, WaitObserve s ∈ evs ∧ Attempt a ∈ s ∧
    Ingesters (GetOrCreateRingDesc (att_in a)) !! cfg_ID (bl_cfg l1) = Some i ∧ currInstanceDesc l = Some (sort_instance i).

Lemma waitStableTokens_observed delegate evs l l' :
  (∀ s, WaitObserve s ∈ evs → finds l s) →
  waitStableTokens delegate evs l = Some (None, l') → observed l evs l'.
Proof.
  assert (∀ l0 ev evs l', observed l0 evs l' → observed l0 (ev :: evs) l') as Hcons.
  { intros l0 ev evs' l1 (s & a & i & Hin & ?). exists s, a, i. split; [by right|done]. }
  assert (∀ l0 l1 evs l', bl_cfg l1 = bl_cfg l0 → observed l1 evs l' → observed l0 evs l') as Hcfg.
  { unfold observed. intros l0 l1 evs' l2 ->. done. }
  revert l. induction evs as [|ev evs IH]; intros l Hf Hr; [done|].
  assert (∀ l1, bl_cfg l1 = bl_cfg l → waitStableTokens delegate evs l1 = Some (None, l') → observed l (ev :: evs) l') as IH'.
  { intros l1 Hl1 Hw. apply Hcons, (Hcfg l l1 _ _ Hl1), IH; [|done].
    intros s Hs. apply (finds_cfg l); [done|]. apply Hf. by right. }
  destruct ev as [s|s|]; simpl in Hr; [| |done].
  - destruct (verifyTokens s l) as [[verified l1]|] eqn:Hv; [|done]. simpl in Hr.
    apply verifyTokens_run in Hv as (Hl1 & Htrue & _); [|apply Hf; by left].
    destruct verified; [|by eapply IH']. injection Hr as <-.
    destruct (Htrue eq_refl) as (a & i & Ha & Hi & _ & Hl'). exists s, a, i. split; [by left|done].
  - case_bool_decide; [done|]. destruct (heartbeat _ _ _) as [l1|] eqn:Hh; [|done]. simpl in Hr.
    eapply IH', Hr. by eapply heartbeat_keeps.
Qed.

(** A lifecycler with an observe period that has started is registered, and
    it hands its tokens to the delegate exactly when it has some; they are then
    the (sorted) tokens that an observation of the ring has found to be
    the instance's, provided the instance is in the rings it observes. *)
Theorem starting_stable delegate (s : script) (evs : list wait_event) l l' :
  starting delegate s evs l = Some (None : option bl_error, l') →
  0 < cfg_TokensObservePeriod (bl_cfg l) → (∀ s', WaitObserve s' ∈ evs → finds l s') →
  ∃ l1, IsRegistered l1 = true ∧
    l' = (if bool_decide (bl_GetTokens l1 = []) then l1 else OnRingInstanceTokens delegate l1 (bl_GetTokens l1)) ∧
    (bl_GetTokens l1 ≠ [] → observed l evs l1).
Proof.
  unfold starting. intros Hr Hp Hf.
  destruct (registerInstance _ _ _) as [[[|] l1]|] eqn:Hreg; [done| |done]. simpl in Hr.
  apply registerInstance_keeps in Hreg as [Hcfg Hregd].
  assert (∀ l2, bool_decide (0 < Z.of_nat (length (bl_GetTokens l2))) = negb (bool_decide (bl_GetTokens l2 = []))) as Hlen.
  { intros l2. destruct (bl_GetTokens l2) as [|t ts]; [done|]. rewrite (bool_decide_eq_true_2 (0 < _)) by (simpl; lia).
    by rewrite bool_decide_eq_false_2. }
  rewrite Hlen, Hcfg, (bool_decide_eq_true_2 (0 < _)), andb_true_r in Hr by done. case_bool_decide as Hnil; simpl in Hr.
  - rewrite Hlen, bool_decide_eq_true_2 in Hr by done. injection Hr as <-. exists l1.
    split; [done|]. by rewrite bool_decide_eq_true_2.
  - destruct (waitStableTokens _ _ _) as [[[|] l2]|] eqn:Hw; [done| |done]. simpl in Hr.
    apply waitStableTokens_observed in Hw; [|intros s' Hs'; apply (finds_cfg l); [done|by apply Hf]].
    unfold observed in Hw. rewrite Hcfg in Hw. rewrite Hlen in Hr. exists l2.
    split; [destruct Hw as (? & ? & ? & _ & _ & _ & Hc); unfold IsRegistered; by rewrite Hc|].
    split; [by case_bool_decide; simpl in Hr; simplify_eq|]. done.
Qed.

(** ** The shutdown *)
#[local] Arguments updateInstance_f : simpl never.

(** what one attempt of a thread makes of the instance's entry *)
Lemma op_attempt delegate op d e l i o l' inst :
  (∀ l r i e, State (OnRingInstanceHeartbeat delegate l r i e).2 = State i ∧
              Tokens (OnRingInstanceHeartbeat delegate l r i e).2 = Tokens i) →
  Ingesters d !! cfg_ID (bl_cfg l) = Some i →
  updateInstance_f (KVErr:=KVErr) (op_update delegate op) (Some d) e (l, tt, InstanceDesc_zero) = Some (o, (l', tt, inst)) →
  l' = l ∧ Tokens inst = Tokens i ∧ State inst = match op with OpHeartbeat => State i | OpChangeState st => st end ∧
  match cas_value o with
  | Some v => Ingesters v !! cfg_ID (bl_cfg l) = Some inst
  | None => State inst = State i
  end.
Proof.
  intros Hhb Hi. rewrite updateInstance_f_run. simpl. rewrite (bool_decide_eq_true_2 (is_Some _)) by eauto.
  unfold current. rewrite Hi. simpl default. rewrite insert_id by done.
  destruct op as [|st]; simpl op_update.
  - unfold heartbeat_update. destruct (Hhb l (mkDesc (Ingesters d)) i e) as [Hst Ht].
    destruct (OnRingInstanceHeartbeat _ _ _ _ _) as [r1 i1]. simpl in *.
    case_bool_decide; intros [= <- <- <-]; simpl; rewrite ?lookup_insert_eq; done.
  - unfold changeState_update. case_bool_decide as Hst; simpl.
    + intros [= <- <- <-]. done.
    + case_bool_decide; intros [= <- <- <-]; simpl; rewrite ?lookup_insert_eq; done.
Qed.

(** the state the instance is moving to, from the state of its entry [i] *)
Definition target (s : stop_state) (i : InstanceDesc) : InstanceState :=
  match st_delegate s with Some (Attempting (OpChangeState st)) => st | _ => State i end.
Record stop_inv (cfg : BasicLifecyclerConfig) (ts : list Z) (final : InstanceState) (s : stop_state) : Prop := {
  stop_cfg : bl_cfg (st_lc s) = cfg;
  stop_ring : ∃ d i, st_ring s = Some d ∧ Ingesters d !! cfg_ID cfg = Some i ∧ Tokens i = ts ∧
    List.last (st_todo s) (target s i) = final;
  stop_loop : ∀ op, st_loop s = Some (Attempting op) → op = OpHeartbeat;
  stop_delegate : ∀ op, st_delegate s = Some (Attempting op) → ∃ st, op = OpChangeState st
}.

Lemma last_cons_default {A} (x y : A) (xs : list A) : List.last (x :: xs) y = List.last xs x.
Proof.
  revert x y. induction xs as [|z xs IH]; intros x y; [done|].
  change (List.last (z :: xs) y = List.last (z :: xs) x). by rewrite (IH z y), (IH z x).
Qed.

Lemma stopping_step_inv delegate cfg ts final ev s s' :
  (∀ l r i e, State (OnRingInstanceHeartbeat delegate l r i e).2 = State i ∧
              Tokens (OnRingInstanceHeartbeat delegate l r i e).2 = Tokens i) →
  ev ≠ StoreFails DelegateThread → (∀ i, ev ≠ OthersWrite (cfg_ID cfg) i) →
  stop_inv cfg ts final s → stop_step (KVErr:=KVErr) delegate ev s = Some s' → stop_inv cfg ts final s'.
Proof.
  intros Hhb Hf Ho [Hcfg (d & i & Hd & Hi & Ht & Hlast) Hl Hdel] Hs.
  destruct ev as [| |t e stored|t|t|k oi]; simpl in Hs.
  - case_bool_decide; [done|]. destruct (st_loop s); [done|]. injection Hs as <-.
    constructor; simpl; [done|by exists d, i|by intros op [= <-]|done].
  - destruct (st_delegate s) eqn:Hsd; [done|]. destruct (st_todo s) as [|st todo] eqn:Htodo; [done|]. injection Hs as <-.
    constructor; simpl; [done| |done|intros op [= <-]; eauto]. exists d, i. do 3 (split; [done|]).
    unfold target in *. simpl. by rewrite last_cons_default in Hlast.
  - destruct (phase_of t s) as [[op|]|] eqn:Hp; [|done..]. rewrite Hd in Hs.
    destruct (updateInstance_f (KVErr:=KVErr) _ _ _ _) as [[o [[l' []] inst]]|] eqn:Hu; [|done]. simpl in Hs. rewrite <- Hcfg in Hi.
    destruct (op_attempt _ _ _ _ _ _ _ _ _ Hhb Hi Hu) as (-> & Htok & Hst & Hv). rewrite Hcfg in Hi, Hv.
    assert (List.last (st_todo s) (match t with LoopThread => target s inst | DelegateThread => State inst end) = final) as Hfin.
    { destruct t; simpl in Hp; unfold target in *.
      - rewrite (Hl _ Hp) in Hst. by rewrite Hst.
      - rewrite Hp in Hlast. destruct (Hdel _ Hp) as [st ->]. by rewrite Hst. }
    destruct (cas_value o) as [v|]; [destruct stored|].
    + injection Hs as <-. destruct t; (constructor; simpl; [done| |done|done]); by exists v, inst; rewrite Htok.
    + injection Hs as <-. constructor; simpl; [done|by rewrite Hd; exists d, i|done|done].
    + injection Hs as <-. destruct t; (constructor; simpl; [done| |done|done]); rewrite Hd; exists d, i;
        (do 3 (split; [done|])); [done|]. unfold target. simpl. by rewrite <- Hv.
  - destruct (phase_of t s) as [[op|]|] eqn:Hp; [|done..]. injection Hs as <-. destruct t; [|done].
    constructor; simpl; [done|by exists d, i|done|done].
  - destruct (phase_of t s) as [[|inst]|] eqn:Hp; [done| |done]. injection Hs as <-.
    destruct t; (constructor; simpl; [done| |done|done]); exists d, i; (do 3 (split; [done|])); [done|].
    simpl in Hp. unfold target in *. by rewrite Hp in Hlast.
  - injection Hs as <-. constructor; simpl; [done| |done|done]. rewrite Hd. simpl. eexists _, i. split; [done|].
    split; [|done]. simpl. rewrite lookup_partial_alter_ne; [done|]. intros ->. by apply (Ho oi).
Qed.

(** C30. Whatever the interleaving of the heartbeats with the calls of
    [changeState] of the stopping delegate, and whatever other processes write
    in the meantime to other entries, once both are over, and unless the store
    has failed a call of the delegate, the instance is in the ring with its
    tokens and the last state the delegate has asked for: no heartbeat brings
    the instance back to an earlier state. *)
Theorem stopping_final_state delegate (d : Desc) (i : InstanceDesc) (evs : list stop_event) l (s : stop_state) :
  (∀ l r i e, State (OnRingInstanceHeartbeat delegate l r i e).2 = State i ∧
              Tokens (OnRingInstanceHeartbeat delegate l r i e).2 = Tokens i) →
  Ingesters d !! cfg_ID (bl_cfg l) = Some i →
  StoreFails DelegateThread ∉ evs → (∀ oi, OthersWrite (cfg_ID (bl_cfg l)) oi ∉ evs) →
  stop_run (KVErr:=KVErr) delegate evs (stop_start delegate (Some d) l) = Some s → heartbeats_over s = true →
  ∃ d' i', st_ring s = Some d' ∧ Ingesters d' !! cfg_ID (bl_cfg l) = Some i' ∧ Tokens i' = Tokens i ∧
    State i' = List.last (OnRingInstanceStopping delegate) (State i).
Proof.
  intros Hhb Hi Hf Ho Hrun Hover.
  assert (stop_inv (bl_cfg l) (Tokens i) (List.last (OnRingInstanceStopping delegate) (State i)) s) as Hinv.
  { assert (stop_inv (bl_cfg l) (Tokens i) (List.last (OnRingInstanceStopping delegate) (State i)) (stop_start delegate (Some d) l))
      as Hinv by (constructor; [done|by exists d, i|done|done]).
    revert Hf Ho Hinv Hrun. generalize (stop_start delegate (Some d) l) as s0.
    induction evs as [|ev evs IH]; intros s0 Hf Ho Hinv Hrun; simpl in Hrun; [by simplify_eq|].
    destruct (stop_step _ _ _) as [s1|] eqn:Hs; [|done]. apply (IH s1); [set_solver..| |done].
    eapply stopping_step_inv, Hs; [done|set_solver|intros oi ->; by eapply Ho, elem_of_cons; left|done]. }
  destruct Hinv as [_ (d' & i' & Hd' & Hi' & Ht & Hlast) _ _]. exists d', i'. do 3 (split; [done|]).
  unfold heartbeats_over, target in *. destruct (st_loop s), (st_delegate s), (st_todo s); done.
Qed.
End facts.

(** ** Witnesses and divergences *)
Section witnesses.
#[local] Existing Instance map_range_std.

Definition ex_cfg : BasicLifecyclerConfig := mkBasicLifecyclerConfig "a" "1.1.1.1" "z1" (5 * Second) (10 * Second) 2 true.
Definition ex_bl : BasicLifecycler := NewBasicLifecycler ex_cfg ∅.
(** joins with the tokens it has, or with two given ones *)
Definition ex_next : BasicLifecyclerDelegate := {|
  OnRingInstanceRegister := λ _ _ found _ i _, (JOINING, if found then Tokens i else [90; 5]);
  OnRingInstanceTokens := λ l _, l;
  OnRingInstanceStopping := [];
  OnRingInstanceHeartbeat := λ _ r i _, (r, i)
|}.
Definition ex_other : InstanceDesc := mkInstanceDesc "2.2.2.2" 10 ACTIVE [7; 8] "z2" 10.
Definition ex_mine (st : InstanceState) (ts : list Z) : InstanceDesc := mkInstanceDesc "1.1.1.1" 90 st ts "z1" 90.
Definition ex_ring (st : InstanceState) (ts : list Z) : Desc :=
  mkDesc (<["a" := ex_mine st ts]> (<["b" := ex_other]> ∅)).
Definition ex_att (d : option Desc) (stored : bool) : cas_event Desc basic_env unit :=
  Attempt (mkAttempt d (mkBasicEnv (100 * Second) [7; 30]) stored).

Definition ex_registered : BasicLifecycler := set_currInstanceDesc (Some (mkInstanceDesc "1.1.1.1" 100 JOINING [5; 90] "z1" 100)) ex_bl.
Lemma ex_registered_run : registerInstance ex_next [ex_att None false; ex_att (Some (mkDesc ∅)) true] ex_bl = Some (None, ex_registered).
Proof. vm_compute. reflexivity. Qed.
Lemma registerInstance_correct_witness : IsRegistered ex_registered = true.
Proof.
  destruct (registerInstance_correct _ _ _ _ _ ex_registered_run) as (a & _ & _ & -> & _). reflexivity.
Defined.

(** "b" has not sent a heartbeat for 90 seconds *)
Definition ex_beat := updateInstance (heartbeat_update (AutoForgetDelegate (60 * Second) ex_next))
  [ex_att (Some (ex_ring ACTIVE [5; 90])) true] tt ex_registered.
Lemma ex_beat_run : ex_beat = Some ((None, tt), set_currInstanceDesc (Some (set_Timestamp 100 (ex_mine ACTIVE [5; 90]))) ex_registered).
Proof. vm_compute. reflexivity. Qed.
Lemma heartbeat_forgets_witness : ∃ w st, CAS (updateInstance_f (KVErr:=unit) (heartbeat_update (AutoForgetDelegate (60 * Second) ex_next)))
  [ex_att (Some (ex_ring ACTIVE [5; 90])) true] (ex_registered, tt, InstanceDesc_zero) = Some (CasOk (Some w), st).
Proof.
  destruct (heartbeat_forgets ex_next _ _ _ _ _ (λ _ _ _ _, eq_refl) ex_beat_run) as (a & _ & _ & _ & Hc).
  eexists _, _. exact Hc.
Defined.

(** the instance has lost its token 90 *)
Definition ex_lost_script := [ex_att (Some (ex_ring JOINING [5])) true].
Definition ex_verified : BasicLifecycler :=
  set_currInstanceDesc (Some (set_Timestamp 100 (ex_mine JOINING [5; 30]))) ex_registered.
Lemma ex_basic_verified_run : verifyTokens ex_lost_script ex_registered = Some (false, ex_verified).
Proof. vm_compute. reflexivity. Qed.
Lemma ex_finds ts : finds ex_registered [ex_att (Some (ex_ring JOINING ts)) true].
Proof. intros a [= ->]%list_elem_of_singleton. simpl. eauto. Qed.
Lemma basic_verifyTokens_correct_witness : bl_cfg ex_verified = ex_cfg.
Proof.
  destruct (basic_verifyTokens_correct _ _ _ _ ex_basic_verified_run (ex_finds [5])) as (-> & _). reflexivity.
Defined.

Lemma ex_starting_run :
  starting (KVErr:=unit) ex_next [ex_att None true]
    [WaitObserve [ex_att (Some (ex_ring JOINING [90; 5])) true]] ex_bl =
  Some (None, set_currInstanceDesc (Some (ex_mine JOINING [5; 90])) ex_bl).
Proof. vm_compute. reflexivity. Qed.
Lemma starting_stable_witness : ∃ l1, IsRegistered l1 = true.
Proof.
  destruct (starting_stable _ _ _ _ _ ex_starting_run ltac:(reflexivity)) as (l1 & Hr & _); [|exists l1; exact Hr].
  intros s' [= ->]%list_elem_of_singleton. apply (ex_finds [90; 5]).
Defined.

(** The heartbeat has written the ring before the delegate moves the instance to
    LEAVING, and remembers its entry after it: the lifecycler then says ACTIVE
    of an instance that is LEAVING in the ring. *)
Definition ex_env : basic_env := mkBasicEnv (100 * Second) [].
Definition ex_race : list stop_event :=
  [TickerFires; AttemptOf LoopThread ex_env true; DelegateCalls; AttemptOf DelegateThread ex_env true;
   CommitOf DelegateThread; OthersWrite "b" None; CommitOf LoopThread].
Definition ex_stopped := stop_run (KVErr:=unit) (LeaveOnStoppingDelegate ex_next) ex_race
  (stop_start (LeaveOnStoppingDelegate ex_next) (Some (ex_ring ACTIVE [5; 90])) ex_registered).
Lemma stopping_state_race : ∃ s, ex_stopped = Some s ∧ heartbeats_over s = true ∧
  bl_GetState (st_lc s) = ACTIVE ∧ ∃ d i, st_ring s = Some d ∧ Ingesters d !! "a" = Some i ∧ State i = LEAVING.
Proof. vm_compute. eexists. repeat split. eexists _, _. repeat split. Qed.

Lemma stopping_final_state_witness : ∃ s d' i', ex_stopped = Some s ∧ st_ring s = Some d' ∧
  Ingesters d' !! "a" = Some i' ∧ State i' = LEAVING.
Proof.
  destruct ex_stopped as [s|] eqn:Hs; [|vm_compute in Hs; discriminate].
  destruct (stopping_final_state (KVErr:=unit) (LeaveOnStoppingDelegate ex_next) (ex_ring ACTIVE [5; 90]) (ex_mine ACTIVE [5; 90])
    ex_race ex_registered s) as (d' & i' & H1 & H2 & _ & H3).
  - intros l r i e. split; reflexivity.
  - reflexivity.
  - unfold ex_race. intros Hin. repeat (apply elem_of_cons in Hin as [Hin|Hin]; [discriminate|]). by apply elem_of_nil in Hin.
  - intros oi Hin. repeat (apply elem_of_cons in Hin as [Hin|Hin]; [discriminate|]). by apply elem_of_nil in Hin.
  - exact Hs.
  - vm_compute in Hs. injection Hs as <-. reflexivity.
  - exists s, d', i'. repeat split; done.
Defined.

(** [result] survives an attempt that has not been stored: the instance was
    missing from the ring the first time and is added back; the second time it is
    there, with a token lost to another instance.  New tokens are registered, and
    [verifyTokens] says they have been verified. *)
Lemma verifyTokens_stale_result :
  verifyTokens [ex_att (Some (mkDesc ∅)) false; ex_att (Some (ex_ring JOINING [5])) true] ex_registered = Some (true, ex_verified).
Proof. vm_compute. reflexivity. Qed.

(** the registration time handed to the next delegate when tokens are loaded from
    a file is that of the zero time, not the [0] that stands for unknown *)
Lemma loaded_registered_timestamp : time_Unix (bl_GetRegisteredAt ex_bl) = -62135596800.
Proof. vm_compute. reflexivity. Qed.
End witnesses.
