(* ===== verification/CASLoop.v ===== *)
(** * The optimistic CAS loop of the Consul and etcd clients

    [kv/consul/client.go] and [kv/etcd/etcd.go] implement [CAS] by the same loop:
    read the value and its version, call the callback, swap if the version has
    not changed.  [VersionedStore] is what the loop uses of a store,
    [VersionedLaws] what makes it atomic; the codec is that of [kv/codec]. *)
From Stdlib Require Import ZArith Lia.
From stdpp Require Import base gmap strings list sorting fin_maps.
From S2P Require Import Prelude TokensFile KV.

(** ** [codec.Codec] *)
Class Codec (V : Type) := {
  codec_Decode : bytes → option V;       (* [None]: an error *)
  codec_Encode : V → option bytes
}.
(** what is encoded can be decoded *)
Definition codec_roundtrip {V} (C : Codec V) : Prop := ∀ v b, codec_Encode v = Some b → codec_Decode b = Some v.

(** [codec.String]: a Go string is its bytes *)
Definition String_codec : Codec bytes := {| codec_Decode := λ b, Some b; codec_Encode := λ v, Some v |}.

(** ** Stores *)
(** [vs_read] is the value of a key with its version, [vs_swap] replaces it if it
    has the version given, [vs_write] is what an accepted swap does, and [vs_op]
    what another client does. *)
Class VersionedStore (St Op : Type) := {
  vs_read : string → St → option (bytes * Z);
  vs_swap : string → bytes → Z → St → bool * St;
  vs_write : string → bytes → St → St;
  vs_op : St → Op → St
}.

(** For one key, and other clients that keep to [op_ok]: [vs_later n m m'] says
    that at most [n] steps lead from [m] to [m'], [vs_room n m] that versions do
    not overflow in [n] steps, and [vs_index i m] that [i] is a version read in
    the past. *)
Class VersionedLaws {St Op} `{VersionedStore St Op} (key : string) (op_ok : Op → Prop) := {
  vs_inv : St → Prop;
  vs_room : Z → St → Prop;
  vs_later : Z → St → St → Prop;
  vs_index : Z → St → Prop;
  vs_later_inv : ∀ n m m', vs_later n m m' → vs_inv m';
  vs_later_refl : ∀ m, vs_inv m → vs_later 0 m m;
  vs_later_trans : ∀ a b m1 m2 m3, vs_later a m1 m2 → vs_later b m2 m3 → vs_later (a + b) m1 m3;
  vs_later_mono : ∀ a b m m', a ≤ b → vs_later a m m' → vs_later b m m';
  vs_room_later : ∀ a b m m', 0 ≤ b → vs_later a m m' → vs_room (a + b) m → vs_room b m';
  vs_room_mono : ∀ a b m, a ≤ b → vs_room b m → vs_room a m;
  vs_op_later : ∀ op m, vs_inv m → vs_room 1 m → op_ok op → vs_later 1 m (vs_op m op);
  vs_write_later : ∀ b m, vs_inv m → vs_room 1 m → vs_later 1 m (vs_write key b m);
  vs_index_0 : ∀ m, vs_inv m → vs_index 0 m;
  vs_index_later : ∀ n i m m', vs_index i m → vs_later n m m' → vs_index i m';
  vs_index_read : ∀ m b i, vs_inv m → vs_read key m = Some (b, i) → vs_index i m;
  vs_swap_false : ∀ b i m m', vs_swap key b i m = (false, m') → m' = m;
  (* an accepted swap meets the value that was read with its version, or no value
     when there was none *)
  vs_swap_true : ∀ n b i m0 m1 m2, vs_inv m0 → vs_later n m0 m1 →
    (match vs_read key m0 with Some (_, v) => i = v | None => vs_index i m0 end) →
    vs_swap key b i m1 = (true, m2) → m2 = vs_write key b m1 ∧ vs_read key m1 = vs_read key m0
}.

(** ** The loop *)
Inductive loop_error (CErr : Type) :=
| LoopGet
| LoopDecode
| LoopCallback (e : CErr)
| LoopEncode
| LoopSwap.
Arguments LoopGet {CErr}.
Arguments LoopDecode {CErr}.
Arguments LoopCallback {CErr} e.
Arguments LoopEncode {CErr}.
Arguments LoopSwap {CErr}.

Section loop.
Context {V Env CErr S St Op : Type} `{C : Codec V} `{VS : VersionedStore St Op}.

(** One turn: what others do before the request to read, whether it fails, what
    the callback reads from its environment, what others do before the request to
    swap, and whether it fails. *)
Record cas_turn := mkTurn {
  ops_before : list Op;
  get_fails : bool;
  turn_env : Env;
  ops_between : list Op;
  swap_fails : bool
}.
Abbreviation callback := (option V → Env → S → option (cas_out V CErr * S)).
(** the error of a loop that ends without a verdict is the last one met *)
Abbreviation answer := (option (cas_result V CErr (option (loop_error CErr)) * S * St)).

Definition do_ops (ops : list Op) (m : St) : St := foldl vs_op m ops.

Inductive turn_outcome :=
| TurnReturns (r : cas_result V CErr (option (loop_error CErr))) (s : S) (m : St)
| TurnContinues (index : Z) (lastErr : option (loop_error CErr)) (s : S) (m : St).
(** [index] is the version read last; [None]: the callback has not returned *)
Definition cas_body (key : string) (f : callback) (index : Z) (lastErr : option (loop_error CErr))
    (t : cas_turn) (m : St) (s : S) : option turn_outcome :=
  let m := do_ops (ops_before t) m in
  if get_fails t then Some (TurnContinues index (Some LoopGet) s m)
  else
    match (match vs_read key m with
           | None => Some (index, None)
           | Some (b, version) => v ← codec_Decode b; Some (version, Some v)
           end) with
    | None => Some (TurnContinues index (Some LoopDecode) s m)
    | Some (index, intermediate) =>
        '(out, s) ← f intermediate (turn_env t) s;
        match cas_err out with
        | Some e =>
            Some (if negb (cas_retry out) then TurnReturns (CasCallbackErr e) s m
                  else TurnContinues index (Some (LoopCallback e)) s m)
        | None =>
            match cas_value out with
            | None => Some (TurnReturns (CasOk None) s m)
            | Some v =>
                match codec_Encode v with
                | None => Some (TurnContinues index (Some LoopEncode) s m)
                | Some b =>
                    let m := do_ops (ops_between t) m in
                    if swap_fails t then Some (TurnContinues index (Some LoopSwap) s m)
                    else
                      let '(ok, m) := vs_swap key b index m in
                      Some (if ok : bool then TurnReturns (CasOk (Some v)) s m else TurnContinues index lastErr s m)
                end
            end
        end
    end.

(** [None]: a request has no answer yet *)
Fixpoint cas_loop (key : string) (f : callback) (retries : nat) (index : Z) (lastErr : option (loop_error CErr))
    (turns : list cas_turn) (m : St) (s : S) : answer :=
  match retries, turns with
  | O, _ => Some (CasKVErr lastErr, s, m)
  | Datatypes.S _, [] => None
  | Datatypes.S retries, t :: turns =>
      o ← cas_body key f index lastErr t m s;
      match o with
      | TurnReturns r s m => Some (r, s, m)
      | TurnContinues index lastErr s m => cas_loop key f retries index lastErr turns m s
      end
  end.
End loop.
Arguments cas_turn : clear implicits.

(** ** Atomicity *)
Section facts.
Context {V Env CErr S St Op : Type} `{C : Codec V} `{VS : VersionedStore St Op}.
Variable key : string.
Variable op_ok : Op → Prop.
Context {L : VersionedLaws key op_ok}.
Variable f : option V → Env → S → option (cas_out V CErr * S).
Abbreviation turn := (cas_turn Env Op).
Abbreviation KVErr := (option (loop_error CErr)).
Implicit Types (turns : list turn) (m : St) (s : S).

(** the value the key holds *)
Definition stored m : option V := '(b, _) ← vs_read key m; codec_Decode b.

Definition turn_ok (t : turn) : Prop := Forall op_ok (ops_before t) ∧ Forall op_ok (ops_between t).
Definition cost turns : Z :=
  foldr (λ t n, Z.of_nat (length (ops_before t)) + Z.of_nat (length (ops_between t)) + 1 + n) 0 turns.
Definition of_others turns (op : Op) : Prop := ∃ t, t ∈ turns ∧ (op ∈ ops_before t ∨ op ∈ ops_between t).

(** The last thing that happens to the store is a write of [v], by a callback
    whose input was the value the key had just before. *)
Definition written_atomically turns m s' m' (v : V) : Prop :=
  ∃ ops env s0 out b, Forall (of_others turns) ops ∧ codec_Encode v = Some b ∧
    m' = vs_write key b (do_ops ops m) ∧
    f (stored (do_ops ops m)) env s0 = Some (out, s') ∧ cas_err out = None ∧ cas_value out = Some v.
Definition outcome {E} turns m s' m' (r : cas_result V CErr E) : Prop :=
  match r with
  | CasOk (Some v) => written_atomically turns m s' m' v
  | _ => ∃ ops, Forall (of_others turns) ops ∧ m' = do_ops ops m
  end.

Lemma cost_nonneg turns : 0 ≤ cost turns.
Proof. induction turns as [|t turns IH]; simpl; lia. Qed.
Lemma do_ops_app a b m : do_ops (a ++ b) m = do_ops b (do_ops a m).
Proof. apply foldl_app. Qed.
Lemma do_ops_later ops m : vs_room (Z.of_nat (length ops)) m → vs_inv m → Forall op_ok ops →
  vs_later (Z.of_nat (length ops)) m (do_ops ops m).
Proof.
  revert m. induction ops as [|op ops IH]; intros m Hr Hinv Hok; simpl; [by apply vs_later_refl|].
  apply Forall_cons in Hok as [Hop Hok]. simpl length in *.
  assert (vs_later 1 m (vs_op m op)) as Hl.
  { apply vs_op_later; [done| |done]. eapply vs_room_mono, Hr. lia. }
  apply (vs_later_mono (1 + Z.of_nat (length ops))); [lia|]. eapply vs_later_trans; [exact Hl|]. apply IH; [|by eapply vs_later_inv|done].
  eapply (vs_room_later 1); [lia|exact Hl|]. eapply vs_room_mono, Hr. lia.
Qed.

(** a turn that has only let the others act *)
Lemma outcome_skip {E} t turns ops m s' m' (r : cas_result V CErr E) :
  Forall (of_others (t :: turns)) ops → outcome turns (do_ops ops m) s' m' r → outcome (t :: turns) m s' m' r.
Proof.
  assert (∀ ops', Forall (of_others turns) ops' → Forall (of_others (t :: turns)) ops') as Hmono.
  { intros ops' Ho. eapply Forall_impl; [exact Ho|]. intros op (t' & Ht' & ?). exists t'. split; [by right|done]. }
  intros Hops. destruct r as [[v|]|e|e]; simpl.
  - intros (ops' & env & s0 & out & b & Ho & Hb & -> & Hf & ?). exists (ops ++ ops'), env, s0, out, b.
    rewrite do_ops_app. split; [apply Forall_app; auto|done].
  - intros (ops' & Ho & ->). exists (ops ++ ops'). rewrite do_ops_app. split; [apply Forall_app; auto|done].
  - intros (ops' & Ho & ->). exists (ops ++ ops'). rewrite do_ops_app. split; [apply Forall_app; auto|done].
  - intros (ops' & Ho & ->). exists (ops ++ ops'). rewrite do_ops_app. split; [apply Forall_app; auto|done].
Qed.

(** what a turn that goes on has done: at most one attempt, which is not stored *)
Definition continues (t : turn) m s i s1 m1 : Prop :=
  vs_index i m1 ∧ (∃ ops, Forall (of_others [t]) ops ∧ m1 = do_ops ops m) ∧
  ∃ pre, (length pre ≤ 1)%nat ∧ ∀ script (r : cas_result V CErr KVErr) s', CAS f script s1 = Some (r, s') → CAS f (pre ++ script) s = Some (r, s').

Lemma of_this t ops : ops `sublist_of` ops_before t ++ ops_between t → Forall (of_others [t]) ops.
Proof.
  intros Hs. apply Forall_forall. intros op Hop. exists t. split; [by left|]. apply elem_of_app. by eapply elem_of_sublist.
Qed.

(** the index and the input a turn reads *)
Lemma read_spec index m i in_ :
  vs_inv m → vs_index index m →
  match vs_read key m with
  | None => Some (index, None)
  | Some (b, version) => v ← codec_Decode b; Some (version, Some v)
  end = Some (i, in_) →
  in_ = stored m ∧ vs_index i m ∧ match vs_read key m with Some (_, v) => i = v | None => vs_index i m end.
Proof.
  intros Hinv Hi. unfold stored. destruct (vs_read key m) as [[b v]|] eqn:Hr; simpl; [|by intros [= <- <-]].
  apply vs_index_read in Hr; [|done].
  destruct (codec_Decode b); [|done]. by intros [= <- <-].
Qed.

(** one run of the callback in the contract *)
Lemma CAS_one a s out s1 : f (att_in a) (att_env a) s = Some (out, s1) →
  (∀ e, cas_err out = Some e → cas_retry out = false → CAS (KVErr:=KVErr) f [Attempt a] s = Some (CasCallbackErr e, s1)) ∧
  (cas_err out = None → cas_value out = None → CAS (KVErr:=KVErr) f [Attempt a] s = Some (CasOk None, s1)) ∧
  (∀ v, cas_err out = None → cas_value out = Some v → att_stored a = true →
     CAS (KVErr:=KVErr) f [Attempt a] s = Some (CasOk (Some v), s1)) ∧
  (att_stored a = false → (∀ e, cas_err out = Some e → cas_retry out = true) → (cas_err out = None → cas_value out ≠ None) →
     ∀ script, CAS (KVErr:=KVErr) f (Attempt a :: script) s = CAS f script s1).
Proof.
  intros Hf. simpl. rewrite Hf. destruct (cas_err out) as [e|], (cas_value out) as [v|], (att_stored a), (cas_retry out) eqn:Hr;
    split_and!; intros; simplify_eq; try done; naive_solver.
Qed.

Lemma cas_body_spec index lastErr t m s o :
  cas_body key f index lastErr t m s = Some o →
  vs_inv m → turn_ok t → vs_room (cost [t]) m → vs_index index m →
  match o with
  | TurnReturns r s' m' =>
      (∃ script, (length script ≤ 1)%nat ∧ CAS f script s = Some (r, s')) ∧ vs_later (cost [t]) m m' ∧ outcome [t] m s' m' r
  | TurnContinues i _ s1 m1 => vs_later (cost [t]) m m1 ∧ continues t m s i s1 m1
  end.
Proof.
  intros Hr Hinv [Hb Ha] Hroom Hix. unfold cas_body in Hr.
  assert (cost [t] = Z.of_nat (length (ops_before t)) + Z.of_nat (length (ops_between t)) + 1) as Hcost by (simpl; lia).
  rewrite Hcost in *. set (n0 := Z.of_nat (length (ops_before t))) in *. set (n1 := Z.of_nat (length (ops_between t))) in *.
  assert (vs_later n0 m (do_ops (ops_before t) m)) as Hl0 by (apply do_ops_later; [eapply vs_room_mono, Hroom; lia|done..]).
  set (m0 := do_ops (ops_before t) m) in *. pose proof (vs_later_inv _ _ _ Hl0) as Hinv0.
  assert (vs_room (n1 + 1) m0) as Hroom0 by (eapply (vs_room_later n0), vs_room_mono, Hroom; [lia|done|lia]).
  assert (vs_later (n0 + n1 + 1) m m0) as Hlat0 by (eapply vs_later_mono, Hl0; lia).
  assert (∃ ops, Forall (of_others [t]) ops ∧ m0 = do_ops ops m) as Hops0.
  { exists (ops_before t). split; [by apply of_this, sublist_inserts_r|done]. }
  pose proof (vs_index_later _ _ _ _ Hix Hl0) as Hix0.
  assert (continues t m s index s m0) as Hskip.
  { split; [done|]. split; [done|]. exists []. split; [simpl; lia|done]. }
  destruct (get_fails t); [by injection Hr as <-|].
  destruct (match vs_read key m0 with None => Some (index, None) | Some _ => _ end) as [[i in_]|] eqn:Hread; [|by injection Hr as <-].
  destruct (read_spec index m0 i in_ Hinv0 Hix0 Hread) as (-> & Hi & Hidx).
  destruct (f (stored m0) (turn_env t) s) as [[out s1]|] eqn:Hf; [|done]. simpl in Hr.
  set (a b := mkAttempt (stored m0) (turn_env t) b).
  destruct (CAS_one (a false) s out s1 Hf) as (Herr1 & Hnil1 & _ & Hagain).
  specialize (Hagain eq_refl).
  assert (∀ m1, (cas_err out ≠ None → cas_retry out = true) → (cas_err out = None → cas_value out ≠ None) →
    vs_index i m1 → (∃ ops, Forall (of_others [t]) ops ∧ m1 = do_ops ops m) → continues t m s i s1 m1) as Hgo.
  { intros m1 Hre Hv Hc Hops. split; [done|]. split; [done|]. exists [Attempt (a false)]. split; [simpl; lia|].
    intros script r s' Hcas. simpl. change (CAS f (Attempt (a false) :: script) s = Some (r, s')).
    rewrite Hagain; [done| |done]. intros e He. apply Hre. congruence. }
  destruct (cas_err out) as [e|] eqn:Herr.
  { injection Hr as <-. destruct (cas_retry out) eqn:Hret; simpl.
    - split; [done|]. by apply Hgo.
    - split; [exists [Attempt (a false)]; split; [simpl; lia|by apply Herr1]|]. done. }
  destruct (cas_value out) as [v|] eqn:Hv; cycle 1.
  { injection Hr as <-. split; [exists [Attempt (a false)]; split; [simpl; lia|by apply Hnil1]|]. done. }
  destruct (codec_Encode v) as [b|] eqn:Henc; [|injection Hr as <-; split; [done|by apply Hgo]].
  assert (vs_later n1 m0 (do_ops (ops_between t) m0)) as Hl1 by (apply do_ops_later; [eapply vs_room_mono, Hroom0; lia|done..]).
  set (m1 := do_ops (ops_between t) m0) in *. pose proof (vs_later_inv _ _ _ Hl1) as Hinv1.
  assert (m1 = do_ops (ops_before t ++ ops_between t) m) as Hm1 by by rewrite do_ops_app.
  assert (vs_later (n0 + n1) m m1) as Hlat1 by by eapply vs_later_trans.
  assert (continues t m s i s1 m1) as Hcont1.
  { apply Hgo; [done|done|by eapply vs_index_later|]. eexists. split; [|exact Hm1]. by apply of_this. }
  destruct (swap_fails t); [injection Hr as <-; split; [eapply vs_later_mono, Hlat1; lia|done]|].
  destruct (vs_swap key b i m1) as [ok m2] eqn:Hswap. injection Hr as <-. destruct ok.
  - destruct (vs_swap_true _ _ _ _ _ _ Hinv0 Hl1 Hidx Hswap) as [-> Heq]. split; [|split].
    + exists [Attempt (a true)]. split; [simpl; lia|]. by apply (CAS_one (a true) s out s1 Hf).
    + eapply vs_later_trans; [done|]. apply vs_write_later; [done|]. eapply (vs_room_later n1); [lia|done..].
    + exists (ops_before t ++ ops_between t), (turn_env t), s, out, b. rewrite <- Hm1.
      assert (stored m1 = stored m0) as -> by (unfold stored; by rewrite Heq). split; [by apply of_this|done].
  - apply vs_swap_false in Hswap as ->. split; [eapply vs_later_mono, Hlat1; lia|done].
Qed.

Lemma of_others_mono turns turns' ops : turns ⊆ turns' → Forall (of_others turns) ops → Forall (of_others turns') ops.
Proof. intros Hsub Ho. eapply Forall_impl; [exact Ho|]. intros op (t & Ht & ?). exists t. split; [by apply Hsub|done]. Qed.
Lemma outcome_mono {E} turns turns' m s' m' (r : cas_result V CErr E) : turns ⊆ turns' → outcome turns m s' m' r → outcome turns' m s' m' r.
Proof.
  intros Hsub. destruct r as [[v|]|e|e]; simpl.
  - intros (ops & env & s0 & out & b & Ho & ?). exists ops, env, s0, out, b. split; [by eapply of_others_mono|done].
  - intros (ops & Ho & ?). exists ops. split; [by eapply of_others_mono|done].
  - intros (ops & Ho & ?). exists ops. split; [by eapply of_others_mono|done].
  - intros (ops & Ho & ?). exists ops. split; [by eapply of_others_mono|done].
Qed.

Lemma cas_loop_spec retries index lastErr turns m s r s' m' :
  cas_loop key f retries index lastErr turns m s = Some (r, s', m') →
  vs_inv m → Forall turn_ok turns → vs_room (cost turns) m → vs_index index m →
  (∃ script, (length script ≤ Datatypes.S retries)%nat ∧ CAS f script s = Some (r, s')) ∧
  vs_later (cost turns) m m' ∧ outcome turns m s' m' r.
Proof.
  revert index lastErr turns m s. induction retries as [|retries IH]; intros index lastErr turns m s Hr Hinv Hok Hroom Hix.
  { destruct turns; simpl in Hr; injection Hr as <- <- <-; (split; [by exists [GiveUp lastErr]|]);
      (split; [eapply vs_later_mono, vs_later_refl; [apply cost_nonneg|done]|by exists []]). }
  destruct turns as [|t turns]; [done|]. simpl in Hr. pose proof (cost_nonneg turns). pose proof (cost_nonneg [t]).
  assert (cost (t :: turns) = cost [t] + cost turns) as Hcost by (simpl; lia). rewrite Hcost in *.
  apply Forall_cons in Hok as [Hokt Hok].
  destruct (cas_body _ _ _ _ _ _ _) as [o|] eqn:Hbody; [|done]. simpl in Hr.
  pose proof (cas_body_spec _ _ _ _ _ _ Hbody Hinv Hokt ltac:(eapply vs_room_mono, Hroom; lia) Hix) as Hs.
  destruct o as [r1 s1 m1|i l1 s1 m1].
  - injection Hr as -> -> ->. destruct Hs as ((script & Hlen & Hc) & Hlat & Hout). split; [exists script; split; [lia|done]|].
    split; [eapply vs_later_mono, Hlat; lia|]. eapply outcome_mono, Hout. set_solver.
  - destruct Hs as (Hlat1 & Hi & (ops & Hops & Hm1) & pre & Hpre & Hc). pose proof (vs_later_inv _ _ _ Hlat1) as Hinv1.
    destruct (IH _ _ _ _ _ Hr Hinv1 Hok ltac:(by eapply vs_room_later) Hi) as ((script & Hlen & Hcas) & Hlat & Hout).
    split; [exists (pre ++ script); split; [rewrite length_app; lia|by apply Hc]|].
    split; [by eapply vs_later_trans|].
    rewrite Hm1 in Hout. eapply outcome_skip, Hout. eapply of_others_mono, Hops. set_solver.
Qed.
End facts.
