(* ===== verification/Consul.v ===== *)
(** * The Consul client: [kv/consul/client.go], and the in-memory Consul of
    [kv/consul/mock.go]

    The store is the mock: the pairs by key and the index of the log.  What other
    clients do between two requests of a client is a list of operations on it.
    The codec is a parameter.  [kv.CAS] of the real Consul differs from the
    mock's on a key that does not exist: see [consul_CAS]. *)
From Stdlib Require Import ZArith Lia.
From stdpp Require Import base gmap strings list sorting fin_maps.
From S2P Require Import Prelude TokensFile KV CASLoop.

Definition u64 (z : Z) : Z := z mod 2 ^ 64.

(** ** [mockKV] *)
Record KVPair := mkKVPair { pair_Value : bytes; CreateIndex : Z; ModifyIndex : Z }.
Record mockKV := mkMockKV { kvps : gmap string KVPair; current : Z }.
Definition newMockKV : mockKV := mkMockKV ∅ 1.

(** the write [Put] and [CAS] share: the index of the log goes up *)
Definition mock_write (key : string) (value : bytes) (m : mockKV) : mockKV :=
  let current := u64 (current m + 1) in
  match kvps m !! key with
  | Some existing => mkMockKV (<[key := mkKVPair value (CreateIndex existing) current]> (kvps m)) current
  | None => mkMockKV (<[key := mkKVPair value current current]> (kvps m)) current
  end.
Definition mock_Put (key : string) (value : bytes) (m : mockKV) : mockKV := mock_write key value m.
Definition mock_CAS (key : string) (value : bytes) (modifyIndex : Z) (m : mockKV) : bool * mockKV :=
  match kvps m !! key with
  | Some existing =>
      if bool_decide (ModifyIndex existing ≠ modifyIndex) then (false, m) else (true, mock_write key value m)
  | None => (true, mock_write key value m)
  end.
Definition mock_Delete (key : string) (m : mockKV) : mockKV := mkMockKV (delete key (kvps m)) (current m).
Definition ResetIndex (m : mockKV) : mockKV := mkMockKV (kvps m) 0.
Definition ResetIndexForKey (key : string) (m : mockKV) : mockKV :=
  match kvps m !! key with
  | Some value => mkMockKV (<[key := mkKVPair (pair_Value value) (CreateIndex value) 0]> (kvps m)) (current m)
  | None => m
  end.

Definition mockedMaxWaitTime (queryWaitTime : Z) : Z := if bool_decide (Second < queryWaitTime) then Second else queryWaitTime.

(** [Get] answers with the pair, if any, and [LastIndex], or waits for the index
    of the value to move from [startModify] *)
Inductive get_outcome :=
| GotPair (value : option KVPair) (LastIndex : Z)
| GetWaits (startModify : Z).
Definition mock_Get_finish (key : string) (m : mockKV) : get_outcome :=
  match kvps m !! key with
  | None => GotPair None (current m)
  | Some value => GotPair (Some value) (ModifyIndex value)
  end.
Definition mock_Get (key : string) (WaitIndex WaitTime : Z) (m : mockKV) : get_outcome :=
  match kvps m !! key with
  | None => 
      if bool_decide (WaitIndex = 0) then GotPair None (current m)
      else if bool_decide (current m ≤ WaitIndex) && bool_decide (0 < WaitTime) then GetWaits (current m)
      else mock_Get_finish key m
  | Some value =>
      if bool_decide (ModifyIndex value ≤ WaitIndex) && bool_decide (0 < WaitTime) then GetWaits (ModifyIndex value)
      else mock_Get_finish key m
  end.
(** The condition variable has been signalled: [before] and [after] are what
    [time.Now().Before(deadline)] and [time.Now().After(deadline)] say. *)
Definition mock_Get_wake (key : string) (WaitIndex startModify : Z) (before after : bool) (m : mockKV) : get_outcome :=
  let valueModifyIndex := match kvps m !! key with Some value => ModifyIndex value | None => startModify end in
  if bool_decide (startModify = valueModifyIndex) && before then GetWaits startModify
  else if after then GotPair None WaitIndex
  else mock_Get_finish key m.

Section list.
Context `{R : MapRange}.
Definition mock_List_finish (prefix : string) (WaitIndex : Z) (m : mockKV) : list (string * KVPair) * Z :=
  (foldl (λ result '(key, kvp),
     if String.prefix prefix key && bool_decide (WaitIndex ≤ ModifyIndex kvp) then result ++ [(key, kvp)] else result)
     [] (map_range 220 (kvps m)), current m).
(** [None]: it waits for the index of the log to move *)
Definition mock_List (prefix : string) (WaitIndex WaitTime : Z) (m : mockKV) : option (list (string * KVPair) * Z) :=
  if bool_decide (0 < WaitTime) && bool_decide (current m ≤ WaitIndex) then None
  else Some (mock_List_finish prefix WaitIndex m).
Definition mock_List_wake (prefix : string) (WaitIndex : Z) (before after : bool) (m : mockKV) : option (list (string * KVPair) * Z) :=
  if bool_decide (current m ≤ WaitIndex) && before then None
  else if after then Some ([], WaitIndex)
  else Some (mock_List_finish prefix WaitIndex m).
End list.

(** what other clients do *)
Inductive mock_op :=
| OpPut (key : string) (value : bytes)
| OpCAS (key : string) (value : bytes) (modifyIndex : Z)
| OpDelete (key : string)
| OpResetIndex
| OpResetIndexForKey (key : string).
Definition do_op (m : mockKV) (op : mock_op) : mockKV :=
  match op with
  | OpPut key value => mock_Put key value m
  | OpCAS key value ix => (mock_CAS key value ix m).2
  | OpDelete key => mock_Delete key m
  | OpResetIndex => ResetIndex m
  | OpResetIndexForKey key => ResetIndexForKey key m
  end.

(** The check-and-set Consul documents: with index 0 the key must not exist,
    otherwise it must have that index. *)
Definition consul_CAS (key : string) (value : bytes) (modifyIndex : Z) (m : mockKV) : bool * mockKV :=
  match kvps m !! key with
  | Some existing =>
      if bool_decide (ModifyIndex existing ≠ modifyIndex) then (false, m) else (true, mock_write key value m)
  | None => if bool_decide (modifyIndex ≠ 0) then (false, m) else (true, mock_write key value m)
  end.

Definition mock_read (key : string) (m : mockKV) : option (bytes * Z) :=
  (λ kvp, (pair_Value kvp, ModifyIndex kvp)) <$> kvps m !! key.
Definition mock_store : VersionedStore mockKV mock_op :=
  {| vs_read := mock_read; vs_swap := mock_CAS; vs_write := mock_write; vs_op := do_op |}.
Definition consul_store : VersionedStore mockKV mock_op :=
  {| vs_read := mock_read; vs_swap := consul_CAS; vs_write := mock_write; vs_op := do_op |}.

(** ** [Client] *)
Record Config := mkConfig {
  ConsistentReads : bool;
  WatchKeyRateLimit : Z;
  WatchKeyBurstSize : Z;
  MaxCasRetries : Z
}.
Definition longPollDuration : Z := 10 * Second.

(** the limit of [createRateLimiter], [None] without limit, and its burst *)
Definition createRateLimiter (cfg : Config) : option Z * Z :=
  if bool_decide (WatchKeyRateLimit cfg ≤ 0) then (None, 0)
  else
    let burst := WatchKeyBurstSize cfg in
    (Some (WatchKeyRateLimit cfg), if bool_decide (burst < 1) then 1 else burst).

Definition checkLastIndex (index metaLastIndex : Z) : Z * bool :=
  if bool_decide (metaLastIndex = 0) then (1, false)
  else if bool_decide (metaLastIndex < index) then (0, false)
  else if bool_decide (index = metaLastIndex) then (metaLastIndex, true)
  else (metaLastIndex, false).

Inductive consul_error := ErrFailedToCAS | ErrRequest | ErrDecode.

Section client.
Context {V Env CErr S : Type} `{C : Codec V}.

(** *** [cas] *)
(** a request that fails is only logged *)
Definition consul_cas (store : VersionedStore mockKV mock_op) (cfg : Config) (key : string)
    (f : option V → Env → S → option (cas_out V CErr * S)) (turns : list (cas_turn Env mock_op)) (m : mockKV) (s : S)
    : option (cas_result V CErr consul_error * S * mockKV) :=
  let retries := if bool_decide (MaxCasRetries cfg = 0) then 10 else MaxCasRetries cfg in
  '(r, s, m) ← cas_loop key f (Z.to_nat retries) 0 None turns m s;
  Some (map_KVErr (λ _, ErrFailedToCAS) r, s, m).

(** *** [Get], [List], [Delete] *)
(** the outcome of the request: [None] when it fails *)
Definition consul_Get (got : option (option KVPair)) : result consul_error (option V) :=
  match got with
  | None => Err ErrRequest
  | Some None => Ok None
  | Some (Some kvp) => match codec_Decode (pair_Value kvp) with None => Err ErrDecode | Some v => Ok (Some v) end
  end.
Definition consul_List (got : option (list (string * KVPair))) : result consul_error (list string) :=
  match got with
  | None => Err ErrRequest
  | Some pairs => Ok (foldl (λ keys kvp, keys ++ [kvp.1]) [] pairs)
  end.
Definition consul_Delete (key : string) (m : mockKV) : mockKV := mock_Delete key m.

(** *** [WatchKey] *)
(** what one turn of the loop meets; [f] returns whether to go on *)
Inductive watch_event :=
| WatchCancelled                   (* the context is done *)
| WatchLimiterFails
| WatchGetFails
| WatchResponse (kvp : option KVPair) (LastIndex : Z).
(** [index], the subscriber, and whether the loop goes on *)
Definition WatchKey_turn (f : V → S → S * bool) (ev : watch_event) (index : Z) (s : S) : Z * S * bool :=
  match ev with
  | WatchCancelled => (index, s, false)
  | WatchLimiterFails | WatchGetFails => (index, s, true)
  | WatchResponse kvp LastIndex =>
      let '(index, skip) := checkLastIndex index LastIndex in
      if skip : bool then (index, s, true)
      else
        match kvp with
        | None => (index, s, true)
        | Some kvp =>
            match codec_Decode (pair_Value kvp) with
            | None => (index, s, true)
            | Some out => let '(s, continue) := f out s in (index, s, continue)
            end
        end
  end.

(** *** [WatchPrefix] *)
Inductive prefix_event :=
| PrefixCancelled
| PrefixLimiterFails
| PrefixListFails
| PrefixResponse (kvps : list (string * KVPair)) (LastIndex : Z).
Fixpoint report (f : string → V → S → S * bool) (index : Z) (kvps : list (string * KVPair)) (s : S) : S * bool :=
  match kvps with
  | [] => (s, true)
  | (key, kvp) :: kvps =>
      if bool_decide (0 < index) && bool_decide (ModifyIndex kvp ≤ index) && bool_decide (CreateIndex kvp ≤ index)
      then report f index kvps s
      else
        match codec_Decode (pair_Value kvp) with
        | None => report f index kvps s
        | Some out =>
            let '(s, continue) := f key out s in
            if continue : bool then report f index kvps s else (s, false)
        end
  end.
Definition WatchPrefix_turn (f : string → V → S → S * bool) (ev : prefix_event) (index : Z) (s : S) : Z * S * bool :=
  match ev with
  | PrefixCancelled => (index, s, false)
  | PrefixLimiterFails | PrefixListFails => (index, s, true)
  | PrefixResponse kvps LastIndex =>
      let '(newIndex, skip) := checkLastIndex index LastIndex in
      if skip : bool then (index, s, true)
      else
        let '(s, continue) := report f index kvps s in
        if continue : bool then (newIndex, s, true) else (index, s, false)
  end.
End client.
