(* ===== verification/ConsulFacts.v ===== *)
(** * Correctness of the Consul client

    Its CAS is the CAS of the contract and is atomic, on Consul and, as long as the
    key is not deleted, on the in-memory one. *)
From Stdlib Require Import ZArith Lia.
From stdpp Require Import base gmap strings list sorting fin_maps.
From S2P Require Import Prelude TokensFile KV CASLoop Consul.

(** ** The index of the log *)
Definition pair_wf (current : Z) (p : KVPair) : Prop := 0 < CreateIndex p ≤ ModifyIndex p ∧ ModifyIndex p ≤ current.
Definition mock_wf (m : mockKV) : Prop := 0 < current m ∧ map_Forall (λ _ p, pair_wf (current m) p) (kvps m).

Definition is_reset (op : mock_op) : bool :=
  match op with OpResetIndex | OpResetIndexForKey _ => true | _ => false end.
Definition no_resets (ops : list mock_op) : Prop := Forall (λ op, is_reset op = false) ops.

Lemma u64_small z : 0 ≤ z < 2 ^ 64 → u64 z = z.
Proof. intros. unfold u64. by apply Z.mod_small. Qed.

(** what has happened between two states of the store: a pair is as it was or
    has an index that had not been given yet *)
Record later (n : Z) (m m' : mockKV) : Prop := {
  later_wf : mock_wf m';
  later_current : current m ≤ current m' ≤ current m + n;
  later_pairs : ∀ k p, kvps m' !! k = Some p → kvps m !! k = Some p ∨ current m < ModifyIndex p
}.

Lemma later_refl m : mock_wf m → later 0 m m.
Proof. constructor; [done|lia|by left]. Qed.
Lemma later_trans a b m1 m2 m3 : later a m1 m2 → later b m2 m3 → later (a + b) m1 m3.
Proof.
  intros [_ Hc1 Hp1] [Hwf Hc2 Hp2]. constructor; [done|lia|].
  intros k p [Hp|Hp]%Hp2; [|right; lia]. by apply Hp1.
Qed.
Lemma later_mono a b m m' : a ≤ b → later a m m' → later b m m'.
Proof. intros Hab [Hwf Hc Hp]. constructor; [done|lia|done]. Qed.

Lemma mock_write_kvps key b m : current m + 1 < 2 ^ 64 → mock_wf m →
  current (mock_write key b m) = current m + 1 ∧
  ∃ p, kvps (mock_write key b m) = <[key := p]> (kvps m) ∧ pair_Value p = b ∧ ModifyIndex p = current m + 1 ∧
    0 < CreateIndex p ≤ current m + 1.
Proof.
  intros Hr [Hpos Hwf]. unfold mock_write. rewrite u64_small by lia. destruct (kvps m !! key) as [p|] eqn:Hk; simpl.
  - pose proof (Hwf _ _ Hk) as Hp. unfold pair_wf in Hp. split; [done|]. eexists. split_and!; try done; simpl; lia.
  - split; [done|]. eexists. split_and!; try done; simpl; lia.
Qed.

Lemma mock_write_later key b m : current m + 1 < 2 ^ 64 → mock_wf m → later 1 m (mock_write key b m).
Proof.
  intros Hr Hwf. destruct (mock_write_kvps key b m Hr Hwf) as (Hc & p & Hk & _ & Hp & Hcr).
  constructor; [|lia|].
  - split; [rewrite Hc; destruct Hwf; lia|]. rewrite Hk, Hc. apply map_Forall_insert_2; [unfold pair_wf; lia|].
    destruct Hwf as [_ Hwf]. eapply map_Forall_impl; [exact Hwf|]. unfold pair_wf. intros ? ? ?. lia.
  - intros k q. rewrite Hk. intros [[<- <-]|[_ Hq]]%lookup_insert_Some; [right; lia|by left].
Qed.

Lemma mock_Delete_later key m : mock_wf m → later 0 m (mock_Delete key m).
Proof.
  intros [Hpos Hwf]. constructor; simpl; [|lia|].
  - split; [done|]. simpl. by apply map_Forall_delete.
  - intros k p [_ Hp]%lookup_delete_Some. by left.
Qed.

Lemma do_op_later op m : current m + 1 < 2 ^ 64 → mock_wf m → is_reset op = false → later 1 m (do_op m op).
Proof.
  intros Hr Hwf Hop. destruct op as [k b|k b i|k| |k]; simpl in *; [by apply mock_write_later| | |done..].
  - unfold mock_CAS. destruct (kvps m !! k) as [p|]; [case_bool_decide|]; simpl;
      [by eapply later_mono, later_refl|by apply mock_write_later..].
  - eapply later_mono, mock_Delete_later; [lia|done].
Qed.
(** an index identifies the value *)
Lemma later_same n m m' k p p' : mock_wf m → later n m m' →
  kvps m !! k = Some p → kvps m' !! k = Some p' → ModifyIndex p' = ModifyIndex p → p' = p.
Proof.
  intros [_ Hwf] [_ _ Hp] Hk Hk' Hi. destruct (Hp _ _ Hk') as [?|Hlt]; [congruence|].
  pose proof (Hwf _ _ Hk) as [_ Hle]. lia.
Qed.

Lemma consul_CAS_false key b index m m' : consul_CAS key b index m = (false, m') → m' = m.
Proof. unfold consul_CAS. destruct (kvps m !! key); case_bool_decide; congruence. Qed.
Lemma mock_CAS_false key b index m m' : mock_CAS key b index m = (false, m') → m' = m.
Proof. unfold mock_CAS. destruct (kvps m !! key); [case_bool_decide|]; congruence. Qed.

Lemma mock_read_index key m b i : mock_wf m → mock_read key m = Some (b, i) → 0 ≤ i ≤ current m.
Proof.
  intros [Hpos Hwf]. unfold mock_read. destruct (kvps m !! key) as [p|] eqn:Hp; [|done]. intros [= <- <-].
  pose proof (Hwf _ _ Hp) as Hpw. unfold pair_wf in Hpw. lia.
Qed.

(** ** [cas] *)
Section cas.
Variable key : string.

(** what a swap that is accepted says about the value that was read *)
Lemma consul_CAS_true n b index m0 m1 m2 :
  mock_wf m0 → later n m0 m1 →
  match mock_read key m0 with Some (_, v) => index = v | None => 0 ≤ index ≤ current m0 end →
  consul_CAS key b index m1 = (true, m2) →
  m2 = mock_write key b m1 ∧ mock_read key m1 = mock_read key m0.
Proof.
  intros Hwf Hl. unfold mock_read, consul_CAS. intros Hread.
  destruct (kvps m1 !! key) as [p1|] eqn:H1; case_bool_decide as Hi; try done.
  - intros [= <-]. split; [done|]. destruct (kvps m0 !! key) as [p0|] eqn:H0; simpl in *.
    + do 2 f_equal; f_equal; eapply later_same; eauto; lia.
    + destruct (later_pairs _ _ _ Hl _ _ H1) as [?|?]; [congruence|lia].
  - intros [= <-]. split; [done|]. destruct (kvps m0 !! key) as [p0|] eqn:H0; [|done]. simpl in Hread.
    destruct Hwf as [_ Hwf]. pose proof (Hwf _ _ H0) as Hp. unfold pair_wf in Hp. lia.
Qed.

(** Consul: the others may do anything but reset the index of the log *)
#[export] Instance consul_laws : @VersionedLaws _ _ consul_store key (λ op, is_reset op = false).
Proof.
  unshelve refine {| vs_inv := mock_wf; vs_room n m := current m + n < 2 ^ 64; vs_later := later;
                     vs_index i m := 0 ≤ i ≤ current m |}; simpl.
  - intros n m m' Hl. apply Hl.
  - apply later_refl.
  - apply later_trans.
  - intros a b m m'. apply later_mono.
  - intros a b m m' Hb Hl. pose proof (later_current _ _ _ Hl). lia.
  - intros. lia.
  - intros op m Hwf Hr. by apply do_op_later.
  - intros b m Hwf Hr. by apply mock_write_later.
  - intros m [Hpos _]. lia.
  - intros n i m m' Hi Hl. pose proof (later_current _ _ _ Hl). lia.
  - apply mock_read_index.
  - apply consul_CAS_false.
  - apply consul_CAS_true.
Defined.

(** ** The mock *)
(** the others do not delete the key either: the mock takes any index for a key
    that does not exist *)
Definition mock_op_ok (op : mock_op) : Prop := is_reset op = false ∧ op ≠ OpDelete key.
Definition later_kept (n : Z) (m m' : mockKV) : Prop :=
  later n m m' ∧ (is_Some (kvps m !! key) → is_Some (kvps m' !! key)).

Lemma mock_write_keeps k b m : is_Some (kvps m !! key) → is_Some (kvps (mock_write k b m) !! key).
Proof. intros Hk. unfold mock_write. destruct (kvps m !! k); simpl; apply lookup_insert_is_Some'; auto. Qed.
Lemma do_op_keeps op m : mock_op_ok op → is_Some (kvps m !! key) → is_Some (kvps (do_op m op) !! key).
Proof.
  intros [_ Hd] Hk. destruct op as [k b|k b i|k| |k]; simpl.
  - by apply mock_write_keeps.
  - unfold mock_CAS. destruct (kvps m !! k); [case_bool_decide|]; simpl; [done|by apply mock_write_keeps..].
  - rewrite lookup_delete_ne by congruence. done.
  - done.
  - unfold ResetIndexForKey. destruct (kvps m !! k); [|done]. simpl. apply lookup_insert_is_Some'. auto.
Qed.

Lemma swap_eq b index m : index = 0 ∨ is_Some (kvps m !! key) → mock_CAS key b index m = consul_CAS key b index m.
Proof. unfold mock_CAS, consul_CAS. intros [->|[p ->]]; [|done]. by destruct (kvps m !! key). Qed.

Lemma mock_CAS_true n b index m0 m1 m2 :
  mock_wf m0 → later_kept n m0 m1 →
  match mock_read key m0 with Some (_, v) => index = v | None => 0 ≤ index ≤ current m0 end →
  mock_CAS key b index m1 = (true, m2) →
  m2 = mock_write key b m1 ∧ mock_read key m1 = mock_read key m0.
Proof.
  intros Hwf [Hl Hk] Hread Hs. destruct (kvps m1 !! key) as [p1|] eqn:H1.
  - rewrite swap_eq in Hs by (right; eauto). by eapply consul_CAS_true.
  - unfold mock_CAS in Hs. rewrite H1 in Hs. injection Hs as <-. split; [done|]. unfold mock_read.
    destruct (kvps m0 !! key); [|by rewrite H1]. destruct (Hk ltac:(eauto)); congruence.
Qed.

#[export] Instance mock_laws : @VersionedLaws _ _ mock_store key mock_op_ok.
Proof.
  unshelve refine {| vs_inv := mock_wf; vs_room n m := current m + n < 2 ^ 64; vs_later := later_kept;
                     vs_index i m := 0 ≤ i ≤ current m |}; simpl.
  - intros n m m' [Hl _]. apply Hl.
  - intros m Hwf. split; [by apply later_refl|done].
  - intros a b m1 m2 m3 [H1 K1] [H2 K2]. split; [by eapply later_trans|auto].
  - intros a b m m' Hab [Hl Hk]. split; [by eapply later_mono|done].
  - intros a b m m' Hb [Hl _]. pose proof (later_current _ _ _ Hl). lia.
  - intros. lia.
  - intros op m Hwf Hr Hop. split; [apply do_op_later; [done..|apply Hop]|by apply do_op_keeps].
  - intros b m Hwf Hr. split; [by apply mock_write_later|apply mock_write_keeps].
  - intros m [Hpos _]. lia.
  - intros n i m m' Hi [Hl _]. pose proof (later_current _ _ _ Hl). lia.
  - apply mock_read_index.
  - apply mock_CAS_false.
  - apply mock_CAS_true.
Defined.

Section client.
Context {V Env CErr S : Type} `{C : Codec V}.
Variable f : option V → Env → S → option (cas_out V CErr * S).
Implicit Types (turns : list (cas_turn Env mock_op)) (m : mockKV) (s : S).

(** what holds of a call on a store that keeps the laws *)
Lemma consul_cas_spec (store : VersionedStore mockKV mock_op) op_ok (L : VersionedLaws key op_ok)
    (cfg : Config) turns m s (r : cas_result V CErr consul_error) s' m' :
  consul_cas store cfg key f turns m s = Some (r, s', m') →
  vs_inv m → Forall (turn_ok op_ok) turns → vs_room (cost turns) m →
  (∃ script, Z.of_nat (length script) ≤ 1 + (if bool_decide (MaxCasRetries cfg = 0) then 10 else Z.max 0 (MaxCasRetries cfg)) ∧
     CAS f script s = Some (r, s')) ∧
  vs_later (cost turns) m m' ∧ outcome key f turns m s' m' r.
Proof.
  unfold consul_cas. intros Hr Hinv Hok Hroom.
  destruct (cas_loop _ _ _ _ _ _ _ _) as [[[r0 s0] m0]|] eqn:Hloop; [|done]. injection Hr as <- <- <-.
  apply cas_loop_spec with (L:=L) in Hloop as ((script & Hlen & Hc) & Hlat & Hout); [|done..|by apply vs_index_0].
  split; [|split; [done|by destruct r0 as [[v|]|e|e]]].
  exists (map_event (λ _, ErrFailedToCAS) <$> script). split; [|by apply CAS_map_KVErr].
  rewrite length_fmap. case_bool_decide; lia.
Qed.

(** C31. [cas] implements the contract of [CAS], with at most [MaxCasRetries]
    (or 10) attempts, and loses no update: when it returns [nil] after writing,
    the store has changed by this write alone since the moment the key held the
    value the callback was given, whatever other clients do in between, deleting
    the key included; otherwise only the others have written. *)
Theorem consul_cas_refines (cfg : Config) turns m s (r : cas_result V CErr consul_error) s' m' :
  consul_cas consul_store cfg key f turns m s = Some (r, s', m') →
  mock_wf m → Forall (turn_ok (λ op, is_reset op = false)) turns → current m + cost turns < 2 ^ 64 →
  (∃ script, Z.of_nat (length script) ≤ 1 + (if bool_decide (MaxCasRetries cfg = 0) then 10 else Z.max 0 (MaxCasRetries cfg)) ∧
     CAS f script s = Some (r, s')) ∧
  outcome (VS:=consul_store) key f turns m s' m' r.
Proof. intros Hr Hwf Hok Hroom. eapply (consul_cas_spec consul_store _ consul_laws) in Hr as (? & _ & ?); done. Qed.

(** When the key has been seen once and is then missing, the index of the last
    read is still sent: Consul refuses every swap and the call fails, although
    nobody else writes and every request succeeds. *)
Lemma stale_index_fails retries index lastErr turns m s :
  index ≠ 0 → kvps m !! key = None →
  Forall (λ t, ops_before t = [] ∧ ops_between t = [] ∧ get_fails t = false ∧ swap_fails t = false) turns →
  length turns = retries →
  (∀ in_ env s, ∃ out s' v b, f in_ env s = Some (out, s') ∧ cas_err out = None ∧ cas_value out = Some v ∧ codec_Encode v = Some b) →
  ∃ s' e, cas_loop (VS:=consul_store) key f retries index lastErr turns m s = Some (CasKVErr e, s', m).
Proof.
  intros Hi Hk Hq <- Hf. revert s lastErr. induction Hq as [|t turns (Hb & Ha & Hg & Hsf) Hq IH]; intros s lastErr; simpl; [eauto|].
  unfold cas_body. rewrite Hg, Hb. simpl. unfold mock_read. rewrite Hk.
  destruct (Hf None (turn_env t) s) as (out & s' & v & b & Hrun & Herr & Hv & Henc).
  simpl. rewrite Hrun. simpl. rewrite Herr, Hv, Henc, Ha, Hsf. simpl.
  assert (consul_CAS key b index m = (false, m)) as -> by (unfold consul_CAS; by rewrite Hk, bool_decide_eq_true_2). apply IH.
Qed.
End client.
End cas.

(** ** Witnesses *)
Section witnesses.
#[local] Existing Instance String_codec.

Definition ex_store : mockKV := mock_Put "k" [Byte.x01] newMockKV.
(** appends a byte *)
Definition ex_append : option bytes → unit → nat → option (cas_out bytes unit * nat) := λ in_ _ n,
  Some (mkCasOut (Some (default [] in_ ++ [Byte.xff])) true None, Datatypes.S n).
(** the first swap meets a write of another client *)
Definition ex_turns : list (cas_turn unit mock_op) :=
  [mkTurn [] false tt [OpPut "k" [Byte.x02]] false; mkTurn [] true tt [] false; mkTurn [OpPut "l" []] false tt [] false].
Definition ex_cfg : Config := mkConfig false 1 1 0.
Definition ex_after : mockKV := mock_write "k" [Byte.x02; Byte.xff] (do_op (do_op ex_store (OpPut "k" [Byte.x02])) (OpPut "l" [])).
Lemma ex_cas_run store : store = consul_store ∨ store = mock_store →
  consul_cas store ex_cfg "k" ex_append ex_turns ex_store 0%nat =
  Some (CasOk (Some [Byte.x02; Byte.xff]), 2%nat, ex_after).
Proof. intros [-> | ->]; vm_compute; reflexivity. Qed.
Lemma new_wf : mock_wf newMockKV.
Proof. split; [done|]. apply map_Forall_empty. Qed.
Lemma ex_wf : mock_wf ex_store.
Proof. apply (later_wf 1 newMockKV), mock_write_later; [done|apply new_wf]. Qed.
Lemma consul_cas_refines_witness : ∃ script, CAS ex_append script 0%nat = Some (CasOk (Some [Byte.x02; Byte.xff]) : cas_result _ _ consul_error, 2%nat).
Proof.
  destruct (consul_cas_refines "k" ex_append ex_cfg ex_turns ex_store 0%nat _ _ _ (ex_cas_run _ (or_introl eq_refl)) ex_wf) as [(script & _ & Hc) _].
  - repeat constructor.
  - reflexivity.
  - exists script. exact Hc.
Defined.
End witnesses.
