(* ===== verification/ConsulWatch.v ===== *)
(** * Watches of the Consul client on the in-memory Consul

    [WatchKey] and [WatchPrefix] of [kv/consul/client.go] polling the mock of
    [kv/consul/mock.go], interleaved with the operations of other clients.  The
    subscriber records what it is told. *)
From Stdlib Require Import ZArith Lia.
From stdpp Require Import base gmap strings list sorting fin_maps.
From S2P Require Import Prelude TokensFile KV CASLoop Consul ConsulFacts.

Section watch.
Context {V : Type} `{C : Codec V} `{R : MapRange}.

(** ** [WatchKey] *)
(** [w_waiting] is the index a request blocked in the store waits to change;
    [w_told] what the subscriber has been told, the latest first *)
Record key_watch := mkKeyWatch { w_store : mockKV; w_index : Z; w_waiting : option Z; w_told : list V }.
Inductive key_event :=
| Other (op : mock_op)
| Fails (get : bool)                      (* the rate limiter or the request fails *)
| Poll
| Wake (before after : bool).
Definition tell (v : V) (told : list V) : list V * bool := (v :: told, true).
(** the store has answered *)
Definition answered (o : get_outcome) (w : key_watch) : key_watch :=
  match o with
  | GetWaits startModify => mkKeyWatch (w_store w) (w_index w) (Some startModify) (w_told w)
  | GotPair kvp LastIndex =>
      let '(index, told, _) := WatchKey_turn tell (WatchResponse kvp LastIndex) (w_index w) (w_told w) in
      mkKeyWatch (w_store w) index None told
  end.
Definition key_step (key : string) (ev : key_event) (w : key_watch) : option key_watch :=
  match ev, w_waiting w with
  | Other op, _ => Some (mkKeyWatch (do_op (w_store w) op) (w_index w) (w_waiting w) (w_told w))
  | Fails get, None =>
      let '(index, told, _) := WatchKey_turn tell (if get : bool then WatchGetFails else WatchLimiterFails) (w_index w) (w_told w) in
      Some (mkKeyWatch (w_store w) index None told)
  | Poll, None => Some (answered (mock_Get key (w_index w) longPollDuration (w_store w)) w)
  | Wake before after, Some startModify =>
      Some (answered (mock_Get_wake key (w_index w) startModify before after (w_store w)) w)
  | _, _ => None
  end.
Fixpoint key_run (key : string) (evs : list key_event) (w : key_watch) : option key_watch :=
  match evs with [] => Some w | ev :: evs => w ← key_step key ev w; key_run key evs w end.
Definition no_reset (ev : key_event) : bool := match ev with Other op => negb (is_reset op) | _ => true end.
Definition key_start (m : mockKV) : key_watch := mkKeyWatch m 0 None [].

(** the subscriber knows a value the index covers *)
Record key_inv (key : string) (w : key_watch) : Prop := {
  ki_wf : mock_wf (w_store w);
  ki_index : 0 ≤ w_index w ≤ current (w_store w);
  ki_waiting : ∀ i, w_waiting w = Some i → 0 < w_index w ∧ i ≤ w_index w;
  ki_told : ∀ p v, kvps (w_store w) !! key = Some p → ModifyIndex p ≤ w_index w →
              codec_Decode (pair_Value p) = Some v → head (w_told w) = Some v
}.

Lemma checkLastIndex_cases index last : 0 ≤ index → 0 < last →
  checkLastIndex index last = (index, true) ∧ last = index ∨
  checkLastIndex index last = (last, false) ∧ index < last ∨
  checkLastIndex index last = (0, false) ∧ last < index.
Proof.
  intros Hi Hl. unfold checkLastIndex. rewrite (bool_decide_eq_false_2 (last = 0)) by lia.
  destruct (Z.lt_trichotomy last index) as [Hlt|[->|Hgt]].
  - rewrite bool_decide_eq_true_2 by lia. auto.
  - rewrite bool_decide_eq_false_2, bool_decide_eq_true_2 by lia. auto.
  - rewrite !bool_decide_eq_false_2 by lia. auto.
Qed.

#[local] Arguments checkLastIndex : simpl never.

(** the pair the key has now is handed to the loop *)
Lemma finish_inv key w : key_inv key w → key_inv key (answered (mock_Get_finish key (w_store w)) w).
Proof.
  intros [Hwf Hi Hw Ht]. unfold mock_Get_finish. destruct Hwf as [Hpos Hwf].
  destruct (kvps (w_store w) !! key) as [p|] eqn:Hk; simpl.
  - pose proof (Hwf _ _ Hk) as Hp. unfold pair_wf in Hp.
    destruct (checkLastIndex_cases (w_index w) (ModifyIndex p) ltac:(lia) ltac:(lia)) as [[-> Hle]|[[-> Hle]|[-> Hle]]].
    + constructor; simpl; [done|lia|done|naive_solver].
    + destruct (codec_Decode (pair_Value p)) as [v|] eqn:Hv; simpl;
        (constructor; simpl; [done|lia|done|intros p' v'; rewrite Hk; intros [= <-]; naive_solver congruence]).
    + destruct (codec_Decode (pair_Value p)) as [v|] eqn:Hv; simpl;
        (constructor; simpl; [done|lia|done|intros p' v'; rewrite Hk; intros [= <-]; lia]).
  - destruct (checkLastIndex_cases (w_index w) (current (w_store w)) ltac:(lia) ltac:(lia)) as [[-> Hle]|[[-> Hle]|[-> Hle]]];
      (constructor; simpl; [done|lia|done|intros p' v'; rewrite Hk; done]).
Qed.

Lemma key_step_inv key ev w w' :
  key_inv key w → current (w_store w) + 1 < 2 ^ 64 → (∀ op, ev = Other op → is_reset op = false) →
  key_step key ev w = Some w' → key_inv key w' ∧ current (w_store w') ≤ current (w_store w) + 1.
Proof.
  intros Hinv Hroom Hres Hs. pose proof Hinv as [Hwf Hi Hw Ht]. unfold key_step in Hs.
  destruct ev as [op|get| |before after].
  - injection Hs as <-. destruct (do_op_later op (w_store w) Hroom Hwf (Hres _ eq_refl)) as [Hwf' Hc Hp]. simpl. split; [|lia].
    constructor; simpl; [done|lia|done|]. intros p v Hk Hle Hv. destruct (Hp _ _ Hk) as [Hk'|?]; [by eapply Ht|lia].
  - destruct (w_waiting w) eqn:Hww; [done|]. assert (w' = w) as -> by (destruct w, get; simpl in *; congruence). split; [done|lia].
  - destruct (w_waiting w) eqn:Hww; [done|]. injection Hs as <-. unfold mock_Get.
    pose proof (finish_inv key w Hinv) as Hfin. destruct Hwf as [Hpos Hwf].
    assert (∀ o, w_store (answered o w) = w_store w) as Hst.
    { intros [kvp l|i]; [|done]. unfold answered. destruct (WatchKey_turn _ _ _ _) as [[? ?] ?]. done. }
    rewrite Hst. split; [|lia]. unfold mock_Get_finish in Hfin. destruct (kvps (w_store w) !! key) as [p|] eqn:Hk.
    + pose proof (Hwf _ _ Hk) as Hp. unfold pair_wf in Hp. destruct (_ && _) eqn:Hcond; [|unfold mock_Get_finish; by rewrite Hk].
      apply andb_true_iff in Hcond as [Hle%bool_decide_eq_true _]. constructor; simpl; [by split|lia|intros i [= <-]; lia|by rewrite Hk].
    + case_bool_decide; [done|]. destruct (_ && _) eqn:Hcond; [|unfold mock_Get_finish; by rewrite Hk].
      apply andb_true_iff in Hcond as [Hle%bool_decide_eq_true _]. constructor; simpl; [by split|lia|intros i [= <-]; lia|by rewrite Hk].
  - destruct (w_waiting w) as [i|] eqn:Hww; [|done]. injection Hs as <-. destruct (Hw i eq_refl) as [Hpos' Hle'].
    assert (∀ o, w_store (answered o w) = w_store w) as Hst.
    { intros [kvp l|i']; [|done]. unfold answered. destruct (WatchKey_turn _ _ _ _) as [[? ?] ?]. done. }
    rewrite Hst. split; [|lia]. unfold mock_Get_wake. destruct (_ && before).
    + constructor; simpl; [done|lia|by intros i' [= <-]|done].
    + destruct after; [|by apply finish_inv]. simpl.
      destruct (checkLastIndex_cases (w_index w) (w_index w) ltac:(lia) ltac:(lia)) as [[-> _]|[[_ ?]|[_ ?]]]; [|lia|lia].
      constructor; simpl; [done|lia|done|done].
Qed.

(** the watcher knows the value of the key, or is about to: the index is behind
    and the next answer of the store tells the value *)
Definition up_to_date (key : string) (w : key_watch) : Prop :=
  ∀ p v, kvps (w_store w) !! key = Some p → codec_Decode (pair_Value p) = Some v →
    head (w_told w) = Some v ∨
    (w_index w < ModifyIndex p ∧
     match w_waiting w with
     | None => head (w_told (answered (mock_Get key (w_index w) longPollDuration (w_store w)) w)) = Some v
     | Some i => ∀ before, head (w_told (answered (mock_Get_wake key (w_index w) i before false (w_store w)) w)) = Some v
     end).

Lemma key_inv_up_to_date key w : key_inv key w → up_to_date key w.
Proof.
  intros [Hwf Hi Hw Ht] p v Hk Hv. destruct (decide (ModifyIndex p ≤ w_index w)) as [Hle|Hgt]; [left; by eapply Ht|].
  right. split; [lia|]. destruct Hwf as [Hpos Hwf]. pose proof (Hwf _ _ Hk) as Hp. unfold pair_wf in Hp.
  assert (head (w_told (answered (mock_Get_finish key (w_store w)) w)) = Some v) as Hfin.
  { unfold mock_Get_finish. rewrite Hk. simpl.
    destruct (checkLastIndex_cases (w_index w) (ModifyIndex p) ltac:(lia) ltac:(lia)) as [[_ ?]|[[-> _]|[_ ?]]]; [lia| |lia]. by rewrite Hv. }
  destruct (w_waiting w) as [i|] eqn:Hww.
  - intros before. destruct (Hw i eq_refl). unfold mock_Get_wake. rewrite Hk.
    rewrite bool_decide_eq_false_2 by lia. done.
  - unfold mock_Get. rewrite Hk, bool_decide_eq_false_2 by lia. done.
Qed.

Lemma key_run_inv key evs w w' :
  key_inv key w → current (w_store w) + Z.of_nat (length evs) < 2 ^ 64 → forallb no_reset evs = true →
  key_run key evs w = Some w' → key_inv key w'.
Proof.
  revert w. induction evs as [|ev evs IH]; intros w Hinv Hroom Hres Hr; simpl in *; [congruence|].
  destruct (key_step key ev w) as [w1|] eqn:Hs; [|done].
  apply andb_true_iff in Hres as [Hev Hres].
  destruct (key_step_inv key ev w w1 Hinv ltac:(lia)) as [Hinv1 Hc]; [intros op ->; by apply negb_true_iff|done|].
  apply (IH w1); [done|lia|done..].
Qed.

(** C32. Whatever other clients write and delete, and however the requests of
    [WatchKey] fail, block and time out, the watcher is always up to date: it has
    been told the value the key holds, or it is behind and the answer to the
    request it is making, or will make next, tells it that value. *)
Theorem consul_watch_no_lost_update key (evs : list key_event) m w :
  mock_wf m → current m + Z.of_nat (length evs) < 2 ^ 64 → forallb no_reset evs = true →
  key_run key evs (key_start m) = Some w → up_to_date key w.
Proof.
  intros Hwf Hroom Hres Hr. apply key_inv_up_to_date. eapply key_run_inv, Hr; [|done..].
  destruct Hwf as [Hpos Hwf]. constructor; simpl; [done|lia|done|].
  intros p v Hk Hle. pose proof (Hwf _ _ Hk) as Hp. unfold pair_wf in Hp. lia.
Qed.

(** ** [WatchPrefix] *)
(** [p_told] is what the subscriber has last been told of each key *)
Record prefix_watch := mkPrefixWatch { p_store : mockKV; p_index : Z; p_waiting : bool; p_told : gmap string V }.
Inductive prefix_step_event :=
| POther (op : mock_op)
| PFails (list : bool)
| PPoll
| PWake (before after : bool).
Definition tell_key (key : string) (v : V) (told : gmap string V) : gmap string V * bool := (<[key := v]> told, true).
Definition answered_list (o : option (list (string * KVPair) * Z)) (w : prefix_watch) : prefix_watch :=
  match o with
  | None => mkPrefixWatch (p_store w) (p_index w) true (p_told w)
  | Some (kvps, LastIndex) =>
      let '(index, told, _) := WatchPrefix_turn tell_key (PrefixResponse kvps LastIndex) (p_index w) (p_told w) in
      mkPrefixWatch (p_store w) index false told
  end.
Definition prefix_step (prefix : string) (ev : prefix_step_event) (w : prefix_watch) : option prefix_watch :=
  match ev, p_waiting w with
  | POther op, _ => Some (mkPrefixWatch (do_op (p_store w) op) (p_index w) (p_waiting w) (p_told w))
  | PFails l, false =>
      let '(index, told, _) := WatchPrefix_turn tell_key (if l : bool then PrefixListFails else PrefixLimiterFails) (p_index w) (p_told w) in
      Some (mkPrefixWatch (p_store w) index false told)
  | PPoll, false => Some (answered_list (mock_List prefix (p_index w) longPollDuration (p_store w)) w)
  | PWake before after, true => Some (answered_list (mock_List_wake prefix (p_index w) before after (p_store w)) w)
  | _, _ => None
  end.
Fixpoint prefix_run (prefix : string) (evs : list prefix_step_event) (w : prefix_watch) : option prefix_watch :=
  match evs with [] => Some w | ev :: evs => w ← prefix_step prefix ev w; prefix_run prefix evs w end.
Definition no_preset (ev : prefix_step_event) : bool := match ev with POther op => negb (is_reset op) | _ => true end.
Definition prefix_start (m : mockKV) : prefix_watch := mkPrefixWatch m 0 false ∅.

Lemma elem_of_List prefix index m k p :
  (k, p) ∈ (mock_List_finish prefix index m).1 ↔
  kvps m !! k = Some p ∧ String.prefix prefix k = true ∧ index ≤ ModifyIndex p.
Proof.
  unfold mock_List_finish. simpl.
  assert (∀ l acc, foldl (λ result '(key, kvp),
     if String.prefix prefix key && bool_decide (index ≤ ModifyIndex kvp) then result ++ [(key, kvp)] else result) acc l =
     foldl (λ result kp, if String.prefix prefix kp.1 && bool_decide (index ≤ ModifyIndex kp.2) then result ++ [kp] else result) acc l) as ->.
  { induction l as [|[k' p'] l IH]; intros acc; simpl; [done|]. by rewrite IH. }
  rewrite foldl_collect. simpl. rewrite list_elem_of_filter, map_range_elem, andb_true_iff, bool_decide_eq_true. naive_solver.
Qed.
Lemma List_NoDup prefix index m : NoDup ((mock_List_finish prefix index m).1).*1.
Proof.
  unfold mock_List_finish. simpl.
  assert (∀ l (acc : list (string * KVPair)), NoDup (acc.*1 ++ l.*1) → NoDup (foldl (λ result '(key, kvp),
     if String.prefix prefix key && bool_decide (index ≤ ModifyIndex kvp) then result ++ [(key, kvp)] else result) acc l).*1) as Hl.
  { induction l as [|[k p] l IH]; intros acc Hnd; simpl in *; [by rewrite app_nil_r in Hnd|]. apply IH. destruct (_ && _).
    - by rewrite fmap_app, <- app_assoc.
    - apply NoDup_app in Hnd as (H1 & H2 & H3). inversion_clear H3. apply NoDup_app. split; [done|]. split; [|done].
      intros x Hx Hx'. by apply (H2 x Hx); right. }
  apply Hl. simpl. apply map_range_NoDup_fst.
Qed.

Lemma report_lookup index l (told : gmap string V) : NoDup l.*1 →
  (report tell_key index l told).2 = true ∧
  (∀ k p v, (k, p) ∈ l → codec_Decode (pair_Value p) = Some v → index ≤ 0 ∨ index < ModifyIndex p →
     (report tell_key index l told).1 !! k = Some v) ∧
  (∀ k v, (∀ p, (k, p) ∈ l → codec_Decode (pair_Value p) = Some v) → told !! k = Some v →
     (report tell_key index l told).1 !! k = Some v).
Proof.
  revert told. induction l as [|[k0 p0] l IH]; intros told Hnd; [by split_and!; [|intros ? ? ? ?%elem_of_nil|]|].
  simpl in Hnd. inversion_clear Hnd as [|? ? Hni Hnd'].
  set (skip := bool_decide (0 < index) && bool_decide (ModifyIndex p0 ≤ index) && bool_decide (CreateIndex p0 ≤ index)).
  assert (skip = true → 0 < index ∧ ModifyIndex p0 ≤ index) as Hskip.
  { unfold skip. rewrite !andb_true_iff, !bool_decide_eq_true. tauto. }
  set (told1 := if skip then told else match codec_Decode (pair_Value p0) with Some v => <[k0 := v]> told | None => told end).
  assert (report tell_key index ((k0, p0) :: l) told = report tell_key index l told1) as ->.
  { simpl. fold skip. unfold told1. destruct skip; [done|]. by destruct (codec_Decode _). }
  destruct (IH told1 Hnd') as (H1 & H2 & H3). split; [done|]. split.
  - intros k p v [[= -> ->]|Hin]%elem_of_cons Hv Hnew; [|by eapply H2].
    apply H3; [intros p Hin; exfalso; by apply Hni, (list_elem_of_fmap_2 fst _ (k0, p))|].
    unfold told1. destruct skip; [exfalso; destruct (Hskip eq_refl); lia|]. by rewrite Hv, lookup_insert_eq.
  - intros k v Hall Ht. apply H3; [intros p Hin; apply Hall; by right|]. unfold told1. destruct skip; [done|].
    destruct (codec_Decode (pair_Value p0)) as [v0|] eqn:Hv0; [|done]. destruct (decide (k = k0)) as [->|Hk].
    + specialize (Hall p0 ltac:(by left)). rewrite lookup_insert_eq. congruence.
    + by rewrite lookup_insert_ne.
Qed.

(** the subscriber knows every value the index covers *)
Record prefix_inv (prefix : string) (w : prefix_watch) : Prop := {
  pi_wf : mock_wf (p_store w);
  pi_index : 0 ≤ p_index w ≤ current (p_store w);
  pi_waiting : p_waiting w = true → 0 < p_index w;
  pi_told : ∀ k p v, kvps (p_store w) !! k = Some p → String.prefix prefix k = true → ModifyIndex p ≤ p_index w →
              codec_Decode (pair_Value p) = Some v → p_told w !! k = Some v
}.

Lemma list_inv prefix w : prefix_inv prefix w →
  let w' := answered_list (Some (mock_List_finish prefix (p_index w) (p_store w))) w in
  prefix_inv prefix w' ∧ p_store w' = p_store w ∧ p_index w' = current (p_store w).
Proof.
  intros [Hwf Hi Hw Ht] w'. subst w'. pose proof (elem_of_List prefix (p_index w) (p_store w)) as Hel.
  pose proof (List_NoDup prefix (p_index w) (p_store w)) as Hnd. change (mock_List_finish prefix (p_index w) (p_store w))
    with ((mock_List_finish prefix (p_index w) (p_store w)).1, current (p_store w)).
  set (l := (mock_List_finish prefix (p_index w) (p_store w)).1) in *. destruct Hwf as [Hpos Hwf]. simpl.
  destruct (checkLastIndex_cases (p_index w) (current (p_store w)) ltac:(lia) ltac:(lia)) as [[-> Hle]|[[-> Hle]|[-> Hle]]]; [| |lia].
  - split; [|done]. constructor; simpl; [by split|lia|done|done].
  - destruct (report_lookup (p_index w) l (p_told w) Hnd) as (H1 & H2 & H3).
    destruct (report tell_key (p_index w) l (p_told w)) as [told b] eqn:Hrep. simpl in *. subst b. split; [|done].
    constructor; simpl; [by split|lia|done|]. intros k p v Hk Hpre _ Hv. pose proof (Hwf _ _ Hk) as Hp. unfold pair_wf in Hp.
    destruct (decide (ModifyIndex p ≤ p_index w)) as [Hold|Hnew].
    + apply H3; [|by eapply Ht]. intros p' (Hk' & _)%Hel. congruence.
    + apply (H2 k p v); [apply Hel; split_and!; [done..|lia]|done|lia].
Qed.

Lemma prefix_step_inv prefix ev w w' :
  prefix_inv prefix w → current (p_store w) + 1 < 2 ^ 64 → (∀ op, ev = POther op → is_reset op = false) →
  prefix_step prefix ev w = Some w' → prefix_inv prefix w' ∧ current (p_store w') ≤ current (p_store w) + 1.
Proof.
  intros Hinv Hroom Hres Hs. pose proof Hinv as [Hwf Hi Hw Ht]. unfold prefix_step in Hs.
  pose proof (list_inv prefix w Hinv) as (Hfin & Hst & _).
  assert (p_waiting w = false ∨ 0 < p_index w → 0 < p_index w →
    prefix_inv prefix (mkPrefixWatch (p_store w) (p_index w) true (p_told w))) as Hblock by by constructor.
  destruct ev as [op|l| |before after].
  - injection Hs as <-. destruct (do_op_later op (p_store w) Hroom Hwf (Hres _ eq_refl)) as [Hwf' Hc Hp]. simpl. split; [|lia].
    constructor; simpl; [done|lia|done|]. intros k p v Hk Hpre Hle Hv. destruct (Hp _ _ Hk) as [Hk'|?]; [by eapply Ht|lia].
  - destruct (p_waiting w) eqn:Hww; [done|]. assert (w' = w) as -> by (destruct w, l; simpl in *; congruence). split; [done|lia].
  - destruct (p_waiting w) eqn:Hww; [done|]. injection Hs as <-. unfold mock_List.
    rewrite (bool_decide_eq_true_2 (0 < longPollDuration)) by done. rewrite andb_true_l.
    case_bool_decide as Hle; [|rewrite Hst; split; [done|lia]].
    split; [|simpl; lia]. apply Hblock; [by left|]. destruct Hwf. lia.
  - destruct (p_waiting w) eqn:Hww; [|done]. injection Hs as <-. specialize (Hw eq_refl). unfold mock_List_wake.
    destruct (_ && before); [split; [apply Hblock; [by right|done]|simpl; lia]|].
    destruct after; [|rewrite Hst; split; [done|lia]]. simpl.
    destruct (checkLastIndex_cases (p_index w) (p_index w) ltac:(lia) ltac:(lia)) as [[-> _]|[[_ ?]|[_ ?]]]; [|lia|lia].
    split; [|simpl; lia]. constructor; simpl; [done|lia|done|done].
Qed.

Lemma prefix_run_inv prefix evs w w' :
  prefix_inv prefix w → current (p_store w) + Z.of_nat (length evs) < 2 ^ 64 → forallb no_preset evs = true →
  prefix_run prefix evs w = Some w' → prefix_inv prefix w'.
Proof.
  revert w. induction evs as [|ev evs IH]; intros w Hinv Hroom Hres Hr; simpl in *; [congruence|].
  destruct (prefix_step prefix ev w) as [w1|] eqn:Hs; [|done].
  apply andb_true_iff in Hres as [Hev Hres].
  destruct (prefix_step_inv prefix ev w w1 Hinv ltac:(lia)) as [Hinv1 Hc]; [intros op ->; by apply negb_true_iff|done|].
  apply (IH w1); [done|lia|done..].
Qed.

(** Whatever other clients write and delete, and however the requests of
    [WatchPrefix] fail, block and time out, once the store answers a request with
    a list, the watcher has been told the value of every key with the prefix. *)
Theorem consul_watch_prefix_complete prefix (evs : list prefix_step_event) m w k p v :
  mock_wf m → current m + Z.of_nat (length evs) < 2 ^ 64 → forallb no_preset evs = true →
  prefix_run prefix evs (prefix_start m) = Some w →
  kvps (p_store w) !! k = Some p → String.prefix prefix k = true → codec_Decode (pair_Value p) = Some v →
  p_told (answered_list (Some (mock_List_finish prefix (p_index w) (p_store w))) w) !! k = Some v.
Proof.
  intros Hwf Hroom Hres Hr Hk Hpre Hv. assert (prefix_inv prefix w) as Hinv.
  { eapply prefix_run_inv, Hr; [|done..]. destruct Hwf as [Hpos Hwf]. constructor; simpl; [done|lia|done|].
    intros k' p' v' Hk' _ Hle. pose proof (Hwf _ _ Hk') as Hp. unfold pair_wf in Hp. lia. }
  destruct (list_inv prefix w Hinv) as ([Hwf' _ _ Ht] & Hst & Hix). rewrite Hst, Hix in *.
  eapply Ht; [done..| |done]. destruct Hwf' as [_ Hwf']. by apply (Hwf' _ _ Hk).
Qed.
End watch.

(** ** Witnesses *)
Section witnesses.
#[local] Existing Instance String_codec.
#[local] Existing Instance map_range_std.

(** told of the first value, blocked, woken up by the second one *)
Definition ex_key_events : list key_event :=
  [Poll; Other (OpPut "k" [Byte.x01]); Poll; Fails false; Poll; Other (OpPut "l" []); Wake true false;
   Other (OpCAS "k" [Byte.x02] 2); Wake true false; Poll; Wake false true; Other (OpDelete "k"); Other (OpPut "k" [Byte.x03])].
Definition ex_watch : option key_watch := key_run "k" ex_key_events (key_start newMockKV).
Lemma consul_watch_no_lost_update_witness : ∃ w, ex_watch = Some w ∧ w_told w = [[Byte.x02]; [Byte.x01]] ∧ up_to_date "k" w.
Proof.
  destruct ex_watch as [w|] eqn:Hw; [|vm_compute in Hw; discriminate]. exists w. split; [reflexivity|]. split.
  - vm_compute in Hw. injection Hw as <-. reflexivity.
  - apply (consul_watch_no_lost_update "k" ex_key_events newMockKV w new_wf).
    + reflexivity.
    + reflexivity.
    + exact Hw.
Defined.

Definition ex_prefix_events : list prefix_step_event :=
  [PPoll; PPoll; POther (OpPut "a/k" [Byte.x01]); PWake true false; POther (OpPut "b" [Byte.x02]); PPoll; PPoll; POther (OpPut "a/l" [Byte.x03])].
Definition ex_prefix : option prefix_watch := prefix_run "a/" ex_prefix_events (prefix_start newMockKV).
Lemma consul_watch_prefix_complete_witness : ∃ w, ex_prefix = Some w ∧
  p_told (answered_list (Some (mock_List_finish "a/" (p_index w) (p_store w))) w) !! "a/k" = Some [Byte.x01].
Proof.
  destruct ex_prefix as [w|] eqn:Hw; [|vm_compute in Hw; discriminate]. exists w. split; [reflexivity|].
  apply (consul_watch_prefix_complete "a/" ex_prefix_events newMockKV w "a/k" (mkKVPair [Byte.x01] 2 2) [Byte.x01] new_wf).
  - reflexivity.
  - reflexivity.
  - exact Hw.
  - vm_compute in Hw. injection Hw as <-. reflexivity.
  - reflexivity.
  - reflexivity.
Defined.
End witnesses.
