(* ===== verification/KVClient.v ===== *)
(** * The interface of key-value clients: [kv/client.go], and prefixed clients:
    [kv/prefix.go]

    [KVClient] is the interface as the code calls it; [KVLaws] what an
    implementation promises.  The clients of the repository that wrap others are
    correct for every implementation that keeps the promise. *)
From Stdlib Require Import ZArith Lia.
From stdpp Require Import base gmap strings list sorting fin_maps.
From S2P Require Import Prelude KV.

(** [St] is the state of the store behind the client.  What happens to it during
    a call of [CAS] is the argument [o]; the result is [None] while the call has
    not returned. *)
Class KVClient (V St : Type) := {
  kv_error : Type;
  kv_oracle : Type → Type;
  kv_List : string → St → result kv_error (list string);
  kv_Get : string → St → result kv_error (option V);
  kv_Delete : string → St → option kv_error * St;
  kv_CAS : ∀ {Env CErr S : Type}, kv_oracle Env → string →
    (option V → Env → S → option (cas_out V CErr * S)) → St → S → option (cas_result V CErr kv_error * S * St)
}.

(** [contents] is the map the store holds, in the states satisfying [inv]; [holds] says
    that a value written to a key is in the store: that it is the contents, for the
    stores that replace values, or a part of the contents, for those that merge *)
Class KVLaws {V St} (c : KVClient V St) (contents : St → string → option V) (holds : St → string → V → Prop) (inv : St → Prop)
    (oracle_ok : ∀ Env, kv_oracle Env → string → St → Prop) : Prop := {
  law_List : ∀ prefix st keys, inv st → kv_List prefix st = Ok keys →
    NoDup keys ∧ ∀ k, k ∈ keys ↔ String.prefix prefix k = true ∧ is_Some (contents st k);
  law_Get : ∀ key st v, inv st → kv_Get key st = Ok v → v = contents st key;
  law_Delete : ∀ key st st', inv st → kv_Delete key st = (None, st') →
    inv st' ∧ ∀ k, contents st' k = if bool_decide (k = key) then None else contents st k;
  law_CAS : ∀ Env CErr S (o : kv_oracle Env) key (f : option V → Env → S → option (cas_out V CErr * S)) st s r s' st',
    inv st → oracle_ok Env o key st → kv_CAS o key f st s = Some (r, s', st') →
    inv st' ∧ (∃ script, CAS f script s = Some (r, s')) ∧ ∀ v, r = CasOk (Some v) → holds st' key v;
  law_holds : ∀ key st v, inv st → holds st key v → is_Some (contents st key)
}.

(** ** [PrefixClient] *)
Definition HasPrefix (s prefix : string) : bool := String.prefix prefix s.
Definition TrimPrefix (s prefix : string) : string :=
  if HasPrefix s prefix then String.substring (String.length prefix) (String.length s - String.length prefix) s else s.

Section prefix.
Context {V St : Type} (client : KVClient V St) (prefix : string).

#[local] Existing Instance client.
Definition PrefixClient : KVClient V St := {|
  kv_error := kv_error;
  kv_oracle := kv_oracle;
  kv_List p st := 
    match kv_List (prefix ++ p)%string st with
    | Err e => Err e
    | Ok keys => Ok ((λ key, TrimPrefix key prefix) <$> keys)
    end;
  kv_Get key st := kv_Get (prefix ++ key)%string st;
  kv_Delete key st := kv_Delete (prefix ++ key)%string st;
  kv_CAS _ _ _ o key f st s := kv_CAS o (prefix ++ key)%string f st s
|}.

(** watches are handed to the client: [watch] is its method *)
Definition prefix_WatchKey {F A} (watch : string → F → A) (key : string) (f : F) : A := watch (prefix ++ key)%string f.
Definition prefix_WatchPrefix {S A} (watch : string → (string → V → S → S * bool) → A) (p : string)
    (f : string → V → S → S * bool) : A :=
  watch (prefix ++ p)%string (λ k i, f (TrimPrefix k prefix) i).
End prefix.

(** ** Strings *)
Lemma prefix_spec p s : String.prefix p s = true ↔ ∃ r, s = (p ++ r)%string.
Proof.
  revert s. induction p as [|a p IH]; intros s.
  - split; [intros _; by exists s|by destruct s].
  - destruct s as [|b s]; [split; [done|by intros [r ?]]|]. simpl. destruct (Ascii.ascii_dec a b) as [->|Hab].
    + rewrite IH. split; intros [r Hr]; exists r; [by rewrite Hr|by injection Hr].
    + split; [done|]. intros [r Hr]. by injection Hr as ? _.
Qed.
Lemma substring_app p r : String.substring (String.length p) (String.length (p ++ r) - String.length p) (p ++ r) = r.
Proof.
  induction p as [|a p IH]; [|done]. change (String.substring 0 (String.length r - 0) r = r). rewrite Nat.sub_0_r.
  induction r as [|a r IH]; simpl; [done|]. by rewrite IH.
Qed.
Lemma TrimPrefix_app p k : TrimPrefix (p ++ k) p = k.
Proof. unfold TrimPrefix, HasPrefix. rewrite (proj2 (prefix_spec p (p ++ k))) by eauto. apply substring_app. Qed.
Lemma string_app_inj (p k1 k2 : string) : (p ++ k1)%string = (p ++ k2)%string → k1 = k2.
Proof. induction p as [|a p IH]; simpl; [done|]. intros [= ?]. auto. Qed.
Lemma prefix_app p q k : String.prefix (p ++ q) (p ++ k) = String.prefix q k.
Proof. induction p as [|a p IH]; [done|]. simpl. by destruct (Ascii.ascii_dec a a). Qed.
Lemma prefix_app_inv p q s : String.prefix (p ++ q) s = true → ∃ k, s = (p ++ k)%string.
Proof. intros [r ->]%prefix_spec. exists (q ++ r)%string. clear. induction p as [|a p IH]; [done|]. exact (f_equal (String.String a) IH). Qed.

(** A client prefixed with [prefix] is, for its caller, a client of a store of
    its own: the keys of the store behind it that have the prefix, without it.
    Whatever that store's client promises, the prefixed client promises too; in
    particular the keys it lists are those it can get. *)
Theorem PrefixClient_correct {V St} (client : KVClient V St) contents holds inv oracle_ok (prefix : string) :
  KVLaws client contents holds inv oracle_ok →
  KVLaws (PrefixClient client prefix) (λ st k, contents st (prefix ++ k)%string) (λ st k, holds st (prefix ++ k)%string) inv
    (λ Env o key st, oracle_ok Env o (prefix ++ key)%string st).
Proof.
  intros [HL HG HD HC HH]. constructor; simpl.
  - intros p st keys Hinv. destruct (kv_List _ _) as [ks|e] eqn:Hl; [|done]. intros [= <-].
    destruct (HL _ _ _ Hinv Hl) as [Hnd Hks].
    assert (∀ k, k ∈ ks → ∃ k', k = (prefix ++ k')%string) as Hform by (intros k [Hp _]%Hks; by eapply prefix_app_inv).
    split.
    + apply NoDup_fmap_2_strong; [|done]. intros x y Hx Hy.
      destruct (Hform _ Hx) as [x' ->], (Hform _ Hy) as [y' ->]. rewrite !TrimPrefix_app. by intros ->.
    + intros k. rewrite list_elem_of_fmap. split.
      * intros (x & -> & Hx). destruct (Hform _ Hx) as [x' ->]. rewrite TrimPrefix_app.
        apply Hks in Hx as [Hp Hs]. by rewrite prefix_app in Hp.
      * intros [Hp Hs]. exists (prefix ++ k)%string. rewrite TrimPrefix_app. split; [done|]. apply Hks. by rewrite prefix_app.
  - intros key st v. apply HG.
  - intros key st st' Hinv Hd. destruct (HD _ _ _ Hinv Hd) as [Hinv' Hc]. split; [done|]. intros k. rewrite Hc.
    do 2 case_bool_decide; try done; exfalso; [by eapply H0, string_app_inj|congruence].
  - intros Env CErr S o key f st s r s' st'. apply HC.
  - intros key st v. apply HH.
Qed.

(** ** Clients of two kinds behind the interface *)
(** a value of the interface is a client of one kind or of the other: the method called
    is that of the client *)
Section either.
Context {V St1 St2 : Type} (c1 : KVClient V St1) (c2 : KVClient V St2).
Definition map_err {E E' A} (g : E → E') (r : result E A) : result E' A := match r with Ok a => Ok a | Err e => Err (g e) end.
Definition either_client : KVClient V (St1 + St2) := {|
  kv_error := kv_error (KVClient := c1) + kv_error (KVClient := c2);
  kv_oracle Env := (kv_oracle (KVClient := c1) Env * kv_oracle (KVClient := c2) Env)%type;
  kv_List p st := match st with inl st => map_err inl (kv_List p st) | inr st => map_err inr (kv_List p st) end;
  kv_Get key st := match st with inl st => map_err inl (kv_Get key st) | inr st => map_err inr (kv_Get key st) end;
  kv_Delete key st :=
    match st with
    | inl st => let '(e, st) := kv_Delete key st in (inl <$> e, inl st)
    | inr st => let '(e, st) := kv_Delete key st in (inr <$> e, inr st)
    end;
  kv_CAS Env CErr S o key f st s :=
    match st with
    | inl st => '(r, s, st) ← kv_CAS o.1 key f st s; Some (map_KVErr inl r, s, inl st)
    | inr st => '(r, s, st) ← kv_CAS o.2 key f st s; Some (map_KVErr inr r, s, inr st)
    end
|}.
(** the same of the stores *)
Definition on_either {A} (P1 : St1 → A) (P2 : St2 → A) (st : St1 + St2) : A := match st with inl st => P1 st | inr st => P2 st end.
Lemma either_laws contents1 holds1 inv1 ok1 contents2 holds2 inv2 ok2 :
  KVLaws c1 contents1 holds1 inv1 ok1 → KVLaws c2 contents2 holds2 inv2 ok2 →
  KVLaws either_client (on_either contents1 contents2) (on_either holds1 holds2) (on_either inv1 inv2)
    (λ Env o key, on_either (ok1 Env o.1 key) (ok2 Env o.2 key)).
Proof.
  intros [L1 G1 D1 C1 H1] [L2 G2 D2 C2 H2]. constructor; simpl.
  - intros p [st|st] keys Hi; simpl in *; destruct (kv_List p st) eqn:Hl; simpl; intros [= <-]; [by eapply L1|by eapply L2].
  - intros key [st|st] v Hi; simpl in *; destruct (kv_Get key st) eqn:Hg; simpl; intros [= <-]; [by apply (G1 key)|by apply (G2 key)].
  - intros key [st|st] st' Hi; simpl in *; destruct (kv_Delete key st) as [[e|] st1] eqn:Hd; simpl; intros [= <-]; [by apply (D1 key)|by apply (D2 key)].
  - intros Env CErr S o key f [st|st] s r s' st' Hi Ho; simpl in *.
    + destruct (kv_CAS o.1 key f st s) as [[[r1 s1] st1]|] eqn:Hc; [|done]. simpl. intros [= <- <- <-].
      destruct (C1 _ _ _ _ _ _ _ _ _ _ _ Hi Ho Hc) as (Hi' & (script & Hs) & Hv). split; [done|].
      split; [eexists; by apply CAS_map_KVErr|]. intros v Hr. apply Hv. by destruct r1; simplify_eq/=.
    + destruct (kv_CAS o.2 key f st s) as [[[r1 s1] st1]|] eqn:Hc; [|done]. simpl. intros [= <- <- <-].
      destruct (C2 _ _ _ _ _ _ _ _ _ _ _ Hi Ho Hc) as (Hi' & (script & Hs) & Hv). split; [done|].
      split; [eexists; by apply CAS_map_KVErr|]. intros v Hr. apply Hv. by destruct r1; simplify_eq/=.
  - intros key [st|st] v Hi; simpl in *; [by apply H1|by apply H2].
Qed.
End either.
