(* ===== verification/MemberlistClient.v ===== *)
(** * The gossiped store as a [KVClient]

    [Client] of [kv/memberlist/memberlist_client.go] on the store of a node that
    runs, with rings as values.  Its [CAS] merges what the callback returns into the
    value it finds, so that the key does not hold what was written but a ring it has
    been merged into; otherwise it keeps the promise of the interface.  What a CAS
    notifies and broadcasts is in [MemberlistKV.CAS]. *)
From Stdlib Require Import ZArith Lia.
From stdpp Require Import base gmap strings list sorting fin_maps relations.
From S2P Require Import Prelude Model Merge MergeFacts MergeLaws Memberlist MemberlistFacts RingValue KV KVClient.

Abbreviation ring_store := (gmap string (valueDesc Desc)).
Inductive client_error :=
| ErrDeleteUnsupported                            (* "memberlist does not support Delete" *)
| ErrCas (e : cas_error model_error).

Section client.
Context `{R : MapRange}.
(** [LeftIngestersTimeout], the codec of the client, and how an error is printed *)
Context (lit : Z) (codec : string) (print : ∀ E : Type, E → string).

(** The callback of a CAS as the loop calls it: with the round it is in, which is the
    next input of the environment, the state of the caller, [None] after a panic, and
    what it has returned last. *)
Record call_state (S CErr : Type) := mkCall { c_round : nat; c_state : option S; c_last : option (cas_out Desc CErr) }.
Arguments mkCall {S CErr} _ _ _.
Arguments c_round {S CErr} _.
Arguments c_state {S CErr} _.
Arguments c_last {S CErr} _.
Definition callback {Env CErr S} (f : option Desc → Env → S → option (cas_out Desc CErr * S)) (inputs : nat → Env)
    (val : option Desc) (c : call_state S CErr) : call_state S CErr * (Memberlist.cas_out Desc * bool * option string) :=
  match (s ← c_state c; f val (inputs (c_round c)) s) with
  | None => (mkCall (Nat.pred (c_round c)) None None, (OutNil, false, None))
  | Some (out, s) =>
      (mkCall (Nat.pred (c_round c)) (Some s) (Some out),
       (match cas_value out with Some v => OutValue v | None => OutNil end, cas_retry out, print CErr <$> cas_err out))
  end.
(** the result for the caller: an error of the callback that is not to be retried comes
    back, in a message, and so do the errors of the store *)
Definition cas_returns {CErr} (last : option (cas_out Desc CErr)) (r : result (cas_error model_error) (option (Desc * Z)))
    : cas_result Desc CErr client_error :=
  match r with
  | Ok None => CasOk None
  | Ok (Some _) => CasOk (out ← last; cas_value out)
  | Err e =>
      match last with
      | Some (mkCasOut _ false (Some ce)) => CasCallbackErr ce
      | _ => CasKVErr (ErrCas e)
      end
  end.
Definition memberlist_client : KVClient Desc ring_store := {|
  kv_error := client_error;
  kv_oracle Env := nat → cas_env (V := Desc) * Env;
  kv_List prefix m := Ok (List m prefix);
  kv_Get key m := Ok (Get m key);
  kv_Delete key m := (Some ErrDeleteUnsupported, m);
  kv_CAS Env CErr S o key f m s :=
    let '(m, c, r) := CAS_store (callback f (snd ∘ o)) lit (fst ∘ o) m (mkCall maxCasRetries (Some s) None) key codec in
    s ← c_state c; Some (cas_returns (c_last c) r, s, m)
|}.

(** every key has a value *)
Definition valued (m : ring_store) : Prop := map_Forall (λ _ d, is_Some (value d)) m.
Definition visible_ring (d : Desc) : Desc := (RemoveTombstones d zeroTime).1.
(** [w] is what [v] has been merged into: itself, if there was no ring *)
Definition merged_into (v w : Desc) : Prop := w = visible_ring v ∨ ∃ d localCAS now, w = visible_ring (merged d v localCAS now).
Definition gossiped (m : ring_store) (key : string) (v : Desc) : Prop := ∃ w, Get m key = Some w ∧ merged_into v w.
(** the others on the node leave a value to every key *)
Definition others_valued (Env : Type) (o : nat → cas_env (V := Desc) * Env) (key : string) (m : ring_store) : Prop :=
  ∀ n m, valued m → valued (ce_interfere (o n).1 m).

(** ** The store keeps a value for every key *)
Lemma store_in_place_valued m key d : valued m → valued (store_in_place m key d).
Proof.
  intros Hm. unfold store_in_place. destruct (m !! key) as [[[x|] ver cd]|]; simpl; [|done..]. by apply map_Forall_insert_2.
Qed.
Lemma mergeValueForKey_valued m key v cas cd now nl m' r :
  mergeValueForKey lit m key v cas cd now nl = (m', r) → valued m → valued m'.
Proof.
  intros Hm Hv. unfold mergeValueForKey in Hm. destruct (_ && _); [by injection Hm as <- _|].
  destruct (computeNewValue _ _ _ _) as [res [[change|]|e]]; [|injection Hm as <- _; by apply store_in_place_valued..].
  destruct (bool_decide (length _ = 0%nat)); [injection Hm as <- _; by apply store_in_place_valued|].
  destruct (if bool_decide (0 < lit) then _ else _) as [res' change'].
  destruct (bool_decide (0 < lit) && _); injection Hm as <- _; [by do 2 apply store_in_place_valued|].
  apply map_Forall_insert_2; [by eexists|]. by do 2 apply store_in_place_valued.
Qed.
Lemma visible_RemoveTombstones d limit : visible_ring (RemoveTombstones d limit).1 = visible_ring d.
Proof.
  enough (Ingesters (visible_ring (RemoveTombstones d limit).1) = Ingesters (visible_ring d)) as He
    by (destruct (visible_ring (RemoveTombstones d limit).1), (visible_ring d); simpl in He; congruence).
  apply map_eq. intros k. unfold visible_ring. rewrite !RemoveTombstones_lookup. destruct (Ingesters d !! k) as [i|]; [|done].
  destruct (expired limit i) eqn:He; [|done]. unfold expired in *. apply andb_true_iff in He as [-> _]. done.
Qed.

(** ** A round, and the rounds *)
Section rounds.
Context {Env CErr S : Type} (f : option Desc → Env → S → option (cas_out Desc CErr * S)) (o : nat → cas_env (V := Desc) * Env) (key : string).
Abbreviation attempt_of m n stored := (Attempt (KVErr := client_error) (mkAttempt (get m key).1 (o n).2 stored)).

(** the outcome of a round, given what the callback has returned in it *)
Lemma round_cases m n s last m' c retry r :
  trySingleCas (callback f (snd ∘ o)) lit m (mkCall n (Some s) last) key codec (ce_interfere (o n).1) (ce_now (o n).1) (ce_nowLimit (o n).1)
  = (m', c, (retry, r)) →
  (c_state c = None ∧ r = Ok (None, 0)) ∨
  (valued (ce_interfere (o n).1 m) → valued m') ∧
  ∃ out s1, f (get m key).1 (o n).2 s = Some (out, s1) ∧ c = mkCall (Nat.pred n) (Some s1) (Some out) ∧
  match cas_err out with
  | Some ce => retry = cas_retry out ∧ ∃ e, r = Err e
  | None =>
      match cas_value out with
      | None => r = Ok (None, 0)
      | Some v => retry = cas_retry out ∧ ((∃ e, r = Err e) ∨ ∃ change newver, r = Ok (Some change, newver))
      end
  end.
Proof.
  unfold trySingleCas. destruct (get m key) as [val ver] eqn:Hg. cbn [fst]. unfold callback at 1. cbn [c_state c_round mbind option_bind].
  change ((snd ∘ o) n) with (o n).2. destruct (f val (o n).2 s) as [[out s1]|]; [|intros [= <- <- <- <-]; by left].
  intros Hr. right. destruct (cas_err out) as [ce|] eqn:He; cbn [fmap option_fmap option_map] in Hr.
  { injection Hr as <- <- <- <-. split; [done|]. exists out, s1. rewrite He. eauto 6. }
  destruct (cas_value out) as [v|] eqn:Hv; [|injection Hr as <- <- <- <-; split; [done|]; exists out, s1; rewrite He, Hv; eauto 6].
  destruct (mergeValueForKey _ _ _ _ _ _ _ _) as [m1 res] eqn:Hm. split.
  { intros Hval. assert (m' = m1) as -> by (destruct res as [[change newver]|e]; [case_bool_decide|]; by injection Hr).
    by eapply mergeValueForKey_valued. }
  exists out, s1. rewrite He, Hv. split; [done|]. destruct res as [[change newver]|e].
  - case_bool_decide as Hn; injection Hr as <- <- <- <-; (split; [done|]); (split; [done|]); [left; eauto|].
    destruct change as [change|]; [right; eauto|]. exfalso.
    apply mergeValueForKey_cases in Hm as [(? & _)|(_ & _ & [(? & ? & ? & _)|[[[= ->]|[e ?]] _]])]; done.
  - injection Hr as <- <- <- <-. eauto 8.
Qed.

Lemma CAS_loop_contract n last m s lo m' c r :
  (∀ out, lo = Some out → cas_err out = None ∨ cas_retry out = true) → others_valued Env o key m → valued m →
  CAS_loop (callback f (snd ∘ o)) lit (fst ∘ o) n last m (mkCall n (Some s) lo) key codec = (m', c, r) → c_state c ≠ None →
  valued m' ∧ ∃ script s', c_state c = Some s' ∧ CAS f script s = Some (cas_returns (c_last c) r, s').
Proof.
  assert (∀ (lo : option (cas_out Desc CErr)) e, (∀ out, lo = Some out → cas_err out = None ∨ cas_retry out = true) →
    cas_returns lo (Err e) = CasKVErr (ErrCas e)) as Hgive.
  { intros l e Hl. destruct l as [[v [] [ce|]]|]; try done. by destruct (Hl _ eq_refl). }
  revert last m s lo. induction n as [|n IH]; intros last m s lo Hlo Ho Hv; cbn [CAS_loop].
  { intros [= <- <- <-] _. split; [done|]. eexists [GiveUp _], s. split; [done|]. cbn [CAS c_last]. by rewrite Hgive. }
  destruct (is_errNoChange last && _).
  { intros [= <- <- <-] _. split; [done|]. eexists [GiveUp _], s. split; [done|]. cbn [CAS c_last]. by rewrite Hgive. }
  destruct (trySingleCas _ _ _ _ _ _ _ _ _) as [[m1 c1] [retry res]] eqn:Ht.
  apply round_cases in Ht as [[Hc1 ->]|(Hv1 & out & s1 & Hf & -> & Hout)]; [by intros [= <- <- <-]|]. specialize (Hv1 (Ho _ _ Hv)).
  (* after a round that the loop does not end with *)
  assert (∀ last', (cas_err out = None → cas_value out ≠ None) → (cas_err out = None ∨ cas_retry out = true) →
    CAS_loop (callback f (snd ∘ o)) lit (fst ∘ o) n last' m1 (mkCall n (Some s1) (Some out)) key codec = (m', c, r) → c_state c ≠ None →
    valued m' ∧ ∃ script s', c_state c = Some s' ∧ CAS f script s = Some (cas_returns (c_last c) r, s')) as Hagain.
  { intros last' Hval Hre Hr Hc. destruct (IH last' m1 s1 (Some out)) as (Hv' & script & s' & Hs' & Hscript); [by intros ? [= <-]|done..|].
    split; [done|]. exists (attempt_of m (Datatypes.S n) false :: script), s'. split; [done|]. cbn [CAS att_in att_env att_stored].
    rewrite Hf. destruct (cas_err out); [by destruct Hre as [?| ->]|]. by destruct (cas_value out); [|destruct Hval]. }
  assert (∀ stored, CAS f [attempt_of m (Datatypes.S n) stored; GiveUp (ErrCas (default (errCasFailed key None) (match r with Err e => Some e | _ => None end)))] s
    = Some (match cas_err out with
            | Some e => if cas_retry out then CasKVErr (ErrCas (default (errCasFailed key None) (match r with Err e => Some e | _ => None end))) else CasCallbackErr e
            | None => match cas_value out with
                      | None => CasOk None
                      | Some v => if stored : bool then CasOk (Some v) else CasKVErr (ErrCas (default (errCasFailed key None) (match r with Err e => Some e | _ => None end)))
                      end
            end, s1)) as Hone.
  { intros stored. cbn [CAS att_in att_env att_stored]. rewrite Hf. destruct (cas_err out); [by destruct (cas_retry out)|].
    destruct (cas_value out); [by destruct stored|done]. }
  destruct (cas_err out) as [ce|] eqn:He.
  - destruct Hout as [-> [e ->]]. destruct (cas_retry out) eqn:Hre; simpl; [by apply Hagain; [|right]|].
    intros [= <- <- <-] _. split; [done|]. eexists _, s1. split; [done|]. rewrite (Hone true). destruct out as [v b x]. simpl in *. by subst.
  - destruct (cas_value out) as [v|] eqn:Hval.
    + destruct Hout as [-> [[e ->]|(change & newver & ->)]].
      * destruct (cas_retry out) eqn:Hre; simpl; [by apply Hagain; [|left]|].
        intros [= <- <- <-] _. split; [done|]. eexists _, s1. split; [done|]. rewrite (Hone false). destruct out as [v' b x]. simpl in *. by subst.
      * intros [= <- <- <-] _. split; [done|]. eexists _, s1. split; [done|]. rewrite (Hone true). simpl. by rewrite Hval.
    + subst res. intros [= <- <- <-] _. split; [done|]. eexists _, s1. split; [done|]. rewrite (Hone true). done.
Qed.

(** what the callback has returned last has been merged into the value of the key *)
Lemma CAS_loop_gossiped n last m s m' c change newver :
  CAS_loop (callback f (snd ∘ o)) lit (fst ∘ o) n last m s key codec = (m', c, Ok (Some (change, newver))) →
  ∃ v, (out ← c_last c; cas_value out) = Some v ∧ gossiped m' key v.
Proof.
  intros (i & m1 & s1 & _ & v & retry & Hf & _ & Hm)%CAS_loop_success. exists v. split.
  - unfold callback in Hf. destruct (c_state s1 ≫= _) as [[out s2]|]; [|discriminate Hf]. injection Hf as <- Hv _ _. simpl.
    destruct (cas_value out); [by injection Hv as ->|done].
  - apply mergeValueForKey_stored in Hm as (res & change0 & Hc & _ & ->). unfold gossiped, Get, get. rewrite lookup_insert_eq. simpl.
    eexists. split; [done|]. match goal with |- merged_into v (RemoveTombstones ?x zeroTime).1 => change (merged_into v (visible_ring x));
      assert (visible_ring x = visible_ring res) as -> end.
    { destruct (bool_decide (0 < lit)); [|done]. unfold remove_tombstones_both. destruct (is_nil _); simpl; by rewrite !visible_RemoveTombstones. }
    unfold computeNewValue in Hc. destruct (value _) as [d|]; [|left; by injection Hc as <- _]. right.
    injection Hc as <- _. eauto.
Qed.
End rounds.

Lemma List_spec (m : ring_store) prefix : NoDup (List m prefix) ∧ ∀ k, k ∈ List m prefix ↔ String.prefix prefix k = true ∧ is_Some (m !! k).
Proof.
  assert (List m prefix = filter (λ k, String.prefix prefix k = true) (map_range 618 m).*1) as ->.
  { unfold List. assert (∀ (l : list (string * valueDesc Desc)) acc,
      foldl (λ keys '(k, _), if String.prefix prefix k then keys ++ [k] else keys) acc l = acc ++ filter (λ k, String.prefix prefix k = true) l.*1) as H.
    { induction l as [|[k d] l IH]; intros acc; simpl; [by rewrite app_nil_r|]. rewrite IH, filter_cons.
      destruct (String.prefix prefix k); [rewrite decide_True by done; by rewrite <- app_assoc|by rewrite decide_False]. }
    by rewrite H. }
  split; [apply NoDup_filter, map_range_NoDup_fst|]. intros k. rewrite list_elem_of_filter, list_elem_of_fmap. split.
  - intros [Hp ([k' d] & -> & Hk%map_range_elem)]. eauto.
  - intros [Hp [d Hd]]. split; [done|]. exists (k, d). split; [done|]. by apply map_range_elem.
Qed.
Lemma Get_valued (m : ring_store) key : valued m → is_Some (Get m key) ↔ is_Some (m !! key).
Proof.
  intros Hv. unfold Get, get. destruct (m !! key) as [d|] eqn:Hd; simpl; [|done]. destruct (Hv _ _ Hd) as [x ->]. split; eauto.
Qed.

Theorem memberlist_client_laws : KVLaws memberlist_client Get gossiped valued others_valued.
Proof.
  constructor; cbn [kv_List kv_Get kv_Delete kv_CAS kv_error kv_oracle memberlist_client].
  - intros prefix m keys Hv [= <-]. destruct (List_spec m prefix) as [Hnd Hk]. split; [done|]. intros k. by rewrite Hk, Get_valued.
  - by intros key m v _ [= <-].
  - done.
  - intros Env CErr S o key f m s r s' m' Hv Ho Hr.
    destruct (CAS_store _ _ _ _ _ _ _) as [[m1 c] res] eqn:Hc. unfold CAS_store in Hc.
    destruct (c_state c) as [s1|] eqn:Hs1; [|done]. simpl in Hr. injection Hr as <- <- <-.
    apply CAS_loop_contract in Hc as Hcon; [|done..|congruence]. destruct Hcon as (Hv' & script & s2 & Hs2 & Hscript).
    rewrite Hs1 in Hs2. injection Hs2 as <-. split; [done|]. split; [by exists script|]. intros v Hr.
    destruct res as [[[change newver]|]|e]; simpl in Hr; [|done|by repeat case_match].
    apply CAS_loop_gossiped in Hc as (v' & Hv'' & Hg). rewrite Hv'' in Hr. by injection Hr as ->.
  - intros key m v _ (w & Hw & _). rewrite Hw. eauto.
Qed.
End client.
