(* ===== verification/ConsulClient.v ===== *)
(** * The Consul client as a [KVClient]

    [List], [Get], [Delete] and [CAS] of [kv/consul/client.go] on the in-memory
    Consul keep the promise of the interface: the store is the map of the decoded
    values. *)
From Stdlib Require Import ZArith Lia.
From stdpp Require Import base gmap strings list sorting fin_maps.
From S2P Require Import Prelude TokensFile KV KVClient CASLoop Consul ConsulFacts ConsulWatch.

Section client.
Context {V : Type} `{C : Codec V} `{R : MapRange} (cfg : Config).

(** [Get] and [List] ask for an answer at once: no [WaitIndex], no [WaitTime] *)
Definition got_pair (o : get_outcome) : option (option KVPair) :=
  match o with GotPair kvp _ => Some kvp | GetWaits _ => None end.
Definition consul_client : KVClient V mockKV := {|
  kv_error := consul_error;
  kv_oracle Env := list (cas_turn Env mock_op);
  kv_List prefix m := consul_List (fst <$> mock_List prefix 0 0 m);
  kv_Get key m := consul_Get (got_pair (mock_Get key 0 0 m));
  kv_Delete key m := (None, consul_Delete key m);
  kv_CAS Env CErr S turns key f m s := consul_cas mock_store cfg key f turns m s
|}.

Definition contents (m : mockKV) (key : string) : option V := kvp ← kvps m !! key; codec_Decode (pair_Value kvp).
(** a value that was written is what the key holds *)
Definition replaced (m : mockKV) (key : string) (v : V) : Prop := contents m key = Some v.
(** every value can be decoded *)
Definition decodable (m : mockKV) : Prop := map_Forall (λ _ p, is_Some (codec_Decode (V:=V) (pair_Value p))) (kvps m).
Definition op_decodable (op : mock_op) : Prop :=
  match op with OpPut _ b | OpCAS _ b _ => is_Some (codec_Decode (V:=V) b) | _ => True end.
(** the other clients write values of the codec, do not delete the key and do not
    reset the index *)
Definition others_ok (Env : Type) (turns : list (cas_turn Env mock_op)) (key : string) (m : mockKV) : Prop :=
  Forall (turn_ok (mock_op_ok key)) turns ∧ current m + cost turns < 2 ^ 64 ∧
  ∀ op, of_others turns op → op_decodable op.

Lemma mock_write_decodable key b m : is_Some (codec_Decode (V:=V) b) → decodable m → decodable (mock_write key b m).
Proof. intros Hb Hm. unfold mock_write, decodable. destruct (kvps m !! key); simpl; (apply map_Forall_insert_2; [exact Hb|exact Hm]). Qed.
Lemma do_ops_decodable ops m : Forall op_decodable ops → decodable m → decodable (do_ops (VS:=mock_store) ops m).
Proof.
  revert m. induction ops as [|op ops IH]; intros m Ho Hm; [done|]. apply Forall_cons in Ho as [Hop Ho].
  apply (IH (do_op m op)); [done|]. destruct op as [k b|k b i|k| |k]; simpl in *.
  - by apply mock_write_decodable.
  - unfold mock_CAS. destruct (kvps m !! k); [case_bool_decide|]; simpl; [done|by apply mock_write_decodable..].
  - by apply map_Forall_delete.
  - done.
  - unfold ResetIndexForKey. destruct (kvps m !! k) as [p|] eqn:Hk; [|done]. apply map_Forall_insert_2; [exact (Hm _ _ Hk)|done].
Qed.

Lemma mock_write_lookup key b m : pair_Value <$> kvps (mock_write key b m) !! key = Some b.
Proof. unfold mock_write. destruct (kvps m !! key); simpl; by rewrite lookup_insert_eq. Qed.

Lemma contents_write key v b m : codec_roundtrip C → codec_Encode v = Some b → contents (mock_write key b m) key = Some v.
Proof.
  intros HC Hb. unfold contents. pose proof (mock_write_lookup key b m) as Hl.
  destruct (kvps (mock_write _ _ _) !! key) as [p|]; [|done]. simpl in *. injection Hl as ->. by apply HC.
Qed.

Lemma contents_is_Some m k : decodable m → is_Some (contents m k) ↔ is_Some (kvps m !! k).
Proof.
  intros Hd. unfold contents. destruct (kvps m !! k) as [p|] eqn:Hk; simpl; [|done].
  split; [eauto|]. intros _. by eapply Hd.
Qed.

Lemma consul_client_laws : codec_roundtrip C →
  KVLaws consul_client contents replaced (λ m, mock_wf m ∧ decodable m) others_ok.
Proof.
  intros HC. constructor; cbn [kv_List kv_Get kv_Delete kv_CAS kv_error kv_oracle consul_client].
  - intros prefix m keys [Hwf Hd].
    change (mock_List prefix 0 0 m) with (Some (mock_List_finish prefix 0 m)). cbn [fmap option_fmap option_map].
    assert (∀ (l : list (string * KVPair)) acc, foldl (λ keys kvp, keys ++ [kvp.1]) acc l = acc ++ l.*1) as Hl.
    { induction l as [|[k p] l IH]; intros acc; simpl; [by rewrite app_nil_r|]. by rewrite IH, <- app_assoc. }
    unfold consul_List. rewrite Hl. cbn [app]. intros [= <-]. split; [apply List_NoDup|].
    intros k. rewrite contents_is_Some by done. split.
    + intros (x & -> & Hx)%list_elem_of_fmap. destruct x as [k p]. apply elem_of_List in Hx as (Hk & Hp & _). eauto.
    + intros [Hp [p Hk]]. apply list_elem_of_fmap. exists (k, p). split; [done|]. apply elem_of_List.
      destruct Hwf as [_ Hwf]. destruct (Hwf _ _ Hk). split_and!; [done..|lia].
  - intros key m v [_ Hd]. unfold mock_Get, mock_Get_finish, contents. destruct (kvps m !! key) as [p|] eqn:Hk; simpl.
    + rewrite andb_false_r. simpl. destruct (codec_Decode (pair_Value p)); by intros [= <-].
    + by intros [= <-].
  - intros key m m' [Hwf Hd] [= <-]. split.
    + split; [by apply (later_wf 0 m), mock_Delete_later|by apply map_Forall_delete].
    + intros k. unfold contents. simpl. case_bool_decide as Hk; [by rewrite Hk, lookup_delete_eq|by rewrite lookup_delete_ne].
  - intros Env CErr S turns key f m s r s' m' [Hwf Hd] (Hok & Hroom & Hdec) Hr.
    eapply (consul_cas_spec key f mock_store _ (mock_laws key)) in Hr as ((script & _ & Hc) & [Hlat _] & Hout); [|done..].
    assert (∀ ops, Forall (of_others turns) ops → decodable (do_ops (VS:=mock_store) ops m)) as Hops.
    { intros ops Ho. apply do_ops_decodable; [|done]. eapply Forall_impl; [exact Ho|exact Hdec]. }
    split; [split; [by apply (later_wf _ _ _ Hlat)|]|split; [by exists script|]].
    + destruct r as [[v|]|e|e]; [|by destruct Hout as (ops & Ho & ->); apply Hops..].
      destruct Hout as (ops & env & s0 & out & b & Ho & Hb & -> & _). apply mock_write_decodable; [|by apply Hops].
      rewrite (HC _ _ Hb). eauto.
    + intros v ->. destruct Hout as (ops & env & s0 & out & b & Ho & Hb & -> & _). by apply contents_write.
  - intros key m v _ Hv. by exists v.
Qed.

(** On the in-memory Consul the Consul client is a client of the map of the
    decoded values: [List] returns the keys with the prefix, each once, [Get] the
    value, [Delete] removes the key alone, and [CAS] follows the contract and
    leaves the value it has written. *)
Theorem consul_client_correct : codec_roundtrip C →
  KVLaws consul_client contents replaced (λ m, mock_wf m ∧ decodable m) others_ok.
Proof. apply consul_client_laws. Qed.
End client.

(** ** Witnesses *)
Section witnesses.
#[local] Existing Instance String_codec.
#[local] Existing Instance map_range_std.

Lemma String_roundtrip : codec_roundtrip String_codec.
Proof. by intros v b [= <-]. Qed.
Lemma consul_client_correct_witness :
  KVLaws (consul_client ex_cfg) contents replaced (λ m, mock_wf m ∧ decodable m) others_ok ∧
  kv_List (KVClient:=consul_client ex_cfg) "" ex_after = Ok ["k"; "l"].
Proof. split; [exact (consul_client_correct ex_cfg String_roundtrip)|vm_compute; reflexivity]. Defined.

(** a prefixed client on the same store *)
Definition ex_prefixed : KVClient bytes mockKV := PrefixClient (consul_client ex_cfg) "ring/".
Definition ex_rings : mockKV := foldl do_op newMockKV [OpPut "ring/a" [Byte.x01]; OpPut "other" [Byte.x02]].
Lemma PrefixClient_correct_witness :
  KVLaws ex_prefixed (λ st k, contents st ("ring/" ++ k)%string) (λ st k, replaced st ("ring/" ++ k)%string) (λ m, mock_wf m ∧ decodable m)
    (λ Env o key st, others_ok Env o ("ring/" ++ key)%string st) ∧
  kv_List (KVClient:=ex_prefixed) "" ex_rings = Ok ["a"] ∧ kv_Get (KVClient:=ex_prefixed) "a" ex_rings = Ok (Some [Byte.x01]).
Proof.
  split; [|split; vm_compute; reflexivity].
  exact (PrefixClient_correct (consul_client ex_cfg) _ _ _ _ "ring/" (consul_client_laws ex_cfg String_roundtrip)).
Defined.
End witnesses.
