(* ===== verification/Multi.v ===== *)
(** * The multi client: [kv/multi.go]

    Clients of several stores behind one: reads and writes go to the primary,
    writes are mirrored to the others, and the operations in progress are
    restarted when the primary is switched.  The clients are those of one
    interface ([KVClient]); a client is the index of its store. *)
From Stdlib Require Import ZArith Lia.
From stdpp Require Import base gmap strings list sorting fin_maps fin_sets.
From S2P Require Import Prelude Model Merge Memberlist RingValue CASLoop Consul ConsulFacts ConsulWatch KV KVClient ConsulClient MemberlistClient.

Record kvclient := mkKvclient { client : nat; name : string }.
#[export] Instance kvclient_eq_dec : EqDecision kvclient.
Proof. solve_decision. Defined.

Record MultiRuntimeConfig := mkMultiRuntimeConfig { PrimaryStore : string; Mirroring : option bool }.

(** [inProgress] is the client of each operation in progress; calling its cancel
    function puts its number in [cancelled] *)
Record MultiClient := mkMultiClient {
  clients : list kvclient;
  primaryID : nat;
  mirroringEnabled : bool;
  inProgress : gmap Z nat;
  inProgressCnt : Z;
  cancelled : gset Z
}.
Definition NewMultiClient (mirror : bool) (cs : list kvclient) : MultiClient := mkMultiClient cs 0 mirror ∅ 0 ∅.

(** [None]: the index is out of range, a panic *)
Definition getPrimaryClient (m : MultiClient) : option (nat * kvclient) :=
  kv ← clients m !! primaryID m; Some (primaryID m, kv).

Definition find_client (store : string) (cs : list kvclient) : option nat :=
  fst <$> list_find (λ c, name c = store) cs.

(** [setNewPrimaryClient] until it has swapped [primaryID]: the previous one when
    it has changed *)
Inductive multi_error := ErrStoreNotFound.
Definition swap_primary (store : string) (m : MultiClient) : result multi_error (option nat) * MultiClient :=
  match find_client store (clients m) with
  | None => (Err ErrStoreNotFound, m)
  | Some newPrimaryIx =>
      let prev := primaryID m in
      let m := mkMultiClient (clients m) newPrimaryIx (mirroringEnabled m) (inProgress m) (inProgressCnt m) (cancelled m) in
      (Ok (if bool_decide (prev = newPrimaryIx) then None else Some prev), m)
  end.
(** and then: the operations that use the previous primary are cancelled *)
Definition cancel_previous (prev : nat) (m : MultiClient) : MultiClient :=
  mkMultiClient (clients m) (primaryID m) (mirroringEnabled m) (inProgress m) (inProgressCnt m)
    (cancelled m ∪ dom (filter (λ kv, kv.2 = prev) (inProgress m))).
Definition setNewPrimaryClient (store : string) (m : MultiClient) : result multi_error bool * MultiClient :=
  match swap_primary store m with
  | (Err e, m) => (Err e, m)
  | (Ok None, m) => (Ok false, m)
  | (Ok (Some prev), m) => (Ok true, cancel_previous prev m)
  end.

(** a message of the config channel; an error is only logged *)
Definition watchConfigChannel_step (cfg : MultiRuntimeConfig) (m : MultiClient) : MultiClient :=
  let m :=
    match Mirroring cfg with
    | None => m
    | Some enabled => mkMultiClient (clients m) (primaryID m) enabled (inProgress m) (inProgressCnt m) (cancelled m)
    end in
  if bool_decide (PrimaryStore cfg ≠ ""%string) then (setNewPrimaryClient (PrimaryStore cfg) m).2 else m.

Definition registerCancelFn (clientID : nat) (m : MultiClient) : Z * MultiClient :=
  let id := inProgressCnt m + 1 in
  (id, mkMultiClient (clients m) (primaryID m) (mirroringEnabled m) (<[id := clientID]> (inProgress m)) id (cancelled m)).
Definition unregisterCancelFn (id : Z) (m : MultiClient) : MultiClient :=
  mkMultiClient (clients m) (primaryID m) (mirroringEnabled m) (delete id (inProgress m)) (inProgressCnt m) (cancelled m).

(** ** [CAS] *)
Section operations.
Context {V St : Type} `{c : KVClient V St}.
Abbreviation Stores := (nat → St).
Definition set_store (ix : nat) (st : St) (stores : Stores) : Stores := λ i, if bool_decide (i = ix) then st else stores i.

Definition multi_List (prefix : string) (m : MultiClient) (stores : Stores) : option (result kv_error (list string)) :=
  '(_, kv) ← getPrimaryClient m; Some (kv_List prefix (stores (client kv))).
Definition multi_Get (key : string) (m : MultiClient) (stores : Stores) : option (result kv_error (option V)) :=
  '(_, kv) ← getPrimaryClient m; Some (kv_Get key (stores (client kv))).
Definition multi_Delete (key : string) (m : MultiClient) (stores : Stores) : option (option kv_error * Stores) :=
  '(_, kv) ← getPrimaryClient m;
  let '(err, st) := kv_Delete key (stores (client kv)) in
  Some (err, set_store (client kv) st stores).

(** the callback keeps its last output in [updatedValue] *)
Definition capture {Env CErr S} (f : option V → Env → S → option (cas_out V CErr * S))
    : option V → Env → S * option V → option (cas_out V CErr * (S * option V)) := λ in_ e '(s, _),
  '(out, s) ← f in_ e s; Some (out, (s, cas_value out)).

(** try once *)
Definition mirror_f (newValue : V) : option V → unit → unit → option (cas_out V Empty_set * unit) :=
  λ _ _ s, Some (mkCasOut (Some newValue) false None, s).
(** [os] is what happens in the stores meanwhile; the clients that failed *)
Fixpoint writeToSecondary (os : nat → kv_oracle unit) (primary : kvclient) (key : string) (newValue : V)
    (cs : list kvclient) (stores : Stores) : option (list kvclient * Stores) :=
  match cs with
  | [] => Some ([], stores)
  | kvc :: cs =>
      if bool_decide (kvc = primary) then writeToSecondary os primary key newValue cs stores
      else
        '(r, _, st) ← kv_CAS (os (client kvc)) key (mirror_f newValue) (stores (client kvc)) tt;
        '(failed, stores) ← writeToSecondary os primary key newValue cs (set_store (client kvc) st stores);
        Some (match r with CasOk _ => failed | _ => kvc :: failed end, stores)
  end.

(** [mirroring] is what [mirroringEnabled] holds once the primary has returned *)
Definition multi_CAS {Env CErr S} (o : kv_oracle Env) (os : nat → kv_oracle unit) (mirroring : bool) (key : string)
    (f : option V → Env → S → option (cas_out V CErr * S)) (m : MultiClient) (stores : Stores) (s : S)
    : option (cas_result V CErr kv_error * S * list kvclient * Stores) :=
  '(_, kv) ← getPrimaryClient m;
  '(r, (s, updatedValue), st) ← kv_CAS o key (capture f) (stores (client kv)) (s, None);
  let stores := set_store (client kv) st stores in
  match r, updatedValue with
  | CasOk _, Some v =>
      if mirroring then
        '(failed, stores) ← writeToSecondary os kv key v (clients m) stores;
        Some (r, s, failed, stores)
      else Some (r, s, [], stores)
  | _, _ => Some (r, s, [], stores)
  end.
End operations.

(** ** [runWithPrimaryClient] *)
(** One operation, such as a watch, and one switch of the primary, in the steps
    another goroutine can come between: the operation reads the primary,
    registers its cancel function, runs until its context is cancelled or it is
    done, and cleans up. *)
Inductive op_phase :=
| OpStarts
| OpHas (pid : nat)                    (* [getPrimaryClient] has returned *)
| OpRuns (pid : nat) (id : Z)          (* [fn] runs with a registered cancel function *)
| OpDone.
Inductive switch_phase := SwitchIdle | SwitchSwapped (prev : nat).
Record multi_run := mkMultiRun { mr_client : MultiClient; mr_op : op_phase; mr_switch : switch_phase }.
Inductive run_event :=
| GetPrimary
| Register
| FnCancelled                          (* [fn] returns because its context is cancelled *)
| FnReturns                            (* [fn] returns; the outer context may be done *)
| SwitchTo (store : string)
| CancelPrevious.
Definition run_step (ev : run_event) (r : multi_run) : option multi_run :=
  let m := mr_client r in
  match ev, mr_op r, mr_switch r with
  | GetPrimary, OpStarts, _ => '(pid, _) ← getPrimaryClient m; Some (mkMultiRun m (OpHas pid) (mr_switch r))
  | Register, OpHas pid, _ => let '(id, m) := registerCancelFn pid m in Some (mkMultiRun m (OpRuns pid id) (mr_switch r))
  | FnCancelled, OpRuns _ id, _ =>
      if bool_decide (id ∈ cancelled m) then Some (mkMultiRun (unregisterCancelFn id m) OpStarts (mr_switch r)) else None
  | FnReturns, OpRuns _ id, _ => Some (mkMultiRun (unregisterCancelFn id m) OpDone (mr_switch r))
  | SwitchTo store, _, SwitchIdle =>
      match swap_primary store m with
      | (Ok (Some prev), m) => Some (mkMultiRun m (mr_op r) (SwitchSwapped prev))
      | (_, m) => Some (mkMultiRun m (mr_op r) SwitchIdle)
      end
  | CancelPrevious, _, SwitchSwapped prev => Some (mkMultiRun (cancel_previous prev m) (mr_op r) SwitchIdle)
  | _, _, _ => None
  end.
Fixpoint run_steps (evs : list run_event) (r : multi_run) : option multi_run :=
  match evs with [] => Some r | ev :: evs => r ← run_step ev r; run_steps evs r end.
Definition run_start (m : MultiClient) : multi_run := mkMultiRun m OpStarts SwitchIdle.

(** ** Correctness of the multi client

    Its CAS is that of the primary, mirrored; an operation is restarted when the
    primary it uses is replaced. *)
(** ** [capture] is transparent *)
Lemma capture_CAS {V Env CErr KVErr S} (f : option V → Env → S → option (cas_out V CErr * S)) script s u r s' u' :
  CAS (KVErr:=KVErr) (capture f) script (s, u) = Some (r, (s', u')) → CAS f script s = Some (r, s').
Proof.
  revert s u. induction script as [|ev script IH]; intros s u Hc; [done|]. simpl in *. destruct ev as [a|e]; [|by simplify_eq].
  destruct (f (att_in a) (att_env a) s) as [[out s1]|]; [|done]. simpl in Hc.
  destruct (cas_err out); [destruct (cas_retry out); [by eapply IH|by simplify_eq]|].
  destruct (cas_value out); [destruct (att_stored a); [by simplify_eq|by eapply IH]|by simplify_eq].
Qed.

(** what is captured is what was stored *)
Lemma capture_last {V Env CErr KVErr S} (f : option V → Env → S → option (cas_out V CErr * S)) script s u w s' u' :
  CAS (KVErr:=KVErr) (capture f) script (s, u) = Some (CasOk w, (s', u')) → u' = w.
Proof.
  intros Hc. apply (CAS_last (λ _, True)) in Hc as (a & [s0 u0] & o & _ & _ & Hr & _ & Hw & _); [|done..].
  simpl in Hr. destruct (f _ _ s0) as [[out s1]|]; [|done]. simpl in Hr. by simplify_eq.
Qed.

Section facts.
Context {V St : Type} {c : KVClient V St} {contents : St → string → option V} {holds : St → string → V → Prop} {inv : St → Prop}
  {oracle_ok : ∀ Env, kv_oracle Env → string → St → Prop} {L : KVLaws c contents holds inv oracle_ok}.
Implicit Types (stores : nat → St) (m : MultiClient) (cs : list kvclient).

Lemma set_store_eq ix st stores : set_store ix st stores ix = st.
Proof. unfold set_store. by rewrite bool_decide_eq_true_2. Qed.
Lemma set_store_ne ix i st stores : i ≠ ix → set_store ix st stores i = stores i.
Proof. intros Hi. unfold set_store. by rewrite bool_decide_eq_false_2. Qed.

Lemma writeToSecondary_spec os primary key v cs stores failed stores' :
  NoDup (client <$> cs) →
  (∀ kvc, kvc ∈ cs → kvc ≠ primary → inv (stores (client kvc)) ∧ oracle_ok unit (os (client kvc)) key (stores (client kvc))) →
  writeToSecondary os primary key v cs stores = Some (failed, stores') →
  (∀ kvc, kvc ∈ cs → kvc ≠ primary → kvc ∉ failed → holds (stores' (client kvc)) key v) ∧
  (∀ ix, (∀ kvc, kvc ∈ cs → kvc ≠ primary → client kvc ≠ ix) → stores' ix = stores ix).
Proof.
  revert stores failed stores'. induction cs as [|kvc cs IH]; intros stores failed stores' Hnd Hok Hw; simpl in *.
  { injection Hw as <- <-. split; [by intros ? ?%elem_of_nil|done]. }
  inversion_clear Hnd as [|? ? Hni Hnd'].
  case_bool_decide as Hp.
  { apply IH in Hw as [H1 H2]; [|done|intros k Hk; apply Hok; by right]. split.
    - intros k [->|Hk]%elem_of_cons Hne; [done|auto].
    - intros ix Hix. apply H2. intros k Hk. apply Hix. by right. }
  destruct (kv_CAS _ _ _ _ _) as [[[r []] st]|] eqn:Hc; [|done]. simpl in Hw.
  destruct (writeToSecondary _ _ _ _ _ _) as [[failed1 stores1]|] eqn:Hw1; [|done]. simpl in Hw.
  destruct (Hok kvc ltac:(by left) Hp) as [Hi Ho].
  destruct (law_CAS _ _ _ _ _ _ _ _ _ _ _ Hi Ho Hc) as (_ & (script & Hscript) & Hst).
  assert (∀ k, k ∈ cs → client k ≠ client kvc) as Hdiff.
  { intros k Hk He. apply Hni. rewrite <- He. by apply list_elem_of_fmap_2. }
  apply IH in Hw1 as [H1 H2]; [|done|intros k Hk; rewrite set_store_ne by auto; apply Hok; by right].
  assert (stores1 (client kvc) = st) as Hstore.
  { rewrite (H2 (client kvc)); [apply set_store_eq|]. intros k Hk _. auto. }
  rewrite <- Hstore in Hst. clear Hstore. injection Hw as Hfailed <-. split.
  - intros k [->|Hk]%elem_of_cons Hne Hf.
    + destruct r as [w|e|e]; subst failed; [|by exfalso; apply Hf; left..].
      apply Hst. apply (CAS_last (λ _, True)) in Hscript as (a & ? & o & _ & _ & Hr & _ & Hw & _); [|done..].
      unfold mirror_f in Hr. by simplify_eq.
    + apply H1; [done..|]. destruct r; subst failed; [done|by intros ?; apply Hf; right..].
  - intros ix Hix. rewrite H2 by (intros k Hk; apply Hix; by right). apply set_store_ne. symmetry. apply Hix; [by left|done].
Qed.

(** C33. A CAS of the multi client is a CAS of the contract on the primary, with
    the callback unchanged, whatever kinds of clients there are.  When it has written a
    value the store of the primary holds it, as its client promises: as the value of
    the key, or, for the gossiped store, merged into it; and with mirroring so does the
    store of every other client that has not failed.  Otherwise no other store is
    touched. *)
Theorem multi_CAS_correct {Env CErr S} (o : kv_oracle Env) os mirroring key
    (f : option V → Env → S → option (cas_out V CErr * S)) m stores s r s' failed stores' pid kv :
  getPrimaryClient m = Some (pid, kv) → NoDup (client <$> clients m) →
  (∀ ix, inv (stores ix)) → oracle_ok Env o key (stores (client kv)) →
  (∀ kvc, kvc ∈ clients m → kvc ≠ kv → oracle_ok unit (os (client kvc)) key (stores (client kvc))) →
  multi_CAS o os mirroring key f m stores s = Some (r, s', failed, stores') →
  (∃ script, CAS f script s = Some (r, s')) ∧
  match r with
  | CasOk (Some v) =>
      holds (stores' (client kv)) key v ∧
      if mirroring then ∀ kvc, kvc ∈ clients m → kvc ∉ failed → holds (stores' (client kvc)) key v
      else ∀ ix, ix ≠ client kv → stores' ix = stores ix
  | _ => ∀ ix, ix ≠ client kv → stores' ix = stores ix
  end.
Proof.
  intros Hprim Hnd Hinv Ho Hos. unfold multi_CAS. rewrite Hprim. simpl.
  destruct (kv_CAS _ _ _ _ _) as [[[r0 [s0 u0]] st]|] eqn:Hc; [|done]. simpl.
  destruct (law_CAS _ _ _ _ _ _ _ _ _ _ _ (Hinv _) Ho Hc) as (Hist & (script & Hscript) & Hst).
  pose proof (capture_CAS _ _ _ _ _ _ _ Hscript) as Htrans.
  assert (∀ ix, ix ≠ client kv → set_store (client kv) st stores ix = stores ix) as Hothers by (intros; by apply set_store_ne).
  destruct r0 as [w|e|e].
  - apply capture_last in Hscript as ->. destruct w as [v|]; [|intros [= <- <- <- <-]; split; [by exists script|done]].
    specialize (Hst v eq_refl). destruct mirroring.
    + destruct (writeToSecondary _ _ _ _ _ _) as [[failed1 stores1]|] eqn:Hw; [|done]. simpl. intros [= <- <- <- <-].
      split; [by exists script|].
      assert (kv ∈ clients m) as Hkv.
      { unfold getPrimaryClient in Hprim. destruct (clients m !! primaryID m) as [k|] eqn:Hk; simplify_eq/=.
        by eapply list_elem_of_lookup_2. }
      assert (∀ k1 k2, k1 ∈ clients m → k2 ∈ clients m → client k1 = client k2 → k1 = k2) as Hinj.
      { intros k1 k2 [i Hi]%list_elem_of_lookup_1 [j Hj]%list_elem_of_lookup_1 He.
        assert (i = j) as ->; [|congruence]. eapply (NoDup_lookup (client <$> clients m)); [done|..]; rewrite list_lookup_fmap.
        - by rewrite Hi.
        - by rewrite Hj, He. }
      apply writeToSecondary_spec in Hw as [H1 H2]; [|done|].
      2: { intros kvc Hk Hne. rewrite Hothers by (intros He; by apply Hne, Hinj). split; [apply Hinv|by apply Hos]. }
      assert (holds (stores1 (client kv)) key v) as Hpv.
      { rewrite H2; [by rewrite set_store_eq|]. intros k Hk Hne He. by apply Hne, Hinj. }
      split; [done|]. intros kvc Hk Hf. destruct (decide (kvc = kv)) as [->|Hne]; [done|by apply H1].
    + intros [= <- <- <- <-]. split; [by exists script|]. by rewrite set_store_eq.
  - intros [= <- <- <- <-]. split; [by exists script|done].
  - intros [= <- <- <- <-]. split; [by exists script|done].
Qed.
End facts.

(** ** Switching the primary *)
(** the primary is read and the cancel function registered without a switch in
    between *)
Fixpoint registers_at_once (evs : list run_event) : bool :=
  match evs with
  | [] => true
  | GetPrimary :: evs' => match evs' with Register :: evs'' => registers_at_once evs'' | _ => false end
  | _ :: evs' => registers_at_once evs'
  end.

Definition run_inv (r : multi_run) : Prop :=
  match mr_op r with
  | OpRuns pid id =>
      inProgress (mr_client r) !! id = Some pid ∧
      (pid = primaryID (mr_client r) ∨ id ∈ cancelled (mr_client r) ∨ mr_switch r = SwitchSwapped pid)
  | OpHas _ => False
  | _ => True
  end.

#[local] Instance run_event_eq_dec : EqDecision run_event.
Proof. solve_decision. Defined.

Lemma run_step_inv ev r r' : ev ≠ GetPrimary → run_inv r → run_step ev r = Some r' → run_inv r'.
Proof.
  intros Hne Hinv Hs. destruct r as [m op sw]. destruct ev as [| | | |store|]; [done|..]; simpl in Hs.
  - destruct op; done.
  - destruct op as [| |pid id|]; [done..| |done]. case_bool_decide; by simplify_eq.
  - destruct op as [| |pid id|]; [done..| |done]. by simplify_eq.
  - assert (sw = SwitchIdle) as -> by (destruct op, sw; done).
    assert (match swap_primary store m with
            | (Ok (Some prev), m) => Some (mkMultiRun m op (SwitchSwapped prev))
            | (_, m) => Some (mkMultiRun m op SwitchIdle) end = Some r') as Hs' by by destruct op.
    clear Hs. unfold swap_primary in Hs'. destruct (find_client store (clients m)) as [ix|]; [|by simplify_eq].
    unfold run_inv in *. simpl in *. case_bool_decide as Hix; simplify_eq/=; destruct op; try done; simpl in *; naive_solver.
  - assert (∃ prev, sw = SwitchSwapped prev ∧ r' = mkMultiRun (cancel_previous prev m) op SwitchIdle) as (prev & -> & ->)
      by (destruct op, sw; simplify_eq; eauto).
    unfold run_inv in *. simpl in *. destruct op as [| |pid id|]; try done. destruct Hinv as [Hin Hor]. split; [done|].
    destruct Hor as [?|[?|[= ->]]]; [by left|right; left; set_solver|right; left].
    apply elem_of_union_r, elem_of_dom. exists pid. by apply map_lookup_filter_Some.
Qed.

Lemma run_steps_inv n evs r r' : (length evs ≤ n)%nat → registers_at_once evs = true → run_inv r →
  run_steps evs r = Some r' → run_inv r'.
Proof.
  revert evs r. induction n as [|n IH]; intros evs r Hn Ha Hinv Hr.
  { destruct evs; [by simplify_eq/=|simpl in Hn; lia]. }
  destruct evs as [|ev evs]; [by simplify_eq/=|]. simpl in Hn, Hr.
  destruct (run_step ev r) as [r1|] eqn:Hs; [|done]. simpl in Hr. destruct (decide (ev = GetPrimary)) as [->|Hne].
  - destruct evs as [|[] evs]; simpl in Ha; try done. simpl in Hr, Hn.
    destruct r as [m op sw]. simpl in Hs. destruct op; try done. unfold getPrimaryClient in Hs.
    destruct (clients m !! primaryID m) as [kv|]; [|done]. simplify_eq/=. eapply (IH evs), Hr; [lia|done|].
    unfold run_inv. simpl. rewrite lookup_insert_eq. auto.
  - apply (IH evs r1); [lia|by destruct ev|by eapply run_step_inv|done].
Qed.

(** An operation that reads the primary and registers its cancel function
    without a switch in between runs on the current primary, or its context has
    been cancelled, so that it will be restarted on the new one, whenever no
    switch is under way. *)
Theorem runWithPrimaryClient_follows (m : MultiClient) (evs : list run_event) (r : multi_run) (pid : nat) (id : Z) :
  run_steps evs (run_start m) = Some r → registers_at_once evs = true →
  mr_switch r = SwitchIdle → mr_op r = OpRuns pid id →
  pid = primaryID (mr_client r) ∨ id ∈ cancelled (mr_client r).
Proof.
  intros Hr Ha Hsw Hop. assert (run_inv r) as Hinv.
  { by apply (run_steps_inv (length evs) evs (run_start m)). }
  unfold run_inv in Hinv. rewrite Hop, Hsw in Hinv. naive_solver.
Qed.

(** ** Witnesses and a divergence *)
Section witnesses.
Definition ex_clients : list kvclient := [mkKvclient 0 "consul"; mkKvclient 1 "etcd"; mkKvclient 2 "memberlist"].
Definition ex_multi : MultiClient := watchConfigChannel_step (mkMultiRuntimeConfig "etcd" (Some true)) (NewMultiClient false ex_clients).
(** a ring stored in Consul and mirrored to the gossiped store.  The codec knows three rings. *)
Definition ex_entry (id : string) (token : Z) : InstanceDesc := mkInstanceDesc id 10 ACTIVE [token] "" 0.
Definition ex_ring_a : Desc := mkDesc {["a" := ex_entry "a" 1]}.
Definition ex_ring_ab : Desc := mkDesc {["a" := ex_entry "a" 1; "b" := ex_entry "b" 2]}.
Definition ex_ring_c : Desc := mkDesc {["c" := ex_entry "c" 3]}.
Definition ex_codec : Codec Desc := {|
  codec_Decode b := match b with [Byte.x00] => Some ex_ring_a | [Byte.x01] => Some ex_ring_ab | _ => None end;
  codec_Encode d :=
    if bool_decide (Ingesters d = Ingesters ex_ring_a) then Some [Byte.x00]
    else if bool_decide (Ingesters d = Ingesters ex_ring_ab) then Some [Byte.x01] else None
|}.
Lemma ex_codec_roundtrip : codec_roundtrip ex_codec.
Proof.
  intros [i] b. unfold ex_codec, codec_Encode, codec_Decode. case_bool_decide as H1; [|case_bool_decide as H2; [|discriminate]]; intros [= <-].
  - f_equal. simpl in H1. by rewrite H1.
  - f_equal. simpl in H2. by rewrite H2.
Qed.
#[local] Existing Instance ex_codec.
#[local] Existing Instance map_range_std.
Definition ex_print (E : Type) (e : E) : string := "error".
Definition ex_mixed : KVClient Desc (mockKV + ring_store) :=
  either_client (consul_client (ConsulFacts.ex_cfg)) (memberlist_client 300 "ringDesc" ex_print).
Definition ex_mixed_laws := either_laws _ _ _ _ _ _ _ _ _ _
  (consul_client_laws ConsulFacts.ex_cfg ex_codec_roundtrip) (memberlist_client_laws 300 "ringDesc" ex_print).
Definition ex_stores (ix : nat) : mockKV + ring_store :=
  match ix with
  | 0%nat => inl (mock_write "ring" [Byte.x00] newMockKV)
  | _ => inr {["ring" := mkValueDesc (Some ex_ring_c) 3 "ringDesc"]}
  end.
(** the callback adds an instance to the ring it finds, and counts its calls *)
Definition ex_add_b : option Desc → unit → nat → option (cas_out Desc unit * nat) := λ in_ _ n,
  Some (mkCasOut (Some (mkDesc (<["b" := ex_entry "b" 2]> (default ∅ (Ingesters <$> in_))))) true None, Datatypes.S n).
Definition ex_quiet : list (cas_turn unit mock_op) * (nat → cas_env (V := Desc) * unit) :=
  ([mkTurn [] false tt [] false], λ _, (mkCasEnv (λ m, m) false 20 zeroTime, tt)).
Definition ex_mirrored : MultiClient := NewMultiClient true [mkKvclient 0 "consul"; mkKvclient 1 "memberlist"].
Lemma ex_stores_valued : valued {["ring" := mkValueDesc (Some ex_ring_c) 3 "ringDesc"]}.
Proof. apply map_Forall_singleton. by eexists. Qed.
Lemma ex_stores_decodable : mock_wf (mock_write "ring" [Byte.x00] newMockKV) ∧ decodable (mock_write "ring" [Byte.x00] newMockKV).
Proof.
  split; [split; [done|]; by apply map_Forall_singleton|].
  apply mock_write_decodable; [by eexists|apply map_Forall_empty].
Qed.

(** The consul store has the ring [{a, b}] that was written, the gossiped one a ring it has been merged into. *)
Lemma multi_CAS_correct_witness : ∃ r s' stores',
  multi_CAS (c:=ex_mixed) (Env:=unit) ex_quiet (λ _, ex_quiet) true "ring" ex_add_b ex_mirrored ex_stores 0%nat = Some (r, s', [], stores') ∧
  on_either replaced gossiped (stores' 0%nat) "ring" ex_ring_ab ∧ on_either replaced gossiped (stores' 1%nat) "ring" ex_ring_ab.
Proof.
  destruct (multi_CAS (c:=ex_mixed) (Env:=unit) ex_quiet (λ _, ex_quiet) true "ring" ex_add_b ex_mirrored ex_stores 0%nat)
    as [[[[r s'] failed] stores']|] eqn:Hc; [|vm_compute in Hc; discriminate].
  assert (r = CasOk (Some ex_ring_ab) ∧ failed = []) as [-> ->].
  { pose proof (f_equal (fmap (λ x, (x.1.1.1, x.1.2))) Hc) as Hc'. vm_compute in Hc'. injection Hc' as <- <-. split; reflexivity. }
  exists (CasOk (Some ex_ring_ab)), s', stores'. split; [reflexivity|].
  destruct (multi_CAS_correct (L:=ex_mixed_laws) (Env:=unit) ex_quiet (λ _, ex_quiet) true "ring" ex_add_b ex_mirrored ex_stores 0%nat
    (CasOk (Some ex_ring_ab)) s' [] stores' 0%nat (mkKvclient 0 "consul")) as [_ [Hp Hs]].
  - reflexivity.
  - apply (bool_decide_unpack _). vm_compute. exact I.
  - intros [|ix]; [exact ex_stores_decodable|exact ex_stores_valued].
  - split; [|split].
    + repeat constructor.
    + reflexivity.
    + intros op (t & ->%list_elem_of_singleton & [[]%not_elem_of_nil|[]%not_elem_of_nil]).
  - intros kvc [->|[->|[]%not_elem_of_nil]%elem_of_cons]%elem_of_cons Hne; [destruct (Hne eq_refl)|].
    intros n m Hm. exact Hm.
  - exact Hc.
  - split; [exact Hp|]. apply (Hs (mkKvclient 1 "memberlist")).
    + right. left.
    + apply not_elem_of_nil.
Defined.

Definition ex_run_events : list run_event :=
  [GetPrimary; Register; SwitchTo "etcd"; CancelPrevious; FnCancelled; GetPrimary; Register].
Lemma runWithPrimaryClient_follows_witness : ∃ r, run_steps ex_run_events (run_start (NewMultiClient false ex_clients)) = Some r ∧
  (1%nat = primaryID (mr_client r) ∨ 2 ∈ cancelled (mr_client r)).
Proof.
  destruct (run_steps ex_run_events (run_start (NewMultiClient false ex_clients))) as [r|] eqn:Hr; [|vm_compute in Hr; discriminate].
  exists r. split; [reflexivity|].
  apply (runWithPrimaryClient_follows (NewMultiClient false ex_clients) ex_run_events r 1%nat 2 Hr eq_refl).
  - vm_compute in Hr. injection Hr as <-. reflexivity.
  - vm_compute in Hr. injection Hr as <-. reflexivity.
Defined.

(** The primary is switched after the operation has read it and before its cancel
    function is registered: nobody cancels the operation, which stays on the old
    primary. *)
Lemma runWithPrimaryClient_race : ∃ r pid id,
  run_steps [GetPrimary; SwitchTo "etcd"; CancelPrevious; Register] (run_start (NewMultiClient false ex_clients)) = Some r ∧
  mr_switch r = SwitchIdle ∧ mr_op r = OpRuns pid id ∧ pid ≠ primaryID (mr_client r) ∧ id ∉ cancelled (mr_client r).
Proof. vm_compute. eexists _, _, _. split; [reflexivity|]. split_and!; [done..|]. set_solver. Qed.
End witnesses.
