(* ===== verification/Etcd.v ===== *)
(** * The etcd client: [kv/etcd/etcd.go], and the in-memory etcd of
    [kv/etcd/mock.go]

    Operations of the etcd API ([clientv3.Op], with what the mock reads of them)
    are interpreted on the values of the mock; watches are channels of bounded
    size, to which it sends without blocking. *)
From Stdlib Require Import ZArith Lia.
From stdpp Require Import base gmap strings list sorting fin_maps.
From S2P Require Import Prelude TokensFile KV CASLoop.

(** ** [mockKV] *)
(** [mvccpb.KeyValue]; [Value] is [None] when it is nil *)
Record KeyValue := mkKeyValue {
  kv_Key : string;
  Value : option bytes;
  Version : Z;
  CreateRevision : Z;
  ModRevision : Z;
  Lease : Z
}.
Definition zeroKeyValue : KeyValue := mkKeyValue "" None 0 0 0 0.
Inductive event_type := PUT | DELETE.
Record Event := mkEvent { ev_Type : event_type; ev_Kv : KeyValue }.

Inductive cmp_target :=
| Compare_VALUE (v : bytes)
| Compare_CREATE (n : Z)
| Compare_LEASE (n : Z)
| Compare_VERSION (n : Z)
| Compare_MOD (n : Z).
Inductive cmp_result := Compare_EQUAL | Compare_GREATER | Compare_LESS | Compare_NOT_EQUAL.
Record Cmp := mkCmp { cmp_KeyBytes : string; Target : cmp_target; Result : cmp_result }.

(** [range_] says that [RangeBytes] is not nil *)
Inductive Op :=
| OpGet (key : string) (range_ : bool)
| OpPut (key : string) (value : bytes)
| OpDelete (key : string) (range_ : bool)
| OpTxn (cmps : list Cmp) (thens elses : list Op).
(** [clientv3.WithPrefix]: the prefix of all keys is a zero byte *)
Definition zero_byte : string := String.String Ascii.zero String.EmptyString.
Definition with_prefix (prefix : string) : string := if bool_decide (prefix = ""%string) then zero_byte else prefix.

Inductive OpResponse :=
| GetResponse (Kvs : list KeyValue)
| PutResponse
| DeleteResponse (Deleted : Z)
| TxnResponse (Succeeded : bool).

Definition channelBufferSize : nat := 10.
(** [events] holds what is in the channel of each consumer *)
Record etcd_mock := mkEtcdMock { values : gmap string KeyValue; events : gmap nat (list Event) }.
Definition newEtcdMock : etcd_mock := mkEtcdMock ∅ ∅.

(** a send that does not block *)
Definition offer (e : Event) (ch : list Event) : list Event :=
  if bool_decide (length ch < channelBufferSize)%nat then ch ++ [e] else ch.
Definition sendEvent (e : Event) (m : etcd_mock) : etcd_mock := mkEtcdMock (values m) (offer e <$> events m).
Definition createEventConsumer (m : etcd_mock) : nat * etcd_mock :=
  let ch := fresh (dom (events m)) in (ch, mkEtcdMock (values m) (<[ch := []]> (events m))).
Definition destroyEventConsumer (ch : nat) (m : etcd_mock) : etcd_mock := mkEtcdMock (values m) (delete ch (events m)).

(** *** Comparisons *)
Fixpoint bytes_Compare (a b : bytes) : comparison :=
  match a, b with
  | [], [] => Eq
  | [], _ :: _ => Lt
  | _ :: _, [] => Gt
  | x :: a, y :: b => match (Byte.to_N x ?= Byte.to_N y)%N with Eq => bytes_Compare a b | c => c end
  end.
Definition evalEntryBytes (v1 v2 : bytes) (r : cmp_result) : bool :=
  let res := bytes_Compare v1 v2 in
  match r with
  | Compare_EQUAL => match res with Eq => true | _ => false end
  | Compare_GREATER => match res with Gt => true | _ => false end
  | Compare_LESS => match res with Lt => true | _ => false end
  | Compare_NOT_EQUAL => match res with Eq => false | _ => true end
  end.
Definition evalEntryInt64 (v1 v2 : Z) (r : cmp_result) : bool :=
  match r with
  | Compare_EQUAL => bool_decide (v1 = v2)
  | Compare_GREATER => bool_decide (v2 < v1)
  | Compare_LESS => bool_decide (v1 < v2)
  | Compare_NOT_EQUAL => bool_decide (v1 ≠ v2)
  end.
Definition evalCmp (cmp : Cmp) (m : etcd_mock) : bool :=
  let entry := default zeroKeyValue (values m !! cmp_KeyBytes cmp) in
  match Target cmp with
  | Compare_VALUE v => evalEntryBytes (default [] (Value entry)) v (Result cmp)
  | Compare_CREATE v => evalEntryInt64 (CreateRevision entry) v (Result cmp)
  | Compare_LEASE v => evalEntryInt64 (Lease entry) v (Result cmp)
  | Compare_VERSION v => evalEntryInt64 (Version entry) v (Result cmp)
  | Compare_MOD v => evalEntryInt64 (ModRevision entry) v (Result cmp)
  end.
Definition evalCmps (cmps : list Cmp) (m : etcd_mock) : bool := forallb (λ c, evalCmp c m) cmps.

Section etcd.
Context `{R : MapRange}.

(** *** Operations *)
Definition matchingKeys (key : string) (range_ : bool) (vals : gmap string KeyValue) : list string :=
  if negb range_ then
    if bool_decide (is_Some (vals !! key)) then [key] else []
  else
    let emptyPrefix := bool_decide (key = zero_byte) in
    foldl (λ keys '(k, _), if emptyPrefix || String.prefix key k then keys ++ [k] else keys) [] (map_range 364 vals).
Definition isMatch (key : string) (range_ : bool) (kvp : KeyValue) : bool :=
  negb (bool_decide (length (matchingKeys key range_ {[kv_Key kvp := kvp]}) = 0%nat)).

Definition doGet (key : string) (range_ : bool) (m : etcd_mock) : OpResponse * etcd_mock :=
  let matching := matchingKeys key range_ (values m) in
  (GetResponse ((λ k, default zeroKeyValue (values m !! k)) <$> matching), m).

Definition doDelete (key : string) (range_ : bool) (m : etcd_mock) : OpResponse * etcd_mock :=
  let matching := matchingKeys key range_ (values m) in
  let m := foldl (λ m k,
    let kv := default zeroKeyValue (values m !! k) in
    let kv := mkKeyValue (kv_Key kv) (Value kv) (Version kv) (CreateRevision kv) (Version kv) (Lease kv) in
    let m := sendEvent (mkEvent DELETE kv) m in
    mkEtcdMock (delete k (values m)) (events m)) m matching in
  (DeleteResponse (Z.of_nat (length matching)), m).

Definition doPut (key : string) (valBytes : bytes) (m : etcd_mock) : OpResponse * etcd_mock :=
  let newVal :=
    match values m !! key with
    | Some oldVal =>
        mkKeyValue (kv_Key oldVal) (Some valBytes) (i64 (Version oldVal + 1)) (CreateRevision oldVal)
          (i64 (ModRevision oldVal + 1)) (Lease oldVal)
    | None => mkKeyValue key (Some valBytes) 1 1 1 0
    end in
  let m := mkEtcdMock (<[key := newVal]> (values m)) (events m) in
  (PutResponse, sendEvent (mkEvent PUT newVal) m).

(** [doInternal] with [doTxn] *)
Fixpoint doInternal (op : Op) (m : etcd_mock) : OpResponse * etcd_mock :=
  match op with
  | OpGet key range_ => doGet key range_ m
  | OpPut key value => doPut key value m
  | OpDelete key range_ => doDelete key range_ m
  | OpTxn cmps thens elses =>
      let succeeded := evalCmps cmps m in
      let run := fix run (ops : list Op) (m : etcd_mock) : etcd_mock :=
        match ops with [] => m | o :: ops => run ops (doInternal o m).2 end in
      let m := if succeeded then run thens m else run elses m in
      (TxnResponse succeeded, m)
  end.

(** *** [mockTxn] *)
Record mockTxn := mkMockTxn { txn_cmps : list Cmp; thenOps : list Op; elseOps : list Op }.
Definition Txn : mockTxn := mkMockTxn [] [] [].
Definition If (cs : list Cmp) (t : mockTxn) : mockTxn := mkMockTxn (txn_cmps t ++ cs) (thenOps t) (elseOps t).
Definition Then (ops : list Op) (t : mockTxn) : mockTxn := mkMockTxn (txn_cmps t) (thenOps t ++ ops) (elseOps t).
Definition Else (ops : list Op) (t : mockTxn) : mockTxn := mkMockTxn (txn_cmps t) (thenOps t) (elseOps t ++ ops).
Definition Commit (t : mockTxn) (m : etcd_mock) : OpResponse * etcd_mock :=
  doInternal (OpTxn (txn_cmps t) (thenOps t) (elseOps t)) m.

(** *** [Watch]: the goroutine between a consumer and the channel of the caller *)
Record watcher := mkWatcher { consumer : nat; watch_key : string; watch_range : bool; watch_chan : list (list Event) }.
Definition Watch (key : string) (range_ : bool) (m : etcd_mock) : watcher * etcd_mock :=
  let '(ch, m) := createEventConsumer m in (mkWatcher ch key range_ [], m).
(** it takes an event; [None]: there is none *)
Definition watch_step (w : watcher) (m : etcd_mock) : option (watcher * etcd_mock) :=
  match events m !! consumer w with
  | Some (e :: rest) =>
      let m := mkEtcdMock (values m) (<[consumer w := rest]> (events m)) in
      let w :=
        if isMatch (watch_key w) (watch_range w) (ev_Kv e)
           && bool_decide (length (watch_chan w) < channelBufferSize)%nat
        then mkWatcher (consumer w) (watch_key w) (watch_range w) (watch_chan w ++ [[e]]) else w in
      Some (w, m)
  | _ => None
  end.

(** ** [Client] *)
Definition etcd_read (key : string) (m : etcd_mock) : option (bytes * Z) :=
  match doInternal (OpGet key false) m with
  | (GetResponse (kv :: _), _) => Some (default [] (Value kv), Version kv)
  | _ => None
  end.
Definition etcd_swap (key : string) (buf : bytes) (revision : Z) (m : etcd_mock) : bool * etcd_mock :=
  match Commit (Then [OpPut key buf] (If [mkCmp key (Compare_VERSION revision) Compare_EQUAL] Txn)) m with
  | (TxnResponse succeeded, m) => (succeeded, m)
  | (_, m) => (false, m)
  end.
Definition etcd_store : VersionedStore etcd_mock Op :=
  {| vs_read := etcd_read; vs_swap := etcd_swap; vs_write key buf m := (doPut key buf m).2; vs_op m op := (doInternal op m).2 |}.

Section client.
Context {V Env CErr S : Type} `{C : Codec V}.

(** the last error that was met, if any *)
Inductive etcd_error := ErrLast (e : loop_error CErr) | ErrFailedToCAS.
Definition etcd_cas (MaxRetries : Z) (key : string) (f : option V → Env → S → option (cas_out V CErr * S))
    (turns : list (cas_turn Env Op)) (m : etcd_mock) (s : S) : option (cas_result V CErr etcd_error * S * etcd_mock) :=
  '(r, s, m) ← cas_loop (VS:=etcd_store) key f (Z.to_nat MaxRetries) 0 None turns m s;
  Some (map_KVErr (λ lastErr, match lastErr with Some e => ErrLast e | None => ErrFailedToCAS end) r, s, m).

(** the answer to a request is [None] when it fails *)
Inductive etcd_get_error := ErrRequest | ErrKvs (n : nat) | ErrDecode.
Definition etcd_Get (resp : option OpResponse) : result etcd_get_error (option V) :=
  match resp with
  | Some (GetResponse []) => Ok None
  | Some (GetResponse [kv]) => match codec_Decode (default [] (Value kv)) with Some v => Ok (Some v) | None => Err ErrDecode end
  | Some (GetResponse kvs) => Err (ErrKvs (length kvs))
  | _ => Err ErrRequest
  end.
Definition etcd_List (resp : option OpResponse) : result etcd_get_error (list string) :=
  match resp with
  | Some (GetResponse kvs) => Ok (foldl (λ keys kv, keys ++ [kv_Key kv]) [] kvs)
  | _ => Err ErrRequest
  end.
Definition etcd_Delete (key : string) (m : etcd_mock) : etcd_mock := (doInternal (OpDelete key false) m).2.

(** *** Watches *)
(** what the loop over the channel receives *)
Inductive watch_response :=
| RespErr
| RespEvents (evs : list Event).
Fixpoint watch_key_events (f : V → S → S * bool) (evs : list Event) (s : S) : S * bool :=
  match evs with
  | [] => (s, true)
  | event :: evs =>
      match codec_Decode (default [] (Value (ev_Kv event))) with
      | None => watch_key_events f evs s
      | Some out =>
          let '(s, continue) := f out s in
          if continue : bool then watch_key_events f evs s else (s, false)
      end
  end.
Definition etcd_WatchKey (f : V → S → S * bool) (resp : watch_response) (s : S) : S * bool :=
  match resp with RespErr => (s, true) | RespEvents evs => watch_key_events f evs s end.
Fixpoint watch_prefix_events (f : string → V → S → S * bool) (evs : list Event) (s : S) : S * bool :=
  match evs with
  | [] => (s, true)
  | event :: evs =>
      if bool_decide (Version (ev_Kv event) = 0) && bool_decide (Value (ev_Kv event) = None)
      then watch_prefix_events f evs s
      else
        match codec_Decode (default [] (Value (ev_Kv event))) with
        | None => watch_prefix_events f evs s
        | Some out =>
            let '(s, continue) := f (kv_Key (ev_Kv event)) out s in
            if continue : bool then watch_prefix_events f evs s else (s, false)
        end
  end.
Definition etcd_WatchPrefix (f : string → V → S → S * bool) (resp : watch_response) (s : S) : S * bool :=
  match resp with RespErr => (s, true) | RespEvents evs => watch_prefix_events f evs s end.
End client.
End etcd.

(** ** Correctness of the etcd client

    Its CAS is the CAS of the contract, and is atomic as long as the key is not
    deleted: the version it compares starts again when the key does. *)
Section facts.
Context `{R : MapRange}.
Implicit Types m : etcd_mock.

Lemma etcd_read_eq key m : etcd_read key m = (λ kv, (default [] (Value kv), Version kv)) <$> values m !! key.
Proof.
  unfold etcd_read, doInternal, doGet, matchingKeys. simpl. destruct (values m !! key) as [kv|] eqn:Hk.
  - rewrite bool_decide_eq_true_2 by eauto. simpl. by rewrite Hk.
  - by rewrite bool_decide_eq_false_2 by (by intros [? ?]).
Qed.

Definition version_of key m : Z := default 0 (Version <$> values m !! key).
Lemma etcd_swap_eq key b rev m :
  etcd_swap key b rev m = if bool_decide (version_of key m = rev) then (true, (doPut key b m).2) else (false, m).
Proof.
  unfold etcd_swap, Commit. simpl. unfold evalCmp. simpl. rewrite andb_true_r.
  assert (Version (default zeroKeyValue (values m !! key)) = version_of key m) as ->
    by (unfold version_of; by destruct (values m !! key)).
  by case_bool_decide.
Qed.

Lemma sendEvent_values e m : values (sendEvent e m) = values m.
Proof. done. Qed.
Lemma doPut_lookup key b m k :
  values (doPut key b m).2 !! k =
  if bool_decide (k = key) then
    Some (match values m !! key with
          | Some old => mkKeyValue (kv_Key old) (Some b) (i64 (Version old + 1)) (CreateRevision old) (i64 (ModRevision old + 1)) (Lease old)
          | None => mkKeyValue key (Some b) 1 1 1 0
          end)
  else values m !! k.
Proof. unfold doPut. simpl. case_bool_decide as Hk; [by rewrite Hk, lookup_insert_eq|by rewrite lookup_insert_ne]. Qed.

Section laws.
Variable key : string.

Definition etcd_inv m : Prop := ∀ kv, values m !! key = Some kv → 1 ≤ Version kv.
Definition etcd_room (n : Z) m : Prop := version_of key m + n < 2 ^ 63.
(** versions go up, and identify the value *)
Record etcd_later (n : Z) m m' : Prop := {
  el_inv : etcd_inv m';
  el_steps : 0 ≤ n;
  el_version : version_of key m ≤ version_of key m' ≤ version_of key m + n;
  el_same : ∀ kv, values m !! key = Some kv → ∃ kv', values m' !! key = Some kv' ∧ (Version kv' = Version kv → kv' = kv)
}.

(** what other clients do: they put and read, delete other keys, and commit
    transactions of one operation, as the client does *)
Definition simple_ok (op : Op) : Prop :=
  match op with
  | OpGet _ _ | OpPut _ _ => True
  | OpDelete k range_ => key ∉ matchingKeys k range_ {[key := zeroKeyValue]}
  | OpTxn _ _ _ => False
  end.
Definition etcd_op_ok (op : Op) : Prop :=
  match op with
  | OpTxn _ thens elses => Forall simple_ok thens ∧ (length thens ≤ 1)%nat ∧ Forall simple_ok elses ∧ (length elses ≤ 1)%nat
  | op => simple_ok op
  end.

Lemma version_some m kv : values m !! key = Some kv → version_of key m = Version kv.
Proof. intros Hk. unfold version_of. by rewrite Hk. Qed.

Lemma etcd_later_refl n m : 0 ≤ n → etcd_inv m → etcd_later n m m.
Proof. constructor; [done|done|lia|eauto]. Qed.
Lemma etcd_later_trans a b m1 m2 m3 : etcd_later a m1 m2 → etcd_later b m2 m3 → etcd_later (a + b) m1 m3.
Proof.
  intros [I1 N1 V1 S1] [I2 N2 V2 S2]. constructor; [done|lia|lia|]. intros kv Hk.
  destruct (S1 _ Hk) as (kv2 & Hk2 & E2). destruct (S2 _ Hk2) as (kv3 & Hk3 & E3). exists kv3. split; [done|].
  intros He. rewrite (version_some _ _ Hk), (version_some _ _ Hk2) in V1. rewrite (version_some _ _ Hk2), (version_some _ _ Hk3) in V2.
  rewrite E3 by lia. apply E2. lia.
Qed.

(** what leaves the key alone *)
Lemma etcd_later_other n m m' : 0 ≤ n → etcd_inv m → values m' !! key = values m !! key → etcd_later n m m'.
Proof.
  intros Hn Hinv Hk. assert (version_of key m' = version_of key m) as Hv by (unfold version_of; by rewrite Hk).
  constructor; [intros kv; rewrite Hk; apply Hinv|done|lia|]. intros kv Hkv. exists kv. by rewrite Hk.
Qed.

Lemma doPut_later k b m : etcd_inv m → etcd_room 1 m → etcd_later 1 m (doPut k b m).2.
Proof.
  intros Hinv Hroom. pose proof (doPut_lookup k b m key) as Hl. case_bool_decide as Hk; [subst k|by apply etcd_later_other].
  unfold etcd_room in Hroom. destruct (values m !! key) as [old|] eqn:Hold.
  - specialize (Hinv _ Hold). rewrite (version_some _ _ Hold) in Hroom. rewrite i64_small in Hl by lia. constructor.
    + intros kv Hkv. rewrite Hl in Hkv. injection Hkv as <-. simpl. lia.
    + done.
    + rewrite (version_some _ _ Hold), (version_some _ _ Hl). simpl. lia.
    + intros kv Hkv. rewrite Hold in Hkv. injection Hkv as <-. eexists. split; [exact Hl|]. simpl. lia.
  - constructor.
    + intros kv Hkv. rewrite Hl in Hkv. injection Hkv as <-. done.
    + done.
    + rewrite (version_some _ _ Hl). unfold version_of. rewrite Hold. done.
    + intros kv Hkv. congruence.
Qed.

Lemma matchingKeys_elem k range_ (vals : gmap string KeyValue) x :
  x ∈ matchingKeys k range_ vals ↔
  is_Some (vals !! x) ∧ (if range_ then bool_decide (k = zero_byte) || String.prefix k x = true else x = k).
Proof.
  unfold matchingKeys. destruct range_; simpl.
  - set (P := λ kv : string * KeyValue, bool_decide (k = zero_byte) || String.prefix k kv.1).
    assert (∀ l acc, foldl (λ keys '(k0, _), if bool_decide (k = zero_byte) || String.prefix k k0 then keys ++ [k0] else keys) acc l
      = acc ++ (filter (λ kv, P kv = true) l).*1) as Hl.
    { induction l as [|[k0 v0] l IH]; intros acc; simpl; [by rewrite app_nil_r|]. rewrite IH, filter_cons.
      change (bool_decide (k = zero_byte) || String.prefix k k0) with (P (k0, v0)).
      destruct (P (k0, v0)); case_decide; simpl; try congruence; by rewrite <- ?app_assoc. }
    rewrite Hl. simpl. rewrite list_elem_of_fmap. split.
    + intros ([k0 v0] & -> & [Hp Hin]%list_elem_of_filter). apply map_range_elem in Hin. split; [by exists v0|exact Hp].
    + intros [[v Hv] Hp]. exists (x, v). split; [done|]. apply list_elem_of_filter. split; [exact Hp|by apply map_range_elem].
  - case_bool_decide as Hk.
    + rewrite list_elem_of_singleton. split; [by intros ->|naive_solver].
    + split; [by intros ?%elem_of_nil|]. intros [Hs ->]. done.
Qed.

Lemma doDelete_other k range_ m : key ∉ matchingKeys k range_ {[key := zeroKeyValue]} →
  values (doDelete k range_ m).2 !! key = values m !! key.
Proof.
  intros Hno. assert (key ∉ matchingKeys k range_ (values m)) as Hno'.
  { rewrite !matchingKeys_elem in *. intros [_ Hp]. apply Hno. split; [|done]. rewrite lookup_singleton_eq. eauto. }
  unfold doDelete. simpl. revert Hno'. generalize (matchingKeys k range_ (values m)) as l. intros l. revert m.
  induction l as [|x l IH]; intros m Hx; simpl; [done|]. apply not_elem_of_cons in Hx as [Hne Hx].
  rewrite IH by done. simpl. by rewrite lookup_delete_ne.
Qed.

Lemma simple_later op m : simple_ok op → etcd_inv m → etcd_room 1 m → etcd_later 1 m (doInternal op m).2.
Proof.
  intros Hok Hinv Hroom. destruct op as [k r|k b|k r|]; simpl in *; [|by apply doPut_later| |done].
  - by apply etcd_later_refl.
  - apply etcd_later_other; [done..|]. by apply doDelete_other.
Qed.

Lemma op_later op m : etcd_inv m → etcd_room 1 m → etcd_op_ok op → etcd_later 1 m (doInternal op m).2.
Proof.
  intros Hinv Hroom Hok. destruct op as [k r|k b|k r|cmps thens elses]; [by apply simple_later..|].
  assert (∀ ops, Forall simple_ok ops → (length ops ≤ 1)%nat → 
    etcd_later 1 m ((fix run (ops : list Op) (m : etcd_mock) : etcd_mock :=
        match ops with [] => m | o :: ops => run ops (doInternal o m).2 end) ops m)) as Hrun.
  { intros [|op [|]] Hs Hl; simpl in Hl; [by apply etcd_later_refl| |lia]. apply Forall_cons in Hs as [Hs _]. by apply simple_later. }
  destruct Hok as (H1 & H2 & H3 & H4). simpl. destruct (evalCmps cmps m); by apply Hrun.
Qed.

#[export] Instance etcd_laws : @VersionedLaws _ _ etcd_store key etcd_op_ok.
Proof.
  unshelve refine {| vs_inv := etcd_inv; vs_room := etcd_room; vs_later := etcd_later;
                     vs_index i m := 0 ≤ i ≤ version_of key m |}; simpl.
  - intros n m m' Hl. apply Hl.
  - intros m Hinv. by apply etcd_later_refl.
  - apply etcd_later_trans.
  - intros a b m m' Hab [I N Ve Sa]. constructor; [done|lia|lia|done].
  - intros a b m m' Hb [I N Ve Sa]. unfold etcd_room. lia.
  - unfold etcd_room. intros. lia.
  - intros op m. apply op_later.
  - intros b m. apply doPut_later.
  - intros m Hinv. split; [done|]. unfold version_of. destruct (values m !! key) as [kv|] eqn:Hk; simpl; [|done].
    specialize (Hinv _ Hk). lia.
  - intros n i m m' Hi Hl. pose proof (el_version _ _ _ Hl). lia.
  - intros m b i Hinv. rewrite etcd_read_eq. unfold version_of. destruct (values m !! key) as [kv|] eqn:Hk; [|done].
    intros [= <- <-]. specialize (Hinv _ Hk). simpl. lia.
  - intros b i m m'. rewrite etcd_swap_eq. case_bool_decide; congruence.
  - intros n b i m0 m1 m2 Hinv Hl. rewrite !etcd_read_eq, etcd_swap_eq. case_bool_decide as Hv; [|done].
    intros Hread [= <-]. split; [done|]. destruct (values m0 !! key) as [kv|] eqn:H0; simpl in *.
    + destruct (el_same _ _ _ Hl _ H0) as (kv' & H1 & He). rewrite H1. rewrite (version_some _ _ H1) in Hv.
      by rewrite He by congruence.
    + unfold version_of in Hread. rewrite H0 in Hread. simpl in Hread.
      destruct (values m1 !! key) as [kv|] eqn:H1; [|done]. rewrite (version_some _ _ H1) in Hv.
      pose proof (el_inv _ _ _ Hl _ H1). lia.
Defined.
End laws.

(** ** [CAS] *)
Section cas.
Context {V Env CErr S : Type} `{C : Codec V}.
Variable key : string.
Variable f : option V → Env → S → option (cas_out V CErr * S).

(** [CAS] of the etcd client implements the contract with at most
    [MaxRetries] attempts, and loses no update as long as nobody deletes the key:
    when it returns [nil] after writing, the store has changed by this write alone
    since the moment the key held the value the callback was given. *)
Theorem etcd_cas_refines (MaxRetries : Z) (turns : list (cas_turn Env Op)) (m : etcd_mock) (s : S)
    (r : cas_result V CErr (etcd_error (CErr:=CErr))) (s' : S) (m' : etcd_mock) :
  etcd_cas MaxRetries key f turns m s = Some (r, s', m') →
  etcd_inv key m → Forall (turn_ok (etcd_op_ok key)) turns → version_of key m + cost turns < 2 ^ 63 →
  (∃ script, Z.of_nat (length script) ≤ 1 + Z.max 0 MaxRetries ∧ CAS f script s = Some (r, s')) ∧
  outcome (VS:=etcd_store) key f turns m s' m' r.
Proof.
  unfold etcd_cas. intros Hr Hinv Hok Hroom.
  destruct (cas_loop (VS:=etcd_store) _ _ _ _ _ _ _ _) as [[[r0 s0] m0]|] eqn:Hloop; [|done]. injection Hr as <- <- <-.
  apply cas_loop_spec with (L:=etcd_laws key) in Hloop as ((script & Hlen & Hc) & _ & Hout); [|done..|by apply (@vs_index_0 _ _ _ _ _ (etcd_laws key))].
  split; [|by destruct r0 as [[v|]|e|e]].
  eexists. split; [|by apply CAS_map_KVErr]. rewrite length_fmap. lia.
Qed.
End cas.
End facts.

(** ** Witness and divergences *)
Section witnesses.
#[local] Existing Instance String_codec.
#[local] Existing Instance map_range_std.

Definition ex_etcd : etcd_mock := (doInternal (OpPut "k" [Byte.x01]) newEtcdMock).2.
Definition ex_add : option bytes → unit → nat → option (cas_out bytes unit * nat) := λ in_ _ n,
  Some (mkCasOut (Some (default [] in_ ++ [Byte.xff])) true None, Datatypes.S n).
(** the first swap meets a write of another client *)
Definition ex_etcd_turns : list (cas_turn unit Op) :=
  [mkTurn [] false tt [OpPut "k" [Byte.x02]] false; mkTurn [OpDelete "l" true] true tt [] false; mkTurn [] false tt [] false].
Definition ex_etcd_after : etcd_mock := (doPut "k" [Byte.x02; Byte.xff] (doPut "k" [Byte.x02] ex_etcd).2).2.
Lemma ex_etcd_run : etcd_cas 10 "k" ex_add ex_etcd_turns ex_etcd 0%nat = Some (CasOk (Some [Byte.x02; Byte.xff]), 2%nat, ex_etcd_after).
Proof. vm_compute. reflexivity. Qed.
Lemma etcd_cas_refines_witness : ∃ script, CAS ex_add script 0%nat =
  Some (CasOk (Some [Byte.x02; Byte.xff]) : cas_result _ _ (etcd_error (CErr:=unit)), 2%nat).
Proof.
  destruct (etcd_cas_refines "k" ex_add 10 ex_etcd_turns ex_etcd 0%nat _ _ _ ex_etcd_run) as [(script & _ & Hc) _].
  - intros kv Hk. vm_compute in Hk. by injection Hk as <-.
  - repeat constructor. simpl. vm_compute. set_solver.
  - reflexivity.
  - exists script. exact Hc.
Defined.

(** Another client deletes the key and a third one creates it again: its version
    is 1 again, the swap is accepted, and the value of the third client is lost. *)
Lemma etcd_cas_lost_update :
  etcd_cas 10 "k" ex_add [mkTurn [] false tt [OpDelete "k" false; OpPut "k" [Byte.x07]] false] ex_etcd 0%nat =
  Some (CasOk (Some [Byte.x01; Byte.xff]), 1%nat, (doPut "k" [Byte.x01; Byte.xff] (doPut "k" [Byte.x07] (doDelete "k" false ex_etcd).2).2).2).
Proof. vm_compute. reflexivity. Qed.

(** a deletion reaches the watchers of the mock as an update to the old value,
    which [WatchPrefix] does not recognise as a deletion *)
Lemma etcd_mock_delete_reported :
  let '(w, m) := Watch "k" true ex_etcd in
  ∃ w' m', watch_step w (doInternal (OpDelete "k" false) m).2 = Some (w', m') ∧
    foldl (λ told evs, (etcd_WatchPrefix (λ k v told, ((k, v) :: told, true)) (RespEvents evs) told).1) [] (watch_chan w')
      = [("k", [Byte.x01])].
Proof. vm_compute. eexists _, _. split; reflexivity. Qed.
End witnesses.
