(* ===== verification/TCPTransport.v ===== *)
(** * The TCP transport of the gossip: [kv/memberlist/tcp_transport.go]

    Packets and streams travel over TCP connections of their own.  A connection
    is the bytes that reach the other end before it is closed or broken; what
    the network does to each operation is an argument.  MD5, address parsing and
    the addresses of the host are parameters. *)
From Stdlib Require Import ZArith Lia.
From stdpp Require Import base gmap strings list.
From S2P Require Import Prelude TokensFile.

(** ** Data *)
(** [messageType]; 0 is not used *)
Definition packet : Byte.byte := Byte.x01.
Definition stream : Byte.byte := Byte.x02.
Definition zeroZeroZeroZero : string := "0.0.0.0".
Definition md5_Size : nat := 16.

Record Packet := mkPacket { pkt_Buf : bytes; pkt_From : bytes }.

(** the counters of a [TCPTransport] *)
Inductive counter :=
| incomingStreams | outgoingStreams | outgoingStreamErrors
| receivedPackets | receivedPacketsBytes | receivedPacketsErrors
| sentPackets | sentPacketsBytes | sentPacketsErrors
| unknownConnections.
#[export] Instance counter_eq_dec : EqDecision counter.
Proof. solve_decision. Defined.

(** [TCPTransport]: the advertised address, and what has been handed to the
    memberlist library on [packetCh] and [connCh] (of a connection, what is left
    to read) *)
Record transport := mkTransport {
  advertiseAddr : bytes;
  packetCh : list Packet;
  connCh : list bytes;
  counters : counter → Z
}.
Definition newTransport (addr : bytes) : transport := mkTransport addr [] [] (λ _, 0).
Definition Add (c : counter) (n : Z) (t : transport) : transport :=
  mkTransport (advertiseAddr t) (packetCh t) (connCh t) (λ c', if decide (c' = c) then counters t c' + n else counters t c').
Definition Inc (c : counter) (t : transport) : transport := Add c 1 t.
Definition send_packetCh (p : Packet) (t : transport) : transport :=
  mkTransport (advertiseAddr t) (packetCh t ++ [p]) (connCh t) (counters t).
Definition send_connCh (wire : bytes) (t : transport) : transport :=
  mkTransport (advertiseAddr t) (packetCh t) (connCh t ++ [wire]) (counters t).
Definition setAdvertisedAddr (addr : bytes) (t : transport) : transport :=
  mkTransport addr (packetCh t) (connCh t) (counters t).

Section digest.
Variable md5_Sum : bytes → bytes.

(** ** Sending *)
(** what a [Write] does: all is sent, or the [n] first bytes are, with or without
    an error *)
Inductive write_result := WriteAll | WriteErr (n : nat) | WriteShort (n : nat).
Definition conn_Write (b : bytes) (r : write_result) (wire : bytes) : bytes * nat * bool :=
  match r with
  | WriteAll => (wire ++ b, length b, true)
  | WriteErr n => (wire ++ take n b, Nat.min n (length b), false)
  | WriteShort n => (wire ++ take n b, Nat.min n (length b), true)
  end.

(** what the network does to the operations of one call *)
Record conn_script := mkConn {
  dial_ok : bool;
  deadline_ok : bool;
  header_write : write_result;
  data_write : write_result;
  digest_write : write_result;
  close_ok : bool
}.
Inductive write_error :=
| ErrDial | ErrAddrTooLong | ErrDeadline | ErrSendAddress | ErrSendData | ErrDataShort | ErrDigest | ErrDigestShort | ErrCloseConn.

Definition header (ourAddr : bytes) : bytes :=
  packet :: default Byte.x00 (Byte.of_N (N.of_nat (length ourAddr))) :: ourAddr.

(** the error, and what the other end receives on the connection; [None]: there is
    no connection *)
Definition writeTo (PacketWriteTimeout : Z) (b : bytes) (c : conn_script) (t : transport) : option write_error * option bytes :=
  if negb (dial_ok c) then (Some ErrDial, None)
  else
    let digest := md5_Sum b in
    let ourAddr := advertiseAddr t in
    if bool_decide (255 < length ourAddr)%nat then (Some ErrAddrTooLong, Some [])
    else if bool_decide (0 < PacketWriteTimeout) && negb (deadline_ok c) then (Some ErrDeadline, Some [])
    else
      let '(wire, _, ok) := conn_Write (header ourAddr) (header_write c) [] in
      if negb ok then (Some ErrSendAddress, Some wire)
      else
        let '(wire, n, ok) := conn_Write b (data_write c) wire in
        if negb ok then (Some ErrSendData, Some wire)
        else if bool_decide (n ≠ length b) then (Some ErrDataShort, Some wire)
        else
          let '(wire, n, ok) := conn_Write digest (digest_write c) wire in
          if negb ok then (Some ErrDigest, Some wire)
          else if bool_decide (n ≠ length digest) then (Some ErrDigestShort, Some wire)
          else if negb (close_ok c) then (Some ErrCloseConn, Some wire)
          else (None, Some wire).

(** [WriteTo]: the error it returns (always [nil]), what is received, the counters *)
Definition WriteTo (PacketWriteTimeout : Z) (b : bytes) (c : conn_script) (t : transport)
    : option write_error * option bytes * transport :=
  let t := Inc sentPackets t in
  let t := Add sentPacketsBytes (Z.of_nat (length b)) t in
  let '(err, wire) := writeTo PacketWriteTimeout b c t in
  match err with
  | Some _ => (None, wire, Inc sentPacketsErrors t)
  | None => (None, wire, t)
  end.

(** [DialTimeout]: whether it returns the connection, and what the other end
    receives first *)
Definition DialTimeout (dial_ok : bool) (w : write_result) (t : transport) : bool * option bytes * transport :=
  let t := Inc outgoingStreams t in
  if negb dial_ok then (false, None, Inc outgoingStreamErrors t)
  else
    let '(wire, _, ok) := conn_Write [stream] w [] in
    if negb ok then (false, Some wire, Inc outgoingStreamErrors t) else (true, Some wire, t).

(** ** Receiving *)
(** [io.ReadFull] of [n] bytes *)
Definition ReadFull (n : nat) (wire : bytes) : option (bytes * bytes) :=
  if bool_decide (n ≤ length wire)%nat then Some (take n wire, drop n wire) else None.

(** [wire] arrives, then the connection ends, or fails when [broken]; the result
    says whether the connection is closed *)
Definition handleConnection (wire : bytes) (broken : bool) (t : transport) : bool * transport :=
  match ReadFull 1 wire with
  | None => (true, t)
  | Some (msgType, wire) =>
      if bool_decide (msgType = [stream]) then
        let t := Inc incomingStreams t in
        (false, send_connCh wire t)
      else if bool_decide (msgType = [packet]) then
        let t := Inc receivedPackets t in
        match ReadFull 1 wire with
        | None => (true, Inc receivedPacketsErrors t)
        | Some (addrLengthBuf, wire) =>
            match ReadFull (N.to_nat (Byte.to_N (default Byte.x00 (head addrLengthBuf)))) wire with
            | None => (true, Inc receivedPacketsErrors t)
            | Some (addrBuf, buf) =>
                if broken then (true, Inc receivedPacketsErrors t)
                else if bool_decide (length buf < md5_Size)%nat then (true, Inc receivedPacketsErrors t)
                else
                  let receivedDigest := drop (length buf - md5_Size) buf in
                  let buf := take (length buf - md5_Size) buf in
                  let expectedDigest := md5_Sum buf in
                  let t := if bool_decide (receivedDigest ≠ expectedDigest) then Inc receivedPacketsErrors t else t in
                  let t := Add receivedPacketsBytes (Z.of_nat (length buf)) t in
                  (true, send_packetCh (mkPacket buf addrBuf) t)
            end
        end
      else (true, Inc unknownConnections t)
  end.
End digest.

(** ** Listening *)
Definition baseDelay : Z := 5 * Millisecond.
Definition maxDelay : Z := 1 * Second.
(** one turn of the loop of [tcpListen]: [None] ends it; otherwise the time to sleep
    before the next turn, which is the new [loopDelay], and whether the connection
    is handed to [handleConnection] *)
Definition tcpListen_step (accepted shutdown : bool) (loopDelay : Z) : option (Z * bool) :=
  if negb accepted then
    if shutdown then None
    else
      let loopDelay := if bool_decide (loopDelay = 0) then baseDelay else loopDelay * 2 in
      let loopDelay := if bool_decide (maxDelay < loopDelay) then maxDelay else loopDelay in
      Some (loopDelay, false)
  else Some (0, true).

(** a listener: its address and port *)
Record listener := mkListener { ln_addr : string; ln_port : Z }.
(** [NewTCPTransport], with the outcomes of the calls that listen: the port that is
    bound, which is the one asked for unless that is 0.  On an error, [Shutdown]
    closes the listeners there are: they are returned. *)
Fixpoint listen_loop (addrs : list string) (outcomes : list (option Z)) (port : Z) (lns : list listener)
    : result (list listener) (list listener) :=
  match addrs, outcomes with
  | [], _ => Ok lns
  | addr :: addrs, Some bound :: outcomes =>
      let lns := lns ++ [mkListener addr (if bool_decide (port = 0) then bound else port)] in
      let port := if bool_decide (port = 0) then bound else port in
      listen_loop addrs outcomes port lns
  | _ :: _, _ => Err lns
  end.
Definition NewTCPTransport (BindAddrs : list string) (BindPort : Z) (tls_ok : bool) (outcomes : list (option Z))
    : result (list listener) (list listener) :=
  let BindAddrs := if bool_decide (length BindAddrs = 0%nat) then [zeroZeroZeroZero] else BindAddrs in
  if negb tls_ok then Err [] else listen_loop BindAddrs outcomes BindPort [].

(** [FinalAdvertiseAddr] and [setAdvertisedAddr] *)
Section advertise.
Context {IP : Type}.
Variable ParseIP : string → option IP.
Variable To4 : IP → option IP.
Variable TCPAddr_String : IP → Z → bytes.
(** [bound] is the address the first listener is bound to, [private] the answer of
    [sockaddr.GetPrivateIP] *)
Inductive advertise_error := ErrParseAdvertise | ErrInterfaces | ErrNoPrivateIP.
Definition GetAutoBindPort (bound : IP * Z) : Z := bound.2.
Definition FinalAdvertiseAddr (BindAddr0 : string) (bound : IP * Z) (private : option string) (ip : string) (port : Z)
    (t : transport) : result advertise_error (IP * Z) * transport :=
  let r :=
    if bool_decide (ip ≠ ""%string) then
      match ParseIP ip with
      | None => Err ErrParseAdvertise
      | Some a => Ok (default a (To4 a), port)
      end
    else
      if bool_decide (BindAddr0 = zeroZeroZeroZero) then
        match private with
        | None => Err ErrInterfaces
        | Some ip =>
            if bool_decide (ip = ""%string) then Err ErrNoPrivateIP
            else match ParseIP ip with
                 | None => Err ErrParseAdvertise
                 | Some a => Ok (a, GetAutoBindPort bound)
                 end
        end
      else Ok (bound.1, GetAutoBindPort bound) in
  match r with
  | Err e => (Err e, t)
  | Ok (a, p) =>
      (Ok (a, p), setAdvertisedAddr (TCPAddr_String a p) t)
  end.
End advertise.

(** ** Packets over TCP arrive whole or are counted as errors

    What [WriteTo] puts on a connection, and what [handleConnection] makes of any
    part of it; the listeners of the transport. *)
Section packets.
Variable md5_Sum : bytes → bytes.
(** [md5.Sum] returns an array of [md5.Size] bytes *)
Hypothesis md5_length : ∀ b, length (md5_Sum b) = md5_Size.

(** what a complete packet looks like on the connection *)
Definition frame (ourAddr b : bytes) : bytes := header ourAddr ++ b ++ md5_Sum b.
Definition writes_header (c : conn_script) : Prop := match header_write c with WriteShort _ => False | _ => True end.

(** no part of the data and its digest passes for a shorter packet *)
Definition no_collision (b : bytes) : Prop :=
  ∀ n, (md5_Size ≤ n < length b + md5_Size)%nat →
    md5_Sum (take (n - md5_Size) (b ++ md5_Sum b)) ≠ drop (n - md5_Size) (take n (b ++ md5_Sum b)).

Lemma conn_Write_prefix b r wire rest wire' n ok : conn_Write b r wire = (wire', n, ok) →
  wire' `prefix_of` wire ++ b ++ rest.
Proof.
  destruct r; simpl; intros [= <- <- <-]; apply prefix_app; [by apply prefix_app_r| |];
    (etrans; [apply prefix_take|by apply prefix_app_r]).
Qed.
Lemma conn_Write_all b r wire wire' n : conn_Write b r wire = (wire', n, true) → n = length b → wire' = wire ++ b.
Proof.
  destruct r as [|k|k]; simpl; intros [= <- <-] Hn; [done|]. f_equal. apply take_ge. lia.
Qed.

Lemma writeTo_wire tmo b c t err wire : writes_header c → writeTo md5_Sum tmo b c t = (err, Some wire) →
  wire `prefix_of` frame (advertiseAddr t) b ∧
  (wire ≠ [] → (length (advertiseAddr t) ≤ 255)%nat) ∧
  (err = None → wire = frame (advertiseAddr t) b).
Proof.
  unfold writeTo, writes_header. intros Hh. destruct (dial_ok c); simpl; [|done].
  case_bool_decide as Hlen; [intros [= <- <-]; split_and!; [apply prefix_nil|done|done]|].
  destruct (bool_decide (0 < tmo) && negb (deadline_ok c)); [intros [= <- <-]; split_and!; [apply prefix_nil|done|done]|].
  assert (∀ w, wire = w → wire ≠ [] → (length (advertiseAddr t) ≤ 255)%nat) as Hl by (intros; lia).
  destruct (conn_Write (header _) _ _) as [[w1 n1] ok1] eqn:E1.
  pose proof (conn_Write_prefix _ _ _ (b ++ md5_Sum b) _ _ _ E1) as P1. simpl in P1.
  destruct ok1; simpl; [|intros [= <- <-]; split_and!; [done|lia|done]].
  assert (w1 = header (advertiseAddr t)) as ->. { destruct (header_write c); simpl in E1; [by injection E1|by injection E1|done]. }
  destruct (conn_Write b _ _) as [[w2 n2] ok2] eqn:E2.
  pose proof (conn_Write_prefix _ _ _ (md5_Sum b) _ _ _ E2) as P2.
  destruct ok2; simpl; [|intros [= <- <-]; split_and!; [done|lia|done]].
  case_bool_decide as Hn2; [intros [= <- <-]; split_and!; [done|lia|done]|].
  pose proof (conn_Write_all _ _ _ _ _ E2 ltac:(lia)) as ->.
  destruct (conn_Write (md5_Sum b) _ _) as [[w3 n3] ok3] eqn:E3.
  pose proof (conn_Write_prefix _ _ _ [] _ _ _ E3) as P3. rewrite app_nil_r, <- app_assoc in P3.
  destruct ok3; simpl; [|intros [= <- <-]; split_and!; [done|lia|done]].
  case_bool_decide as Hn3; [intros [= <- <-]; split_and!; [done|lia|done]|].
  pose proof (conn_Write_all _ _ _ _ _ E3 ltac:(lia)) as ->. rewrite <- app_assoc.
  destruct (close_ok c); simpl; intros [= <- <-]; (split_and!; [done|lia|done]).
Qed.

Lemma Inc_other c c' t : c' ≠ c → counters (Inc c t) c' = counters t c'.
Proof. intros. unfold Inc, Add. simpl. by rewrite decide_False. Qed.
Lemma Inc_same c t : counters (Inc c t) c = counters t c + 1.
Proof. unfold Inc, Add. simpl. by rewrite decide_True. Qed.

(** what the receiver makes of a part of a frame *)
Lemma handleConnection_prefix addr b wire broken t closed t' :
  (wire ≠ [] → (length addr ≤ 255)%nat) → no_collision b → wire `prefix_of` frame addr b →
  handleConnection md5_Sum wire broken t = (closed, t') →
  closed = true ∧
  ((wire = [] ∧ t' = t)
   ∨ counters t' receivedPacketsErrors = counters t receivedPacketsErrors + 1 ∧ ¬ (broken = false ∧ wire = frame addr b)
   ∨ broken = false ∧ wire = frame addr b ∧ counters t' receivedPacketsErrors = counters t receivedPacketsErrors
     ∧ packetCh t' = packetCh t ++ [mkPacket b addr]).
Proof.
  intros Hlen Hcol Hpre Hh. destruct wire as [|m wire]; [unfold handleConnection in Hh; simpl in Hh; injection Hh as <- <-; auto|].
  specialize (Hlen ltac:(done)). unfold frame, header in Hpre. simpl in Hpre.
  apply prefix_cons_inv_1 in Hpre as Hm. apply prefix_cons_inv_2 in Hpre. subst m.
  unfold handleConnection, ReadFull at 1 in Hh. simpl in Hh. rewrite drop_0 in Hh.
  destruct wire as [|lb wire].
  { simpl in Hh. injection Hh as <- <-. split; [done|]. right. left. split; [by rewrite Inc_same, Inc_other by done|by intros [_ [=]]]. }
  apply prefix_cons_inv_1 in Hpre as Hl. apply prefix_cons_inv_2 in Hpre. subst lb.
  unfold ReadFull at 1 in Hh. simpl in Hh. rewrite drop_0 in Hh.
  assert (N.to_nat (Byte.to_N (default Byte.x00 (Byte.of_N (N.of_nat (length addr))))) = length addr) as Hbyte.
  { destruct (Byte.of_N (N.of_nat (length addr))) as [x|] eqn:Hx; simpl.
    - apply Byte.to_of_N in Hx. rewrite Hx. lia.
    - apply Byte.of_N_None_iff in Hx. lia. }
  rewrite Hbyte in Hh. unfold ReadFull in Hh.
  case_bool_decide as Hal; [|injection Hh as <- <-; split; [done|]; right; left;
    split; [by rewrite Inc_same, Inc_other by done|intros [_ [= ->]]; rewrite length_app in Hal; lia]].
  assert (take (length addr) wire = addr ∧ drop (length addr) wire `prefix_of` b ++ md5_Sum b) as [Hta Hda].
  { destruct Hpre as [k Hk]. assert (take (length addr) (wire ++ k) = addr) as Ht by (by rewrite <- Hk, take_app_length).
    rewrite take_app_le in Ht by done. split; [done|]. exists k. apply (app_inv_head addr).
    trans (take (length addr) wire ++ drop (length addr) wire ++ k); [by rewrite (app_assoc (take _ _)), take_drop|by rewrite Ht]. }
  pose proof (take_drop (length addr) wire) as Hwire. rewrite Hta in Hwire.
  remember (drop (length addr) wire) as buf eqn:Hbuf. clear Hbuf Hpre Hal. rewrite Hta in Hh. subst wire. clear Hta.
  destruct broken; [injection Hh as <- <-; split; [done|]; right; left; split; [by rewrite Inc_same, Inc_other by done|by intros [[=] _]]|].
  assert (length (b ++ md5_Sum b) = length b + md5_Size)%nat as Hlb by (by rewrite length_app, md5_length).
  case_bool_decide as Hshort; [injection Hh as <- <-; split; [done|]; right; left; split;
    [by rewrite Inc_same, Inc_other by done|intros [_ Hw]; injection Hw as Hw; apply app_inv_head in Hw; subst buf; lia]|].
  assert (buf = take (length buf) (b ++ md5_Sum b)) as Htb.
  { destruct Hda as [k ->]. by rewrite take_app_length. }
  pose proof (prefix_length _ _ Hda) as Hle.
  destruct (decide (length buf = length b + md5_Size)%nat) as [Hfull|Hpart].
  - assert (buf = b ++ md5_Sum b) as -> by (rewrite Htb; apply take_ge; lia). clear Htb.
    rewrite Hlb, Nat.add_sub in Hh. rewrite take_app_length, drop_app_length in Hh.
    rewrite bool_decide_eq_false_2 in Hh by (intros ?; done). injection Hh as <- <-. split; [done|]. right. right. done.
  - assert (md5_Sum (take (length buf - md5_Size) buf) ≠ drop (length buf - md5_Size) buf) as Hne.
    { specialize (Hcol (length buf) ltac:(lia)). rewrite <- Htb in Hcol. contradict Hcol. rewrite <- Hcol. f_equal.
      trans (take (length buf - md5_Size) (take (length buf) (b ++ md5_Sum b))); [rewrite take_take; f_equal; lia|by rewrite <- Htb]. }
    rewrite bool_decide_eq_true_2 in Hh by congruence. injection Hh as <- <-. split; [done|]. right. left. split.
    + done.
    + intros [_ Hw]. injection Hw as Hw. apply app_inv_head in Hw. subst buf. lia.
Qed.

(** C34. Whatever the network does to the operations of [WriteTo] and however much
    of the connection reaches the other node, a packet is handed to memberlist
    there with exactly the bytes sent and the address advertised by the sender, or
    nothing at all has arrived, or the receiver counts an error; when no operation
    fails it is handed over.  [WriteTo] itself always returns [nil]. *)
Theorem packet_delivery (tmo : Z) (b : bytes) (c : conn_script) (t : transport) (broken : bool) (r : transport) :
  writes_header c → no_collision b →
  let '(err, wire, t') := WriteTo md5_Sum tmo b c t in
  let '(closed, r') := handleConnection md5_Sum (default [] wire) broken r in
  err = None ∧ closed = true ∧
  (counters r' receivedPacketsErrors = counters r receivedPacketsErrors →
    (default [] wire = [] ∧ r' = r) ∨ packetCh r' = packetCh r ++ [mkPacket b (advertiseAddr t)]) ∧
  (counters t' sentPacketsErrors = counters t sentPacketsErrors → broken = false →
    packetCh r' = packetCh r ++ [mkPacket b (advertiseAddr t)] ∧
    counters r' receivedPacketsErrors = counters r receivedPacketsErrors).
Proof.
  intros Hc Hcol. unfold WriteTo.
  destruct (writeTo _ _ _ _ _) as [err wire] eqn:Hw.
  assert (default [] wire `prefix_of` frame (advertiseAddr t) b ∧ (default [] wire ≠ [] → (length (advertiseAddr t) ≤ 255)%nat)
    ∧ (err = None → default [] wire = frame (advertiseAddr t) b)) as (Hpre & Hlen & Hfull).
  { destruct wire as [wire|]; [by apply writeTo_wire in Hw|]. simpl. split_and!; [apply prefix_nil|done|].
    intros ->. unfold writeTo in Hw. repeat case_match; simplify_eq. }
  assert (∀ t2, (match err with Some _ => (None, wire, Inc sentPacketsErrors t2) | None => (None, wire, t2) end)
    = (@None write_error, wire, match err with Some _ => Inc sentPacketsErrors t2 | None => t2 end)) as -> by (intros; by destruct err).
  destruct (handleConnection _ _ _ _) as [closed r'] eqn:Hh.
  destruct (handleConnection_prefix _ _ _ _ _ _ _ Hlen Hcol Hpre Hh) as [-> Hcase]. split_and!; [done..| |].
  - intros He. destruct Hcase as [?|[[? _]|(_ & _ & _ & ?)]]; [by left|lia|by right].
  - intros He Hb. destruct err as [e|]; [simpl in He; lia|].
    rewrite Hfull in Hcase by done. destruct Hcase as [[? _]|[[_ Hn]|(_ & _ & ? & ?)]]; [done|by contradict Hn|done].
Qed.
End packets.

(** ** Witness, and a packet that is damaged on the way *)
(** the length of the data stands for its digest *)
Definition toy_digest (b : bytes) : bytes :=
  default Byte.x00 (Byte.of_N (N.of_nat (length b) mod 256)) :: replicate 15 Byte.x00.
Definition ex_payload : bytes := [Byte.x41; Byte.x42; Byte.x43].
Definition ex_sender : transport := newTransport [Byte.x31; Byte.x32].
Definition ex_conn : conn_script := mkConn true true WriteAll WriteAll WriteAll true.
Definition ex_broken_conn : conn_script := mkConn true true WriteAll WriteAll (WriteErr 3) true.

Lemma packet_delivery_witness :
  (WriteTo toy_digest 5 ex_payload ex_conn ex_sender).1.2 = Some (frame toy_digest [Byte.x31; Byte.x32] ex_payload) ∧
  packetCh (handleConnection toy_digest (frame toy_digest [Byte.x31; Byte.x32] ex_payload) false (newTransport [])).2
    = [mkPacket ex_payload [Byte.x31; Byte.x32]].
Proof.
  split; [reflexivity|].
  apply (packet_delivery toy_digest ltac:(done) 5 ex_payload ex_conn ex_sender false (newTransport [])); [exact I| |reflexivity|reflexivity].
  intros n [Hn1 Hn2]. simpl in *. unfold md5_Size in *.
  assert (n = 16 ∨ n = 17 ∨ n = 18)%nat as [->|[->| ->]] by lia; vm_compute; intros [=].
Defined.

(** The digest does not match, the error is counted and logged, and the damaged
    packet is handed over all the same: part of the digest of the sender is taken
    for the end of the data, or the end of the data for the digest. *)
Lemma damaged_packet_delivered :
  let wire := (WriteTo toy_digest 5 (ex_payload ++ replicate 20 Byte.x55) (mkConn true true WriteAll (WriteErr 20) WriteAll true) ex_sender).1.2 in
  let r' := (handleConnection toy_digest (default [] wire) false (newTransport [])).2 in
  counters r' receivedPacketsErrors = 1 ∧ packetCh r' = [mkPacket (ex_payload ++ [Byte.x55]) [Byte.x31; Byte.x32]].
Proof. split; vm_compute; reflexivity. Qed.

(** ** Streams, listeners, the advertised address *)
Lemma stream_handed_over md5_Sum w t t' rest broken r :
  DialTimeout true w t = (true, Some [stream], t') →
  handleConnection md5_Sum ([stream] ++ rest) broken r = (false, send_connCh rest (Inc incomingStreams r)).
Proof. intros _. unfold handleConnection, ReadFull. simpl. by rewrite drop_0. Qed.

(** after a failing [Accept] the loop sleeps between 5 milliseconds and a second,
    twice as long each time; it ends only when the transport is shut down *)
Lemma tcpListen_delay shutdown d d' c : (d = 0 ∨ baseDelay ≤ d ≤ maxDelay) →
  tcpListen_step false shutdown d = Some (d', c) → baseDelay ≤ d' ≤ maxDelay ∧ c = false ∧ shutdown = false ∧
  (d' = maxDelay ∨ d' = (if bool_decide (d = 0) then baseDelay else 2 * d)).
Proof.
  unfold tcpListen_step, maxDelay, baseDelay, Second, Millisecond. intros Hd. simpl. destruct shutdown; [done|].
  repeat case_bool_decide; intros [= <- <-]; repeat split; lia.
Qed.
Lemma tcpListen_ends accepted shutdown d : tcpListen_step accepted shutdown d = None ↔ accepted = false ∧ shutdown = true.
Proof. unfold tcpListen_step. destruct accepted, shutdown; simpl; naive_solver. Qed.

Lemma listen_loop_spec addrs outcomes port lns lns' :
  Forall (λ o, o ≠ Some 0) outcomes →
  (port = 0 → lns = []) → Forall (λ l, ln_port l = port) lns → listen_loop addrs outcomes port lns = Ok lns' →
  ln_addr <$> lns' = (ln_addr <$> lns) ++ addrs ∧ ∃ p, (port ≠ 0 → p = port) ∧ Forall (λ l, ln_port l = p) lns'.
Proof.
  revert outcomes port lns. induction addrs as [|a addrs IH]; intros outcomes port lns Ho H0 Hl; simpl.
  - intros [= <-]. rewrite app_nil_r. eauto.
  - destruct outcomes as [|[bound|] outcomes]; [done| |done]. apply Forall_cons in Ho as [Hb Ho]. intros Hr.
    case_bool_decide as Hp.
    + rewrite H0 in * by done. apply IH in Hr as (Ha & p & _ & Hf); [|done|naive_solver|by constructor].
      split; [by rewrite Ha|]. exists p. split; [done|done].
    + apply IH in Hr as (Ha & p & Hpp & Hf); [|done|done|by apply Forall_app; split; [|constructor]].
      split; [by rewrite Ha, fmap_app, <- app_assoc|]. exists p. split; [done|done].
Qed.

(** On success there is a listener for every address, all on the same port: the one
    configured, unless that is 0. *)
Lemma NewTCPTransport_listeners BindAddrs BindPort tls_ok outcomes lns :
  Forall (λ o, o ≠ Some 0) outcomes → NewTCPTransport BindAddrs BindPort tls_ok outcomes = Ok lns →
  ln_addr <$> lns = (if bool_decide (length BindAddrs = 0%nat) then [zeroZeroZeroZero] else BindAddrs) ∧
  lns ≠ [] ∧ ∃ p, (BindPort ≠ 0 → p = BindPort) ∧ Forall (λ l, ln_port l = p) lns.
Proof.
  unfold NewTCPTransport. intros Ho. destruct tls_ok; simpl; [|done]. intros Hr.
  destruct (listen_loop_spec _ _ _ [] _ Ho ltac:(done) ltac:(constructor) Hr) as [Ha Hp]. simpl in Ha. split; [done|]. split; [|done].
  intros ->. simpl in Ha. case_bool_decide as Hb; [done|by subst BindAddrs].
Qed.
