(* ===== verification/Backoff.v ===== *)
(** * Exponential backoff: [backoff/backoff.go]

    Durations are numbers of nanoseconds in an [int64], whose arithmetic wraps.
    The context is whether it is done, and the draw of the random generator an
    argument: [rand.Int63n] panics unless its bound is positive. *)
From Stdlib Require Import ZArith Lia.
From stdpp Require Import base list.
From S2P Require Import Prelude.

Record BackoffConfig := mkBackoffConfig { MinBackoff : Z; MaxBackoff : Z; MaxRetries : Z }.
Record Backoff := mkBackoff { backoff_cfg : BackoffConfig; numRetries : Z; nextDelayMin : Z; nextDelayMax : Z }.

Definition doubleDuration (value max : Z) : Z :=
  let value := i64 (value * 2) in
  if bool_decide (value ≤ max) then value else max.

Definition NewBackoff (c : BackoffConfig) : Backoff := mkBackoff c 0 (MinBackoff c) (doubleDuration (MinBackoff c) (MaxBackoff c)).
Definition Reset (b : Backoff) : Backoff :=
  mkBackoff (backoff_cfg b) 0 (MinBackoff (backoff_cfg b)) (doubleDuration (MinBackoff (backoff_cfg b)) (MaxBackoff (backoff_cfg b))).
Definition Ongoing (ctx_done : bool) (b : Backoff) : bool :=
  negb ctx_done && (bool_decide (MaxRetries (backoff_cfg b) = 0) || bool_decide (numRetries b < MaxRetries (backoff_cfg b))).
Inductive backoff_error := ErrContext | ErrTerminated (n : Z).
Definition BackoffErr (ctx_done : bool) (b : Backoff) : option backoff_error :=
  if ctx_done then Some ErrContext
  else if bool_decide (MaxRetries (backoff_cfg b) ≠ 0) && bool_decide (MaxRetries (backoff_cfg b) ≤ numRetries b)
  then Some (ErrTerminated (numRetries b)) else None.
Definition NumRetries (b : Backoff) : Z := numRetries b.

(** [rand.Int63n]: a number below [n]; [None]: a panic *)
Definition Int63n (n draw : Z) : option Z := if bool_decide (0 < n) then Some (draw mod n) else None.

Definition NextDelay (draw : Z) (b : Backoff) : option (Z * Backoff) :=
  let b := mkBackoff (backoff_cfg b) (i64 (numRetries b + 1)) (nextDelayMin b) (nextDelayMax b) in
  if bool_decide (nextDelayMax b ≤ nextDelayMin b) then Some (nextDelayMin b, b)
  else
    r ← Int63n (i64 (nextDelayMax b - nextDelayMin b)) draw;
    let sleepTime := i64 (nextDelayMin b + r) in
    let b :=
      if bool_decide (nextDelayMax b < MaxBackoff (backoff_cfg b))
      then mkBackoff (backoff_cfg b) (numRetries b) (doubleDuration (nextDelayMin b) (MaxBackoff (backoff_cfg b)))
             (doubleDuration (nextDelayMax b) (MaxBackoff (backoff_cfg b)))
      else b in
    Some (sleepTime, b).
(** the time [Wait] waits for, unless the context ends first *)
Definition Wait (ctx_done : bool) (draw : Z) (b : Backoff) : option (Z * Backoff) :=
  '(sleepTime, b) ← NextDelay draw b;
  Some (if Ongoing ctx_done b then sleepTime else 0, b).

(** the delays of a sequence of calls of [NextDelay] *)
Fixpoint delays (draws : list Z) (b : Backoff) : option (list Z * Backoff) :=
  match draws with
  | [] => Some ([], b)
  | d :: draws =>
      '(t, b) ← NextDelay d b;
      '(ts, b) ← delays draws b;
      Some (t :: ts, b)
  end.

(** a retry loop [for b.Ongoing() { ...; b.Wait() }] whose body never succeeds: the
    number of turns it makes while the context is alive *)
Fixpoint retry_loop (draws : list Z) (b : Backoff) : option (nat * Backoff) :=
  if negb (Ongoing false b) then Some (0%nat, b)
  else
    match draws with
    | [] => None
    | d :: draws =>
        '(_, b) ← Wait false d b;
        '(n, b) ← retry_loop draws b;
        Some (S n, b)
    end.

(** ** The delays grow, between bounds *)
Section facts.
Variable c : BackoffConfig.
Hypothesis cfg_ok : 0 < MinBackoff c < MaxBackoff c ∧ MaxBackoff c < 2 ^ 62.

Lemma doubleDuration_small v max : 0 ≤ v < 2 ^ 62 → doubleDuration v max = Z.min (2 * v) max.
Proof. intros Hv. unfold doubleDuration. rewrite i64_small by lia. case_bool_decide; lia. Qed.

(** after the range has doubled [j] times *)
Definition level (j : nat) (b : Backoff) : Prop :=
  backoff_cfg b = c ∧ nextDelayMin b = MinBackoff c * 2 ^ Z.of_nat j ∧ nextDelayMax b = Z.min (MinBackoff c * 2 ^ (Z.of_nat j + 1)) (MaxBackoff c) ∧
  MinBackoff c * 2 ^ Z.of_nat j < MaxBackoff c.

Lemma pow2_succ j : 2 ^ (Z.of_nat j + 1) = 2 * 2 ^ Z.of_nat j.
Proof. rewrite Z.pow_add_r by lia. lia. Qed.

Lemma New_level : level 0 (NewBackoff c).
Proof.
  unfold level, NewBackoff. simpl. rewrite doubleDuration_small by lia. split_and!; [done|lia| |lia]. f_equal. lia.
Qed.

Lemma NextDelay_level j b draw : level j b → ∃ t b' j', NextDelay draw b = Some (t, b') ∧ level j' b' ∧
  numRetries b' = i64 (numRetries b + 1) ∧
  MinBackoff c * 2 ^ Z.of_nat j ≤ t < Z.min (MinBackoff c * 2 ^ (Z.of_nat j + 1)) (MaxBackoff c) ∧
  (j' = S j ∨ j' = j ∧ MaxBackoff c ≤ MinBackoff c * 2 ^ (Z.of_nat j + 1)).
Proof.
  unfold level. intros (Hc & Hmin & Hmax & Hlt). pose proof (pow2_succ j) as Hp. pose proof (pow2_succ (S j)) as Hp'.
  rewrite Nat2Z.inj_succ, Z.pow_succ_r in Hp' by lia. rewrite Hp in Hmax |- *.
  assert (0 < 2 ^ Z.of_nat j) as Hq by (apply Z.pow_pos_nonneg; lia).
  assert (0 < MinBackoff c * 2 ^ Z.of_nat j) as Hm by nia.
  set (m := MinBackoff c * 2 ^ Z.of_nat j) in *.
  assert (MinBackoff c * (2 * 2 ^ Z.of_nat j) = 2 * m) as E1 by (unfold m; ring). rewrite E1 in Hmax |- *.
  unfold NextDelay. simpl. rewrite bool_decide_eq_false_2 by lia. unfold Int63n.
  rewrite (i64_small (nextDelayMax b - nextDelayMin b)) by lia.
  rewrite (bool_decide_eq_true_2 (0 < _)) by lia. simpl.
  pose proof (Z.mod_pos_bound draw (nextDelayMax b - nextDelayMin b) ltac:(lia)) as Hd.
  rewrite (i64_small (nextDelayMin b + _)) by lia. rewrite Hc.
  case_bool_decide as Hcap.
  - eexists _, _, (S j). split; [done|]. simpl. rewrite !doubleDuration_small by lia.
    rewrite Nat2Z.inj_succ, Z.pow_succ_r by lia.
    replace (MinBackoff c * 2 ^ (Z.succ (Z.of_nat j) + 1)) with (4 * m) by (rewrite Hp'; unfold m; ring). rewrite E1.
    split_and!; try done; lia.
  - eexists _, _, j. split; [done|]. rewrite Hp, E1. split_and!; try done; lia.
Qed.

(** The [n]-th delay lies in the [n]-th range of the sequence of ranges that
    starts at [MinBackoff] and doubles until it reaches [MaxBackoff]; in particular
    every delay is at least [MinBackoff] and below [MaxBackoff], and nothing
    overflows or panics. *)
Theorem delays_bounds (draws : list Z) :
  ∃ ts b, delays draws (NewBackoff c) = Some (ts, b) ∧ length ts = length draws ∧
  ∀ n t, ts !! n = Some t → ∃ j, (j ≤ n)%nat ∧
    MinBackoff c * 2 ^ Z.of_nat j ≤ t < Z.min (MinBackoff c * 2 ^ (Z.of_nat j + 1)) (MaxBackoff c) ∧
    (j = n ∨ MaxBackoff c ≤ MinBackoff c * 2 ^ (Z.of_nat j + 1)).
Proof.
  assert (∀ draws j b, level j b → ∃ ts b', delays draws b = Some (ts, b') ∧ length ts = length draws ∧
    ∀ n t, ts !! n = Some t → ∃ i, (j ≤ i ≤ j + n)%nat ∧
      MinBackoff c * 2 ^ Z.of_nat i ≤ t < Z.min (MinBackoff c * 2 ^ (Z.of_nat i + 1)) (MaxBackoff c) ∧
      ((i = j + n)%nat ∨ MaxBackoff c ≤ MinBackoff c * 2 ^ (Z.of_nat i + 1))) as Hgen.
  { clear draws. intros draws. induction draws as [|d draws IH]; intros j b Hl; simpl; [by exists [], b|].
    destruct (NextDelay_level j b d Hl) as (t & b' & j' & -> & Hl' & _ & Ht & Hj). simpl.
    destruct (IH j' b' Hl') as (ts & b2 & -> & Hlen & Hts). simpl. exists (t :: ts), b2. split; [done|]. split; [simpl; lia|].
    intros [|n] t0; simpl.
    - intros [= <-]. exists j. split; [lia|]. split; [done|]. left. lia.
    - intros Hn. destruct (Hts n t0 Hn) as (i & Hi & Hti & Hcase). exists i. split; [destruct Hj as [->|[-> _]]; lia|]. split; [done|].
      destruct Hcase as [->|]; [|by right]. destruct Hj as [->|[-> Hcap]]; [left; lia|right].
      assert (2 ^ (Z.of_nat j + 1) ≤ 2 ^ (Z.of_nat (j + n) + 1)) by (apply Z.pow_le_mono_r; lia). nia. }
  destruct (Hgen draws 0%nat (NewBackoff c) New_level) as (ts & b & Hd & Hlen & Hts). exists ts, b. split; [done|]. split; [done|].
  intros n t Hn. destruct (Hts n t Hn) as (i & Hi & Ht & Hcase). exists i. split; [lia|]. split; [done|]. destruct Hcase; [left; lia|by right].
Qed.
End facts.

(** *** Any configuration of durations below 146 years, in any order, or 0 *)
Definition small_delays (c : BackoffConfig) : Prop := 0 ≤ MinBackoff c < 2 ^ 62 ∧ MaxBackoff c < 2 ^ 62.
Definition sound_delays (c : BackoffConfig) (b : Backoff) : Prop :=
  backoff_cfg b = c ∧ 0 ≤ nextDelayMin b < 2 ^ 62 ∧ nextDelayMax b < 2 ^ 62.
Lemma New_sound c : small_delays c → sound_delays c (NewBackoff c).
Proof. intros [H1 H2]. unfold sound_delays, NewBackoff. simpl. rewrite doubleDuration_small by done. split_and!; [done|lia..]. Qed.
(** the next delay exists, is not negative, and does not end the backoff *)
Lemma NextDelay_sound c b draw : small_delays c → sound_delays c b → ∃ t b', NextDelay draw b = Some (t, b') ∧ sound_delays c b' ∧
  numRetries b' = i64 (numRetries b + 1) ∧ 0 ≤ t.
Proof.
  intros [H1 H2] (Hc & Hmin & Hmax). unfold NextDelay. simpl. case_bool_decide as Hle.
  { eexists _, _. split; [done|]. split; [|split; [done|lia]]. by split_and!; simpl; [|lia..]. }
  unfold Int63n. rewrite (i64_small (nextDelayMax b - nextDelayMin b)) by lia. rewrite (bool_decide_eq_true_2 (0 < _)) by lia. simpl.
  pose proof (Z.mod_pos_bound draw (nextDelayMax b - nextDelayMin b) ltac:(lia)) as Hd. rewrite (i64_small (nextDelayMin b + _)) by lia.
  rewrite Hc. eexists _, _. split; [done|]. split; [|split; [by case_bool_decide|lia]].
  case_bool_decide; unfold sound_delays; simpl; [rewrite !doubleDuration_small by lia|]; split_and!; try done; lia.
Qed.

(** [Ongoing] and [BackoffErr] agree *)
Lemma Ongoing_Err done_ b : Ongoing done_ b = true ↔ BackoffErr done_ b = None.
Proof. unfold Ongoing, BackoffErr. destruct done_; simpl; [done|]. repeat case_bool_decide; simpl; naive_solver lia. Qed.

(** A retry loop that never succeeds makes exactly [MaxRetries] turns, when that is
    positive. *)
Lemma retry_loop_turns (c : BackoffConfig) (draws : list Z) :
  0 < MinBackoff c < MaxBackoff c ∧ MaxBackoff c < 2 ^ 62 → 0 < MaxRetries c < 2 ^ 62 →
  MaxRetries c ≤ Z.of_nat (length draws) →
  ∃ b, retry_loop draws (NewBackoff c) = Some (Z.to_nat (MaxRetries c), b) ∧ BackoffErr false b = Some (ErrTerminated (MaxRetries c)).
Proof.
  intros Hc Hm.
  assert (∀ draws j b, level c j b → 0 ≤ numRetries b ≤ MaxRetries c → MaxRetries c - numRetries b ≤ Z.of_nat (length draws) →
    ∃ b', retry_loop draws b = Some (Z.to_nat (MaxRetries c - numRetries b), b') ∧ BackoffErr false b' = Some (ErrTerminated (MaxRetries c))) as Hgen.
  { clear draws. induction draws as [|d draws IH]; intros j b Hl Hn Hlen; simpl in *; destruct Hl as (Hcfg & Hl).
    - unfold Ongoing. rewrite Hcfg. rewrite (bool_decide_eq_false_2 (MaxRetries c = 0)), (bool_decide_eq_false_2 (numRetries b < _)) by lia.
      simpl. exists b. assert (MaxRetries c - numRetries b = 0) as -> by lia. split; [done|]. unfold BackoffErr. rewrite Hcfg.
      rewrite !bool_decide_eq_true_2 by lia. simpl. do 2 f_equal. lia.
    - unfold Ongoing at 1. rewrite Hcfg. rewrite (bool_decide_eq_false_2 (MaxRetries c = 0)) by lia. simpl. case_bool_decide as Hb; simpl.
      + destruct (NextDelay_level c Hc j b d (conj Hcfg Hl)) as (t & b' & j' & Hnd & Hl' & Hnr & _). unfold Wait. rewrite Hnd. simpl.
        rewrite i64_small in Hnr by lia. destruct (IH j' b' Hl') as (b2 & Hr & He); [lia|lia|]. rewrite Hr. simpl. exists b2. split; [|done].
        do 2 f_equal. lia.
      + exists b. assert (MaxRetries c - numRetries b = 0) as -> by lia. split; [done|]. unfold BackoffErr. rewrite Hcfg.
        rewrite !bool_decide_eq_true_2 by lia. simpl. do 2 f_equal. lia. }
  intros Hlen. destruct (Hgen draws 0%nat (NewBackoff c) (New_level c Hc)) as (b & Hr & He); [simpl; lia|simpl; lia|].
  simpl in Hr. rewrite Z.sub_0_r in Hr. by exists b.
Qed.

Lemma delays_bounds_witness : ∃ ts b, delays [7; 1000; 5; 123456789; 99] (NewBackoff (mkBackoffConfig (100 * Millisecond) (1 * Second) 10)) = Some (ts, b)
  ∧ length ts = 5%nat.
Proof.
  destruct (delays_bounds (mkBackoffConfig (100 * Millisecond) (1 * Second) 10) ltac:(unfold Millisecond, Second; simpl; lia) [7; 1000; 5; 123456789; 99])
    as (ts & b & Hd & Hl & _).
  exists ts, b. split; [exact Hd|exact Hl].
Defined.
(** with durations of more than a century the doubling overflows: the upper end of
    the range is negative, and the delay never grows *)
Lemma doubling_overflows : delays [0; 0] (NewBackoff (mkBackoffConfig (2 ^ 62) (2 ^ 63 - 1) 10)) = Some ([2 ^ 62; 2 ^ 62], mkBackoff (mkBackoffConfig (2 ^ 62) (2 ^ 63 - 1) 10) 2 (2 ^ 62) (- 2 ^ 63)).
Proof. vm_compute. reflexivity. Qed.
