(* ===== verification/RingUtil.v ===== *)
(** * Utilities of the ring: [ring/util.go]

    The address of an instance, and the loops that wait for an instance or for a
    stable ring.  The interfaces of the host are a parameter; a loop that waits
    reads what it observes in its turns from a list ([None]: it still waits at the
    end of the list). *)
From Stdlib Require Import ZArith Lia.
From stdpp Require Import base gmap strings list.
From S2P Require Import Prelude Model Ring Replication Backoff.

(** ** [GetInstanceAddr], [GetInstancePort] *)
(** a [net.Addr]: an [*net.IPNet] with an IPv4 address, as a string, or another *)
Inductive net_addr := AddrIPv4 (s : string) | AddrOther.
Definition is_apipa (ip : string) : bool := String.prefix "169.254." ip.

Fixpoint filterIPs_from (ipAddr : string) (addrs : list net_addr) : string :=
  match addrs with
  | [] => ipAddr
  | AddrIPv4 s :: addrs => if negb (is_apipa s) then s else filterIPs_from s addrs
  | AddrOther :: addrs => filterIPs_from ipAddr addrs
  end.
Definition filterIPs (addrs : list net_addr) : string := filterIPs_from "" addrs.

(** what is known of an interface: it may not exist, or not tell its addresses *)
Section interfaces.
Variable InterfaceByName : string → option (option (list net_addr)).

Inductive addr_error := ErrNoAddress.
Fixpoint firstAddress_loop (names : list string) (ipAddr : string) : result addr_error string :=
  match names with
  | [] => if bool_decide (ipAddr = ""%string) then Err ErrNoAddress else Ok ipAddr
  | name :: names =>
      match InterfaceByName name with
      | None | Some None => firstAddress_loop names ipAddr
      | Some (Some addrs) =>
          if bool_decide (length addrs = 0%nat) then firstAddress_loop names ipAddr
          else
            let ip := filterIPs addrs in
            let ipAddr := if bool_decide (ip ≠ ""%string) then ip else ipAddr in
            if is_apipa ipAddr || bool_decide (ipAddr = ""%string) then firstAddress_loop names ipAddr
            else Ok ipAddr
      end
  end.
Definition getFirstAddressOf (names : list string) : result addr_error string := firstAddress_loop names "".

Definition GetInstanceAddr (configAddr : string) (netInterfaces : list string) : result addr_error string :=
  if bool_decide (configAddr ≠ ""%string) then Ok configAddr else getFirstAddressOf netInterfaces.
Definition GetInstancePort (configPort listenPort : Z) : Z := if bool_decide (0 < configPort) then configPort else listenPort.

(** ** The address that is chosen *)
Definition ipv4s (addrs : list net_addr) : list string := omap (λ a, match a with AddrIPv4 s => Some s | AddrOther => None end) addrs.
Definition addresses (names : list string) : list string :=
  names ≫= λ name, match InterfaceByName name with Some (Some addrs) => ipv4s addrs | _ => [] end.

Lemma filterIPs_from_spec ip0 addrs : Forall (λ s, s ≠ ""%string) (ipv4s addrs) →
  (ipv4s addrs = [] ∧ filterIPs_from ip0 addrs = ip0) ∨
  (∃ pre ip post, ipv4s addrs = pre ++ ip :: post ∧ filterIPs_from ip0 addrs = ip ∧ Forall (λ s, is_apipa s = true) pre ∧
    (is_apipa ip = true → post = [])).
Proof.
  revert ip0. induction addrs as [|[s|] addrs IH]; intros ip0 Hne; simpl; [by left| |by apply IH].
  change (ipv4s (AddrIPv4 s :: addrs)) with (s :: ipv4s addrs) in *. apply Forall_cons in Hne as [Hs Hne]. right.
  destruct (is_apipa s) eqn:Ha; simpl.
  - destruct (IH s Hne) as [[He ->]|(pre & ip & post & He & Hf & Hpre & Hpost)]; rewrite He.
    + exists [], s, []. done.
    + exists (s :: pre), ip, post. split; [done|]. split; [done|]. split; [by constructor|done].
  - exists [], s, (ipv4s addrs). split_and!; [done|done|constructor|congruence].
Qed.
Lemma filterIPs_nonempty addrs : Forall (λ s, s ≠ ""%string) (ipv4s addrs) → ipv4s addrs ≠ [] → filterIPs addrs ≠ ""%string.
Proof.
  intros Hne He. unfold filterIPs. destruct (filterIPs_from_spec "" addrs Hne) as [[? _]|(pre & ip & post & Hl & -> & _)]; [done|].
  rewrite Hl in Hne. apply Forall_app in Hne as [_ Hne]. by apply Forall_cons in Hne as [? _].
Qed.

Lemma firstAddress_loop_spec names ip0 :
  Forall (λ s, s ≠ ""%string) (addresses names) → (ip0 = ""%string ∨ is_apipa ip0 = true) →
  match firstAddress_loop names ip0 with
  | Err _ => ip0 = ""%string ∧ addresses names = []
  | Ok ip =>
      (Forall (λ s, is_apipa s = true) (addresses names) ∧ is_apipa ip = true ∧ (ip = ip0 ∨ ip ∈ addresses names)) ∨
      (is_apipa ip = false ∧ ∃ pre post, addresses names = pre ++ ip :: post ∧ Forall (λ s, is_apipa s = true) pre)
  end.
Proof.
  revert ip0. induction names as [|n names IH]; intros ip0 Hne H0; simpl.
  { case_bool_decide; [done|]. left. split; [constructor|]. naive_solver. }
  change (addresses (n :: names)) with ((match InterfaceByName n with Some (Some addrs) => ipv4s addrs | _ => [] end) ++ addresses names) in *.
  apply Forall_app in Hne as [Hn Hne]. destruct (InterfaceByName n) as [[addrs|]|]; simpl; [|by apply IH..].
  case_bool_decide as Hl; [apply length_zero_iff_nil in Hl as ->; by apply IH|].
  destruct (filterIPs_from_spec "" addrs Hn) as [[He Hf]|(pre & ip & post & He & Hf & Hpre & Hpost)].
  - unfold filterIPs. rewrite Hf, He. cbn [app].
    rewrite (bool_decide_eq_false_2 (""%string ≠ _)) by (intros Hx; by apply Hx).
    assert (is_apipa ip0 || bool_decide (ip0 = ""%string) = true) as ->; [|by apply IH].
    destruct H0 as [-> | ->]; [by rewrite bool_decide_eq_true_2, orb_true_r|done].
  - assert (ip ≠ ""%string) as Hip by (rewrite He in Hn; apply Forall_app in Hn as [_ Hn]; by apply Forall_cons in Hn as [? _]).
    unfold filterIPs. rewrite Hf, (bool_decide_eq_true_2 (ip ≠ _)), (bool_decide_eq_false_2 (ip = _)), orb_false_r by done.
    destruct (is_apipa ip) eqn:Ha.
    + rewrite Hpost in He by done. specialize (IH ip Hne (or_intror Ha)). rewrite He. destruct (firstAddress_loop names ip) as [ip'|e].
      * destruct IH as [(Hall & Ha' & Hin)|(Ha' & pre' & post' & Heq & Hpre')]; [left|right].
        -- split; [apply Forall_app; split; [|done]; apply Forall_app; split; [done|by apply Forall_singleton]|]. split; [done|]. right.
           rewrite !elem_of_app, list_elem_of_singleton. destruct Hin as [->|]; auto.
        -- split; [done|]. exists ((pre ++ [ip]) ++ pre'), post'. rewrite Heq. split; [by rewrite <- !app_assoc|].
           apply Forall_app; split; [|done]. apply Forall_app; split; [done|by apply Forall_singleton].
      * by destruct IH as [-> _].
    + right. split; [done|]. exists pre, (post ++ addresses names). rewrite He. split; [by rewrite <- app_assoc|done].
Qed.

(** [getFirstAddressOf] returns the first IPv4 address that is not automatic, over
    the interfaces in their order; an automatic one only when there is no other;
    and fails only when there is none at all. *)
Lemma getFirstAddressOf_spec names : Forall (λ s, s ≠ ""%string) (addresses names) →
  match getFirstAddressOf names with
  | Err _ => addresses names = []
  | Ok ip =>
      (Forall (λ s, is_apipa s = true) (addresses names) ∧ ip ∈ addresses names) ∨
      (is_apipa ip = false ∧ ∃ pre post, addresses names = pre ++ ip :: post ∧ Forall (λ s, is_apipa s = true) pre)
  end.
Proof.
  intros Hne. pose proof (firstAddress_loop_spec names "" Hne (or_introl eq_refl)) as Hs. unfold getFirstAddressOf.
  destruct (firstAddress_loop names "") as [ip|e]; [|by destruct Hs].
  destruct Hs as [(Hall & Ha & [->|Hin])|?]; [done|left; done|by right].
Qed.
End interfaces.

(** ** [WaitInstanceState] *)
(** in a turn: whether the context is done, what the ring answers, the draw of the
    backoff *)
Definition WaitInstanceState_cfg : BackoffConfig := mkBackoffConfig (100 * Millisecond) Second 0.
Fixpoint WaitInstanceState_loop (instanceID : string) (state : InstanceState) (turns : list (bool * subring * Z)) (b : Backoff)
    : option (option backoff_error) :=
  match turns with
  | [] => None
  | (ctx_done, r, draw) :: turns =>
      if negb (Ongoing ctx_done b) then Some (BackoffErr ctx_done b)
      else
        let '(actualState, err) := GetInstanceState r instanceID in
        if bool_decide (err = None) && bool_decide (actualState = state) then Some None
        else '(_, b) ← Wait ctx_done draw b; WaitInstanceState_loop instanceID state turns b
  end.
Definition WaitInstanceState (instanceID : string) (state : InstanceState) (turns : list (bool * subring * Z)) : option (option backoff_error) :=
  WaitInstanceState_loop instanceID state turns (NewBackoff WaitInstanceState_cfg).

(** ** [waitStability] *)
Section stability.
Variable isChanged : ReplicationSet → ReplicationSet → bool.
(** what the loop selects: the context is done, or a tick, with the set that is read
    (the empty one on an error) and the time *)
Inductive poll := PollDone | PollTick (currRingState : ReplicationSet) (now : Z).
Inductive wait_result := WaitOk | WaitCtxErr.
Fixpoint waitStability_loop (minStability : Z) (polls : list poll) (ringLastState : ReplicationSet) (ringLastStateTs : Z) : option wait_result :=
  match polls with
  | [] => None
  | PollDone :: _ => Some WaitCtxErr
  | PollTick currRingState now :: polls =>
      if isChanged ringLastState currRingState then waitStability_loop minStability polls currRingState now
      else if bool_decide (minStability ≤ time_Sub now ringLastStateTs) then Some WaitOk
      else waitStability_loop minStability polls ringLastState ringLastStateTs
  end.

(** When it succeeds, the set has not changed over the last polls, from the reading
    of a reference to the last one, [minStability] later. *)
Lemma waitStability_stable minStability polls s0 t0 : waitStability_loop minStability polls s0 t0 = Some WaitOk →
  ∃ ref tref pre same last rest now,
    (pre = [] ∧ ref = s0 ∧ tref = t0 ∨ ∃ pre', pre = pre' ++ [PollTick ref tref]) ∧
    polls = pre ++ same ++ PollTick last now :: rest ∧
    Forall (λ p, match p with PollTick s _ => isChanged ref s = false | PollDone => False end) same ∧
    isChanged ref last = false ∧ minStability ≤ time_Sub now tref.
Proof.
  revert s0 t0. induction polls as [|[|s now] polls IH]; intros s0 t0; simpl; [done|done|].
  destruct (isChanged s0 s) eqn:Hch.
  - intros H. destruct (IH _ _ H) as (ref & tref & pre & same & last & rest & now' & Href & -> & Hs & Hl & Ht).
    exists ref, tref, (PollTick s now :: pre), same, last, rest, now'. split_and!; try done. right.
    destruct Href as [(-> & -> & ->)|[pre' ->]]; [by exists []|by exists (PollTick s now :: pre')].
  - case_bool_decide as Hst.
    + intros _. exists s0, t0, [], [], s, polls, now. split_and!; try done; auto.
    + intros H. destruct (IH _ _ H) as (ref & tref & pre & same & last & rest & now' & Href & -> & Hs & Hl & Ht).
      destruct Href as [(-> & -> & ->)|[pre' ->]].
      * exists s0, t0, [], (PollTick s now :: same), last, rest, now'. split_and!; try done; [by left|by constructor].
      * exists ref, tref, ((PollTick s now :: pre') ++ [PollTick ref tref]), same, last, rest, now'.
        split_and!; try done. right. by exists (PollTick s now :: pre').
Qed.
End stability.

Section ring.
Context `{!MapRange}.
Definition WaitRingStability (minStability : Z) (polls : list poll) (s0 : ReplicationSet) (t0 : Z) : option wait_result :=
  waitStability_loop HasReplicationSetChanged minStability polls s0 t0.
Definition WaitRingTokensStability (minStability : Z) (polls : list poll) (s0 : ReplicationSet) (t0 : Z) : option wait_result :=
  waitStability_loop HasReplicationSetChangedWithoutState minStability polls s0 t0.
End ring.

(** [WaitInstanceState] returns [nil] only when the ring has shown the instance in
    the state, and an error only when the context is done. *)
Lemma WaitInstanceState_spec id state turns r : WaitInstanceState id state turns = Some r →
  ∃ b ring draw, (b, ring, draw) ∈ turns ∧
    match r with
    | None => GetInstanceState ring id = (state, None)
    | Some e => b = true ∧ e = ErrContext
    end.
Proof.
  unfold WaitInstanceState.
  assert (MaxRetries (backoff_cfg (NewBackoff WaitInstanceState_cfg)) = 0) as Hm by done. revert Hm.
  generalize (NewBackoff WaitInstanceState_cfg) as b. induction turns as [|[[d ring] draw] turns IH]; intros b Hm; simpl; [done|].
  assert (Ongoing d b = negb d) as -> by (unfold Ongoing; rewrite Hm; by destruct d).
  destruct d; simpl; [intros [= <-]; exists true, ring, draw; split; [by left|done]|].
  destruct (GetInstanceState ring id) as [st err] eqn:Hg. destruct (bool_decide (err = None) && bool_decide (st = state)) eqn:Hb.
  - apply andb_true_iff in Hb as [->%bool_decide_eq_true ->%bool_decide_eq_true]. intros [= <-]. exists false, ring, draw. split; [by left|done].
  - destruct (Wait false draw b) as [[t b']|] eqn:Hw; [|done]. simpl. intros Hr. destruct (IH b') as (x & y & z & Hin & Hres); [|done|].
    + unfold Wait, NextDelay in Hw. simpl in Hw. repeat (case_bool_decide; simpl in Hw); try (injection Hw as <- <-; done).
      all: destruct (Int63n _ _); simpl in Hw; try done; injection Hw as <- <-; done.
    + exists x, y, z. split; [by right|done].
Qed.
