(* ===== verification/Pool.v ===== *)
(** * The pool of clients: [ring/client/pool.go], [ring/client/ring_service_discovery.go]

    A [Pool] caches one client per address.  Each method takes the lock for one
    step; [GetClientFor] and the two passes of the maintenance loop release it in
    between, and are threads of an interleaving.  Clients are numbered in the
    order in which the factory makes them. *)
From Stdlib Require Import ZArith Lia.
From stdpp Require Import base gmap strings list sorting fin_maps relations.
From S2P Require Import Prelude Model Ring.

(** the clients cached by address; the address of every client the factory has
    made; the clients on which [Close] has been called *)
Record Pool := mkPool {
  clients : gmap string nat;
  made : list string;
  closed : list nat;
  clientsMetric : Z
}.
Definition NewPool : Pool := mkPool ∅ [] [] 0.

(** the answer to a health check *)
Inductive health_status := UNKNOWN | SERVING | NOT_SERVING | SERVICE_UNKNOWN.
#[export] Instance health_status_eq_dec : EqDecision health_status.
Proof. solve_decision. Defined.
Inductive health_error := ErrHealthCheck | ErrStatus (s : health_status).
Definition healthCheck (resp : option health_status) : option health_error :=
  match resp with
  | None => Some ErrHealthCheck
  | Some SERVING => None
  | Some s => Some (ErrStatus s)
  end.

Definition fromCache (addr : string) (p : Pool) : option nat := clients p !! addr.

(** the locked part of [GetClientFor]; [None]: the factory fails *)
Definition GetClientFor_locked (factory_ok : bool) (addr : string) (p : Pool) : option nat * Pool :=
  match clients p !! addr with
  | Some c => (Some c, p)
  | None =>
      if negb factory_ok then (None, p)
      else
        let c := length (made p) in
        (Some c, mkPool (<[addr := c]> (clients p)) (made p ++ [addr]) (closed p) (clientsMetric p + 1))
  end.
Definition RemoveClientFor (addr : string) (p : Pool) : Pool :=
  match clients p !! addr with
  | Some c => mkPool (delete addr (clients p)) (made p) (closed p ++ [c]) (clientsMetric p + -1)
  | None => p
  end.

Section pool.
Context `{R : MapRange}.

Definition RegisteredAddresses (p : Pool) : list string := (map_range 142 (clients p)).*1.
Definition Count (p : Pool) : nat := size (clients p).

(** ** The maintenance loop, alone *)
(** [discovery] is [None] when the pool has none; its answer is [None] on an error *)
Definition removeStaleClients (discovery : option (option (list string))) (p : Pool) : Pool :=
  match discovery with
  | None | Some None => p
  | Some (Some serviceAddrs) =>
      foldl (λ p addr, if StringsContain serviceAddrs addr then p else RemoveClientFor addr p) p (RegisteredAddresses p)
  end.
Definition cleanUnhealthy (check : nat → option health_status) (p : Pool) : Pool :=
  foldl (λ p addr,
    match fromCache addr p with
    | Some client =>
        match healthCheck (check client) with
        | Some _ => RemoveClientFor addr p
        | None => p
        end
    | None => p
    end) p (RegisteredAddresses p).
Definition iteration (HealthCheckEnabled : bool) (discovery : option (option (list string)))
    (check : nat → option health_status) (p : Pool) : Pool :=
  let p := removeStaleClients discovery p in
  if HealthCheckEnabled then cleanUnhealthy check p else p.

(** ** Threads *)
Inductive thread :=
| TGet (addr : string)                            (* calls [GetClientFor] *)
| TGetLocked (addr : string)                      (* missed, waits for the lock *)
| TGot (addr : string) (client : option nat)      (* has returned *)
| TRemove (addr : string)                         (* calls [RemoveClientFor] *)
| TStale (serviceAddrs : list string)             (* has the answer of the discovery *)
| TStaleLoop (serviceAddrs todo : list string)
| TClean
| TCleanLoop (todo : list string)
| TCheck (addr : string) (client : nat) (todo : list string)   (* waits for the health check *)
| TCleanRemove (addr : string) (todo : list string)
| TDone.

(** what a step reads of its environment *)
Record pool_env := mkPoolEnv { factory_ok : bool; check_resp : option health_status }.

Definition thread_step (e : pool_env) (t : thread) (p : Pool) : thread * Pool :=
  match t with
  | TGet addr =>
      match fromCache addr p with
      | Some c => (TGot addr (Some c), p)
      | None => (TGetLocked addr, p)
      end
  | TGetLocked addr => let '(r, p) := GetClientFor_locked (factory_ok e) addr p in (TGot addr r, p)
  | TGot _ _ | TDone => (t, p)
  | TRemove addr => (TDone, RemoveClientFor addr p)
  | TStale serviceAddrs => (TStaleLoop serviceAddrs (RegisteredAddresses p), p)
  | TStaleLoop _ [] => (TDone, p)
  | TStaleLoop serviceAddrs (addr :: todo) =>
      (TStaleLoop serviceAddrs todo, if StringsContain serviceAddrs addr then p else RemoveClientFor addr p)
  | TClean => (TCleanLoop (RegisteredAddresses p), p)
  | TCleanLoop [] => (TDone, p)
  | TCleanLoop (addr :: todo) =>
      match fromCache addr p with
      | Some c => (TCheck addr c todo, p)
      | None => (TCleanLoop todo, p)
      end
  | TCheck addr c todo =>
      match healthCheck (check_resp e) with
      | Some _ => (TCleanRemove addr todo, p)
      | None => (TCleanLoop todo, p)
      end
  | TCleanRemove addr todo => (TCleanLoop todo, RemoveClientFor addr p)
  end.

(** any thread takes the next step; goroutines come and go *)
Inductive pool_step : list thread * Pool → list thread * Pool → Prop :=
| PoolThread i t t' e ts p p' :
    ts !! i = Some t → thread_step e t p = (t', p') → pool_step (ts, p) (<[i := t']> ts, p')
| PoolSpawn t ts p :
    (match t with TGet _ | TRemove _ | TStale _ | TClean => True | _ => False end) →
    pool_step (ts, p) (ts ++ [t], p).

(** ** [NewRingServiceDiscovery] *)
(** [None]: an error *)
Definition RingServiceDiscovery (r : subring) (now : Z) : option (list string) :=
  match GetAllHealthy r Reporting now with
  | Err ErrEmptyRing => Some []
  | Err _ => None
  | Ok replicationSet => Some (foldl (λ addrs instance, addrs ++ [Addr instance]) [] (Instances replicationSet))
  end.
End pool.

(** ** The pool neither leaks clients nor closes them twice

    The invariant of the interleaved callers of a [Pool], and what a pass of the
    maintenance loop keeps. *)
Section facts.
Context `{R : MapRange}.
Implicit Types p : Pool.

Record pool_ok p : Prop := {
  po_clients : ∀ a c, clients p !! a = Some c → made p !! c = Some a ∧ c ∉ closed p;
  po_all : ∀ a c, made p !! c = Some a → clients p !! a = Some c ∨ c ∈ closed p;
  po_closed_NoDup : NoDup (closed p);
  po_closed : ∀ c, c ∈ closed p → is_Some (made p !! c);
  po_metric : clientsMetric p = Z.of_nat (size (clients p))
}.

Lemma NewPool_ok : pool_ok NewPool.
Proof. constructor; [done|done|constructor|intros c Hc; by apply elem_of_nil in Hc|done]. Qed.

Lemma GetClientFor_ok ok addr p : pool_ok p → pool_ok (GetClientFor_locked ok addr p).2.
Proof.
  intros [H1 H2 H3 H4 H5]. unfold GetClientFor_locked. destruct (clients p !! addr) as [c|] eqn:Hc; [done|].
  destruct ok; [|done]. simpl. set (c := length (made p)).
  assert (c ∉ closed p) as Hnew.
  { intros Hin%H4. apply lookup_lt_is_Some in Hin. unfold c in Hin. lia. }
  assert (∀ a c', made p !! c' = Some a → c' ≠ c) as Hne.
  { intros a c' Hm ->. apply lookup_lt_Some in Hm. unfold c in Hm. lia. }
  constructor; simpl; [| |done| |].
  - intros a c' [[<- <-]|[Hna Hl]]%lookup_insert_Some; [split; [by apply list_lookup_middle|done]|].
    destruct (H1 _ _ Hl) as [Hm Hcl]. split; [by apply lookup_app_l_Some|done].
  - intros a c' [Hm|[Hge Hm]]%lookup_app_Some.
    + destruct (H2 _ _ Hm) as [Hl|Hl]; [left|by right]. rewrite lookup_insert_ne; [done|congruence].
    + apply list_lookup_singleton_Some in Hm as [He <-]. left. rewrite lookup_insert_eq. f_equal. unfold c. lia.
  - intros c' [a Hm]%H4. exists a. by apply lookup_app_l_Some.
  - rewrite map_size_insert_None by done. lia.
Qed.

Lemma RemoveClientFor_ok addr p : pool_ok p → pool_ok (RemoveClientFor addr p).
Proof.
  intros [H1 H2 H3 H4 H5]. unfold RemoveClientFor. destruct (clients p !! addr) as [c|] eqn:Hc; [|done].
  destruct (H1 _ _ Hc) as [Hm Hcl]. constructor; simpl.
  - intros a c' [Hna Hl]%lookup_delete_Some. destruct (H1 _ _ Hl) as [Hm' Hcl']. split; [done|].
    rewrite not_elem_of_app, list_elem_of_singleton. split; [done|]. intros ->. congruence.
  - intros a c' Hm'. rewrite elem_of_app, list_elem_of_singleton. destruct (decide (c' = c)) as [->|]; [auto|].
    destruct (H2 _ _ Hm') as [Hl|Hl]; [|auto]. left. rewrite lookup_delete_ne; [done|congruence].
  - apply NoDup_app. split; [done|]. split; [|apply NoDup_singleton]. intros c' Hc' ->%list_elem_of_singleton. done.
  - intros c' [Hin| ->%list_elem_of_singleton]%elem_of_app; [by apply H4|by exists addr].
  - rewrite map_size_delete_Some by eauto. assert (size (clients p) ≠ 0%nat); [|lia].
    intros He%map_size_empty_iff. by rewrite He in Hc.
Qed.

(** what a thread remembers stays true: no client is ever made again *)
Definition thread_ok (t : thread) p : Prop :=
  match t with
  | TGot addr (Some c) | TCheck addr c _ => made p !! c = Some addr
  | _ => True
  end.

Lemma thread_step_ok e t p t' p' : pool_ok p → thread_ok t p → thread_step e t p = (t', p') →
  pool_ok p' ∧ thread_ok t' p' ∧ made p `prefix_of` made p'.
Proof.
  intros Hp Ht. pose proof (λ a, RemoveClientFor_ok a p Hp) as Hrem.
  assert (∀ a, made (RemoveClientFor a p) = made p) as Hmade by (intros a; unfold RemoveClientFor; by case_match).
  destruct t as [a|a|a r|a|sa|sa [|a todo]| |[|a todo]|a c todo|a todo|]; simpl.
  - unfold fromCache. destruct (clients p !! a) as [c|] eqn:Hc; intros [= <- <-]; split_and!; try done.
    by apply (po_clients _ Hp).
  - pose proof (GetClientFor_ok (factory_ok e) a p Hp) as Hg. revert Hg. unfold GetClientFor_locked.
    destruct (clients p !! a) as [c|] eqn:Hc; [|destruct (factory_ok e)]; simpl; intros Hg [= <- <-]; split_and!; try done.
    + by apply (po_clients _ Hp).
    + simpl. by apply list_lookup_middle.
    + simpl. by apply prefix_app_r.
  - intros [= <- <-]. done.
  - intros [= <- <-]. split_and!; [done|done|by rewrite Hmade].
  - intros [= <- <-]. done.
  - intros [= <- <-]. done.
  - destruct (StringsContain sa a); intros [= <- <-]; split_and!; try done. by rewrite Hmade.
  - intros [= <- <-]. done.
  - intros [= <- <-]. done.
  - unfold fromCache. destruct (clients p !! a) as [c|] eqn:Hc; intros [= <- <-]; split_and!; try done.
    by apply (po_clients _ Hp).
  - destruct (healthCheck (check_resp e)); intros [= <- <-]; done.
  - intros [= <- <-]. split_and!; [done|done|by rewrite Hmade].
  - intros [= <- <-]. done.
Qed.

Lemma thread_ok_mono t p p' : made p `prefix_of` made p' → thread_ok t p → thread_ok t p'.
Proof. intros Hm. destruct t as [| |a [c|]| | | | | |a c| |]; simpl; try done; intros Hl; by eapply prefix_lookup_Some. Qed.

Definition system_ok (s : list thread * Pool) : Prop := pool_ok s.2 ∧ Forall (λ t, thread_ok t s.2) s.1.

Lemma pool_step_ok s s' : pool_step s s' → system_ok s → system_ok s'.
Proof.
  intros [i t t' e ts p p' Hi Hs|t ts p Ht] [Hp Hts]; simpl in *.
  - assert (thread_ok t p) as Ht by (eapply Forall_lookup_1 in Hts; [exact Hts|done]).
    destruct (thread_step_ok _ _ _ _ _ Hp Ht Hs) as (Hp' & Ht' & Hm). split; [done|]. simpl.
    apply Forall_insert; [|done]. eapply Forall_impl; [exact Hts|]. simpl. intros t0. by apply thread_ok_mono.
  - split; [done|]. simpl. apply Forall_app. split; [done|]. constructor; [by destruct t|constructor].
Qed.
Lemma pool_steps_ok s s' : rtc pool_step s s' → system_ok s → system_ok s'.
Proof. induction 1; eauto using pool_step_ok. Qed.

(** C35. However callers of a pool and its maintenance loop interleave, every client
    the factory has made is either cached under the address it was made for, and
    open, or has been closed, exactly once; the metric counts the cached clients; a
    caller is given a client made for the address it asked for, and two callers
    are given the same one as long as neither has been closed. *)
Theorem pool_lifecycle (ts : list thread) (p : Pool) :
  rtc pool_step ([], NewPool) (ts, p) →
  (∀ addr c, made p !! c = Some addr →
    (clients p !! addr = Some c ∧ c ∉ closed p) ∨ (clients p !! addr ≠ Some c ∧ c ∈ closed p)) ∧
  NoDup (closed p) ∧ clientsMetric p = Z.of_nat (Count p) ∧
  (∀ addr c, TGot addr (Some c) ∈ ts → made p !! c = Some addr) ∧
  (∀ addr c1 c2, TGot addr (Some c1) ∈ ts → TGot addr (Some c2) ∈ ts → c1 ∉ closed p → c2 ∉ closed p → c1 = c2).
Proof.
  intros Hr. destruct (pool_steps_ok _ _ Hr) as [Hp Hts]; [split; [apply NewPool_ok|constructor]|]. simpl in *.
  assert (∀ addr c, TGot addr (Some c) ∈ ts → made p !! c = Some addr) as Hgot.
  { intros addr c Hin. rewrite Forall_forall in Hts. by apply Hts in Hin. }
  split_and!; [|apply Hp|apply Hp|done|].
  - intros addr c Hm. destruct (po_all _ Hp _ _ Hm) as [Hl|Hl]; [left|right].
    + split; [done|]. by apply (po_clients _ Hp) in Hl as [_ ?].
    + split; [|done]. intros Hcl. by apply (po_clients _ Hp) in Hcl as [_ []].
  - intros addr c1 c2 H1%Hgot H2%Hgot Hc1 Hc2. destruct (po_all _ Hp _ _ H1) as [|]; [|done].
    destruct (po_all _ Hp _ _ H2) as [|]; [|done]. congruence.
Qed.

(** ** A pass of the maintenance loop *)
Lemma RemoveClientFor_lookup addr p a : clients (RemoveClientFor addr p) !! a = if decide (a = addr) then None else clients p !! a.
Proof.
  unfold RemoveClientFor. destruct (clients p !! addr) as [c|] eqn:Hc; simpl.
  - case_decide as Ha; [subst; apply lookup_delete_eq|by apply lookup_delete_ne].
  - case_decide; congruence.
Qed.
Lemma RegisteredAddresses_elem p a : a ∈ RegisteredAddresses p ↔ is_Some (clients p !! a).
Proof.
  unfold RegisteredAddresses. rewrite list_elem_of_fmap. split.
  - intros ([a' c] & -> & Hin%map_range_elem). by exists c.
  - intros [c Hc]. exists (a, c). split; [done|]. by apply map_range_elem.
Qed.

Lemma foldl_removes (keep : string → option nat → bool) addrs p a :
  NoDup addrs →
  clients (foldl (λ p addr, if keep addr (clients p !! addr) then p else RemoveClientFor addr p) p addrs) !! a
    = if decide (a ∈ addrs) then (if keep a (clients p !! a) then clients p !! a else None) else clients p !! a.
Proof.
  revert p. induction addrs as [|b addrs IH]; intros p Hnd; simpl; [done|].
  apply NoDup_cons in Hnd as [Hb Hnd]. rewrite IH by done.
  set (p' := if keep b (clients p !! b) then p else RemoveClientFor b p).
  assert (a ≠ b → clients p' !! a = clients p !! a) as Hne.
  { intros. unfold p'. destruct (keep b _); [done|]. rewrite RemoveClientFor_lookup. by rewrite decide_False. }
  destruct (decide (a = b)) as [->|Hab].
  - rewrite decide_False by done. rewrite decide_True by (by left). unfold p'. destruct (keep b _); [done|].
    rewrite RemoveClientFor_lookup. by rewrite decide_True.
  - rewrite Hne by done. destruct (decide (a ∈ addrs)); [by rewrite decide_True by (by right)|].
    rewrite decide_False; [done|]. by intros [|]%elem_of_cons.
Qed.

Lemma RegisteredAddresses_NoDup p : NoDup (RegisteredAddresses p).
Proof. apply map_range_NoDup_fst. Qed.

(** Run on its own, the loop keeps exactly the clients of the addresses discovered
    that are healthy, and all of them when the discovery fails. *)
Lemma iteration_keeps (enabled : bool) (discovery : option (option (list string))) (check : nat → option health_status) p a c :
  clients (iteration enabled discovery check p) !! a = Some c ↔
  clients p !! a = Some c ∧
  (∀ addrs, discovery = Some (Some addrs) → StringsContain addrs a = true) ∧
  (enabled = true → check c = Some SERVING).
Proof.
  assert (∀ p, clients (removeStaleClients discovery p) !! a = Some c ↔
    clients p !! a = Some c ∧ (∀ addrs, discovery = Some (Some addrs) → StringsContain addrs a = true)) as Hstale.
  { intros q. unfold removeStaleClients. destruct discovery as [[addrs|]|]; [|naive_solver..].
    pose proof (foldl_removes (λ addr _, StringsContain addrs addr) (RegisteredAddresses q) q a (RegisteredAddresses_NoDup q)) as ->.
    case_decide as Hin; rewrite RegisteredAddresses_elem in Hin.
    - destruct (StringsContain addrs a) eqn:Hs; [naive_solver|]. split; [done|]. intros [_ Hall]. specialize (Hall _ eq_refl). congruence.
    - split; [intros Hc; contradict Hin; eauto|]. intros [Hc _]. contradict Hin. eauto. }
  assert (∀ p, clients (cleanUnhealthy check p) !! a = Some c ↔ clients p !! a = Some c ∧ check c = Some SERVING) as Hclean.
  { intros q. unfold cleanUnhealthy.
    assert (∀ l q, foldl (λ p addr, match fromCache addr p with
        | Some client => match healthCheck (check client) with Some _ => RemoveClientFor addr p | None => p end
        | None => p end) q l
      = foldl (λ p addr, if (match clients p !! addr with Some c => bool_decide (check c = Some SERVING) | None => true end)
          then p else RemoveClientFor addr p) q l) as ->.
    { induction l as [|b l IH]; intros q'; simpl; [done|]. rewrite IH. f_equal. unfold fromCache.
      destruct (clients q' !! b) as [c'|]; [|done]. by destruct (check c') as [[]|]. }
    pose proof (foldl_removes (λ _ co, match co with Some c => bool_decide (check c = Some SERVING) | None => true end)
      (RegisteredAddresses q) q a (RegisteredAddresses_NoDup q)) as ->.
    case_decide as Hin; rewrite RegisteredAddresses_elem in Hin.
    - destruct Hin as [c' Hc']. rewrite Hc'. case_bool_decide; naive_solver.
    - split; [intros Hc; contradict Hin; eauto|]. intros [Hc _]. contradict Hin. eauto. }
  unfold iteration. destruct enabled; [rewrite Hclean, Hstale; naive_solver|rewrite Hstale; naive_solver].
Qed.
End facts.

(** ** Witness and a race *)
Section witnesses.
#[local] Existing Instance map_range_std.
Definition ex_env : pool_env := mkPoolEnv true (Some NOT_SERVING).
Definition run_threads (sched : list nat) (s : list thread * Pool) : list thread * Pool :=
  foldl (λ s i, match s.1 !! i with
    | Some t => let '(t', p') := thread_step ex_env t s.2 in (<[i := t']> s.1, p')
    | None => s end) s sched.
Lemma run_threads_steps sched s : rtc pool_step s (run_threads sched s).
Proof.
  revert s. induction sched as [|i sched IH]; intros [ts p]; simpl; [constructor|].
  destruct (ts !! i) as [t|] eqn:Hi; [|apply IH]. destruct (thread_step ex_env t p) as [t' p'] eqn:Hs.
  eapply rtc_l; [by eapply PoolThread|apply IH].
Qed.
Lemma spawn_threads l ts p : forallb (λ t, match t with TGet _ | TRemove _ | TStale _ | TClean => true | _ => false end) l = true →
  rtc pool_step (ts, p) (ts ++ l, p).
Proof.
  revert ts. induction l as [|t l IH]; intros ts Hl; [rewrite app_nil_r; constructor|]. simpl in Hl. apply andb_true_iff in Hl as [Ht Hl].
  eapply rtc_l; [apply (PoolSpawn t); by destruct t|]. replace (ts ++ t :: l) with ((ts ++ [t]) ++ l) by (by rewrite <- app_assoc). by apply IH.
Qed.

(** two callers race for the same address *)
Definition ex_race : list thread * Pool := run_threads [0; 1; 0; 1]%nat ([TGet "a"; TGet "a"], NewPool).
Lemma ex_race_steps : rtc pool_step ([], NewPool) ex_race.
Proof. etrans; [apply (spawn_threads [TGet "a"; TGet "a"] []); reflexivity|]. apply run_threads_steps. Qed.
Lemma pool_lifecycle_witness : ex_race.1 = [TGot "a" (Some 0%nat); TGot "a" (Some 0%nat)] ∧ clientsMetric ex_race.2 = Z.of_nat (Count ex_race.2).
Proof.
  split; [vm_compute; reflexivity|].
  apply (pool_lifecycle ex_race.1 ex_race.2). replace (ex_race.1, ex_race.2) with ex_race by (by destruct ex_race). apply ex_race_steps.
Defined.

(** While a health check of a client is under way the client is removed and replaced
    by another one; the check fails, and the new client, which nobody has checked,
    is removed and closed. *)
Lemma cleanUnhealthy_race : ∃ s,
  rtc pool_step ([], NewPool) s ∧ s.1 = [TDone; TGot "a" (Some 0%nat); TDone; TGot "a" (Some 1%nat)] ∧ closed s.2 = [0; 1]%nat.
Proof.
  exists (run_threads [1; 1; 0; 0; 2; 3; 3; 0; 0; 0]%nat ([TClean; TGet "a"; TRemove "a"; TGet "a"], NewPool)).
  split; [|vm_compute; split; reflexivity].
  etrans; [apply (spawn_threads [TClean; TGet "a"; TRemove "a"; TGet "a"] []); reflexivity|]. apply run_threads_steps.
Qed.
End witnesses.
