(* ===== verification/RuntimeConfig.v ===== *)
(** * The runtime configuration: [runtimeconfig/manager.go]

    A [Manager] reloads a file from time to time and sends the configurations to
    the channels of its listeners.  The three functions of the service run one
    after the other ([manager_step]); other goroutines create and close listener
    channels and receive from them.  [loadConfig] takes the two locks one after
    the other, and is split there.  The loader and SHA-256 are parameters; a step
    that would send on a closed channel or close one again is [None]. *)
From Stdlib Require Import ZArith Lia.
From stdpp Require Import base gmap strings list.
From S2P Require Import Prelude TokensFile.

Section manager.
Context {V : Type}.
Variable Loader : bytes → option V.        (* [None]: an error *)
Variable sha256_Sum : bytes → bytes.

(** a channel: what is in its buffer, how many receivers wait, and what receivers
    have been given so far *)
Record rchan := mkChan {
  ch_cap : nat;
  ch_buf : list V;
  ch_waiting : nat;
  ch_received : list V;
  ch_closed : bool
}.
(** [select { case ch <- v: default: }] *)
Definition offer_value (v : V) (ch : rchan) : option rchan :=
  if ch_closed ch then None
  else Some
    match ch_waiting ch with
    | S w => mkChan (ch_cap ch) (ch_buf ch) w (ch_received ch ++ [v]) (ch_closed ch)
    | O =>
        if bool_decide (length (ch_buf ch) < ch_cap ch)%nat
        then mkChan (ch_cap ch) (ch_buf ch ++ [v]) 0 (ch_received ch) (ch_closed ch)
        else ch
    end.
Definition close_chan (ch : rchan) : option rchan :=
  if ch_closed ch then None else Some (mkChan (ch_cap ch) (ch_buf ch) 0 (ch_received ch) true).
(** a receiver: takes a value, or is told that the channel is closed, or waits *)
Definition receive_value (ch : rchan) : rchan :=
  match ch_buf ch with
  | v :: rest => mkChan (ch_cap ch) rest (ch_waiting ch) (ch_received ch ++ [v]) (ch_closed ch)
  | [] => if ch_closed ch then ch else mkChan (ch_cap ch) [] (S (ch_waiting ch)) (ch_received ch) (ch_closed ch)
  end.
(** a receiver that waits gives up *)
Definition stop_waiting (ch : rchan) : rchan :=
  mkChan (ch_cap ch) (ch_buf ch) (pred (ch_waiting ch)) (ch_received ch) (ch_closed ch).

(** [listeners] holds the channels to notify; [chans] every channel created *)
Record Manager := mkManager {
  LoadPath : string;
  config : option V;
  listeners : list nat;
  chans : list rchan;
  configLoadSuccess : bool;
  configHash : option bytes
}.
Definition upd_chan (ix : nat) (f : rchan → option rchan) (m : Manager) : option Manager :=
  ch ← chans m !! ix; ch' ← f ch;
  Some (mkManager (LoadPath m) (config m) (listeners m) (<[ix := ch']> (chans m)) (configLoadSuccess m) (configHash m)).

(** [New]; [None]: an error *)
Definition New (path : string) : option Manager :=
  if bool_decide (path = ""%string) then None else Some (mkManager path None [] [] false None).

(** ** Listeners *)
Definition CreateListenerChannel (buffer : nat) (m : Manager) : nat * Manager :=
  let ix := length (chans m) in
  (ix, mkManager (LoadPath m) (config m) (listeners m ++ [ix]) (chans m ++ [mkChan buffer [] 0 [] false])
         (configLoadSuccess m) (configHash m)).
Fixpoint remove_listener (x : nat) (l : list nat) : list nat :=
  match l with [] => [] | y :: l => if bool_decide (y = x) then l else y :: remove_listener x l end.
Definition CloseListenerChannel (listener : nat) (m : Manager) : option Manager :=
  if bool_decide (listener ∈ listeners m) then
    let m := mkManager (LoadPath m) (config m) (remove_listener listener (listeners m)) (chans m) (configLoadSuccess m) (configHash m) in
    upd_chan listener close_chan m
  else Some m.
Fixpoint for_listeners (f : rchan → option rchan) (ixs : list nat) (m : Manager) : option Manager :=
  match ixs with
  | [] => Some m
  | ix :: ixs => m ← upd_chan ix f m; for_listeners f ixs m
  end.
Definition callListeners (newValue : V) (m : Manager) : option Manager := for_listeners (offer_value newValue) (listeners m) m.
Definition stopping (m : Manager) : option Manager :=
  m ← for_listeners close_chan (listeners m) m;
  Some (mkManager (LoadPath m) (config m) [] (chans m) (configLoadSuccess m) (configHash m)).

(** ** Loading *)
Definition setConfig (cfg : V) (m : Manager) : Manager :=
  mkManager (LoadPath m) (Some cfg) (listeners m) (chans m) (configLoadSuccess m) (configHash m).
Definition GetConfig (m : Manager) : option V := config m.
Definition set_success (b : bool) (m : Manager) : Manager :=
  mkManager (LoadPath m) (config m) (listeners m) (chans m) b (configHash m).
Definition set_hash (h : bytes) (m : Manager) : Manager :=
  mkManager (LoadPath m) (config m) (listeners m) (chans m) (configLoadSuccess m) (Some h).
Inductive load_error := ErrReadFile | ErrLoadFile.
(** [loadConfig] up to the notification of the listeners; [file] is what
    [os.ReadFile] returns *)
Definition load_part1 (file : option bytes) (m : Manager) : result load_error (V * bytes) * Manager :=
  match file with
  | None => (Err ErrReadFile, set_success false m)
  | Some buf =>
      let hash := sha256_Sum buf in
      match Loader buf with
      | None => (Err ErrLoadFile, set_success false m)
      | Some cfg =>
          let m := set_success true m in
          let m := setConfig cfg m in
          (Ok (cfg, hash), m)
      end
  end.
Definition load_part2 (cfg : V) (hash : bytes) (m : Manager) : option Manager :=
  m ← callListeners cfg m; Some (set_hash hash m).
(** the whole of it, when nothing comes in between *)
Definition loadConfig (file : option bytes) (m : Manager) : option (option load_error * Manager) :=
  match load_part1 file m with
  | (Err e, m) => Some (Some e, m)
  | (Ok (cfg, hash), m) => m ← load_part2 cfg hash m; Some (None, m)
  end.

(** ** The service *)
Inductive main_pc :=
| PStarting
| PStartLoaded (cfg : V) (hash : bytes)
| PLoop
| PLoopLoaded (cfg : V) (hash : bytes)
| PStopping
| PTerminated
| PFailed (e : load_error).
(** what the loop selects on, with what is read from the file then *)
Inductive main_event := Tick (file : option bytes) | CtxDone.

Definition manager_step (ev : main_event) (pc : main_pc) (m : Manager) : option (main_pc * Manager) :=
  match pc with
  | PStarting =>
      if bool_decide (LoadPath m = ""%string) then Some (PLoop, m)
      else
        match ev with
        | Tick file =>
            match load_part1 file m with
            | (Err e, m) => Some (PFailed e, m)
            | (Ok (cfg, hash), m) => Some (PStartLoaded cfg hash, m)
            end
        | CtxDone => Some (PStarting, m)
        end
  | PStartLoaded cfg hash => m ← load_part2 cfg hash m; Some (PLoop, m)
  | PLoop =>
      match ev with
      | CtxDone => Some (PStopping, m)
      | Tick file =>
          if bool_decide (LoadPath m = ""%string) then Some (PLoop, m)
          else
            match load_part1 file m with
            | (Err e, m) => Some (PLoop, m)
            | (Ok (cfg, hash), m) => Some (PLoopLoaded cfg hash, m)
            end
      end
  | PLoopLoaded cfg hash => m ← load_part2 cfg hash m; Some (PLoop, m)
  | PStopping => m ← stopping m; Some (PTerminated, m)
  | PTerminated | PFailed _ => Some (pc, m)
  end.

(** ** Everything together *)
Inductive mgr_event :=
| EvMain (ev : main_event)
| EvCreate (buffer : nat)
| EvClose (ix : nat)
| EvReceive (ix : nat)
| EvGiveUp (ix : nat).
Definition mgr_step (ev : mgr_event) (s : main_pc * Manager) : option (main_pc * Manager) :=
  let '(pc, m) := s in
  match ev with
  | EvMain ev => manager_step ev pc m
  | EvCreate buffer => Some (pc, (CreateListenerChannel buffer m).2)
  | EvClose ix => m ← CloseListenerChannel ix m; Some (pc, m)
  | EvReceive ix => Some (pc, default m (upd_chan ix (λ ch, Some (receive_value ch)) m))
  | EvGiveUp ix => Some (pc, default m (upd_chan ix (λ ch, Some (stop_waiting ch)) m))
  end.
Fixpoint mgr_run (evs : list mgr_event) (s : main_pc * Manager) : option (main_pc * Manager) :=
  match evs with [] => Some s | ev :: evs => s ← mgr_step ev s; mgr_run evs s end.
End manager.

(** ** The runtime configuration manager is safe, and in order

    No interleaving sends on a closed channel or closes one twice; listeners
    receive_value configurations in the order in which they were loaded. *)
Section facts.
Context {V : Type}.
Variable Loader : bytes → option V.
Variable sha256_Sum : bytes → bytes.
Implicit Types (m : @Manager V) (ch : @rchan V).
Abbreviation step := (mgr_step Loader sha256_Sum).
Abbreviation run := (mgr_run Loader sha256_Sum).

(** ** Listeners *)
Lemma upd_chan_spec ix f m ch ch' : chans m !! ix = Some ch → f ch = Some ch' →
  upd_chan ix f m = Some (mkManager (LoadPath m) (config m) (listeners m) (<[ix := ch']> (chans m)) (configLoadSuccess m) (configHash m)).
Proof. intros Hc Hf. unfold upd_chan. rewrite Hc. simpl. by rewrite Hf. Qed.

Lemma for_listeners_spec f ixs m :
  NoDup ixs → (∀ ix, ix ∈ ixs → ∃ ch ch', chans m !! ix = Some ch ∧ f ch = Some ch') →
  ∃ cs, for_listeners f ixs m = Some (mkManager (LoadPath m) (config m) (listeners m) cs (configLoadSuccess m) (configHash m)) ∧
    length cs = length (chans m) ∧ ∀ ix, cs !! ix = if decide (ix ∈ ixs) then chans m !! ix ≫= f else chans m !! ix.
Proof.
  revert m. induction ixs as [|x ixs IH]; intros m Hnd Hf; simpl.
  { exists (chans m). split; [by destruct m|]. split; [done|]. done. }
  apply NoDup_cons in Hnd as [Hx Hnd]. destruct (Hf x) as (ch & ch' & Hc & Hfc); [by left|].
  rewrite (upd_chan_spec _ _ _ _ _ Hc Hfc). simpl.
  set (m1 := mkManager _ _ _ _ _ _). destruct (IH m1 Hnd) as (cs & -> & Hl & Hcs).
  { intros ix Hix. destruct (Hf ix) as (c & c' & H1 & H2); [by right|]. exists c, c'. split; [|done]. simpl.
    rewrite list_lookup_insert_ne; [done|congruence]. }
  exists cs. split; [done|]. split; [rewrite Hl; apply length_insert|]. intros ix. rewrite Hcs. simpl.
  destruct (decide (ix = x)) as [->|Hne].
  - rewrite decide_False by done. rewrite decide_True by (by left). rewrite Hc. simpl. rewrite Hfc.
    apply list_lookup_insert_eq. by apply lookup_lt_Some in Hc.
  - rewrite list_lookup_insert_ne by done. destruct (decide (ix ∈ ixs)); [by rewrite decide_True by (by right)|].
    rewrite decide_False; [done|]. by intros [|]%elem_of_cons.
Qed.

Lemma remove_listener_elem x y l : NoDup l → y ∈ remove_listener x l ↔ y ∈ l ∧ y ≠ x.
Proof.
  induction l as [|z l IH]; intros Hnd; simpl; [by split; [intros ?%elem_of_nil|intros [?%elem_of_nil _]]|].
  apply NoDup_cons in Hnd as [Hz Hnd]. case_bool_decide as Hzx; [subst z|]; rewrite ?elem_of_cons, ?IH by done; naive_solver.
Qed.
Lemma remove_listener_NoDup x l : NoDup l → NoDup (remove_listener x l).
Proof.
  induction l as [|z l IH]; simpl; [done|]. intros [Hz Hnd]%NoDup_cons. case_bool_decide; [done|].
  constructor; [|by apply IH]. rewrite remove_listener_elem by done. by intros [].
Qed.

(** ** The invariant *)
Definition content ch : list V := ch_received ch ++ ch_buf ch.
Record mgr_ok (told : list V) m : Prop := {
  mo_NoDup : NoDup (listeners m);
  mo_listed : ∀ ix, ix ∈ listeners m ↔ ∃ ch, chans m !! ix = Some ch ∧ ch_closed ch = false;
  mo_waiting : ∀ ix ch, chans m !! ix = Some ch → ch_waiting ch ≠ O → ch_buf ch = [];
  mo_told : ∀ ix ch, chans m !! ix = Some ch → content ch `sublist_of` told
}.

Lemma mgr_ok_ext told told' m m' : mgr_ok told m → told `sublist_of` told' →
  listeners m' = listeners m → chans m' = chans m → mgr_ok told' m'.
Proof. intros [H1 H2 H3 H4] Ht Hl Hc. constructor; rewrite ?Hl, ?Hc; try done. intros ix ch Hch. etrans; [by apply (H4 _ _ Hch)|done]. Qed.

Lemma offer_value_spec v ch : ch_closed ch = false → (ch_waiting ch ≠ O → ch_buf ch = []) →
  ∃ ch', offer_value v ch = Some ch' ∧ ch_closed ch' = false ∧ (ch_waiting ch' ≠ O → ch_buf ch' = []) ∧
    (content ch' = content ch ++ [v] ∨
     content ch' = content ch ∧ ch_waiting ch = O ∧ (ch_cap ch ≤ length (ch_buf ch))%nat).
Proof.
  intros Hc Hw. unfold offer_value. rewrite Hc. eexists. split; [done|]. unfold content.
  destruct (ch_waiting ch) as [|w] eqn:Hwait.
  - case_bool_decide; simpl; (split; [done|]); (split; [by rewrite ?Hwait|]); [left; by rewrite app_assoc|right; split_and!; [done|done|lia]].
  - simpl. rewrite Hw by done. rewrite !app_nil_r. auto.
Qed.

(** what notifying the listeners does: each one has the value appended to what it
    has been sent, unless nobody waits and its buffer is full *)
Lemma callListeners_spec v told m : mgr_ok told m →
  ∃ m', callListeners v m = Some m' ∧ mgr_ok (told ++ [v]) m' ∧ config m' = config m ∧ LoadPath m' = LoadPath m ∧
    listeners m' = listeners m ∧
    ∀ ix ch, ix ∈ listeners m → chans m !! ix = Some ch → (ch_waiting ch ≠ O ∨ length (ch_buf ch) < ch_cap ch)%nat →
      ∃ ch', chans m' !! ix = Some ch' ∧ content ch' = content ch ++ [v].
Proof.
  intros [H1 H2 H3 H4]. unfold callListeners.
  assert (∀ ix, ix ∈ listeners m → ∃ ch ch', chans m !! ix = Some ch ∧ offer_value v ch = Some ch' ∧ ch_closed ch' = false ∧
    (ch_waiting ch' ≠ O → ch_buf ch' = []) ∧ (content ch' = content ch ++ [v] ∨
     content ch' = content ch ∧ ch_waiting ch = O ∧ (ch_cap ch ≤ length (ch_buf ch))%nat)) as Hoff.
  { intros ix (ch & Hc & Hcl)%H2. destruct (offer_value_spec v ch Hcl) as (ch' & ?); [by apply (H3 _ _ Hc)|]. by exists ch, ch'. }
  destruct (for_listeners_spec (offer_value v) (listeners m) m H1) as (cs & -> & Hl & Hcs).
  { intros ix Hix. destruct (Hoff _ Hix) as (ch & ch' & ? & ? & _). eauto. }
  eexists. split; [done|]. simpl. split_and!; [|done..|].
  - constructor; simpl; [done| | |].
    + intros ix. rewrite H2, Hcs. case_decide as Hix; [|done].
      destruct (Hoff _ Hix) as (ch & ch' & Hc & Ho & Hcl & _). rewrite Hc. simpl. rewrite Ho. split; [eauto|].
      intros _. apply H2 in Hix. by rewrite Hc in Hix.
    + intros ix c. rewrite Hcs. case_decide as Hix; [|apply H3].
      destruct (Hoff _ Hix) as (ch & ch' & Hc & Ho & _ & Hw & _). rewrite Hc. simpl. rewrite Ho. by intros [= <-].
    + intros ix c. rewrite Hcs. case_decide as Hix; [|intros Hc; apply sublist_inserts_r; by apply (H4 _ _ Hc)].
      destruct (Hoff _ Hix) as (ch & ch' & Hc & Ho & _ & _ & Hd). rewrite Hc. simpl. rewrite Ho. intros [= <-].
      pose proof (H4 _ _ Hc). destruct Hd as [-> |[-> _]]; [by apply sublist_app|by apply sublist_inserts_r].
  - intros ix ch Hix Hc Hroom. rewrite Hcs, decide_True by done. destruct (Hoff _ Hix) as (ch0 & ch' & Hc0 & Ho & _ & _ & Hd).
    rewrite Hc in Hc0. injection Hc0 as <-. rewrite Hc. simpl. rewrite Ho. exists ch'. split; [done|]. destruct Hd as [|(_ & ? & ?)]; [done|lia].
Qed.

Lemma stopping_spec told m : mgr_ok told m →
  ∃ m', stopping m = Some m' ∧ mgr_ok told m' ∧ config m' = config m ∧ LoadPath m' = LoadPath m ∧
    ∀ ix ch, chans m' !! ix = Some ch → ch_closed ch = true.
Proof.
  intros [H1 H2 H3 H4]. unfold stopping.
  assert (∀ ix, ix ∈ listeners m → ∃ ch, chans m !! ix = Some ch ∧
    close_chan ch = Some (mkChan (ch_cap ch) (ch_buf ch) 0 (ch_received ch) true)) as Hcl.
  { intros ix (ch & Hc & Hn)%H2. exists ch. unfold close_chan. by rewrite Hn. }
  destruct (for_listeners_spec close_chan (listeners m) m H1) as (cs & -> & Hl & Hcs).
  { intros ix Hix. destruct (Hcl _ Hix) as (ch & ? & ?). eauto. }
  simpl. eexists. split; [done|].
  assert (∀ ix c, cs !! ix = Some c → ch_closed c = true ∧ ch_waiting c = O ∨ ch_closed c = true ∧ chans m !! ix = Some c) as Hall.
  { intros ix c. rewrite Hcs. case_decide as Hix.
    - destruct (Hcl _ Hix) as (ch & -> & Hcc). simpl. rewrite Hcc. intros [= <-]. by left.
    - intros Hc. right. split; [|done]. destruct (ch_closed c) eqn:Hcl'; [done|]. contradict Hix. apply H2. eauto. }
  split_and!; [|done..|].
  - constructor; simpl; [constructor| | |].
    + intros ix. split; [by intros ?%elem_of_nil|]. intros (c & [[? _]|[? _]]%Hall & ?); congruence.
    + intros ix c Hc Hw. destruct (Hall _ _ Hc) as [[_ ?]|[_ Hc']]; [done|by eapply H3].
    + intros ix c. rewrite Hcs. case_decide as Hix; [|apply H4].
      destruct (Hcl _ Hix) as (ch & Hc & Hcc). rewrite Hc. simpl. rewrite Hcc. intros [= <-]. by apply (H4 _ _ Hc).
  - simpl. intros ix c [[? _]|[? _]]%Hall; done.
Qed.

Lemma CloseListenerChannel_spec ix told m : mgr_ok told m →
  ∃ m', CloseListenerChannel ix m = Some m' ∧ mgr_ok told m' ∧ config m' = config m ∧ LoadPath m' = LoadPath m ∧
    (∀ ch, chans m' !! ix = Some ch → ch_closed ch = true).
Proof.
  intros Hok. destruct Hok as [H1 H2 H3 H4]. unfold CloseListenerChannel. case_bool_decide as Hix.
  - pose proof Hix as Hix'. apply H2 in Hix' as (ch & Hc & Hcl).
    pose proof (lookup_lt_Some _ _ _ Hc) as Hlt.
    erewrite upd_chan_spec; [|exact Hc|unfold close_chan; by rewrite Hcl]. simpl. eexists. split; [done|]. simpl.
    split_and!; [|done..|].
    + constructor; simpl; [by apply remove_listener_NoDup| | |].
      * intros y. rewrite remove_listener_elem, H2 by done. split.
        -- intros [(c & Hcy & Hclo) Hne]. exists c. by rewrite list_lookup_insert_ne.
        -- intros (c & [[<- [<- _]]|[Hne Hcy]]%list_lookup_insert_Some & Hclo); [done|]. split; [eauto|congruence].
      * intros y c [[<- [<- _]]|[Hne Hcy]]%list_lookup_insert_Some; [done|by eapply H3].
      * intros y c [[<- [<- _]]|[Hne Hcy]]%list_lookup_insert_Some; [exact (H4 _ _ Hc)|by eapply H4].
    + intros c. rewrite list_lookup_insert_eq by done. by intros [= <-].
  - exists m. split; [done|]. split; [done|]. split_and!; [done..|]. intros ch Hc.
    destruct (ch_closed ch) eqn:He; [done|]. contradict Hix. apply H2. eauto.
Qed.

Lemma upd_default_ok f ix told m : mgr_ok told m →
  (∀ ch, ch_closed (f ch) = ch_closed ch ∧ ((ch_waiting ch ≠ O → ch_buf ch = []) → ch_waiting (f ch) ≠ O → ch_buf (f ch) = []) ∧
    content (f ch) = content ch) →
  mgr_ok told (default m (upd_chan ix (λ ch, Some (f ch)) m)) ∧
  config (default m (upd_chan ix (λ ch, Some (f ch)) m)) = config m ∧
  LoadPath (default m (upd_chan ix (λ ch, Some (f ch)) m)) = LoadPath m.
Proof.
  intros [H1 H2 H3 H4] Hf. unfold upd_chan. destruct (chans m !! ix) as [ch|] eqn:Hc; simpl; [|done].
  pose proof (lookup_lt_Some _ _ _ Hc) as Hlt. destruct (Hf ch) as (Hcl & Hw & Hct). split; [|done]. constructor; simpl; [done| | |].
  - intros y. rewrite H2. destruct (decide (y = ix)) as [->|Hne].
    + rewrite list_lookup_insert_eq by done. rewrite Hc. split; intros (c & [= <-] & ?); eexists; split; try done; congruence.
    + by rewrite list_lookup_insert_ne.
  - intros y c [[<- [<- _]]|[Hne Hcy]]%list_lookup_insert_Some; [apply Hw, (H3 _ _ Hc)|by apply (H3 _ _ Hcy)].
  - intros y c [[<- [<- _]]|[Hne Hcy]]%list_lookup_insert_Some; [rewrite Hct; by apply (H4 _ _ Hc)|by apply (H4 _ _ Hcy)].
Qed.
Lemma receive_value_ok ch : ch_closed (receive_value ch) = ch_closed ch ∧
  ((ch_waiting ch ≠ O → ch_buf ch = []) → ch_waiting (receive_value ch) ≠ O → ch_buf (receive_value ch) = []) ∧ content (receive_value ch) = content ch.
Proof.
  unfold receive_value, content. destruct (ch_buf ch) as [|v l] eqn:Hb; [destruct (ch_closed ch) eqn:Hc; simpl; rewrite ?Hc, ?Hb; done|].
  simpl. split; [done|]. split; [|by rewrite <- app_assoc]. intros Hw Hne. by apply Hw in Hne.
Qed.
Lemma stop_waiting_ok ch : ch_closed (stop_waiting ch) = ch_closed ch ∧
  ((ch_waiting ch ≠ O → ch_buf ch = []) → ch_waiting (stop_waiting ch) ≠ O → ch_buf (stop_waiting ch) = []) ∧ content (stop_waiting ch) = content ch.
Proof. unfold stop_waiting, content. simpl. split; [done|]. split; [|done]. intros Hw Hne. apply Hw. by intros He; rewrite He in Hne. Qed.

Lemma CreateListenerChannel_ok buffer told m : mgr_ok told m → mgr_ok told (CreateListenerChannel buffer m).2.
Proof.
  intros [H1 H2 H3 H4]. unfold CreateListenerChannel. simpl.
  assert (length (chans m) ∉ listeners m) as Hnew by (intros (ch & Hc%lookup_lt_Some & _)%H2; lia).
  constructor; simpl.
  - apply NoDup_app. split; [done|]. split; [|apply NoDup_singleton]. by intros x Hx ->%list_elem_of_singleton.
  - intros ix. rewrite elem_of_app, list_elem_of_singleton, H2. split.
    + intros [(ch & Hc & Hcl)| ->]; [exists ch; split; [by apply lookup_app_l_Some|done]|].
      eexists. split; [by apply list_lookup_middle|done].
    + intros (ch & [Hc|[Hge Hc]]%lookup_app_Some & Hcl); [left; eauto|right].
      apply list_lookup_singleton_Some in Hc as [? _]. lia.
  - intros ix ch [Hc|[Hge Hc]]%lookup_app_Some; [by apply (H3 _ _ Hc)|].
    by apply list_lookup_singleton_Some in Hc as [_ <-].
  - intros ix ch [Hc|[Hge Hc]]%lookup_app_Some; [by apply (H4 _ _ Hc)|].
    apply list_lookup_singleton_Some in Hc as [_ <-]. apply sublist_nil_l.
Qed.

(** ** Runs *)
(** the configuration a step loads, if it does *)
Definition loaded_in (ev : mgr_event) (s : @main_pc V * @Manager V) : list V :=
  match ev, s.1 with
  | EvMain (Tick (Some buf)), (PStarting | PLoop) =>
      if bool_decide (LoadPath s.2 = ""%string) then [] else option_list (Loader buf)
  | _, _ => []
  end.
Arguments loaded_in : simpl never.
Fixpoint loaded (evs : list mgr_event) (s : @main_pc V * @Manager V) : list V :=
  match evs with
  | [] => []
  | ev :: evs => loaded_in ev s ++ match step ev s with Some s => loaded evs s | None => [] end
  end.

Definition state_ok (l : list V) (s : @main_pc V * @Manager V) : Prop :=
  config s.2 = last l ∧
  match s.1 with
  | PStartLoaded cfg _ | PLoopLoaded cfg _ => ∃ l', l = l' ++ [cfg] ∧ mgr_ok l' s.2
  | _ => mgr_ok l s.2
  end.

Lemma load_ok l m file (k : V → bytes → @main_pc V) (ke : load_error → @main_pc V) :
  config m = last l → mgr_ok l m →
  (∀ cfg h m', state_ok (l ++ [cfg]) (k cfg h, m') ↔ config m' = Some cfg ∧ mgr_ok l m') →
  (∀ e m', state_ok l (ke e, m') ↔ config m' = last l ∧ mgr_ok l m') →
  let s' := match load_part1 Loader sha256_Sum file m with
            | (Err e, m) => (ke e, m)
            | (Ok (cfg, hash), m) => (k cfg hash, m)
            end in
  state_ok (l ++ match file with Some buf => option_list (Loader buf) | None => [] end) s'.
Proof.
  intros Hc Hok Hk Hke. unfold load_part1. destruct file as [buf|]; [destruct (Loader buf) as [cfg|]|]; simpl.
  - apply Hk. split; [done|]. by eapply mgr_ok_ext.
  - rewrite app_nil_r. apply Hke. split; [done|]. by eapply mgr_ok_ext.
  - rewrite app_nil_r. apply Hke. split; [done|]. by eapply mgr_ok_ext.
Qed.

Lemma pending_ok l k : k = PStartLoaded ∨ k = PLoopLoaded →
  ∀ cfg h m', state_ok (l ++ [cfg]) (k cfg h, m') ↔ config m' = Some cfg ∧ mgr_ok l m'.
Proof.
  intros [-> | ->] cfg h m'; unfold state_ok; simpl; rewrite last_snoc; (split; [|naive_solver]);
    intros [? (l' & [-> _]%app_inj_tail & ?)]; done.
Qed.

Lemma part2_ok l cfg hash m : config m = Some cfg → mgr_ok l m →
  ∃ m', load_part2 cfg hash m = Some m' ∧ state_ok (l ++ [cfg]) (PLoop, m').
Proof.
  intros Hc Hok. unfold load_part2. destruct (callListeners_spec cfg l m Hok) as (m' & -> & Hok' & Hc' & _). simpl.
  eexists. split; [done|]. split; simpl; [by rewrite Hc', Hc, last_snoc|]. by eapply mgr_ok_ext.
Qed.

Lemma loaded_in_tick file pc m : pc = PStarting ∨ pc = PLoop → LoadPath m ≠ ""%string →
  loaded_in (EvMain (Tick file)) (pc, m) = match file with Some buf => option_list (Loader buf) | None => [] end.
Proof. intros Hpc Hm. unfold loaded_in. destruct file as [buf|]; [|done]. simpl. rewrite bool_decide_eq_false_2 by done. by destruct Hpc as [-> | ->]. Qed.

Lemma step_ok ev l s : state_ok l s → ∃ s', step ev s = Some s' ∧ state_ok (l ++ loaded_in ev s) s'.
Proof.
  destruct s as [pc m]. intros [Hc Hpc]. simpl in Hc, Hpc.
  assert (∀ m', config m' = config m →
    (∀ told, mgr_ok told m → mgr_ok told m') → state_ok l (pc, m')) as Hother.
  { intros m' Hc' Hm'. split; [simpl; by rewrite Hc'|]. simpl. destruct pc; naive_solver. }
  assert (∃ told, mgr_ok told m) as [told Htold] by (destruct pc; naive_solver).
  destruct ev as [ev|buffer|ix|ix|ix]; simpl.
  - destruct pc as [|cfg h|  |cfg h| | |e]; simpl.
    + case_bool_decide; [eexists; split; [done|]; destruct ev as [[]|]; unfold loaded_in; simpl; rewrite ?bool_decide_eq_true_2 by done; by rewrite app_nil_r|].
      destruct ev as [file|]; [|eexists; split; [done|]; by rewrite app_nil_r].
      exists (match load_part1 Loader sha256_Sum file m with
              | (Err e, m) => (PFailed e, m) | (Ok (cfg, hash), m) => (PStartLoaded cfg hash, m) end).
      split; [by destruct (load_part1 _ _ _ _) as [[[]|] ?]|].
      rewrite loaded_in_tick by naive_solver.
      apply (load_ok l m file PStartLoaded (PFailed)); [done|done|apply pending_ok; auto|done].
    + destruct Hpc as (l' & -> & Hok). rewrite last_snoc in Hc. destruct (part2_ok l' cfg h m Hc Hok) as (m' & -> & Hs). simpl.
      eexists. split; [done|]. destruct ev as [[]|]; by rewrite app_nil_r.
    + destruct ev as [file|]; [|eexists; split; [done|]; by rewrite app_nil_r].
      case_bool_decide; [eexists; split; [done|]; destruct file; unfold loaded_in; simpl; rewrite ?bool_decide_eq_true_2 by done; by rewrite app_nil_r|].
      exists (match load_part1 Loader sha256_Sum file m with
              | (Err e, m) => ((λ _, PLoop) e, m) | (Ok (cfg, hash), m) => (PLoopLoaded cfg hash, m) end).
      split; [by destruct (load_part1 _ _ _ _) as [[[]|] ?]|].
      rewrite loaded_in_tick by naive_solver.
      apply (load_ok l m file PLoopLoaded ((λ _, PLoop))); [done|done|apply pending_ok; auto|done].
    + destruct Hpc as (l' & -> & Hok). rewrite last_snoc in Hc. destruct (part2_ok l' cfg h m Hc Hok) as (m' & -> & Hs). simpl.
      eexists. split; [done|]. destruct ev as [[]|]; by rewrite app_nil_r.
    + destruct (stopping_spec l m Hpc) as (m' & -> & Hok & Hc' & _). simpl. eexists. split; [done|].
      destruct ev as [[]|]; rewrite app_nil_r; split; simpl; by rewrite ?Hc'.
    + eexists. split; [done|]. destruct ev as [[]|]; by rewrite app_nil_r.
    + eexists. split; [done|]. destruct ev as [[]|]; by rewrite app_nil_r.
  - eexists. split; [done|]. rewrite app_nil_r. apply Hother; [done|]. intros. by apply CreateListenerChannel_ok.
  - destruct (CloseListenerChannel_spec ix told m Htold) as (m' & Hm' & _ & Hc' & _). rewrite Hm'. simpl. eexists. split; [done|].
    rewrite app_nil_r. apply Hother; [done|]. intros t Ht. destruct (CloseListenerChannel_spec ix t m Ht) as (m2 & Hm2 & ? & _). by simplify_eq.
  - eexists. split; [done|]. rewrite app_nil_r. apply Hother; [by destruct (upd_default_ok receive_value ix told m Htold receive_value_ok) as (_ & -> & _)|].
    intros t Ht. apply (upd_default_ok receive_value ix t m Ht receive_value_ok).
  - eexists. split; [done|]. rewrite app_nil_r. apply Hother; [by destruct (upd_default_ok stop_waiting ix told m Htold stop_waiting_ok) as (_ & -> & _)|].
    intros t Ht. apply (upd_default_ok stop_waiting ix t m Ht stop_waiting_ok).
Qed.

Lemma run_ok evs l s : state_ok l s → ∃ s', run evs s = Some s' ∧ state_ok (l ++ loaded evs s) s'.
Proof.
  revert l s. induction evs as [|ev evs IH]; intros l s Hs; simpl; [exists s; by rewrite app_nil_r|].
  destruct (step_ok ev l s Hs) as (s1 & Hstep & Hs1). rewrite Hstep. simpl. rewrite app_assoc. by apply IH.
Qed.
Lemma New_ok path (m : @Manager V) : New path = Some m → state_ok [] (PStarting, m).
Proof.
  unfold New. case_bool_decide; [done|]. intros [= <-]. split; [done|]. constructor; simpl; [constructor|set_solver|done|done].
Qed.

(** However reloads, listeners and receivers interleave, the manager never sends
    on a closed channel nor closes one twice; [GetConfig] is the configuration
    loaded last, whatever loads have failed since; what a listener has received and
    has left to receive_value are configurations loaded, in their order and none of them
    twice; and stopping closes every channel there is. *)
Theorem config_manager_correct (path : string) (m0 : @Manager V) (evs : list mgr_event) :
  New path = Some m0 →
  ∃ pc m, run evs (PStarting, m0) = Some (pc, m) ∧
    GetConfig m = last (loaded evs (PStarting, m0)) ∧
    (∀ ix ch, chans m !! ix = Some ch → ch_received ch ++ ch_buf ch `sublist_of` loaded evs (PStarting, m0)) ∧
    (pc = PStopping → ∀ ev, ∃ m', step (EvMain ev) (pc, m) = Some (PTerminated, m') ∧
      ∀ ix ch, chans m' !! ix = Some ch → ch_closed ch = true).
Proof.
  intros Hm. destruct (run_ok evs [] _ (New_ok _ _ Hm)) as ([pc m] & Hr & Hc & Hs). simpl in *.
  exists pc, m. split; [done|]. split; [done|]. split.
  - intros ix ch Hch. assert (mgr_ok (loaded evs (PStarting, m0)) m) as Hok; [|by apply (mo_told _ _ Hok _ _ Hch)].
    destruct pc as [|cfg h| |cfg h| | |]; try done; destruct Hs as (l' & -> & Hok); eapply mgr_ok_ext; eauto; by apply sublist_inserts_r.
  - intros -> ev. destruct (stopping_spec _ m Hs) as (m' & Hst & _ & _ & _ & Hcl). exists m'. simpl. by rewrite Hst.
Qed.
End facts.

(** ** Witness *)
Definition ex_loader (b : bytes) : option nat := match b with [] => None | _ => Some (length b) end.
Definition ex_events : list mgr_event :=
  [EvCreate 1; EvMain (Tick (Some [Byte.x01])); EvCreate 0; EvMain CtxDone; EvMain (Tick (Some [])); EvReceive 1;
   EvMain (Tick (Some [Byte.x01; Byte.x02])); EvMain CtxDone; EvMain (Tick None); EvClose 0; EvClose 0; EvMain CtxDone].
Definition ex_manager : @Manager nat := mkManager "config.yaml" None [] [] false None.
Lemma config_manager_correct_witness : ∃ pc m,
  mgr_run ex_loader (λ b, b) ex_events (PStarting, ex_manager) = Some (pc, m) ∧ GetConfig m = Some 2%nat.
Proof.
  destruct (config_manager_correct ex_loader (λ b, b) "config.yaml" ex_manager ex_events eq_refl) as (pc & m & Hr & Hg & _).
  exists pc, m. split; [exact Hr|]. rewrite Hg. vm_compute. reflexivity.
Defined.

(** What a receiver misses: the first listener above has a buffer of one and does
    not receive_value; the second configuration is dropped. *)
Lemma slow_listener_misses : option_map (λ s, (λ ch : @rchan nat, (ch_received ch, ch_buf ch)) <$> chans s.2)
  (mgr_run ex_loader (λ b, b) ex_events (PStarting, ex_manager)) = Some [([], [1%nat]); ([2%nat], [])].
Proof. vm_compute. reflexivity. Qed.

(** When the first load fails the service fails without calling [stopping]: the
    channels are never closed, and their receivers wait for ever. *)
Lemma failed_start_leaves_open :
  option_map (λ s, (s.1, ch_closed <$> chans s.2))
    (mgr_run ex_loader (λ b, b) [EvCreate 1; EvMain (Tick None); EvReceive 0; EvMain CtxDone] (PStarting, ex_manager))
  = Some (PFailed ErrReadFile, [false]).
Proof. vm_compute. reflexivity. Qed.
