(* ===== verification/Runner.v ===== *)
(** * Worker pools: [concurrency/runner.go], with [multierror/multierror.go]

    [ForEachUser] and [ForEach] start workers that take jobs from a closed channel.
    The workers are interleaved at their receives, their looks at the context, the
    returns of the function called and the uses of the shared errors.  What a call
    returns is an argument of the step.  [errgroup] is a parameter of the code: its
    documented behaviour (the first error is kept, and cancels the derived
    context) is [group_return]. *)
From Stdlib Require Import ZArith Lia.
From stdpp Require Import base gmap strings list pretty relations.
From S2P Require Import Prelude.

(** ** [MultiError] *)
Section multierror.
Context {B : Type}.
(** an error: of the caller, of the context, or a [nonNilMultiError] *)
Inductive error :=
| EBase (b : B)
| ECtx
| EMulti (es : list error).
Abbreviation MultiError := (list error).

Definition Add (err : option error) (es : MultiError) : MultiError :=
  match err with
  | None => es
  | Some (EMulti merr) => es ++ merr
  | Some err => es ++ [err]
  end.
Definition Err (es : MultiError) : option error := if bool_decide (length es = 0%nat) then None else Some (EMulti es).
Definition New (errs : list (option error)) : MultiError := foldl (λ merr err, Add err merr) [] errs.

(** [Error()], with the strings of the caller's errors *)
Variable show : B → string.
Fixpoint show_error (err : error) : string :=
  match err with
  | EBase b => show b
  | ECtx => "context canceled"
  | EMulti es =>
      (if bool_decide (1 < length es)%nat then pretty (N.of_nat (length es)) +:+ " errors: " else "")
      +:+ (fix go (i : nat) (es : list error) : string :=
             match es with
             | [] => ""
             | err :: es => (if bool_decide (i ≠ 0%nat) then "; " else "") +:+ show_error err +:+ go (S i) es
             end) 0%nat es
  end.
End multierror.
Arguments error : clear implicits.
Abbreviation MultiError B := (list (error B)).

(** [internal/math] *)
Definition Min (a b : Z) : Z := if bool_decide (a < b) then a else b.

Section runner.
Context {B Job : Type}.

Inductive pool_worker :=
| WIdle                                 (* about to receive from the channel *)
| WTaken (job : Job)                    (* has a job, looks at the context *)
| WCalling (job : Job)
| WFailed (err : error B)               (* has an error to report *)
| WReturned.
(** [queue] is what is left in the channel, [calls] the calls that have returned,
    [errs] the errors collected ([ForEachUser]), [first] the error the group keeps
    ([ForEach]), [cancelled] whether the context of the caller is done *)
Record pool := mkPool {
  queue : list Job;
  workers : list pool_worker;
  calls : list (Job * option (error B));
  errs : MultiError B;
  first : option (error B);
  cancelled : bool
}.
Definition start (jobs : list Job) (concurrency : Z) (cancelled : bool) : pool :=
  mkPool jobs (replicate (Z.to_nat (Min concurrency (Z.of_nat (length jobs)))) WIdle) [] [] None cancelled.
Definition set_worker (i : nat) (w : pool_worker) (p : pool) : pool :=
  mkPool (queue p) (<[i := w]> (workers p)) (calls p) (errs p) (first p) (cancelled p).

(** ** [ForEachUser] *)
(** worker [i] makes its next step; [outcome] is what the function returns if it
    returns now *)
Definition user_step (i : nat) (outcome : option (error B)) (p : pool) : pool :=
  match workers p !! i with
  | Some WIdle =>
      match queue p with
      | [] => set_worker i WReturned p
      | job :: queue => set_worker i (WTaken job) (mkPool queue (workers p) (calls p) (errs p) (first p) (cancelled p))
      end
  | Some (WTaken job) => set_worker i (if cancelled p then WReturned else WCalling job) p
  | Some (WCalling job) =>
      let p := mkPool (queue p) (workers p) (calls p ++ [(job, outcome)]) (errs p) (first p) (cancelled p) in
      match outcome with
      | Some err => set_worker i (WFailed err) p
      | None => set_worker i WIdle p
      end
  | Some (WFailed err) =>
      set_worker i WIdle (mkPool (queue p) (workers p) (calls p) (Add (Some err) (errs p)) (first p) (cancelled p))
  | Some WReturned | None => p
  end.
(** after [wg.Wait]; an empty list of users is handled first *)
Definition ForEachUser_result (userIDs : list Job) (p : pool) : option (error B) :=
  if bool_decide (length userIDs = 0%nat) then None
  else if cancelled p then Some ECtx else Err (errs p).

(** ** [ForEach] *)
(** a function passed to [Go] returns *)
Definition group_return (err : option (error B)) (p : pool) : pool :=
  mkPool (queue p) (workers p) (calls p) (errs p)
    (match first p with Some _ => first p | None => err end) (cancelled p).
(** [ctx] is the context derived by the group *)
Definition ctx_done (p : pool) : bool := cancelled p || bool_decide (is_Some (first p)).
Definition job_step (i : nat) (outcome : option (error B)) (p : pool) : pool :=
  match workers p !! i with
  | Some WIdle =>
      match queue p with
      | [] => set_worker i WReturned (group_return None p)
      | job :: queue => set_worker i (WTaken job) (mkPool queue (workers p) (calls p) (errs p) (first p) (cancelled p))
      end
  | Some (WTaken job) => set_worker i (if ctx_done p then WFailed ECtx else WCalling job) p
  | Some (WCalling job) =>
      let p := mkPool (queue p) (workers p) (calls p ++ [(job, outcome)]) (errs p) (first p) (cancelled p) in
      match outcome with
      | Some err => set_worker i (WFailed err) p
      | None => set_worker i WIdle p
      end
  | Some (WFailed err) => set_worker i WReturned (group_return (Some err) p)
  | Some WReturned | None => p
  end.
Definition ForEach_result (jobs : list Job) (p : pool) : option (error B) :=
  if bool_decide (length jobs = 0%nat) then None else first p.

(** ** Interleavings *)
Definition can_move (w : pool_worker) : bool := match w with WReturned => false | _ => true end.
Definition all_returned (p : pool) : Prop := Forall (λ w, can_move w = false) (workers p).
Inductive runner_step (step : nat → option (error B) → pool → pool) : pool → pool → Prop :=
| WorkerStep i w outcome p : workers p !! i = Some w → can_move w = true → runner_step step p (step i outcome p)
| CancelStep p : cancelled p = false →
    runner_step step p (mkPool (queue p) (workers p) (calls p) (errs p) (first p) true).
End runner.
Arguments pool_worker : clear implicits.
Arguments pool : clear implicits.

(** ** The worker pools call every job, report every error, and stop

    For every interleaving of the workers and whenever the context ends. *)
(** ** [MultiError] *)
Section multierror.
Context {B : Type}.
Implicit Types e : error B.

(** the errors an error stands for *)
Definition flatten e : list (error B) := match e with EMulti es => es | e => [e] end.
Lemma Add_flatten e (es : list (error B)) : Add (Some e) es = es ++ flatten e.
Proof. by destruct e. Qed.

(** an error made of errors without nesting has none either *)
Definition flat e : Prop := match e with EMulti es => Forall (λ e, match e with EMulti _ => False | _ => True end) es | _ => True end.
Lemma New_flat (errs : list (option (error B))) e : Forall (λ o, match o with Some e => flat e | None => True end) errs →
  Err (New errs) = Some e → flat e ∧ e = EMulti (mjoin (flatten <$> omap (λ o, o) errs)).
Proof.
  intros Hf.
  assert (New errs = mjoin (flatten <$> omap (λ o, o) errs)) as Hn.
  { unfold New. change (omap (λ o, o) errs) with ([] ++ omap (λ o, o) errs) at 1.
    assert (∀ es, foldl (λ merr err, Add err merr) es errs = es ++ mjoin (flatten <$> omap (λ o, o) errs)) as Ha; [|apply Ha].
    clear Hf. induction errs as [|[e0|] errs IH]; intros es; cbn [foldl omap list_omap]; [by rewrite app_nil_r| |by rewrite IH].
    rewrite IH, Add_flatten, <- app_assoc. done. }
  unfold Err. case_bool_decide; [done|]. intros [= <-]. rewrite Hn. split; [|done]. simpl. clear Hn H.
  induction Hf as [|[e0|] errs He Hf IH]; cbn [omap list_omap]; [constructor| |done]. simpl. apply Forall_app. split; [|done].
  destruct e0; simpl in *; [by repeat constructor..|done].
Qed.
End multierror.

Section facts.
Context {B Job : Type}.
Implicit Types (p : pool B Job) (w : pool_worker B Job) (jobs : list Job).

(** ** Lists of workers *)
Lemma insert_split {A} (l : list A) i x y : l !! i = Some x → ∃ l1 l2, l = l1 ++ x :: l2 ∧ <[i := y]> l = l1 ++ y :: l2.
Proof.
  intros Hl. exists (take i l), (drop (S i) l). split; [by rewrite take_drop_middle|].
  apply insert_take_drop. by apply lookup_lt_Some in Hl.
Qed.

(** the job a worker holds, the error it is about to report *)
Definition held w : option Job := match w with WTaken j | WCalling j => Some j | _ => None end.
Definition pending w : option (error B) := match w with WFailed e => Some e | _ => None end.
Definition weight w : nat := match w with WReturned => 0 | WIdle => 1 | WFailed _ => 2 | WCalling _ => 3 | WTaken _ => 4 end.

Lemma omap_insert {A C} (f : A → option C) (l : list A) i x y : l !! i = Some x → ∃ rest,
  omap f l ≡ₚ option_list (f x) ++ rest ∧ omap f (<[i := y]> l) ≡ₚ option_list (f y) ++ rest.
Proof.
  intros Hl. destruct (insert_split l i x y Hl) as (l1 & l2 & -> & ->). exists (omap f l1 ++ omap f l2).
  rewrite !omap_app. simpl. destruct (f x), (f y); simpl; split; rewrite ?Permutation_middle; done.
Qed.
Lemma weight_insert (l : list (pool_worker B Job)) i x y : l !! i = Some x →
  (sum_list (weight <$> <[i := y]> l) + weight x = sum_list (weight <$> l) + weight y)%nat.
Proof.
  intros Hl. destruct (insert_split l i x y Hl) as (l1 & l2 & -> & ->). rewrite !fmap_app, !sum_list_with_app. simpl. lia.
Qed.

(** ** Every run ends *)
Definition measure p : nat := 4 * length (queue p) + sum_list (weight <$> workers p) + (if cancelled p then 0 else 1).
Definition decreasing (step : nat → option (error B) → pool B Job → pool B Job) : Prop :=
  (∀ i w o p, workers p !! i = Some w → can_move w = true → measure (step i o p) < measure p)%nat ∧
  (∀ i o p, length (workers (step i o p)) = length (workers p)).

Lemma set_worker_measure i w w' p : workers p !! i = Some w →
  (measure (set_worker i w' p) + weight w = measure p + weight w')%nat.
Proof. intros Hw. unfold measure, set_worker. simpl. pose proof (weight_insert _ _ _ w' Hw). lia. Qed.

Lemma user_step_decreasing : decreasing user_step.
Proof.
  split.
  - intros i w o p Hw Hm. unfold user_step. rewrite Hw. pose proof (λ w', weight_insert _ _ _ w' Hw) as Hs.
    destruct w as [|j|j|e|]; simpl in Hm; [destruct (queue p) as [|j q] eqn:Hq|destruct (cancelled p) eqn:Hc|destruct o| |done];
      unfold measure, set_worker; simpl; rewrite ?Hq, ?Hc; simpl;
      match goal with |- context [<[i := ?w']> _] => specialize (Hs w') end; simpl in Hs; lia.
  - intros i o p. unfold user_step, set_worker. repeat case_match; simpl; by rewrite ?length_insert.
Qed.
Lemma job_step_decreasing : decreasing job_step.
Proof.
  split.
  - intros i w o p Hw Hm. unfold job_step, group_return. rewrite Hw. pose proof (λ w', weight_insert _ _ _ w' Hw) as Hs.
    destruct w as [|j|j|e|]; simpl in Hm; [destruct (queue p) as [|j q] eqn:Hq|destruct (ctx_done p)|destruct o| |done];
      unfold measure, set_worker; simpl; rewrite ?Hq; simpl;
      match goal with |- context [<[i := ?w']> _] => specialize (Hs w') end; simpl in Hs; lia.
  - intros i o p. unfold job_step, group_return, set_worker. repeat case_match; simpl; by rewrite ?length_insert.
Qed.

Lemma runner_bound step n p p' : decreasing step → nsteps (runner_step step) n p p' → (n + measure p' ≤ measure p)%nat.
Proof.
  intros [Hd _]. induction 1 as [|n p1 p2 p3 [i w o p Hw Hm|p Hc] _ IH]; [done| |].
  - specialize (Hd i w o p Hw Hm). lia.
  - unfold measure in *. simpl in *. rewrite Hc. lia.
Qed.
Lemma start_measure jobs c b : (measure (start jobs c b) ≤ 5 * length jobs + 1)%nat.
Proof.
  unfold measure, start. cbn [queue workers cancelled]. rewrite fmap_replicate, sum_list_replicate. simpl.
  unfold Min. destruct b; case_bool_decide; lia.
Qed.

(** ** [ForEachUser] *)
Definition failures p : list (error B) := omap snd (calls p) ≫= flatten.
Record user_inv jobs p : Prop := {
  ui_jobs : ∃ dropped, jobs ≡ₚ queue p ++ omap held (workers p) ++ (calls p).*1 ++ dropped ∧ (cancelled p = false → dropped = []);
  ui_errs : errs p ++ (omap pending (workers p) ≫= flatten) ≡ₚ failures p;
  ui_returned : cancelled p = false → WReturned ∈ workers p → queue p = []
}.

Lemma elem_of_insert_inv {A} (l : list A) i x y : x ∈ <[i := y]> l → x = y ∨ x ∈ l.
Proof.
  intros [k Hk]%list_elem_of_lookup. apply list_lookup_insert_Some in Hk as [(_ & <- & _)|[_ Hk]]; [by left|right].
  by eapply list_elem_of_lookup_2.
Qed.

Lemma user_step_inv jobs i w o p : workers p !! i = Some w → can_move w = true → user_inv jobs p → user_inv jobs (user_step i o p).
Proof.
  intros Hw Hm [(dr & Hj & Hd) He Hr]. pose proof (λ w', omap_insert held _ _ _ w' Hw) as Hh.
  pose proof (λ w', omap_insert pending _ _ _ w' Hw) as Hp.
  assert (∀ w' (q : list Job), w' ≠ WReturned → (queue p = [] → q = []) → cancelled p = false → WReturned ∈ <[i := w']> (workers p) → q = []) as Hret.
  { intros w' q Hne Hq Hc [Heq|Hin]%elem_of_insert_inv; [done|]. apply Hq. by apply Hr. }
  unfold user_step. rewrite Hw. destruct w as [|j|j|e|]; simpl in Hm; [| | | |done].
  - destruct (queue p) as [|j q] eqn:Hq.
    + destruct (Hh WReturned) as (r1 & H1 & H1'), (Hp WReturned) as (r2 & H2 & H2'). simpl in *.
      constructor; simpl; unfold failures; simpl; [|by rewrite H2', <- H2|by rewrite Hq].
      exists dr. rewrite Hq, H1', <- H1. done.
    + destruct (Hh (WTaken j)) as (r1 & H1 & H1'), (Hp (WTaken j)) as (r2 & H2 & H2'). simpl in *.
      constructor; simpl; unfold failures; simpl; [|by rewrite H2', <- H2|].
      * exists dr. split; [|done]. rewrite Hj, H1', H1. solve_Permutation.
      * apply Hret; [done|]. congruence.
  - destruct (cancelled p) eqn:Hc.
    + destruct (Hh WReturned) as (r1 & H1 & H1'), (Hp WReturned) as (r2 & H2 & H2'). simpl in *.
      constructor; simpl; unfold failures; simpl; rewrite ?Hc; [|by rewrite H2', <- H2|done].
      exists (j :: dr). split; [|done]. rewrite Hj, H1', H1. solve_Permutation.
    + destruct (Hh (WCalling j)) as (r1 & H1 & H1'), (Hp (WCalling j)) as (r2 & H2 & H2'). simpl in *.
      constructor; simpl; unfold failures; simpl; rewrite ?Hc; [|by rewrite H2', <- H2|by apply Hret].
      exists dr. split; [|done]. by rewrite Hj, H1', H1.
  - destruct o as [e|].
    + destruct (Hh (WFailed e)) as (r1 & H1 & H1'), (Hp (WFailed e)) as (r2 & H2 & H2'). simpl in *.
      constructor; simpl; unfold failures; simpl; [| |by apply Hret].
      * exists dr. split; [|done]. rewrite Hj, H1', H1, fmap_app. simpl. solve_Permutation.
      * rewrite H2', omap_app, bind_app. simpl. rewrite <- He, H2. rewrite !bind_cons || idtac. solve_Permutation.
    + destruct (Hh WIdle) as (r1 & H1 & H1'), (Hp WIdle) as (r2 & H2 & H2'). simpl in *.
      constructor; simpl; unfold failures; simpl; [| |by apply Hret].
      * exists dr. split; [|done]. rewrite Hj, H1', H1, fmap_app. simpl. solve_Permutation.
      * rewrite H2', omap_app, bind_app. simpl. rewrite app_nil_r, <- He. by rewrite H2.
  - destruct (Hh WIdle) as (r1 & H1 & H1'), (Hp WIdle) as (r2 & H2 & H2'). simpl in H1, H1', H2, H2'.
    constructor; cbn [queue workers calls errs cancelled set_worker]; unfold failures; cbn [calls]; [| |by apply Hret].
    + exists dr. split; [|done]. by rewrite Hj, H1', H1.
    + rewrite Add_flatten, H2'. fold (failures p). rewrite <- He, H2, bind_cons. solve_Permutation.
Qed.

Lemma user_inv_start jobs c b : user_inv jobs (start jobs c b).
Proof.
  constructor; unfold failures; simpl.
  - exists []. split; [|done]. rewrite app_nil_r. induction (Z.to_nat _); simpl; by rewrite ?app_nil_r.
  - by induction (Z.to_nat _).
  - intros _ Hin. by apply elem_of_replicate in Hin as [? _].
Qed.

Lemma run_inv (I : pool B Job → Prop) step p p' : 
  (∀ i w o p, workers p !! i = Some w → can_move w = true → I p → I (step i o p)) →
  (∀ p, cancelled p = false → I p → I (mkPool (queue p) (workers p) (calls p) (errs p) (first p) true)) →
  rtc (runner_step step) p p' → I p → I p'.
Proof. intros Hs Hc. induction 1 as [|? ? ? [] _ IH]; eauto. Qed.

Lemma run_length step p p' : decreasing step → rtc (runner_step step) p p' → length (workers p') = length (workers p).
Proof. intros [_ Hl]. induction 1 as [|? ? ? [] _ IH]; simpl in *; congruence. Qed.

Lemma all_returned_none {A} (f : pool_worker B Job → option A) p : f WReturned = None → all_returned p → omap f (workers p) = [].
Proof. unfold all_returned. intros Hf. induction 1 as [|w l Hw _ IH]; simpl; [done|]. destruct w; try done. by rewrite Hf. Qed.
Lemma all_returned_elem p : all_returned p → workers p ≠ [] → WReturned ∈ workers p.
Proof. unfold all_returned. destruct 1 as [|[] l]; try done. intros _. by left. Qed.

Lemma start_workers jobs c b : 0 < c → jobs ≠ [] → workers (start (B:=B) jobs c b) ≠ [].
Proof.
  intros Hc Hj. unfold start. cbn [workers]. intros Hn. apply (f_equal length) in Hn. rewrite length_replicate in Hn. simpl in Hn.
  destruct jobs; [done|]. unfold Min in Hn. simpl in Hn. case_bool_decide; lia.
Qed.

(** However the workers of [ForEachUser] interleave and whenever the context
    ends, they all return after a bounded number of steps, at most [concurrency]
    of them at work; no user is processed twice; and when the context has not
    ended every user has been processed and the result is made of exactly the errors
    the calls have returned. *)
Theorem ForEachUser_correct (userIDs : list Job) (concurrency : Z) (n : nat) (p : pool B Job) :
  0 < concurrency → nsteps (runner_step user_step) n (start userIDs concurrency false) p →
  (n ≤ 5 * length userIDs + 1)%nat ∧ Z.of_nat (length (workers p)) ≤ concurrency ∧
  (∃ rest, userIDs ≡ₚ (calls p).*1 ++ rest) ∧
  (all_returned p → cancelled p = false →
    (calls p).*1 ≡ₚ userIDs ∧
    ∃ es, ForEachUser_result userIDs p = Err es ∧ es ≡ₚ omap snd (calls p) ≫= flatten).
Proof.
  intros Hc Hn. pose proof (runner_bound _ _ _ _ user_step_decreasing Hn) as Hb.
  pose proof (start_measure userIDs concurrency false) as Hm.
  assert (rtc (runner_step user_step) (start userIDs concurrency false) p) as Hr by (apply rtc_nsteps; eauto).
  pose proof (run_length _ _ _ user_step_decreasing Hr) as Hlen.
  assert (user_inv userIDs p) as [(dr & Hj & Hd) He Hq].
  { eapply run_inv; [by intros; eapply user_step_inv| |exact Hr|apply user_inv_start].
    intros p0 Hc0 [(dr & Hj & Hd) He Hq]. constructor; simpl; [|done|done]. exists dr. split; [done|done]. }
  split; [lia|]. split; [|split].
  - rewrite Hlen. unfold start. simpl. rewrite length_replicate. unfold Min. case_bool_decide; lia.
  - exists (queue p ++ omap held (workers p) ++ dr). rewrite Hj. solve_Permutation.
  - intros Hall Hcan. rewrite (all_returned_none held p eq_refl Hall) in Hj. rewrite (all_returned_none pending p eq_refl Hall) in He.
    rewrite app_nil_r in He. rewrite Hd, app_nil_r in Hj by done. unfold ForEachUser_result. rewrite Hcan.
    destruct (decide (userIDs = [])) as [->|Hne].
    + apply Permutation_nil_l in Hj. symmetry in Hj. apply app_eq_nil in Hj as [_ Hj]. simpl in Hj. split; [by rewrite Hj|].
      exists []. split; [done|]. apply fmap_nil_inv in Hj. by rewrite Hj.
    + rewrite Hq in Hj; [|done|]; last first.
      { apply all_returned_elem; [done|]. intros Hw. rewrite Hw in Hlen. simpl in Hlen. symmetry in Hlen.
        apply (start_workers userIDs concurrency false Hc Hne). by apply length_zero_iff_nil. }
      split; [done|]. exists (errs p). split; [|done]. rewrite bool_decide_eq_false_2; [done|].
      intros Hl. by apply length_zero_iff_nil in Hl.
Qed.

(** Without workers nobody processes the users, and no error says so. *)
Lemma ForEachUser_no_workers (userIDs : list Job) (concurrency : Z) :
  concurrency ≤ 0 → all_returned (start (B:=B) userIDs concurrency false) ∧
  ForEachUser_result userIDs (start (B:=B) userIDs concurrency false) = None.
Proof.
  intros Hc. unfold start, all_returned, ForEachUser_result. simpl.
  assert (Z.to_nat (Min concurrency (Z.of_nat (length userIDs))) = 0%nat) as -> by (unfold Min; case_bool_decide; lia).
  split; [constructor|]. by case_bool_decide.
Qed.

(** ** [ForEach] *)
(** where an error comes from *)
Definition returned_by_call p (e : error B) : Prop := ∃ job, (job, Some e) ∈ calls p.
Definition failing p : Prop := is_Some (first p) ∨ ∃ e, WFailed e ∈ workers p.
Record job_inv jobs p : Prop := {
  ji_jobs : ∃ dropped, jobs ≡ₚ queue p ++ omap held (workers p) ++ (calls p).*1 ++ dropped ∧ (dropped ≠ [] → failing p);
  ji_first : ∀ e, first p = Some e → returned_by_call p e ∨ e = ECtx ∧ cancelled p = true;
  ji_pending : ∀ e, WFailed e ∈ workers p → returned_by_call p e ∨ e = ECtx ∧ (cancelled p = true ∨ is_Some (first p));
  ji_failed : ∀ e, returned_by_call p e → failing p;
  ji_returned : first p = None → WReturned ∈ workers p → queue p = []
}.

(** a worker that has no error to report moves on *)
Lemma failing_insert p p' i w w' : workers p !! i = Some w → pending w = None → first p' = first p →
  workers p' = <[i := w']> (workers p) → failing p → failing p'.
Proof.
  intros Hw Hp Hf Hws [Hs|(e & [k Hk]%list_elem_of_lookup)]; [left; by rewrite Hf|right]. exists e. rewrite Hws.
  apply list_elem_of_lookup. exists k. rewrite list_lookup_insert_ne; [done|]. intros ->. rewrite Hw in Hk. by injection Hk as ->.
Qed.
Lemma elem_of_insert_self {A} (l : list A) i x y : l !! i = Some x → y ∈ <[i := y]> l.
Proof. intros Hi. apply list_elem_of_lookup. exists i. apply list_lookup_insert_eq. by apply lookup_lt_Some in Hi. Qed.

Lemma job_step_inv jobs i w o p : workers p !! i = Some w → can_move w = true → job_inv jobs p → job_inv jobs (job_step i o p).
Proof.
  intros Hw Hm [(dr & Hj & Hd) Hf Hp Hfail Hr]. pose proof (λ w', omap_insert held _ _ _ w' Hw) as Hh.
  unfold job_step. rewrite Hw. destruct w as [|j|j|e|]; simpl in Hm; [| | | |done].
  - assert (match first p with Some _ => first p | None => None end = first p) as Hfst by (by destruct (first p)).
    destruct (queue p) as [|j q] eqn:Hq.
    + destruct (Hh WReturned) as (r & H1 & H1'). simpl in H1, H1'.
      assert (failing p → failing (set_worker i WReturned (group_return None p))) as Hfl by (by eapply failing_insert).
      constructor; simpl; rewrite ?Hfst; [|done| |eauto|done].
      * exists dr. rewrite Hq, H1', <- H1. split; [done|eauto].
      * intros e [?|Hin]%elem_of_insert_inv; [done|by apply Hp].
    + destruct (Hh (WTaken j)) as (r & H1 & H1'). simpl in H1, H1'.
      assert (failing p → failing (set_worker i (WTaken j) (mkPool q (workers p) (calls p) (errs p) (first p) (cancelled p)))) as Hfl
        by (by eapply failing_insert).
      constructor; simpl; [|done| |eauto|].
      * exists dr. split; [|eauto]. rewrite Hj, H1', H1. solve_Permutation.
      * intros e [?|Hin]%elem_of_insert_inv; [done|by apply Hp].
      * intros Hn [?|Hin]%elem_of_insert_inv; [done|]. by specialize (Hr Hn Hin).
  - destruct (ctx_done p) eqn:Hc.
    + destruct (Hh (WFailed ECtx)) as (r & H1 & H1'). simpl in H1, H1'.
      assert (failing (set_worker i (WFailed ECtx) p)) as Hfl by (right; exists ECtx; by eapply elem_of_insert_self).
      constructor; simpl; [|done| |done|].
      * exists (j :: dr). split; [|done]. rewrite Hj, H1', H1. solve_Permutation.
      * intros e [[= ->]|Hin]%elem_of_insert_inv; [|by apply Hp]. right. split; [done|]. unfold ctx_done in Hc.
        apply orb_true_iff in Hc as [|Hc]; [by left|right]. by apply bool_decide_eq_true in Hc.
      * intros Hn [?|Hin]%elem_of_insert_inv; [done|by apply Hr].
    + destruct (Hh (WCalling j)) as (r & H1 & H1'). simpl in H1, H1'.
      assert (failing p → failing (set_worker i (WCalling j) p)) as Hfl by (by eapply failing_insert).
      constructor; simpl; [|done| |eauto|].
      * exists dr. split; [|eauto]. by rewrite Hj, H1', H1.
      * intros e [?|Hin]%elem_of_insert_inv; [done|by apply Hp].
      * intros Hn [?|Hin]%elem_of_insert_inv; [done|by apply Hr].
  - set (p1 := mkPool _ _ (calls p ++ _) _ _ _).
    assert (∀ e, returned_by_call p e → returned_by_call p1 e) as Hmono.
    { intros e (job & Hin). exists job. simpl. apply elem_of_app. by left. }
    destruct o as [e|].
    + destruct (Hh (WFailed e)) as (r & H1 & H1'). simpl in H1, H1'.
      assert (failing (set_worker i (WFailed e) p1)) as Hfl by (right; exists e; by eapply elem_of_insert_self).
      constructor; simpl; [| | |done|].
      * exists dr. split; [|done]. rewrite Hj, H1', H1, fmap_app. simpl. solve_Permutation.
      * intros e' He'. destruct (Hf e' He') as [?|?]; [left; by apply Hmono|by right].
      * intros e' [[= ->]|Hin]%elem_of_insert_inv; [left; exists j; apply elem_of_app; right; by left|].
        destruct (Hp e' Hin) as [?|?]; [left; by apply Hmono|by right].
      * intros Hn [?|Hin]%elem_of_insert_inv; [done|by apply Hr].
    + destruct (Hh WIdle) as (r & H1 & H1'). simpl in H1, H1'.
      assert (failing p → failing (set_worker i WIdle p1)) as Hfl by (by eapply failing_insert).
      constructor; simpl; [| | | |].
      * exists dr. split; [|eauto]. rewrite Hj, H1', H1, fmap_app. simpl. solve_Permutation.
      * intros e' He'. destruct (Hf e' He') as [?|?]; [left; by apply Hmono|by right].
      * intros e' [?|Hin]%elem_of_insert_inv; [done|]. destruct (Hp e' Hin) as [?|?]; [left; by apply Hmono|by right].
      * intros e' (job & [Hin|Hin]%elem_of_app); [apply Hfl, (Hfail e'); by exists job|]. by apply list_elem_of_singleton in Hin.
      * intros Hn [?|Hin]%elem_of_insert_inv; [done|by apply Hr].
  - destruct (Hh WReturned) as (r & H1 & H1'). simpl in H1, H1'.
    assert (failing (set_worker i WReturned (group_return (Some e) p))) as Hfl by (left; simpl; destruct (first p); eauto).
    assert (returned_by_call p e ∨ e = ECtx ∧ (cancelled p = true ∨ is_Some (first p))) as He by (apply Hp; by eapply list_elem_of_lookup_2).
    constructor; simpl; [| | |done|by destruct (first p)].
    + exists dr. split; [|done]. by rewrite Hj, H1', H1.
    + intros e'. destruct (first p) as [e0|] eqn:Hfst; [by apply Hf|]. intros [= <-].
      destruct He as [?|[-> [?|[? ?]]]]; [by left|by right|done].
    + intros e' [?|Hin]%elem_of_insert_inv; [done|]. destruct (Hp e' Hin) as [?|[? [?|?]]]; [by left|auto|right].
      split; [done|]. right. by destruct (first p).
Qed.

Lemma job_inv_start jobs c b : job_inv jobs (start jobs c b).
Proof.
  constructor; simpl.
  - exists []. split; [|done]. rewrite app_nil_r. induction (Z.to_nat _); simpl; by rewrite ?app_nil_r.
  - done.
  - intros e Hin. by apply elem_of_replicate in Hin as [? _].
  - intros e (job & Hin). by apply elem_of_nil in Hin.
  - intros _ Hin. by apply elem_of_replicate in Hin as [? _].
Qed.

(** [ForEach] stops after a bounded number of steps; it returns [nil] only when
    every job has been run and none has failed, and otherwise an error some job has
    returned, or that of the context. *)
Lemma ForEach_correct jobs (concurrency : Z) (n : nat) (p : pool B Job) :
  0 < concurrency → nsteps (runner_step job_step) n (start jobs concurrency false) p →
  (n ≤ 5 * length jobs + 1)%nat ∧
  (all_returned p → jobs ≠ [] →
    (ForEach_result jobs p = None → (calls p).*1 ≡ₚ jobs ∧ ∀ e, ¬ returned_by_call p e) ∧
    (∀ e, ForEach_result jobs p = Some e → returned_by_call p e ∨ e = ECtx ∧ cancelled p = true)).
Proof.
  intros Hc Hn. pose proof (runner_bound _ _ _ _ job_step_decreasing Hn) as Hb. pose proof (start_measure jobs concurrency false) as Hm.
  assert (rtc (runner_step job_step) (start jobs concurrency false) p) as Hr by (apply rtc_nsteps; eauto).
  pose proof (run_length _ _ _ job_step_decreasing Hr) as Hlen.
  assert (job_inv jobs p) as [(dr & Hj & Hd) Hf Hp Hfail Hret].
  { eapply run_inv; [by intros; eapply job_step_inv| |exact Hr|apply job_inv_start].
    intros p0 Hc0 [(dr & Hj & Hd) Hf Hp Hfail Hret]. constructor; simpl; [|naive_solver|naive_solver|done|done]. exists dr. split; [done|done]. }
  split; [lia|]. intros Hall Hne. unfold ForEach_result.
  rewrite bool_decide_eq_false_2 by (by intros ?%length_zero_iff_nil). split; [|done].
  intros Hfst. assert (¬ failing p) as Hnf.
  { intros [[? ?]|(e & Hin)]; [congruence|]. unfold all_returned in Hall. rewrite Forall_forall in Hall. by apply Hall in Hin. }
  split; [|naive_solver]. assert (dr = []) as -> by (destruct dr; [done|]; contradict Hnf; by apply Hd).
  rewrite (all_returned_none held p eq_refl Hall), Hret, app_nil_r in Hj; [done|done|].
  apply all_returned_elem; [done|]. intros Hw. rewrite Hw in Hlen. simpl in Hlen. symmetry in Hlen.
  apply (start_workers jobs concurrency false Hc Hne). by apply length_zero_iff_nil.
Qed.
End facts.

(** ** Witness *)
Definition ex_users : list nat := [1; 2; 3]%nat.
Definition ex_outcome (i : nat) : option (error nat) := if bool_decide (i = 1%nat) then Some (EBase 7%nat) else None.
Fixpoint run_schedule (sched : list nat) (p : pool nat nat) : pool nat nat :=
  match sched with [] => p | i :: sched => run_schedule sched (user_step i (ex_outcome i) p) end.
Fixpoint schedule_moves (sched : list nat) (p : pool nat nat) : bool :=
  match sched with
  | [] => true
  | i :: sched => match workers p !! i with Some w => can_move w | None => false end && schedule_moves sched (user_step i (ex_outcome i) p)
  end.
Lemma run_schedule_steps sched p : schedule_moves sched p = true → nsteps (runner_step user_step) (length sched) p (run_schedule sched p).
Proof.
  revert p. induction sched as [|i sched IH]; intros p; simpl; [constructor|]. intros [Hw Hs]%andb_true_iff.
  destruct (workers p !! i) as [w|] eqn:Hi; [|done]. eapply nsteps_l; [by eapply WorkerStep|by apply IH].
Qed.
Definition ex_sched : list nat := [0; 1; 1; 0; 1; 1; 0; 1; 1; 1; 1; 1; 0]%nat.
Lemma ForEachUser_correct_witness :
  let p := run_schedule ex_sched (start ex_users 2 false) in
  ForEachUser_result ex_users p = Some (EMulti [EBase 7%nat; EBase 7%nat]) ∧ (calls p).*1 ≡ₚ ex_users.
Proof.
  split; [vm_compute; reflexivity|].
  apply (ForEachUser_correct ex_users 2 (length ex_sched) (run_schedule ex_sched (start ex_users 2 false)));
    [reflexivity|apply run_schedule_steps; vm_compute; reflexivity|vm_compute; repeat constructor|vm_compute; reflexivity].
Defined.
