(* ===== verification/RateLimiter.v ===== *)
(** * Rate limiters by tenant: [limiter/rate_limiter.go]

    [getTenantLimiter] looks a limiter up under the read lock and creates or
    rechecks it under the write lock; in between it asks the strategy, which may
    answer differently each time.  Callers are interleaved at these points.  The
    limiters of [golang.org/x/time/rate] are what they are configured with. *)
From Stdlib Require Import ZArith Lia.
From stdpp Require Import base gmap strings list relations.
From S2P Require Import Prelude.

Section limiter.
Context {Rate : Type} `{!EqDecision Rate}.

(** a [rate.Limiter], with the tenant it has been made for *)
Record limiter := mkLimiter { l_Limit : Rate; l_Burst : Z; l_tenant : string }.
Record tenantLimiter := mkTenantLimiter { tl_limiter : nat; recheckAt : Z }.
Record RateLimiter := mkRateLimiter {
  recheckPeriod : Z;
  tenants : gmap string tenantLimiter;
  limiters : list limiter
}.
Definition NewRateLimiter (period : Z) : RateLimiter := mkRateLimiter period ∅ [].

(** where a call of [getTenantLimiter] is; [now] is its argument *)
Inductive caller :=
| CGet (now : Z) (tenantID : string)
| CCreate (now : Z) (tenantID : string)
| CInsert (now : Z) (tenantID : string) (new : nat)
| CRecheck (now : Z) (tenantID : string)
| CUpdate (now : Z) (tenantID : string) (limit : Rate) (burst : Z)
| CDone (tenantID : string) (lim : nat).

(** [strategy] is what the strategy answers at this step *)
Definition caller_step (strategy : string → Rate * Z) (c : caller) (l : RateLimiter) : option (caller * RateLimiter) :=
  match c with
  | CGet now tenantID =>
      match tenants l !! tenantID with
      | Some entry =>
          if negb (time_Before now (recheckAt entry)) then Some (CRecheck now tenantID, l)
          else Some (CDone tenantID (tl_limiter entry), l)
      | None => Some (CCreate now tenantID, l)
      end
  | CCreate now tenantID =>
      let '(limit, burst) := strategy tenantID in
      Some (CInsert now tenantID (length (limiters l)),
            mkRateLimiter (recheckPeriod l) (tenants l) (limiters l ++ [mkLimiter limit burst tenantID]))
  | CInsert now tenantID new =>
      match tenants l !! tenantID with
      | Some entry => Some (CDone tenantID (tl_limiter entry), l)
      | None =>
          let entry := mkTenantLimiter new (now + recheckPeriod l) in
          Some (CDone tenantID (tl_limiter entry), mkRateLimiter (recheckPeriod l) (<[tenantID := entry]> (tenants l)) (limiters l))
      end
  | CRecheck now tenantID =>
      let '(limit, burst) := strategy tenantID in Some (CUpdate now tenantID limit burst, l)
  | CUpdate now tenantID limit burst =>
      entry ← tenants l !! tenantID;           (* [None]: a [nil] entry is used, a panic *)
      if time_Before now (recheckAt entry) then Some (CDone tenantID (tl_limiter entry), l)
      else
        lim ← limiters l !! tl_limiter entry;
        let lim := if bool_decide (l_Limit lim ≠ limit) then mkLimiter limit (l_Burst lim) (l_tenant lim) else lim in
        let lim := if bool_decide (l_Burst lim ≠ burst) then mkLimiter (l_Limit lim) burst (l_tenant lim) else lim in
        Some (CDone tenantID (tl_limiter entry),
              mkRateLimiter (recheckPeriod l)
                (<[tenantID := mkTenantLimiter (tl_limiter entry) (now + recheckPeriod l)]> (tenants l))
                (<[tl_limiter entry := lim]> (limiters l)))
  | CDone _ _ => Some (c, l)
  end.
(** [Limit] and [Burst], once the limiter is known *)
Definition Limit (lim : nat) (l : RateLimiter) : option Rate := l_Limit <$> limiters l !! lim.
Definition Burst (lim : nat) (l : RateLimiter) : option Z := l_Burst <$> limiters l !! lim.

Inductive limiter_step : list caller * RateLimiter → list caller * RateLimiter → Prop :=
| CallerStep i c c' strategy cs l l' : cs !! i = Some c → caller_step strategy c l = Some (c', l') →
    limiter_step (cs, l) (<[i := c']> cs, l')
| CallerNew now tenantID cs l : limiter_step (cs, l) (cs ++ [CGet now tenantID], l).

(** ** One limiter per tenant *)
Implicit Types l : RateLimiter.
Definition made_for l (lim : nat) (t : string) : Prop := ∃ x, limiters l !! lim = Some x ∧ l_tenant x = t.
Definition caller_ok (c : caller) l : Prop :=
  match c with
  | CInsert _ t new => made_for l new t
  | CRecheck _ t | CUpdate _ t _ _ => is_Some (tenants l !! t)
  | CDone t lim => tl_limiter <$> tenants l !! t = Some lim
  | _ => True
  end.
Definition limiters_ok l : Prop := ∀ t e, tenants l !! t = Some e → made_for l (tl_limiter e) t.
(** what a step leaves of the past *)
Definition extends l l' : Prop :=
  (∀ lim t, made_for l lim t → made_for l' lim t) ∧
  (∀ t lim, tl_limiter <$> tenants l !! t = Some lim → tl_limiter <$> tenants l' !! t = Some lim).

Lemma extends_refl l : extends l l.
Proof. done. Qed.
Lemma caller_ok_extends c l l' : extends l l' → caller_ok c l → caller_ok c l'.
Proof.
  intros [Hm Ht]. destruct c as [| |now t new|now t|now t a b|t lim]; simpl; auto.
  all: intros [e He]; specialize (Ht t (tl_limiter e)); rewrite He in Ht; specialize (Ht eq_refl);
    destruct (tenants l' !! t); [eauto|done].
Qed.

Lemma insert_entry_extends t e l : tl_limiter <$> tenants l !! t = None ∨ tl_limiter <$> tenants l !! t = Some (tl_limiter e) →
  ∀ t' lim, tl_limiter <$> tenants l !! t' = Some lim → tl_limiter <$> <[t := e]> (tenants l) !! t' = Some lim.
Proof.
  intros Hold t' lim Hl. destruct (decide (t' = t)) as [->|]; [|by rewrite lookup_insert_ne].
  rewrite lookup_insert_eq. simpl. destruct Hold; congruence.
Qed.

Lemma caller_step_ok strategy c l : limiters_ok l → caller_ok c l →
  ∃ c' l', caller_step strategy c l = Some (c', l') ∧ limiters_ok l' ∧ caller_ok c' l' ∧ extends l l'.
Proof.
  intros Hl Hc. destruct c as [now t|now t|now t new|now t|now t limit burst|t lim]; simpl in *.
  - destruct (tenants l !! t) as [e|] eqn:He; [|eexists _, _; done]. destruct (negb _).
    + eexists _, _. split_and!; [done|done| |done]. simpl. by eexists.
    + eexists _, _. split_and!; [done|done| |done]. simpl. by rewrite He.
  - destruct (strategy t) as [limit burst]. eexists _, _. split; [done|].
    assert (∀ lim t', made_for l lim t' → made_for (mkRateLimiter (recheckPeriod l) (tenants l) (limiters l ++ [mkLimiter limit burst t])) lim t') as Hext.
    { intros lim t' (x & Hx & Ht). exists x. split; [by apply lookup_app_l_Some|done]. }
    split_and!; [intros t' e He; apply Hext; by apply Hl| |by split].
    simpl. eexists. split; [by apply list_lookup_middle|done].
  - destruct (tenants l !! t) as [e|] eqn:He.
    + eexists _, _. split_and!; [done|done| |done]. simpl. by rewrite He.
    + eexists _, _. split; [done|]. split_and!.
      * intros t' e He'. simpl in He'. apply lookup_insert_Some in He' as [[<- <-]|[_ Hl']]; [done|by apply Hl in Hl'].
      * simpl. by rewrite lookup_insert_eq.
      * split; [done|]. simpl. apply insert_entry_extends. left. by rewrite He.
  - destruct (strategy t) as [limit burst]. by eexists _, _.
  - destruct Hc as [e He]. rewrite He. simpl. destruct (time_Before now (recheckAt e)).
    + eexists _, _. split_and!; [done|done| |done]. simpl. by rewrite He.
    + destruct (Hl _ _ He) as (x & Hx & Hxt). rewrite Hx. simpl.
      set (x' := if bool_decide (l_Burst _ ≠ burst) then _ else _).
      assert (l_tenant x' = t) as Hx' by (unfold x'; repeat case_bool_decide; simpl; done).
      eexists _, _. split; [done|].
      assert (∀ lim t', made_for l lim t' → made_for (mkRateLimiter (recheckPeriod l)
        (<[t := mkTenantLimiter (tl_limiter e) (now + recheckPeriod l)]> (tenants l)) (<[tl_limiter e := x']> (limiters l))) lim t') as Hext.
      { intros lim t' (y & Hy & Hyt). unfold made_for. simpl. destruct (decide (lim = tl_limiter e)) as [->|].
        - exists x'. rewrite list_lookup_insert_eq by (by apply lookup_lt_Some in Hx). split; [done|]. congruence.
        - exists y. by rewrite list_lookup_insert_ne. }
      split_and!.
      * intros t' e' He'. simpl in He'. apply lookup_insert_Some in He' as [[<- <-]|[_ Hl']]; [simpl; apply Hext; by apply Hl|apply Hext; by apply Hl].
      * simpl. by rewrite lookup_insert_eq.
      * split; [done|]. simpl. apply insert_entry_extends. right. by rewrite He.
  - by eexists _, _.
Qed.

Definition system_ok (s : list caller * RateLimiter) : Prop := limiters_ok s.2 ∧ Forall (λ c, caller_ok c s.2) s.1.
Lemma limiter_steps_ok s s' : rtc limiter_step s s' → system_ok s → system_ok s'.
Proof.
  induction 1 as [|s1 s2 s3 Hs _ IH]; [done|]. intros [Hl Hcs]. apply IH.
  destruct Hs as [i c c' strategy cs l l' Hi Hs|now t cs l]; simpl in *.
  - assert (caller_ok c l) as Hc by (eapply Forall_lookup_1 in Hcs; [exact Hcs|done]).
    destruct (caller_step_ok strategy c l Hl Hc) as (c2 & l2 & Hs2 & Hl' & Hc' & Hext). simplify_eq. split; [done|].
    apply Forall_insert; [|done]. eapply Forall_impl; [exact Hcs|]. simpl. intros c0. by apply caller_ok_extends.
  - split; [done|]. apply Forall_app. split; [done|]. by repeat constructor.
Qed.

(** However callers interleave and whatever the strategy answers, no step panics;
    all callers of a tenant are given the same limiter, for ever, and callers of
    different tenants different ones. *)
Lemma one_limiter_per_tenant period cs l : rtc limiter_step ([], NewRateLimiter period) (cs, l) →
  (∀ i c strategy, cs !! i = Some c → is_Some (caller_step strategy c l)) ∧
  (∀ t1 t2 lim1 lim2, CDone t1 lim1 ∈ cs → CDone t2 lim2 ∈ cs → (t1 = t2 ↔ lim1 = lim2)).
Proof.
  intros Hr. destruct (limiter_steps_ok _ _ Hr) as [Hl Hcs]; [split; [intros t e He; simpl in He; by rewrite lookup_empty in He|constructor]|]. simpl in *.
  split.
  - intros i c strategy Hi. assert (caller_ok c l) as Hc by (eapply Forall_lookup_1 in Hcs; [exact Hcs|done]).
    destruct (caller_step_ok strategy c l Hl Hc) as (c2 & l2 & -> & _). eauto.
  - rewrite Forall_forall in Hcs. intros t1 t2 lim1 lim2 H1%Hcs H2%Hcs. simpl in *.
    destruct (tenants l !! t1) as [e1|] eqn:E1; [|done]. destruct (tenants l !! t2) as [e2|] eqn:E2; [|done]. simpl in *. simplify_eq.
    split; [intros ->; congruence|]. intros He. destruct (Hl _ _ E1) as (x1 & Hx1 & <-), (Hl _ _ E2) as (x2 & Hx2 & <-). congruence.
Qed.

(** A recheck configures the limiter as the strategy has answered, once the period
    has elapsed, and the next one is a period later. *)
Lemma recheck_updates now t limit burst l e : limiters_ok l → tenants l !! t = Some e → recheckAt e ≤ now →
  ∃ l', caller_step (λ _, (limit, burst)) (CUpdate now t limit burst) l = Some (CDone t (tl_limiter e), l') ∧
    Limit (tl_limiter e) l' = Some limit ∧ Burst (tl_limiter e) l' = Some burst ∧
    recheckAt <$> tenants l' !! t = Some (now + recheckPeriod l).
Proof.
  intros Hl He Hn. simpl. rewrite He. simpl. unfold time_Before. rewrite bool_decide_eq_false_2 by lia.
  destruct (Hl _ _ He) as (x & Hx & _). rewrite Hx. simpl. eexists. split; [done|]. unfold Limit, Burst. simpl.
  rewrite list_lookup_insert_eq by (by apply lookup_lt_Some in Hx). rewrite lookup_insert_eq. simpl.
  split_and!; [| |done]; f_equal; repeat case_bool_decide; simpl in *; try done.
Qed.
End limiter.
