(* ===== verification/DNSResolver.v ===== *)
(** * The DNS resolver: [grpcutil/dns_resolver.go], [grpcutil/naming.go]

    Watchers that report the changes of the addresses of a name.  An [Update] is
    behind a pointer, which the watcher keeps after it has returned it: updates
    live in a store.  The answers of the DNS server are arguments; parsing an IP
    address and splitting host and port are parameters. *)
From Stdlib Require Import ZArith Lia.
From stdpp Require Import base gmap strings list fin_maps fin_sets pretty.
From S2P Require Import Prelude.

(** ** [naming.go] *)
Inductive Operation := Add | Delete.
Record Update := mkUpdate { Op : Operation; Addr : string }.

Section resolver.
Context `{R : MapRange}.
(** [net.ParseIP] with [To4]: whether the address is an IPv4 one *)
Variable ParseIP : string → option bool.
(** [net.SplitHostPort]: [None] is an error *)
Variable SplitHostPort : string → option (string * string).

Definition defaultPort : string := "443".
Definition formatIP (addr : string) : option string :=
  match ParseIP addr with
  | None => None
  | Some true => Some addr
  | Some false => Some ("[" +:+ addr +:+ "]")
  end.
Inductive target_error := errMissingAddr | ErrInvalidTarget.
Definition parseTarget (target : string) : result target_error (string * string) :=
  if bool_decide (target = ""%string) then Err errMissingAddr
  else
    match ParseIP target with
    | Some _ => Ok (target, defaultPort)
    | None =>
        match SplitHostPort target with
        | Some (host, port) =>
            let host := if bool_decide (host = ""%string) then "localhost"%string else host in
            let port := if bool_decide (port = ""%string) then defaultPort else port in
            Ok (host, port)
        | None =>
            match SplitHostPort (target +:+ ":" +:+ defaultPort) with
            | Some (host, port) => Ok (host, port)
            | None => Err ErrInvalidTarget
            end
        end
    end.

(** ** [dnsWatcher] *)
(** [curAddrs] maps addresses to updates in the store; a nil map is an empty one *)
Record dnsWatcher := mkDnsWatcher {
  host : string;
  port : string;
  service : string;
  curAddrs : gmap string nat;
  store : list Update
}.
(** what the DNS server answers: [None] is an error *)
Record dns := mkDns { srv_answer : option (list (string * Z)); host_answer : string → option (list string) }.

Definition add_addr (acc : gmap string nat * list Update) (addr : string) : gmap string nat * list Update :=
  let '(newAddrs, store) := acc in (<[addr := length store]> newAddrs, store ++ [mkUpdate Add addr]).
(** the addresses of an answer, with a port *)
Definition add_all (addrs : list string) (port : string) (acc : gmap string nat * list Update) : gmap string nat * list Update :=
  foldl (λ acc a, match formatIP a with Some a => add_addr acc (a +:+ ":" +:+ port) | None => acc end) acc addrs.
(** [None]: a nil map *)
Definition lookupSRV (d : dns) (w : dnsWatcher) : option (gmap string nat) * list Update :=
  if bool_decide (service w = ""%string) then (None, store w)
  else
    match srv_answer d with
    | None => (None, store w)
    | Some srvs =>
        let '(newAddrs, st) :=
          foldl (λ acc '(target, sport),
            match host_answer d target with
            | None => acc
            | Some addrs => add_all addrs (pretty (Z.to_N sport)) acc
            end) (∅, store w) srvs in
        (Some newAddrs, st)
    end.
Definition lookupHost (d : dns) (w : dnsWatcher) (st : list Update) : option (gmap string nat) * list Update :=
  match host_answer d (host w) with
  | None => (None, st)
  | Some addrs => let '(newAddrs, st) := add_all addrs (port w) (∅, st) in (Some newAddrs, st)
  end.
Definition set_op (op : Operation) (u : Update) : Update := mkUpdate op (Addr u).
(** the updates returned, and the store: those of the addresses that are gone are
    changed in place *)
Definition compileUpdate (cur newAddrs : gmap string nat) (st : list Update) : list nat * list Update :=
  let '(res, st) := foldl (λ acc '(a, u), let '(res, st) := acc in
    match newAddrs !! a with
    | None => (res ++ [u], alter (set_op Delete) u st)
    | Some _ => (res, st)
    end) ([], st) (map_range 177 cur) in
  let res := foldl (λ res '(a, u),
    match cur !! a with
    | None => res ++ [u]
    | Some _ => res
    end) res (map_range 183 newAddrs) in
  (res, st).
Definition lookup (d : dns) (w : dnsWatcher) : list nat * dnsWatcher :=
  let '(newAddrs, st) := lookupSRV d w in
  let '(newAddrs, st) := match newAddrs with None => lookupHost d w st | Some _ => (newAddrs, st) end in
  let '(result, st) := compileUpdate (curAddrs w) (default ∅ newAddrs) st in
  (result, mkDnsWatcher (host w) (port w) (service w) (default ∅ newAddrs) st).

(** a turn of [Next]: the watcher has been closed, or the timer has fired *)
Inductive next_turn := TurnClosed | TurnTimer (d : dns).
Inductive next_result := NextClosed | NextUpdates (us : list nat).
Fixpoint Next (turns : list next_turn) (w : dnsWatcher) : option (next_result * dnsWatcher) :=
  match turns with
  | [] => None
  | TurnClosed :: _ => Some (NextClosed, w)
  | TurnTimer d :: turns =>
      let '(result, w) := lookup d w in
      if bool_decide (0 < length result)%nat then Some (NextUpdates result, w) else Next turns w
  end.

(** ** [ipWatcher]: a channel with room for one update *)
Record ipWatcher := mkIpWatcher { updateChan : list Update; chan_closed : bool }.
(** [None]: it blocks *)
Definition ip_Next (w : ipWatcher) : option (result unit (list Update) * ipWatcher) :=
  match updateChan w with
  | u :: us => Some (Ok [u], mkIpWatcher us (chan_closed w))
  | [] => if chan_closed w then Some (Err tt, w) else None
  end.
(** [None]: a panic *)
Definition ip_Close (w : ipWatcher) : option ipWatcher := if chan_closed w then None else Some (mkIpWatcher (updateChan w) true).

Inductive Watcher := IpWatcher (w : ipWatcher) | DnsWatcher (w : dnsWatcher).
Definition Resolve (target service : string) : result target_error Watcher :=
  match parseTarget target with
  | Err e => Err e
  | Ok (host, port) =>
      match ParseIP host with
      | Some _ =>
          let host := default ""%string (formatIP host) in
          Ok (IpWatcher (mkIpWatcher [mkUpdate Add (host +:+ ":" +:+ port)] false))
      | None => Ok (DnsWatcher (mkDnsWatcher host port service ∅ []))
      end
  end.
End resolver.

(** ** The updates of a DNS watcher add up to the addresses of the name

    What a lookup returns is exactly the difference to the previous one. *)
Section facts.
Context `{R : MapRange}.
Variable ParseIP : string → option bool.
Implicit Types (w : dnsWatcher) (st : list Update).

(** ** The addresses of an answer *)
Definition endpoints (addrs : list string) (port : string) : list string :=
  omap (λ a, (λ a, a +:+ ":" +:+ port) <$> formatIP ParseIP a) addrs.
(** as the documentation of [Resolve] says, with the SRV record first *)
Definition resolved (d : dns) w : list string :=
  match (if bool_decide (service w = ""%string) then None else srv_answer d) with
  | Some srvs => srvs ≫= λ '(target, sport), match host_answer d target with
                                              | Some addrs => endpoints addrs (pretty (Z.to_N sport)) | None => [] end
  | None => match host_answer d (host w) with Some addrs => endpoints addrs (port w) | None => [] end
  end.

(** a map under construction: new updates, behind those of [base] *)
Record build_ok (base : list Update) (told : list string) (acc : gmap string nat * list Update) : Prop := {
  bo_dom : dom acc.1 = list_to_set told;
  bo_new : ∀ a u, acc.1 !! a = Some u → (length base ≤ u)%nat ∧ acc.2 !! u = Some (mkUpdate Add a);
  bo_base : base `prefix_of` acc.2
}.
Lemma build_start base : build_ok base [] (∅, base).
Proof. constructor; simpl; [set_solver|intros a u; by rewrite lookup_empty|done]. Qed.
Lemma add_addr_ok base told acc a : build_ok base told acc → build_ok base (told ++ [a]) (add_addr acc a).
Proof.
  destruct acc as [m st]. intros [Hd Hn Hb]. simpl in *. constructor; simpl.
  - rewrite dom_insert_L, Hd, list_to_set_app_L. set_solver.
  - intros x u [[<- <-]|[_ Hl]]%lookup_insert_Some.
    + split; [by apply prefix_length|]. by apply list_lookup_middle.
    + destruct (Hn _ _ Hl) as [? ?]. split; [done|]. by apply lookup_app_l_Some.
  - by apply prefix_app_r.
Qed.
Lemma add_all_ok base told acc addrs p : build_ok base told acc →
  build_ok base (told ++ endpoints addrs p) (add_all ParseIP addrs p acc).
Proof.
  unfold add_all. revert told acc. induction addrs as [|a addrs IH]; intros told acc Hb; simpl; [by rewrite app_nil_r|].
  unfold endpoints. simpl. destruct (formatIP ParseIP a) as [a'|]; simpl; [|by apply IH].
  rewrite cons_middle, app_assoc. apply IH. by apply add_addr_ok.
Qed.
Lemma srv_ok d base srvs told acc : build_ok base told acc →
  build_ok base (told ++ srvs ≫= λ '(target, sport), match host_answer d target with
                                              | Some addrs => endpoints addrs (pretty (Z.to_N sport)) | None => [] end)
    (foldl (λ acc '(target, sport),
            match host_answer d target with
            | None => acc
            | Some addrs => add_all ParseIP addrs (pretty (Z.to_N sport)) acc
            end) acc srvs).
Proof.
  revert told acc. induction srvs as [|[t p] srvs IH]; intros told acc Hb; simpl; [by rewrite app_nil_r|].
  destruct (host_answer d t) as [addrs|]; [|by apply IH]. rewrite app_assoc. apply IH. by apply add_all_ok.
Qed.

Definition new_addresses (d : dns) w : gmap string nat * list Update :=
  let '(newAddrs, st) := lookupSRV ParseIP d w in
  let '(newAddrs, st) := match newAddrs with None => lookupHost ParseIP d w st | Some _ => (newAddrs, st) end in
  (default ∅ newAddrs, st).
Lemma new_addresses_ok d w : build_ok (store w) (resolved d w) (new_addresses d w).
Proof.
  unfold new_addresses, lookupSRV, resolved. case_bool_decide as Hs; [|destruct (srv_answer d) as [srvs|]].
  2:{ pose proof (srv_ok d (store w) srvs [] (∅, store w) (build_start _)) as Hb. simpl in Hb.
      destruct (foldl _ (∅, store w) srvs) as [m st]. done. }
  all: unfold lookupHost; destruct (host_answer d (host w)) as [addrs|]; simpl; [|apply build_start];
    pose proof (add_all_ok (store w) [] (∅, store w) addrs (port w) (build_start _)) as Hb; simpl in Hb;
    destruct (add_all _ _ _ _) as [m st]; done.
Qed.

(** ** The difference *)
Lemma alter_delete_spec (us : list nat) st i :
  foldl (λ st u, alter (set_op Delete) u st) st us !! i = if decide (i ∈ us) then set_op Delete <$> st !! i else st !! i.
Proof.
  revert st. induction us as [|u us IH]; intros st; simpl; [done|]. rewrite IH.
  destruct (decide (i = u)) as [->|Hne].
  - rewrite list_lookup_alter_eq, (decide_True (P:=u ∈ u :: us)) by (by left). destruct (decide (u ∈ us)); [|done].
    by destruct (st !! u).
  - rewrite list_lookup_alter_ne by done. destruct (decide (i ∈ us)); [by rewrite decide_True by (by right)|].
    rewrite decide_False; [done|]. by intros [|]%elem_of_cons.
Qed.

Definition gone (newAddrs : gmap string nat) (x : string * nat) : bool := bool_decide (newAddrs !! x.1 = None).
Lemma compileUpdate_eq cur newAddrs st :
  compileUpdate cur newAddrs st =
  (((filter (λ x, gone newAddrs x = true) (map_range 177 cur)).*2 ++ (filter (λ x, gone cur x = true) (map_range 183 newAddrs)).*2),
   foldl (λ st u, alter (set_op Delete) u st) st (filter (λ x, gone newAddrs x = true) (map_range 177 cur)).*2).
Proof.
  unfold compileUpdate.
  assert (∀ l res st, foldl (λ acc '(a, u), let '(res, st) := acc in
    match newAddrs !! a with
    | None => (res ++ [u], alter (set_op Delete) u st)
    | Some _ => (res, st)
    end) (res, st) l =
    (res ++ (filter (λ x, gone newAddrs x = true) l).*2, foldl (λ st u, alter (set_op Delete) u st) st (filter (λ x, gone newAddrs x = true) l).*2)) as H1.
  { induction l as [|[a u] l IH]; intros res st'; simpl; [by rewrite app_nil_r|]. rewrite filter_cons.
    assert (gone newAddrs (a, u) = bool_decide (newAddrs !! a = None)) as Hg by done.
    destruct (newAddrs !! a) as [v|] eqn:Ha; rewrite IH; simpl in Hg; case_decide as Hd; try congruence; simpl; by rewrite <- ?app_assoc. }
  rewrite H1. simpl. f_equal.
  assert (∀ l res, foldl (λ res '(a, u), match cur !! a with None => res ++ [u] | Some _ => res end) res l
    = res ++ (filter (λ x, gone cur x = true) l).*2) as H2; [|apply H2].
  induction l as [|[a u] l IH]; intros res; simpl; [by rewrite app_nil_r|]. rewrite filter_cons.
  assert (gone cur (a, u) = bool_decide (cur !! a = None)) as Hg by done.
  destruct (cur !! a) as [v|] eqn:Ha; rewrite IH; simpl in Hg; case_decide as Hd; try congruence; simpl; by rewrite <- ?app_assoc.
Qed.

Lemma gone_elem (m m' : gmap string nat) site a : a ∈ (filter (λ x, gone m' x = true) (map_range site m)).*1 ↔ a ∈ dom m ∖ dom m'.
Proof.
  rewrite list_elem_of_fmap, elem_of_difference, !elem_of_dom. split.
  - intros ([a' u] & -> & [Hg Hin]%list_elem_of_filter). apply map_range_elem in Hin. unfold gone in Hg. simpl in *.
    apply bool_decide_eq_true in Hg. rewrite Hg. split; [by eexists|by intros [? ?]].
  - intros [[u Hu] Hn]. exists (a, u). split; [done|]. apply list_elem_of_filter. split; [|by apply map_range_elem].
    unfold gone. simpl. apply bool_decide_eq_true. by apply eq_None_not_Some.
Qed.

Lemma filter_fst_NoDup (P : string * nat → bool) site (m : gmap string nat) : NoDup (filter (λ x, P x = true) (map_range site m)).*1.
Proof. apply (sublist_NoDup _ (map_range site m).*1); [apply map_range_NoDup_fst|apply fmap_sublist, sublist_filter]. Qed.

Definition w_ok w : Prop := ∀ a u, curAddrs w !! a = Some u → Addr <$> store w !! u = Some a.

(** what a lookup returns, as its caller sees it *)
Lemma lookup_delta d w us w' : w_ok w → lookup ParseIP d w = (us, w') →
  w_ok w' ∧ dom (curAddrs w') = list_to_set (resolved d w) ∧ host w' = host w ∧ port w' = port w ∧ service w' = service w ∧
  ∃ dels adds, ((store w' !!.) <$> us) = Some <$> ((mkUpdate Delete <$> dels) ++ (mkUpdate Add <$> adds)) ∧
    NoDup dels ∧ NoDup adds ∧
    (∀ a, a ∈ dels ↔ a ∈ dom (curAddrs w) ∖ dom (curAddrs w')) ∧ (∀ a, a ∈ adds ↔ a ∈ dom (curAddrs w') ∖ dom (curAddrs w)).
Proof.
  intros Hw. pose proof (new_addresses_ok d w) as Hb. unfold lookup. unfold new_addresses in Hb.
  destruct (lookupSRV ParseIP d w) as [na0 st0]. destruct (match na0 with None => _ | Some _ => _ end) as [na st].
  set (new := default ∅ na) in *. destruct Hb as [Hd Hn Hbase]. simpl in *. rewrite compileUpdate_eq. intros [= <- <-].
  set (del := filter _ (map_range 177 (curAddrs w))). set (add := filter _ (map_range 183 new)).
  assert (∀ a u, (a, u) ∈ del → Addr <$> store w !! u = Some a ∧ (u < length (store w))%nat) as Hdel.
  { intros a u [_ Hin%map_range_elem]%list_elem_of_filter. pose proof (Hw _ _ Hin) as He. split; [done|].
    destruct (store w !! u) eqn:Hl; [by apply lookup_lt_Some in Hl|done]. }
  assert (∀ a u, new !! a = Some u → foldl (λ st u, alter (set_op Delete) u st) st del.*2 !! u = Some (mkUpdate Add a)) as Hnew.
  { intros a u Hu. rewrite alter_delete_spec. destruct (Hn _ _ Hu) as [Hge Hst]. rewrite decide_False; [done|].
    intros ([a' u'] & -> & Hin)%list_elem_of_fmap. apply Hdel in Hin as [_ Hlt]. simpl in *. lia. }
  split_and!; try done; [intros a u Hu; simpl; by rewrite (Hnew _ _ Hu)|].
  exists del.*1, add.*1. split_and!; [|apply filter_fst_NoDup|apply filter_fst_NoDup|apply gone_elem|apply gone_elem].
  rewrite !fmap_app. f_equal.
  - rewrite <- !list_fmap_compose. apply list_fmap_ext. intros i [a u] Hi%list_elem_of_lookup_2. simpl.
    rewrite alter_delete_spec. rewrite decide_True by (apply list_elem_of_fmap; by exists (a, u)).
    apply Hdel in Hi as [Ha Hlt]. destruct (store w !! u) as [[op a']|] eqn:Hst; [|done]. simpl in Ha. simplify_eq.
    rewrite (prefix_lookup_Some _ _ _ _ Hst Hbase). done.
  - rewrite <- !list_fmap_compose. apply list_fmap_ext. intros i [a u] Hi%list_elem_of_lookup_2. simpl.
    apply Hnew. apply list_elem_of_filter in Hi as [_ Hi]. by apply map_range_elem in Hi.
Qed.

(** ** Replaying the updates *)
Definition apply_update (seen : gset string) (u : Update) : gset string :=
  match Op u with Add => {[Addr u]} ∪ seen | Delete => seen ∖ {[Addr u]} end.
Definition apply_updates (us : list Update) (seen : gset string) : gset string := foldl apply_update seen us.
Lemma apply_dels dels seen : apply_updates (mkUpdate Delete <$> dels) seen = seen ∖ list_to_set dels.
Proof. unfold apply_updates. revert seen. induction dels as [|a dels IH]; intros seen; simpl; [set_solver|]. rewrite IH. unfold apply_update. simpl. set_solver. Qed.
Lemma apply_adds adds seen : apply_updates (mkUpdate Add <$> adds) seen = seen ∪ list_to_set adds.
Proof. unfold apply_updates. revert seen. induction adds as [|a adds IH]; intros seen; simpl; [set_solver|]. rewrite IH. unfold apply_update. simpl. set_solver. Qed.
Lemma omap_lookup_fmap (st : list Update) (us : list nat) (l : list Update) : ((st !!.) <$> us) = Some <$> l → omap (st !!.) us = l.
Proof.
  revert l. induction us as [|u us IH]; intros [|x l]; simpl; try done. intros [= Hu Hl]. rewrite Hu. f_equal. by apply IH.
Qed.

Lemma lookup_applies d w us w' : w_ok w → lookup ParseIP d w = (us, w') →
  w_ok w' ∧ dom (curAddrs w') = list_to_set (resolved d w) ∧ (service w' = service w ∧ host w' = host w ∧ port w' = port w) ∧
  apply_updates (omap (store w' !!.) us) (dom (curAddrs w)) = dom (curAddrs w') ∧
  (us = [] ↔ dom (curAddrs w') = dom (curAddrs w)).
Proof.
  intros Hw Hl. destruct (lookup_delta d w us w' Hw Hl) as (Hw' & Hd & Hh & Hp & Hs & dels & adds & He & _ & _ & Hdel & Hadd).
  assert (apply_updates (omap (store w' !!.) us) (dom (curAddrs w)) = dom (curAddrs w')) as Happ.
  { rewrite (omap_lookup_fmap _ _ _ He). unfold apply_updates. rewrite foldl_app.
    fold (apply_updates (mkUpdate Delete <$> dels) (dom (curAddrs w))). rewrite apply_dels.
    fold (apply_updates (mkUpdate Add <$> adds) (dom (curAddrs w) ∖ list_to_set dels)). rewrite apply_adds.
    apply set_eq. intros a. rewrite elem_of_union, elem_of_difference, !elem_of_list_to_set, Hdel, Hadd, !elem_of_difference.
    destruct (decide (a ∈ dom (curAddrs w))), (decide (a ∈ dom (curAddrs w'))); naive_solver. }
  split_and!; try done. split; [intros ->; by rewrite <- Happ|]. intros Heq.
  assert (dels = [] ∧ adds = []) as [-> ->].
  { split; apply elem_of_nil_inv; intros a; [rewrite Hdel|rewrite Hadd]; rewrite Heq; set_solver. }
  by destruct us.
Qed.

(** the caller of [Next] that keeps a set of addresses *)
Fixpoint follow (calls : list (list next_turn)) w (seen : gset string) : option (dnsWatcher * gset string) :=
  match calls with
  | [] => Some (w, seen)
  | turns :: calls =>
      '(r, w) ← Next ParseIP turns w;
      match r with
      | NextClosed => Some (w, seen)
      | NextUpdates us => follow calls w (apply_updates (omap (store w !!.) us) seen)
      end
  end.

Lemma Next_spec turns w r w' : w_ok w → Next ParseIP turns w = Some (r, w') →
  w_ok w' ∧ (service w' = service w ∧ host w' = host w ∧ port w' = port w) ∧
  match r with
  | NextClosed => dom (curAddrs w') = dom (curAddrs w)
  | NextUpdates us => dom (curAddrs w') ≠ dom (curAddrs w) ∧ apply_updates (omap (store w' !!.) us) (dom (curAddrs w)) = dom (curAddrs w') ∧
      ∃ d, TurnTimer d ∈ turns ∧ dom (curAddrs w') = list_to_set (resolved d w)
  end.
Proof.
  revert w. induction turns as [|[|d] turns IH]; intros w Hw; simpl; [done|by intros [= <- <-]|].
  destruct (lookup ParseIP d w) as [us w1] eqn:Hl. destruct (lookup_applies d w us w1 Hw Hl) as (Hw1 & Hd & (Hs & Hh & Hp) & Happ & Hnil).
  case_bool_decide as Hlen.
  - intros [= <- <-]. split_and!; try done; [by intros ->%Hnil; simpl in Hlen; lia|]. exists d. split; [by left|done].
  - assert (us = []) as -> by (apply length_zero_iff_nil; lia). apply proj1 in Hnil. specialize (Hnil eq_refl). intros Hn.
    destruct (IH w1 Hw1 Hn) as (Hw' & (E1 & E2 & E3) & Hr). split; [done|]. split; [by rewrite E1, E2, E3|]. destruct r as [|us].
    + congruence.
    + rewrite Hnil in Hr. destruct Hr as (? & ? & d' & Hin & Hd'). split_and!; [done|done|]. exists d'. split; [by right|].
      rewrite Hd'. unfold resolved. by rewrite Hs, Hh, Hp.
Qed.

(** A caller that applies the updates it is given, in their order, to a set of
    addresses always has exactly the addresses of the last lookup; every list of
    updates is a real change. *)
Theorem dns_updates_add_up (host port service : string) (calls : list (list next_turn)) (w : dnsWatcher) (seen : gset string) :
  follow calls (mkDnsWatcher host port service ∅ []) ∅ = Some (w, seen) →
  seen = dom (curAddrs w) ∧
  ∀ turns us w', Next ParseIP turns w = Some (NextUpdates us, w') →
    apply_updates (omap (store w' !!.) us) seen ≠ seen ∧
    ∃ d, TurnTimer d ∈ turns ∧ apply_updates (omap (store w' !!.) us) seen = list_to_set (resolved d w).
Proof.
  intros Hf. assert (∀ w0, w_ok w0 → follow calls w0 (dom (curAddrs w0)) = Some (w, seen) → w_ok w ∧ seen = dom (curAddrs w)) as Hgen.
  { clear Hf. induction calls as [|turns calls IH]; intros w0 Hw0; simpl; [by intros [= <- <-]|].
    destruct (Next ParseIP turns w0) as [[r w1]|] eqn:Hn; [|done]. simpl.
    destruct (Next_spec _ _ _ _ Hw0 Hn) as (Hw1 & _ & Hr). destruct r as [|us].
    - intros [= <- <-]. by rewrite Hr.
    - destruct Hr as (_ & -> & _). by apply IH. }
  destruct (Hgen (mkDnsWatcher host port service ∅ [])) as [Hw ->]; [intros a u; simpl; by rewrite lookup_empty|by rewrite <- Hf|].
  split; [done|]. intros turns us w' Hn. pose proof Hn as Hn'. apply Next_spec in Hn' as (Hw' & _ & Hne & Happ & d & Hin & Hd); [|done].
  rewrite Happ. split; [done|by exists d].
Qed.
End facts.

(** ** Witness and divergences *)
Section witnesses.
#[local] Existing Instance map_range_std.
(** every address parses as an IPv4 one but this *)
Definition ex_ParseIP (s : string) : option bool := if String.eqb s "bad" then None else Some true.
Definition ex_dns (addrs : list string) : dns := mkDns None (λ _, Some addrs).
Definition ex_calls : list (list next_turn) :=
  [[TurnTimer (ex_dns ["a"; "b"])]; [TurnTimer (ex_dns ["b"; "a"]); TurnTimer (ex_dns ["b"; "c"])]].
Definition ex_watcher : dnsWatcher * gset string :=
  default (mkDnsWatcher "h" "80" "" ∅ [], ∅) (follow ex_ParseIP ex_calls (mkDnsWatcher "h" "80" "" ∅ []) ∅).
Lemma ex_follow : follow ex_ParseIP ex_calls (mkDnsWatcher "h" "80" "" ∅ []) ∅ = Some (ex_watcher.1, ex_watcher.2).
Proof. vm_compute. reflexivity. Qed.
Lemma dns_updates_add_up_witness : ex_watcher.2 = dom (curAddrs ex_watcher.1) ∧ ex_watcher.2 = {["b:80"; "c:80"]}.
Proof.
  split; [|vm_compute; reflexivity].
  apply (dns_updates_add_up ex_ParseIP "h" "80" "" ex_calls ex_watcher.1 ex_watcher.2 ex_follow).
Defined.

(** The SRV record is found but none of its targets has a valid address: the host
    name is not looked up, although the comment says that it is when no valid
    address could be got from the SRV record. *)
Lemma srv_without_addresses_no_fallback :
  let d := mkDns (Some [("target", 80)]) (λ name, if String.eqb name "target" then Some ["bad"] else Some ["a"]) in
  let w := mkDnsWatcher "h" "80" "svc" ∅ [] in
  curAddrs (lookup ex_ParseIP d w).2 = ∅ ∧ dom (curAddrs (lookup ex_ParseIP d (mkDnsWatcher "h" "80" "" ∅ [])).2) = {["a:80"]}.
Proof. vm_compute. split; reflexivity. Qed.

(** The update that has announced an address is the one that later withdraws it: it
    is changed in place, also for a caller that has kept it. *)
Lemma update_changed_in_place :
  let w0 := mkDnsWatcher "h" "80" "" ∅ [] in
  let '(us, w1) := lookup ex_ParseIP (ex_dns ["a"]) w0 in
  let '(us', w2) := lookup ex_ParseIP (ex_dns []) w1 in
  us = us' ∧ omap (store w1 !!.) us = [mkUpdate Add "a:80"] ∧ omap (store w2 !!.) us = [mkUpdate Delete "a:80"].
Proof. vm_compute. repeat split. Qed.
End witnesses.
