(* ===== verification/ModuleService.v ===== *)
(** * Services of modules wait for one another: [modules/module_service.go],
    [modules/module_service_wrapper.go]

    A [moduleService] wraps the service of a module: it starts it when the modules
    it depends on are running, and stops it when the modules that depend on it have
    stopped.  The wrappers of a process, those [InitModuleServices] returns, are
    interleaved with one another and with the services they wrap.  A wrapper is a
    [BasicService] (Services.v): its goroutine runs [start], [run] and [stop], and
    [start] failing ends it. *)
From Stdlib Require Import ZArith Lia.
From stdpp Require Import base gmap strings list fin_maps relations.
From S2P Require Import Prelude Services Modules ModulesFacts.

(** where the goroutine of a wrapper is *)
Inductive wrapper_pc :=
| WNew
| WStartWait (todo : list string)   (* [start]: waits for these to be running *)
| WStartInner                       (* starts the service *)
| WAwaitInner                       (* waits for it to be running *)
| WRun
| WStop                             (* [stop]: looks at the state of the service *)
| WStopWait (todo : list string)    (* [waitForModulesToStop] *)
| WStopInner                        (* stops the service *)
| WStopAwait                        (* waits for it to terminate *)
| WTerminated
| WFailed.
#[export] Instance wrapper_pc_eq_dec : EqDecision wrapper_pc.
Proof. solve_decision. Defined.
(** the state of the wrapper as a service *)
Definition wrapper_state (pc : wrapper_pc) : State :=
  match pc with
  | WNew => New
  | WStartWait _ | WStartInner | WAwaitInner => Starting
  | WRun => Running
  | WStop | WStopWait _ | WStopInner | WStopAwait => Stopping
  | WTerminated => Terminated
  | WFailed => Failed
  end.
(** a module: its wrapper, whether the context of the wrapper is done, whether the
    wrapper has been running; the service it wraps, and whether the wrapper has
    called [StopAsync] on it *)
Record module_state := mkModuleState {
  ms_pc : wrapper_pc;
  ms_ctx : bool;
  ms_ran : bool;
  ms_inner : State;
  ms_inner_stop : bool
}.
Definition init_module : module_state := mkModuleState WNew false false New false.
Definition set_pc (pc : wrapper_pc) (s : module_state) : module_state :=
  mkModuleState pc (ms_ctx s) (ms_ran s || bool_decide (pc = WRun)) (ms_inner s) (ms_inner_stop s).
Definition set_inner (st : State) (s : module_state) : module_state :=
  mkModuleState (ms_pc s) (ms_ctx s) (ms_ran s) st (ms_inner_stop s).
Definition call_StopAsync (s : module_state) : module_state :=
  mkModuleState (ms_pc s) (ms_ctx s) (ms_ran s) (ms_inner s) true.

(** [AwaitRunning], when the context is not done: [None] waits *)
Definition await_running (st : State) : option bool :=
  match st with New | Starting => None | Running => Some true | _ => Some false end.

Abbreviation system := (gmap string module_state).

Section modules.
Context `{R : MapRange}.
(** the map of services *)
Variable serviceMap : gmap string wrapper.

(** [getDeps] *)
Definition getDeps (deps : list string) : gmap string wrapper :=
  foldl (λ r m, match serviceMap !! m with Some s => <[m := s]> r | None => r end) ∅ deps.
Definition startDeps (name : string) : list string :=
  (map_range 49 (getDeps (match serviceMap !! name with Some w => w_startDeps w | None => [] end))).*1.
Definition stopDeps (name : string) : list string :=
  (map_range 104 (getDeps (match serviceMap !! name with Some w => w_stopDeps w | None => [] end))).*1.

Definition newSystem : system := (λ _, init_module) <$> serviceMap.
Definition state_of (sys : system) (name : string) : State :=
  match sys !! name with Some s => wrapper_state (ms_pc s) | None => New end.

(** the next step of the goroutine of [name]; [see_ctx] says that a [select] takes
    the context if it is done; [None]: it waits *)
Definition wrapper_step (see_ctx : bool) (name : string) (sys : system) (s : module_state) : option module_state :=
  let ctx_taken := see_ctx && ms_ctx s in
  match ms_pc s with
  | WStartWait [] => Some (set_pc WStartInner s)
  | WStartWait (d :: todo) =>
      if ctx_taken then Some (set_pc WFailed s)
      else
        ok ← await_running (state_of sys d);
        Some (set_pc (if ok : bool then WStartWait todo else WFailed) s)
  | WStartInner =>
      match ms_inner s with
      | New => Some (set_pc WAwaitInner (set_inner Starting s))
      | _ => Some (set_pc WFailed s)
      end
  | WAwaitInner =>
      if ctx_taken then Some (set_pc WFailed s)
      else
        ok ← await_running (ms_inner s);
        Some (set_pc (if ok : bool then (if ms_ctx s then WStop else WRun) else WFailed) s)
  | WRun => if ctx_taken || terminal (ms_inner s) then Some (set_pc WStop s) else None
  | WStop =>
      match ms_inner s with
      | Running => Some (set_pc (WStopWait (stopDeps name)) s)
      | Failed => Some (set_pc WFailed s)
      | _ => Some (set_pc WTerminated s)
      end
  | WStopWait [] => Some (set_pc WStopInner s)
  | WStopWait (d :: todo) => if terminal (state_of sys d) then Some (set_pc (WStopWait todo) s) else None
  | WStopInner => Some (set_pc WStopAwait (call_StopAsync s))
  | WStopAwait =>
      match ms_inner s with
      | Terminated => Some (set_pc WTerminated s)
      | Failed => Some (set_pc WFailed s)
      | _ => None
      end
  | WNew | WTerminated | WFailed => None
  end.

Inductive module_event :=
| CallStart (name : string)                 (* [StartAsync] on a wrapper *)
| CallStop (name : string)                  (* [StopAsync] on a wrapper *)
| StepWrapper (name : string) (see_ctx : bool)
| StepInner (name : string) (to : State).   (* a started service changes its state *)

Definition module_step (ev : module_event) (sys : system) : option system :=
  match ev with
  | CallStart name =>
      s ← sys !! name;
      match ms_pc s with
      | WNew => Some (<[name := set_pc (WStartWait (startDeps name)) s]> sys)
      | _ => Some sys
      end
  | CallStop name =>
      s ← sys !! name;
      match ms_pc s with
      | WNew => Some (<[name := set_pc WTerminated s]> sys)
      | pc =>
          if terminal (wrapper_state pc) then Some sys
          else Some (<[name := mkModuleState (ms_pc s) true (ms_ran s) (ms_inner s) (ms_inner_stop s)]> sys)
      end
  | StepWrapper name see_ctx =>
      s ← sys !! name;
      s' ← wrapper_step see_ctx name sys s;
      Some (<[name := s']> sys)
  | StepInner name to =>
      s ← sys !! name;
      if bool_decide (ms_inner s ≠ New) && diagram (ms_inner s) to
      then Some (<[name := set_inner to s]> sys) else None
  end.
Fixpoint module_run (evs : list module_event) (sys : system) : option system :=
  match evs with [] => Some sys | ev :: evs => sys ← module_step ev sys; module_run evs sys end.
End modules.

(** ** Modules start after those they need and stop before them

    For every interleaving of the wrappers with the services they wrap; and once
    all have been asked to stop, all end. *)
Section facts.
Context `{R : MapRange}.
Variable serviceMap : gmap string wrapper.
Implicit Types (sys : system) (s : module_state).

Lemma getDeps_dom deps m : m ∈ dom (getDeps serviceMap deps) ↔ m ∈ deps ∧ m ∈ dom serviceMap.
Proof.
  unfold getDeps.
  assert (∀ acc : gmap string wrapper, m ∈ dom (foldl (λ r m, match serviceMap !! m with Some s => <[m := s]> r | None => r end) acc deps)
    ↔ m ∈ dom acc ∨ (m ∈ deps ∧ m ∈ dom serviceMap)) as Hl.
  { induction deps as [|d deps IH]; intros acc; simpl; [set_solver|]. rewrite IH.
    destruct (serviceMap !! d) as [w|] eqn:Hd.
    - apply elem_of_dom_2 in Hd. rewrite dom_insert_L. set_solver.
    - apply not_elem_of_dom in Hd. set_solver. }
  rewrite Hl, dom_empty_L. set_solver.
Qed.
Lemma range_elem site (m : gmap string wrapper) x : x ∈ (map_range site m).*1 ↔ x ∈ dom m.
Proof.
  rewrite list_elem_of_fmap, elem_of_dom. split.
  - intros ([y w] & -> & Hin%map_range_elem). by eexists.
  - intros [w Hw]. exists (x, w). split; [done|]. by apply map_range_elem.
Qed.

(** ** The steps of one module *)
(** how the state of a module changes, given the states of the other wrappers *)
Inductive moves (name : string) sys : module_state → module_state → Prop :=
| MStart s : ms_pc s = WNew → moves name sys s (set_pc (WStartWait (startDeps serviceMap name)) s)
| MCancelNew s : ms_pc s = WNew → moves name sys s (set_pc WTerminated s)
| MCancel s : terminal (wrapper_state (ms_pc s)) = false → ms_pc s ≠ WNew →
    moves name sys s (mkModuleState (ms_pc s) true (ms_ran s) (ms_inner s) (ms_inner_stop s))
| MWrapper see s s' : wrapper_step serviceMap see name sys s = Some s' → moves name sys s s'
| MInner s to : ms_inner s ≠ New → diagram (ms_inner s) to = true → moves name sys s (set_inner to s).

Lemma module_step_inv ev sys sys' : module_step serviceMap ev sys = Some sys' →
  sys' = sys ∨ ∃ name s s', sys !! name = Some s ∧ moves name sys s s' ∧ sys' = <[name := s']> sys.
Proof.
  destruct ev as [name|name|name see|name to]; simpl; destruct (sys !! name) as [s|] eqn:Hs; try done; simpl.
  - destruct (ms_pc s) eqn:Hpc; intros [= <-]; auto. right. exists name, s. eexists. split; [done|]. split; [by apply MStart|done].
  - destruct (ms_pc s) eqn:Hpc; simpl; intros [= <-]; auto; right; exists name, s; eexists; (split; [done|]); (split; [|done]);
      try (by apply MCancelNew); rewrite <- Hpc; apply MCancel; by rewrite Hpc.
  - destruct (wrapper_step _ _ _ _ _) as [s'|] eqn:Hw; [|done]. intros [= <-]. right. exists name, s, s'. split; [done|]. split; [by eapply MWrapper|done].
  - destruct (bool_decide _ && diagram _ _) eqn:Hb; [|done]. apply andb_true_iff in Hb as [Hn%bool_decide_eq_true Hd].
    intros [= <-]. right. exists name, s. eexists. split; [done|]. split; [by apply MInner|done].
Qed.

(** ** Order *)
(** after it has been running, a wrapper never starts again *)
Definition started (st : State) : Prop := st ≠ New ∧ st ≠ Starting.
Definition ran sys (d : string) : Prop := ∃ s, sys !! d = Some s ∧ ms_ran s = true.
Definition over sys (d : string) : Prop := terminal (state_of sys d) = true.

Record module_ok (name : string) sys s : Prop := {
  mo_todo : ∀ todo, ms_pc s = WStartWait todo → ∀ d, d ∈ startDeps serviceMap name → d ∈ todo ∨ ran sys d;
  mo_started : (ms_pc s = WStartInner ∨ ms_inner s ≠ New) → ∀ d, d ∈ startDeps serviceMap name → ran sys d;
  mo_running : ms_pc s = WRun → ms_ran s = true;
  mo_stopping : ∀ todo, ms_pc s = WStopWait todo → ∀ d, d ∈ stopDeps serviceMap name → d ∈ todo ∨ over sys d;
  mo_stop_todo : ∀ todo, ms_pc s = WStopWait todo → ∀ d, d ∈ todo → d ∈ stopDeps serviceMap name;
  mo_inner : (match ms_pc s with WAwaitInner | WRun | WStop | WStopWait _ | WStopInner | WStopAwait => ms_inner s ≠ New | _ => True end);
  mo_stopped : (ms_pc s = WStopInner ∨ ms_inner_stop s = true) → ∀ d, d ∈ stopDeps serviceMap name → over sys d
}.
Definition system_ok sys : Prop := dom sys = dom serviceMap ∧ ∀ name s, sys !! name = Some s → module_ok name sys s.

(** what no step takes back *)
Lemma wrapper_step_ended see name sys s s' : terminal (wrapper_state (ms_pc s)) = true → wrapper_step serviceMap see name sys s = Some s' → False.
Proof. unfold wrapper_step. by destruct (ms_pc s). Qed.
Lemma wrapper_step_set see name sys s s' : wrapper_step serviceMap see name sys s = Some s' →
  ∃ pc x, s' = set_pc pc x ∧ ms_ran x = ms_ran s.
Proof.
  unfold wrapper_step. intros Hw.
  destruct (ms_pc s) as [|[|d todo]| | | | |[|d todo]| | | |]; simplify_option_eq; repeat case_match; simplify_option_eq; try done;
    eexists _, _; split; reflexivity.
Qed.
Lemma moves_keep name sys s s' : moves name sys s s' →
  (ms_ran s = true → ms_ran s' = true) ∧ (terminal (wrapper_state (ms_pc s)) = true → terminal (wrapper_state (ms_pc s')) = true).
Proof.
  intros Hm. destruct Hm as [s Hpc|s Hpc|s Ht Hpc|see s s' Hw|s to Hi Hd]; simpl.
  1-2: split; [by intros ->|by rewrite Hpc].
  1,3: done.
  split; [|intros Ht; by destruct (wrapper_step_ended _ _ _ _ _ Ht Hw)].
  intros Hr. destruct (wrapper_step_set _ _ _ _ _ Hw) as (pc & x & -> & Hx). simpl. by rewrite Hx, Hr.
Qed.

Lemma keep_ran name sys s s' d : sys !! name = Some s → moves name sys s s' → ran sys d → ran (<[name := s']> sys) d.
Proof.
  intros Hs Hm (x & Hx & Hr). destruct (decide (d = name)) as [->|].
  - exists s'. rewrite lookup_insert_eq. split; [done|]. apply (moves_keep _ _ _ _ Hm). congruence.
  - exists x. by rewrite lookup_insert_ne.
Qed.
Lemma keep_over name sys s s' d : sys !! name = Some s → moves name sys s s' → over sys d → over (<[name := s']> sys) d.
Proof.
  unfold over, state_of. intros Hs Hm Ho. destruct (decide (d = name)) as [->|].
  - rewrite lookup_insert_eq. rewrite Hs in Ho. by apply (moves_keep _ _ _ _ Hm).
  - by rewrite lookup_insert_ne.
Qed.

Lemma module_ok_mono name sys sys' s : (∀ d, ran sys d → ran sys' d) → (∀ d, over sys d → over sys' d) → module_ok name sys s → module_ok name sys' s.
Proof. intros Hr Ho [H1 H2 H3 H4 H6 H7 H5]. constructor; [naive_solver..|by destruct (ms_pc s)|naive_solver]. Qed.

(** a step of the module itself *)
Lemma module_ok_plain name sys s pc : module_ok name sys s →
  (∀ todo, pc ≠ WStartWait todo) → pc ≠ WStartInner → (∀ todo, pc ≠ WStopWait todo) → pc ≠ WStopInner →
  (match pc with WAwaitInner | WRun | WStop | WStopWait _ | WStopInner | WStopAwait => ms_inner s ≠ New | _ => True end) →
  module_ok name sys (set_pc pc s).
Proof.
  intros [H1 H2 H3 H4 H6 H7 H5] N1 N2 N3 N4 N5. constructor; simpl; [by intros ? ?%N1|intros [?|?]; [done|eauto]|
    intros ->; by rewrite bool_decide_eq_true_2, orb_true_r|by intros ? ?%N3|by intros ? ?%N3|done|intros [?|?]; [done|eauto]].
Qed.

Lemma wrapper_step_ok see name sys s s' : system_ok sys → module_ok name sys s →
  wrapper_step serviceMap see name sys s = Some s' → module_ok name sys s'.
Proof.
  intros [_ Hok] Hmod Hw. pose proof (λ pc, module_ok_plain name sys s pc Hmod) as Hplain. pose proof Hmod as [H1 H2 H3 H4 H6 H7 H5].
  unfold wrapper_step in Hw. destruct (ms_pc s) as [|[|d todo]| | | | |[|d todo]| | | |] eqn:Hpc; try done.
  - injection Hw as <-. assert (∀ d, d ∈ startDeps serviceMap name → ran sys d) as Hall.
    { intros d Hd. destruct (H1 [] eq_refl d Hd) as [?%elem_of_nil|]; done. }
    constructor; simpl; [done|auto|done|done|done|done|intros [?|?]; [done|eauto]].
  - destruct (see && ms_ctx s); [injection Hw as <-; by apply Hplain|].
    destruct (await_running (state_of sys d)) as [[]|] eqn:Ha; simpl in Hw; [|injection Hw as <-; by apply Hplain|done].
    injection Hw as <-. assert (ran sys d) as Hd.
    { unfold state_of in Ha. destruct (sys !! d) as [x|] eqn:Hx; [|done]. exists x. split; [done|].
      apply (mo_running _ _ _ (Hok _ _ Hx)). by destruct (ms_pc x). }
    constructor; simpl; [|intros [?|?]; [done|eauto]|done|done|done|done|intros [?|?]; [done|eauto]].
    intros t [= <-] d' Hd'. destruct (H1 _ eq_refl d' Hd') as [[->|?]%elem_of_cons|]; auto.
  - destruct (ms_inner s) eqn:Hin; injection Hw as <-; try (by apply Hplain).
    constructor; simpl; [done|intros _; apply H2; by left|done|done|done|done|intros [?|?]; [done|eauto]].
  - destruct (see && ms_ctx s); [injection Hw as <-; by apply Hplain|].
    destruct (await_running (ms_inner s)) as [[]|]; simpl in Hw; [|injection Hw as <-; by apply Hplain|done].
    injection Hw as <-. apply Hplain; by destruct (ms_ctx s).
  - destruct (_ || _); [|done]. injection Hw as <-. by apply Hplain.
  - destruct (ms_inner s) eqn:Hin; injection Hw as <-; try (by apply Hplain).
    constructor; simpl; [done|intros [?|?]; [done|eauto]|done|by intros todo [= <-] d ?; left|by intros todo [= <-] d|by rewrite Hin|intros [?|?]; [done|eauto]].
  - injection Hw as <-. assert (∀ d, d ∈ stopDeps serviceMap name → over sys d) as Hall.
    { intros d Hd. destruct (H4 [] eq_refl d Hd) as [?%elem_of_nil|]; done. }
    constructor; simpl; [done|intros [?|?]; [done|eauto]|done|done|done|done|auto].
  - destruct (terminal (state_of sys d)) eqn:Hd; [|done]. injection Hw as <-.
    constructor; simpl; [done|intros [?|?]; [done|eauto]|done| | |done|intros [?|?]; [done|eauto]].
    + intros t [= <-] d' Hd'. destruct (H4 _ eq_refl d' Hd') as [[->|?]%elem_of_cons|]; auto.
    + intros t [= <-] d' Hd'. apply (H6 _ eq_refl). by right.
  - injection Hw as <-. constructor; simpl; [done|intros [?|?]; [done|eauto]|done|done|done|done|]. intros _. apply H5. by left.
  - destruct (ms_inner s) eqn:Hin; try done; injection Hw as <-; by apply Hplain.
Qed.

Lemma moves_ok name sys s s' : system_ok sys → sys !! name = Some s → moves name sys s s' → module_ok name sys s'.
Proof.
  intros Hok Hs Hm. pose proof (proj2 Hok _ _ Hs) as Hmod. pose proof Hmod as [H1 H2 H3 H4 H6 H7 H5].
  destruct Hm as [s Hpc|s Hpc|s Ht Hpc|see s s' Hw|s to Hi Hd]; [| | |by eapply wrapper_step_ok|].
  - constructor; simpl; [by intros todo [= <-] d ?; left|intros [?|?]; [done|eauto]|done|done|done|done|intros [?|?]; [done|eauto]].
  - by apply module_ok_plain.
  - constructor; simpl; eauto.
  - constructor; simpl; [done| |done|done|done| |eauto]; [intros [?|?]; eauto|].
    assert (to ≠ New) as Hto by (intros ->; by destruct (ms_inner s)). by destruct (ms_pc s).
Qed.

Lemma module_step_ok ev sys sys' : module_step serviceMap ev sys = Some sys' → system_ok sys → system_ok sys'.
Proof.
  intros [->|(name & s & s' & Hs & Hm & ->)]%module_step_inv Hok; [done|]. split.
  - rewrite dom_insert_L. destruct Hok as [<- _]. apply elem_of_dom_2 in Hs. set_solver.
  - assert (∀ n x, module_ok n sys x → module_ok n (<[name := s']> sys) x) as Hmono.
    { intros n x. apply module_ok_mono; intros d; [by eapply keep_ran|by eapply keep_over]. }
    intros n x [[<- <-]|[Hne Hx]]%lookup_insert_Some; apply Hmono; [by eapply moves_ok|by apply Hok].
Qed.
Lemma newSystem_ok : system_ok (newSystem serviceMap).
Proof.
  unfold newSystem. split; [by rewrite dom_fmap_L|]. intros name s (w & <- & _)%lookup_fmap_Some.
  constructor; simpl; try done; intros [?|?]; done.
Qed.
Lemma module_run_ok evs sys sys' : module_run serviceMap evs sys = Some sys' → system_ok sys → system_ok sys'.
Proof.
  revert sys. induction evs as [|ev evs IH]; intros sys; simpl; [by intros [= ->]|].
  destruct (module_step serviceMap ev sys) as [sys1|] eqn:Hs; [|done]. simpl. intros Hr Hok. by eapply IH, module_step_ok.
Qed.

(** a service that was asked to stop ends before its wrapper *)
Definition asked_fine s : Prop :=
  ms_inner_stop s = true → ms_pc s = WStopAwait ∨ (terminal (wrapper_state (ms_pc s)) = true ∧ terminal (ms_inner s) = true).
Lemma moves_asked name sys s s' : moves name sys s s' → asked_fine s → asked_fine s'.
Proof.
  unfold asked_fine. intros Hm Ha. destruct Hm as [s Hpc|s Hpc|s Ht Hpc|see s s' Hw|s to Hi Hd]; simpl.
  - intros Hs. rewrite Hpc in Ha. by destruct (Ha Hs) as [?|[? _]].
  - intros Hs. rewrite Hpc in Ha. by destruct (Ha Hs) as [?|[? _]].
  - done.
  - unfold wrapper_step in Hw. destruct (ms_pc s) as [|[|d todo]| | | | |[|d todo]| | | |]; simplify_option_eq; repeat case_match; simplify_option_eq;
      try done; simpl in *; try (intros Hs; by destruct (Ha Hs) as [?|[? _]]); try (by left).
    + intros _. right. split; [done|]. by rewrite H.
    + intros _. right. split; [done|]. by rewrite H.
  - intros Hs. destruct (Ha Hs) as [?|[? Ht]]; [by left|]. by destruct (ms_inner s).
Qed.
Lemma module_run_asked evs sys sys' : module_run serviceMap evs sys = Some sys' →
  (∀ name s, sys !! name = Some s → asked_fine s) → ∀ name s, sys' !! name = Some s → asked_fine s.
Proof.
  revert sys. induction evs as [|ev evs IH]; intros sys; simpl; [by intros [= ->]|].
  destruct (module_step serviceMap ev sys) as [sys1|] eqn:Hs; [|done]. simpl. intros Hr Hok. apply (IH sys1 Hr).
  apply module_step_inv in Hs as [->|(n & x & x' & Hx & Hm & ->)]; [done|].
  intros name s [[<- <-]|[_ Hs]]%lookup_insert_Some; [by eapply moves_asked, Hok|by eapply Hok].
Qed.

(** what [startDeps] and [stopDeps] are waited for *)
Lemma deps_order evs sys name s : module_run serviceMap evs (newSystem serviceMap) = Some sys → sys !! name = Some s →
  (ms_inner s ≠ New → ∀ d, d ∈ startDeps serviceMap name → ran sys d) ∧
  (ms_inner_stop s = true → ∀ d, d ∈ stopDeps serviceMap name → over sys d).
Proof.
  intros Hr Hs. destruct (module_run_ok _ _ _ Hr newSystem_ok) as [_ Hok]. destruct (Hok _ _ Hs) as [_ H2 _ _ _ _ H5].
  split; [intros Hi d Hd; apply H2; [by right|done]|intros Hi d Hd; apply H5; [by right|done]].
Qed.

(** ** Stopping *)
Definition weight (name : string) s : nat :=
  let a := length (startDeps serviceMap name) in let b := length (stopDeps serviceMap name) in
  (match ms_pc s with
   | WTerminated | WFailed => 0 | WStopAwait => 1 | WStopInner => 2 | WStopWait todo => 3 + length todo | WStop => 4 + b
   | WRun => 5 + b | WAwaitInner => 6 + b | WStartInner => 7 + b | WStartWait todo => 8 + length todo + b | WNew => 9 + a + b
   end) + match ms_inner s with New | Starting => 3 | Running => 2 | Stopping => 1 | _ => 0 end.
Definition measure sys : nat := sum_list_with (λ x, weight x.1 x.2) (map_to_list sys).
Lemma measure_insert sys name s s' : sys !! name = Some s →
  (measure (<[name := s']> sys) + weight name s = measure sys + weight name s')%nat.
Proof.
  intros Hs. unfold measure. rewrite <- insert_delete_eq.
  rewrite (map_to_list_insert (delete name sys)) by apply lookup_delete_eq.
  rewrite <- (map_to_list_delete sys name s Hs). simpl. lia.
Qed.

Definition machine (ev : module_event) : bool := match ev with StepWrapper _ _ | StepInner _ _ => true | _ => false end.
Lemma wrapper_step_weight see name sys s s' : wrapper_step serviceMap see name sys s = Some s' → (weight name s' < weight name s)%nat.
Proof.
  intros Hw. unfold wrapper_step in Hw.
  destruct (ms_pc s) as [|[|d todo]| | | | |[|d todo]| | | |] eqn:Hpc; try done;
    try match type of Hw with context [see && ms_ctx s] => destruct (see && ms_ctx s) end; unfold weight; rewrite Hpc; simpl in *;
    try (injection Hw as <-; simpl; lia).
  - destruct (await_running (state_of sys d)) as [[]|]; simpl in Hw; try done; injection Hw as <-; simpl; lia.
  - destruct (ms_inner s) eqn:Hi; injection Hw as <-; simpl; rewrite ?Hi; lia.
  - destruct (await_running (ms_inner s)) as [[]|]; simpl in Hw; try done; injection Hw as <-; [destruct (ms_ctx s)|]; simpl; lia.
  - destruct (terminal (ms_inner s)); [|done]. injection Hw as <-. simpl. lia.
  - destruct (ms_inner s) eqn:Hi; injection Hw as <-; simpl; rewrite ?Hi; lia.
  - destruct (terminal (state_of sys d)); [|done]. injection Hw as <-. simpl. lia.
  - destruct (ms_inner s) eqn:Hi; try done; injection Hw as <-; simpl; rewrite ?Hi; lia.
Qed.
Lemma machine_decreases ev sys sys' : machine ev = true → module_step serviceMap ev sys = Some sys' → (measure sys' < measure sys)%nat.
Proof.
  destruct ev as [name|name|name see|name to]; simpl; try done; intros _; destruct (sys !! name) as [s|] eqn:Hs; try done; simpl.
  - destruct (wrapper_step _ _ _ _ _) as [s'|] eqn:Hw; [|done]. intros [= <-]. pose proof (measure_insert sys name s s' Hs).
    pose proof (wrapper_step_weight _ _ _ _ _ Hw). lia.
  - destruct (bool_decide _ && diagram _ _) eqn:Hb; [|done]. apply andb_true_iff in Hb as [Hn%bool_decide_eq_true Hd]. intros [= <-].
    pose proof (measure_insert sys name s (set_inner to s) Hs) as Hmeas.
    assert (weight name (set_inner to s) < weight name s)%nat; [|lia].
    unfold weight. simpl. destruct (ms_inner s), to; simpl in *; try done; lia.
Qed.
Lemma machine_run_bound evs sys sys' : forallb machine evs = true → module_run serviceMap evs sys = Some sys' →
  (length evs + measure sys' ≤ measure sys)%nat.
Proof.
  revert sys. induction evs as [|ev evs IH]; intros sys; simpl; [by intros _ [= ->]|]. intros [Hm Hms]%andb_true_iff.
  destruct (module_step serviceMap ev sys) as [sys1|] eqn:Hs; [|done]. simpl. intros Hr. specialize (IH sys1 Hms Hr).
  pose proof (machine_decreases _ _ _ Hm Hs). lia.
Qed.

(** [StopAsync] has been called on every wrapper *)
Definition asked_to_stop sys : Prop :=
  ∀ name s, sys !! name = Some s → ms_pc s ≠ WNew ∧ (terminal (wrapper_state (ms_pc s)) = true ∨ ms_ctx s = true).
Lemma wrapper_step_asked see name sys s s' : wrapper_step serviceMap see name sys s = Some s' → ms_pc s' ≠ WNew ∧ ms_ctx s' = ms_ctx s.
Proof.
  unfold wrapper_step. intros Hw. destruct (ms_pc s) as [|[|d todo]| | | | |[|d todo]| | | |]; try done;
    repeat match type of Hw with
    | context [if ?b then _ else _] => destruct b eqn:?
    | context [await_running ?x] => destruct (await_running x) as [[]|]
    | context [match ms_inner s with _ => _ end] => destruct (ms_inner s)
    end; simpl in Hw; try done; injection Hw as <-; simpl; done.
Qed.
Lemma machine_run_asked evs sys sys' : forallb machine evs = true → module_run serviceMap evs sys = Some sys' → asked_to_stop sys → asked_to_stop sys'.
Proof.
  revert sys. induction evs as [|ev evs IH]; intros sys; simpl; [by intros _ [= ->]|]. intros [Hm Hms]%andb_true_iff.
  destruct (module_step serviceMap ev sys) as [sys1|] eqn:Hs; [|done]. simpl. intros Hr Ha. apply (IH sys1 Hms Hr). clear IH Hr Hms.
  destruct ev as [name|name|name see|name to]; simpl in *; try done; destruct (sys !! name) as [s|] eqn:Hn; try done; simpl in *.
  - destruct (wrapper_step _ _ _ _ _) as [s'|] eqn:Hw; [|done]. injection Hs as <-.
    intros n x [[<- <-]|[_ Hx]]%lookup_insert_Some; [|by apply (Ha n)]. destruct (wrapper_step_asked _ _ _ _ _ Hw) as [Hne Hc].
    destruct (Ha _ _ Hn) as [_ [Ht|Ht]]; [by destruct (wrapper_step_ended _ _ _ _ _ Ht Hw)|]. split; [done|right; congruence].
  - destruct (bool_decide _ && _); [|done]. injection Hs as <-.
    intros n x [[<- <-]|[_ Hx]]%lookup_insert_Some; [|by apply (Ha n)]. by apply (Ha _ _ Hn).
Qed.

(** what waits when everybody has been asked to stop *)
Lemma blocked_waits name sys s : module_ok name sys s → ms_pc s ≠ WNew → ms_ctx s = true → wrapper_step serviceMap true name sys s = None →
  terminal (wrapper_state (ms_pc s)) = true ∨ (∃ d todo, ms_pc s = WStopWait (d :: todo) ∧ terminal (state_of sys d) = false) ∨
  (ms_inner s ≠ New ∧ terminal (ms_inner s) = false).
Proof.
  intros Hok Hn Hc Hw. pose proof (mo_inner _ _ _ Hok) as Hi. unfold wrapper_step in Hw. rewrite Hc in Hw. simpl in Hw.
  destruct (ms_pc s) as [|[|d todo]| | | | |[|d todo]| | | |] eqn:Hpc; simpl in *; try done; auto.
  - by destruct (ms_inner s).
  - by destruct (ms_inner s).
  - right. left. exists d, todo. split; [done|]. by destruct (terminal (state_of sys d)).
  - right. right. by destruct (ms_inner s).
Qed.

Lemma stopDeps_dom name d : d ∈ stopDeps serviceMap name → d ∈ dom serviceMap.
Proof. unfold stopDeps. rewrite range_elem, getDeps_dom. by intros []. Qed.

(** When all modules have been asked to stop, and no two of them wait for each
    other, all wrappers end: the wrappers and the services that still run make a
    bounded number of steps, and when none of them can make another one every
    wrapper has terminated or failed. *)
Theorem modules_stop (rank : string → nat) (evs more : list module_event) (sys sys' : system) :
  (∀ name d, d ∈ stopDeps serviceMap name → (rank name < rank d)%nat) →
  module_run serviceMap evs (newSystem serviceMap) = Some sys → asked_to_stop sys →
  forallb machine more = true → module_run serviceMap more sys = Some sys' →
  (length more ≤ measure sys)%nat ∧
  ((∀ ev, machine ev = true → module_step serviceMap ev sys' = None) →
   ∀ name, name ∈ dom serviceMap → terminal (state_of sys' name) = true).
Proof.
  intros Hrank Hr Ha Hm Hr'. split; [pose proof (machine_run_bound _ _ _ Hm Hr'); lia|]. intros Hblocked.
  pose proof (machine_run_asked _ _ _ Hm Hr' Ha) as Ha'.
  destruct (module_run_ok _ _ _ Hr' (module_run_ok _ _ _ Hr newSystem_ok)) as [Hdom Hok].
  set (bound := max_list (rank <$> elements (dom serviceMap))).
  assert (∀ name, name ∈ dom serviceMap → (rank name ≤ bound)%nat) as Hbound.
  { intros name Hn. apply max_list_elem_of_le, list_elem_of_fmap_2, elem_of_elements, Hn. }
  assert (∀ k name, (bound - rank name < k)%nat → name ∈ dom serviceMap → terminal (state_of sys' name) = true) as Hind.
  2: { intros name Hn. by apply (Hind (S (bound - rank name))); [lia|]. }
  induction k as [|k IH]; intros name Hk Hn; [lia|].
  assert (is_Some (sys' !! name)) as [s Hs] by (apply elem_of_dom; by rewrite Hdom).
  pose proof (Hblocked (StepWrapper name true) eq_refl) as Hw. simpl in Hw. rewrite Hs in Hw. simpl in Hw.
  destruct (wrapper_step _ _ _ _ _) as [s'|] eqn:Hstep; [done|]. clear Hw.
  unfold state_of. rewrite Hs. destruct (Ha' _ _ Hs) as [Hne [Ht|Hc]]; [done|].
  destruct (blocked_waits name sys' s (Hok _ _ Hs) Hne Hc Hstep) as [?|[(d & todo & Hpc & Hd)|[Hi Ht]]]; [done| |].
  - assert (d ∈ stopDeps serviceMap name) as Hdep by (apply (mo_stop_todo _ _ _ (Hok _ _ Hs) _ Hpc); by left).
    pose proof (Hrank _ _ Hdep). pose proof (Hbound _ (stopDeps_dom _ _ Hdep)). pose proof (Hbound _ Hn).
    rewrite (IH d) in Hd; [done|lia|by eapply stopDeps_dom].
  - set (to := match ms_inner s with Starting => Running | Running => Stopping | _ => Terminated end).
    pose proof (Hblocked (StepInner name to) eq_refl) as Hw. simpl in Hw. rewrite Hs in Hw. simpl in Hw.
    rewrite bool_decide_eq_true_2 in Hw by done. by destruct (ms_inner s).
Qed.
End facts.

(** C36. Let [InitModuleServices] succeed for modules without cycle.  However the
    wrappers of the modules and the services they wrap interleave, whenever they are
    asked to stop or fail: the service of a module is started only after all modules
    with a service that it depends on, directly or not, have been running.  And its
    wrapper asks it to stop only when the wrappers of those modules have ended that
    depend on it directly and were initialised in the same pass, that of the first
    module asked for which needs it: all that depend on it directly if one module is
    asked for.  A wrapper that has ended has not left its service running if it had
    asked it to stop. *)
Theorem modules_order `{R : MapRange} {E : Type} (m : Manager E) (rank : string → nat) (fuel : nat) (names : list string)
    (svcs : gmap string wrapper) (evs : list module_event) (sys : system) (name : string) (s : module_state) :
  (∀ n d, depends m n d → is_Some (m !! d) ∧ (rank d < rank n)%nat) → (∀ n, (rank n < fuel)%nat) → (size m ≤ fuel)%nat →
  InitModuleServices fuel m names = Ok svcs → module_run svcs evs (newSystem svcs) = Some sys → sys !! name = Some s →
  (ms_inner s ≠ New → ∀ d, tc (depends m) name d → is_Some (svcs !! d) → ∃ sd, sys !! d = Some sd ∧ ms_ran sd = true) ∧
  (ms_inner_stop s = true → ∀ t d sd, pass_of m names name t → depends m d name → needs m t d → sys !! d = Some sd →
     terminal (wrapper_state (ms_pc sd)) = true ∧ (ms_inner_stop sd = true → terminal (ms_inner sd) = true)).
Proof.
  intros Hrank Hfuel Hsize Hinit Hr Hs. unfold InitModuleServices in Hinit.
  destruct (InitModuleServices_state fuel m names) as [st|e] eqn:Hst; [|done]. injection Hinit as <-.
  pose proof (init_modules_ok m rank Hrank fuel Hfuel Hsize names _ (init_inv_empty m)) as Hg.
  pose proof (init_modules_stop m rank Hrank fuel Hfuel Hsize names st Hst) as Hstop.
  unfold InitModuleServices_state in Hst. rewrite Hst in Hg. destruct Hg as (Hi & _ & _).
  destruct (deps_order _ _ _ _ _ Hr Hs) as [H1 H2]. destruct (module_run_ok _ _ _ _ Hr (newSystem_ok _)) as [Hdom _].
  assert (∃ w, servicesMap st !! name = Some w) as [w Hw] by (apply elem_of_dom; rewrite <- Hdom; by eapply elem_of_dom_2).
  assert (∀ site l d, d ∈ l → is_Some (servicesMap st !! d) → d ∈ (map_range site (getDeps (servicesMap st) l)).*1) as Hdeps.
  { intros site l d Hd Hsd. apply range_elem, getDeps_dom. split; [done|]. by apply elem_of_dom. }
  split.
  - intros Hn d Hd Hsd. apply (H1 Hn d). unfold startDeps. rewrite Hw. apply Hdeps; [|done]. by apply (ii_startDeps _ _ Hi name).
  - intros Ha t d sd Hpass Hd Htd Hsd.
    assert (over sys d) as Ho.
    { assert (is_Some (servicesMap st !! d)) as Hsvc by (apply elem_of_dom; rewrite <- Hdom; by eapply elem_of_dom_2).
      apply (H2 Ha d). unfold stopDeps. rewrite Hw.
      apply Hdeps; [|done]. destruct (Hstop name w Hw) as (t' & Hpass' & Hwd). rewrite Hwd. split; [done|].
      by rewrite <- (pass_unique m names name t t' Hpass Hpass'). }
    unfold over, state_of in Ho. rewrite Hsd in Ho. split; [done|]. intros Hsk. assert (∀ n x, newSystem (servicesMap st) !! n = Some x → asked_fine x) as Hnew.
      { intros n x Hx. apply lookup_fmap_Some in Hx as (? & <- & _). intros Hf. discriminate Hf. }
    destruct (module_run_asked _ _ _ _ Hr Hnew d sd Hsd Hsk) as [Hpc|[_ ?]]; [|done].
    rewrite Hpc in Ho. discriminate Ho.
Qed.


(** ** Witnesses *)
(** the module [api] depends on [store] *)
Definition ex_services : gmap string wrapper :=
  {[ "store"%string := mkWrapper 0 [] ["api"%string]; "api"%string := mkWrapper 1 ["store"%string] [] ]}.
Definition ex_start : list module_event :=
  [CallStart "store"; CallStart "api"; StepWrapper "store" true; StepWrapper "store" true; StepInner "store" Running; StepWrapper "store" true;
   StepWrapper "api" true; StepWrapper "api" true; StepWrapper "api" true; StepInner "api" Running; StepWrapper "api" true].
Definition ex_ask : list module_event := [CallStop "store"; CallStop "api"].
Definition ex_stop : list module_event :=
  [StepWrapper "store" true; StepWrapper "store" true; StepWrapper "api" true; StepWrapper "api" true; StepWrapper "api" true; StepWrapper "api" true;
   StepInner "api" Stopping; StepInner "api" Terminated; StepWrapper "api" true; StepWrapper "store" true; StepWrapper "store" true;
   StepWrapper "store" true; StepInner "store" Stopping; StepInner "store" Terminated; StepWrapper "store" true].
Definition ex_after (evs : list module_event) : system :=
  default ∅ (module_run (R:=map_range_std) ex_services evs (newSystem ex_services)).

Definition ex_modules : gmap string (module unit) :=
  {[ "store"%string := mkModule [] (Some (Ok (Some 0%nat))) true; "api"%string := mkModule ["store"%string] (Some (Ok (Some 1%nat))) true ]}.
Definition ex_depth (name : string) : nat := if bool_decide (name = "api"%string) then 1 else 0.
Lemma ex_depends n d : depends ex_modules n d → n = "api"%string ∧ d = "store"%string.
Proof.
  intros (md & Hmd & Hd). change ((ex_modules : gmap string (module unit)) !! n = Some md) in Hmd. unfold ex_modules in Hmd. apply lookup_insert_Some in Hmd as [[<- <-]|[_ Hmd]]; [by apply elem_of_nil in Hd|].
  apply lookup_singleton_Some in Hmd as [<- <-]. by apply list_elem_of_singleton in Hd.
Qed.

Lemma modules_order_witness :
  let sys := ex_after (ex_start ++ ex_ask ++ take 12 ex_stop) in
  (ms_inner <$> sys !! "api"%string = Some Terminated ∧ ms_inner_stop <$> sys !! "store"%string = Some true) ∧
  (∃ sd, sys !! "store"%string = Some sd ∧ ms_ran sd = true) ∧
  (∃ sd, sys !! "api"%string = Some sd ∧ terminal (wrapper_state (ms_pc sd)) = true ∧ (ms_inner_stop sd = true → terminal (ms_inner sd) = true)).
Proof.
  assert (∀ n d, depends ex_modules n d → is_Some (ex_modules !! d) ∧ (ex_depth d < ex_depth n)%nat) as Hrank.
  { intros n d [-> ->]%ex_depends. split; [vm_compute; by eexists|vm_compute; lia]. }
  assert (∀ n, (ex_depth n < 3)%nat) as Hfuel by (intros n; unfold ex_depth; case_bool_decide; lia).
  assert (size ex_modules ≤ 3)%nat as Hsize by (vm_compute; lia).
  assert (InitModuleServices (H:=map_range_std) 3 ex_modules ["api"%string] = Ok ex_services) as Hinit by (vm_compute; reflexivity).
  assert (depends ex_modules "api" "store") as Hdep by (eexists; split; [vm_compute; reflexivity|by left]).
  set (evs := ex_start ++ ex_ask ++ take 12 ex_stop).
  assert (module_run (R:=map_range_std) ex_services evs (newSystem ex_services) = Some (ex_after evs)) as Hrun by (vm_compute; reflexivity).
  pose proof (λ name s, modules_order (R:=map_range_std) ex_modules ex_depth 3 ["api"%string] ex_services evs (ex_after evs) name s
    Hrank Hfuel Hsize Hinit Hrun) as Horder.
  split; [split; vm_compute; reflexivity|]. split.
  - destruct (ex_after evs !! "api"%string) as [s|] eqn:Hs; [|vm_compute in Hs; discriminate Hs].
    apply (proj1 (Horder _ s Hs)); [vm_compute in Hs; injection Hs as <-; discriminate|by apply tc_once|vm_compute; by eexists].
  - destruct (ex_after evs !! "store"%string) as [s|] eqn:Hs; [|vm_compute in Hs; discriminate Hs].
    destruct (ex_after evs !! "api"%string) as [sd|] eqn:Hd; [|vm_compute in Hd; discriminate Hd].
    exists sd. split; [reflexivity|]. apply (proj2 (Horder _ s Hs)) with (t := "api"%string) (d := "api"%string);
      [vm_compute in Hs; injection Hs as <-; reflexivity| |exact Hdep|by left|exact Hd].
    exists [], []. split; [reflexivity|]. split; [right; exact (tc_once _ _ _ Hdep)|].
    intros t' Ht' _. exact (not_elem_of_nil t' Ht').
Defined.

Definition ex_rank (name : string) : nat := if bool_decide (name = "api"%string) then 1 else 0.
Lemma ex_rank_ok name d : d ∈ stopDeps (R:=map_range_std) ex_services name → (ex_rank name < ex_rank d)%nat.
Proof.
  intros Hd. destruct (decide (name = "store"%string)) as [->|H1].
  - assert (stopDeps (R:=map_range_std) ex_services "store" = ["api"%string]) as Heq by (vm_compute; reflexivity).
    rewrite Heq in Hd. apply list_elem_of_singleton in Hd as ->. vm_compute. lia.
  - exfalso. assert (stopDeps (R:=map_range_std) ex_services name = []) as Hnil; [|rewrite Hnil in Hd; by apply elem_of_nil in Hd].
    unfold stopDeps. destruct (ex_services !! name) as [w|] eqn:Hw; [|reflexivity]. unfold ex_services in Hw.
    rewrite lookup_insert_ne in Hw by congruence.
    apply lookup_singleton_Some in Hw as [<- <-]. vm_compute. reflexivity.
Qed.
(** [asked_to_stop], evaluated *)
Definition asked_b (sys : system) : bool :=
  forallb (λ x : string * module_state, bool_decide (ms_pc x.2 ≠ WNew) && (terminal (wrapper_state (ms_pc x.2)) || ms_ctx x.2)) (map_to_list sys).
Lemma asked_b_ok sys : asked_b sys = true → asked_to_stop sys.
Proof.
  unfold asked_b. rewrite forallb_forall. intros Hb name s Hs. specialize (Hb (name, s)).
  rewrite <- list_elem_of_In, elem_of_map_to_list in Hb.
  apply Hb in Hs as [Hn%bool_decide_eq_true Ho%orb_true_iff]%andb_true_iff. done.
Qed.
Lemma modules_stop_witness :
  (length ex_stop ≤ measure (R:=map_range_std) ex_services (ex_after (ex_start ++ ex_ask)))%nat ∧
  terminal (state_of (ex_after (ex_start ++ ex_ask ++ ex_stop)) "store") = true.
Proof.
  destruct (modules_stop (R:=map_range_std) ex_services ex_rank (ex_start ++ ex_ask) ex_stop
    (ex_after (ex_start ++ ex_ask)) (ex_after (ex_start ++ ex_ask ++ ex_stop)) ex_rank_ok) as [H _];
    [vm_compute; reflexivity|apply asked_b_ok; vm_compute; reflexivity|vm_compute; reflexivity|vm_compute; reflexivity|].
  split; [exact H|vm_compute; reflexivity].
Defined.

(** ** What is left running *)
(** [StopAsync] on a module whose service is starting: the wrapper fails, and the
    service, which does not see the context of the wrapper, runs on and is never
    asked to stop. *)
Definition ex_interrupted : list module_event :=
  [CallStart "store"; StepWrapper "store" true; StepWrapper "store" true; CallStop "store"; StepWrapper "store" true; StepInner "store" Running].
Lemma stop_while_starting_leaks :
  ex_after ex_interrupted !! "store"%string = Some (mkModuleState WFailed true false Running false).
Proof. vm_compute. reflexivity. Qed.
(** once its wrapper has ended, a service is not asked to stop any more *)
Lemma ended_never_stops `{R : MapRange} serviceMap ev sys sys' name s :
  module_step serviceMap ev sys = Some sys' → sys !! name = Some s → terminal (wrapper_state (ms_pc s)) = true →
  ∃ s', sys' !! name = Some s' ∧ terminal (wrapper_state (ms_pc s')) = true ∧ ms_inner_stop s' = ms_inner_stop s.
Proof.
  intros Hev Hs Ht. apply module_step_inv in Hev as [->|(n & x & x' & Hx & Hm & ->)]; [eauto|].
  destruct (decide (n = name)) as [->|Hne]; [|exists s; by rewrite lookup_insert_ne].
  assert (x = s) as -> by congruence. exists x'. rewrite lookup_insert_eq. split; [done|].
  split; [by apply (moves_keep _ _ _ _ _ Hm)|]. destruct Hm as [s Hpc|s Hpc|s Ht' Hpc|see s s' Hw|s to Hi Hd]; try done.
  by destruct (wrapper_step_ended _ _ _ _ _ _ Ht Hw).
Qed.
(** a service that is already stopping by itself is not waited for: the wrapper
    terminates first, and with it what depends on the order of the modules *)
Definition ex_early : list module_event :=
  [CallStart "store"; StepWrapper "store" true; StepWrapper "store" true; StepInner "store" Running; StepWrapper "store" true;
   StepInner "store" Stopping; CallStop "store"; StepWrapper "store" true; StepWrapper "store" true].
Lemma terminated_before_its_service :
  ex_after ex_early !! "store"%string = Some (mkModuleState WTerminated true true Stopping false).
Proof. vm_compute. reflexivity. Qed.
