(* ===== verification/MemberlistNode.v ===== *)
(** * The node of the gossiped store: [kv/memberlist/memberlist_client.go]

    What a [KV] does as a service: it builds the configuration of the hashicorp
    library, creates its node, joins the cluster, joins it again now and then, and
    leaves it; and the loop of [WatchPrefix].  The calls of the library and of the
    DNS provider are what they return, in order; [Backoff] is that of the
    repository. *)
From Stdlib Require Import ZArith Lia Ascii.
From stdpp Require Import base gmap strings list relations.
From S2P Require Import Prelude Backoff Memberlist MemberlistKV.

(** the part of [KVConfig] the node reads *)
Record NodeConfig := mkNodeConfig {
  StreamTimeout : Z;
  NodeName : string;
  RandomizeNodeName : bool;
  RetransmitMult : Z;
  PushPullInterval : Z;
  GossipInterval : Z;
  GossipNodes : Z;
  GossipToTheDeadTime : Z;
  DeadNodeReclaimTime : Z;
  EnableCompression : bool;
  AdvertiseAddr : string;
  AdvertisePort : Z;
  JoinMembers : list string;
  MinJoinBackoff : Z;
  MaxJoinBackoff : Z;
  MaxJoinRetries : Z;
  AbortIfJoinFails : bool;
  RejoinInterval : Z;
  LeaveTimeout : Z
}.

(** the fields of [memberlist.Config] that are set *)
Record mlConfig := mkMlConfig {
  mlName : string;
  mlTCPTimeout : Z;
  mlRetransmitMult : Z;
  mlPushPullInterval : Z;
  mlGossipInterval : Z;
  mlGossipNodes : Z;
  mlGossipToTheDeadTime : Z;
  mlDeadNodeReclaimTime : Z;
  mlEnableCompression : bool;
  mlAdvertiseAddr : string;
  mlAdvertisePort : Z;
  mlUDPBufferSize : Z;
  mlProbeInterval : Z;
  mlProbeTimeout : Z
}.

(** ** The configuration *)
(** [%x] on one byte *)
Definition hex_digit (d : Z) : ascii := ascii_of_nat (Z.to_nat (if bool_decide (d < 10) then 48 + d else 87 + d)).
Definition hex_byte (b : Z) : string := String.String (hex_digit (Z.shiftr b 4)) (String.String (hex_digit (Z.land b 15)) "").
(** [rand] is what [rand.Read] has put in the four bytes, or its error *)
Definition generateRandomSuffix (rand : result string (list Z)) : string :=
  match rand with
  | Err _ => "error"
  | Ok suffix => String.concat "" (hex_byte <$> suffix)
  end.

(** [hostname] is the name [DefaultLANConfig] gives *)
Definition buildMemberlistConfig (cfg : NodeConfig) (transport : option string) (hostname : string)
    (rand : result string (list Z)) : result string mlConfig :=
  match transport with
  | Some err => Err ("failed to create transport: " ++ err)%string
  | None =>
      let name := if bool_decide (NodeName cfg ≠ ""%string) then NodeName cfg else hostname in
      let name := if RandomizeNodeName cfg then (name ++ "-" ++ generateRandomSuffix rand)%string else name in
      Ok {| mlName := name;
            mlTCPTimeout := StreamTimeout cfg;
            mlRetransmitMult := RetransmitMult cfg;
            mlPushPullInterval := PushPullInterval cfg;
            mlGossipInterval := GossipInterval cfg;
            mlGossipNodes := GossipNodes cfg;
            mlGossipToTheDeadTime := GossipToTheDeadTime cfg;
            mlDeadNodeReclaimTime := DeadNodeReclaimTime cfg;
            mlEnableCompression := EnableCompression cfg;
            mlAdvertiseAddr := AdvertiseAddr cfg;
            mlAdvertisePort := AdvertisePort cfg;
            mlUDPBufferSize := 10 * 1024 * 1024;
            mlProbeInterval := 5 * Second;
            mlProbeTimeout := 2 * Second |}
  end.

(** ** [starting], with the delegate methods the library may call meanwhile *)
Inductive start_pc := BuildConfig | AddWG | Create (c : mlConfig) | SetFields (c : mlConfig) | DoneWG | StartReturned (err : option string).
Record start_state := mkStart {
  st_pc : start_pc;
  initWG : Z;
  has_memberlist : bool;
  broadcasts_mult : option Z   (* [broadcasts], with its [RetransmitMult] *)
}.
Definition start_init : start_state := mkStart BuildConfig 0 false None.
(** [built] and [created] are the results of [buildMemberlistConfig] and [Create] *)
Definition start_step (built : result string mlConfig) (created : option string) (s : start_state) : start_state :=
  match st_pc s with
  | BuildConfig =>
      match built with
      | Err err => mkStart (StartReturned (Some err)) (initWG s) (has_memberlist s) (broadcasts_mult s)
      | Ok c => mkStart AddWG (initWG s) (has_memberlist s) (broadcasts_mult s)
      end
  | AddWG =>
      match built with
      | Ok c => mkStart (Create c) (initWG s + 1) (has_memberlist s) (broadcasts_mult s)
      | Err _ => s
      end
  | Create c =>
      match created with
      | Some err => mkStart (StartReturned (Some ("failed to create memberlist: " ++ err)%string)) (initWG s) (has_memberlist s) (broadcasts_mult s)
      | None => mkStart (SetFields c) (initWG s) (has_memberlist s) (broadcasts_mult s)
      end
  | SetFields c => mkStart DoneWG (initWG s) true (Some (mlRetransmitMult c))
  | DoneWG => mkStart (StartReturned None) (initWG s - 1) (has_memberlist s) (broadcasts_mult s)
  | StartReturned _ => s
  end.
(** a delegate method: [initWG.Wait()], then it uses the fields; [None] waits,
    [Some None] is a nil dereference *)
Definition delegate_call (s : start_state) : option (option Z) :=
  if bool_decide (initWG s ≠ 0) then None else Some (broadcasts_mult s).
(** [NodeMeta] *)
Definition NodeMeta (limit : Z) : list Z := [].

(** ** Joining *)
Class DNSProvider (P : Type) := {
  dns_Resolve : list string → P → P * option string;
  dns_Addresses : P → list string
}.

Definition Contains_plus (s : string) : bool := bool_decide ("+"%char ∈ String.list_ascii_of_string s).
Section discover.
Context `{DNSProvider P}.
Definition split_members (members : list string) : list string * list string :=
  foldl (λ '(ms, resolve) member, if Contains_plus member then (ms, resolve ++ [member]) else (ms ++ [member], resolve))
    ([], []) members.
Definition discoverMembers (members : list string) (p : P) : list string * P :=
  if bool_decide (length members = 0%nat) then ([], p)
  else
    let '(ms, resolve) := split_members members in
    let '(p, err) := dns_Resolve resolve p in
    (ms ++ dns_Addresses p, p).
End discover.

(** one turn of the loop: is the context done at [Ongoing], and in [Wait]; the draw
    of the delay; the result of [Join] *)
Record join_env := mkJoinEnv { je_done : bool; je_draw : Z; je_wait_done : bool; je_join : result string Z }.
(** [Waiting]: the loop has not ended yet with the environments given *)
Inductive join_result := Waiting | Panicked | Joined (err : option string) (joins : nat).
Fixpoint join_loop (envs : list join_env) (b : Backoff) (lastErr : string) (joins : nat) : join_result :=
  match envs with
  | [] => Waiting
  | e :: envs =>
      if negb (Ongoing (je_done e) b) then Joined (Some lastErr) joins
      else
        match Wait (je_wait_done e) (je_draw e) b with
        | None => Panicked
        | Some (_, b) =>
            match je_join e with
            | Err err => join_loop envs b err (S joins)
            | Ok reached => Joined None (S joins)
            end
        end
  end.
(** with the number of calls of [Join] *)
Definition joinMembersOnStartup (cfg : NodeConfig) (first : result string Z) (envs : list join_env) : join_result :=
  match first with
  | Ok reached => Joined None 1
  | Err err =>
      if bool_decide (MaxJoinRetries cfg ≤ 0) then Joined (Some err) 1
      else join_loop envs (NewBackoff (mkBackoffConfig (MinJoinBackoff cfg) (MaxJoinBackoff cfg) (MaxJoinRetries cfg))) err 1
  end.

(** ** [running] *)
Definition errFailedToJoinCluster : string := "failed to join memberlist cluster on startup".
Inductive run_event := RTick (join : result string Z) | RDone.
(** the loop after the start: [None] while it runs; with the members of each
    rejoining *)
Section running.
Context `{DNSProvider P}.
Variable cfg : NodeConfig.
Definition has_ticker : bool := bool_decide (0 < RejoinInterval cfg) && bool_decide (0 < length (JoinMembers cfg))%nat.
Fixpoint run_loop (events : list run_event) (p : P) (rejoins : list (list string)) : option (option string) * P * list (list string) :=
  match events with
  | [] => (None, p, rejoins)
  | RTick join :: events =>
      if has_ticker then
        let '(members, p) := discoverMembers (JoinMembers cfg) p in
        run_loop events p (rejoins ++ [members])
      else run_loop events p rejoins
  | RDone :: _ => (Some None, p, rejoins)
  end.
Definition running (first : result string Z) (envs : list join_env) (events : list run_event) (p : P)
    : option (option string) * P * list (list string) :=
  if bool_decide (0 < length (JoinMembers cfg))%nat then
    let '(members, p) := discoverMembers (JoinMembers cfg) p in
    match joinMembersOnStartup cfg first envs with
    | Waiting | Panicked => (None, p, [])
    | Joined (Some _) _ => if AbortIfJoinFails cfg then (Some (Some errFailedToJoinCluster), p, []) else run_loop events p []
    | Joined None _ => run_loop events p []
    end
  else run_loop events p [].
End running.

(** [KV.JoinMembers] *)
Definition KV_JoinMembers (state : service_state) (join : Z * option string) : Z * option string :=
  match state with SRunning => join | _ => (0, Some "service not Running"%string) end.

(** ** [stopping] *)
(** what one test of the loop reads: [NumQueued], [NumMembers], the clock *)
Record leave_obs := mkObs { o_queued : Z; o_members : Z; o_now : Z }.
(** the number of sleeps; [None]: still waiting *)
Fixpoint leave_wait (obs : list leave_obs) (waitTimeout : Z) : option nat :=
  match obs with
  | [] => None
  | o :: obs =>
      if bool_decide (0 < o_queued o) && bool_decide (1 < o_members o) && bool_decide (o_now o < waitTimeout)
      then S <$> leave_wait obs waitTimeout
      else Some 0%nat
  end.
Inductive stop_call := Leave (timeout : Z) | CloseShutdown | Shutdown.
(** the calls made and the error returned *)
Definition stopping (cfg : NodeConfig) (start : Z) (obs : list leave_obs) (leave shutdown : option string)
    : option (list stop_call * option string) :=
  _ ← leave_wait obs (start + 10 * Second);
  Some ([Leave (LeaveTimeout cfg); CloseShutdown; Shutdown], None).

(** ** [WatchPrefix] *)
(** one turn: a key received, or one of the two ends; [true] goes on *)
Inductive watch_prefix_event := KeyReceived (key : string) | ShutdownClosed | ContextEnded.
Definition WatchPrefix_turn {V E S} `{!MergeableOps V E} (f : string → option V → S → S * bool) (ev : watch_prefix_event)
    (m : KV V) (s : S) : S * bool :=
  match ev with
  | KeyReceived key => let '(val, _) := get (store m) key in f key val s
  | ShutdownClosed | ContextEnded => (s, false)
  end.

(** ** [Client] *)
(** [NewClient] *)
Definition NewClient {V} (cfg : KVConfig V) (c : codec V) : result string (codec V) :=
  match GetCodec cfg (CodecID c) with
  | None => Err ("codec not registered in KV: " ++ CodecID c)%string
  | Some _ => Ok c
  end.
(** the methods, behind the check of the state *)
Section client.
Context {V E : Type} `{!MergeableOps V E} `{!KVPairMarshal} `{!MapRange}.
Variables (cfg : KVConfig V) (state : service_state) (awaited : service_state * option string).
Inductive client_error := NotReady (err : string) | Unsupported (msg : string) | StoreError (e : cas_error E).
Definition guarded {A} (call : A) : result client_error A :=
  match awaitKVRunningOrStopping state awaited with Some err => Err (NotReady err) | None => Ok call end.
Definition Client_List (prefix : string) (m : KV V) : result client_error (list string) := guarded (List (store m) prefix).
Definition Client_Get (key : string) (m : KV V) : result client_error (option V) := guarded (Get (store m) key).
Definition Client_Delete (key : string) : option client_error := Some (Unsupported "memberlist does not support Delete").
Definition Client_CAS {S : Type} (f : option V → S → S * (cas_out V * bool * option string)) (envs : nat → cas_env (V:=V))
    (running : bool) (now : Z) (key : string) (c : codec V) (s : S) (m : KV V) : KV V * S * result client_error unit :=
  match awaitKVRunningOrStopping state awaited with
  | Some err => (m, s, Err (NotReady err))
  | None =>
      let '(m, s, r) := CAS cfg f envs running now key c s m in
      (m, s, match r with Err e => Err (StoreError e) | Ok u => Ok u end)
  end.
End client.

(** ** The node of the gossiped store starts, joins and leaves

    Attempts to join are bounded and their outcome decides the service; the
    methods the library calls never see a node half built; leaving takes a bounded
    time. *)
(** ** Delays never panic *)
Section delays.
Variable c : BackoffConfig.
Hypothesis Hmin : 0 ≤ MinBackoff c < 2 ^ 62.
Hypothesis Hmax : 0 ≤ MaxBackoff c < 2 ^ 62.
Definition sane (b : Backoff) : Prop :=
  backoff_cfg b = c ∧ 0 ≤ nextDelayMin b < 2 ^ 62 ∧ 0 ≤ nextDelayMax b < 2 ^ 62.
Lemma NewBackoff_sane : sane (NewBackoff c).
Proof. unfold sane, NewBackoff. simpl. rewrite doubleDuration_small by done. split_and!; try done; lia. Qed.
Lemma Wait_sane done_ draw b : sane b → ∃ t b', Wait done_ draw b = Some (t, b') ∧ sane b' ∧ numRetries b' = i64 (numRetries b + 1).
Proof.
  intros (Hc & H1 & H2). unfold Wait, NextDelay. simpl. case_bool_decide as Hle; simpl; [by eexists _, _|].
  unfold Int63n. rewrite (i64_small (nextDelayMax b - nextDelayMin b)) by lia. rewrite (bool_decide_eq_true_2 (0 < _)) by lia. simpl.
  eexists _, _. split; [done|]. split; [|by case_bool_decide].
  rewrite Hc. case_bool_decide; unfold sane; simpl; [|done].
  rewrite !doubleDuration_small by lia. split_and!; try done; lia.
Qed.
End delays.

(** ** Joining *)
Definition join_ok (r : result string Z) : bool := match r with Ok _ => true | Err _ => false end.
(** what the attempts say of the result: all but the last failed *)
Definition attempts_say (attempts : list (result string Z)) (err : option string) : Prop :=
  match err with
  | None => ∃ failed reached, attempts = failed ++ [Ok reached] ∧ Forall (λ r, join_ok r = false) failed
  | Some e => ∃ failed, attempts = failed ++ [Err e] ∧ Forall (λ r, join_ok r = false) failed
  end.

Section join.
Variable cfg : NodeConfig.
Hypothesis Hmin : 0 ≤ MinJoinBackoff cfg < 2 ^ 62.
Hypothesis Hmax : 0 ≤ MaxJoinBackoff cfg < 2 ^ 62.
Hypothesis Hretries : MaxJoinRetries cfg < 2 ^ 62.
Definition join_cfg : BackoffConfig := mkBackoffConfig (MinJoinBackoff cfg) (MaxJoinBackoff cfg) (MaxJoinRetries cfg).

Lemma join_loop_spec envs b lastErr joins failed :
  0 < MaxJoinRetries cfg → sane join_cfg b → 0 ≤ numRetries b ≤ MaxJoinRetries cfg → MaxJoinRetries cfg - numRetries b < Z.of_nat (length envs) →
  Forall (λ r, join_ok r = false) failed →
  ∃ err n, join_loop envs b lastErr joins = Joined err (joins + n) ∧ Z.of_nat n ≤ MaxJoinRetries cfg - numRetries b ∧
    attempts_say ((failed ++ [Err lastErr]) ++ (je_join <$> take n envs)) err ∧
    (err ≠ None → Z.of_nat n = MaxJoinRetries cfg - numRetries b ∨ je_done <$> envs !! n = Some true).
Proof using Hmin Hmax Hretries.
  intros Hpos. revert b lastErr joins failed. induction envs as [|e envs IH]; intros b lastErr joins failed Hs Hn Hlen Hf; simpl in *; [lia|].
  pose proof Hs as (Hc & _). unfold Ongoing at 1. rewrite Hc. simpl. rewrite (bool_decide_eq_false_2 (MaxJoinRetries cfg = 0)) by lia. simpl.
  assert (attempts_say ((failed ++ [Err lastErr]) ++ []) (Some lastErr)) as Hhere by (exists failed; by rewrite app_nil_r).
  destruct (je_done e) eqn:Hd; simpl.
  { exists (Some lastErr), 0%nat. rewrite Nat.add_0_r. simpl. rewrite Hd. split_and!; [done|lia|done|by right]. }
  case_bool_decide as Hb; simpl.
  2: { exists (Some lastErr), 0%nat. rewrite Nat.add_0_r. simpl. split_and!; [done|lia|done|left; lia]. }
  destruct (Wait_sane join_cfg Hmax (je_wait_done e) (je_draw e) b Hs) as (t & b' & -> & Hs' & Hnr). rewrite i64_small in Hnr by lia.
  destruct (je_join e) as [reached|err] eqn:Hj.
  - exists None, 1%nat. rewrite Nat.add_1_r. simpl. rewrite Hj. split_and!; [done|lia| |done].
    exists (failed ++ [Err lastErr]), reached. split; [done|]. apply Forall_app. split; [done|]. by constructor.
  - destruct (IH b' err (S joins) (failed ++ [Err lastErr])) as (r & n & -> & Hle & Hsay & Hend); [done|lia|lia| |].
    { apply Forall_app. split; [done|]. by constructor. }
    exists r, (S n). simpl. rewrite Hj. split_and!; [f_equal; lia|lia| |].
    + by rewrite cons_middle, (app_assoc _ [_]).
    + intros Hne. destruct (Hend Hne) as [?|?]; [left; lia|by right].
Qed.

(** Joining ends after at most [1 + MaxJoinRetries] calls of [Join], without a
    panic; it succeeds as soon as one of them does, reports the error of the last
    one, and gives up early only when the context is done. *)
Lemma joinMembersOnStartup_spec first envs :
  Z.max 0 (MaxJoinRetries cfg) < Z.of_nat (length envs) →
  ∃ err n, joinMembersOnStartup cfg first envs = Joined err (S n) ∧ Z.of_nat n ≤ Z.max 0 (MaxJoinRetries cfg) ∧
    attempts_say (first :: (je_join <$> take n envs)) err ∧
    (err ≠ None → Z.of_nat n = Z.max 0 (MaxJoinRetries cfg) ∨ je_done <$> envs !! n = Some true).
Proof using Hmin Hmax Hretries.
  intros Hlen. unfold joinMembersOnStartup. destruct first as [reached|err].
  - exists None, 0%nat. split_and!; [done|lia|by exists [], reached|done].
  - case_bool_decide as Hpos.
    + exists (Some err), 0%nat. split_and!; [done|lia|by exists []|left; lia].
    + destruct (join_loop_spec envs (NewBackoff join_cfg) err 1 []) as (r & n & Hj & Hle & Hsay & Hend); simpl; try lia; try done.
      { by apply NewBackoff_sane. }
      simpl in *. exists r, n. split_and!; [done|lia|done|]. intros Hne. destruct (Hend Hne); [left; lia|by right].
Qed.
End join.

(** ** [running] *)
Section running.
Context `{DNSProvider P} (cfg : NodeConfig).
Lemma run_loop_result events (p : P) rejoins :
  (run_loop cfg events p rejoins).1.1 = if existsb (λ ev, match ev with RDone => true | _ => false end) events then Some None else None.
Proof.
  revert p rejoins. induction events as [|[join|] events IH]; intros p rejoins; simpl; [done| |done].
  destruct (has_ticker cfg); [|apply IH]. destruct (discoverMembers _ p) as [members p']. apply IH.
Qed.

(** C37. Once the node is started it is [Running] whether or not it joins.  Joining
    makes at most [1 + MaxJoinRetries] attempts and never panics; the service fails
    exactly when members are configured, all attempts have failed (or the context
    has ended before one succeeded) and [AbortIfJoinFails] is set; otherwise it
    runs until its context ends, whatever later attempts to rejoin return. *)
Theorem node_running_correct (first : result string Z) (envs : list join_env) (events : list run_event) (p : P) :
  0 ≤ MinJoinBackoff cfg < 2 ^ 62 → 0 ≤ MaxJoinBackoff cfg < 2 ^ 62 → MaxJoinRetries cfg < 2 ^ 62 →
  Z.max 0 (MaxJoinRetries cfg) < Z.of_nat (length envs) →
  ∃ err n,
    joinMembersOnStartup cfg first envs = Joined err (S n) ∧ Z.of_nat n ≤ Z.max 0 (MaxJoinRetries cfg) ∧
    attempts_say (first :: (je_join <$> take n envs)) err ∧
    (err ≠ None → Z.of_nat n = Z.max 0 (MaxJoinRetries cfg) ∨ je_done <$> envs !! n = Some true) ∧
    (running cfg first envs events p).1.1 =
      if bool_decide (JoinMembers cfg ≠ []) && bool_decide (err ≠ None) && AbortIfJoinFails cfg then Some (Some errFailedToJoinCluster)
      else if existsb (λ ev, match ev with RDone => true | _ => false end) events then Some None else None.
Proof.
  intros H1 H2 H3 Hlen. destruct (joinMembersOnStartup_spec cfg H1 H2 H3 first envs Hlen) as (err & n & Hj & Hn & Hsay & Hend).
  exists err, n. split_and!; try done. unfold running. rewrite Hj. destruct (JoinMembers cfg) as [|member members] eqn:Hm.
  - rewrite bool_decide_eq_false_2 by (simpl; lia). simpl. apply run_loop_result.
  - rewrite bool_decide_eq_true_2 by (simpl; lia). destruct (discoverMembers _ p) as [ms p'].
    rewrite (bool_decide_eq_true_2 (_ ≠ _)) by done. simpl. destruct err as [err|].
    + rewrite bool_decide_eq_true_2 by done. simpl. destruct (AbortIfJoinFails cfg); [done|apply run_loop_result].
    + rewrite bool_decide_eq_false_2 by (intros Hx; by apply Hx). simpl. apply run_loop_result.
Qed.
End running.

(** ** Members *)
Lemma split_members_spec members : split_members members = (filter (λ m, Contains_plus m = false) members, filter (λ m, Contains_plus m = true) members).
Proof.
  unfold split_members.
  assert (∀ a b, foldl (λ '(ms, resolve) member, if Contains_plus member then (ms, resolve ++ [member]) else (ms ++ [member], resolve)) (a, b) members
    = (a ++ filter (λ m, Contains_plus m = false) members, b ++ filter (λ m, Contains_plus m = true) members)) as Hl; [|apply Hl].
  induction members as [|m members IH]; intros a b; simpl; [by rewrite !app_nil_r|].
  destruct (Contains_plus m) eqn:Hm; rewrite IH.
  - rewrite (filter_cons_False (λ m, Contains_plus m = false)), (filter_cons_True (λ m, Contains_plus m = true)) by congruence.
    by rewrite <- app_assoc.
  - rewrite (filter_cons_True (λ m, Contains_plus m = false)), (filter_cons_False (λ m, Contains_plus m = true)) by congruence.
    by rewrite <- app_assoc.
Qed.

(** ** The node under construction *)
Definition in_library (s : start_state) : Prop :=
  match st_pc s with Create _ | SetFields _ | DoneWG | StartReturned None => True | _ => False end.
Definition start_ok (s : start_state) : Prop :=
  match st_pc s with
  | BuildConfig | AddWG => initWG s = 0
  | Create _ | SetFields _ => initWG s = 1
  | DoneWG => initWG s = 1 ∧ has_memberlist s = true ∧ is_Some (broadcasts_mult s)
  | StartReturned None => initWG s = 0 ∧ has_memberlist s = true ∧ is_Some (broadcasts_mult s)
  | StartReturned (Some _) => has_memberlist s = false
  end ∧ (match st_pc s with BuildConfig | AddWG | Create _ | SetFields _ => has_memberlist s = false | _ => True end).
Lemma start_step_ok built created s : start_ok s → start_ok (start_step built created s).
Proof.
  unfold start_ok, start_step. destruct (st_pc s) as [| |c|c| |[err|]] eqn:Hpc; simpl; rewrite ?Hpc; intros [H1 H2].
  - by destruct built.
  - destruct built; simpl; rewrite ?Hpc; [split; [lia|done]|done].
  - by destruct created.
  - split; [|done]. split_and!; [done|done|eauto].
  - destruct H1 as (-> & ? & ?). done.
  - done.
  - done.
Qed.
(** However often [starting] has stepped, a method the library calls on the node
    never finds it half built, and if [starting] succeeds it does not wait. *)
Lemma delegate_never_nil built created n :
  let s := Nat.iter n (start_step built created) start_init in
  in_library s → delegate_call s ≠ Some None ∧ (st_pc s = StartReturned None → ∃ mult, delegate_call s = Some (Some mult)).
Proof.
  intros s. assert (start_ok s) as Hok.
  { unfold s. clear s. induction n as [|n IH]; [done|]. simpl. by apply start_step_ok. }
  unfold start_ok, in_library, delegate_call in *. destruct (st_pc s) as [| |c|c| |[err|]] eqn:Hpc; try done; intros _; destruct Hok as [Hok _].
  - by rewrite Hok.
  - by rewrite Hok.
  - destruct Hok as (-> & _ & _). done.
  - destruct Hok as (-> & _ & [mult ->]). simpl. split; [done|eauto].
Qed.
(** when [Create] fails nobody calls [Done]: a method the library has called, or
    calls later, waits for ever *)
Lemma failed_create_blocks_delegates c err n :
  let step := start_step (Ok c) (Some err) in delegate_call (Nat.iter n step (Nat.iter 3 step start_init)) = None.
Proof.
  intros step. assert (Nat.iter n step (Nat.iter 3 step start_init) = Nat.iter 3 step start_init) as ->; [|done].
  induction n as [|n IH]; [done|]. simpl in *. by rewrite IH.
Qed.

(** ** Names of nodes *)
Lemma hex_digit_inj a b : 0 ≤ a < 16 → 0 ≤ b < 16 → hex_digit a = hex_digit b → a = b.
Proof.
  intros Ha Hb. unfold hex_digit. intros Heq%(f_equal nat_of_ascii).
  rewrite !Ascii.nat_ascii_embedding in Heq by (repeat case_bool_decide; lia). repeat case_bool_decide; lia.
Qed.
Lemma hex_byte_inj a b s t : 0 ≤ a < 256 → 0 ≤ b < 256 → (hex_byte a ++ s)%string = (hex_byte b ++ t)%string → a = b ∧ s = t.
Proof.
  intros Ha Hb Heq. injection Heq as H1 H2 Hst. split; [clear Hst|exact Hst].
  assert (∀ x, 0 ≤ x < 256 → 0 ≤ Z.shiftr x 4 < 16 ∧ 0 ≤ Z.land x 15 < 16 ∧ x = 16 * Z.shiftr x 4 + Z.land x 15) as Hx.
  { intros x Hx. rewrite Z.shiftr_div_pow2 by lia. change 15 with (Z.ones 4). rewrite Z.land_ones by lia.
    change (2 ^ 4) with 16. pose proof (Z.mod_pos_bound x 16 ltac:(lia)). pose proof (Z.div_mod x 16 ltac:(lia)).
    pose proof (Z.div_pos x 16 ltac:(lia) ltac:(lia)). pose proof (Z.div_lt_upper_bound x 16 16 ltac:(lia) ltac:(lia)). lia. }
  destruct (Hx a Ha) as (? & ? & Ea), (Hx b Hb) as (? & ? & Eb). apply hex_digit_inj in H1; [|done..]. apply hex_digit_inj in H2; [|done..]. lia.
Qed.
Lemma concat_empty (l : list string) x : String.concat "" (x :: l) = (x ++ String.concat "" l)%string.
Proof. destruct l; [|done]. change (x = (x ++ "")%string). induction x as [|a x IH]; [done|]. exact (f_equal (String.String a) IH). Qed.
(** two nodes of the same configuration with different random bytes have different
    names *)
Lemma random_names_differ (r1 r2 : list Z) :
  Forall (λ b, 0 ≤ b < 256) r1 → Forall (λ b, 0 ≤ b < 256) r2 → length r1 = length r2 →
  generateRandomSuffix (Ok r1) = generateRandomSuffix (Ok r2) → r1 = r2.
Proof.
  intros H1. revert r2. induction H1 as [|a r1 Ha H1 IH]; intros [|b r2] H2 Hlen; try done.
  apply Forall_cons in H2 as [Hb H2]. unfold generateRandomSuffix in *. rewrite !fmap_cons, !concat_empty.
  intros [<- Heq]%hex_byte_inj; [|done..]. f_equal. apply IH; [done|simpl in Hlen; lia|done].
Qed.

(** ** Leaving *)
(** the clock of the tests: each comes at least 250 milliseconds after the one before *)
Fixpoint clock_advances (now : Z) (obs : list leave_obs) : Prop :=
  match obs with [] => True | o :: obs => now ≤ o_now o ∧ clock_advances (o_now o + 250 * Millisecond) obs end.
Lemma leave_wait_bound obs start now :
  clock_advances now obs → (1 ≤ length obs)%nat → start + 10 * Second - now < (Z.of_nat (length obs) - 1) * (250 * Millisecond) →
  ∃ n, leave_wait obs (start + 10 * Second) = Some n ∧
    (Z.of_nat n - 1) * (250 * Millisecond) < Z.max 0 (start + 10 * Second - now).
Proof.
  change (250 * Millisecond) with 250000000. change (10 * Second) with 10000000000.
  revert now. induction obs as [|o obs IH]; intros now Hc Hs Hlen; simpl in *; [lia|].
  destruct Hc as [Hnow Hc]. change (250 * Millisecond) with 250000000 in Hc.
  destruct (bool_decide (0 < o_queued o) && _ && _) eqn:Hb.
  - apply andb_true_iff in Hb as [_ Hlt%bool_decide_eq_true]. destruct (IH _ Hc) as (n & -> & Hn); [lia|lia|].
    exists (S n). split; [done|]. lia.
  - exists 0%nat. split; [done|lia].
Qed.
(** Leaving takes at most 40 sleeps of 250 milliseconds before the node leaves,
    closes [shutdown] and shuts down, whatever these calls return. *)
Lemma node_stopping_spec cfg obs start leave shutdown :
  clock_advances start obs → (42 ≤ length obs)%nat →
  (∃ n, leave_wait obs (start + 10 * Second) = Some n ∧ (n ≤ 40)%nat) ∧
  stopping cfg start obs leave shutdown = Some ([Leave (LeaveTimeout cfg); CloseShutdown; Shutdown], None).
Proof.
  intros Hc Hlen. destruct (leave_wait_bound obs start start Hc) as (n & Hw & Hn); [lia| |].
  - change (250 * Millisecond) with 250000000. change (10 * Second) with 10000000000. lia.
  - change (250 * Millisecond) with 250000000 in Hn. change (10 * Second) with 10000000000 in Hn.
    split; [exists n; split; [done|lia]|]. unfold stopping. by rewrite Hw.
Qed.

(** ** The state check of the client *)
(** A client does nothing on a store that is not [Running] or [Stopping] when the
    wait for it is over. *)
Lemma client_refuses {V E : Type} `{!MergeableOps V E} `{!KVPairMarshal} `{!MapRange} (cfg : KVConfig V) state ns err
    {S} (f : option V → S → S * (cas_out V * bool * option string)) envs running now key c (s : S) m :
  (state = STerminated ∨ state = SFailed ∨ ((state = SNew ∨ state = SStarting) ∧ ns ≠ SStopping ∧ err ≠ None)) →
  (Client_CAS (E:=E) cfg state (ns, err) f envs running now key c s m).1 = (m, s) ∧
  ∃ e, (Client_CAS (E:=E) cfg state (ns, err) f envs running now key c s m).2 = Err (NotReady e) ∧ Client_Get (E:=E) state (ns, err) key m = Err (NotReady e).
Proof.
  unfold Client_CAS, Client_Get, guarded, awaitKVRunningOrStopping. destruct err as [err|].
  - intros [->|[->|([->| ->] & Hns & Hne)]]; [eauto..| |]; destruct ns; try done; eauto.
  - intros [->|[->|(_ & _ & Hne)]]; [eauto..|done].
Qed.

(** ** Witness *)
#[local] Instance ex_dns : DNSProvider (list string) := {| dns_Resolve addrs p := (addrs, None); dns_Addresses p := p |}.
Definition ex_node : NodeConfig :=
  {| StreamTimeout := 10 * Second; NodeName := "a"; RandomizeNodeName := false; RetransmitMult := 4; PushPullInterval := 30 * Second;
     GossipInterval := 200 * Millisecond; GossipNodes := 3; GossipToTheDeadTime := 30 * Second; DeadNodeReclaimTime := 0;
     EnableCompression := true; AdvertiseAddr := ""; AdvertisePort := 0; JoinMembers := ["dns+store:7946"%string; "10.0.0.1"%string];
     MinJoinBackoff := 1 * Second; MaxJoinBackoff := 60 * Second; MaxJoinRetries := 2; AbortIfJoinFails := true;
     RejoinInterval := 0; LeaveTimeout := 5 * Second |}.
Definition ex_fails : join_env := mkJoinEnv false 0 false (Err "refused"%string).
Lemma node_running_correct_witness :
  joinMembersOnStartup ex_node (Err "refused"%string) (replicate 3 ex_fails) = Joined (Some "refused"%string) 3 ∧
  ∃ err n, joinMembersOnStartup ex_node (Err "refused"%string) (replicate 3 ex_fails) = Joined err (S n) ∧ Z.of_nat n ≤ 2 ∧
    (running ex_node (Err "refused"%string) (replicate 3 ex_fails) [RDone] []).1.1 =
      (if bool_decide (err ≠ None) then Some (Some errFailedToJoinCluster) else Some None).
Proof.
  split; [vm_compute; reflexivity|].
  destruct (node_running_correct ex_node (Err "refused"%string) (replicate 3 ex_fails) [RDone] []) as (err & n & H1 & H2 & _ & _ & H3);
    [vm_compute; split; congruence|vm_compute; split; congruence|vm_compute; congruence|vm_compute; congruence|].
  exists err, n. split; [exact H1|]. split; [exact H2|]. rewrite H3. destruct err; reflexivity.
Defined.
(** stopping the service while it joins makes it fail, when [AbortIfJoinFails] *)
Lemma stop_while_joining_fails :
  (running ex_node (Err "refused"%string) [ex_fails; mkJoinEnv true 0 false (Err "refused"%string)] [RDone] []).1.1 = Some (Some errFailedToJoinCluster).
Proof. vm_compute. reflexivity. Qed.
