(* ===== verification/WatchPrefix.v ===== *)
(** * Watchers of a prefix

    One [WatchPrefix] goroutine among the other users of a [KV].  Its channel
    holds sixteen keys and a send to a full channel is dropped: what it misses is
    exactly what was dropped. *)
From Stdlib Require Import ZArith Lia.
From stdpp Require Import base gmap strings list sorting fin_maps relations.
From S2P Require Import Prelude Model MergeLaws Memberlist MemberlistKV MemberlistFacts RingValue Watch.

Section watch_prefix.
Context {V E : Type} `{!MergeableOps V E} `{!MapRange}.
Context (lit : Z) (prefix : string) (w : nat).
Implicit Types (m : KV V) (k : string).

Definition versions m (k : string) : Z := version_of (store m) k.
Record pstate := mkP {
  p_kv : KV V;
  p_pending : list string;       (* notifyWatchers calls that have not run yet *)
  p_reading : option string;     (* the key the goroutine took and calls [get] for *)
  p_seen : string → Z;           (* by key, the version of the value read last *)
  p_dropped : list string        (* the keys whose last notification found the
                                    channel full of other keys *)
}.
(** the channel has sixteen keys, [k] not among them *)
Definition drops (m : KV V) (k : string) : bool :=
  match wchan w m with
  | Some c => bool_decide (chan_cap c ≤ length (chan_buf c))%nat && bool_decide (k ∉ chan_buf c)
  | None => true
  end.
Definition record_drop (m : KV V) (k : string) (dropped : list string) : list string :=
  if String.prefix prefix k && drops m k then k :: dropped else filter (λ k', k' ≠ k) dropped.

Inductive pstep : pstate → pstate → Prop :=
| p_merge_change m p r seen dr k v cas codec now nowLimit s change ver :
    mergeValueForKey lit (store m) k v cas codec now nowLimit = (s, Ok (Some change, ver)) →
    pstep (mkP m p r seen dr) (mkP (set_store s m) (k :: p) r seen dr)
| p_merge_none m p r seen dr k v cas codec now nowLimit s res :
    mergeValueForKey lit (store m) k v cas codec now nowLimit = (s, res) →
    (∀ change ver, res ≠ Ok (Some change, ver)) →
    pstep (mkP m p r seen dr) (mkP (set_store s m) p r seen dr)
| p_notify m p1 k p2 r seen dr :
    pstep (mkP m (p1 ++ k :: p2) r seen dr) (mkP (notifyWatchers k m) (p1 ++ p2) r seen (record_drop m k dr))
| p_register k m p r seen dr :
    pstep (mkP m p r seen dr) (mkP (WatchKey_register k m).1 p r seen dr)
| p_register_prefix k m p r seen dr :
    pstep (mkP m p r seen dr) (mkP (WatchPrefix_register k m).1 p r seen dr)
| p_unregister k w' m p r seen dr :
    pstep (mkP m p r seen dr) (mkP (WatchKey_unregister k w' m) p r seen dr)
| p_unregister_prefix k w' m p r seen dr :
    w' ≠ w → pstep (mkP m p r seen dr) (mkP (WatchPrefix_unregister k w' m) p r seen dr)
| p_recv_other w' m p r seen dr m' k :
    w' ≠ w → watch_recv w' m = Some (m', k) → pstep (mkP m p r seen dr) (mkP m' p r seen dr)
| p_recv m p seen dr m' k :
    watch_recv w m = Some (m', k) → pstep (mkP m p None seen dr) (mkP m' p (Some k) seen dr)
| p_read m p k seen dr :
    pstep (mkP m p (Some k) seen dr)
      (mkP m p None (λ k', if bool_decide (k' = k) then (get (store m) k).2 else seen k') dr).

(** a value is seen, or something will make the goroutine look, or it was dropped *)
Definition covered (x : pstate) (k : string) : Prop :=
  p_seen x k = versions (p_kv x) k ∨ p_reading x = Some k ∨
  (∃ c, wchan w (p_kv x) = Some c ∧ k ∈ chan_buf c) ∨ k ∈ p_pending x ∨ k ∈ p_dropped x.
Definition pinv (x : pstate) : Prop :=
  w ∈ default [] (prefixWatchers (p_kv x) !! prefix) ∧
  (∃ buf, wchan w (p_kv x) = Some (mkChan 16 buf)) ∧
  (∀ k, String.prefix prefix k = true → covered x k).

(** ** Sends *)
Lemma chan_le_same c : chan_le c c.
Proof. destruct c as [c|]; [|done]. split; [done|]. exists []. by rewrite app_nil_r. Qed.
Lemma chan_le_mem c c' k : chan_le c c' → (∃ b, c = Some b ∧ k ∈ chan_buf b) → ∃ b, c' = Some b ∧ k ∈ chan_buf b.
Proof.
  intros Hle (b & -> & Hk). destruct c' as [b'|]; [|done]. destruct Hle as [_ (l & Hl)]. exists b'. split; [done|].
  rewrite Hl. set_solver.
Qed.
Lemma try_send_mem c k : (length (chan_buf c) < chan_cap c)%nat ∨ k ∈ chan_buf c → k ∈ chan_buf (try_send c k).
Proof. unfold try_send. case_bool_decide; simpl; [set_solver|]. intros [?|?]; [lia|done]. Qed.

(** [k] reaches the channel unless it is full of other keys when the round begins:
    the sends of one round carry [k] only *)
Lemma sends_mem k ws cs buf :
  w ∈ ws → cs !! w = Some (mkChan 16 buf) → (length buf < 16)%nat ∨ k ∈ buf →
  ∃ b, foldl (send_to k) cs ws !! w = Some b ∧ k ∈ chan_buf b.
Proof.
  revert cs buf. induction ws as [|w' ws IH]; intros cs buf; simpl; [by intros ?%elem_of_nil|].
  intros Hw Hc Hfree. pose proof (send_to_lookup k cs w' w) as Hs. case_bool_decide as Heq; rewrite Hc in Hs; simpl in Hs.
  - eapply chan_le_mem; [apply sends_le|]. rewrite Hs. eexists. split; [done|]. by apply try_send_mem.
  - apply elem_of_cons in Hw as [Hw|Hw]; [done|]. by eapply IH.
Qed.
(** how a round of sends of [k] changes a channel *)
Definition grows k (c c' : option chan) : Prop :=
  match c, c' with
  | Some c, Some c' => chan_cap c' = chan_cap c ∧ ∃ n, chan_buf c' = chan_buf c ++ replicate n k
  | None, None => True
  | _, _ => False
  end.
Lemma grows_refl k c : grows k c c.
Proof. destruct c as [c|]; [|done]. split; [done|]. exists 0%nat. simpl. by rewrite app_nil_r. Qed.
Lemma grows_trans k c1 c2 c3 : grows k c1 c2 → grows k c2 c3 → grows k c1 c3.
Proof.
  destruct c1 as [c1|], c2 as [c2|], c3 as [c3|]; try done. intros [H1 (n & Hn)] [H2 (n' & Hn')].
  split; [congruence|]. exists (n + n')%nat. by rewrite Hn', Hn, replicate_add, app_assoc.
Qed.
Lemma send_to_grows k cs w' j : grows k (cs !! j) (send_to k cs w' !! j).
Proof.
  rewrite send_to_lookup. case_bool_decide; [|apply grows_refl]. destruct (cs !! j) as [c|]; [|done]. simpl. unfold try_send.
  case_bool_decide; simpl; split; try done; [by exists 1%nat|exists 0%nat; simpl; by rewrite app_nil_r].
Qed.
Lemma sends_grows k ws cs j : grows k (cs !! j) (foldl (send_to k) cs ws !! j).
Proof.
  revert cs. induction ws as [|w' ws IH]; intros cs; simpl; [apply grows_refl|].
  eapply grows_trans; [apply send_to_grows|apply IH].
Qed.
Lemma prefix_sends_grows k (l : list (string * list nat)) cs j :
  grows k (cs !! j) (foldl (λ cs '(p, ws), if String.prefix p k then foldl (send_to k) cs ws else cs) cs l !! j).
Proof.
  revert cs. induction l as [|[p ws] l IH]; intros cs; simpl; [apply grows_refl|].
  eapply grows_trans; [|apply IH]. case_if; [apply sends_grows|apply grows_refl].
Qed.
(** a channel with room, or with [k], before sends of [k] has room or [k] after *)
Lemma grows_room k buf c : (length buf < 16)%nat ∨ k ∈ buf → grows k (Some (mkChan 16 buf)) c →
  ∃ buf', c = Some (mkChan 16 buf') ∧ ((length buf' < 16)%nat ∨ k ∈ buf').
Proof.
  destruct c as [[cap b]|]; [|done]. intros Hroom [Hcap ([|n] & Hn)]; simpl in *; subst.
  - exists buf. by rewrite app_nil_r.
  - eexists. split; [done|]. right. set_solver.
Qed.
Lemma prefix_sends_mem k (l : list (string * list nat)) cs buf ws :
  (prefix, ws) ∈ l → String.prefix prefix k = true → w ∈ ws → cs !! w = Some (mkChan 16 buf) → (length buf < 16)%nat ∨ k ∈ buf →
  ∃ b, foldl (λ cs '(p, ws), if String.prefix p k then foldl (send_to k) cs ws else cs) cs l !! w = Some b ∧ k ∈ chan_buf b.
Proof.
  intros Hin Hp Hw. revert cs buf. induction l as [|[p ws'] l IH]; intros cs buf Hc Hroom; [by apply elem_of_nil in Hin|]. simpl.
  apply elem_of_cons in Hin as [[= <- <-]|Hin].
  - rewrite Hp. eapply chan_le_mem; [apply prefix_sends_le|]. by eapply sends_mem.
  - assert (grows k (Some (mkChan 16 buf)) ((if String.prefix p k then foldl (send_to k) cs ws' else cs) !! w)) as Hg.
    { rewrite <- Hc. case_if; [apply sends_grows|apply grows_refl]. }
    destruct (grows_room k buf _ Hroom Hg) as (buf' & Hc' & Hroom'). by eapply IH.
Qed.

Lemma notify_mem m k buf : String.prefix prefix k = true → w ∈ default [] (prefixWatchers m !! prefix) → wchan w m = Some (mkChan 16 buf) →
  drops m k = false → ∃ b, wchan w (notifyWatchers k m) = Some b ∧ k ∈ chan_buf b.
Proof.
  intros Hp Hw Hc Hd. unfold drops in Hd. rewrite Hc in Hd. simpl in Hd. unfold wchan, notifyWatchers in *. simpl.
  assert ((length buf < 16)%nat ∨ k ∈ buf) as Hroom.
  { apply andb_false_iff in Hd as [Hd%bool_decide_eq_false|Hd%bool_decide_eq_false]; [left; lia|right].
    by destruct (decide (k ∈ buf)). }
  destruct (prefixWatchers m !! prefix) as [ws|] eqn:Hws; [|by apply elem_of_nil in Hw]. simpl in Hw.
  destruct (grows_room k buf _ Hroom (eq_ind _ (λ c, grows k c _) (sends_grows k (default [] (watchers m !! k)) (chans m) w) _ Hc)) as (buf' & Hc' & Hroom').
  eapply prefix_sends_mem; [|done|exact Hw|exact Hc'|exact Hroom']. by apply map_range_elem.
Qed.

(** ** The invariant *)
Lemma prefix_covered_mono x y k :
  covered x k → versions (p_kv y) k = versions (p_kv x) k → p_seen y = p_seen x → p_reading y = p_reading x →
  chan_le (wchan w (p_kv x)) (wchan w (p_kv y)) → (k ∈ p_pending x → k ∈ p_pending y) → (k ∈ p_dropped x → k ∈ p_dropped y) → covered y k.
Proof.
  unfold covered. intros Hc -> -> -> Hle Hp Hd. destruct Hc as [?|[?|[Hm|[?|?]]]]; [by left|by right; left| |tauto|tauto].
  right; right; left. by eapply chan_le_mem.
Qed.

Lemma pinv_keep m m' p r seen dr :
  pinv (mkP m p r seen dr) → store m' = store m → (w ∈ default [] (prefixWatchers m !! prefix) → w ∈ default [] (prefixWatchers m' !! prefix)) →
  wchan w m' = wchan w m → pinv (mkP m' p r seen dr).
Proof.
  intros (Hw & Hb & Hk) Hs Hpw Hc. split; [by apply Hpw|]. split; [simpl in *; by rewrite Hc|]. intros k Hp.
  eapply prefix_covered_mono; [by apply Hk|by unfold versions; simpl; rewrite Hs|done|done|simpl; rewrite Hc; apply chan_le_same|done|done].
Qed.
Lemma version_kept m k v cas codec now nl s res :
  mergeValueForKey lit (store m) k v cas codec now nl = (s, res) → (∀ change ver, res ≠ Ok (Some change, ver)) →
  ∀ key, version_of s key = version_of (store m) key.
Proof.
  intros Hm Hres key. pose proof (mergeValueForKey_outcome lit (store m) k v cas codec now nl) as Hcon.
  rewrite Hm in Hcon. destruct Hcon as (Ho & _ & Hv).
  destruct (decide (key = k)) as [->|Hk]; [|unfold version_of; by rewrite Ho].
  destruct res as [[[ch|] ver]|err]; [by destruct (Hres ch ver)|by destruct Hv|].
  by destruct err; try (by destruct Hv); subst s.
Qed.

(** the steps of the store *)
Lemma pinv_store m s p p' r seen dr :
  (∀ k, version_of s k = version_of (store m) k ∨ k ∈ p') → (∀ k, k ∈ p → k ∈ p') →
  pinv (mkP m p r seen dr) → pinv (mkP (set_store s m) p' r seen dr).
Proof.
  intros Hv Hsub (Hw & Hb & Hk). split; [done|]. split; [done|]. intros k Hp.
  destruct (Hv k) as [Heq|Hin]; [|by right; right; right; left].
  eapply prefix_covered_mono; [by apply Hk|exact Heq|done|done|apply chan_le_same|apply Hsub|done].
Qed.
Lemma pinv_notify m p1 k p2 r seen dr :
  pinv (mkP m (p1 ++ k :: p2) r seen dr) → pinv (mkP (notifyWatchers k m) (p1 ++ p2) r seen (record_drop m k dr)).
Proof.
  intros (Hw & (buf & Hc) & Hk). pose proof (notifyWatchers_chan k m w) as Hle. simpl in *. split; [done|].
  split; [by eapply chan_le_cap|]. intros k' Hp. specialize (Hk k' Hp). unfold record_drop.
  destruct (decide (k' = k)) as [->|Hne].
  - rewrite Hp. simpl. destruct (drops m k) eqn:Hd; [do 4 right; set_solver|]. right; right; left. by eapply notify_mem.
  - unfold covered in *. simpl in *. destruct Hk as [?|[?|[Hm|[Hin|Hin]]]]; [by left|by right; left| | |].
    + right; right; left. by eapply chan_le_mem.
    + do 3 right; left. set_solver.
    + do 4 right. case_match; [set_solver|]. by apply list_elem_of_filter.
Qed.
Lemma pinv_recv m p seen dr m' k :
  watch_recv w m = Some (m', k) → pinv (mkP m p None seen dr) → pinv (mkP m' p (Some k) seen dr).
Proof.
  unfold watch_recv. intros Hr (Hw & (buf & Hc) & Hk). unfold wchan in Hc. simpl in *. rewrite Hc in Hr. destruct buf as [|k0 buf]; [done|].
  injection Hr as <- <-. split; [done|]. split; [exists buf; unfold wchan; simpl; by rewrite lookup_insert_eq|].
  intros k' Hp. specialize (Hk k' Hp). unfold covered, wchan in *. simpl in *. rewrite Hc in Hk. rewrite lookup_insert_eq.
  destruct Hk as [?|[?|[(c & [= <-] & Hin)|[?|?]]]]; [by left|done| |tauto|tauto].
  simpl in Hin. apply elem_of_cons in Hin as [->|Hin]; [by right; left|right; right; left; eauto].
Qed.
Lemma pinv_read m p k seen dr :
  pinv (mkP m p (Some k) seen dr) →
  pinv (mkP m p None (λ k', if bool_decide (k' = k) then (get (store m) k).2 else seen k') dr).
Proof.
  intros (Hw & Hb & Hk). split; [done|]. split; [done|]. intros k' Hp. specialize (Hk k' Hp). unfold covered in *. simpl in *.
  case_bool_decide as Heq; [subst k'; by left|]. destruct Hk as [?|[[= <-]|?]]; [by left|done|tauto].
Qed.

Lemma pinv_step x y : pstep x y → pinv x → pinv y.
Proof.
  intros Hstep Hinv; destruct Hstep as
    [m p r seen dr k v cas codec now nl s change ver Hm|m p r seen dr k v cas codec now nl s res Hm Hres
    |m p1 k p2 r seen dr|k m p r seen dr|k m p r seen dr|k w' m p r seen dr|k w' m p r seen dr Hne
    |w' m p r seen dr m' k Hne Hr|m p seen dr m' k Hr|m p k seen dr].
  - eapply pinv_store; [|by intros k' ?; right|exact Hinv]. intros k'. destruct (decide (k' = k)) as [->|Hk]; [right; by left|left].
    pose proof (mergeValueForKey_outcome lit (store m) k v cas codec now nl) as Hcon. rewrite Hm in Hcon. destruct Hcon as (Ho & _).
    unfold version_of. by rewrite Ho.
  - eapply pinv_store; [|done|exact Hinv]. intros k'. left. by eapply version_kept.
  - by apply pinv_notify.
  - pose proof Hinv as (_ & (buf & Hc) & _). pose proof (make_chan_other w m 1 _ Hc) as Hmc. unfold make_chan in *. simpl in *.
    eapply pinv_keep; [exact Hinv|done|done|]. unfold wchan in *. simpl in *. by rewrite Hmc, Hc.
  - pose proof Hinv as (_ & (buf & Hc) & _). pose proof (make_chan_other w m 16 _ Hc) as Hmc. unfold make_chan in *. simpl in *.
    eapply pinv_keep; [exact Hinv|done| |unfold wchan in *; simpl in *; by rewrite Hmc, Hc].
    intros Hw. simpl. destruct (decide (k = prefix)) as [->|Hk]; [rewrite lookup_insert_eq; simpl; set_solver|by rewrite lookup_insert_ne].
  - by eapply pinv_keep.
  - eapply pinv_keep; [exact Hinv|done| |done]. simpl. by apply removeWatcherChannel_other.
  - unfold watch_recv in Hr. destruct (chans m !! w') as [[cap [|k0 b]]|] eqn:Hw'; [done| |done]. injection Hr as <- <-.
    eapply pinv_keep; [exact Hinv|done|done|]. unfold wchan. simpl. by rewrite lookup_insert_ne.
  - by eapply pinv_recv.
  - by apply pinv_read.
Qed.

(** Once [WatchPrefix] has registered its channel, however the other users of
    the store, the other watchers and the delayed notifications interleave with
    it: when the channel is drained, the goroutine idle and no notification still
    to be sent, the watcher has read the current version of every key with the
    prefix but those whose last notification found the channel full of sixteen
    other keys. *)
Theorem WatchPrefix_no_lost_update m0 x k :
  (WatchPrefix_register prefix m0).2 = w →
  rtc pstep (mkP (WatchPrefix_register prefix m0).1 [] None (versions m0) []) x →
  wchan w (p_kv x) = Some (mkChan 16 []) → p_reading x = None → p_pending x = [] →
  String.prefix prefix k = true → k ∉ p_dropped x → p_seen x k = version_of (store (p_kv x)) k.
Proof.
  intros Hreg Hsteps Hbuf Hr Hp Hk Hd.
  assert (pinv x) as (_ & _ & Hall).
  { revert Hsteps. apply (rtc_ind_r pinv).
    - unfold WatchPrefix_register, make_chan in *. simpl in *. split; [|split]; simpl.
      + rewrite lookup_insert_eq. simpl. set_solver.
      + exists []. unfold wchan. simpl. by rewrite Hreg, lookup_insert_eq.
      + intros k' _. by left.
    - intros y z _ Hstep Hy. by eapply pinv_step. }
  destruct (Hall k Hk) as [?|[Hx|[(c & Hc & Hin)|[Hx|?]]]]; [done|congruence| |rewrite Hp in Hx; by apply elem_of_nil in Hx|done].
  rewrite Hbuf in Hc. injection Hc as <-. by apply elem_of_nil in Hin.
Qed.
End watch_prefix.

(** ** A run *)
#[local] Existing Instance map_range_std.
Lemma WatchPrefix_no_lost_update_witness :
  ∃ x, rtc (pstep (V:=Desc) (E:=model_error) 0 "ri" (WatchPrefix_register (V:=Desc) "ri" NewKV).2)
         (mkP (WatchPrefix_register "ri" NewKV).1 [] None (versions (V:=Desc) NewKV) []) x ∧
       p_seen x "ring" = 1 ∧ p_seen x "ring" = version_of (store (p_kv x)) "ring".
Proof.
  set (w := (WatchPrefix_register (V:=Desc) "ri" NewKV).2).
  set (m0 := (WatchPrefix_register (V:=Desc) "ri" NewKV).1). set (seen := versions (V:=Desc) NewKV).
  set (s1 := (mergeValueForKey (V:=Desc) (E:=model_error) 0 (store m0) "ring" ex_ring1 0 "c" 0 0).1).
  set (m1 := set_store s1 m0). set (m2 := notifyWatchers "ring" m1).
  set (m3 := default m2 (fst <$> watch_recv w m2)).
  set (x := mkP m3 [] None (λ k', if bool_decide (k' = "ring"%string) then (get (store m3) "ring").2 else seen k') (record_drop "ri" w m1 "ring" [])).
  assert (rtc (pstep (V:=Desc) (E:=model_error) 0 "ri" w) (mkP m0 [] None seen []) x) as Hrun.
  { eapply rtc_l; [apply (p_merge_change 0 "ri" w m0 [] None seen [] "ring" ex_ring1 0 "c" 0 0 s1 ex_ring1 1); vm_compute; reflexivity|].
    eapply rtc_l; [apply (p_notify 0 "ri" w m1 [] "ring" [] None seen [])|].
    eapply rtc_l; [apply (p_recv 0 "ri" w m2 [] seen _ m3 "ring"); vm_compute; reflexivity|].
    eapply rtc_l; [apply (p_read 0 "ri" w m3 [] "ring" seen _)|]. apply rtc_refl. }
  exists x. split; [exact Hrun|]. split; [vm_compute; reflexivity|].
  apply (WatchPrefix_no_lost_update (E:=model_error) 0 "ri" w NewKV x "ring"); try reflexivity; [exact Hrun|].
  assert (p_dropped x = []) as -> by (vm_compute; reflexivity). apply not_elem_of_nil.
Defined.
