(* ===== verification/GoStrings.v ===== *)
(** * Strings of Go: [strconv], [strings]

    What the code uses of these packages, on bytes, with the round trips its
    users rely on. *)
From Stdlib Require Import ZArith Lia Ascii.
From stdpp Require Import base strings list.
From S2P Require Import Prelude.

(** ** Characters *)
Definition char_code (c : ascii) : Z := Z.of_nat (nat_of_ascii c).
Definition char_of (z : Z) : ascii := ascii_of_nat (Z.to_nat z).
Lemma char_code_of z : 0 ≤ z < 256 → char_code (char_of z) = z.
Proof. intros Hz. unfold char_code, char_of. rewrite nat_ascii_embedding by lia. lia. Qed.
Lemma char_of_code c : char_of (char_code c) = c.
Proof. unfold char_code, char_of. by rewrite Nat2Z.id, ascii_nat_embedding. Qed.
Definition is_digit (c : ascii) : bool := bool_decide (48 ≤ char_code c ≤ 57).
Definition is_upper (c : ascii) : bool := bool_decide (65 ≤ char_code c ≤ 90).
Definition is_lower (c : ascii) : bool := bool_decide (97 ≤ char_code c ≤ 122).
Definition to_upper (c : ascii) : ascii := if is_lower c then char_of (char_code c - 32) else c.
Definition to_lower (c : ascii) : ascii := if is_upper c then char_of (char_code c + 32) else c.
Fixpoint string_map (f : ascii → ascii) (s : string) : string :=
  match s with String.EmptyString => "" | String.String c s => String.String (f c) (string_map f s) end.
(** [strings.ToLower], on ASCII *)
Definition ToLower : string → string := string_map to_lower.

Lemma string_app_assoc (a b c : string) : ((a ++ b) ++ c)%string = (a ++ (b ++ c))%string.
Proof. induction a as [|x a IH]; [done|]. exact (f_equal (String.String x) IH). Qed.
Lemma string_app_nil (a : string) : (a ++ "")%string = a.
Proof. induction a as [|x a IH]; [done|]. exact (f_equal (String.String x) IH). Qed.

(** ** [strings.Contains] *)
Fixpoint Contains (s sub : string) : bool :=
  String.prefix sub s || match s with String.EmptyString => false | String.String _ s => Contains s sub end.

(** ** [strings.Split] and [strings.Join], for a separator of one byte *)
(** the part before the first separator, and what follows it *)
Fixpoint cut (sep : ascii) (s : string) : string * option string :=
  match s with
  | String.EmptyString => ("", None)
  | String.String c s =>
      if bool_decide (c = sep) then ("", Some s)
      else let '(part, rest) := cut sep s in (String.String c part, rest)
  end.
Fixpoint Split (sep : ascii) (s : string) : list string :=
  match s with
  | String.EmptyString => [""]
  | String.String c s =>
      if bool_decide (c = sep) then "" :: Split sep s
      else match Split sep s with part :: parts => String.String c part :: parts | [] => [String.String c ""] end
  end.
Fixpoint Join (sep : ascii) (parts : list string) : string :=
  match parts with
  | [] => ""
  | [part] => part
  | part :: parts => (part ++ String.String sep (Join sep parts))%string
  end.
Fixpoint no_char (sep : ascii) (s : string) : bool :=
  match s with String.EmptyString => true | String.String c s => negb (bool_decide (c = sep)) && no_char sep s end.

Lemma Split_nonempty sep s : Split sep s ≠ [].
Proof. destruct s as [|c s]; simpl; [done|]. case_bool_decide; [done|]. by destruct (Split sep s). Qed.
Lemma Join_Split sep s : Join sep (Split sep s) = s.
Proof.
  induction s as [|c s IH]; [done|]. simpl. pose proof (Split_nonempty sep s) as Hne. case_bool_decide as Hc.
  - subst. destruct (Split sep s) as [|part parts]; [done|]. change (String.String sep (Join sep (part :: parts)) = String.String sep s). by rewrite IH.
  - destruct (Split sep s) as [|part [|part2 parts]]; [done|simpl in *; by rewrite IH|].
    change (String.String c (Join sep (part :: part2 :: parts)) = String.String c s). by rewrite IH.
Qed.
Lemma Split_app sep part s : no_char sep part = true → Split sep (part ++ String.String sep s) = part :: Split sep s.
Proof.
  induction part as [|c part IH]; simpl; [by rewrite bool_decide_eq_true_2|]. intros [Hc Hp]%andb_true_iff.
  apply negb_true_iff in Hc. rewrite Hc. change ((fix app (s1 s2 : string) := _) part _) with (part ++ String.String sep s)%string.
  by rewrite (IH Hp).
Qed.
Lemma Split_single sep part : no_char sep part = true → Split sep part = [part].
Proof.
  induction part as [|c part IH]; simpl; [done|]. intros [Hc Hp]%andb_true_iff. apply negb_true_iff in Hc. by rewrite Hc, (IH Hp).
Qed.
Lemma Split_Join sep parts : parts ≠ [] → forallb (no_char sep) parts = true → Split sep (Join sep parts) = parts.
Proof.
  induction parts as [|part [|part2 parts] IH]; intros Hne Hall; [done| |]; simpl in Hall; apply andb_true_iff in Hall as [Hp Hall].
  - by apply Split_single.
  - change (Join sep (part :: part2 :: parts)) with (part ++ String.String sep (Join sep (part2 :: parts)))%string.
    rewrite Split_app by done. by rewrite IH.
Qed.
Lemma Split_no_char sep s : forallb (no_char sep) (Split sep s) = true.
Proof.
  induction s as [|c s IH]; simpl; [done|]. case_bool_decide as Hc; [done|].
  destruct (Split sep s) as [|part parts]; simpl in *; [|apply andb_true_iff in IH as [H1 H2]]; rewrite (bool_decide_eq_false_2 (c = sep)) by done;
    simpl; [done|]. by rewrite H1, H2.
Qed.

(** ** [strconv.Atoi] and [strconv.Itoa] *)
(** the value of a string of digits, after [acc]; [None]: another character *)
Fixpoint digits_value (acc : Z) (s : string) : option Z :=
  match s with
  | String.EmptyString => Some acc
  | String.String c s => if is_digit c then digits_value (10 * acc + (char_code c - 48)) s else None
  end.
Definition parse_uint (s : string) : option Z :=
  match s with String.EmptyString => None | _ => digits_value 0 s end.
Inductive num_error := ErrSyntax | ErrRange.
(** on 64 bits *)
Definition Atoi (s : string) : result num_error Z :=
  let '(neg, digits) :=
    match s with
    | String.String c s' => if bool_decide (c = "-"%char) then (true, s') else if bool_decide (c = "+"%char) then (false, s') else (false, s)
    | String.EmptyString => (false, s)
    end in
  match parse_uint digits with
  | None => Err ErrSyntax
  | Some n =>
      let z := if neg : bool then - n else n in
      if bool_decide (- 2 ^ 63 ≤ z < 2 ^ 63) then Ok z else Err ErrRange
  end.

(** the digits of [n], least significant last; [fuel] is the number of digits at most *)
Fixpoint digits (fuel : nat) (n : Z) (acc : string) : string :=
  match fuel with
  | O => acc
  | S fuel =>
      let acc := String.String (char_of (48 + n mod 10)) acc in
      if bool_decide (n < 10) then acc else digits fuel (n / 10) acc
  end.
Definition utoa (n : Z) : string := digits 20 n "".
Definition Itoa (z : Z) : string := if bool_decide (z < 0) then String.String "-"%char (utoa (- z)) else utoa z.

Lemma is_digit_of d : 0 ≤ d < 10 → is_digit (char_of (48 + d)) = true ∧ char_code (char_of (48 + d)) - 48 = d.
Proof. intros Hd. unfold is_digit. rewrite char_code_of by lia. rewrite bool_decide_eq_true_2 by lia. lia. Qed.
(** reading digits back *)
Lemma digits_value_digits fuel n acc v :
  0 ≤ n → n < 10 ^ Z.of_nat fuel → (0 < fuel)%nat → digits_value v (digits fuel n acc) =
    digits_value (v * 10 ^ (Z.of_nat (String.length (digits fuel n acc)) - Z.of_nat (String.length acc)) + n) acc ∧
  (String.length acc < String.length (digits fuel n acc))%nat.
Proof.
  revert n acc v. induction fuel as [|fuel IH]; intros n acc v Hn Hlt Hf; [lia|]. simpl.
  pose proof (Z.mod_pos_bound n 10 ltac:(lia)) as Hm. destruct (is_digit_of (n mod 10) Hm) as [Hd Hv].
  case_bool_decide as Hsmall.
  - simpl. rewrite Hd, Hv. rewrite Z.mod_small by lia. replace (Z.of_nat (S (String.length acc)) - Z.of_nat (String.length acc)) with 1 by lia.
    split; [f_equal; lia|lia].
  - set (acc' := String.String (char_of (48 + n mod 10)) acc).
    assert (n / 10 < 10 ^ Z.of_nat fuel) as Hlt'.
    { apply Z.div_lt_upper_bound; [lia|]. rewrite Nat2Z.inj_succ, Z.pow_succ_r in Hlt by lia. lia. }
    assert (0 < fuel)%nat as Hf'. { destruct fuel; [|lia]. simpl in Hlt'. pose proof (Z.div_le_lower_bound n 10 1 ltac:(lia) ltac:(lia)). lia. }
    destruct (IH (n / 10) acc' v ltac:(apply Z.div_pos; lia) Hlt' Hf') as [-> Hlen]. simpl in Hlen |- *.
    rewrite Hd, Hv. split; [|lia]. f_equal.
    set (L := Z.of_nat (String.length (digits fuel (n / 10) acc'))).
    replace (L - Z.of_nat (String.length acc)) with (Z.succ (L - Z.of_nat (S (String.length acc)))) by lia.
    rewrite Z.pow_succ_r by lia. pose proof (Z.div_mod n 10 ltac:(lia)). lia.
Qed.
Lemma parse_digits fuel n : 0 ≤ n < 10 ^ Z.of_nat fuel → (0 < fuel)%nat → parse_uint (digits fuel n "") = Some n.
Proof.
  intros Hn Hf. destruct (digits_value_digits fuel n "" 0 ltac:(lia) ltac:(lia) Hf) as [Hv Hlen].
  unfold parse_uint. destruct (digits fuel n "") eqn:Hd; [simpl in Hlen; lia|]. rewrite <- Hd in *. rewrite Hv. done.
Qed.
Lemma digits_value_utoa n : 0 ≤ n < 10 ^ 20 → parse_uint (utoa n) = Some n.
Proof. intros Hn. apply parse_digits; [exact Hn|lia]. Qed.
(** the first character of a number is a digit *)
Lemma digits_head fuel n acc : 0 ≤ n → (0 < fuel)%nat → ∃ c s, digits fuel n acc = String.String c s ∧ is_digit c = true.
Proof.
  revert n acc. induction fuel as [|fuel IH]; intros n acc Hn Hf; [lia|]. simpl.
  pose proof (Z.mod_pos_bound n 10 ltac:(lia)) as Hm. destruct (is_digit_of (n mod 10) Hm) as [Hd _].
  case_bool_decide; [eauto|]. destruct fuel as [|fuel]; [simpl; eauto|]. apply IH; [apply Z.div_pos; lia|lia].
Qed.
(** what [Itoa] prints [Atoi] reads *)
Lemma Atoi_Itoa z : - 2 ^ 63 ≤ z < 2 ^ 63 → Atoi (Itoa z) = Ok z.
Proof.
  intros Hz. unfold Atoi, Itoa. case_bool_decide as Hneg.
  - rewrite bool_decide_eq_true_2 by done. rewrite digits_value_utoa by lia. rewrite bool_decide_eq_true_2 by lia. f_equal. lia.
  - pose proof (digits_value_utoa z ltac:(lia)) as Hu. unfold utoa in *. destruct (digits_head 20 z "" ltac:(lia) ltac:(lia)) as (c & s & Heq & Hc).
    rewrite Heq in *. unfold is_digit in Hc. apply bool_decide_eq_true in Hc.
    rewrite !bool_decide_eq_false_2 by (intros ->; vm_compute in Hc; intuition congruence). rewrite Hu. by rewrite bool_decide_eq_true_2 by lia.
Qed.
Lemma Itoa_inj x y : - 2 ^ 63 ≤ x < 2 ^ 63 → - 2 ^ 63 ≤ y < 2 ^ 63 → Itoa x = Itoa y → x = y.
Proof. intros Hx Hy Heq. pose proof (Atoi_Itoa x Hx) as Hr. rewrite Heq, Atoi_Itoa in Hr by done. congruence. Qed.
