(* ===== verification/HTTP.v ===== *)
(** * Responses of [net/http]

    What a handler does with its [ResponseWriter]: the header map, which is sent
    with the first [WriteHeader] or [Write] and may not be changed any more, and
    the body. *)
From Stdlib Require Import ZArith Lia Ascii.
From stdpp Require Import base gmap strings list.
From S2P Require Import Prelude GoStrings.

(** what is written: a text, or bytes *)
Inductive part := Text (s : string) | Bytes (b : list Z).
Abbreviation headers := (gmap string (list string)).
Record response := mkResponse {
  header : headers;
  sent_header : option (Z * headers);   (* the status and the header, once sent *)
  body : list part
}.
Definition new_response : response := mkResponse ∅ None [].

(** [CanonicalMIMEHeaderKey] on the keys the handlers use: letters and dashes *)
Fixpoint canonical (upper : bool) (s : string) : string :=
  match s with
  | String.EmptyString => ""
  | String.String c s => String.String (if upper then to_upper c else to_lower c) (canonical (bool_decide (c = "-"%char)) s)
  end.
Definition CanonicalHeaderKey : string → string := canonical true.

Definition header_Set (k v : string) (w : response) : response :=
  mkResponse (<[CanonicalHeaderKey k := [v]]> (header w)) (sent_header w) (body w).
Definition header_Add (k v : string) (w : response) : response :=
  let k := CanonicalHeaderKey k in mkResponse (<[k := default [] (header w !! k) ++ [v]]> (header w)) (sent_header w) (body w).
Definition WriteHeader (code : Z) (w : response) : response :=
  match sent_header w with Some _ => w | None => mkResponse (header w) (Some (code, header w)) (body w) end.
Definition write (p : part) (w : response) : response :=
  let w := WriteHeader 200 w in mkResponse (header w) (sent_header w) (body w ++ [p]).
(** [http.Error] *)
Definition http_Error (error : string) (code : Z) (w : response) : response :=
  let w := header_Set "Content-Type" "text/plain; charset=utf-8" w in
  let w := header_Set "X-Content-Type-Options" "nosniff" w in
  let w := WriteHeader code w in
  write (Text (error ++ String.String (char_of 10) "")) w.

(** the response as the client sees it *)
Definition status (w : response) : Z := match sent_header w with Some (code, _) => code | None => 200 end.
Definition client_header (w : response) (k : string) : option (list string) :=
  match sent_header w with Some (_, h) => h | None => header w end !! CanonicalHeaderKey k.

(** what is done to the header once it is sent is not seen *)
Lemma header_after_send k v w : is_Some (sent_header w) → status (header_Add k v w) = status w ∧ client_header (header_Add k v w) = client_header w.
Proof. unfold status, client_header. simpl. by intros [[code h] ->]. Qed.
Lemma status_write p w code : status (write p (WriteHeader code w)) = status (WriteHeader code w).
Proof. unfold write, WriteHeader, status. destruct (sent_header w) as [[c h]|] eqn:Hs; simpl; by rewrite ?Hs. Qed.
Lemma status_Error error code : status (http_Error error code new_response) = code.
Proof. reflexivity. Qed.
