(* ===== verification/KVInit.v ===== *)
(** * The service that starts the gossiped store: [kv/memberlist/kv_init_service.go],
    [services/failure_watcher.go]

    A [KVInitService] creates and starts the [KV] when it is first asked for it,
    fails when it fails and stops it when it stops; callers of [GetMemberlistKV],
    the goroutine of the service, the [KV] and its failure listener are
    interleaved.  The states of both services are those of Services.v. *)
From Stdlib Require Import ZArith Lia Ascii.
From stdpp Require Import base gmap strings list sorting fin_maps relations.
From S2P Require Import Prelude GoStrings HTTP Services.

(** ** The service *)
Section service.
Context {E : Type}.

(** [FailureWatcher]: the sends on the unbuffered channel that wait for a receiver *)
Record FailureWatcher := mkWatcher { sending : list E }.
Definition NewFailureWatcher : FailureWatcher := mkWatcher [].
(** the failure listener [WatchService] installs sends; [Chan] is received from *)
Definition watcher_send (e : E) (w : FailureWatcher) : FailureWatcher := mkWatcher (sending w ++ [e]).
Definition watcher_recv (i : nat) (w : FailureWatcher) : option (E * FailureWatcher) :=
  e ← sending w !! i; Some (e, mkWatcher (delete i (sending w))).

(** the [KV] service: its state and failure, whether [StopAsync] has been called *)
Record kv_service := mkKVService { kv_state : State; kv_failure : option E; kv_stop : bool }.
Definition NewKVService : kv_service := mkKVService New None false.
(** a step along the state diagram; a service that fails has a failure *)
Definition kv_moves (to : State) (failure : option E) (k : kv_service) : option kv_service :=
  if bool_decide (kv_state k ≠ New) && diagram (kv_state k) to && eqb (bool_decide (to = Failed)) (match failure with Some _ => true | None => false end)
  then Some (mkKVService to failure (kv_stop k)) else None.

(** the call of [init.Do] under way *)
Inductive once := OnceNotCalled | OnceStart | OnceStore | OnceDone.
(** the goroutine of the service *)
Inductive init_pc :=
| INew
| IRunning
| IStopping (failure : option E)       (* [stopping]: looks at [kv] *)
| IStopKV (failure : option E)         (* calls [StopAsync] *)
| IAwaitKV (failure : option E)        (* waits for the [KV] to terminate *)
| ITerminated
| IFailed (failure : E).
Record KVInitService := mkInit {
  once_init : once;
  kvs : list kv_service;            (* the KVs created so far *)
  kv_value : option nat;            (* the [atomic.Value]: an index of [kvs] *)
  init_err : option string;
  watcher : FailureWatcher;
  init_main : init_pc;
  init_ctx : bool                   (* the context of the service is done *)
}.
Definition NewKVInitService : KVInitService := mkInit OnceNotCalled [] None None NewFailureWatcher INew false.

Definition set_once o ks v err (s : KVInitService) : KVInitService := mkInit o ks v err (watcher s) (init_main s) (init_ctx s).
Definition set_init_main pc (s : KVInitService) : KVInitService :=
  mkInit (once_init s) (kvs s) (kv_value s) (init_err s) (watcher s) pc (init_ctx s).
Definition set_kvs ks w (s : KVInitService) : KVInitService :=
  mkInit (once_init s) ks (kv_value s) (init_err s) w (init_main s) (init_ctx s).

(** the [KV] made last *)
Definition list_last_index (l : list kv_service) : option (nat * kv_service) :=
  match last l with Some k => Some (pred (length l), k) | None => None end.
(** the body of [init.Do]: creates the [KV] and watches it, starts it, stores it *)
Definition init_Do (s : KVInitService) : KVInitService :=
  match once_init s with
  | OnceNotCalled => set_once OnceStart (kvs s ++ [NewKVService]) (kv_value s) (init_err s) s
  | OnceStart =>
      match list_last_index (kvs s) with
      | Some (i, k) =>
          match kv_state k with
          | New => set_once OnceStore (<[i := mkKVService Starting None (kv_stop k)]> (kvs s)) (kv_value s) None s
          | _ => set_once OnceStore (kvs s) (kv_value s) (Some "invalid service state"%string) s
          end
      | None => s
      end
  | OnceStore => set_once OnceDone (kvs s) (fst <$> list_last_index (kvs s)) (init_err s) s
  | OnceDone => s
  end.
(** what [GetMemberlistKV] returns: [None] while [init.Do] has not returned *)
Definition GetMemberlistKV (s : KVInitService) : option (option nat * option string) :=
  match once_init s with OnceDone => Some (kv_value s, init_err s) | _ => None end.
Definition getKV (s : KVInitService) : option nat := kv_value s.

(** the error of a stop adds to the failure there may be already *)
Definition finish (failure : option E) (err : option E) : init_pc :=
  match failure with Some e => IFailed e | None => match err with Some e => IFailed e | None => ITerminated end end.
(** the next step of the goroutine; [recv] is the send it receives, if it does;
    [None]: it waits *)
Definition init_step (recv : option nat) (s : KVInitService) : option KVInitService :=
  match init_main s with
  | IRunning =>
      match recv with
      | Some i => '(e, w) ← watcher_recv i (watcher s); Some (set_init_main (IStopping (Some e)) (set_kvs (kvs s) w s))
      | None => if init_ctx s then Some (set_init_main (IStopping None) s) else None
      end
  | IStopping failure =>
      match getKV s with
      | None => Some (set_init_main (finish failure None) s)
      | Some _ => Some (set_init_main (IStopKV failure) s)
      end
  | IStopKV failure =>
      i ← getKV s; k ← kvs s !! i;
      let k' := match kv_state k with New => mkKVService Terminated None true | _ => mkKVService (kv_state k) (kv_failure k) true end in
      Some (set_init_main (IAwaitKV failure) (set_kvs (<[i := k']> (kvs s)) (watcher s) s))
  | IAwaitKV failure =>
      i ← getKV s; k ← kvs s !! i;
      match kv_state k with
      | Terminated => Some (set_init_main (finish failure None) s)
      | Failed => Some (set_init_main (finish failure (kv_failure k)) s)
      | _ => None
      end
  | INew | ITerminated | IFailed _ => None
  end.

Inductive init_event :=
| CallGet                                                  (* a step of a call of [GetMemberlistKV] *)
| StartInit                                                (* [StartAsync]: there is no starting function *)
| StopInit                                                 (* [StopAsync] *)
| InitStep (recv : option nat)
| KVMoves (i : nat) (to : State) (failure : option E).     (* a KV changes its state *)
Definition init_event_step (ev : init_event) (s : KVInitService) : option KVInitService :=
  match ev with
  | CallGet => Some (init_Do s)
  | StartInit => match init_main s with INew => Some (set_init_main IRunning s) | _ => Some s end
  | StopInit =>
      match init_main s with
      | INew => Some (set_init_main ITerminated s)
      | _ => Some (mkInit (once_init s) (kvs s) (kv_value s) (init_err s) (watcher s) (init_main s) true)
      end
  | InitStep recv => init_step recv s
  | KVMoves i to failure =>
      k ← kvs s !! i; k' ← kv_moves to failure k;
      let w := match failure with Some e => watcher_send e (watcher s) | None => watcher s end in
      Some (set_kvs (<[i := k']> (kvs s)) w s)
  end.
Fixpoint init_run (evs : list init_event) (s : KVInitService) : option KVInitService :=
  match evs with [] => Some s | ev :: evs => s ← init_event_step ev s; init_run evs s end.
End service.

(** ** The store is started once, and ends with its service *)
Section facts.
Context {E : Type}.
Implicit Types (s : KVInitService (E:=E)) (k : kv_service (E:=E)).

(** the failure the goroutine has received or found *)
Definition main_failure (pc : init_pc (E:=E)) : option E :=
  match pc with IStopping f | IStopKV f | IAwaitKV f => f | IFailed e => Some e | _ => None end.
Definition after_stop (pc : init_pc (E:=E)) : Prop := match pc with IStopKV _ | IAwaitKV _ => True | _ => False end.
Definition waiting (pc : init_pc (E:=E)) : Prop := match pc with INew | IRunning => True | _ => False end.
(** a KV has a failure exactly when it has failed *)
Definition kv_ok k : Prop := kv_state k = Failed ↔ is_Some (kv_failure k).
Lemma kv_ok_none k : kv_failure k = None → kv_state k ≠ Failed → kv_ok k.
Proof. unfold kv_ok. intros -> Hne. split; [done|by intros []]. Qed.

Record inv s : Prop := {
  inv_err : init_err s = None;
  inv_once : match once_init s with
    | OnceNotCalled => kvs s = [] ∧ kv_value s = None
    | OnceStart => (∃ k, kvs s = [k] ∧ kv_state k = New) ∧ kv_value s = None
    | OnceStore => (∃ k, kvs s = [k] ∧ kv_state k ≠ New) ∧ kv_value s = None
    | OnceDone => (∃ k, kvs s = [k] ∧ kv_state k ≠ New) ∧ kv_value s = Some 0%nat
    end;
  inv_kv : ∀ k, k ∈ kvs s → kv_ok k;
  (** the failure of the KV: waiting to be sent, or received *)
  inv_sending : ∀ e, e ∈ sending (watcher s) → ∃ k, kvs s = [k] ∧ kv_failure k = Some e;
  inv_one : (length (sending (watcher s)) ≤ 1)%nat;
  inv_failure : ∀ e, main_failure (init_main s) = Some e → ∃ k, kvs s = [k] ∧ kv_failure k = Some e;
  inv_unsent : ∀ k, k ∈ kvs s → kv_state k = Failed → waiting (init_main s) → ∃ e, sending (watcher s) = [e];
  inv_stop : after_stop (init_main s) → kv_value s = Some 0%nat
}.

Lemma inv_init : inv NewKVInitService.
Proof. constructor; simpl; try done; try lia; by intros ? ?%elem_of_nil. Qed.

Lemma kvs_single s i k : inv s → kvs s !! i = Some k → i = 0%nat ∧ kvs s = [k].
Proof.
  intros Hinv Hk. pose proof (inv_once _ Hinv) as Ho.
  assert (kvs s = [] ∨ ∃ k0, kvs s = [k0]) as [Hn|[k0 Hn]]; [destruct (once_init s); naive_solver|by rewrite Hn in Hk|].
  rewrite Hn in Hk. destruct i as [|i]; [|done]. by injection Hk as <-.
Qed.

(** the steps that only move the goroutine *)
Lemma kvinit_inv_main pc s : inv s → (∀ e, main_failure pc = Some e → ∃ k, kvs s = [k] ∧ kv_failure k = Some e) →
  (waiting pc → waiting (init_main s)) → (after_stop pc → kv_value s = Some 0%nat) → inv (set_init_main pc s).
Proof. intros [H1 H2 H3 H4 H5 H6 H7 H8] Hf Hr Hs. constructor; simpl; eauto. Qed.
Lemma inv_finish failure err s : inv s → (∀ e, failure = Some e → ∃ k, kvs s = [k] ∧ kv_failure k = Some e) →
  (∀ e, err = Some e → ∃ k, kvs s = [k] ∧ kv_failure k = Some e) → inv (set_init_main (finish failure err) s).
Proof. intros Hinv H1 H2. apply kvinit_inv_main; [done|..]; destruct failure, err; simpl; naive_solver. Qed.

Lemma init_Do_inv s : inv s → inv (init_Do s).
Proof.
  intros Hinv. pose proof Hinv as [H1 H2 H3 H4 H5 H6 H7 H8]. unfold init_Do. destruct (once_init s) eqn:Ho.
  - destruct H2 as [Hk Hv]. rewrite Hk in *. constructor; simpl; try done.
    + split; [by eexists|done].
    + intros k ->%list_elem_of_singleton. by apply kv_ok_none.
    + intros e He. destruct (H4 e He) as (k & ? & _). done.
    + intros e He. destruct (H6 e He) as (k & ? & _). done.
    + by intros k ->%list_elem_of_singleton.
  - destruct H2 as [(k & Hk & Hst) Hv]. unfold list_last_index. rewrite Hk. simpl. rewrite Hst.
    assert (kv_failure k = None) as Hf.
    { destruct (kv_failure k) eqn:Hf; [|done]. assert (kv_ok k) as [_ Hok] by (apply H3; rewrite Hk; by left).
      rewrite Hok in Hst by (by eexists). done. }
    constructor; simpl; try done.
    + split; [by eexists|done].
    + intros ? ->%list_elem_of_singleton. by apply kv_ok_none.
    + intros e He. destruct (H4 e He) as (k' & Hk' & Hf'). rewrite Hk in Hk'. congruence.
    + intros e He. destruct (H6 e He) as (k' & Hk' & Hf'). rewrite Hk in Hk'. congruence.
    + by intros ? ->%list_elem_of_singleton.
  - destruct H2 as [(k & Hk & Hst) Hv]. unfold list_last_index. rewrite Hk. simpl. constructor; simpl; rewrite <- ?Hk; try done. by eauto.
  - done.
Qed.

Lemma init_step_inv recv s s' : init_step recv s = Some s' → inv s → inv s'.
Proof.
  intros Hs Hinv. pose proof Hinv as [H1 H2 H3 H4 H5 H6 H7 H8]. unfold init_step in Hs.
  destruct (init_main s) as [| |f|f|f| |e] eqn:Hpc; try done.
  - destruct recv as [i|].
    + unfold watcher_recv in Hs. destruct (sending (watcher s) !! i) as [e|] eqn:He; [|done]. simpl in Hs. injection Hs as <-.
      destruct (H4 e) as (k & Hk & Hf); [by eapply list_elem_of_lookup_2|].
      assert (delete i (sending (watcher s)) = []) as Hdel.
      { destruct (sending (watcher s)) as [|e0 [|]], i as [|i]; simpl in *; try done; lia. }
      constructor; simpl; try done; rewrite ?Hdel; [by intros ? ?%elem_of_nil|simpl; lia|intros e' [= <-]; eauto].
    + destruct (init_ctx s); [|done]. injection Hs as <-. by apply kvinit_inv_main.
  - unfold getKV in Hs. destruct (kv_value s) as [i|] eqn:Hv; injection Hs as <-.
    + apply kvinit_inv_main; try done. intros _. destruct (once_init s); naive_solver.
    + by apply inv_finish.
  - unfold getKV in Hs. destruct (kv_value s) as [i|] eqn:Hv; [|done]. simpl in Hs. destruct (kvs s !! i) as [k|] eqn:Hk; [|done].
    simpl in Hs. injection Hs as <-. destruct (kvs_single s i k Hinv Hk) as [-> Hks]. rewrite Hks. simpl.
    assert (Some 0%nat = Some 0%nat) as Hv0 by done.
    assert (once_init s = OnceDone ∧ kv_state k ≠ New) as [Ho Hst].
    { destruct (once_init s); try (destruct H2; congruence). destruct H2 as [(k' & Hk' & ?) _]. split; [done|]. congruence. }
    assert (kv_ok k) as Hok by (apply H3; rewrite Hks; by left).
    rewrite Ho in H2. destruct (kv_state k) eqn:Hkst; [done|..]; (constructor; simpl; [done| | | |done| |done|by rewrite Hv]);
      try (rewrite Ho; split; [by eexists|done]);
      try (intros k' ->%list_elem_of_singleton; unfold kv_ok in *; simpl; by rewrite Hkst in Hok);
      try (intros e He; destruct (H4 e He) as (k' & Hk' & Hf); rewrite Hks in Hk'; injection Hk' as <-; by eexists);
      try (intros e He; destruct (H6 e He) as (k' & Hk' & Hf); rewrite Hks in Hk'; injection Hk' as <-; by eexists).
  - unfold getKV in Hs. destruct (kv_value s) as [i|] eqn:Hv; [|done]. simpl in Hs. destruct (kvs s !! i) as [k|] eqn:Hk; [|done].
    simpl in Hs. destruct (kvs_single s i k Hinv Hk) as [-> Hks]. destruct (kv_state k); try done; injection Hs as <-; apply inv_finish; try done.
    intros e He. eauto.
Qed.

Lemma KVMoves_inv i to failure k k' s : inv s → kvs s !! i = Some k → kv_moves to failure k = Some k' →
  inv (set_kvs (<[i := k']> (kvs s)) (match failure with Some e => watcher_send e (watcher s) | None => watcher s end) s).
Proof.
  intros Hinv Hk Hm. pose proof Hinv as [H1 H2 H3 H4 H5 H6 H7 H8]. destruct (kvs_single s i k Hinv Hk) as [-> Hks].
  unfold kv_moves in Hm. destruct (bool_decide _ && _ && _) eqn:Hb; [|done]. injection Hm as <-.
  apply andb_true_iff in Hb as [Hb Hf%eqb_prop]. apply andb_true_iff in Hb as [Hn%bool_decide_eq_true Hd].
  assert (kv_ok k) as Hok by (apply H3; rewrite Hks; by left).
  assert (kv_failure k = None) as Hnf.
  { destruct (kv_failure k) eqn:He; [|done]. destruct Hok as [_ Hok]. rewrite Hok in Hd by (by eexists). done. }
  assert (sending (watcher s) = []) as Hse.
  { destruct (sending (watcher s)) as [|e l] eqn:Hl; [done|]. destruct (H4 e) as (k0 & Hk0 & He); [by left|]. rewrite Hks in Hk0. congruence. }
  assert (main_failure (init_main s) = None) as Hmf.
  { destruct (main_failure (init_main s)) as [e|] eqn:Hl; [|done]. destruct (H6 e eq_refl) as (k0 & Hk0 & He). rewrite Hks in Hk0. congruence. }
  assert (to ≠ New) as Hto by (intros ->; by destruct (kv_state k)).
  rewrite Hks. constructor; simpl; try done.
  - destruct (once_init s); [by destruct H2; congruence|destruct H2 as [(k0 & Hk0 & ?) _]; congruence|..]; (split; [by eexists|by destruct H2]).
  - intros ? ->%list_elem_of_singleton. unfold kv_ok. simpl. destruct failure; [|]; case_bool_decide; naive_solver.
  - destruct failure as [e|]; simpl; rewrite Hse; [|by intros ? ?%elem_of_nil]. intros e' ->%list_elem_of_singleton. by eexists.
  - destruct failure; simpl; rewrite Hse; simpl; lia.
  - rewrite Hmf. done.
  - intros ? ->%list_elem_of_singleton. simpl. intros -> _. rewrite bool_decide_eq_true_2 in Hf by done. destruct failure as [e|]; [|done].
    simpl. rewrite Hse. by exists e.
Qed.

Lemma event_inv ev s s' : init_event_step ev s = Some s' → inv s → inv s'.
Proof.
  intros Hs Hinv. destruct ev as [| | |recv|i to failure]; simpl in Hs.
  - injection Hs as <-. by apply init_Do_inv.
  - destruct (init_main s) eqn:Hpc; injection Hs as <-; try done. apply kvinit_inv_main; try done. by rewrite Hpc.
  - destruct (init_main s) eqn:Hpc; injection Hs as <-; try (by apply kvinit_inv_main);
      destruct Hinv as [H1 H2 H3 H4 H5 H6 H7 H8]; rewrite Hpc in *; by constructor.
  - by eapply init_step_inv.
  - destruct (kvs s !! i) as [k|] eqn:Hk; [|done]. simpl in Hs. destruct (kv_moves to failure k) as [k'|] eqn:Hm; [|done]. simpl in Hs.
    injection Hs as <-. by eapply KVMoves_inv.
Qed.
Lemma kvinit_run_inv evs s s' : init_run evs s = Some s' → inv s → inv s'.
Proof.
  revert s. induction evs as [|ev evs IH]; intros s; simpl; [by intros [= ->]|].
  destruct (init_event_step ev s) as [s1|] eqn:Hs; [|done]. simpl. intros Hr Hinv. by eapply IH, event_inv.
Qed.

(** However callers of [GetMemberlistKV], the service, the store and its failure
    listener interleave: one store is created at most, every caller gets it and no
    error; when the service fails it fails with the failure of the store; and when
    the store fails while the service runs, the service receives its failure and
    stops with it. *)
Theorem kvinit_correct (evs : list init_event) s :
  init_run evs NewKVInitService = Some s →
  (length (kvs s) ≤ 1)%nat ∧ (∀ r, GetMemberlistKV s = Some r → r = (Some 0%nat, None)) ∧
  (∀ e, init_main s = IFailed e → ∃ k, kvs s = [k] ∧ kv_state k = Failed ∧ kv_failure k = Some e) ∧
  (∀ k, k ∈ kvs s → kv_state k = Failed → init_main s = IRunning →
     ∃ e s', kv_failure k = Some e ∧ init_step (Some 0%nat) s = Some s' ∧ init_main s' = IStopping (Some e)).
Proof.
  intros Hr. pose proof (kvinit_run_inv _ _ _ Hr inv_init) as Hinv. pose proof Hinv as [H1 H2 H3 H4 H5 H6 H7 H8]. split_and!.
  - destruct (once_init s); [destruct H2 as [-> _]; simpl; lia|destruct H2 as [(k & -> & _) _]; simpl; lia..].
  - unfold GetMemberlistKV. destruct (once_init s); try done. destruct H2 as [_ ->]. rewrite H1. by intros r [= <-].
  - intros e He. destruct (H6 e) as (k & Hk & Hf); [by rewrite He|]. exists k. split_and!; try done.
    destruct (H3 k) as [_ Hok]; [rewrite Hk; by left|]. apply Hok. by eexists.
  - intros k Hk Hst Hpc. destruct (H7 k Hk Hst) as (e & He); [by rewrite Hpc|].
    destruct (H4 e) as (k' & Hk' & Hf); [rewrite He; by left|]. rewrite Hk' in Hk. apply list_elem_of_singleton in Hk as ->.
    exists e. eexists. split; [done|]. unfold init_step. rewrite Hpc. unfold watcher_recv. rewrite He. simpl. done.
Qed.

(** ** Stopping *)
Definition ended s : Prop := match init_main s with ITerminated | IFailed _ => True | _ => False end.
Definition kv_ended s : Prop := ∃ k, kvs s = [k] ∧ terminal (kv_state k) = true.
(** the store was there before the service began to stop *)
Definition supervised s : Prop := once_init s = OnceDone ∧ init_main s ≠ INew ∧ (ended s → kv_ended s).

Lemma supervised_step ev s s' : init_event_step ev s = Some s' → inv s → supervised s → supervised s'.
Proof.
  intros Hs Hinv (Ho & Hn & He). pose proof (inv_once _ Hinv) as Hv. rewrite Ho in Hv. destruct Hv as [(k & Hk & Hst) Hv].
  unfold supervised. destruct ev as [| | |recv|i to failure]; simpl in Hs.
  - unfold init_Do in Hs. rewrite Ho in Hs. by injection Hs as <-.
  - destruct (init_main s) eqn:Hpc; injection Hs as <-; rewrite ?Hpc; try done.
  - unfold ended, kv_ended in *. destruct (init_main s) eqn:Hpc; injection Hs as <-; simpl; rewrite ?Hpc; done.
  - unfold init_step, getKV in Hs. unfold ended, kv_ended. rewrite Hv in Hs. simpl in Hs. rewrite Hk in Hs. simpl in Hs.
    destruct (init_main s) as [| |f|f|f| |e] eqn:Hpc; try done.
    + destruct recv as [j|]; [|destruct (init_ctx s); [|done]; by injection Hs as <-].
      destruct (watcher_recv j (watcher s)) as [[e w]|]; [|done]. simpl in Hs. by injection Hs as <-.
    + by injection Hs as <-.
    + by injection Hs as <-.
    + destruct (kv_state k) eqn:Hks; try done; injection Hs as <-; simpl; (split; [done|]; split; [destruct f; simpl; by repeat case_match|]);
        intros _; exists k; by rewrite Hks.
  - destruct (kvs s !! i) as [k'|] eqn:Hi; [|done]. simpl in Hs. destruct (kv_moves to failure k') as [k2|] eqn:Hm; [|done]. simpl in Hs.
    injection Hs as <-. simpl. split; [done|]. split; [done|]. intros Hend. destruct (He Hend) as (k0 & Hk0 & Ht).
    destruct (kvs_single _ _ _ Hinv Hi) as [-> Hks]. rewrite Hks in Hk0. injection Hk0 as <-.
    unfold kv_moves in Hm. by destruct (kv_state k'); rewrite ?andb_false_r in Hm.
Qed.
Lemma supervised_run evs s s' : init_run evs s = Some s' → inv s → supervised s → supervised s'.
Proof.
  revert s. induction evs as [|ev evs IH]; intros s; simpl; [by intros [= ->]|].
  destruct (init_event_step ev s) as [s1|] eqn:Hs; [|done]. simpl. intros Hr Hinv Hsup.
  eapply IH; [done|by eapply event_inv|by eapply supervised_step].
Qed.

Definition machine (ev : init_event (E:=E)) : bool := match ev with InitStep _ | KVMoves _ _ _ => true | _ => false end.
Definition kv_weight k : nat := match kv_state k with New => 4 | Starting => 3 | Running => 2 | Stopping => 1 | _ => 0 end.
Definition init_weight s : nat :=
  (match init_main s with INew => 5 | IRunning => 4 | IStopping _ => 3 | IStopKV _ => 2 | IAwaitKV _ => 1 | _ => 0 end + sum_list (kv_weight <$> kvs s))%nat.
Lemma kvinit_machine_decreases ev s s' : machine ev = true → inv s → init_event_step ev s = Some s' → (init_weight s' < init_weight s)%nat.
Proof.
  intros Hm Hinv Hs. destruct ev as [| | |recv|i to failure]; try done; simpl in Hs; unfold init_weight.
  - unfold init_step, getKV in Hs. destruct (init_main s) as [| |f|f|f| |e] eqn:Hpc; try done.
    + destruct recv as [j|]; [|destruct (init_ctx s); [|done]; injection Hs as <-; simpl; lia].
      destruct (watcher_recv j (watcher s)) as [[e w]|]; [|done]. simpl in Hs. injection Hs as <-. simpl. lia.
    + destruct (kv_value s); injection Hs as <-; simpl; [lia|]. destruct f; simpl; lia.
    + destruct (kv_value s) as [i|]; [|done]. simpl in Hs. destruct (kvs s !! i) as [k|] eqn:Hk; [|done]. simpl in Hs. injection Hs as <-.
      destruct (kvs_single _ _ _ Hinv Hk) as [-> ->]. simpl. unfold kv_weight. destruct (kv_state k) eqn:Hks; simpl; rewrite ?Hks; lia.
    + destruct (kv_value s) as [i|]; [|done]. simpl in Hs. destruct (kvs s !! i) as [k|] eqn:Hk; [|done]. simpl in Hs.
      destruct (kv_state k) eqn:Hks; try done; injection Hs as <-; destruct f, (kv_failure k); simpl; lia.
  - destruct (kvs s !! i) as [k|] eqn:Hi; [|done]. simpl in Hs. destruct (kv_moves to failure k) as [k2|] eqn:Hmv; [|done]. simpl in Hs.
    injection Hs as <-. simpl. destruct (kvs_single _ _ _ Hinv Hi) as [-> ->]. simpl. unfold kv_moves in Hmv.
    destruct (bool_decide _ && _ && _) eqn:Hb; [|done]. injection Hmv as <-. apply andb_true_iff in Hb as [Hb _]. apply andb_true_iff in Hb as [Hn%bool_decide_eq_true Hd].
    unfold kv_weight. simpl. destruct (kv_state k), to; simpl in *; done || lia.
Qed.
Lemma kvinit_machine_run_bound evs s s' : forallb machine evs = true → inv s → init_run evs s = Some s' → (length evs + init_weight s' ≤ init_weight s)%nat.
Proof.
  revert s. induction evs as [|ev evs IH]; intros s; simpl; [by intros _ _ [= ->]|]. intros [Hm Hms]%andb_true_iff Hinv.
  destruct (init_event_step ev s) as [s1|] eqn:Hs; [|done]. simpl. intros Hr.
  pose proof (kvinit_machine_decreases _ _ _ Hm Hinv Hs). specialize (IH s1 Hms (event_inv _ _ _ Hs Hinv) Hr). lia.
Qed.
(** a service asked to stop can always make a step, or its store can *)
Lemma stop_progress s : inv s → init_main s ≠ INew → init_ctx s = true → (∀ ev, machine ev = true → init_event_step ev s = None) → ended s.
Proof.
  intros Hinv Hn Hc Hb. pose proof (Hb (InitStep None) eq_refl) as Hstep. simpl in Hstep. unfold init_step, getKV in Hstep. unfold ended.
  destruct (init_main s) as [| |f|f|f| |e] eqn:Hpc; try done.
  - by rewrite Hc in Hstep.
  - by destruct (kv_value s).
  - pose proof (inv_stop _ Hinv) as Hv. rewrite Hpc in Hv. specialize (Hv I). pose proof (inv_once _ Hinv) as Ho.
    destruct (once_init s); try (destruct Ho; congruence). destruct Ho as [(k & Hk & _) _]. rewrite Hv, Hk in Hstep. done.
  - pose proof (inv_stop _ Hinv) as Hv. rewrite Hpc in Hv. specialize (Hv I). pose proof (inv_once _ Hinv) as Ho.
    destruct (once_init s); try (destruct Ho; congruence). destruct Ho as [(k & Hk & Hst) _]. rewrite Hv, Hk in Hstep. simpl in Hstep.
    set (to := match kv_state k with Starting => Running | Running => Stopping | _ => Terminated end).
    pose proof (Hb (KVMoves 0 to None) eq_refl) as Hkv. simpl in Hkv. rewrite Hk in Hkv. simpl in Hkv. unfold kv_moves in Hkv.
    rewrite bool_decide_eq_true_2 in Hkv by done. subst to. by destruct (kv_state k).
Qed.

(** When [GetMemberlistKV] has returned while the service runs, the service does
    not end before the store has.  Once the service is asked to stop it ends: it
    and the store make a bounded number of steps, and when neither can make another
    one the service has ended. *)
Theorem kvinit_stops (evs evs' more : list init_event) s s1 s2 :
  init_run evs NewKVInitService = Some s → init_main s = IRunning → GetMemberlistKV s ≠ None → init_run evs' s = Some s1 →
  (ended s1 → kv_ended s1) ∧
  (init_ctx s1 = true → forallb machine more = true → init_run more s1 = Some s2 →
     (length more ≤ init_weight s1)%nat ∧
     (init_ctx s2 = true → (∀ ev, machine ev = true → init_event_step ev s2 = None) → ended s2 ∧ kv_ended s2)).
Proof.
  intros Hr Hpc Hget Hr'. pose proof (kvinit_run_inv _ _ _ Hr inv_init) as Hinv. pose proof (kvinit_run_inv _ _ _ Hr' Hinv) as Hinv1.
  assert (supervised s) as Hsup.
  { unfold supervised, ended, GetMemberlistKV in *. rewrite Hpc. by destruct (once_init s). }
  pose proof (supervised_run _ _ _ Hr' Hinv Hsup) as Hsup1. split; [apply Hsup1|]. intros Hc Hm Hmore.
  split; [pose proof (kvinit_machine_run_bound _ _ _ Hm Hinv1 Hmore); lia|]. intros Hc2 Hb.
  pose proof (supervised_run _ _ _ Hmore Hinv1 Hsup1) as (_ & Hn & Hend). pose proof (stop_progress s2 (kvinit_run_inv _ _ _ Hmore Hinv1) Hn Hc2 Hb) as He.
  split; [done|by apply Hend].
Qed.
End facts.

(** ** Witnesses *)
Definition ex_up : list (init_event (E:=string)) := [StartInit; CallGet; CallGet; CallGet; KVMoves 0 Running None].
Definition ex_down : list (init_event (E:=string)) :=
  [InitStep None; InitStep None; InitStep None; KVMoves 0 Stopping None; KVMoves 0 Terminated None; InitStep None].
Definition ex_fail : list (init_event (E:=string)) :=
  [KVMoves 0 Stopping None; KVMoves 0 Failed (Some "no peer"%string); InitStep (Some 0%nat); InitStep None; InitStep None; InitStep None].
Definition ex_init (evs : list (init_event (E:=string))) : KVInitService := default NewKVInitService (init_run evs NewKVInitService).
Lemma kvinit_correct_witness :
  init_main (ex_init (ex_up ++ ex_fail)) = IFailed "no peer"%string ∧
  ∃ k, kvs (ex_init (ex_up ++ ex_fail)) = [k] ∧ kv_state k = Failed ∧ kv_failure k = Some "no peer"%string.
Proof.
  split; [vm_compute; reflexivity|].
  apply (kvinit_correct (ex_up ++ ex_fail) (ex_init (ex_up ++ ex_fail))); vm_compute; reflexivity.
Defined.
Lemma kvinit_stops_witness :
  (length ex_down ≤ init_weight (ex_init (ex_up ++ [StopInit])))%nat ∧ ended (ex_init (ex_up ++ [StopInit] ++ ex_down)) ∧
  kv_ended (ex_init (ex_up ++ [StopInit] ++ ex_down)).
Proof.
  split.
  - apply (kvinit_stops ex_up [StopInit] ex_down (ex_init ex_up) (ex_init (ex_up ++ [StopInit])) (ex_init (ex_up ++ [StopInit] ++ ex_down)));
      vm_compute; try reflexivity. discriminate.
  - destruct (kvinit_stops ex_up ([StopInit] ++ ex_down) [] (ex_init ex_up) (ex_init (ex_up ++ [StopInit] ++ ex_down)) (ex_init (ex_up ++ [StopInit] ++ ex_down)))
      as [He _]; [vm_compute; reflexivity|vm_compute; reflexivity|vm_compute; discriminate|vm_compute; reflexivity|].
    split; [vm_compute; exact I|apply He; vm_compute; exact I].
Defined.

(** ** Stores that nobody stops *)
(** [StopAsync] while [GetMemberlistKV] is starting the store: the service sees no
    store and terminates, the store runs on; so does one asked for afterwards *)
Lemma get_during_stop_leaks :
  let s := ex_init [StartInit; CallGet; CallGet; StopInit; InitStep None; InitStep None; CallGet; KVMoves 0 Running None] in
  init_main s = ITerminated ∧ kv_state <$> kvs s = [Running] ∧ kv_stop <$> kvs s = [false].
Proof. vm_compute. done. Qed.
Lemma get_after_stop_leaks :
  let s := ex_init [StartInit; StopInit; InitStep None; InitStep None; CallGet; CallGet; CallGet; KVMoves 0 Running None] in
  init_main s = ITerminated ∧ kv_state <$> kvs s = [Running] ∧ kv_stop <$> kvs s = [false].
Proof. vm_compute. done. Qed.
(** the service stopped before it was started does not stop the store *)
Lemma stop_before_start_leaks :
  let s := ex_init [CallGet; CallGet; CallGet; KVMoves 0 Running None; StopInit] in
  init_main s = ITerminated ∧ kv_state <$> kvs s = [Running] ∧ kv_stop <$> kvs s = [false].
Proof. vm_compute. done. Qed.
(** a store that fails while the service stops: nobody receives what its failure
    listener sends, which waits for ever *)
Lemma failure_listener_leaks :
  let s := ex_init (ex_up ++ [StopInit; InitStep None; InitStep None; InitStep None; KVMoves 0 Stopping None; KVMoves 0 Failed (Some "leave"%string); InitStep None]) in
  init_main s = IFailed "leave"%string ∧ sending (watcher s) = ["leave"%string].
Proof. vm_compute. done. Qed.
