(* ===== verification/KVPage.v ===== *)
(** * The page of the gossiped store: [kv/memberlist/kv_init_service.go]

    [ServeHTTP] over the state of a [KV]: the value of a key and the messages kept
    in the history, shown or downloaded, and the history deleted.  The JSON encoder,
    [%#v] and the HTML template are functions of what they are given. *)
From Stdlib Require Import ZArith Lia Ascii.
From stdpp Require Import base gmap strings list sorting fin_maps relations.
From S2P Require Import Prelude GoStrings HTTP Memberlist MemberlistKV Model MergeLaws MemberlistFacts RingValue PushPull.

(** a member of the cluster, of the hashicorp library *)
Record node := mkNode { node_Name : string; node_Address : string; node_State : Z }.

Record pageData (V : Type) := mkPageData {
  pd_Now : Z;
  pd_SortedMembers : list node;
  pd_Store : gmap string (valueDesc V);
  pd_SentMessages : list message;
  pd_ReceivedMessages : list message
}.
Arguments mkPageData {V} _ _ _ _ _.
Arguments pd_Now {V} p.
Arguments pd_SortedMembers {V} p.
Arguments pd_Store {V} p.
Arguments pd_SentMessages {V} p.
Arguments pd_ReceivedMessages {V} p.

(** [req.ParseForm] and the header [Accept]; a parameter that is present has a value *)
Abbreviation form := (gmap string (list string)).
Record request := mkRequest { req_Form : option form; req_Accept : string }.
Definition first_value (f : form) (param : string) : option string := vs ← f !! param; head vs.

Section page.
Context {V E : Type} `{!MergeableOps V E} `{!KVPairMarshal} `{!MapRange}.
Context (cfg : KVConfig V).
(** the libraries: JSON with or without indentation, [%#v], [json.Marshal] and the
    template on the page; the order [sort.Slice] gives to the members;
    [strconv.Quote] *)
Variables (json_Encode : bool → V → result string string) (print_struct : V → string).
Variables (json_Marshal execute_template : pageData V → result string string).
Variables (sort_members : list node → list node) (Quote : string → string).

(** [valueDesc.String] *)
Definition valueDesc_String (v : valueDesc V) : string := ("version: " ++ Itoa (version v) ++ ", codec: " ++ codecID v)%string.

Definition getFormat (f : form) : string := default "" (first_value f "format").

Definition formatValue (val : V) (format : string) (w : response) : response :=
  let w := WriteHeader 200 w in
  let w := header_Add "content-type" "text/plain" w in
  if bool_decide (format = "json") || bool_decide (format = "json-pretty") then
    match json_Encode (bool_decide (format = "json-pretty")) val with
    | Ok out => write (Text out) w
    | Err err => http_Error err 500 w
    end
  else write (Text (print_struct val)) w.

Definition viewKey (st : gmap string (valueDesc V)) (key format : string) (w : response) : response :=
  match value (default valueDesc_zero (st !! key)) with
  | None => http_Error "value not found" 404 w
  | Some v => formatValue v format w
  end.

(** [Decode] returns [inr] for a value that is not a [Mergeable]: it is printed all
    the same, which [print_other] does *)
Variable print_other : string → string → response → response.
Definition viewMessage (msg : message) (format : string) (w : response) : response :=
  match GetCodec cfg (Codec (msg_Pair msg)) with
  | None => http_Error "codec not found" 404 w
  | Some c =>
      match Decode c (Value (msg_Pair msg)) with
      | Err err => http_Error ("failed to decode: " ++ err) 500 w
      | Ok (inl val) => formatValue val format w
      | Ok (inr ty) => print_other ty format w
      end
  end.

Definition downloadKey (st : gmap string (valueDesc V)) (key : string) (w : response) : response :=
  let val := default valueDesc_zero (st !! key) in
  match value val with
  | None => http_Error "value not found" 404 w
  | Some v =>
      match GetCodec cfg (codecID val) with
      | None => http_Error "codec not found" 404 w
      | Some c =>
          match Encode c v with
          | Err err => http_Error ("failed to encode: " ++ err) 500 w
          | Ok encoded =>
              let w := header_Add "content-type" "application/octet-stream" w in
              let w := header_Add "content-length" (Itoa (Z.of_nat (length encoded))) w in
              let w := header_Add "content-disposition" ("attachment; filename=" ++ Itoa (version val) ++ "-" ++ key) w in
              let w := WriteHeader 200 w in
              write (Bytes encoded) w
          end
      end
  end.

(** the loop over the messages *)
Fixpoint view_loop (msgs : list message) (msgID : Z) (format : string) (w : response) : response :=
  match msgs with
  | [] => http_Error "message not found" 404 w
  | m :: msgs => if bool_decide (msg_ID m = msgID) then viewMessage m format w else view_loop msgs msgID format w
  end.
Definition page (members : list node) (now : Z) (accept : string) (m : KV V) (w : response) : response :=
  let '(sent, received) := getSentAndReceivedMessages m in
  let v := mkPageData now (sort_members members) (storeCopy (store m)) sent received in
  if Contains accept "application/json" then
    let w := header_Set "Content-Type" "application/json" w in
    match json_Marshal v with
    | Err err => http_Error err 500 w
    | Ok data => write (Text data) w
    end
  else
    match execute_template v with
    | Err err => http_Error err 500 w
    | Ok out => write (Text out) w
    end.

(** [ServeHTTP]: the response, and the store, whose history may be deleted; [kv] is
    [None] while the store has not been created *)
Definition ServeHTTP (req : request) (members : list node) (now : Z) (kv : option (KV V)) : response * option (KV V) :=
  let w := new_response in
  match kv with
  | None => (write (Text "This instance doesn't use memberlist.") (header_Set "Content-Type" "text/plain" w), kv)
  | Some m =>
      let show := (page members now (req_Accept req) m w, kv) in
      match req_Form req with
      | None => show
      | Some f =>
          match first_value f "downloadKey" with
          | Some key => (downloadKey (storeCopy (store m)) key w, kv)
          | None =>
              match first_value f "viewKey" with
              | Some key => (viewKey (storeCopy (store m)) key (getFormat f) w, kv)
              | None =>
                  match first_value f "viewMsg" with
                  | Some id =>
                      match Atoi id with
                      | Err e => (http_Error ("strconv.Atoi: parsing " ++ Quote id ++ (match e with ErrSyntax => ": invalid syntax" | ErrRange => ": value out of range" end)) 400 w, kv)
                      | Ok msgID =>
                          let '(sent, received) := getSentAndReceivedMessages m in
                          (view_loop (sent ++ received) msgID (getFormat f) w, kv)
                      end
                  | None =>
                      if bool_decide (first_value f "deleteMessages" = Some "true"%string) then
                        let w := header_Set "Location" "?deleteMessages=false" w in
                        (WriteHeader 302 w, Some (deleteSentReceivedMessages m))
                      else show
                  end
              end
          end
      end
  end.
End page.

(** ** The page shows what the store holds

    The messages of the history have different numbers, so the page of a message
    shows that message; a key that is downloaded is the value of the key. *)
(** ** The history *)
Section history.
Context {V : Type} (cfg : KVConfig V).
Implicit Types m : KV V.

Definition ids m : list Z := msg_ID <$> (sentMessages m ++ receivedMessages m).
(** every message has a number of its own, none above the counter *)
Definition history_ok m : Prop := NoDup (ids m) ∧ Forall (λ i, i ≤ messageCounter m) (ids m).

Lemma drop_messages_suffix msgs size limit : ∃ dropped, msgs = dropped ++ (drop_messages msgs size limit).1.
Proof.
  revert size. induction msgs as [|m0 msgs IH]; intros size; simpl; [by exists []|].
  case_bool_decide; [|by exists []]. destruct (IH (size - msg_Size m0)) as [d Hd]. exists (m0 :: d). simpl. by rewrite <- Hd.
Qed.
Lemma addMessage_ids msgs size limit msg : ∃ dropped, msgs ++ [msg] = dropped ++ (addMessageToBuffer msgs size limit msg).1.
Proof. apply drop_messages_suffix. Qed.

(** a new message at the end of one of the lists, old ones dropped *)
Lemma history_add (old other : list message) (dropped kept : list message) (msg : message) (counter : Z) :
  old ++ [msg] = dropped ++ kept → msg_ID msg = counter + 1 →
  NoDup (msg_ID <$> (old ++ other)) → Forall (λ i, i ≤ counter) (msg_ID <$> (old ++ other)) →
  NoDup (msg_ID <$> (kept ++ other)) ∧ Forall (λ i, i ≤ counter + 1) (msg_ID <$> (kept ++ other)).
Proof.
  intros Hsplit Hid Hnd Hle.
  assert (NoDup (msg_ID <$> ((old ++ [msg]) ++ other)) ∧ Forall (λ i, i ≤ counter + 1) (msg_ID <$> ((old ++ [msg]) ++ other))) as [H1 H2].
  { assert ((old ++ [msg]) ++ other ≡ₚ msg :: (old ++ other)) as Hp by (rewrite <- app_assoc; simpl; by rewrite Permutation_middle).
    rewrite Hp. simpl. rewrite Hid. split.
    - constructor; [|done]. intros Hin. rewrite Forall_forall in Hle. specialize (Hle _ Hin). simpl in Hle. lia.
    - constructor; [lia|]. eapply Forall_impl; [exact Hle|]. simpl. lia. }
  rewrite Hsplit, <- app_assoc, fmap_app in H1, H2. split; [by apply NoDup_app in H1 as (_ & _ & ?)|by apply Forall_app in H2 as [_ ?]].
Qed.
Lemma addSentMessage_ok msg m : history_ok m → history_ok (addSentMessage cfg msg m).
Proof.
  intros [H1 H2]. unfold addSentMessage. case_bool_decide; [done|]. set (msg' := mkMessage _ _ _ _ _ _).
  destruct (addMessage_ids (sentMessages m) (sentMessagesSize m) (MessageHistoryBufferBytes cfg) msg') as [d Hd].
  destruct (addMessageToBuffer _ _ _ _) as [sm ss]. simpl in Hd. unfold history_ok, ids. simpl.
  by apply (history_add (sentMessages m) (receivedMessages m) d sm msg').
Qed.
Lemma addReceivedMessage_ok msg m : history_ok m → history_ok (addReceivedMessage cfg msg m).
Proof.
  intros [H1 H2]. unfold addReceivedMessage. case_bool_decide; [done|]. set (msg' := mkMessage _ _ _ _ _ _).
  destruct (addMessage_ids (receivedMessages m) (receivedMessagesSize m) (MessageHistoryBufferBytes cfg) msg') as [d Hd].
  destruct (addMessageToBuffer _ _ _ _) as [rm rs]. simpl in Hd. unfold history_ok, ids in *. simpl.
  rewrite (Permutation_app_comm (sentMessages m)) in H1, H2 |- *.
  by apply (history_add (receivedMessages m) (sentMessages m) d rm msg').
Qed.
Lemma delete_ok m : history_ok (deleteSentReceivedMessages m).
Proof. split; constructor. Qed.
(** what does not touch the history *)
Lemma history_keep m m' : sentMessages m' = sentMessages m → receivedMessages m' = receivedMessages m → messageCounter m' = messageCounter m →
  history_ok m → history_ok m'.
Proof. unfold history_ok, ids. intros -> -> ->. done. Qed.
End history.

Section handlers.
Context {V E : Type} `{!MergeableOps V E} `{!KVPairMarshal} `{!MapRange} (cfg : KVConfig V).
Implicit Types m : KV V.

Lemma broadcastNewValue_ok key change version c now m : history_ok m → history_ok (broadcastNewValue cfg key change version c now m).
Proof.
  intros Hm. unfold broadcastNewValue. destruct (Encode c change) as [data|]; [|done]. destruct (kv_Marshal _) as [pair|]; [|done].
  eapply history_keep; [reflexivity..|]. by apply addSentMessage_ok.
Qed.
Lemma receive_pair_ok kvPair size c clk m : history_ok m → history_ok (receive_pair (E:=E) cfg kvPair size c clk m).
Proof.
  intros Hm. unfold receive_pair. destruct (mergeBytesValueForKey (E:=E) cfg _ _ c clk m) as [m1 r] eqn:Hmb.
  assert (history_ok m1) as H1.
  { unfold mergeBytesValueForKey in Hmb. destruct (Decode c _) as [[v|ty]|err]; [|by injection Hmb as <- <-..].
    destruct (mergeValueForKey _ _ _ _ _ _ _ _) as [s r'']. injection Hmb as <- <-. by eapply history_keep. }
  destruct r as [[[change|] version]|err]; [|by apply addReceivedMessage_ok..].
  case_bool_decide; [|by apply addReceivedMessage_ok]. apply broadcastNewValue_ok. eapply history_keep; [reflexivity..|].
  by apply addReceivedMessage_ok.
Qed.
Lemma NotifyMsg_ok msg clk m : history_ok m → history_ok (NotifyMsg (E:=E) cfg msg clk m).
Proof.
  intros Hm. unfold NotifyMsg. destruct (kv_Unmarshal msg) as [kvPair|]; [|done]. case_bool_decide; [done|].
  destruct (GetCodec cfg _); [by apply receive_pair_ok|done].
Qed.
Lemma LocalState_ok sent m : history_ok m → history_ok (LocalState cfg sent m).1.
Proof.
  intros Hm. unfold LocalState. assert (history_ok (m, [] : list Z).1) as Hacc0 by done. revert Hacc0. generalize (m, [] : list Z).
  induction (map_range 1031 (store m)) as [|[key val] l IH]; intros acc Hacc; [done|]. simpl. apply IH. destruct acc as [m1 buf]. simpl in *.
  destruct (value val) as [v|]; [|done]. destruct (GetCodec cfg _) as [c|]; [|done]. destruct (Encode c v) as [enc|]; [|done].
  destruct (kv_Marshal _) as [ser|]; [|done]. case_bool_decide; [done|]. simpl. by apply addSentMessage_ok.
Qed.
Lemma MergeRemoteState_ok data clk m : history_ok m → history_ok (MergeRemoteState (E:=E) cfg data clk m).
Proof.
  unfold MergeRemoteState. generalize (length data). intros fuel. revert data m. induction fuel as [|fuel IH]; intros data m Hm; [done|]. simpl.
  do 3 (case_bool_decide; [done|]). destruct (kv_Unmarshal _) as [kvPair|]; [|done]. apply IH.
  destruct (GetCodec cfg _); [by apply receive_pair_ok|done].
Qed.
Lemma CAS_ok {S} (f : option V → S → S * (cas_out V * bool * option string)) envs running now key c (s : S) m :
  history_ok m → history_ok (CAS (E:=E) cfg f envs running now key c s m).1.1.
Proof.
  intros Hm. unfold CAS. destruct (CAS_store _ _ _ _ _ _ _) as [[st s'] r]. destruct r as [[[change newver]|]|err]; [|by eapply history_keep..].
  destruct running; [apply broadcastNewValue_ok|]; by eapply history_keep.
Qed.

(** the calls on a node that touch the history *)
Inductive node_call :=
| CallNotifyMsg (msg : list Z) (clk : clocks)
| CallLocalState (now : Z)
| CallMergeRemoteState (data : list Z) (clk : nat → clocks)
| CallCAS (f : option V → cas_out V * bool * option string) (envs : nat → cas_env (V:=V)) (running : bool) (now : Z) (key : string) (c : codec V)
| CallDelete.
Definition node_do (m : KV V) (call : node_call) : KV V :=
  match call with
  | CallNotifyMsg msg clk => NotifyMsg (E:=E) cfg msg clk m
  | CallLocalState now => (LocalState cfg now m).1
  | CallMergeRemoteState data clk => MergeRemoteState (E:=E) cfg data clk m
  | CallCAS f envs running now key c => (CAS (E:=E) cfg (λ v u, (u, f v)) envs running now key c tt m).1.1
  | CallDelete => deleteSentReceivedMessages m
  end.
Lemma node_ok calls : history_ok (foldl node_do NewKV calls).
Proof.
  assert (∀ m, history_ok m → history_ok (foldl node_do m calls)) as Hall; [|by apply Hall; split; constructor].
  induction calls as [|call calls IH]; intros m Hm; [done|]. simpl. apply IH.
  destruct call; simpl; auto using NotifyMsg_ok, LocalState_ok, MergeRemoteState_ok, CAS_ok, delete_ok.
Qed.
End handlers.

(** ** The page *)
Section page.
Context {V E : Type} `{!MergeableOps V E} `{!KVPairMarshal} `{!MapRange} (cfg : KVConfig V).
Variables (json_Encode : bool → V → result string string) (print_struct : V → string).
Variables (json_Marshal execute_template : pageData V → result string string) (sort_members : list node → list node) (Quote : string → string).
Variable print_other : string → string → response → response.

Lemma view_loop_spec msgs (msg : message) format w :
  NoDup (msg_ID <$> msgs) → msg ∈ msgs →
  view_loop cfg json_Encode print_struct print_other msgs (msg_ID msg) format w = viewMessage cfg json_Encode print_struct print_other msg format w.
Proof.
  induction msgs as [|m0 msgs IH]; intros Hnd Hin; [by apply elem_of_nil in Hin|]. simpl in *. apply NoDup_cons in Hnd as [Hm0 Hnd].
  apply elem_of_cons in Hin as [->|Hin]; [by rewrite bool_decide_eq_true_2|].
  case_bool_decide as Heq; [|by apply IH]. exfalso. apply Hm0. rewrite Heq. by apply list_elem_of_fmap_2.
Qed.
Lemma view_loop_missing msgs id format w :
  id ∉ msg_ID <$> msgs → view_loop cfg json_Encode print_struct print_other msgs id format w = http_Error "message not found" 404 w.
Proof.
  induction msgs as [|m0 msgs IH]; simpl; [done|]. intros Hid. apply not_elem_of_cons in Hid as [Hne Hid].
  rewrite bool_decide_eq_false_2 by done. by apply IH.
Qed.

(** On any node, after any calls of its methods: the messages of the history
    have different numbers, so [?viewMsg] with the number of a message shows that
    message, and with another number says that it is not found; only
    [?deleteMessages] changes the node, whose history it empties. *)
Theorem page_viewMsg (calls : list (node_call (V:=V))) (f : form) accept members now (n : Z) :
  let m := foldl (node_do (E:=E) cfg) NewKV calls in
  let serve := ServeHTTP cfg json_Encode print_struct json_Marshal execute_template sort_members Quote print_other in
  - 2 ^ 63 ≤ n < 2 ^ 63 → f !! "downloadKey"%string = None → f !! "viewKey"%string = None → f !! "viewMsg"%string = Some [Itoa n] →
  (∀ msg, msg ∈ sentMessages m ++ receivedMessages m → msg_ID msg = n →
     serve (mkRequest (Some f) accept) members now (Some m)
     = (viewMessage cfg json_Encode print_struct print_other msg (getFormat f) new_response, Some m)) ∧
  (n ∉ ids m → status (serve (mkRequest (Some f) accept) members now (Some m)).1 = 404) ∧
  ∀ req m', (serve req members now (Some m)).2 = Some m' →
    m' = m ∨ m' = deleteSentReceivedMessages m ∧ ids m' = [] ∧ store m' = store m.
Proof.
  intros m serve Hn H1 H2 H3. pose proof (node_ok (E:=E) cfg calls) as [Hnd _].
  assert (serve (mkRequest (Some f) accept) members now (Some m)
    = (view_loop cfg json_Encode print_struct print_other (sentMessages m ++ receivedMessages m) n (getFormat f) new_response, Some m)) as Hserve.
  { unfold serve, ServeHTTP, first_value. simpl. rewrite H1, H2, H3. simpl. by rewrite Atoi_Itoa. }
  split_and!.
  - intros msg Hmsg <-. rewrite Hserve. by rewrite view_loop_spec.
  - intros Hid. rewrite Hserve, view_loop_missing by done. apply status_Error.
  - clear. intros [[f|] accept] m'; unfold serve, ServeHTTP; simpl; [|by intros [= <-]; left].
    destruct (first_value f "downloadKey"); [by intros [= <-]; left|].
    destruct (first_value f "viewKey"); [by intros [= <-]; left|].
    destruct (first_value f "viewMsg") as [id|]; [destruct (Atoi id); by intros [= <-]; left|].
    case_bool_decide; intros [= <-]; [by right|by left].
Qed.

(** [?downloadKey] answers with the value of the key: 200 with the encoded value
    as the body, its length in [Content-Length], from which the codec reads the
    value back; 404 when the key has no value or its codec is not registered, 500
    when it cannot be encoded. *)
Theorem page_downloadKey (m : KV V) (f : form) accept members now key :
  let serve := ServeHTTP cfg json_Encode print_struct json_Marshal execute_template sort_members Quote print_other in
  f !! "downloadKey"%string = Some [key] →
  let w := (serve (mkRequest (Some f) accept) members now (Some m)).1 in
  match d ← storeCopy (store m) !! key; v ← value d; Some (v, d) with
  | None => status w = 404
  | Some (v, d) =>
      match GetCodec cfg (codecID d) with
      | None => status w = 404
      | Some c =>
          match Encode c v with
          | Err _ => status w = 500
          | Ok encoded =>
              status w = 200 ∧ body w = [Bytes encoded] ∧ client_header w "content-length" = Some [Itoa (Z.of_nat (length encoded))] ∧
              client_header w "Content-Type" = Some ["application/octet-stream"%string] ∧
              client_header w "content-disposition" = Some [("attachment; filename=" ++ Itoa (version d) ++ "-" ++ key)%string]
          end
      end
  end.
Proof.
  intros serve Hf w. unfold w, serve, ServeHTTP, first_value. simpl. rewrite Hf. simpl. unfold downloadKey.
  destruct (storeCopy (store m) !! key) as [d|]; simpl; [|reflexivity]. destruct (value d) as [v|]; simpl; [|reflexivity].
  destruct (GetCodec cfg (codecID d)) as [c|]; simpl; [|reflexivity]. destruct (Encode c v) as [encoded|err]; [|reflexivity].
  generalize (Itoa (Z.of_nat (length encoded))) as len. generalize ("attachment; filename=" ++ Itoa (version d) ++ "-" ++ key)%string as disposition.
  intros disposition len. split; [reflexivity|]. split; [reflexivity|]. split; [vm_compute; reflexivity|]. split; vm_compute; reflexivity.
Qed.

(** the content type of a value that is shown is set after the header was sent: the
    client does not see it *)
Lemma formatValue_no_content_type val format :
  (∀ err, json_Encode (bool_decide (format = "json-pretty"%string)) val ≠ Err err) →
  client_header (formatValue json_Encode print_struct val format new_response) "Content-Type" = None ∧
  status (formatValue json_Encode print_struct val format new_response) = 200.
Proof.
  intros Hj. unfold formatValue. destruct (_ || _); [|done]. destruct (json_Encode _ _) as [out|err]; [done|by destruct (Hj err)].
Qed.
(** an error of the encoder comes after the status 200 *)
Lemma formatValue_error_status val err :
  json_Encode false val = Err err → status (formatValue json_Encode print_struct val "json" new_response) = 200.
Proof. intros Hj. unfold formatValue. simpl. by rewrite Hj. Qed.
End page.

(** ** Witnesses *)
#[local] Existing Instance map_range_std.
#[local] Existing Instance ex_marshal.
Definition ex_calls : list (node_call (V:=Desc)) :=
  [CallCAS (λ _, (OutValue ex_ring1, true, None)) (λ _, mkCasEnv id false 0 0) true 7 "a" ex_codec].
Definition ex_node_kv : KV Desc := foldl (node_do (E:=model_error) ex_cfg) NewKV ex_calls.
Definition ex_form (param v : string) : form := {[param := [v]]}.
Lemma page_viewMsg_witness :
  ids ex_node_kv = [1] ∧
  status (ServeHTTP ex_cfg (λ _ _, Ok "{}"%string) (λ _, ""%string) (λ _, Ok ""%string) (λ _, Ok ""%string) id id (λ _ _ w, w)
    (mkRequest (Some (ex_form "viewMsg" (Itoa 2))) "") [] 0 (Some ex_node_kv)).1 = 404.
Proof.
  split; [vm_compute; reflexivity|].
  apply (page_viewMsg (E:=model_error) ex_cfg (λ _ _, Ok "{}"%string) (λ _, ""%string) (λ _, Ok ""%string) (λ _, Ok ""%string) id id (λ _ _ w, w)
    ex_calls (ex_form "viewMsg" (Itoa 2)) "" [] 0 2); [lia|vm_compute; reflexivity|vm_compute; reflexivity|vm_compute; reflexivity|].
  assert (ids ex_node_kv = [1]) as Hids by (vm_compute; reflexivity). unfold ex_node_kv in Hids. rewrite Hids.
  intros Hin%list_elem_of_singleton. lia.
Defined.
Lemma page_downloadKey_witness :
  status (ServeHTTP ex_cfg (λ _ _, Ok "{}"%string) (λ _, ""%string) (λ _, Ok ""%string) (λ _, Ok ""%string) id id (λ _ _ w, w)
    (mkRequest (Some (ex_form "downloadKey" "a")) "") [] 0 (Some ex_node_kv)).1 = 200.
Proof.
  pose proof (page_downloadKey ex_cfg (λ _ _, Ok "{}"%string) (λ _, ""%string) (λ _, Ok ""%string) (λ _, Ok ""%string) id id (λ _ _ w, w)
    ex_node_kv (ex_form "downloadKey" "a") "" [] 0 "a" ltac:(vm_compute; reflexivity)) as Hw.
  assert (∃ v d, (d ← storeCopy (store ex_node_kv) !! "a"%string; v ← value d; Some (v, d)) = Some (v, d) ∧ GetCodec ex_cfg (codecID d) = Some ex_codec ∧
    Encode ex_codec v = Ok [1]) as (v & d & Hd & Hc & He).
  { eexists _, _. split; [vm_compute; reflexivity|]. split; vm_compute; reflexivity. }
  cbv zeta in Hw. rewrite Hd, Hc, He in Hw. exact (proj1 Hw).
Defined.
