(* ===== verification/RingHTTP.v ===== *)
(** * The page of the ring: [ring/http.go]

    The table of the instances with what each of them owns, and the button that
    forgets one.  Times are printed by the standard library, and percentages are
    floats: the page has the range of tokens owned, of [MaxUint32]; JSON and the
    template are functions of the page. *)
From Stdlib Require Import ZArith Lia.
From stdpp Require Import base gmap strings list sorting fin_maps.
From S2P Require Import Prelude GoStrings HTTP Model Merge MergeFacts MergeLaws Memberlist RingValue Ring RingFacts KV QuorumFacts.

Record ingesterDesc := mkIngesterDesc {
  pg_ID : string;
  pg_State : string;
  pg_Address : string;
  pg_HeartbeatTimestamp : string;
  pg_RegisteredTimestamp : string;
  pg_Zone : string;
  pg_Tokens : list Z;
  pg_NumTokens : Z;
  pg_owned : Z              (* [Ownership] is this in percents of [MaxUint32] *)
}.
Record httpResponse := mkHttpResponse { Ingesters_page : list ingesterDesc; Now : Z; ShowTokens : bool }.

(** ** [forget] *)
(** the function given to [CAS] *)
Definition unregister (id : string) (in_ : option Desc) (_ : unit) (s : unit) : option (KV.cas_out Desc string * unit) :=
  match in_ with
  | None => Some (mkCasOut None false (Some "found empty ring when trying to unregister"%string), s)
  | Some ringDesc => Some (mkCasOut (Some (RemoveIngester ringDesc id)) true None, s)
  end.
(** on a store that does what [script] says *)
Definition forget {KVErr} (id : string) (script : list (cas_event Desc unit KVErr)) : option (cas_result Desc string KVErr) :=
  fst <$> KV.CAS (unregister id) script tt.

(** ** [ServeHTTP] *)
Section page.
Context `{R : MapRange}.
Variables (time_String : Z → string) (json_Marshal execute_template : httpResponse → result string string).

Definition ingesterIDs (r : subring) : list string :=
  sort_Strings (foldl (λ ids '(id, _), ids ++ [id]) [] (map_range 147 (Ingesters (ringDesc r)))).
(** the row of an instance; [owned] is what [countTokens] counts *)
Definition ring_row (r : subring) (now : Z) (owned : gmap string Z) (id : string) : list ingesterDesc :=
  match Ingesters (ringDesc r) !! id with
  | None => []
  | Some ing =>
      let state := InstanceState_String (State ing) in
      let state := if negb (Ring_IsHealthy r ing Reporting now) then unhealthy else state in
      let registeredTimestamp := if bool_decide (RegisteredTimestamp ing ≠ 0) then time_String (GetRegisteredAt (Some ing)) else ""%string in
      [mkIngesterDesc id state (Addr ing) (time_String (time_of_Unix (Timestamp ing))) registeredTimestamp (Zone ing) (Tokens ing)
         (Z.of_nat (length (Tokens ing))) (default 0 (owned !! id))]
  end.
Definition ring_page (r : subring) (now : Z) (tokensParam : string) : httpResponse :=
  let '(_, owned) := countTokens r in
  mkHttpResponse (ingesterIDs r ≫= ring_row r now owned) now (bool_decide (tokensParam = "true"%string)).

Definition writeJSONResponse (v : httpResponse) (w : response) : response :=
  let w := header_Set "Content-Type" "application/json" w in
  match json_Marshal v with
  | Err err => http_Error err 500 w
  | Ok data => write (Text data) w
  end.
Definition renderHTTPResponse (v : httpResponse) (accept : string) (w : response) : response :=
  if Contains accept "application/json" then writeJSONResponse v w
  else match execute_template v with Err err => http_Error err 500 w | Ok out => write (Text out) w end.

(** a request: its method and the value of [forget], the parameter [tokens] and the
    header [Accept] *)
Record ring_request := mkRingRequest { rq_post : bool; rq_forget : string; rq_tokens : string; rq_accept : string }.
(** the instance that is forgotten, if one is, and the response *)
Definition ServeHTTP (req : ring_request) (r : subring) (now : Z) : option string * response :=
  let w := new_response in
  if rq_post req then (Some (rq_forget req), WriteHeader 302 (header_Set "Location" "#" w))
  else (None, renderHTTPResponse (ring_page r now (rq_tokens req)) (rq_accept req) w).

(** ** The rows *)
Lemma ingesterIDs_perm r : ingesterIDs r ≡ₚ elements (dom (Ingesters (ringDesc r))).
Proof.
  unfold ingesterIDs, sort_Strings. rewrite merge_sort_Permutation.
  assert (∀ acc l, foldl (λ ids '(id, _), ids ++ [id]) acc l = acc ++ (l : list (string * InstanceDesc)).*1) as ->.
  { intros acc l. revert acc. induction l as [|[id i] l IH]; intros acc; simpl; [by rewrite app_nil_r|]. rewrite IH. by rewrite <- app_assoc. }
  simpl. apply NoDup_Permutation.
  - apply map_range_NoDup_fst.
  - apply NoDup_elements.
  - intros k. rewrite elem_of_elements, elem_of_dom, list_elem_of_fmap. split.
    + intros ([k' i] & -> & Hin%map_range_elem). by eexists.
    + intros [i Hi]. exists (k, i). split; [done|]. by apply map_range_elem.
Qed.
Lemma ingesterIDs_elem r k : k ∈ ingesterIDs r ↔ is_Some (Ingesters (ringDesc r) !! k).
Proof. rewrite ingesterIDs_perm, elem_of_elements, elem_of_dom. done. Qed.
Lemma ring_rows_ids r now owned (ids : list string) : (∀ k, k ∈ ids → is_Some (Ingesters (ringDesc r) !! k)) →
  pg_ID <$> (ids ≫= ring_row r now owned) = ids ∧ pg_owned <$> (ids ≫= ring_row r now owned) = (λ k, default 0 (owned !! k)) <$> ids.
Proof.
  induction ids as [|k ids IH]; intros Hids; [done|]. rewrite bind_cons, !fmap_app. destruct (Hids k) as [ing Hing]; [by left|].
  assert (pg_ID <$> (ids ≫= ring_row r now owned) = ids ∧ pg_owned <$> (ids ≫= ring_row r now owned) = (λ k, default 0 (owned !! k)) <$> ids) as [IH1 IH2].
  { apply IH. intros k' Hk'. apply Hids. by right. }
  rewrite IH1, IH2. unfold ring_row. rewrite Hing. done.
Qed.

(** the owners that are counted are instances *)
Lemma countTokens_loop_dom l first byToken num owned k :
  k ∈ dom (countTokens_loop l first byToken num owned).2 →
  k ∈ dom owned ∨ ∃ t, t ∈ l ∧ k = match byToken !! t with Some info => InstanceID info | None => "" end.
Proof.
  revert num owned. induction l as [|t l IH]; intros num owned; [auto|]. cbn [countTokens_loop]. cbv zeta.
  intros [Hk|(t' & Ht & ->)]%IH.
  - rewrite dom_insert_L in Hk. apply elem_of_union in Hk as [->%elem_of_singleton|?]; [|by left]. right. exists t. split; [by left|done].
  - right. exists t'. split; [by right|done].
Qed.
Lemma countTokens_dom r : ring_ok r → dom (countTokens r).2 = dom (Ingesters (ringDesc r)).
Proof.
  intros Hok. unfold countTokens. destruct (countTokens_loop _ _ _ _ _) as [num owned] eqn:Hc.
  pose proof (count_zeros_spec (map_range 548 (Ingesters (ringDesc r))) num owned) as Hz.
  destruct (foldl _ _ _) as [num' owned']. destruct Hz as [_ Hz]. simpl. apply set_eq. intros k. rewrite !elem_of_dom, Hz, list_elem_of_fmap. split.
  - intros [Ho|([k' i] & -> & Hin%map_range_elem)]; [|by eexists]. apply elem_of_dom in Ho.
    assert (k ∈ dom (countTokens_loop (ringTokens r) (default 0 (head (ringTokens r))) (ringInstanceByToken r) ∅ ∅).2) as Hd by by rewrite Hc.
    apply countTokens_loop_dom in Hd as [Hd|(t & Ht & ->)]; [by rewrite dom_empty_L in Hd; apply elem_of_empty in Hd|].
    destruct (ok_owner r Hok t Ht) as (info & i & -> & Hi & _). by eexists.
  - intros [i Hi]. right. exists (k, i). split; [done|]. by apply map_range_elem.
Qed.
Definition Zsum (l : list Z) : Z := foldr Z.add 0 l.
Lemma Zsum_perm (l1 l2 : list Z) : l1 ≡ₚ l2 → Zsum l1 = Zsum l2.
Proof. induction 1; simpl in *; lia. Qed.
Lemma msum_keys (m : gmap string Z) : msum m = Zsum ((λ k, default 0 (m !! k)) <$> elements (dom m)).
Proof.
  induction m as [|k v m Hk IH] using map_ind; [by rewrite dom_empty_L, elements_empty|]. rewrite msum_insert_new by done.
  assert (k ∉ dom m) as Hd by by apply not_elem_of_dom.
  assert ((λ k', default 0 (<[k:=v]> m !! k')) <$> elements (dom (<[k:=v]> m)) ≡ₚ v :: ((λ k', default 0 (m !! k')) <$> elements (dom m))) as Hp.
  { rewrite dom_insert_L, elements_union_singleton by done. simpl. rewrite lookup_insert_eq. simpl. apply perm_skip.
    apply Permutation_refl', list_fmap_ext. intros i k' Hk'. rewrite lookup_insert_ne; [done|]. intros <-. apply Hd, elem_of_elements. by eapply list_elem_of_lookup_2. }
  rewrite (Zsum_perm _ _ Hp). simpl. lia.
Qed.

(** C38. The page of a ring has one row for every instance, in the order of their
    names, with its state, or Unhealthy when its heartbeat is too old, and its
    tokens; and when the ring has tokens the ranges of tokens in the rows add up to
    the whole range, 100 percent. *)
Theorem ring_page_correct (r : subring) (now : Z) (tokensParam : string) :
  ring_ok r →
  let rows := Ingesters_page (ring_page r now tokensParam) in
  StronglySorted String.le (pg_ID <$> rows) ∧ NoDup (pg_ID <$> rows) ∧
  (∀ k, k ∈ pg_ID <$> rows ↔ is_Some (Ingesters (ringDesc r) !! k)) ∧
  (∀ row, row ∈ rows → ∃ ing, Ingesters (ringDesc r) !! pg_ID row = Some ing ∧
     pg_State row = (if IsHeartbeatHealthy ing (HeartbeatTimeout (cfg r)) now then InstanceState_String (State ing) else unhealthy) ∧
     pg_Address row = Addr ing ∧ pg_Zone row = Zone ing ∧ pg_Tokens row = Tokens ing ∧ pg_NumTokens row = Z.of_nat (length (Tokens ing))) ∧
  (ringTokens r ≠ [] → valid_tokens (ringTokens r) → Zsum (pg_owned <$> rows) = MaxUint32).
Proof.
  intros Hok. unfold ring_page. destruct (countTokens r) as [num owned] eqn:Hc. cbn [Ingesters_page].
  destruct (ring_rows_ids r now owned (ingesterIDs r)) as [Hid Hown]; [intros k; by rewrite ingesterIDs_elem|].
  cbv zeta. rewrite Hid, Hown. split_and!.
  - apply StronglySorted_merge_sort; apply _.
  - rewrite ingesterIDs_perm. apply NoDup_elements.
  - apply ingesterIDs_elem.
  - intros row Hrow. apply list_elem_of_bind in Hrow as (k & Hrow & Hk). unfold ring_row in Hrow.
    destruct (Ingesters (ringDesc r) !! k) as [ing|] eqn:Hing; [|by apply elem_of_nil in Hrow].
    apply list_elem_of_singleton in Hrow as ->. exists ing. simpl. split_and!; try done.
    unfold Ring_IsHealthy, IsHealthy. assert (IsInstanceInStateHealthy Reporting (State ing) = true) as -> by by destruct (State ing).
    simpl. by destruct (IsHeartbeatHealthy _ _ _).
  - intros Hne Hv. destruct (countTokens_total r Hok Hne Hv) as [Hsum _]. rewrite Hc in Hsum. simpl in Hsum.
    rewrite <- Hsum, msum_keys. pose proof (countTokens_dom r Hok) as Hd. rewrite Hc in Hd. simpl in Hd. rewrite Hd.
    apply Zsum_perm, fmap_Permutation, ingesterIDs_perm.
Qed.
End page.

(** ** Forgetting *)
(** On a store whose key holds a ring, a call of [forget] that succeeds has stored
    a ring that was read, without the instance; on an empty key it is an error. *)
Lemma forget_removes {KVErr} id (script : list (cas_event Desc unit KVErr)) w :
  forget id script = Some (CasOk w) →
  ∃ d, w = Some (RemoveIngester d id) ∧ Ingesters (RemoveIngester d id) !! id = None ∧
    (∀ k, k ≠ id → Ingesters (RemoveIngester d id) !! k = Ingesters d !! k) ∧ ∃ env, Attempt (mkAttempt (Some d) env true) ∈ script.
Proof.
  unfold forget. destruct (KV.CAS (unregister id) script tt) as [[r s']|] eqn:Hcas; [|done]. intros [= ->].
  apply (CAS_last (λ _, True)) in Hcas; [|done|done]. destruct Hcas as (a & s0 & out & Ha & _ & Hf & He & Hv & Hst).
  unfold unregister in Hf. destruct a as [[d|] env stored]; simpl in *; [|by injection Hf as <- <-].
  injection Hf as <- <-. simpl in Hv. exists d. subst w. split; [done|]. simpl. rewrite lookup_delete_eq. split; [done|].
  split; [intros k Hk; by rewrite lookup_delete_ne|]. exists env. rewrite Hst in Ha; done.
Qed.
(** On the gossiped store what is forgotten does not disappear: the merge of the
    ring without the instance leaves it LEFT, without tokens, at the current time,
    which the other nodes then learn. *)
Lemma forget_gossip `{R : MapRange} (d : Desc) (id : string) (ing : InstanceDesc) (now : Z) :
  Ingesters d !! id = Some ing → State ing ≠ LEFT →
  Ingesters (mg_Merge d (RemoveIngester d id) true now).1 !! id = Some (left_instance now ing).
Proof. intros Hd Hl. apply (Merge_localCAS_missing d (RemoveIngester d id) now id ing); [done|simpl; apply lookup_delete_eq|done]. Qed.

(** ** Witness *)
#[local] Existing Instance map_range_std.
Lemma ring_page_correct_witness :
  let rows := Ingesters_page (ring_page (λ _, ""%string) (sub (ex_updated true)) (110 * Second) "true") in
  ringTokens (sub (ex_updated true)) ≠ [] ∧ Zsum (pg_owned <$> rows) = MaxUint32.
Proof.
  split; [vm_compute; discriminate|].
  apply (ring_page_correct (λ _, ""%string) (sub (ex_updated true)) (110 * Second) "true" (ex_updated_ok true)).
  - vm_compute. discriminate.
  - apply (bool_decide_eq_true_1 (Forall (λ t, 0 ≤ t ≤ MaxUint32) (ringTokens (sub (ex_updated true))))). vm_compute. reflexivity.
Defined.
