(* ===== verification/KVFactory.v ===== *)
(** * Building key-value clients: [kv/client.go], [kv/metrics.go], [kv/mock.go]

    [NewClient] wraps the client of a store with a prefix and with metrics; the
    multi client is built from two others; the in-memory store is shared by the
    whole process.  The constructors of the stores are what they return. *)
From Stdlib Require Import ZArith Lia.
From stdpp Require Import base gmap strings list.
From S2P Require Import Prelude GoStrings KV KVClient.

Inductive role := Primary | Secondary.
(** a client, as it was built; the in-memory store and the gossiped one with the
    codec they decode with *)
Inductive client :=
| ConsulClient
| EtcdClient
| InMemoryClient (codec : string)
| MemberlistClient (codec : string)
| MultiClient (primary : string) (c1 : client) (secondary : string) (c2 : client)
| MockClient
| GivenClient                                   (* [Config.Mock] *)
| Prefixed (c : client) (prefix : string)
| Metered (backend : string) (r : role) (c : client).

Record Config := mkConfig {
  Store : string;
  Prefix : string;
  Multi_Primary : string;
  Multi_Secondary : string;
  has_Mock : bool
}.
(** what the constructors return: an error of Consul or etcd, the codecs registered
    in the gossiped store *)
Record constructors := mkConstructors {
  new_consul : option string;
  new_etcd : option string;
  MemberlistKV : result string (list string)
}.
(** the singleton: [None] before [inmemoryStoreInit.Do], then the codec of the call
    that made it *)
Abbreviation process := (option string).

Section build.
Variables (cfg : Config) (env : constructors) (codec : string) (reg : bool).

Definition wrap (backend prefix : string) (r : role) (c : client) : client :=
  let c := if bool_decide (prefix ≠ ""%string) then Prefixed c prefix else c in
  if reg then Metered backend r c else c.

(** [buildMultiClient]; [create] is [createClient] *)
Definition buildMultiClient (create : string → string → role → process → option (process * result string client)) (p : process)
    : option (process * result string client) :=
  if bool_decide (Multi_Primary cfg = ""%string) || bool_decide (Multi_Secondary cfg = ""%string) then Some (p, Err "primary or secondary store not set"%string)
  else if bool_decide (Multi_Primary cfg = "multi"%string) || bool_decide (Multi_Secondary cfg = "multi"%string)
  then Some (p, Err "primary and secondary stores cannot be multi-stores"%string)
  else if bool_decide (Multi_Primary cfg = Multi_Secondary cfg) then Some (p, Err "primary and secondary stores must be different"%string)
  else
    '(p, r1) ← create (Multi_Primary cfg) ""%string Primary p;
    match r1 with
    | Err e => Some (p, Err e)
    | Ok c1 =>
        '(p, r2) ← create (Multi_Secondary cfg) ""%string Secondary p;
        match r2 with
        | Err e => Some (p, Err e)
        | Ok c2 => Some (p, Ok (MultiClient (Multi_Primary cfg) c1 (Multi_Secondary cfg) c2))
        end
    end.
(** [createClient]; [None]: out of fuel *)
Fixpoint createClient (fuel : nat) (backend prefix : string) (r : role) (p : process) : option (process * result string client) :=
  match fuel with
  | O => None
  | S fuel =>
      '(p, res) ←
        (if bool_decide (backend = "consul"%string) then
           Some (p, match new_consul env with Some e => Err e | None => Ok ConsulClient end)
         else if bool_decide (backend = "etcd"%string) then
           Some (p, match new_etcd env with Some e => Err e | None => Ok EtcdClient end)
         else if bool_decide (backend = "inmemory"%string) then
           let c := default codec p in Some (Some c, Ok (InMemoryClient c))
         else if bool_decide (backend = "memberlist"%string) then
           Some (p, match MemberlistKV env with
                    | Err e => Err e
                    | Ok codecs => if bool_decide (codec ∈ codecs) then Ok (MemberlistClient codec) else Err ("codec not registered in KV: " ++ codec)%string
                    end)
         else if bool_decide (backend = "multi"%string) then buildMultiClient (createClient fuel) p
         else if bool_decide (backend = "mock"%string) then Some (p, Ok MockClient)
         else Some (p, Err ("invalid KV store type: " ++ backend)%string));
      Some (p, match res with Err e => Err e | Ok c => Ok (wrap backend prefix r c) end)
  end.
(** [createClient] calls itself on other stores than [multi] only: a depth of two *)
Definition NewClient (p : process) : option (process * result string client) :=
  if has_Mock cfg then Some (p, Ok GivenClient) else createClient 2 (Store cfg) (Prefix cfg) Primary p.
End build.

(** ** What was built *)
(** the stores a client writes to, with the prefix and the roles of the metrics on
    the way *)
Fixpoint stores (c : client) : list (client * list string * list (string * role)) :=
  match c with
  | MultiClient _ c1 _ c2 => stores c1 ++ stores c2
  | Prefixed c prefix => (λ '(s, ps, ms), (s, prefix :: ps, ms)) <$> stores c
  | Metered backend r c => (λ '(s, ps, ms), (s, ps, (backend, r) :: ms)) <$> stores c
  | c => [(c, [], [])]
  end.
(** the store of a name *)
Definition store_named (backend : string) (c : client) : Prop :=
  (backend = "consul"%string ∧ c = ConsulClient) ∨ (backend = "etcd"%string ∧ c = EtcdClient) ∨
  (backend = "inmemory"%string ∧ ∃ codec, c = InMemoryClient codec) ∨ (backend = "memberlist"%string ∧ ∃ codec, c = MemberlistClient codec) ∨
  (backend = "mock"%string ∧ c = MockClient).

Section facts.
Variables (cfg : Config) (env : constructors) (codec : string) (reg : bool).
Definition layers (backend prefix : string) (r : role) (c : client) : client * list string * list (string * role) :=
  (c, if bool_decide (prefix = ""%string) then [] else [prefix], if reg then [(backend, r)] else []).

Lemma stores_wrap backend prefix r c : stores (wrap reg backend prefix r c) =
  (λ '(s, ps, ms), (s, (if bool_decide (prefix = ""%string) then [] else [prefix]) ++ ps, (if reg then [(backend, r)] else []) ++ ms)) <$> stores c.
Proof.
  unfold wrap. assert (∀ (l : list (client * list string * list (string * role))) , l = (λ '(s, ps, ms), (s, [] ++ ps, [] ++ ms)) <$> l) as Hid.
  { intros l. induction l as [|[[s ps] ms] l IH]; [done|]. exact (f_equal (cons (s, ps, ms)) IH). }
  destruct (decide (prefix = ""%string)) as [->|Hp].
  - rewrite bool_decide_eq_false_2 by naive_solver. rewrite (bool_decide_eq_true_2 (_ = _)) by done.
    destruct reg; simpl; [|apply Hid]. induction (stores c) as [|[[s ps] ms] l IH]; [done|]. exact (f_equal (cons _) IH).
  - rewrite bool_decide_eq_true_2 by done. rewrite (bool_decide_eq_false_2 (prefix = _)) by done.
    destruct reg; simpl; induction (stores c) as [|[[s ps] ms] l IH]; try done; exact (f_equal (cons _) IH).
Qed.

(** a store other than [multi] *)
Lemma createClient_single fuel backend prefix r p : backend ≠ "multi"%string →
  ∃ p' res, createClient cfg env codec reg (S fuel) backend prefix r p = Some (p', res) ∧
    (∀ c, p = Some c → p' = Some c) ∧
    (∀ c, res = Ok c → ∃ s, store_named backend s ∧ stores c = [layers backend prefix r s]).
Proof.
  intros Hb. simpl.
  assert (∀ s, (∀ x, stores s = [x] → x = (s, [], [])) → stores s ≠ [] → length (stores s) = 1%nat → stores (wrap reg backend prefix r s) = [layers backend prefix r s]) as Hw.
  { intros s Hs _ Hl. rewrite stores_wrap. destruct (stores s) as [|x [|]] eqn:Hst; try done. rewrite (Hs x eq_refl). simpl. unfold layers. by rewrite !app_nil_r. }
  destruct (bool_decide (backend = "consul"%string)) eqn:E1; [apply bool_decide_eq_true in E1|clear E1].
  { simpl. eexists _, _. split; [done|]. split; [done|]. intros c Hc. destruct (new_consul env); [done|]. injection Hc as <-.
    exists ConsulClient. split; [by left|]. apply Hw; naive_solver. }
  destruct (bool_decide (backend = "etcd"%string)) eqn:E1; [apply bool_decide_eq_true in E1|clear E1].
  { simpl. eexists _, _. split; [done|]. split; [done|]. intros c Hc. destruct (new_etcd env); [done|]. injection Hc as <-.
    exists EtcdClient. split; [by right; left|]. apply Hw; naive_solver. }
  destruct (bool_decide (backend = "inmemory"%string)) eqn:E1; [apply bool_decide_eq_true in E1|clear E1].
  { simpl. eexists _, _. split; [done|]. split; [by intros c ->|]. intros c [= <-].
    exists (InMemoryClient (default codec p)). split; [right; right; left; eauto|]. apply Hw; naive_solver. }
  destruct (bool_decide (backend = "memberlist"%string)) eqn:E1; [apply bool_decide_eq_true in E1|clear E1].
  { simpl. eexists _, _. split; [done|]. split; [done|]. intros c Hc. destruct (MemberlistKV env) as [codecs|]; [|done].
    destruct (bool_decide (codec ∈ codecs)); [|done]. injection Hc as <-.
    exists (MemberlistClient codec). split; [right; right; right; left; eauto|]. apply Hw; naive_solver. }
  rewrite bool_decide_eq_false_2 by done.
  destruct (bool_decide (backend = "mock"%string)) eqn:E1; [apply bool_decide_eq_true in E1|clear E1].
  { simpl. eexists _, _. split; [done|]. split; [done|]. intros c [= <-].
    exists MockClient. split; [right; right; right; right; eauto|]. apply Hw; naive_solver. }
  simpl. by eexists _, _.
Qed.

Lemma buildMultiClient_spec create p :
  (∀ backend prefix r p, backend ≠ "multi"%string → ∃ p' res, create backend prefix r p = Some (p', res) ∧
    (∀ c, p = Some c → p' = Some c) ∧ (∀ c, res = Ok c → ∃ s, store_named backend s ∧ stores c = [layers backend prefix r s])) →
  ∃ p' res, buildMultiClient cfg create p = Some (p', res) ∧ (∀ c, p = Some c → p' = Some c) ∧
    ∀ c, res = Ok c → ∃ s1 s2, store_named (Multi_Primary cfg) s1 ∧ store_named (Multi_Secondary cfg) s2 ∧ Multi_Primary cfg ≠ Multi_Secondary cfg ∧
      stores c = [layers (Multi_Primary cfg) "" Primary s1; layers (Multi_Secondary cfg) "" Secondary s2].
Proof.
  intros Hcreate. unfold buildMultiClient.
  destruct (_ || _); [by eexists _, _|]. destruct (bool_decide (Multi_Primary cfg = "multi"%string) || _) eqn:Hm; [by eexists _, _|].
  apply orb_false_iff in Hm as [H1%bool_decide_eq_false H2%bool_decide_eq_false]. case_bool_decide as Hne; [by eexists _, _|].
  destruct (Hcreate (Multi_Primary cfg) ""%string Primary p H1) as (p1 & r1 & -> & Hp1 & Hc1). simpl.
  destruct r1 as [c1|e]; [|by eexists _, _].
  destruct (Hcreate (Multi_Secondary cfg) ""%string Secondary p1 H2) as (p2 & r2 & -> & Hp2 & Hc2). simpl.
  destruct r2 as [c2|e]; [|eexists _, _; naive_solver].
  eexists _, _. split; [done|]. split; [auto|]. intros c [= <-].
  destruct (Hc1 c1 eq_refl) as (s1 & ? & Hs1), (Hc2 c2 eq_refl) as (s2 & ? & Hs2). exists s1, s2. simpl. by rewrite Hs1, Hs2.
Qed.

(** [createClient] returns a client or an error, with a recursion of depth two,
    whatever it is asked for.  A client of one store is that store behind the
    prefix and under metrics of its role, when these are asked for; a multi client
    writes to its primary and its secondary store, which are different, not behind
    a prefix of their own and under metrics of their roles, and to nothing else;
    and the in-memory store that exists stays. *)
Theorem NewClient_correct (p : process) :
  ∃ p' res, NewClient cfg env codec reg p = Some (p', res) ∧ (∀ c, p = Some c → p' = Some c) ∧
    ∀ c, res = Ok c → has_Mock cfg = false →
      (Store cfg ≠ "multi"%string → ∃ s, store_named (Store cfg) s ∧ stores c = [layers (Store cfg) (Prefix cfg) Primary s]) ∧
      (Store cfg = "multi"%string → ∃ s1 s2,
         store_named (Multi_Primary cfg) s1 ∧ store_named (Multi_Secondary cfg) s2 ∧ Multi_Primary cfg ≠ Multi_Secondary cfg ∧
         let '(_, prefix, metrics) := layers "multi" (Prefix cfg) Primary s1 in
         stores c = [(s1, prefix, metrics ++ (layers (Multi_Primary cfg) "" Primary s1).2); (s2, prefix, metrics ++ (layers (Multi_Secondary cfg) "" Secondary s2).2)]).
Proof.
  unfold NewClient. destruct (has_Mock cfg); [by eexists _, _|].
  destruct (decide (Store cfg = "multi"%string)) as [Hm|Hm].
  2: { destruct (createClient_single 1 (Store cfg) (Prefix cfg) Primary p Hm) as (p' & res & -> & Hp & Hc). exists p', res.
    split_and!; [done|done|]. intros c Hres _. split; [by intros _; apply Hc|done]. }
  rewrite Hm. assert (createClient cfg env codec reg 2 "multi" (Prefix cfg) Primary p =
    '(p, res) ← buildMultiClient cfg (createClient cfg env codec reg 1) p;
    Some (p, match res with Err e => Err e | Ok c => Ok (wrap reg "multi" (Prefix cfg) Primary c) end)) as -> by reflexivity.
  destruct (buildMultiClient_spec (createClient cfg env codec reg 1) p) as (p' & res & -> & Hp & Hc).
  { intros backend prefix r p1 Hb. by apply createClient_single. }
  simpl. eexists _, _. split; [done|]. split; [done|]. intros c Hres _. split; [done|]. intros _.
  destruct res as [c0|e]; [|done]. injection Hres as <-. destruct (Hc c0 eq_refl) as (s1 & s2 & H1 & H2 & Hne & Hst).
  exists s1, s2. split_and!; [done|done|done|]. rewrite stores_wrap, Hst. unfold layers. simpl. by rewrite !app_nil_r.
Qed.
End facts.

(** ** Witness *)
Definition ex_multi : Config := mkConfig "multi" "collectors/" "consul" "memberlist" false.
Definition ex_env : constructors := mkConstructors None None (Ok ["ringDesc"%string]).
Lemma NewClient_correct_witness :
  ∃ c, NewClient ex_multi ex_env "ringDesc" true None = Some (None, Ok c) ∧
  ∃ s1 s2, stores c = [(s1, ["collectors/"%string], [("multi"%string, Primary); ("consul"%string, Primary)]);
                       (s2, ["collectors/"%string], [("multi"%string, Primary); ("memberlist"%string, Secondary)])] ∧ s1 = ConsulClient.
Proof.
  destruct (NewClient_correct ex_multi ex_env "ringDesc" true None) as (p' & res & Heq & _ & Hc). vm_compute in Heq. injection Heq as <- <-.
  eexists. split; [vm_compute; reflexivity|]. destruct (Hc _ eq_refl eq_refl) as [_ Hm].
  destruct (Hm eq_refl) as (s1 & s2 & H1 & _ & _ & Hst). exists s1, s2. split; [exact Hst|].
  destruct H1 as [[_ ->]|[[H _]|[[H _]|[[H _]|[H _]]]]]; [reflexivity|discriminate H..].
Defined.
(** the in-memory store decodes with the codec of the first client, whatever codec
    the second one asks for *)
Lemma inmemory_codec_of_first cfg env c1 c2 reg :
  Store cfg = "inmemory"%string → has_Mock cfg = false →
  ∃ p client1 client2, NewClient cfg env c1 reg None = Some (p, Ok client1) ∧ NewClient cfg env c2 reg p = Some (p, Ok client2) ∧
    (stores client2).*1.*1 = [InMemoryClient c1].
Proof.
  intros Hs Hm. unfold NewClient. rewrite Hm, Hs. eexists _, _, _. split; [reflexivity|]. split; [reflexivity|].
  rewrite stores_wrap. reflexivity.
Qed.

(** ** Metrics *)
Section metrics.
(** [httpgrpc.HTTPResponseFromError] and [IsOperationAborted]; [instrument.ErrorCode] *)
Context {Err : Type} (http_code : Err → option Z) (aborted : Err → bool) (ErrorCode : option Err → string).
Definition getCasErrorCode (err : option Err) : string :=
  match err with
  | None => "200"
  | Some e =>
      match http_code e with
      | Some code => Itoa code
      | None => if aborted e then "200" else "500"
      end
  end.
(** what is recorded of a call that returned [err]: the operation and the code *)
Definition observe (operation : string) (err : option Err) : string * string :=
  (operation, if bool_decide (operation = "CAS"%string) then getCasErrorCode err else ErrorCode err).
End metrics.
(** the calls themselves are handed to the client *)
Definition metrics {V St} (c : KVClient V St) : KVClient V St := {|
  kv_error := kv_error (KVClient := c);
  kv_oracle := kv_oracle (KVClient := c);
  kv_List prefix st := kv_List prefix st;
  kv_Get key st := kv_Get key st;
  kv_Delete key st := kv_Delete key st;
  kv_CAS _ _ _ o key f st s := kv_CAS o key f st s
|}.
Lemma metrics_laws {V St} (c : KVClient V St) contents holds inv oracle_ok : KVLaws c contents holds inv oracle_ok → KVLaws (metrics c) contents holds inv oracle_ok.
Proof. intros [H1 H2 H3 H4 H5]. constructor; [exact H1|exact H2|exact H3|exact H4|exact H5]. Qed.
(** an aborted operation does not count as an error *)
Lemma aborted_is_200 {Err} http_code aborted (e : Err) : http_code e = None → aborted e = true → getCasErrorCode http_code aborted (Some e) = "200"%string.
Proof. unfold getCasErrorCode. by intros -> ->. Qed.

(** ** The mock *)
Definition mockClient : KVClient string unit := {|
  kv_error := string;
  kv_oracle _ := unit;
  kv_List _ _ := Ok [];
  kv_Get _ _ := Ok (Some ""%string);
  kv_Delete _ st := (None, st);
  kv_CAS _ _ _ _ _ f st s := Some (CasOk None, s, st)
|}.
(** it has a value for keys it does not list: no store behaves so *)
Lemma mock_breaks_contract contents holds inv oracle_ok : KVLaws mockClient contents holds inv oracle_ok → ¬ inv tt.
Proof.
  intros [HL HG _ _ _] Hinv. destruct (HL "" tt [] Hinv eq_refl) as [_ Hk]. specialize (Hk ""%string).
  rewrite elem_of_nil in Hk. apply Hk. split; [done|]. specialize (HG "" tt _ Hinv eq_refl). rewrite <- HG. by eexists.
Qed.
