(* ===== verification/Calendar.v ===== *)
(** * Dates of Go: [time.Parse] and [Format]

    The layouts the flags use: dates, dates with hours and minutes, RFC 3339.  The
    Gregorian calendar counts in eras of 400 years, of 146097 days each, the same
    for all; what is proved of every day of one era holds of every day. *)
From Stdlib Require Import ZArith Lia Ascii.
From stdpp Require Import base strings list.
From S2P Require Import Prelude GoStrings.

(** ** The calendar *)
Record date := mkDate { d_year : Z; d_month : Z; d_day : Z }.
#[export] Instance date_eq_dec : EqDecision date.
Proof. solve_decision. Defined.

(** months counted from March; day of the year, day of the era *)
Definition day_of_era (yoe month day : Z) : Z :=
  yoe * 365 + yoe / 4 - yoe / 100 + ((153 * ((month + 9) mod 12) + 2) / 5 + day - 1).
(** days since 1970-01-01 *)
Definition days_from_civil (d : date) : Z :=
  let y := d_year d - (if bool_decide (d_month d ≤ 2) then 1 else 0) in
  y / 400 * 146097 + day_of_era (y mod 400) (d_month d) (d_day d) - 719468.
(** the year of the era, the month and the day of a day of the era *)
Definition civil_of_era (doe : Z) : Z * Z * Z :=
  let yoe := (doe - doe / 1460 + doe / 36524 - doe / 146096) / 365 in
  let doy := doe - (365 * yoe + yoe / 4 - yoe / 100) in
  let mp := (5 * doy + 2) / 153 in
  (yoe, (mp + 2) mod 12 + 1, doy - (153 * mp + 2) / 5 + 1).
Definition civil_from_days (z : Z) : date :=
  let z := z + 719468 in
  let '(yoe, month, day) := civil_of_era (z mod 146097) in
  mkDate (yoe + z / 146097 * 400 + (if bool_decide (month ≤ 2) then 1 else 0)) month day.

Definition is_leap (y : Z) : bool :=
  bool_decide (y mod 4 = 0) && (negb (bool_decide (y mod 100 = 0)) || bool_decide (y mod 400 = 0)).
Definition daysIn (month year : Z) : Z :=
  if bool_decide (month = 2) then (if is_leap year then 29 else 28)
  else if bool_decide (month ∈ [4; 6; 9; 11]) then 30 else 31.
Definition valid_date (d : date) : bool :=
  bool_decide (1 ≤ d_month d ≤ 12) && bool_decide (1 ≤ d_day d ≤ daysIn (d_month d) (d_year d)).

(** the year of a day of the era; the last day of the year, which begins in March, is
    the 29th of February of a leap year *)
Definition year_of_era (doe : Z) : Z := (doe - doe / 1460 + doe / 36524 - doe / 146096) / 365.
Definition day_of_year (doe : Z) : Z := let yoe := year_of_era doe in doe - (365 * yoe + yoe / 4 - yoe / 100).
Lemma year_of_era_bounds doe : 0 ≤ doe < 146097 → 0 ≤ year_of_era doe < 400 ∧ 0 ≤ day_of_year doe ≤ 365.
Proof. intros H. unfold day_of_year, year_of_era. Z.to_euclidean_division_equations. lia. Qed.
Lemma last_day_leap doe : 0 ≤ doe < 146097 → day_of_year doe = 365 →
  (year_of_era doe + 1) mod 4 = 0 ∧ ((year_of_era doe + 1) mod 100 ≠ 0 ∨ (year_of_era doe + 1) mod 400 = 0).
Proof. intros H. unfold day_of_year, year_of_era. Z.to_euclidean_division_equations. lia. Qed.
(** the month and the day, checked day by day *)
Definition month_of (doy : Z) : Z := ((5 * doy + 2) / 153 + 2) mod 12 + 1.
Definition day_of (doy : Z) : Z := doy - (153 * ((5 * doy + 2) / 153) + 2) / 5 + 1.
Definition doy_ok (doy : Z) : bool :=
  bool_decide ((153 * ((month_of doy + 9) mod 12) + 2) / 5 + day_of doy - 1 = doy) && bool_decide (1 ≤ month_of doy ≤ 12) && bool_decide (1 ≤ day_of doy) &&
  (if bool_decide (month_of doy = 2) then bool_decide (day_of doy ≤ if bool_decide (doy = 365) then 29 else 28)
   else bool_decide (day_of doy ≤ daysIn (month_of doy) 0)).
Fixpoint check_from (fuel : nat) (doy : Z) : bool :=
  match fuel with O => true | S fuel => doy_ok doy && check_from fuel (doy + 1) end.
Lemma check_from_spec fuel start : check_from fuel start = true → ∀ doy, start ≤ doy < start + Z.of_nat fuel → doy_ok doy = true.
Proof.
  revert start. induction fuel as [|fuel IH]; intros start; simpl; [intros _ doy; lia|]. intros [H1 H2]%andb_true_iff doy Hdoy.
  destruct (decide (doy = start)) as [->|]; [done|]. apply (IH (start + 1)); [done|lia].
Qed.
Lemma year_checked : check_from 366 0 = true.
Proof. vm_compute. reflexivity. Qed.
Lemma civil_of_era_eq doe : civil_of_era doe = (year_of_era doe, month_of (day_of_year doe), day_of (day_of_year doe)).
Proof. reflexivity. Qed.
Lemma era_ok doe : 0 ≤ doe < 146097 →
  let '(yoe, month, day) := civil_of_era doe in
  day_of_era yoe month day = doe ∧ 0 ≤ yoe < 400 ∧ valid_date (mkDate (yoe + (if bool_decide (month ≤ 2) then 1 else 0)) month day) = true.
Proof.
  intros Hd. rewrite civil_of_era_eq. destruct (year_of_era_bounds doe Hd) as [Hy Hdoy]. pose proof (last_day_leap doe Hd) as Hleap.
  pose proof (check_from_spec _ _ year_checked (day_of_year doe) ltac:(lia)) as Hok. unfold doy_ok in Hok.
  apply andb_true_iff in Hok as [[[H1%bool_decide_eq_true H2%bool_decide_eq_true]%andb_true_iff H3%bool_decide_eq_true]%andb_true_iff H4].
  split; [|split; [done|]].
  - unfold day_of_era. unfold day_of_year in *. lia.
  - unfold valid_date. simpl. rewrite bool_decide_eq_true_2 by done. simpl. apply bool_decide_eq_true_2. split; [done|]. unfold daysIn in *.
    case_bool_decide as Hm; [|by apply bool_decide_eq_true in H4].
    rewrite (bool_decide_eq_true_2 (_ ≤ 2)) by lia. apply bool_decide_eq_true in H4. case_bool_decide as H365; [|case_match; lia].
    destruct (Hleap H365) as [L1 L2]. unfold is_leap. rewrite (bool_decide_eq_true_2 (_ mod 4 = 0)) by done. simpl.
    repeat case_bool_decide; simpl; lia.
Qed.

Lemma valid_date_shift y month day k : valid_date (mkDate (y + 400 * k) month day) = valid_date (mkDate y month day).
Proof.
  unfold valid_date, daysIn, is_leap. simpl.
  assert ((y + 400 * k) mod 4 = y mod 4) as -> by (replace (y + 400 * k) with (y + (100 * k) * 4) by lia; apply Z_mod_plus_full).
  assert ((y + 400 * k) mod 100 = y mod 100) as -> by (replace (y + 400 * k) with (y + (4 * k) * 100) by lia; apply Z_mod_plus_full).
  assert ((y + 400 * k) mod 400 = y mod 400) as -> by (replace (y + 400 * k) with (y + k * 400) by lia; apply Z_mod_plus_full). done.
Qed.

(** every day is a valid date, and is read back *)
Lemma civil_from_days_spec z : valid_date (civil_from_days z) = true ∧ days_from_civil (civil_from_days z) = z.
Proof.
  unfold civil_from_days. set (n := z + 719468). pose proof (Z.mod_pos_bound n 146097 ltac:(lia)) as Hm.
  pose proof (era_ok _ Hm) as Hok. destruct (civil_of_era (n mod 146097)) as [[yoe month] day]. destruct Hok as (Hdoe & Hyoe & Hv). split.
  - etrans; [|exact Hv]. etrans; [|apply (valid_date_shift _ month day (n / 146097))].
    generalize (if bool_decide (month ≤ 2) then 1 else 0). intros c. do 2 f_equal. lia.
  - unfold days_from_civil. simpl. set (c := if bool_decide (month ≤ 2) then 1 else 0).
    replace (yoe + n / 146097 * 400 + c - c) with (yoe + n / 146097 * 400) by lia.
    rewrite Z_mod_plus_full, Z.div_add by lia. rewrite (Z.mod_small yoe), (Z.div_small yoe) by lia. rewrite Hdoe.
    pose proof (Z.div_mod n 146097 ltac:(lia)). unfold n in *. lia.
Qed.

(** ** Two and four digits *)
Fixpoint pad_acc (width : nat) (n : Z) (acc : string) : string :=
  match width with O => acc | S width => pad_acc width (n / 10) (String.String (char_of (48 + n mod 10)) acc) end.
Definition pad (width : nat) (n : Z) : string := pad_acc width n "".
(** [getnum] with exactly [width] digits: the number and the rest *)
Fixpoint take_digits (width : nat) (acc : Z) (s : string) : option (Z * string) :=
  match width with
  | O => Some (acc, s)
  | S width =>
      match s with
      | String.String c s => if is_digit c then take_digits width (10 * acc + (char_code c - 48)) s else None
      | String.EmptyString => None
      end
  end.
(** one digit or two, as for hours *)
Definition take_hour (s : string) : option (Z * string) :=
  match s with
  | String.String c (String.String c2 rest) =>
      if is_digit c then
        if is_digit c2 then Some (10 * (char_code c - 48) + (char_code c2 - 48), rest)
        else Some (char_code c - 48, String.String c2 rest)
      else None
  | String.String c String.EmptyString => if is_digit c then Some (char_code c - 48, ""%string) else None
  | String.EmptyString => None
  end.
Definition take_char (c : ascii) (s : string) : option string :=
  match s with String.String c' s => if bool_decide (c' = c) then Some s else None | String.EmptyString => None end.

(** ** Parsing *)
Definition parse_date_part (s : string) : option (date * string) :=
  '(y, s) ← take_digits 4 0 s; s ← take_char "-"%char s;
  '(m, s) ← take_digits 2 0 s; s ← take_char "-"%char s;
  '(d, s) ← take_digits 2 0 s;
  if bool_decide (1 ≤ m ≤ 12) then Some (mkDate y m d, s) else None.
Definition check_date (d : date) : option Z := if valid_date d then Some (days_from_civil d) else None.
(** a fraction of a second after the seconds, which is not in the layout *)
Fixpoint span_digits (s : string) : string * string :=
  match s with
  | String.String c s' => if is_digit c then let '(a, b) := span_digits s' in (String.String c a, b) else (""%string, s)
  | String.EmptyString => (""%string, s)
  end.
Definition take_fraction (s : string) : option (Z * string) :=
  match s with
  | String.String c s' =>
      if bool_decide (c = "."%char) then
        let '(ds, rest) := span_digits s' in
        match parse_uint ds with
        | None => Some (0, s)
        | Some ns =>
            if bool_decide (1000000000 ≤ ns) then None
            else Some (ns * 10 ^ Z.max 0 (9 - Z.of_nat (String.length ds)), rest)
        end
      else Some (0, s)
  | String.EmptyString => Some (0, s)
  end.
(** [Z] or an offset, in seconds *)
Definition take_zone (s : string) : option (Z * string) :=
  match s with
  | String.String c s =>
      if bool_decide (c = "Z"%char) then Some (0, s)
      else
        sign ← (if bool_decide (c = "+"%char) then Some 1 else if bool_decide (c = "-"%char) then Some (-1) else None);
        '(hr, s) ← take_digits 2 0 s; s ← take_char ":"%char s; '(mm, s) ← take_digits 2 0 s;
        Some (sign * (hr * 60 + mm) * 60, s)
  | String.EmptyString => None
  end.
Definition at_end {A} (r : option (A * string)) : option A :=
  match r with Some (a, String.EmptyString) => Some a | _ => None end.

(** the layouts [2006-01-02], [2006-01-02T15:04] and [2006-01-02T15:04:05Z07:00]; the
    results are in nanoseconds since 1970, with the offset of the zone in seconds *)
Definition Parse_date (s : string) : option Z :=
  d ← at_end (parse_date_part s); days ← check_date d; Some (days * 86400 * Second).
Definition parse_minutes (s : string) : option (date * Z * Z * string) :=
  '(d, s) ← parse_date_part s; s ← take_char "T"%char s;
  '(hour, s) ← take_hour s; s ← take_char ":"%char s; '(min, s) ← take_digits 2 0 s;
  if bool_decide (hour < 24) && bool_decide (min < 60) then Some (d, hour, min, s) else None.
Definition Parse_minutes (s : string) : option Z :=
  '(d, hour, min, s) ← parse_minutes s;
  match s with String.EmptyString => days ← check_date d; Some ((days * 86400 + hour * 3600 + min * 60) * Second) | _ => None end.
Definition Parse_RFC3339 (s : string) : option (Z * Z) :=
  '(d, hour, min, s) ← parse_minutes s; s ← take_char ":"%char s; '(sec, s) ← take_digits 2 0 s;
  if bool_decide (sec < 60) then
    '(ns, s) ← take_fraction s;
    offset ← at_end (take_zone s); days ← check_date d;
    Some ((days * 86400 + hour * 3600 + min * 60 + sec - offset) * Second + ns, offset)
  else None.

(** ** Formatting *)
Definition Format_date_of (days : Z) : string :=
  let d := civil_from_days days in (pad 4 (d_year d) ++ "-" ++ pad 2 (d_month d) ++ "-" ++ pad 2 (d_day d))%string.
(** [Format("2006-01-02")] of a time in UTC, for years of four digits *)
Definition Format_date (t : Z) : string := Format_date_of (t / Second / 86400).
(** RFC 3339 in a zone of [offset] seconds, which are cut to minutes *)
Definition Format_zone (offset : Z) : string :=
  if bool_decide (offset = 0) then "Z"
  else
    let zone := Z.quot offset 60 in
    ((if bool_decide (zone < 0) then "-" else "+") ++ pad 2 (Z.abs zone / 60) ++ ":" ++ pad 2 (Z.abs zone mod 60))%string.
Definition Format_RFC3339 (t offset : Z) : string :=
  let local := t / Second + offset in
  let s := local mod 86400 in
  (Format_date_of (local / 86400) ++ "T" ++ pad 2 (s / 3600) ++ ":" ++ pad 2 (s / 60 mod 60) ++ ":" ++ pad 2 (s mod 60) ++ Format_zone offset)%string.

(** ** What is printed is read *)
Lemma pad_acc_app width n acc : pad_acc width n acc = (pad width n ++ acc)%string.
Proof.
  unfold pad. assert (∀ a b, pad_acc width n (a ++ b)%string = (pad_acc width n a ++ b)%string) as Ha; [|exact (Ha ""%string acc)].
  revert n. induction width as [|width IH]; intros n a b; [done|]. simpl. exact (IH (n / 10) (String.String (char_of (48 + n mod 10)) a) b).
Qed.
Lemma take_digits_snoc width v s : take_digits (S width) v s = '(x, s) ← take_digits width v s; take_digits 1 x s.
Proof.
  revert v s. induction width as [|width IH]; intros v s; [done|].
  change (take_digits (S (S width)) v s) with
    (match s with String.String c s => if is_digit c then take_digits (S width) (10 * v + (char_code c - 48)) s else None | String.EmptyString => None end).
  destruct s as [|c s]; [done|]. simpl. destruct (is_digit c); [|done]. apply IH.
Qed.
Lemma take_digits_pad_acc width n v acc : 0 ≤ n < 10 ^ Z.of_nat width → take_digits width v (pad_acc width n acc) = Some (v * 10 ^ Z.of_nat width + n, acc).
Proof.
  revert n acc. induction width as [|width IH]; intros n acc Hn; [simpl in *; do 2 f_equal; lia|].
  rewrite Nat2Z.inj_succ, Z.pow_succ_r in * by lia. pose proof (Z.mod_pos_bound n 10 ltac:(lia)) as Hm. pose proof (Z.div_mod n 10 ltac:(lia)) as Hdm.
  rewrite take_digits_snoc. cbn [pad_acc]. rewrite IH by (split; [apply Z.div_pos; lia|apply Z.div_lt_upper_bound; lia]). simpl.
  destruct (is_digit_of (n mod 10) Hm) as [-> ->]. do 2 f_equal. lia.
Qed.
Lemma take_digits_pad width n rest : 0 ≤ n < 10 ^ Z.of_nat width → take_digits width 0 (pad width n ++ rest)%string = Some (n, rest).
Proof. intros Hn. rewrite <- pad_acc_app. rewrite take_digits_pad_acc by done. done. Qed.
Lemma take_digits_pad2 n rest : 0 ≤ n < 100 → take_digits 2 0 (pad 2 n ++ rest)%string = Some (n, rest).
Proof. apply (take_digits_pad 2). Qed.
Lemma take_hour_pad n rest : 0 ≤ n < 100 → take_hour (pad 2 n ++ rest)%string = Some (n, rest).
Proof.
  intros Hn. rewrite <- pad_acc_app. simpl. pose proof (Z.mod_pos_bound n 10 ltac:(lia)) as Hm. pose proof (Z.div_mod n 10 ltac:(lia)) as Hdm.
  assert (0 ≤ n / 10 < 10) as Hq by (split; [apply Z.div_pos; lia|apply Z.div_lt_upper_bound; lia]).
  rewrite (Z.mod_small (n / 10)) by done. destruct (is_digit_of (n / 10) Hq) as [-> ->], (is_digit_of (n mod 10) Hm) as [-> ->]. do 2 f_equal. lia.
Qed.
Lemma string_nil_app s : String.append "" s = s.
Proof. reflexivity. Qed.
(** goes on after a character of the layout *)
Ltac step_char := simpl; rewrite ?string_nil_app.
#[local] Arguments pad : simpl never.
#[local] Arguments String.append : simpl never.
#[local] Arguments take_digits : simpl never.
#[local] Arguments take_hour : simpl never.
(** years of four digits *)
Definition four_digits (days : Z) : Prop := 0 ≤ d_year (civil_from_days days) < 10000.
Lemma parse_Format_date days rest : four_digits days → parse_date_part (Format_date_of days ++ rest)%string = Some (civil_from_days days, rest).
Proof.
  intros Hy. destruct (civil_from_days_spec days) as [Hv _]. unfold Format_date_of, parse_date_part, four_digits in *.
  destruct (civil_from_days days) as [y m d]. unfold valid_date, daysIn in Hv. simpl in *.
  apply andb_true_iff in Hv as [Hm%bool_decide_eq_true Hd%bool_decide_eq_true].
  assert (d < 100) by (repeat case_match; lia).
  rewrite !string_app_assoc. rewrite (take_digits_pad 4) by (simpl; lia). step_char. rewrite take_digits_pad2 by lia. simpl.
  step_char. rewrite take_digits_pad2 by lia. simpl. by rewrite bool_decide_eq_true_2.
Qed.
Lemma check_date_civil days : check_date (civil_from_days days) = Some days.
Proof. unfold check_date. destruct (civil_from_days_spec days) as [-> ->]. done. Qed.
Lemma Parse_Format_date days : four_digits days → Parse_date (Format_date_of days) = Some (days * 86400 * Second).
Proof.
  intros Hy. unfold Parse_date. pose proof (parse_Format_date days "" Hy) as Hp. rewrite string_app_nil in Hp. rewrite Hp. simpl.
  by rewrite check_date_civil.
Qed.
Lemma Parse_date_longer days c rest : four_digits days → Parse_date (Format_date_of days ++ String.String c rest)%string = None.
Proof. intros Hy. unfold Parse_date. by rewrite parse_Format_date. Qed.

Lemma zone_roundtrip offset : offset mod 60 = 0 → - 360000 < offset < 360000 → take_zone (Format_zone offset) = Some (offset, ""%string).
Proof.
  intros Hm Ho. unfold Format_zone. case_bool_decide as Hz; [by subst|]. cbv zeta.
  assert (Z.quot offset 60 * 60 = offset) as Hq.
  { Z.to_euclidean_division_equations. lia. }
  set (zone := Z.quot offset 60) in *. assert (0 ≤ Z.abs zone / 60 < 100) as Hh by (split; [apply Z.div_pos; lia|apply Z.div_lt_upper_bound; lia]).
  pose proof (Z.mod_pos_bound (Z.abs zone) 60 ltac:(lia)) as Hmm. pose proof (Z.div_mod (Z.abs zone) 60 ltac:(lia)) as Hdm.
  pose proof (take_digits_pad2 (Z.abs zone mod 60) "" ltac:(lia)) as Hlast. rewrite string_app_nil in Hlast.
  rewrite ?string_app_assoc. case_bool_decide as Hneg; step_char; rewrite take_digits_pad2 by lia; step_char; rewrite Hlast; simpl; do 2 f_equal; lia.
Qed.
(** the fraction that RFC 3339 does not print *)
Lemma RFC3339_roundtrip t offset :
  four_digits ((t / Second + offset) / 86400) → offset mod 60 = 0 → - 360000 < offset < 360000 →
  Parse_RFC3339 (Format_RFC3339 t offset) = Some (t / Second * Second, offset).
Proof.
  intros Hy Hm Ho. unfold Parse_RFC3339, Format_RFC3339, parse_minutes. cbv zeta. set (local := t / Second + offset) in *.
  pose proof (Z.mod_pos_bound local 86400 ltac:(lia)) as Hl. pose proof (Z.div_mod local 86400 ltac:(lia)) as Hdl. set (s := local mod 86400) in *.
  assert (0 ≤ s / 3600 < 24) as Hh by (split; [apply Z.div_pos; lia|apply Z.div_lt_upper_bound; lia]).
  pose proof (Z.mod_pos_bound (s / 60) 60 ltac:(lia)) as Hmin. pose proof (Z.mod_pos_bound s 60 ltac:(lia)) as Hsec.
  rewrite parse_Format_date by done. step_char. rewrite take_hour_pad by lia. step_char. rewrite take_digits_pad2 by lia. simpl.
  rewrite !bool_decide_eq_true_2 by lia. step_char. rewrite take_digits_pad2 by lia. simpl. rewrite bool_decide_eq_true_2 by lia.
  assert (take_fraction (Format_zone offset) = Some (0, Format_zone offset)) as ->.
  { unfold Format_zone. case_bool_decide; [done|]. cbv zeta. by case_bool_decide. }
  simpl. rewrite zone_roundtrip by done. simpl. rewrite check_date_civil. simpl. do 2 f_equal.
  assert (s = s / 3600 * 3600 + s / 60 mod 60 * 60 + s mod 60) as Hs by (Z.to_euclidean_division_equations; lia).
  unfold local in *. lia.
Qed.
(** the layouts tried before it do not read it *)
Lemma Parse_minutes_RFC3339 t offset : four_digits ((t / Second + offset) / 86400) → Parse_minutes (Format_RFC3339 t offset) = None.
Proof.
  intros Hy. unfold Parse_minutes, Format_RFC3339, parse_minutes. cbv zeta. set (local := t / Second + offset) in *.
  pose proof (Z.mod_pos_bound local 86400 ltac:(lia)) as Hl. set (s := local mod 86400) in *.
  assert (0 ≤ s / 3600 < 24) as Hh by (split; [apply Z.div_pos; lia|apply Z.div_lt_upper_bound; lia]).
  pose proof (Z.mod_pos_bound (s / 60) 60 ltac:(lia)) as Hmin.
  rewrite parse_Format_date by done. step_char. rewrite take_hour_pad by lia. step_char. rewrite take_digits_pad2 by lia. simpl.
  rewrite !bool_decide_eq_true_2 by lia. done.
Qed.
