(* ===== verification/Flags.v ===== *)
(** * Values of flags: [flagext]

    The types that are both flags and YAML values, with the round trips their users
    rely on.  [net.ParseCIDR] and [url.Parse], with the printers of what they
    return, are functions of the standard library given as parameters. *)
From Stdlib Require Import ZArith Lia Ascii.
From stdpp Require Import base gmap strings list.
From S2P Require Import Prelude GoStrings Calendar Model Ring RingFacts.

(** ** [Time] *)
(** an instant in nanoseconds, and the offset of its zone in seconds *)
Record Time := mkTime { tm_ns : Z; tm_offset : Z }.
Definition Time_String (t : Time) : string :=
  if time_IsZero (tm_ns t) then "0" else Format_RFC3339 (tm_ns t) (tm_offset t).
Definition Time_Set (s : string) : option Time :=
  if bool_decide (s = "0"%string) then Some (mkTime zeroTime 0)
  else
    match Parse_date s with
    | Some t => Some (mkTime t 0)
    | None =>
        match Parse_minutes s with
        | Some t => Some (mkTime t 0)
        | None => '(t, offset) ← Parse_RFC3339 s; Some (mkTime t offset)
        end
    end.
Definition Time_UnmarshalYAML (s : string) : option Time := Time_Set s.
Definition Time_MarshalYAML (t : Time) : string := Time_String t.

(** A time that is written as a flag or in YAML is read back, cut to seconds,
    in its zone, for years of four digits and zones of whole minutes; the zero time
    is read back too. *)
Theorem Time_roundtrip (t : Time) :
  (time_IsZero (tm_ns t) = true → Time_UnmarshalYAML (Time_MarshalYAML t) = Some (mkTime zeroTime 0)) ∧
  (time_IsZero (tm_ns t) = false → four_digits ((tm_ns t / Second + tm_offset t) / 86400) → tm_offset t mod 60 = 0 → - 360000 < tm_offset t < 360000 →
   Time_UnmarshalYAML (Time_MarshalYAML t) = Some (mkTime (tm_ns t / Second * Second) (tm_offset t))).
Proof.
  unfold Time_UnmarshalYAML, Time_MarshalYAML, Time_Set, Time_String. split; [by intros ->|]. intros -> Hy Hm Ho.
  pose proof (RFC3339_roundtrip _ _ Hy Hm Ho) as Hr. pose proof (Parse_minutes_RFC3339 _ _ Hy) as H2.
  assert (Parse_date (Format_RFC3339 (tm_ns t) (tm_offset t)) = None) as H1.
  { unfold Format_RFC3339. cbv zeta. change ("T" ++ ?x)%string with (String.String "T" x). by apply Parse_date_longer. }
  assert (Parse_RFC3339 "0" = None) as H0 by reflexivity.
  rewrite bool_decide_eq_false_2 by (intros Heq; rewrite Heq in Hr; congruence). rewrite H1, H2, Hr. done.
Qed.

(** ** [DayValue] *)
(** [model.Time]: milliseconds; [Unix] and [TimeFromUnix] *)
Definition secondsInDay : Z := 24 * 60 * 60.
Definition model_Unix (ms : Z) : Z := Z.quot ms 1000.
Definition TimeFromUnix (s : Z) : Z := s * 1000.
Record DayValue := mkDayValue { dv_Time : Z; dv_set : bool }.
Definition NewDayValue (t : Z) : DayValue := mkDayValue (TimeFromUnix (Z.quot (model_Unix t) secondsInDay * secondsInDay)) true.
Definition DayValue_String (v : DayValue) : string := Format_RFC3339 (dv_Time v * 1000000) 0.
Definition DayValue_Set (s : string) (v : DayValue) : option DayValue :=
  t ← Parse_date s; Some (mkDayValue (TimeFromUnix (time_Unix t)) true).
Definition IsSet (v : DayValue) : bool := dv_set v.
Definition DayValue_UnmarshalYAML (s : string) (v : DayValue) : option DayValue := DayValue_Set s v.
Definition DayValue_MarshalYAML (v : DayValue) : string := Format_date (dv_Time v * 1000000).

(** a day, counted from 1970 *)
Definition day_value (days : Z) : DayValue := mkDayValue (days * 86400 * 1000) true.
Lemma NewDayValue_midnight t : 0 ≤ t → NewDayValue t = day_value (t / 86400000) ∧ dv_Time (NewDayValue t) ≤ t < dv_Time (NewDayValue t) + 86400000.
Proof.
  intros Ht. unfold NewDayValue, day_value, TimeFromUnix, model_Unix, secondsInDay. simpl.
  split; [f_equal|]; Z.to_euclidean_division_equations; lia.
Qed.
(** before 1970 the division rounds up: the day after *)
Lemma NewDayValue_before_1970 : dv_Time (NewDayValue (- 3600000)) = 0.
Proof. reflexivity. Qed.
Lemma days_of_ns days : days * 86400 * 1000 * 1000000 / Second / 86400 = days.
Proof. unfold Second. Z.to_euclidean_division_equations; lia. Qed.
Lemma unix_of_days days : TimeFromUnix (time_Unix (days * 86400 * Second)) = days * 86400 * 1000.
Proof. unfold TimeFromUnix, time_Unix, Second. Z.to_euclidean_division_equations; lia. Qed.
(** days are read back from YAML, and are the days parsed *)
Lemma DayValue_roundtrip days v : four_digits days →
  DayValue_UnmarshalYAML (DayValue_MarshalYAML (day_value days)) v = Some (day_value days) ∧
  (∀ s v', DayValue_Set s v = Some v' → ∃ days', v' = day_value days' ∧ IsSet v' = true).
Proof.
  intros Hy. unfold DayValue_UnmarshalYAML, DayValue_MarshalYAML, DayValue_Set, Format_date, day_value. cbn [dv_Time]. split.
  - rewrite days_of_ns, Parse_Format_date by done. cbn [mbind option_bind]. by rewrite unix_of_days.
  - intros s v'. unfold Parse_date. destruct (at_end _) as [d|]; [|done]. cbn [mbind option_bind]. destruct (check_date d) as [days'|]; [|done].
    cbn [mbind option_bind]. intros [= <-]. exists days'. split; [|done]. f_equal. apply unix_of_days.
Qed.

(** ** Lists *)
Definition StringSlice_Set (s : string) (v : list string) : list string := v ++ [s].
Definition StringSliceCSV_String (v : list string) : string := Join "," v.
Definition StringSliceCSV_Set (s : string) (v : list string) : list string := Split "," s.
Definition StringSliceCSV_UnmarshalYAML (s : string) (v : list string) : list string := StringSliceCSV_Set s v.
Definition StringSliceCSV_MarshalYAML (v : list string) : string := StringSliceCSV_String v.
Lemma StringSliceCSV_roundtrip v old : v ≠ [] → forallb (no_char ",") v = true →
  StringSliceCSV_UnmarshalYAML (StringSliceCSV_MarshalYAML v) old = v.
Proof. intros Hne Hall. by apply Split_Join. Qed.
(** but the empty list is read back as a list of one empty string *)
Lemma StringSliceCSV_empty old : StringSliceCSV_UnmarshalYAML (StringSliceCSV_MarshalYAML []) old = [""%string].
Proof. reflexivity. Qed.
(** so a ring configured without excluded zones, written to YAML and read back,
    excludes the instances without a zone *)
Lemma excluded_zones_yaml `{MapRange} d k i : Ingesters d !! k = Some i → Zone i = ""%string →
  Ingesters (excludeZones [] d) !! k = Some i ∧
  Ingesters (excludeZones (StringSliceCSV_UnmarshalYAML (StringSliceCSV_MarshalYAML []) []) d) !! k = None.
Proof.
  intros Hk Hz. split; [done|]. rewrite StringSliceCSV_empty. unfold excludeZones. simpl.
  assert (∀ (l : list (string * InstanceDesc)) (m : gmap string InstanceDesc), (k, i) ∈ l ∨ m !! k = None →
    foldl (λ m '(instanceID, instance), if StringsContain [""%string] (Zone instance) then delete instanceID m else m) m l !! k = None) as Hl.
  { induction l as [|[k' i'] l IH]; intros m Hin; simpl; [by destruct Hin as [?%elem_of_nil|]|]. apply IH.
    destruct Hin as [[[= <- <-]|Hin]%elem_of_cons|Hm]; [|by left|]; right.
    - rewrite Hz. simpl. apply lookup_delete_eq.
    - destruct (bool_decide _); [|done]. destruct (decide (k' = k)) as [->|]; [apply lookup_delete_eq|by rewrite lookup_delete_ne]. }
  apply Hl. left. by apply map_range_elem.
Qed.

(** ** Networks *)
Section cidr.
Context {N : Type} (ParseCIDR : string → option N) (IPNet_String : N → string).
Definition CIDR := option N.
Definition CIDR_String (c : CIDR) : string := match c with None => "" | Some n => IPNet_String n end.
Definition CIDR_Set (s : string) : option CIDR := n ← ParseCIDR s; Some (Some n).
Definition CIDRSliceCSV_String (c : list CIDR) : string := Join "," (CIDR_String <$> c).
(** the list after the call, and whether there was an error: what was parsed before
    it is in the list *)
Fixpoint set_parts (parts : list string) (c : list CIDR) : list CIDR * bool :=
  match parts with
  | [] => (c, true)
  | part :: parts => match CIDR_Set part with None => (c, false) | Some cidr => set_parts parts (c ++ [cidr]) end
  end.
Definition CIDRSliceCSV_Set (s : string) (c : list CIDR) : list CIDR * bool := set_parts (Split "," s) c.
Definition CIDRSliceCSV_UnmarshalYAML (s : string) (c : list CIDR) : list CIDR * bool :=
  if bool_decide (s = ""%string) then ([], true) else CIDRSliceCSV_Set s c.
Definition CIDRSliceCSV_MarshalYAML (c : list CIDR) : string := CIDRSliceCSV_String c.

(** the package [net] prints networks it reads back, without commas *)
Hypothesis net_roundtrip : ∀ n, ParseCIDR (IPNet_String n) = Some n ∧ no_char "," (IPNet_String n) = true ∧ IPNet_String n ≠ ""%string.
Lemma set_parts_spec (ns : list N) c : set_parts (IPNet_String <$> ns) c = (c ++ (Some <$> ns), true).
Proof using net_roundtrip.
  revert c. induction ns as [|n ns IH]; intros c; simpl; [by rewrite app_nil_r|]. unfold CIDR_Set. destruct (net_roundtrip n) as (-> & _).
  simpl. rewrite IH. by rewrite <- app_assoc.
Qed.
(** A list of networks is read back from YAML; as a flag, and in YAML when it is not
    empty, it is added to the networks that are there. *)
Lemma CIDRSliceCSV_roundtrip (ns : list N) (old : list CIDR) :
  CIDRSliceCSV_UnmarshalYAML (CIDRSliceCSV_MarshalYAML (Some <$> ns)) [] = (Some <$> ns, true) ∧
  (ns ≠ [] → CIDRSliceCSV_UnmarshalYAML (CIDRSliceCSV_MarshalYAML (Some <$> ns)) old = (old ++ (Some <$> ns), true)).
Proof using net_roundtrip.
  assert (ns ≠ [] → ∀ old, CIDRSliceCSV_UnmarshalYAML (CIDRSliceCSV_MarshalYAML (Some <$> ns)) old = (old ++ (Some <$> ns), true)) as Hne.
  { intros Hn o. unfold CIDRSliceCSV_UnmarshalYAML, CIDRSliceCSV_MarshalYAML, CIDRSliceCSV_String, CIDRSliceCSV_Set.
    assert (CIDR_String <$> (Some <$> ns) = IPNet_String <$> ns) as -> by (rewrite <- list_fmap_compose; done).
    assert (Split "," (Join "," (IPNet_String <$> ns)) = IPNet_String <$> ns) as Hs.
    { apply Split_Join; [by destruct ns|]. apply forallb_forall. intros x Hx%list_elem_of_In. apply list_elem_of_fmap in Hx as (n & -> & _).
      apply net_roundtrip. }
    rewrite bool_decide_eq_false_2; [by rewrite Hs, set_parts_spec|]. intros He. rewrite He in Hs. simpl in Hs.
    destruct ns as [|n ns']; [done|]. simpl in Hs. injection Hs as Hs _. symmetry in Hs. by apply net_roundtrip in Hs. }
  split; [|intros Hn; by apply Hne]. destruct (decide (ns = [])) as [->|Hn]; [done|]. by rewrite Hne.
Qed.
End cidr.

(** ** Passwords *)
(** a URL: its user with a password or none, and the rest *)
Record URL (R : Type) := mkURL { url_user : option (string * option string); url_rest : R }.
Arguments mkURL {R} _ _.
Arguments url_user {R} u.
Arguments url_rest {R} u.
Section url.
Context {R : Type} (url_Parse : string → option (URL R)) (url_String : URL R → string).
Definition URLValue := option (URL R).
Definition URLValue_String (v : URLValue) : string := match v with None => "" | Some u => url_String u end.
Definition URLValue_Set (s : string) : option URLValue := u ← url_Parse s; Some (Some u).
Definition URLValue_UnmarshalYAML (s : string) : option URLValue := if bool_decide (s = ""%string) then Some None else URLValue_Set s.
Definition URLValue_MarshalYAML (v : URLValue) : string :=
  match v with
  | None => ""
  | Some u =>
      let u := match url_user u with
               | Some (name, Some _) => mkURL (Some (name, Some "********"%string)) (url_rest u)
               | _ => u
               end in
      url_String u
  end.
Definition Secret := string.
Definition Secret_String (v : Secret) : string := v.
Definition Secret_Set (s : string) : Secret := s.
Definition Secret_UnmarshalYAML (s : string) : Secret := Secret_Set s.
Definition Secret_MarshalYAML (v : Secret) : string := if bool_decide (String.length v = 0%nat) then "" else "********".

(** Two URLs that differ in their passwords, and two secrets that are set, are the
    same in YAML. *)
Lemma yaml_hides_passwords name p1 p2 rest (s1 s2 : Secret) :
  URLValue_MarshalYAML (Some (mkURL (Some (name, Some p1)) rest)) = URLValue_MarshalYAML (Some (mkURL (Some (name, Some p2)) rest)) ∧
  (s1 ≠ ""%string → s2 ≠ ""%string → Secret_MarshalYAML s1 = Secret_MarshalYAML s2).
Proof.
  split; [done|]. intros H1 H2. unfold Secret_MarshalYAML. by destruct s1, s2.
Qed.
End url.

(** ** Flags that are ignored *)
Definition deprecatedFlag_Set (s : string) (used : Z) : Z := used + 1.   (* the counter of deprecated flags *)
Definition ignoredFlag_Set (s : string) : option string := None.

(** ** Witness *)
Lemma Time_roundtrip_witness :
  Time_MarshalYAML (mkTime (1648735230 * Second + 5) 7200) = "2022-03-31T16:00:30+02:00"%string ∧
  Time_UnmarshalYAML (Time_MarshalYAML (mkTime (1648735230 * Second + 5) 7200)) = Some (mkTime (1648735230 * Second) 7200).
Proof.
  split; [vm_compute; reflexivity|].
  apply (proj2 (Time_roundtrip (mkTime (1648735230 * Second + 5) 7200))); vm_compute; try reflexivity; split; congruence.
Defined.
