(* ===== verification/GRPCClient.v ===== *)
(** * Clients of gRPC: [grpcclient], [crypto/tls], [middleware/grpc.go]

    The options of a connection, the interceptors that limit the rate of calls and
    retry them, and the metrics of calls and streams.  Reading certificates, the
    rate limiter of [golang.org/x/time/rate] and what is at the other end of a
    connection are parameters; the options of the gRPC library are constructors. *)
From Stdlib Require Import ZArith Lia.
From stdpp Require Import base gmap strings list option.
From S2P Require Import Prelude GoStrings Backoff.

(** ** [crypto/tls] *)
Record ClientConfig := mkClientConfig {
  CertPath : string;
  KeyPath : string;
  CAPath : string;
  ServerName : string;
  InsecureSkipVerify : bool
}.
Definition errKeyMissing : string := "certificate given but no key configured".
Definition errCertMissing : string := "key given but no certificate configured".

Section tls.
(** [os.ReadFile]; [AppendCertsFromPEM] of an empty pool, which skips what is not a
    certificate; [LoadX509KeyPair] *)
Context {File Certificate : Type} (ReadFile : string → result string File) (CertsFromPEM : File → list Certificate)
  (LoadX509KeyPair : string → string → result string Certificate).

(** [RootCAs]: [None] is [nil], the roots of the host *)
Record TLSConfig := mkTLSConfig {
  cfg_InsecureSkipVerify : bool;
  cfg_ServerName : string;
  RootCAs : option (list Certificate);
  Certificates : list Certificate
}.
Definition GetTLSConfig (cfg : ClientConfig) : result string TLSConfig :=
  let ca :=
    if bool_decide (CAPath cfg ≠ ""%string) then
      match ReadFile (CAPath cfg) with
      | Err err => Err ("error loading ca cert: " ++ CAPath cfg ++ ": " ++ err)%string
      | Ok caCert => Ok (Some (CertsFromPEM caCert))
      end
    else Ok None in
  match ca with
  | Err err => Err err
  | Ok RootCAs =>
      if bool_decide (CertPath cfg ≠ ""%string) || bool_decide (KeyPath cfg ≠ ""%string) then
        if bool_decide (CertPath cfg = ""%string) then Err errCertMissing
        else if bool_decide (KeyPath cfg = ""%string) then Err errKeyMissing
        else
          match LoadX509KeyPair (CertPath cfg) (KeyPath cfg) with
          | Err err => Err ("failed to load TLS certificate " ++ CertPath cfg ++ "," ++ KeyPath cfg ++ ": " ++ err)%string
          | Ok clientCert => Ok (mkTLSConfig (InsecureSkipVerify cfg) (ServerName cfg) RootCAs [clientCert])
          end
      else Ok (mkTLSConfig (InsecureSkipVerify cfg) (ServerName cfg) RootCAs [])
  end.

(** A configuration is made exactly when the key and the certificate are both
    there or both missing and the files can be read; and it verifies against the
    roots of the host only when no CA is configured. *)
Lemma GetTLSConfig_spec cfg :
  ((∃ c, GetTLSConfig cfg = Ok c) ↔
     (CAPath cfg = ""%string ∨ ∃ f, ReadFile (CAPath cfg) = Ok f) ∧
     ((CertPath cfg = ""%string ∧ KeyPath cfg = ""%string) ∨
      (CertPath cfg ≠ ""%string ∧ KeyPath cfg ≠ ""%string ∧ ∃ cert, LoadX509KeyPair (CertPath cfg) (KeyPath cfg) = Ok cert))) ∧
  (∀ c, GetTLSConfig cfg = Ok c →
     (RootCAs c = None ↔ CAPath cfg = ""%string) ∧ (Certificates c = [] ↔ CertPath cfg = ""%string) ∧
     cfg_InsecureSkipVerify c = InsecureSkipVerify cfg ∧ cfg_ServerName c = ServerName cfg).
Proof.
  unfold GetTLSConfig. split.
  - repeat case_bool_decide; simpl; try (destruct (ReadFile _) eqn:?); try (destruct (LoadX509KeyPair _ _) eqn:?); naive_solver.
  - intros c. repeat case_bool_decide; simpl; try (destruct (ReadFile _) eqn:?); try (destruct (LoadX509KeyPair _ _) eqn:?); naive_solver.
Qed.
(** A CA file without a certificate in it is no error: the pool is empty, and no
    server is trusted. *)
Lemma invalid_ca_trusts_nobody cfg f :
  CAPath cfg ≠ ""%string → ReadFile (CAPath cfg) = Ok f → CertsFromPEM f = [] → CertPath cfg = ""%string → KeyPath cfg = ""%string →
  ∃ c, GetTLSConfig cfg = Ok c ∧ RootCAs c = Some [].
Proof.
  intros Hca Hf Hp Hc Hk. unfold GetTLSConfig. rewrite (bool_decide_eq_true_2 (CAPath cfg ≠ _)) by done. rewrite Hf, Hp.
  rewrite Hc, Hk. simpl. by eexists.
Qed.

(** ** Options *)
Inductive CallOption := MaxCallRecvMsgSize (n : Z) | MaxCallSendMsgSize (n : Z) | UseCompressor (name : string).
(** the interceptors of this package, and those of the caller *)
Inductive interceptor := IRateLimiter | IBackoffRetry | IGiven (n : nat).
Inductive DialOption :=
| WithInsecure
| WithTransportCredentials (c : TLSConfig)
| WithDefaultCallOptions (opts : list CallOption)
| WithUnaryInterceptor (chain : list interceptor)
| WithStreamInterceptor (chain : list interceptor)
| WithKeepaliveParams (time timeout : Z) (permitWithoutStream : bool).
(** [RateLimit], a float, is what it is compared with and converted to *)
Record GRPCConfig := mkGRPCConfig {
  MaxRecvMsgSize : Z;
  MaxSendMsgSize : Z;
  GRPCCompression : string;
  RateLimit_positive : bool;
  RateLimit_int : Z;
  RateLimitBurst : Z;
  BackoffOnRatelimits : bool;
  BackoffConfig_ : BackoffConfig;
  TLSEnabled : bool;
  TLS : ClientConfig
}.
Definition Validate (cfg : GRPCConfig) : option string :=
  if bool_decide (GRPCCompression cfg = "gzip"%string) || bool_decide (GRPCCompression cfg = "snappy"%string) || bool_decide (GRPCCompression cfg = ""%string)
  then None else Some ("unsupported compression type: " ++ GRPCCompression cfg)%string.
Definition CallOptions (cfg : GRPCConfig) : list CallOption :=
  let opts := [MaxCallRecvMsgSize (MaxRecvMsgSize cfg)] in
  let opts := opts ++ [MaxCallSendMsgSize (MaxSendMsgSize cfg)] in
  if bool_decide (GRPCCompression cfg ≠ ""%string) then opts ++ [UseCompressor (GRPCCompression cfg)] else opts.
Definition GetGRPCDialOptions (cfg : ClientConfig) (enabled : bool) : result string (list DialOption) :=
  if negb enabled then Ok [WithInsecure]
  else
    match GetTLSConfig cfg with
    | Err err => Err ("error creating grpc dial options: " ++ err)%string
    | Ok tlsConfig => Ok [WithTransportCredentials tlsConfig]
    end.
(** the chain of unary interceptors *)
Definition unary_chain (cfg : GRPCConfig) (unary : list interceptor) : list interceptor :=
  let unary := if BackoffOnRatelimits cfg then IBackoffRetry :: unary else unary in
  if RateLimit_positive cfg then IRateLimiter :: unary else unary.
Definition DialOption_ (cfg : GRPCConfig) (unary stream : list interceptor) : result string (list DialOption) :=
  match GetGRPCDialOptions (TLS cfg) (TLSEnabled cfg) with
  | Err err => Err err
  | Ok tlsOpts =>
      Ok (tlsOpts ++ [WithDefaultCallOptions (CallOptions cfg); WithUnaryInterceptor (unary_chain cfg unary);
                      WithStreamInterceptor stream; WithKeepaliveParams (20 * Second) (10 * Second) true])
  end.
(** A connection is secure exactly when TLS is enabled. *)
Lemma DialOption_secure cfg unary stream opts : DialOption_ cfg unary stream = Ok opts →
  (WithInsecure ∈ opts ↔ TLSEnabled cfg = false) ∧ ((∃ c, WithTransportCredentials c ∈ opts) ↔ TLSEnabled cfg = true).
Proof.
  unfold DialOption_, GetGRPCDialOptions. destruct (TLSEnabled cfg); simpl; [destruct (GetTLSConfig _)|]; intros [= <-]; set_solver.
Qed.
End tls.

(** ** Calls *)
(** an error of a call: a status, or what [Backoff.Err] returns *)
Inductive code := ResourceExhausted | Code (n : Z).
#[global] Instance code_eq_dec : EqDecision code.
Proof. solve_decision. Defined.
Inductive grpc_error := Status (c : code) (msg : string) | EBackoff (e : backoff_error).
Definition Unknown : code := Code 2.
Definition status_Code (err : grpc_error) : code := match err with Status c _ => c | EBackoff _ => Unknown end.

Section calls.
(** the world is a function of the time: whether the context has ended, the answer
    to a request, the draw of the random generator, what the limiter says *)
Context (ctx_done : nat → bool) (server : nat → option grpc_error) (draw : nat → Z) (limiter_Wait : Z → nat → option string).
(** the time, and the answers to the requests that were sent *)
Record world := mkWorld { w_now : nat; w_answers : list (option grpc_error) }.
Definition tick (w : world) : world := mkWorld (S (w_now w)) (w_answers w).
(** a call: [None] if it has not returned within the fuel or panics *)
Definition Call := world → option (option grpc_error * world).
Definition Interceptor := Call → Call.
(** the invoker of the library: it sends the request *)
Definition send : Call := λ w, let a := server (w_now w) in Some (a, mkWorld (S (w_now w)) (w_answers w ++ [a])).

Fixpoint retry_calls (fuel : nat) (b : Backoff) (invoker : Call) (w : world) : option (option grpc_error * world) :=
  match fuel with
  | O => None
  | S fuel =>
      if Ongoing (ctx_done (w_now w)) b then
        '(err, w) ← invoker w;
        match err with
        | None => Some (None, w)
        | Some err =>
            if bool_decide (status_Code err ≠ ResourceExhausted) then Some (Some err, w)
            else
              '(_, b) ← Wait (ctx_done (w_now w)) (draw (w_now w)) b;
              retry_calls fuel b invoker (tick w)
        end
      else Some (EBackoff <$> BackoffErr (ctx_done (w_now w)) b, w)
  end.
Definition NewBackoffRetry (fuel : nat) (cfg : BackoffConfig) : Interceptor := λ invoker w, retry_calls fuel (NewBackoff cfg) invoker w.

Definition limiter_burst (cfg : GRPCConfig) : Z := if bool_decide (RateLimitBurst cfg = 0) then RateLimit_int cfg else RateLimitBurst cfg.
Definition NewRateLimiter (cfg : GRPCConfig) : Interceptor := λ invoker w,
  match limiter_Wait (limiter_burst cfg) (w_now w) with
  | Some err => Some (Some (Status ResourceExhausted err), tick w)
  | None => invoker (tick w)
  end.

(** the interceptors of the caller, and the chains of the middleware package, where
    the first interceptor is the outermost *)
Context (given : nat → Interceptor) (ChainUnaryClient : list Interceptor → Interceptor).
Definition interceptor_of (fuel : nat) (cfg : GRPCConfig) (i : interceptor) : Interceptor :=
  match i with IRateLimiter => NewRateLimiter cfg | IBackoffRetry => NewBackoffRetry fuel (BackoffConfig_ cfg) | IGiven n => given n end.
Definition Invoke (fuel : nat) (cfg : GRPCConfig) (unary : list interceptor) : Call :=
  ChainUnaryClient (interceptor_of fuel cfg <$> unary_chain cfg unary) send.

(** ** What a call returns *)
Definition refused (a : option grpc_error) : bool := match a with Some err => bool_decide (status_Code err = ResourceExhausted) | None => false end.
(** the result of a call that is retried, whose attempts had the outcomes [ans]: the
    first one that is not a refusal, or the error of the backoff *)
Definition retried (c : BackoffConfig) (now : nat) (ans : list (option grpc_error)) (res : option grpc_error) : Prop :=
  (∃ init, ans = init ++ [res] ∧ forallb refused init = true ∧ refused res = false) ∨
  (forallb refused ans = true ∧
   ((res = Some (EBackoff (ErrTerminated (Z.of_nat (length ans)))) ∧ MaxRetries c ≠ 0 ∧ Z.of_nat (length ans) = Z.max 0 (MaxRetries c)) ∨
    (res = Some (EBackoff ErrContext) ∧ ctx_done now = true))).
(** durations below 146 years, a number of retries that is an [int] *)
Definition backoff_ok (c : BackoffConfig) : Prop := small_delays c ∧ MaxRetries c < 2 ^ 63.

(** attempts of [inner] one after the other, as long as they are refused *)
Inductive attempts (inner : Call) : world → list (option grpc_error) → world → Prop :=
| att_none w : attempts inner w [] w
| att_last w a w1 : inner w = Some (a, w1) → refused a = false → attempts inner w [a] w1
| att_more w a w1 ans w' : inner w = Some (a, w1) → refused a = true → attempts inner (tick w1) ans w' → attempts inner w (a :: ans) w'.
(** the requests of the library's invoker are its attempts *)
Lemma send_attempts w ans w' : attempts send w ans w' → w_answers w' = w_answers w ++ ans.
Proof.
  induction 1 as [w|w a w1 Ha Hr|w a w1 ans w' Ha Hr _ IH]; [by rewrite app_nil_r|by injection Ha as <- <-|].
  injection Ha as <- <-. rewrite IH. simpl. by rewrite <- app_assoc.
Qed.
(** when retrying ends within [fuel] attempts, [spent] of them made: their number is
    bounded, or they come to an end of the context or to an outcome that is no refusal *)
Definition ends (c : BackoffConfig) (inner : Call) (fuel spent : nat) (w : world) : Prop :=
  (MaxRetries c ≠ 0 ∧ Z.max 0 (MaxRetries c) - Z.of_nat spent < Z.of_nat fuel ∧ ∀ w, is_Some (inner w)) ∨
  (∃ ans w', attempts inner w ans w' ∧ (length ans < fuel)%nat ∧ (ctx_done (w_now w') = true ∨ ∃ init a, ans = init ++ [a] ∧ refused a = false)).

Lemma refused_code a : refused a = true ↔ ∃ err, a = Some err ∧ status_Code err = ResourceExhausted.
Proof. unfold refused. destruct a as [err|]; [rewrite bool_decide_eq_true|]; naive_solver. Qed.

(** one turn of the loop *)
Lemma retry_turn c fuel b inner w : small_delays c → sound_delays c b →
  (Ongoing (ctx_done (w_now w)) b = false ∧ retry_calls (S fuel) b inner w = Some (EBackoff <$> BackoffErr (ctx_done (w_now w)) b, w)) ∨
  (Ongoing (ctx_done (w_now w)) b = true ∧ ∀ a w1, inner w = Some (a, w1) →
     (refused a = false ∧ retry_calls (S fuel) b inner w = Some (a, w1)) ∨
     (refused a = true ∧ ∃ b', retry_calls (S fuel) b inner w = retry_calls fuel b' inner (tick w1) ∧
        sound_delays c b' ∧ numRetries b' = i64 (numRetries b + 1))).
Proof.
  intros Hc Hb. simpl. destruct (Ongoing _ b); [right|by left]. split; [done|]. intros a w1 ->. simpl. destruct (refused a) eqn:Ha.
  - right. split; [done|]. apply refused_code in Ha as (err & -> & He). rewrite bool_decide_eq_false_2 by naive_solver.
    destruct (NextDelay_sound c b (draw (w_now w1)) Hc Hb) as (t & b' & Hn & Hb' & Hr & _). exists b'. unfold Wait. by rewrite Hn.
  - left. split; [done|]. destruct a as [err|]; [|done]. unfold refused in Ha. apply bool_decide_eq_false in Ha. by rewrite bool_decide_eq_true_2.
Qed.

Lemma retry_correct c inner : backoff_ok c → ∀ fuel b w init,
  sound_delays c b → (MaxRetries c ≠ 0 → numRetries b = Z.of_nat (length init) ∧ Z.of_nat (length init) ≤ Z.max 0 (MaxRetries c)) →
  forallb refused init = true →
  ends c inner fuel (length init) w →
  ∃ res w' ans, retry_calls fuel b inner w = Some (res, w') ∧ attempts inner w ans w' ∧ retried c (w_now w') (init ++ ans) res ∧
    (MaxRetries c ≠ 0 → Z.of_nat (length (init ++ ans)) ≤ Z.max 0 (MaxRetries c)).
Proof.
  intros [Hc Hm]. induction fuel as [|fuel IH]; intros b w init Hb Hn Hi He.
  { exfalso. destruct He as [(H0 & Hf & _)|(ans & w' & _ & Hf & _)]; [destruct (Hn H0)|]; lia. }
  destruct (retry_turn c fuel b inner w Hc Hb) as [[Ho ->]|[Ho Hturn]].
  - exists (EBackoff <$> BackoffErr (ctx_done (w_now w)) b), w, []. rewrite !app_nil_r. split; [done|]. split; [constructor|].
    split; [|intros H0; apply (Hn H0)]. right. split; [done|]. unfold Ongoing in Ho. unfold BackoffErr. rewrite (proj1 Hb) in Ho |- *.
    destruct (ctx_done (w_now w)); [by right|left]. simpl in Ho. apply orb_false_iff in Ho as [H0%bool_decide_eq_false Hlt%bool_decide_eq_false].
    destruct (Hn H0) as [Hnr Hle]. rewrite !bool_decide_eq_true_2 by lia. simpl. rewrite Hnr. split; [done|]. split; [done|]. lia.
  - assert (∃ a w1, inner w = Some (a, w1)) as (a & w1 & Hin).
    { destruct He as [(_ & _ & Ht)|(ans & w' & Hatt & _ & Hend)]; [destruct (Ht w) as [[a w1] Ha]; eauto|].
      destruct Hatt as [w|w a w1 Ha _|w a w1 ans w' Ha _ _]; [exfalso|eauto..]. destruct Hend as [Hd|(init' & a & Hnil & _)].
      - unfold Ongoing in Ho. by rewrite Hd in Ho.
      - by destruct init'. }
    destruct (Hturn a w1 Hin) as [[Ha ->]|(Ha & b' & -> & Hb' & Hr)].
    + exists a, w1, [a]. split; [done|]. split; [by apply att_last|]. split; [left; by exists init|]. intros H0. destruct (Hn H0) as [Hnr _].
      unfold Ongoing in Ho. rewrite (proj1 Hb), (bool_decide_eq_false_2 _ H0) in Ho. apply andb_true_iff in Ho as [_ Hlt%bool_decide_eq_true].
      rewrite length_app. simpl. lia.
    + assert (MaxRetries c ≠ 0 → Z.of_nat (length init) < MaxRetries c) as Hlt.
      { intros H0. destruct (Hn H0) as [Hnr _]. unfold Ongoing in Ho. rewrite (proj1 Hb), (bool_decide_eq_false_2 _ H0) in Ho.
        apply andb_true_iff in Ho as [_ Hlt%bool_decide_eq_true]. lia. }
      destruct (IH b' (tick w1) (init ++ [a])) as (res & w' & ans & Hres & Hatt & Hret & Hlen); [done| | | |].
      * intros H0. destruct (Hn H0) as [Hnr _]. specialize (Hlt H0). rewrite Hr, i64_small, length_app by lia. simpl. lia.
      * rewrite forallb_app, Hi. simpl. by rewrite Ha.
      * destruct He as [(H0 & Hf & Ht)|(ans & w' & Hatt & Hf & Hend)].
        -- left. specialize (Hlt H0). rewrite length_app. simpl. split; [done|]. split; [lia|done].
        -- right. inversion Hatt as [|? a' ? Ha' Hr'|? a' ? ans' ? Ha' _ Hrest]; subst; simplify_eq; [exfalso|congruence|].
           { destruct Hend as [Hd|(init' & x & Hnil & _)]; [|by destruct init']. unfold Ongoing in Ho. by rewrite Hd in Ho. }
           exists ans', w'. split; [done|]. simpl in Hf. split; [lia|]. destruct Hend as [?|(init' & x & Heq & Hx)]; [by left|right].
           destruct init' as [|y init']; simplify_eq/=; [congruence|eauto].
      * exists res, w', (a :: ans). rewrite <- app_assoc in Hret, Hlen. split; [done|]. split; [by eapply att_more|done].
Qed.

Hypothesis chain_nil : ∀ invoker, ChainUnaryClient [] invoker = invoker.
Hypothesis chain_cons : ∀ i l invoker, ChainUnaryClient (i :: l) invoker = i (ChainUnaryClient l invoker).

(** the call as the interceptors of the caller make it, once *)
Definition given_call (fuel : nat) (cfg : GRPCConfig) (unary : list interceptor) : Call :=
  ChainUnaryClient (interceptor_of fuel cfg <$> unary) send.

(** C39. Refused by the client's own limiter, a call sends nothing and fails with
    [ResourceExhausted].  Otherwise, without [BackoffOnRatelimits], it is one call of
    the interceptors of the caller.  With it, that call is made again and again while
    it is refused; if the number of retries is not 0, which means no limit, at most so
    often; and what is returned is the outcome of the last attempt, the first one that
    is not [ResourceExhausted], or, when all of them are, the error of the backoff,
    because the attempts are used up or the context has ended.  It returns if the
    number is limited and the attempts return, or if there comes an outcome that is no
    refusal, or an end of the context.  Without interceptors of the caller an attempt
    is a request. *)
Theorem grpc_call_correct (fuel : nat) (cfg : GRPCConfig) (unary : list interceptor) (w : world) :
  let c := BackoffConfig_ cfg in let inner := given_call fuel cfg unary in
  let w0 := if RateLimit_positive cfg then tick w else w in
  backoff_ok c →
  (if BackoffOnRatelimits cfg
   then ends c inner fuel 0 w0
   else is_Some (inner w0)) →
  match (if RateLimit_positive cfg then limiter_Wait (limiter_burst cfg) (w_now w) else None) with
  | Some err => Invoke fuel cfg unary w = Some (Some (Status ResourceExhausted err), w0) ∧ w_answers w0 = w_answers w
  | None =>
      ∃ res w', Invoke fuel cfg unary w = Some (res, w') ∧
        if BackoffOnRatelimits cfg
        then ∃ ans, attempts inner w0 ans w' ∧ retried c (w_now w') ans res ∧
          (MaxRetries c ≠ 0 → Z.of_nat (length ans) ≤ Z.max 0 (MaxRetries c)) ∧
          (unary = [] → w_answers w' = w_answers w ++ ans)
        else inner w0 = Some (res, w') ∧ (unary = [] → w_answers w' = w_answers w ++ [res])
  end.
Proof using chain_nil chain_cons.
  intros c inner w0 Hc He.
  assert (w_answers w0 = w_answers w) as Hw0 by (unfold w0; by destruct (RateLimit_positive cfg)).
  assert (unary = [] → inner = send) as Hsend by (intros Hu; unfold inner, given_call; by rewrite Hu, chain_nil).
  set (rest := ChainUnaryClient (interceptor_of fuel cfg <$> (if BackoffOnRatelimits cfg then IBackoffRetry :: unary else unary)) send).
  assert (∃ res w', rest w0 = Some (res, w') ∧
    if BackoffOnRatelimits cfg
    then ∃ ans, attempts inner w0 ans w' ∧ retried c (w_now w') ans res ∧
      (MaxRetries c ≠ 0 → Z.of_nat (length ans) ≤ Z.max 0 (MaxRetries c)) ∧ (unary = [] → w_answers w' = w_answers w ++ ans)
    else inner w0 = Some (res, w') ∧ (unary = [] → w_answers w' = w_answers w ++ [res])) as Hrest.
  { unfold rest. destruct (BackoffOnRatelimits cfg).
    - rewrite fmap_cons, chain_cons. destruct (retry_correct c inner Hc fuel (NewBackoff c) w0 []) as (res & w' & ans & Hr & Ha & Hret & Hlen);
        [apply New_sound, Hc|intros _; simpl; lia|done|done|].
      exists res, w'. split; [exact Hr|]. exists ans. split; [done|]. split; [done|]. split; [done|].
      intros Hu. rewrite (Hsend Hu) in Ha. rewrite <- Hw0. by apply send_attempts.
    - destruct He as [[res w'] Hr]. exists res, w'. split; [done|]. split; [done|]. intros Hu. rewrite (Hsend Hu) in Hr.
      injection Hr as <- <-. simpl. by rewrite Hw0. }
  unfold Invoke, unary_chain. destruct (RateLimit_positive cfg); [|exact Hrest].
  rewrite fmap_cons, chain_cons. simpl. unfold NewRateLimiter. destruct (limiter_Wait _ _) as [err|]; [by split|exact Hrest].
Qed.

(** A refusal by the limiter is not retried, although it is [ResourceExhausted] and
    [BackoffOnRatelimits] is set: the limiter is outside of the retries, so that it
    does not see the retries either. *)
Lemma limiter_outside_retries fuel cfg unary w err : RateLimit_positive cfg = true → limiter_Wait (limiter_burst cfg) (w_now w) = Some err →
  Invoke fuel cfg unary w = Some (Some (Status ResourceExhausted err), tick w).
Proof using chain_cons. intros Hp He. unfold Invoke, unary_chain. rewrite Hp, fmap_cons, chain_cons. simpl. unfold NewRateLimiter. by rewrite He. Qed.
(** The burst is the rate cut to an integer, unless it is given: with less than one
    call a second it is 0, for which the limiter refuses every call. *)
Lemma slow_rate_refuses_all fuel cfg unary w :
  (∀ burst t, burst < 1 → is_Some (limiter_Wait burst t)) →
  RateLimit_positive cfg = true → RateLimit_int cfg = 0 → RateLimitBurst cfg = 0 →
  ∃ err w', Invoke fuel cfg unary w = Some (Some (Status ResourceExhausted err), w') ∧ w_answers w' = w_answers w.
Proof using chain_cons.
  intros Hlim Hp Hi Hb. destruct (Hlim (limiter_burst cfg) (w_now w)) as [err He]; [unfold limiter_burst; case_bool_decide; lia|].
  exists err, (tick w). split; [by apply limiter_outside_retries|done].
Qed.
End calls.

(** ** Metrics: [middleware/grpc.go] *)
Section metrics.
(** [httpgrpc.HTTPResponseFromError] and [grpcUtils.IsCanceled] *)
Context {Err : Type} (http_code : Err → option Z) (IsCanceled : Err → bool).
Definition errorCode (err : option Err) : string :=
  match err with
  | None => "2xx"
  | Some e =>
      match http_code e with
      | Some c => Itoa (Z.quot c 100) ++ "xx"
      | None => if IsCanceled e then "cancel" else "error"
      end
  end.
(** a unary call: the label observed *)
Definition unary_observed (err : option Err) : string := errorCode err.

(** an operation on a stream, with what it returned; [EOF] is the error of that name *)
Inductive stream_result := RNil | REOF | RErr (e : Err).
Inductive stream_op := SendMsg (r : stream_result) | RecvMsg (r : stream_result) | Header (r : option Err).
Definition stream_observed (op : stream_op) : list string :=
  match op with
  | SendMsg r | RecvMsg r => match r with RNil => [] | REOF => [errorCode None] | RErr e => [errorCode (Some e)] end
  | Header r => match r with Some e => [errorCode (Some e)] | None => [] end
  end.
(** [PrometheusGRPCStreamInstrumentation]: opening the stream observes nothing *)
Definition stream_session (open : option Err) (ops : list stream_op) : list string :=
  match open with Some _ => [] | None => ops ≫= stream_observed end.
(** a stream that the server ends with an error after the client has sent is
    observed twice, once as a success: [SendMsg] returns [EOF] then, and the error
    comes from [RecvMsg]; a stream that cannot be opened is not observed *)
Lemma stream_failure_twice e : http_code e = None → IsCanceled e = false →
  stream_session None [SendMsg RNil; SendMsg REOF; RecvMsg (RErr e)] = ["2xx"%string; "error"%string].
Proof. intros H1 H2. unfold stream_session. simpl. by rewrite H1, H2. Qed.
Lemma stream_open_failure e ops : stream_session (Some e) ops = [].
Proof. done. Qed.
(** a stream that is only received from until its end is observed once *)
Lemma stream_received n last : last ≠ RNil → length (stream_session None (replicate n (RecvMsg RNil) ++ [RecvMsg last])) = 1%nat.
Proof. intros Hl. unfold stream_session. rewrite bind_app. assert (replicate n (RecvMsg RNil) ≫= stream_observed = []) as -> by by induction n. by destruct last. Qed.
End metrics.

(** ** Witness *)
Definition ex_grpc (retries : Z) : GRPCConfig :=
  mkGRPCConfig 100 100 "gzip" true 10 0 true (mkBackoffConfig (100 * Millisecond) (10 * Second) retries) false (mkClientConfig "" "" "" "" false).
Definition ex_chain {C : Type} : list (C → C) → C → C := λ l inv, foldr (λ i c, i c) inv l.
(** refused twice, answered the third time *)
Definition busy : option grpc_error := Some (Status ResourceExhausted "busy").
Definition ex_server (t : nat) : option grpc_error := if bool_decide (t < 4)%nat then busy else None.
Definition ex_invoke (retries : Z) : option (option grpc_error * world) :=
  Invoke (λ _, false) ex_server Z.of_nat (λ _ _, None) (λ _ i, i) ex_chain 5 (ex_grpc retries) [] (mkWorld 0 []).
(** with two retries, with three, and with no limit *)
Lemma grpc_call_correct_witness :
  ex_invoke 2 = Some (Some (EBackoff (ErrTerminated 2)), mkWorld 5 [busy; busy]) ∧
  (∃ ans, retried (λ _, false) (BackoffConfig_ (ex_grpc 3)) 6 ans None ∧ [busy; busy; None] = ans) ∧
  (∃ ans, retried (λ _, false) (BackoffConfig_ (ex_grpc 0)) 6 ans None ∧ [busy; busy; None] = ans).
Proof.
  split; [vm_compute; reflexivity|].
  assert (∀ retries, backoff_ok (BackoffConfig_ (ex_grpc retries)) →
    ends (λ _, false) (BackoffConfig_ (ex_grpc retries)) (send ex_server) 5 0 (mkWorld 1 []) → ex_invoke retries = Some (None, mkWorld 6 [busy; busy; None]) →
    ∃ ans, retried (λ _, false) (BackoffConfig_ (ex_grpc retries)) 6 ans None ∧ [busy; busy; None] = ans) as H.
  { intros retries Hb He Hi.
    destruct (grpc_call_correct (λ _, false) ex_server Z.of_nat (λ _ _, None) (λ _ i, i) ex_chain) with
      (fuel := 5%nat) (cfg := ex_grpc retries) (unary := @nil interceptor) (w := mkWorld 0 []) as (res & w' & Hr & ans & _ & Hret & _ & Hans);
      [reflexivity|reflexivity|exact Hb|exact He|].
    unfold ex_invoke in Hi. rewrite Hi in Hr. injection Hr as <- <-. exists ans. split; [exact Hret|exact (Hans eq_refl)]. }
  split; apply H.
  - unfold backoff_ok, small_delays. split_and!; vm_compute; first [reflexivity|discriminate].
  - left. split; [discriminate|]. split; [vm_compute; reflexivity|]. intros w. unfold send. eexists. reflexivity.
  - vm_compute. reflexivity.
  - unfold backoff_ok, small_delays. split_and!; vm_compute; first [reflexivity|discriminate].
  - right. exists [busy; busy; None]. eexists. split; [|split; [simpl; lia|right; by exists [busy; busy], None]].
    do 2 (eapply att_more; [reflexivity|reflexivity|]). eapply att_last; reflexivity.
  - vm_compute. reflexivity.
Defined.
