(* ===== verification/Snappy.v ===== *)
(** * Pooled compressors: [grpcencoding/snappy/snappy.go]

    Writers and readers of the snappy library are kept in a [sync.Pool] between
    messages.  A [writeCloser] or a [reader] is a pointer to one of them, so a
    pointer that is used after it has been given back is a pointer to somebody
    else's.  Messages are sequences of chunks; how the library compresses them and
    when it flushes does not matter here. *)
From Stdlib Require Import ZArith Lia.
From stdpp Require Import base gmap strings list option.
From S2P Require Import Prelude.

Definition Name : string := "snappy".

(** ** A pool and the handles on its objects *)
(** [None] as a target: [Reset(nil)] *)
Record pooled := mkPooled {
  p_free : list nat;
  p_next : nat;                       (* objects made so far *)
  p_target : gmap nat (option nat);   (* the stream an object reads or writes *)
  p_handles : list nat                (* the object of every handle that was returned *)
}.
Definition newPool : pooled := mkPooled [] 0 ∅ [].
(** [Pool.Get]: any free object, or a new one *)
Definition pool_Get (choice : nat) (p : pooled) : nat * pooled :=
  match p_free p !! choice with
  | Some x => (x, mkPooled (delete choice (p_free p)) (p_next p) (p_target p) (p_handles p))
  | None => (p_next p, mkPooled (p_free p) (S (p_next p)) (p_target p) (p_handles p))
  end.
Definition pool_Put (x : nat) (p : pooled) : pooled := mkPooled (p_free p ++ [x]) (p_next p) (p_target p) (p_handles p).
Definition Reset (x : nat) (s : option nat) (p : pooled) : pooled := mkPooled (p_free p) (p_next p) (<[x := s]> (p_target p)) (p_handles p).
(** [Compress] and [Decompress]: a new handle on an object for the stream *)
Definition acquire (choice s : nat) (p : pooled) : pooled :=
  let '(x, p) := pool_Get choice p in
  let p := Reset x (Some s) p in
  mkPooled (p_free p) (p_next p) (p_target p) (p_handles p ++ [x]).
(** the object of a handle is reset and put into the pool *)
Definition release (h : nat) (p : pooled) : option pooled :=
  x ← p_handles p !! h; Some (pool_Put x (Reset x None p)).
(** the garbage collector takes a free object *)
Definition drop (i : nat) (p : pooled) : pooled := mkPooled (delete i (p_free p)) (p_next p) (p_target p) (p_handles p).
(** the stream a handle works on: [None], a panic, when there is none *)
Definition stream_of (h : nat) (p : pooled) : option nat := x ← p_handles p !! h; mjoin (p_target p !! x).

(** ** The compressor *)
Section compressor.
Context {Chunk : Type}.
Record compressor := mkCompressor {
  writersPool : pooled;
  readersPool : pooled;
  written : gmap nat (list Chunk);     (* what was written to a stream *)
  unread : gmap nat (list Chunk);      (* what can still be read from one *)
  reads : list (nat * option Chunk)    (* what was read through which handle; [None]: [EOF] *)
}.
Definition Compress (choice s : nat) (c : compressor) : compressor :=
  mkCompressor (acquire choice s (writersPool c)) (readersPool c) (written c) (unread c) (reads c).
Definition Decompress (choice s : nat) (c : compressor) : compressor :=
  mkCompressor (writersPool c) (acquire choice s (readersPool c)) (written c) (unread c) (reads c).
Definition Write (h : nat) (data : Chunk) (c : compressor) : option compressor :=
  s ← stream_of h (writersPool c);
  Some (mkCompressor (writersPool c) (readersPool c) (<[s := default [] (written c !! s) ++ [data]]> (written c)) (unread c) (reads c)).
Definition Close (h : nat) (c : compressor) : option compressor :=
  p ← release h (writersPool c); Some (mkCompressor p (readersPool c) (written c) (unread c) (reads c)).
Definition Read (h : nat) (c : compressor) : option compressor :=
  s ← stream_of h (readersPool c);
  match default [] (unread c !! s) with
  | data :: rest => Some (mkCompressor (writersPool c) (readersPool c) (written c) (<[s := rest]> (unread c)) (reads c ++ [(h, Some data)]))
  | [] => p ← release h (readersPool c); Some (mkCompressor (writersPool c) p (written c) (unread c) (reads c ++ [(h, None)]))
  end.

Inductive event :=
| ECompress (choice s : nat)
| EDecompress (choice s : nat)
| EWrite (h : nat) (data : Chunk)
| EClose (h : nat)
| ERead (h : nat)
| EDrop (writers : bool) (i : nat).
Definition step (ev : event) (c : compressor) : option compressor :=
  match ev with
  | ECompress choice s => Some (Compress choice s c)
  | EDecompress choice s => Some (Decompress choice s c)
  | EWrite h data => Write h data c
  | EClose h => Close h c
  | ERead h => Read h c
  | EDrop true i => Some (mkCompressor (drop i (writersPool c)) (readersPool c) (written c) (unread c) (reads c))
  | EDrop false i => Some (mkCompressor (writersPool c) (drop i (readersPool c)) (written c) (unread c) (reads c))
  end.
Definition run (evs : list event) (c : compressor) : option compressor := foldl (λ c ev, c ← c; step ev c) (Some c) evs.
Definition newCompressor (inputs : gmap nat (list Chunk)) : compressor := mkCompressor newPool newPool ∅ inputs [].

(** ** Without pools *)
(** every handle has its own stream, as long as it is open *)
Record plain := mkPlain {
  pl_writers : list (nat * bool);
  pl_readers : list (nat * bool);
  pl_written : gmap nat (list Chunk);
  pl_unread : gmap nat (list Chunk);
  pl_reads : list (nat * option Chunk)
}.
Definition open_stream (h : nat) (hs : list (nat * bool)) : option nat := '(s, open) ← hs !! h; if open : bool then Some s else None.
(** [None]: a handle is used after it was closed or had returned [EOF] *)
Definition plain_step (ev : event) (c : plain) : option plain :=
  match ev with
  | ECompress _ s => Some (mkPlain (pl_writers c ++ [(s, true)]) (pl_readers c) (pl_written c) (pl_unread c) (pl_reads c))
  | EDecompress _ s => Some (mkPlain (pl_writers c) (pl_readers c ++ [(s, true)]) (pl_written c) (pl_unread c) (pl_reads c))
  | EWrite h data =>
      s ← open_stream h (pl_writers c);
      Some (mkPlain (pl_writers c) (pl_readers c) (<[s := default [] (pl_written c !! s) ++ [data]]> (pl_written c)) (pl_unread c) (pl_reads c))
  | EClose h =>
      s ← open_stream h (pl_writers c);
      Some (mkPlain (<[h := (s, false)]> (pl_writers c)) (pl_readers c) (pl_written c) (pl_unread c) (pl_reads c))
  | ERead h =>
      s ← open_stream h (pl_readers c);
      match default [] (pl_unread c !! s) with
      | data :: rest => Some (mkPlain (pl_writers c) (pl_readers c) (pl_written c) (<[s := rest]> (pl_unread c)) (pl_reads c ++ [(h, Some data)]))
      | [] => Some (mkPlain (pl_writers c) (<[h := (s, false)]> (pl_readers c)) (pl_written c) (pl_unread c) (pl_reads c ++ [(h, None)]))
      end
  | EDrop _ _ => Some c
  end.
Definition plain_run (evs : list event) (c : plain) : option plain := foldl (λ c ev, c ← c; plain_step ev c) (Some c) evs.
End compressor.
Arguments compressor : clear implicits.
Arguments event : clear implicits.
Arguments plain : clear implicits.

(** ** The objects of open handles are theirs alone *)
Record pool_inv (p : pooled) (hs : list (nat * bool)) : Prop := {
  pi_length : length (p_handles p) = length hs;
  pi_open : ∀ h s, hs !! h = Some (s, true) → ∃ x, p_handles p !! h = Some x ∧ p_target p !! x = Some (Some s) ∧ x ∉ p_free p;
  pi_alone : ∀ h1 h2 s1 s2 x, hs !! h1 = Some (s1, true) → hs !! h2 = Some (s2, true) →
    p_handles p !! h1 = Some x → p_handles p !! h2 = Some x → h1 = h2;
  pi_free : NoDup (p_free p);
  pi_bound : (∀ x, x ∈ p_free p → x < p_next p)%nat ∧ (∀ x, x ∈ p_handles p → x < p_next p)%nat
}.
Lemma newPool_inv : pool_inv newPool [].
Proof. constructor; simpl; [done|done|done|constructor|set_solver]. Qed.
Lemma drop_inv i p hs : pool_inv p hs → pool_inv (drop i p) hs.
Proof.
  intros [H1 H2 H3 H4 [H5 H6]]. constructor; simpl; try done.
  - intros h s Hh. destruct (H2 h s Hh) as (x & ? & ? & Hx). exists x. split_and!; try done. intros Hin. apply Hx. by eapply list_elem_of_delete_inv.
  - eapply sublist_NoDup; [|apply sublist_delete]. done.
  - split; [|done]. intros x Hx. apply H5. by eapply list_elem_of_delete_inv.
Qed.
Lemma pool_Get_spec choice p hs : pool_inv p hs →
  let '(x, p') := pool_Get choice p in
  p_target p' = p_target p ∧ p_handles p' = p_handles p ∧ x ∉ p_free p' ∧ (∀ y, y ∈ p_free p' → y ∈ p_free p) ∧ NoDup (p_free p') ∧
  (x < p_next p')%nat ∧ (p_next p ≤ p_next p')%nat ∧ (∀ h s y, hs !! h = Some (s, true) → p_handles p !! h = Some y → y ≠ x).
Proof.
  intros [H1 H2 H3 H4 [H5 H6]]. unfold pool_Get. destruct (p_free p !! choice) as [x|] eqn:Hx; simpl.
  - assert (x ∈ p_free p) as Hin by by eapply list_elem_of_lookup_2. split_and!; try done.
    + intros Hd. rewrite (delete_Permutation _ _ _ Hx) in H4. by inversion H4.
    + intros y Hy. by eapply list_elem_of_delete_inv.
    + eapply sublist_NoDup; [done|apply sublist_delete].
    + by apply H5.
    + intros h s y Hh Hy ->. destruct (H2 h s Hh) as (y & ? & _ & Hn). naive_solver.
  - split_and!; try done; [|lia|lia|].
    + intros Hn%H5. lia.
    + intros h s y Hh Hy ->. apply list_elem_of_lookup_2, H6 in Hy. lia.
Qed.
Lemma acquire_inv choice s p hs : pool_inv p hs → pool_inv (acquire choice s p) (hs ++ [(s, true)]).
Proof.
  intros Hp. pose proof (pool_Get_spec choice p hs Hp) as Hg. unfold acquire. destruct (pool_Get choice p) as [x p'].
  destruct Hg as (Ht & Hh & Hx & Hsub & Hnd & Hlt & Hle & Hne). destruct Hp as [H1 H2 H3 H4 [H5 H6]].
  constructor; simpl; rewrite ?Ht, ?Hh; try done.
  - rewrite !length_app. simpl. lia.
  - intros h t [Hold|[Hl Heq]]%lookup_app_Some.
    + destruct (H2 h t Hold) as (y & Hy & Hty & Hf). exists y. split; [by apply lookup_app_l_Some|]. split; [|naive_solver].
      rewrite lookup_insert_ne; [done|]. intros ->. by eapply Hne.
    + destruct (h - length hs)%nat eqn:Hz; [|done]. simplify_eq/=. exists x. rewrite lookup_insert_eq. split_and!; try done.
      rewrite lookup_app_r by lia. by replace (h - _)%nat with 0%nat by lia.
  - assert (∀ h t, hs !! h = Some (t, true) → (hs ++ [(s, true)]) !! h = Some (t, true)) as _ by (intros; by apply lookup_app_l_Some).
    assert (∀ h t y, (hs ++ [(s, true)]) !! h = Some (t, true) → (p_handles p ++ [x]) !! h = Some y →
      (hs !! h = Some (t, true) ∧ p_handles p !! h = Some y) ∨ (h = length hs ∧ y = x)) as Hcase.
    { intros h t y [Hold|[Hl Heq]]%lookup_app_Some Hy.
      - left. split; [done|]. apply lookup_lt_Some in Hold. rewrite lookup_app_l in Hy; [done|lia].
      - destruct (h - length hs)%nat eqn:Hz; [|done]. right. split; [lia|]. rewrite lookup_app_r in Hy by lia.
        replace (h - _)%nat with 0%nat in Hy by lia. by simplify_eq/=. }
    intros h1 h2 s1 s2 y Ho1 Ho2 Hy1 Hy2.
    destruct (Hcase _ _ _ Ho1 Hy1) as [[? ?]|[-> ->]], (Hcase _ _ _ Ho2 Hy2) as [[? ?]|[-> ?]]; subst; [by eapply H3|exfalso; by eapply Hne|exfalso; by eapply Hne|done].
  - split; [intros y Hy; apply Hsub, H5 in Hy; lia|]. intros y [Hy|Hy]%elem_of_app; [apply H6 in Hy; lia|set_solver].
Qed.
Lemma stream_of_open h s p hs : pool_inv p hs → open_stream h hs = Some s → stream_of h p = Some s.
Proof.
  intros Hp Ho. unfold open_stream in Ho. destruct (hs !! h) as [[t []]|] eqn:Hh; simplify_eq/=.
  destruct (pi_open _ _ Hp _ _ Hh) as (x & Hx & Ht & _). unfold stream_of. rewrite Hx. simpl. by rewrite Ht.
Qed.
Lemma release_inv h s p hs : pool_inv p hs → open_stream h hs = Some s →
  ∃ p', release h p = Some p' ∧ pool_inv p' (<[h := (s, false)]> hs).
Proof.
  intros Hp Ho. unfold open_stream in Ho. destruct (hs !! h) as [[t []]|] eqn:Hh; simplify_eq/=.
  destruct Hp as [H1 H2 H3 H4 [H5 H6]]. destruct (H2 _ _ Hh) as (x & Hx & Ht & Hf). unfold release. rewrite Hx. simpl.
  eexists. split; [done|].
  assert (∀ h' t, <[h:=(s, false)]> hs !! h' = Some (t, true) → h' ≠ h ∧ hs !! h' = Some (t, true)) as Hold.
  { intros h' t Hl. destruct (decide (h' = h)) as [->|Hn]; [|by rewrite list_lookup_insert_ne in Hl].
    rewrite list_lookup_insert_eq in Hl; [done|by eapply lookup_lt_Some]. }
  constructor; simpl.
  - by rewrite length_insert.
  - intros h' t [Hn Hl]%Hold. destruct (H2 _ _ Hl) as (y & Hy & Hty & Hfy). exists y.
    assert (y ≠ x) by (intros ->; apply Hn; by eapply H3). rewrite lookup_insert_ne by done. split_and!; [done|done|set_solver].
  - intros h1 h2 s1 s2 y [_ Ho1]%Hold [_ Ho2]%Hold. by eapply H3.
  - rewrite Permutation_app_comm. by constructor.
  - split; [|done]. intros y [Hy| ->%list_elem_of_singleton]%elem_of_app; [by apply H5|]. apply H6. by eapply list_elem_of_lookup_2.
Qed.

(** ** Streams are not mixed up *)
Section facts.
Context {Chunk : Type}.
Record refines (c : compressor Chunk) (q : plain Chunk) : Prop := {
  rf_writers : pool_inv (writersPool c) (pl_writers q);
  rf_readers : pool_inv (readersPool c) (pl_readers q);
  rf_written : written c = pl_written q;
  rf_unread : unread c = pl_unread q;
  rf_reads : reads c = pl_reads q
}.
Lemma step_refines ev c q q' : refines c q → plain_step ev q = Some q' → ∃ c', step ev c = Some c' ∧ refines c' q'.
Proof.
  intros [Hw Hr H3 H4 H5] Hs. destruct ev as [choice s|choice s|h data|h|h|wr i]; simpl in Hs.
  - simplify_eq. eexists. split; [done|]. constructor; simpl; try done. by apply acquire_inv.
  - simplify_eq. eexists. split; [done|]. constructor; simpl; try done. by apply acquire_inv.
  - destruct (open_stream _ _) as [s|] eqn:Ho; simplify_eq/=. unfold Write. rewrite (stream_of_open _ _ _ _ Hw Ho). simpl.
    eexists. split; [done|]. constructor; simpl; try done. by rewrite H3.
  - destruct (open_stream _ _) as [s|] eqn:Ho; simplify_eq/=. unfold Close. destruct (release_inv _ _ _ _ Hw Ho) as (p & -> & Hp).
    eexists. split; [done|]. by constructor.
  - destruct (open_stream _ _) as [s|] eqn:Ho; simplify_eq/=. unfold Read. rewrite (stream_of_open _ _ _ _ Hr Ho). simpl. rewrite H4.
    destruct (default [] _) as [|data rest]; simplify_eq/=.
    + destruct (release_inv _ _ _ _ Hr Ho) as (p & -> & Hp). eexists. split; [done|]. constructor; simpl; try done. by rewrite H5.
    + eexists. split; [done|]. constructor; simpl; try done; by rewrite ?H4, ?H5.
  - simplify_eq. destruct wr; (eexists; split; [done|]; constructor; simpl; try done; by apply drop_inv).
Qed.

Lemma plain_run_None (evs : list (event Chunk)) : foldl (λ c ev, c ← c; plain_step ev c) None evs = None.
Proof. by induction evs. Qed.

(** However messages interleave, whatever free objects the pools hand out and
    the garbage collector takes: as long as no handle is used after it was closed or
    has returned [EOF], every stream is written and read as if each message had a
    compressor of its own. *)
Theorem pool_transparent (inputs : gmap nat (list Chunk)) (evs : list (event Chunk)) (q : plain Chunk) :
  plain_run evs (mkPlain [] [] ∅ inputs []) = Some q →
  ∃ c, run evs (newCompressor inputs) = Some c ∧ written c = pl_written q ∧ unread c = pl_unread q ∧ reads c = pl_reads q.
Proof.
  assert (∀ c0 q0, refines c0 q0 → plain_run evs q0 = Some q → ∃ c, run evs c0 = Some c ∧ refines c q) as Hsim.
  { induction evs as [|ev evs IH]; intros c0 q0 Hr Hq; [change (Some q0 = Some q) in Hq; injection Hq as <-; by exists c0|]. unfold plain_run, run in *. simpl in *.
    destruct (plain_step ev q0) as [q1|] eqn:Hs.
    - destruct (step_refines _ _ _ _ Hr Hs) as (c1 & Hc1 & Hr1). rewrite Hc1. exact (IH c1 q1 Hr1 Hq).
    - simpl in Hq. by rewrite plain_run_None in Hq. }
  intros Hq. destruct (Hsim (newCompressor inputs) (mkPlain [] [] ∅ inputs [])) as (c & Hc & []); [|done|by exists c].
  constructor; simpl; try done; apply newPool_inv.
Qed.
End facts.

(** A writer that is closed twice is in the pool twice: two messages get it, and
    what is written to the first one goes to the stream of the second. *)
Lemma double_close_mixes_streams :
  ∃ c, run [ECompress 0 1; EClose 0; EClose 0; ECompress 0 2; ECompress 0 3; EWrite 1 "a"%string] (newCompressor ∅) = Some c ∧
    written c !! 2%nat = None ∧ written c !! 3%nat = Some ["a"%string].
Proof. eexists. split; [vm_compute; reflexivity|]. split; vm_compute; reflexivity. Qed.
(** A reader that is read again after [EOF] takes what belongs to another message. *)
Lemma read_after_eof_steals :
  ∃ c, run [EDecompress 0 1; ERead 0; EDecompress 0 2; ERead 0; ERead 1] (newCompressor {[2%nat := ["a"%string]]}) = Some c ∧
    reads c = [(0%nat, None); (0%nat, Some "a"%string); (1%nat, None)].
Proof. eexists. split; vm_compute; reflexivity. Qed.

(** ** Witness *)
Lemma pool_transparent_witness :
  ∃ c, run [ECompress 0 1; EWrite 0 "a"%string; EClose 0; ECompress 0 2; EWrite 1 "b"%string] (newCompressor ∅) = Some c ∧
    written c !! 1%nat = Some ["a"%string] ∧ written c !! 2%nat = Some ["b"%string].
Proof.
  destruct (pool_transparent ∅ [ECompress 0 1; EWrite 0 "a"%string; EClose 0; ECompress 0 2; EWrite 1 "b"%string]
    (mkPlain [(1%nat, false); (2%nat, true)] [] (<[2%nat := ["b"%string]]> (<[1%nat := ["a"%string]]> ∅)) ∅ []))
    as (c & Hr & Hw & _); [vm_compute; reflexivity|].
  exists c. split; [exact Hr|]. rewrite Hw. split; vm_compute; reflexivity.
Defined.
