(* ===== verification/MemberlistLogger.v ===== *)
(** * Log lines of the gossip library: [kv/memberlist/memberlist_logger.go]

    Every group of the regular expression is optional and the last one, [.*],
    matches anything, so that the match starts at the beginning of the line, and a
    group is matched whenever it can be. *)
From Stdlib Require Import ZArith Lia Ascii.
From stdpp Require Import base strings list option.
From S2P Require Import Prelude GoStrings.
Local Open Scope string_scope.

(** ** The regular expression *)
(** what is matched at the beginning, and the rest *)
Definition matcher := string → option (string * string).
Fixpoint repeated (cls : ascii → bool) (n : nat) : matcher := λ s,          (* [cls{n}] *)
  match n, s with
  | O, _ => Some ("", s)
  | S n, String.String c s => if cls c then '(a, b) ← repeated cls n s; Some (String.String c a, b) else None
  | _, _ => None
  end.
Fixpoint span (cls : ascii → bool) (s : string) : string * string :=
  match s with
  | String.String c s' => if cls c then let '(a, b) := span cls s' in (String.String c a, b) else ("", s)
  | "" => ("", "")
  end.
Definition some_of (cls : ascii → bool) : matcher := λ s,                  (* [cls+] *)
  let '(a, b) := span cls s in if bool_decide (a = "") then None else Some (a, b).
Fixpoint lit (l : string) : matcher := λ s,
  match l, s with
  | "", _ => Some ("", s)
  | String.String c l, String.String c' s => if bool_decide (c = c') then '(a, b) ← lit l s; Some (String.String c a, b) else None
  | _, _ => None
  end.
Definition seq (p q : matcher) : matcher := λ s, '(a, s) ← p s; '(b, s) ← q s; Some (a ++ b, s).
Definition opt (p : matcher) (s : string) : string * string := match p s with Some r => r | None => ("", s) end.

Definition logRegexpDate : matcher := seq (repeated is_digit 4) (seq (lit "/") (seq (repeated is_digit 2) (seq (lit "/") (repeated is_digit 2)))).
Definition clock : matcher := seq (repeated is_digit 2) (seq (lit ":") (seq (repeated is_digit 2) (seq (lit ":") (repeated is_digit 2)))).
Definition logRegexpTime : matcher := seq clock (λ s, Some (opt (seq (lit ".") (some_of is_digit)) s)).
Definition logRegexpFile : matcher :=
  seq (some_of (λ c, negb (bool_decide (c = ":"%char)) && negb (bool_decide (c = " "%char)))) (seq (lit ":") (some_of is_digit)).
(** [\[(?P<level>[A-Z]+)\] ] *)
Definition logRegexpLevel : matcher := λ s, '(_, s) ← lit "[" s; '(l, s) ← some_of is_upper s; '(_, s) ← lit "] " s; Some (l, s).
Definition newline : ascii := ascii_of_nat 10.

Record fields := mkFields { f_date : string; f_time : string; f_file : string; f_level : string; f_msg : string }.
Definition subexps (line : string) : fields :=
  let '(date, s) := opt logRegexpDate line in
  let '(_, s) := opt (lit " ") s in
  let '(time, s) := opt logRegexpTime s in
  let '(_, s) := opt (lit " ") s in
  let '(file, s) := opt logRegexpFile s in
  let '(_, s) := opt (lit ": ") s in
  let '(level, s) := opt logRegexpLevel s in
  let '(_, s) := opt (lit "memberlist: ") s in
  let '(msg, _) := span (λ c, negb (bool_decide (c = newline))) s in
  mkFields date time file level msg.

(** ** [Write] *)
Inductive level_value := DebugValue | WarnValue | InfoValue | ErrorValue.
Inductive value := VString (s : string) | VLevel (l : level_value).
Definition level_of (lvl : string) : value :=
  let lvl := ToLower lvl in
  if bool_decide (lvl = "debug") then VLevel DebugValue
  else if bool_decide (lvl = "warn") then VLevel WarnValue
  else if bool_decide (lvl = "info") then VLevel InfoValue
  else if bool_decide (lvl = "err") || bool_decide (lvl = "error") then VLevel ErrorValue
  else VString lvl.
Definition log_keyvals (logTimestamp : bool) (line : string) : list (string * value) :=
  let result := subexps line in
  let timestamp := f_date result in
  let timestamp :=
    if bool_decide (f_time result ≠ "")
    then (if bool_decide (timestamp ≠ "") then timestamp ++ " " else timestamp) ++ f_time result
    else timestamp in
  ((if logTimestamp && bool_decide (timestamp ≠ "") then [("ts", VString timestamp)] else [])
    ++ (if bool_decide (f_file result ≠ "") then [("file", VString (f_file result))] else [])
    ++ [("level", level_of (f_level result)); ("msg", VString (f_msg result))])%list.
(** the logger is a function of what it is given *)
Definition logger_Write {E} (Log : list (string * value) → option E) (logTimestamp : bool) (p : string) : Z * option E :=
  match Log (log_keyvals logTimestamp p) with
  | Some err => (0, Some err)
  | None => (Z.of_nat (String.length p), None)
  end.

Example ex_line : log_keyvals true ("2019/10/01 12:05:06 [DEBUG] memberlist: Failed to join 127.0.0.1: refused" ++ String.String newline "")
  = [("ts", VString "2019/10/01 12:05:06"); ("level", VLevel DebugValue); ("msg", VString "Failed to join 127.0.0.1: refused")].
Proof. vm_compute. reflexivity. Qed.
Example ex_file_line : log_keyvals false ("2019/10/01 12:07:34 /Users/test/memberlist.go:245: [WARN] memberlist: slow" ++ String.String newline "")
  = [("file", VString "/Users/test/memberlist.go:245"); ("level", VLevel WarnValue); ("msg", VString "slow")].
Proof. vm_compute. reflexivity. Qed.

(** ** Lines of the library are taken apart *)
(** a matcher of texts of a fixed form does not look beyond them *)
Definition local (p : matcher) : Prop := ∀ s a b r, p s = Some (a, b) → p (s ++ r) = Some (a, b ++ r) ∧ s = a ++ b.
Lemma repeated_local cls n : local (repeated cls n).
Proof.
  induction n as [|n IH]; intros s a b r H; simpl in *; [by simplify_eq|]. destruct s as [|c s]; [done|]. simpl in *. destruct (cls c); [|done].
  destruct (repeated cls n s) as [[a' b']|] eqn:Hr; simplify_eq/=. destruct (IH _ _ _ r Hr) as [-> ->]. done.
Qed.
Lemma lit_local l : local (lit l).
Proof.
  induction l as [|c l IH]; intros s a b r H; simpl in *; [by simplify_eq|]. destruct s as [|c' s]; [done|]. simpl in *. case_bool_decide; [|done].
  destruct (lit l s) as [[a' b']|] eqn:Hr; simplify_eq/=. destruct (IH _ _ _ r Hr) as [-> ->]. done.
Qed.
Lemma seq_local p q : local p → local q → local (seq p q).
Proof.
  intros Hp Hq s a b r H. unfold seq in *. destruct (p s) as [[a1 s1]|] eqn:H1; [|done]. simpl in H. destruct (q s1) as [[a2 s2]|] eqn:H2; simplify_eq/=.
  destruct (Hp _ _ _ r H1) as [-> ->]. simpl. destruct (Hq _ _ _ r H2) as [-> ->]. simpl. split; [done|]. symmetry. apply string_app_assoc.
Qed.
Lemma date_local : local logRegexpDate.
Proof. unfold logRegexpDate. repeat apply seq_local; apply repeated_local || apply lit_local. Qed.
Lemma clock_local : local clock.
Proof. unfold clock. repeat apply seq_local; apply repeated_local || apply lit_local. Qed.
Fixpoint all (cls : ascii → bool) (s : string) : bool := match s with "" => true | String.String c s => cls c && all cls s end.
Definition stops (cls : ascii → bool) (s : string) : bool := match s with "" => true | String.String c _ => negb (cls c) end.
Lemma span_all cls a r : all cls a = true → stops cls r = true → span cls (a ++ r) = (a, r).
Proof.
  intros Ha Hr. induction a as [|c a IH]; simpl in *.
  - destruct r as [|c r]; [done|]. simpl in *. by destruct (cls c).
  - apply andb_true_iff in Ha as [-> Ha]. by rewrite IH.
Qed.
Lemma some_of_all cls a r : all cls a = true → a ≠ "" → stops cls r = true → some_of cls (a ++ r) = Some (a, r).
Proof. intros Ha Hne Hr. unfold some_of. rewrite span_all by done. by rewrite bool_decide_eq_false_2. Qed.
Lemma all_impl (P Q : ascii → bool) s : (∀ c, P c = true → Q c = true) → all P s = true → all Q s = true.
Proof. intros HPQ. induction s as [|c s IH]; [done|]. simpl. rewrite !andb_true_iff. naive_solver. Qed.
Lemma all_app cls a b : all cls (a ++ b) = all cls a && all cls b.
Proof. induction a as [|c a IH]; [done|]. simpl. rewrite IH. apply andb_assoc. Qed.
Lemma lit_self l r : lit l (l ++ r) = Some (l, r).
Proof. induction l as [|c l IH]; [done|]. simpl. rewrite bool_decide_eq_true_2 by done. by rewrite IH. Qed.
Lemma upper_in_file c : is_upper c = true → negb (bool_decide (c = ":"%char)) && negb (bool_decide (c = " "%char)) = true.
Proof. intros Hc. do 2 (case_bool_decide; [by subst|]). done. Qed.

(** A line the gossip library writes is logged with its time, when it is asked for,
    its level and its message, without the rest. *)
Lemma library_line_logged ts d t lvl m :
  logRegexpDate d = Some (d, "") → clock t = Some (t, "") → all is_upper lvl = true → lvl ≠ "" → no_char newline m = true →
  log_keyvals ts (d ++ " " ++ t ++ " [" ++ lvl ++ "] memberlist: " ++ m ++ String.String newline "")
    = (if ts : bool then cons ("ts", VString (d ++ " " ++ t)) else id) [("level", level_of lvl); ("msg", VString m)].
Proof.
  intros Hd Ht Hl Hne Hm. destruct (date_local d d "" (" " ++ t ++ " [" ++ lvl ++ "] memberlist: " ++ m ++ String.String newline "") Hd) as [Hd' _].
  destruct (clock_local t t "" (" [" ++ lvl ++ "] memberlist: " ++ m ++ String.String newline "") Ht) as [Ht' _].
  assert (d ≠ "" ∧ t ≠ "") as [Hdn Htn] by (split; intros ->; done).
  set (tail := "] memberlist: " ++ m ++ String.String newline "") in *.
  assert (logRegexpFile ("[" ++ lvl ++ tail) = None) as Hfile.
  { unfold logRegexpFile, seq. assert ("[" ++ lvl ++ tail = ("[" ++ lvl ++ "]") ++ (" memberlist: " ++ m ++ String.String newline "")) as ->.
    { unfold tail. rewrite !string_app_assoc. done. }
    rewrite some_of_all; [done| |done|done]. rewrite !all_app. rewrite (all_impl _ _ _ upper_in_file Hl). done. }
  assert (span (λ c, negb (bool_decide (c = newline))) (m ++ String.String newline "") = (m, String.String newline "")) as Hmsg.
  { apply span_all; [|done]. clear -Hm. induction m as [|c m IH]; [done|]. simpl in *. apply andb_true_iff in Hm as [-> Hm]. by apply IH. }
  assert (subexps (d ++ " " ++ t ++ " [" ++ lvl ++ tail) = mkFields d t "" lvl m) as Hs.
  { unfold subexps. unfold opt at 1. rewrite Hd'. change ("" ++ ?x) with x. change (opt (lit " ") (" " ++ ?x)) with (" ", x). cbv iota beta.
    unfold opt at 1, logRegexpTime, seq at 1. rewrite Ht'. change ("" ++ ?x) with x. cbn [mbind option_bind].
    change (opt (seq (lit ".") (some_of is_digit)) (" [" ++ ?x)) with ("", " [" ++ x). cbn [mbind option_bind]. rewrite string_app_nil.
    change (opt (lit " ") (" [" ++ ?x)) with (" ", "[" ++ x). cbv iota beta. unfold opt at 1. rewrite Hfile.
    change (opt (lit ": ") ("[" ++ ?x)) with ("", "[" ++ x). cbv iota beta. unfold opt at 1, logRegexpLevel. change (lit "[" ("[" ++ ?x)) with (Some ("[", x)).
    cbn [mbind option_bind]. rewrite (some_of_all _ _ _ Hl Hne) by done. cbn [mbind option_bind]. unfold tail.
    change ("] memberlist: " ++ ?x) with ("] " ++ ("memberlist: " ++ x)). rewrite lit_self. cbn [mbind option_bind]. unfold opt at 1. rewrite lit_self.
    by rewrite Hmsg. }
  unfold log_keyvals. rewrite Hs. cbn [f_date f_time f_file f_level f_msg]. rewrite (bool_decide_eq_true_2 (t ≠ "")), (bool_decide_eq_true_2 (d ≠ "")) by done.
  rewrite (bool_decide_eq_true_2 ((d ++ " ") ++ t ≠ "")) by (by destruct d). destruct ts; simpl; [|done]. rewrite string_app_assoc. done.
Qed.
(** a line without a level is logged with an empty one *)
Lemma no_level : log_keyvals false ("memberlist: ready" ++ String.String newline "") = [("level", VString ""); ("msg", VString "ready")].
Proof. vm_compute. reflexivity. Qed.
