(* ===== verification/FlagSet.v ===== *)
(** * Registration of flags: [flagext/register.go] and the [RegisterFlags] of the
      configurations

    A [flag.FlagSet] refuses a name that it has, with a panic.  A typed flag stores
    its default in the field it is for; a flag made with [Var] leaves the field as
    it is.  Fields are named by the configuration they are in and their path. *)
From Stdlib Require Import ZArith Lia.
From stdpp Require Import base gmap strings list option.
From S2P Require Import Prelude GoStrings KVClient Backoff MemberlistNode.

Inductive value := VString (s : string) | VInt (z : Z) | VBool (b : bool) | VDuration (ns : Z) | VFloat (decimal : string) | VStrings (l : list string).
Record FlagSet := mkFlagSet { fs_names : list string; fs_fields : gmap string value }.
(** [None]: a panic *)
Abbreviation registering := (FlagSet → option FlagSet).
Record flag := mkFlag { fl_name : string; fl_field : string; fl_default : option value }.
Definition store (field : string) (v : value) (fs : FlagSet) : FlagSet := mkFlagSet (fs_names fs) (<[field := v]> (fs_fields fs)).
Definition add (f : flag) : registering := λ fs,
  if bool_decide (fl_name f ∈ fs_names fs) then None
  else Some (mkFlagSet (fs_names fs ++ [fl_name f]) (match fl_default f with Some v => <[fl_field f := v]> (fs_fields fs) | None => fs_fields fs end)).
Fixpoint flags (l : list flag) : registering := λ fs, match l with [] => Some fs | f :: l => fs ← add f fs; flags l fs end.
(** the methods of [FlagSet], for a field [cfg.name] *)
Section configs.
Local Open Scope string_scope.
Definition StringVar (cfg field name v : string) : flag := mkFlag name (cfg ++ field) (Some (VString v)).
Definition IntVar (cfg field name : string) (v : Z) : flag := mkFlag name (cfg ++ field) (Some (VInt v)).
Definition BoolVar (cfg field name : string) (v : bool) : flag := mkFlag name (cfg ++ field) (Some (VBool v)).
Definition DurationVar (cfg field name : string) (v : Z) : flag := mkFlag name (cfg ++ field) (Some (VDuration v)).
Definition Float64Var (cfg field name v : string) : flag := mkFlag name (cfg ++ field) (Some (VFloat v)).
Definition Var (cfg field name : string) : flag := mkFlag name (cfg ++ field) None.

Definition tls_RegisterFlagsWithPrefix (cfg prefix : string) : registering := flags
  [StringVar cfg "CertPath" (prefix ++ ".tls-cert-path") "";
   StringVar cfg "KeyPath" (prefix ++ ".tls-key-path") "";
   StringVar cfg "CAPath" (prefix ++ ".tls-ca-path") "";
   StringVar cfg "ServerName" (prefix ++ ".tls-server-name") "";
   BoolVar cfg "InsecureSkipVerify" (prefix ++ ".tls-insecure-skip-verify") false].
Definition backoff_RegisterFlagsWithPrefix (cfg prefix : string) : registering := flags
  [DurationVar cfg "MinBackoff" (prefix ++ ".backoff-min-period") (100 * Millisecond);
   DurationVar cfg "MaxBackoff" (prefix ++ ".backoff-max-period") (10 * Second);
   IntVar cfg "MaxRetries" (prefix ++ ".backoff-retries") 10].
(** [TLSEnabled] keeps the value it has *)
Definition grpc_RegisterFlagsWithPrefix (tls_enabled : bool) (cfg prefix : string) : registering := λ fs,
  fs ← flags
    [IntVar cfg "MaxRecvMsgSize" (prefix ++ ".grpc-max-recv-msg-size") (Z.shiftl 100 20);
     IntVar cfg "MaxSendMsgSize" (prefix ++ ".grpc-max-send-msg-size") (Z.shiftl 16 20);
     StringVar cfg "GRPCCompression" (prefix ++ ".grpc-compression") "";
     Float64Var cfg "RateLimit" (prefix ++ ".grpc-client-rate-limit") "0";
     IntVar cfg "RateLimitBurst" (prefix ++ ".grpc-client-rate-limit-burst") 0;
     BoolVar cfg "BackoffOnRatelimits" (prefix ++ ".backoff-on-ratelimits") false;
     BoolVar cfg "TLSEnabled" (prefix ++ ".tls-enabled") tls_enabled] fs;
  fs ← backoff_RegisterFlagsWithPrefix (cfg ++ "BackoffConfig.") prefix fs;
  tls_RegisterFlagsWithPrefix (cfg ++ "TLS.") prefix fs.

Definition longPollDuration : Z := 10 * Second.
Definition consul_RegisterFlags (cfg prefix : string) : registering := flags
  [StringVar cfg "Host" (prefix ++ "consul.hostname") "localhost:8500";
   StringVar cfg "ACLToken" (prefix ++ "consul.acl-token") "";
   DurationVar cfg "HTTPClientTimeout" (prefix ++ "consul.client-timeout") (2 * longPollDuration);
   BoolVar cfg "ConsistentReads" (prefix ++ "consul.consistent-reads") false;
   Float64Var cfg "WatchKeyRateLimit" (prefix ++ "consul.watch-rate-limit") "1";
   IntVar cfg "WatchKeyBurstSize" (prefix ++ "consul.watch-burst-size") 1].
Definition etcd_RegisterFlagsWithPrefix (cfg prefix : string) : registering := λ fs,
  let fs := store (cfg ++ "Endpoints") (VStrings []) fs in
  fs ← flags
    [Var cfg "Endpoints" (prefix ++ "etcd.endpoints");
     DurationVar cfg "DialTimeout" (prefix ++ "etcd.dial-timeout") (10 * Second);
     IntVar cfg "MaxRetries" (prefix ++ "etcd.max-retries") 10;
     BoolVar cfg "EnableTLS" (prefix ++ "etcd.tls-enabled") false;
     StringVar cfg "UserName" (prefix ++ "etcd.username") "";
     StringVar cfg "Password" (prefix ++ "etcd.password") ""] fs;
  tls_RegisterFlagsWithPrefix (cfg ++ "TLS.") (prefix ++ "etcd") fs.
Definition multi_RegisterFlagsWithPrefix (cfg prefix : string) : registering := flags
  [StringVar cfg "Primary" (prefix ++ "multi.primary") "";
   StringVar cfg "Secondary" (prefix ++ "multi.secondary") "";
   BoolVar cfg "MirrorEnabled" (prefix ++ "multi.mirror-enabled") false;
   DurationVar cfg "MirrorTimeout" (prefix ++ "multi.mirror-timeout") (2 * Second)].
Definition kv_RegisterFlagsWithPrefix (cfg flagsPrefix defaultPrefix : string) : registering := λ fs,
  fs ← consul_RegisterFlags (cfg ++ "Consul.") flagsPrefix fs;
  fs ← etcd_RegisterFlagsWithPrefix (cfg ++ "Etcd.") flagsPrefix fs;
  fs ← multi_RegisterFlagsWithPrefix (cfg ++ "Multi.") flagsPrefix fs;
  let flagsPrefix := if bool_decide (flagsPrefix = "") then "ring." else flagsPrefix in
  flags
    [StringVar cfg "Prefix" (flagsPrefix ++ "prefix") defaultPrefix;
     StringVar cfg "Store" (flagsPrefix ++ "store") "consul"] fs.
Definition ring_RegisterFlagsWithPrefix (cfg prefix : string) : registering := λ fs,
  fs ← kv_RegisterFlagsWithPrefix (cfg ++ "KVStore.") prefix "collectors/" fs;
  flags
    [DurationVar cfg "HeartbeatTimeout" (prefix ++ "ring.heartbeat-timeout") (60 * Second);
     IntVar cfg "ReplicationFactor" (prefix ++ "distributor.replication-factor") 3;
     BoolVar cfg "ZoneAwarenessEnabled" (prefix ++ "distributor.zone-awareness-enabled") false;
     Var cfg "ExcludedZones" (prefix ++ "distributor.excluded-zones")] fs.
(** [hostname] is what [os.Hostname] returns *)
Definition lifecycler_RegisterFlagsWithPrefix (hostname : option string) (cfg prefix : string) : registering := λ fs,
  fs ← ring_RegisterFlagsWithPrefix (cfg ++ "RingConfig.") prefix fs;
  let prefix := if bool_decide (prefix = "") then "ingester." else prefix in
  fs ← flags
    [IntVar cfg "NumTokens" (prefix ++ "num-tokens") 128;
     DurationVar cfg "HeartbeatPeriod" (prefix ++ "heartbeat-period") (5 * Second);
     DurationVar cfg "JoinAfter" (prefix ++ "join-after") (0 * Second);
     DurationVar cfg "ObservePeriod" (prefix ++ "observe-period") (0 * Second);
     DurationVar cfg "MinReadyDuration" (prefix ++ "min-ready-duration") (15 * Second);
     DurationVar cfg "FinalSleep" (prefix ++ "final-sleep") (30 * Second);
     StringVar cfg "TokensFilePath" (prefix ++ "tokens-file-path") ""] fs;
  hostname ← hostname;
  let fs := store (cfg ++ "InfNames") (VStrings ["eth0"; "en0"]) fs in
  flags
    [Var cfg "InfNames" (prefix ++ "lifecycler.interface");
     StringVar cfg "Addr" (prefix ++ "lifecycler.addr") "";
     IntVar cfg "Port" (prefix ++ "lifecycler.port") 0;
     StringVar cfg "ID" (prefix ++ "lifecycler.ID") hostname;
     StringVar cfg "Zone" (prefix ++ "availability-zone") "";
     BoolVar cfg "UnregisterOnShutdown" (prefix ++ "unregister-on-shutdown") true;
     BoolVar cfg "ReadinessCheckRingHealth" (prefix ++ "readiness-check-ring-health") true] fs.

(** what [memberlist.DefaultLANConfig] returns *)
Record ml_defaults := mkMlDefaults {
  d_TCPTimeout : Z;
  d_RetransmitMult : Z;
  d_GossipInterval : Z;
  d_GossipNodes : Z;
  d_PushPullInterval : Z;
  d_GossipToTheDeadTime : Z;
  d_DeadNodeReclaimTime : Z;
  d_EnableCompression : bool;
  d_AdvertiseAddr : string;
  d_AdvertisePort : Z
}.
Definition transport_RegisterFlagsWithPrefix (cfg prefix : string) : registering := λ fs,
  fs ← flags
    [Var cfg "BindAddrs" (prefix ++ "memberlist.bind-addr");
     IntVar cfg "BindPort" (prefix ++ "memberlist.bind-port") 7946;
     DurationVar cfg "PacketDialTimeout" (prefix ++ "memberlist.packet-dial-timeout") (5 * Second);
     DurationVar cfg "PacketWriteTimeout" (prefix ++ "memberlist.packet-write-timeout") (5 * Second);
     BoolVar cfg "TransportDebug" (prefix ++ "memberlist.transport-debug") false;
     BoolVar cfg "TLSEnabled" (prefix ++ "memberlist.tls-enabled") false] fs;
  tls_RegisterFlagsWithPrefix (cfg ++ "TLS.") (prefix ++ "memberlist") fs.
Definition memberlist_RegisterFlagsWithPrefix (mlDefaults : ml_defaults) (cfg prefix : string) : registering := λ fs,
  fs ← flags
    [StringVar cfg "NodeName" (prefix ++ "memberlist.nodename") "";
     BoolVar cfg "RandomizeNodeName" (prefix ++ "memberlist.randomize-node-name") true;
     DurationVar cfg "StreamTimeout" (prefix ++ "memberlist.stream-timeout") (d_TCPTimeout mlDefaults);
     IntVar cfg "RetransmitMult" (prefix ++ "memberlist.retransmit-factor") (d_RetransmitMult mlDefaults);
     Var cfg "JoinMembers" (prefix ++ "memberlist.join");
     DurationVar cfg "MinJoinBackoff" (prefix ++ "memberlist.min-join-backoff") (1 * Second);
     DurationVar cfg "MaxJoinBackoff" (prefix ++ "memberlist.max-join-backoff") (60 * Second);
     IntVar cfg "MaxJoinRetries" (prefix ++ "memberlist.max-join-retries") 10;
     BoolVar cfg "AbortIfJoinFails" (prefix ++ "memberlist.abort-if-join-fails") true;
     DurationVar cfg "RejoinInterval" (prefix ++ "memberlist.rejoin-interval") 0;
     DurationVar cfg "LeftIngestersTimeout" (prefix ++ "memberlist.left-ingesters-timeout") (5 * 60 * Second);
     DurationVar cfg "LeaveTimeout" (prefix ++ "memberlist.leave-timeout") (5 * Second);
     DurationVar cfg "GossipInterval" (prefix ++ "memberlist.gossip-interval") (d_GossipInterval mlDefaults);
     IntVar cfg "GossipNodes" (prefix ++ "memberlist.gossip-nodes") (d_GossipNodes mlDefaults);
     DurationVar cfg "PushPullInterval" (prefix ++ "memberlist.pullpush-interval") (d_PushPullInterval mlDefaults);
     DurationVar cfg "GossipToTheDeadTime" (prefix ++ "memberlist.gossip-to-dead-nodes-time") (d_GossipToTheDeadTime mlDefaults);
     DurationVar cfg "DeadNodeReclaimTime" (prefix ++ "memberlist.dead-node-reclaim-time") (d_DeadNodeReclaimTime mlDefaults);
     IntVar cfg "MessageHistoryBufferBytes" (prefix ++ "memberlist.message-history-buffer-bytes") 0;
     BoolVar cfg "EnableCompression" (prefix ++ "memberlist.compression-enabled") (d_EnableCompression mlDefaults);
     StringVar cfg "AdvertiseAddr" (prefix ++ "memberlist.advertise-addr") (d_AdvertiseAddr mlDefaults);
     IntVar cfg "AdvertisePort" (prefix ++ "memberlist.advertise-port") (d_AdvertisePort mlDefaults)] fs;
  transport_RegisterFlagsWithPrefix (cfg ++ "TCPTransport.") prefix fs.
Definition runtimeconfig_RegisterFlags (cfg : string) : registering := flags
  [StringVar cfg "LoadPath" "runtime-config.file" "";
   DurationVar cfg "ReloadPeriod" "runtime-config.reload-period" (10 * Second)].
End configs.

(** ** [flagext/register.go] *)
Inductive registerer :=
| Registerer (RegisterFlags : registering)
| RegistererWithLogger (RegisterFlags : registering)
| NoRegisterer.
Fixpoint RegisterFlagsWithLogger (rs : list registerer) : registering := λ fs,
  match rs with
  | [] => Some fs
  | (Registerer r | RegistererWithLogger r) :: rs => fs ← r fs; RegisterFlagsWithLogger rs fs
  | NoRegisterer :: _ => None
  end.
Definition RegisterFlags (rs : list registering) : registering := RegisterFlagsWithLogger (Registerer <$> rs).
(** the fields of the configurations afterwards: there are no arguments to parse *)
Definition DefaultValues (rs : list registerer) (fields : gmap string value) : option (gmap string value) :=
  fs_fields <$> RegisterFlagsWithLogger rs (mkFlagSet [] fields).

(** ** Which configurations can be registered together

    The names of the flags of a ring and of the gossiped store, for any prefix; and
    what their defaults say about the services that are configured by them. *)
(** ** The names that are registered *)
Definition registers (r : registering) (names : list string) : Prop :=
  ∀ fs, NoDup (fs_names fs) →
    match r fs with
    | Some fs' => fs_names fs' = fs_names fs ++ names ∧ NoDup (fs_names fs')
    | None => ¬ NoDup (fs_names fs ++ names)
    end.
Lemma flags_registers l : registers (flags l) (fl_name <$> l).
Proof.
  induction l as [|f l IH]; intros fs Hnd; simpl; [by rewrite app_nil_r|]. unfold add. case_bool_decide as Hin; simpl.
  - intros (_ & Hd & _)%list.NoDup_app. apply (Hd _ Hin). by left.
  - set (fs1 := mkFlagSet _ _). assert (NoDup (fs_names fs1)) as Hnd1 by (simpl; rewrite Permutation_app_comm; by constructor).
    specialize (IH fs1 Hnd1). simpl in IH. rewrite <- app_assoc in IH. exact IH.
Qed.
Lemma bind_registers r1 r2 l1 l2 : registers r1 l1 → registers r2 l2 → registers (λ fs, fs ← r1 fs; r2 fs) (l1 ++ l2).
Proof.
  intros H1 H2 fs Hnd. specialize (H1 fs Hnd). destruct (r1 fs) as [fs1|]; simpl.
  - destruct H1 as [Hn Hnd1]. specialize (H2 fs1 Hnd1). rewrite Hn, <- app_assoc in H2. exact H2.
  - intros Hn. apply H1. rewrite app_assoc in Hn. by apply list.NoDup_app in Hn as [? _].
Qed.
Lemma store_registers f v r l : registers r l → registers (λ fs, r (store f v fs)) l.
Proof. intros Hr fs Hnd. exact (Hr (store f v fs) Hnd). Qed.

Section names.
Local Open Scope string_scope.
Definition tls_suffixes := [".tls-cert-path"; ".tls-key-path"; ".tls-ca-path"; ".tls-server-name"; ".tls-insecure-skip-verify"].
Definition consul_suffixes := ["consul.hostname"; "consul.acl-token"; "consul.client-timeout"; "consul.consistent-reads"; "consul.watch-rate-limit"; "consul.watch-burst-size"].
Definition etcd_suffixes := ["etcd.endpoints"; "etcd.dial-timeout"; "etcd.max-retries"; "etcd.tls-enabled"; "etcd.username"; "etcd.password"].
Definition multi_suffixes := ["multi.primary"; "multi.secondary"; "multi.mirror-enabled"; "multi.mirror-timeout"].
Definition kv_suffixes := ["prefix"; "store"].
Definition ring_suffixes := ["ring.heartbeat-timeout"; "distributor.replication-factor"; "distributor.zone-awareness-enabled"; "distributor.excluded-zones"].
Definition lifecycler_suffixes :=
  ["num-tokens"; "heartbeat-period"; "join-after"; "observe-period"; "min-ready-duration"; "final-sleep"; "tokens-file-path";
   "lifecycler.interface"; "lifecycler.addr"; "lifecycler.port"; "lifecycler.ID"; "availability-zone"; "unregister-on-shutdown"; "readiness-check-ring-health"].
Definition or_default (p d : string) : string := if bool_decide (p = "") then d else p.
Definition lifecycler_names (p : string) : list string :=
  ((String.append p <$> consul_suffixes ++ etcd_suffixes ++ (String.append "etcd" <$> tls_suffixes) ++ multi_suffixes)
     ++ (String.append (or_default p "ring.") <$> kv_suffixes)
     ++ (String.append p <$> ring_suffixes)
     ++ (String.append (or_default p "ingester.") <$> lifecycler_suffixes))%list.
Definition memberlist_suffixes :=
  ["memberlist.nodename"; "memberlist.randomize-node-name"; "memberlist.stream-timeout"; "memberlist.retransmit-factor"; "memberlist.join";
   "memberlist.min-join-backoff"; "memberlist.max-join-backoff"; "memberlist.max-join-retries"; "memberlist.abort-if-join-fails";
   "memberlist.rejoin-interval"; "memberlist.left-ingesters-timeout"; "memberlist.leave-timeout"; "memberlist.gossip-interval";
   "memberlist.gossip-nodes"; "memberlist.pullpush-interval"; "memberlist.gossip-to-dead-nodes-time"; "memberlist.dead-node-reclaim-time";
   "memberlist.message-history-buffer-bytes"; "memberlist.compression-enabled"; "memberlist.advertise-addr"; "memberlist.advertise-port";
   "memberlist.bind-addr"; "memberlist.bind-port"; "memberlist.packet-dial-timeout"; "memberlist.packet-write-timeout";
   "memberlist.transport-debug"; "memberlist.tls-enabled"].
Definition memberlist_names (p : string) : list string :=
  (String.append p <$> (memberlist_suffixes ++ (String.append "memberlist" <$> tls_suffixes))%list).
End names.

Lemma append_twice p q (l : list string) : (String.append (p ++ q) <$> l) = (String.append p <$> (String.append q <$> l)).
Proof. rewrite <- list_fmap_compose. apply list_fmap_ext. intros i x _. apply string_app_assoc. Qed.
Lemma tls_registers cfg p : registers (tls_RegisterFlagsWithPrefix cfg p) (String.append p <$> tls_suffixes).
Proof. apply flags_registers. Qed.
Lemma etcd_registers cfg p :
  registers (etcd_RegisterFlagsWithPrefix cfg p) (String.append p <$> etcd_suffixes ++ (String.append "etcd" <$> tls_suffixes)).
Proof.
  rewrite fmap_app, <- append_twice. unfold etcd_RegisterFlagsWithPrefix. cbv zeta.
  apply (store_registers _ _ (λ fs, fs ← flags _ fs; tls_RegisterFlagsWithPrefix _ _ fs)). apply bind_registers; [apply flags_registers|apply tls_registers].
Qed.
Lemma kv_registers cfg p d : registers (kv_RegisterFlagsWithPrefix cfg p d)
  ((String.append p <$> consul_suffixes ++ etcd_suffixes ++ (String.append "etcd" <$> tls_suffixes) ++ multi_suffixes)
     ++ (String.append (or_default p "ring.") <$> kv_suffixes)).
Proof.
  rewrite fmap_app, (app_assoc etcd_suffixes), fmap_app, <- !app_assoc. unfold kv_RegisterFlagsWithPrefix.
  apply bind_registers; [apply flags_registers|]. apply bind_registers; [apply etcd_registers|].
  apply bind_registers; [apply flags_registers|]. apply flags_registers.
Qed.
Lemma lifecycler_registers hostname cfg p : registers (lifecycler_RegisterFlagsWithPrefix (Some hostname) cfg p) (lifecycler_names p).
Proof.
  unfold lifecycler_RegisterFlagsWithPrefix, lifecycler_names. rewrite (app_assoc (String.append p <$> _)), (app_assoc (_ ++ _)).
  apply bind_registers; [apply bind_registers; [apply kv_registers|apply flags_registers]|].
  change (String.append (or_default p "ingester.") <$> lifecycler_suffixes) with
    ((String.append (or_default p "ingester.") <$> take 7 lifecycler_suffixes) ++ (String.append (or_default p "ingester.") <$> drop 7 lifecycler_suffixes)).
  apply bind_registers; [apply flags_registers|]. cbn [mbind option_bind]. cbv zeta. apply (store_registers _ _ (flags _)). apply flags_registers.
Qed.
Lemma memberlist_registers ml cfg p : registers (memberlist_RegisterFlagsWithPrefix ml cfg p) (memberlist_names p).
Proof.
  unfold memberlist_names, memberlist_RegisterFlagsWithPrefix. rewrite fmap_app, <- append_twice.
  change memberlist_suffixes with (take 21 memberlist_suffixes ++ drop 21 memberlist_suffixes). rewrite fmap_app, <- app_assoc.
  apply bind_registers; [apply flags_registers|]. apply bind_registers; [apply flags_registers|apply tls_registers].
Qed.
(** they succeed exactly when no name is there twice *)
Lemma registers_empty r l fields : registers r l → (is_Some (r (mkFlagSet [] fields)) ↔ NoDup l).
Proof.
  intros Hr. specialize (Hr (mkFlagSet [] fields) (NoDup_nil_2)). simpl in Hr. destruct (r _) as [fs|]; split; try done.
  intros _. destruct Hr as [Hn Hnd]. by rewrite Hn in Hnd.
Qed.

(** ** Names with different prefixes *)
Fixpoint splits (s : string) : list (string * string) :=
  (""%string, s) :: match s with String.EmptyString => [] | String.String c s => (λ '(a, b), (String.String c a, b)) <$> splits s end.
Lemma splits_spec s a b : (a, b) ∈ splits s ↔ (a ++ b)%string = s.
Proof.
  revert a b. induction s as [|c s IH]; intros a b; simpl; rewrite elem_of_cons.
  - rewrite elem_of_nil. split; [intros [[= -> ->]|[]]; done|]. intros Ha. left. by destruct a, b.
  - rewrite list_elem_of_fmap. split.
    + intros [[= -> ->]|([a' b'] & [= -> ->] & Hin)]; [done|]. apply IH in Hin. change (String.String c (a' ++ b') = String.String c s). by rewrite Hin.
    + intros Ha. destruct a as [|c' a]; [left; change (b = String.String c s) in Ha; by rewrite Ha|]. right. injection Ha as -> Ha. exists (a, b). split; [done|]. by apply IH.
Qed.
Lemma append_shared p1 p2 s1 s2 : (p1 ++ s1)%string = (p2 ++ s2)%string → (∃ m, s1 = (m ++ s2)%string ∧ p2 = (p1 ++ m)%string) ∨ (∃ m, s2 = (m ++ s1)%string ∧ p1 = (p2 ++ m)%string).
Proof.
  revert p2. induction p1 as [|c p1 IH]; intros p2 Heq; simpl in Heq; [left; by exists p2|].
  destruct p2 as [|c' p2]; simpl in Heq; [right; by exists (String.String c p1)|]. injection Heq as -> Heq.
  destruct (IH p2 Heq) as [(m & -> & ->)|(m & -> & ->)]; [left|right]; by exists m.
Qed.
(** no text of [l1] ends with a text of [l2], unless it is the same *)
Definition suffix_free (l1 l2 : list string) : bool :=
  forallb (λ s, forallb (λ '(a, b), bool_decide (a = ""%string) || negb (bool_decide (b ∈ l2))) (splits s)) l1.
Lemma suffix_free_spec l1 l2 s1 s2 m : suffix_free l1 l2 = true → s1 ∈ l1 → s2 ∈ l2 → s1 = (m ++ s2)%string → m = ""%string.
Proof.
  unfold suffix_free. rewrite forallb_forall. intros Hf H1%list_elem_of_In H2 Heq. specialize (Hf s1 H1). rewrite forallb_forall in Hf.
  specialize (Hf (m, s2) (proj1 (list_elem_of_In _ _) (proj2 (splits_spec s1 m s2) (eq_sym Heq)))). simpl in Hf.
  rewrite (bool_decide_eq_true_2 (s2 ∈ l2)) in Hf by done. rewrite orb_false_r in Hf. by apply bool_decide_eq_true in Hf.
Qed.
Lemma disjoint_prefixes p1 p2 l1 l2 s : suffix_free l1 l2 = true → suffix_free l2 l1 = true →
  s ∈ String.append p1 <$> l1 → s ∈ String.append p2 <$> l2 → p1 = p2 ∧ ∃ t, t ∈ l1 ∧ t ∈ l2.
Proof.
  intros H12 H21 (s1 & -> & Hs1)%list_elem_of_fmap (s2 & Heq & Hs2)%list_elem_of_fmap.
  destruct (append_shared _ _ _ _ Heq) as [(m & Hm & Hp)|(m & Hm & Hp)].
  - pose proof (suffix_free_spec _ _ _ _ _ H12 Hs1 Hs2 Hm) as ->. rewrite string_app_nil in Hp. simpl in Hm. subst. eauto.
  - pose proof (suffix_free_spec _ _ _ _ _ H21 Hs2 Hs1 Hm) as ->. rewrite string_app_nil in Hp. simpl in Hm. subst. eauto.
Qed.

(** ** Two rings and a gossiped store in a process *)
Definition prefixed_suffixes : list string :=
  consul_suffixes ++ etcd_suffixes ++ (String.append "etcd" <$> tls_suffixes) ++ multi_suffixes ++ kv_suffixes ++ ring_suffixes ++ lifecycler_suffixes.
Definition unprefixed_names : list string := Eval vm_compute in lifecycler_names "".
Lemma lifecycler_names_prefixed p : p ≠ ""%string → lifecycler_names p = String.append p <$> prefixed_suffixes.
Proof.
  intros Hp. unfold lifecycler_names, prefixed_suffixes, or_default. rewrite (bool_decide_eq_false_2 (p = ""%string)) by done.
  rewrite !fmap_app. rewrite <- !app_assoc. done.
Qed.
Lemma lifecycler_names_empty : lifecycler_names "" = String.append "" <$> unprefixed_names.
Proof. vm_compute. reflexivity. Qed.
Lemma append_inj_r p : Inj (=) (=) (String.append p).
Proof. intros a b. apply string_app_inj. Qed.
Lemma decided_NoDup (l : list string) : bool_decide (NoDup l) = true → NoDup l.
Proof. apply bool_decide_eq_true. Qed.
Lemma lifecycler_names_NoDup p : NoDup (lifecycler_names p).
Proof.
  destruct (decide (p = ""%string)) as [->|Hp].
  - rewrite lifecycler_names_empty. apply NoDup_fmap; [apply append_inj_r|]. apply decided_NoDup. vm_compute. reflexivity.
  - rewrite lifecycler_names_prefixed by done. apply NoDup_fmap; [apply append_inj_r|]. apply decided_NoDup. vm_compute. reflexivity.
Qed.
Lemma memberlist_names_NoDup p : NoDup (memberlist_names p).
Proof. apply NoDup_fmap; [apply append_inj_r|]. apply decided_NoDup. vm_compute. reflexivity. Qed.

(** the prefixes with which a name is one without a prefix *)
Definition clashing : list string :=
  unprefixed_names ≫= λ n, splits n ≫= λ '(a, b), if bool_decide (b ∈ prefixed_suffixes) && negb (bool_decide (a = ""%string)) then [a] else [].
Lemma clashing_spec p : p ≠ ""%string → (∃ x, x ∈ lifecycler_names "" ∧ x ∈ lifecycler_names p) ↔ p ∈ clashing.
Proof.
  intros Hp. rewrite (lifecycler_names_prefixed p), lifecycler_names_empty by done. unfold clashing. rewrite list_elem_of_bind. split.
  - intros (x & (n & Hx & Hn)%list_elem_of_fmap & (s & Hs & Hin)%list_elem_of_fmap). simpl in Hx. subst x. exists n. split; [|done].
    apply list_elem_of_bind. exists (p, s). split; [|by apply splits_spec].
    rewrite (bool_decide_eq_true_2 (s ∈ _)), (bool_decide_eq_false_2 (p = _)) by done. by left.
  - intros (n & ([a b] & Hin & Hs%splits_spec)%list_elem_of_bind & Hn). case_bool_decide as Hb; [|by apply elem_of_nil in Hin].
    destruct (negb _); [|by apply elem_of_nil in Hin]. apply list_elem_of_singleton in Hin as ->. exists n. split.
    + apply list_elem_of_fmap. by exists n.
    + apply list_elem_of_fmap. by exists b.
Qed.
Lemma clashing_prefixes p : p ∈ clashing ↔ p = "ring."%string ∨ p = "ingester."%string.
Proof.
  split.
  - intros Hp%list_elem_of_In. assert (forallb (λ p, bool_decide (p = "ring."%string ∨ p = "ingester."%string)) clashing = true) as Hf by (vm_compute; reflexivity).
    rewrite forallb_forall in Hf. by apply Hf, bool_decide_eq_true in Hp.
  - assert (bool_decide ("ring."%string ∈ clashing) && bool_decide ("ingester."%string ∈ clashing) = true) as Hf by (vm_compute; reflexivity).
    apply andb_true_iff in Hf as [H1%bool_decide_eq_true H2%bool_decide_eq_true]. by intros [->| ->].
Qed.
Definition compatible (p1 p2 : string) : Prop :=
  p1 ≠ p2 ∧ ¬ (p1 = ""%string ∧ (p2 = "ring."%string ∨ p2 = "ingester."%string)) ∧ ¬ (p2 = ""%string ∧ (p1 = "ring."%string ∨ p1 = "ingester."%string)).
Lemma shared_names p1 p2 : (∃ x, x ∈ lifecycler_names p1 ∧ x ∈ lifecycler_names p2) ↔ ¬ compatible p1 p2.
Proof.
  unfold compatible. destruct (decide (p1 = p2)) as [->|Hne].
  { split; [naive_solver|]. intros _. exists (p2 ++ "consul.hostname")%string. split; by left. }
  destruct (decide (p1 = ""%string)) as [->|H1].
  { rewrite clashing_spec by done. rewrite clashing_prefixes. split; [naive_solver|]. intros Hn.
    destruct (decide (p2 = "ring."%string)); [by left|]. destruct (decide (p2 = "ingester."%string)); [by right|]. naive_solver. }
  destruct (decide (p2 = ""%string)) as [->|H2].
  { assert ((∃ x, x ∈ lifecycler_names p1 ∧ x ∈ lifecycler_names "") ↔ p1 ∈ clashing) as ->.
    { rewrite <- clashing_spec by done. naive_solver. }
    rewrite clashing_prefixes. split; [naive_solver|]. intros Hn.
    destruct (decide (p1 = "ring."%string)); [by left|]. destruct (decide (p1 = "ingester."%string)); [by right|]. naive_solver. }
  rewrite !lifecycler_names_prefixed by done. split; [|naive_solver]. intros (x & Hx1 & Hx2) _.
  apply Hne. assert (suffix_free prefixed_suffixes prefixed_suffixes = true) as Hf by (vm_compute; reflexivity).
  by apply (disjoint_prefixes p1 p2 _ _ x Hf Hf) in Hx2 as [? _].
Qed.
Lemma memberlist_disjoint p q x : x ∈ lifecycler_names p → x ∈ memberlist_names q → False.
Proof.
  unfold memberlist_names. set (M := (memberlist_suffixes ++ _)%list). intros H1 H2.
  assert (∀ l, suffix_free l M = true → suffix_free M l = true → forallb (λ s, negb (bool_decide (s ∈ l))) M = true → ∀ p, x ∈ String.append p <$> l → False) as Hl.
  { intros l Ha Hb Hc p' Hx. destruct (disjoint_prefixes _ _ _ _ _ Ha Hb Hx H2) as (_ & t & Ht & HtM). rewrite forallb_forall in Hc.
    specialize (Hc t (proj1 (list_elem_of_In _ _) HtM)). apply negb_true_iff, bool_decide_eq_false in Hc. done. }
  destruct (decide (p = ""%string)) as [->|Hp]; [rewrite lifecycler_names_empty in H1|rewrite lifecycler_names_prefixed in H1 by done];
    eapply Hl, H1; vm_compute; reflexivity.
Qed.

(** The configurations of two rings and of the gossiped store can be registered
    in one process, under any prefixes, if the prefixes of the rings differ; but not
    when one of them is empty, whose flags have the prefixes [ring.] and
    [ingester.], and the other is one of these. *)
Theorem lifecyclers_register (hostname : string) (ml : ml_defaults) (cfg1 cfg2 cfg3 p1 p2 q : string) (fields : gmap string value) :
  is_Some (DefaultValues [Registerer (lifecycler_RegisterFlagsWithPrefix (Some hostname) cfg1 p1);
                          Registerer (lifecycler_RegisterFlagsWithPrefix (Some hostname) cfg2 p2);
                          Registerer (memberlist_RegisterFlagsWithPrefix ml cfg3 q)] fields) ↔ compatible p1 p2.
Proof.
  unfold DefaultValues. rewrite fmap_is_Some. set (r := RegisterFlagsWithLogger _).
  assert (registers r (lifecycler_names p1 ++ lifecycler_names p2 ++ memberlist_names q ++ [])) as Hr.
  { apply bind_registers; [apply lifecycler_registers|]. apply bind_registers; [apply lifecycler_registers|].
    apply bind_registers; [apply memberlist_registers|]. intros fs Hnd. simpl. by rewrite app_nil_r. }
  rewrite (registers_empty _ _ _ Hr), app_nil_r. rewrite !list.NoDup_app. split.
  - intros (_ & Hd & _). destruct (decide (p1 = p2 ∨ (p1 = ""%string ∧ (p2 = "ring."%string ∨ p2 = "ingester."%string)) ∨
      (p2 = ""%string ∧ (p1 = "ring."%string ∨ p1 = "ingester."%string)))) as [Hc|Hc]; [|unfold compatible; naive_solver].
    exfalso. assert (¬ compatible p1 p2) as (x & Hx1 & Hx2)%shared_names by (unfold compatible; naive_solver).
    apply (Hd x Hx1), elem_of_app. by left.
  - intros Hc. pose proof (proj1 (shared_names p1 p2)) as Hs. split_and!; try apply lifecycler_names_NoDup; try apply memberlist_names_NoDup.
    + intros x Hx1 [Hx2|Hx2]%elem_of_app; [naive_solver|by eapply memberlist_disjoint].
    + intros x Hx1 Hx2. by eapply memberlist_disjoint.
Qed.
(** a gRPC client under the prefix [etcd] has a flag of the etcd client of a ring
    without a prefix *)
Lemma grpc_registers tls cfg p : ∃ names, registers (grpc_RegisterFlagsWithPrefix tls cfg p) names ∧ (p ++ ".tls-enabled")%string ∈ names.
Proof.
  eexists. split.
  - unfold grpc_RegisterFlagsWithPrefix. apply bind_registers; [apply flags_registers|]. apply bind_registers; [apply flags_registers|apply tls_registers].
  - rewrite elem_of_app. left. do 6 right. left.
Qed.
Lemma grpc_etcd_clash hostname cfg1 cfg2 tls fields :
  DefaultValues [Registerer (lifecycler_RegisterFlagsWithPrefix (Some hostname) cfg1 "");
                 RegistererWithLogger (grpc_RegisterFlagsWithPrefix tls cfg2 "etcd")] fields = None.
Proof.
  unfold DefaultValues. set (r := RegisterFlagsWithLogger _). destruct (grpc_registers tls cfg2 "etcd") as (names & Hg & Hin).
  assert (registers r (lifecycler_names "" ++ names ++ [])) as Hr.
  { apply bind_registers; [apply lifecycler_registers|]. apply bind_registers; [done|]. intros fs Hnd. by rewrite app_nil_r. }
  assert (¬ is_Some (r (mkFlagSet [] fields))) as Hn%eq_None_not_Some; [|by rewrite Hn].
  rewrite (registers_empty _ _ _ Hr), app_nil_r. intros (_ & Hd & _)%list.NoDup_app. apply (Hd (("etcd" ++ ".tls-enabled")%string)); [|done].
  rewrite lifecycler_names_empty. apply list_elem_of_fmap. exists "etcd.tls-enabled"%string. split; [done|].
  assert (bool_decide ("etcd.tls-enabled"%string ∈ unprefixed_names) = true) as Hi by (vm_compute; reflexivity). by apply bool_decide_eq_true in Hi.
Qed.

(** ** The defaults *)
Definition duration (field : string) (fields : gmap string value) : Z := match fields !! field with Some (VDuration d) => d | _ => -1 end.
Definition int (field : string) (fields : gmap string value) : Z := match fields !! field with Some (VInt z) => z | _ => -1 end.
(** With the defaults, an instance may miss eleven heartbeats before it is
    unhealthy; a blocking request to Consul ends before the HTTP client gives up on
    it; and joining, whose delays are within the bounds [joinMembersOnStartup_spec]
    asks for, makes eleven attempts at most. *)
Lemma defaults_fit hostname ml :
  match DefaultValues [Registerer (lifecycler_RegisterFlagsWithPrefix (Some hostname) "lifecycler." "");
                       Registerer (memberlist_RegisterFlagsWithPrefix ml "memberlist." "")] ∅ with
  | Some fields =>
      0 < 11 * duration "lifecycler.HeartbeatPeriod" fields < duration "lifecycler.RingConfig.HeartbeatTimeout" fields ∧
      longPollDuration < duration "lifecycler.RingConfig.KVStore.Consul.HTTPClientTimeout" fields ∧
      0 < duration "memberlist.MinJoinBackoff" fields < duration "memberlist.MaxJoinBackoff" fields ∧
      duration "memberlist.MaxJoinBackoff" fields < 2 ^ 62 ∧ int "memberlist.MaxJoinRetries" fields = 10 ∧
      fields !! "lifecycler.ID"%string = Some (VString hostname) ∧ fields !! "memberlist.AbortIfJoinFails"%string = Some (VBool true)
  | None => False
  end.
Proof. vm_compute. repeat split. Qed.
