(* ===== verification/Actor.v ===== *)
(** * Calls into the goroutine of a lifecycler: [sendToLifecyclerLoop] and
      [ChangeState] of [ring/lifecycler.go], [run] of [ring/basic_lifecycler.go]

    A caller hands a function to the loop over an unbuffered channel, unless the
    context of the service ends first, and waits for its result on another one.
    The state of the lifecycler and the functions are parameters. *)
From Stdlib Require Import ZArith Lia.
From stdpp Require Import base list option relations.
From S2P Require Import Prelude.

Section actor.
Context {S R : Type}.

(** where a caller is; [Returned None]: lifecycler not running *)
Inductive caller_pc := Entering | Selecting | AwaitReply | Returned (r : option R).
Record caller := mkCaller { c_fn : S → R * S; c_pc : caller_pc }.
(** the goroutine of the service: its loop waits for an event, runs the function of
    a caller, or sends the result *)
Inductive loop_pc := NotStarted | Waiting | Executing (i : nat) | Replying (i : nat) (r : R) | LoopEnded.
(** what changed the state: the function of a caller, or an event of the loop *)
Inductive change := ByCall (i : nat) | ByLoop (f : S → S).
Record actor := mkActor {
  sc : option bool;           (* [ServiceContext]: [nil], or whether it is done *)
  loop : loop_pc;
  callers : list caller;
  a_state : S;
  changes : list change
}.
Definition newActor (s : S) : actor := mkActor None NotStarted [] s [].
Definition set_pc (i : nat) (pc : caller_pc) (a : actor) : actor :=
  mkActor (sc a) (loop a) (alter (λ c, mkCaller (c_fn c) pc) i (callers a)) (a_state a) (changes a).
Definition set_loop (l : loop_pc) (a : actor) : actor := mkActor (sc a) l (callers a) (a_state a) (changes a).
Definition pc_of (i : nat) (a : actor) : option caller_pc := c_pc <$> callers a !! i.

(** the steps of a caller *)
Definition enter (i : nat) (a : actor) : option actor :=
  match pc_of i a with
  | Some Entering => Some (set_pc i (match sc a with None => Returned None | Some _ => Selecting end) a)
  | _ => None
  end.
Definition select_done (i : nat) (a : actor) : option actor :=
  match pc_of i a, sc a with
  | Some Selecting, Some true => Some (set_pc i (Returned None) a)
  | _, _ => None
  end.
Definition select_send (i : nat) (a : actor) : option actor :=
  match pc_of i a, loop a with
  | Some Selecting, Waiting => Some (set_loop (Executing i) (set_pc i AwaitReply a))
  | _, _ => None
  end.
(** the steps of the loop *)
Definition execute (a : actor) : option actor :=
  match loop a with
  | Executing i =>
      c ← callers a !! i;
      let '(r, s) := c_fn c (a_state a) in Some (mkActor (sc a) (Replying i r) (callers a) s (changes a ++ [ByCall i]))
  | _ => None
  end.
Definition reply (a : actor) : option actor :=
  match loop a with
  | Replying i r => match pc_of i a with Some AwaitReply => Some (set_loop Waiting (set_pc i (Returned (Some r)) a)) | _ => None end
  | _ => None
  end.
Definition loop_event (f : S → S) (a : actor) : option actor :=
  match loop a with Waiting => Some (mkActor (sc a) (loop a) (callers a) (f (a_state a)) (changes a ++ [ByLoop f])) | _ => None end.
(** the service calls the loop when it has started, or never; the loop returns
    when it sees that the context is done, or with an error *)
Definition loop_begins (a : actor) : option actor := match loop a with NotStarted => Some (set_loop Waiting a) | _ => None end.
Definition loop_ends (a : actor) : option actor := match loop a with NotStarted | Waiting => Some (set_loop LoopEnded a) | _ => None end.
Definition new_call (fn : S → R * S) (a : actor) : actor := mkActor (sc a) (loop a) (callers a ++ [mkCaller fn Entering]) (a_state a) (changes a).
(** [StartAsync] makes the context; [StopAsync], and the service when the loop has
    returned, cancel it *)
Definition start (a : actor) : option actor :=
  match sc a with None => Some (mkActor (Some false) (loop a) (callers a) (a_state a) (changes a)) | Some _ => None end.
Definition cancel (a : actor) : option actor :=
  match sc a with Some _ => Some (mkActor (Some true) (loop a) (callers a) (a_state a) (changes a)) | None => None end.

Inductive actor_step (a a' : actor) : Prop :=
| s_call fn : a' = new_call fn a → actor_step a a'
| s_enter i : enter i a = Some a' → actor_step a a'
| s_done i : select_done i a = Some a' → actor_step a a'
| s_send i : select_send i a = Some a' → actor_step a a'
| s_execute : execute a = Some a' → actor_step a a'
| s_reply : reply a = Some a' → actor_step a a'
| s_event f : loop_event f a = Some a' → actor_step a a'
| s_begins : sc a ≠ None → loop_begins a = Some a' → actor_step a a'
| s_ends : sc a ≠ None → loop_ends a = Some a' → actor_step a a'
| s_start : start a = Some a' → actor_step a a'
| s_cancel : cancel a = Some a' → actor_step a a'.

(** ** What has happened *)
(** the state after some changes *)
Definition apply_change (fns : list (S → R * S)) (s : S) (ch : change) : S :=
  match ch with ByCall i => match fns !! i with Some fn => (fn s).2 | None => s end | ByLoop f => f s end.
Definition after (fns : list (S → R * S)) (s0 : S) (chs : list change) : S := foldl (apply_change fns) s0 chs.
Definition called (i : nat) (chs : list change) : Prop := ByCall i ∈ chs.
(** the function of [i] was run once, after [pre], and returned [r] *)
Definition ran (fns : list (S → R * S)) (s0 : S) (i : nat) (r : R) (chs : list change) : Prop :=
  ∃ pre post fn, chs = pre ++ ByCall i :: post ∧ ¬ called i pre ∧ ¬ called i post ∧ fns !! i = Some fn ∧ r = (fn (after fns s0 pre)).1.
Definition fns_of (a : actor) : list (S → R * S) := c_fn <$> callers a.

Record actor_inv (s0 : S) (a : actor) : Prop := {
  ai_state : a_state a = after (fns_of a) s0 (changes a);
  ai_bound : ∀ i, called i (changes a) → (i < length (callers a))%nat;
  ai_pc : ∀ i pc, pc_of i a = Some pc →
    match pc with
    | Entering | Selecting => ¬ called i (changes a)
    | Returned None => ¬ called i (changes a)
    | Returned (Some r) => ran (fns_of a) s0 i r (changes a)
    | AwaitReply => (loop a = Executing i ∧ ¬ called i (changes a)) ∨ ∃ r, loop a = Replying i r ∧ ran (fns_of a) s0 i r (changes a)
    end;
  ai_loop : ∀ i, (loop a = Executing i ∨ ∃ r, loop a = Replying i r) → pc_of i a = Some AwaitReply;
  ai_sc : sc a = None → loop a = NotStarted ∧ ∀ i, pc_of i a ≠ Some Selecting
}.
End actor.
Arguments caller_pc : clear implicits.
Arguments caller : clear implicits.
Arguments loop_pc : clear implicits.
Arguments change : clear implicits.
Arguments actor : clear implicits.

Section facts.
Context {S R : Type}.
Implicit Types a : actor S R.
Lemma pc_of_set_pc i j pc a : pc_of j (set_pc i pc a) = (if decide (i = j) then (λ _, pc) <$> pc_of j a else pc_of j a).
Proof.
  unfold pc_of, set_pc. simpl. destruct (decide (i = j)) as [->|Hne].
  - rewrite list_lookup_alter_eq. by destruct (callers a !! j).
  - by rewrite list_lookup_alter_ne.
Qed.
Lemma fns_of_set_pc i pc a : fns_of (set_pc i pc a) = fns_of a.
Proof.
  unfold fns_of, set_pc. simpl. apply list_eq. intros j. rewrite !list_lookup_fmap. destruct (decide (i = j)) as [->|Hne].
  - rewrite list_lookup_alter_eq. by destruct (callers a !! j).
  - by rewrite list_lookup_alter_ne.
Qed.
Lemma after_snoc fns (s0 : S) (chs : list (change S)) (ch : change S) : after (R := R) fns s0 (chs ++ [ch]) = apply_change fns (after fns s0 chs) ch.
Proof. unfold after. by rewrite foldl_app. Qed.
Lemma called_snoc i (chs : list (change S)) ch : called i (chs ++ [ch]) ↔ called i chs ∨ ch = ByCall i.
Proof. unfold called. rewrite elem_of_app, list_elem_of_singleton. naive_solver. Qed.
Lemma not_called_snoc i (chs : list (change S)) ch : ¬ called i chs → ch ≠ ByCall i → ¬ called i (chs ++ [ch]).
Proof. rewrite called_snoc. intros H1 H2 [H|H]; done. Qed.
Lemma ran_snoc fns (s0 : S) i (r : R) (chs : list (change S)) ch : ran fns s0 i r chs → ch ≠ ByCall i → ran fns s0 i r (chs ++ [ch]).
Proof.
  intros (pre & post & fn & -> & H1 & H2 & H3 & H4) Hch. exists pre, (post ++ [ch]), fn. rewrite <- app_assoc. split_and!; try done.
  rewrite called_snoc. naive_solver.
Qed.
Lemma ran_called fns (s0 : S) i (r : R) (chs : list (change S)) : ran fns s0 i r chs → called i chs.
Proof. intros (pre & post & fn & -> & _). unfold called. rewrite elem_of_app. right. by left. Qed.
Lemma after_app_fns fns fn (s0 : S) (chs : list (change S)) : (∀ i, called i chs → (i < length fns)%nat) → after (R := R) (fns ++ [fn]) s0 chs = after fns s0 chs.
Proof.
  unfold after. revert s0. induction chs as [|ch chs IH]; intros s0 Hb; [done|]. simpl. assert (apply_change (fns ++ [fn]) s0 ch = apply_change fns s0 ch) as ->.
  { destruct ch as [i|f]; [|done]. simpl. rewrite lookup_app_l; [done|]. apply Hb. by left. }
  apply IH. intros i Hi. apply Hb. by right.
Qed.
Lemma ran_app_fns fns fn (s0 : S) i (r : R) (chs : list (change S)) : (∀ i, called i chs → (i < length fns)%nat) → ran fns s0 i r chs → ran (fns ++ [fn]) s0 i r chs.
Proof.
  intros Hb (pre & post & f & -> & H1 & H2 & H3 & H4). exists pre, post, f. split_and!; try done.
  - by apply lookup_app_l_Some.
  - rewrite after_app_fns; [done|]. intros j Hj. apply Hb. unfold called in *. rewrite elem_of_app. by left.
Qed.
Lemma pc_bound i pc a : pc_of i a = Some pc → (i < length (callers a))%nat.
Proof. unfold pc_of. destruct (callers a !! i) eqn:Hi; [|done]. intros _. by eapply lookup_lt_Some. Qed.

(** a caller that is not waiting for a reply moves on without having been run *)
Lemma move_inv s0 i pc pc' a : actor_inv s0 a → pc_of i a = Some pc → pc ∈ [Entering; Selecting] →
  pc' = Returned None ∨ (pc' = Selecting ∧ sc a ≠ None) → actor_inv s0 (set_pc i pc' a).
Proof.
  intros [H1 H2 H3 H4 H5] Hi Hpc Hpc'. assert (¬ called i (changes a)) as Hnc by (specialize (H3 _ _ Hi); set_solver).
  constructor; rewrite ?fns_of_set_pc; try done.
  - intros j Hj. simpl. rewrite length_alter. by apply H2.
  - intros j pcj. rewrite pc_of_set_pc. destruct (decide (i = j)) as [->|Hne]; [|apply H3]. rewrite Hi. intros [= <-].
    by destruct Hpc' as [->|[-> _]].
  - intros j Hj. specialize (H4 j Hj). rewrite pc_of_set_pc. destruct (decide (i = j)) as [->|Hne]; [|done]. rewrite Hi in H4. set_solver.
  - intros Hsc. destruct (H5 Hsc) as [Hl Hs]. split; [done|]. intros j. rewrite pc_of_set_pc. destruct (decide (i = j)) as [->|Hne]; [|apply Hs].
    rewrite Hi. destruct Hpc' as [->|[_ ?]]; done.
Qed.
Lemma new_call_inv s0 fn a : actor_inv s0 a → actor_inv s0 (new_call fn a).
Proof.
  intros [H1 H2 H3 H4 H5].
  assert (∀ i, called i (changes a) → (i < length (fns_of a))%nat) as Hb by (intros i Hi; unfold fns_of; rewrite length_fmap; auto).
  assert (fns_of (new_call fn a) = fns_of a ++ [fn]) as Hf by (unfold fns_of; simpl; by rewrite fmap_app).
  assert (∀ j pc, pc_of j (new_call fn a) = Some pc → pc_of j a = Some pc ∨ (j = length (callers a) ∧ pc = Entering)) as Hpc.
  { intros j pc. unfold pc_of. simpl. destruct (decide (j < length (callers a))%nat) as [Hlt|Hge].
    - rewrite lookup_app_l by done. auto.
    - rewrite lookup_app_r by lia. destruct (j - _)%nat eqn:Hj; [|done]. intros [= <-]. right. split; [lia|done]. }
  constructor; rewrite ?Hf; simpl.
  - by rewrite H1, after_app_fns.
  - intros i Hi%H2. rewrite length_app. lia.
  - intros i pc [Hi|[-> ->]]%Hpc.
    + specialize (H3 _ _ Hi). destruct pc as [| | |[r|]]; try done.
      * destruct H3 as [?|(r & Hl & Hr)]; [by left|]. right. exists r. split; [done|]. by apply ran_app_fns.
      * by apply ran_app_fns.
    + intros Hi%H2. lia.
  - intros i Hi. specialize (H4 i Hi). unfold pc_of in *. simpl. destruct (callers a !! i) eqn:Hc; [|done]. by erewrite lookup_app_l_Some.
  - intros Hsc. destruct (H5 Hsc) as [Hl Hs]. split; [done|]. intros i Hi. destruct (Hpc _ _ Hi) as [?|[_ ?]]; [by apply (Hs i)|done].
Qed.
Lemma send_inv s0 i a a' : actor_inv s0 a → select_send i a = Some a' → actor_inv s0 a'.
Proof.
  intros [H1 H2 H3 H4 H5] Hs. unfold select_send in Hs. destruct (pc_of i a) as [[| | |]|] eqn:Hi; try done. destruct (loop a) eqn:Hl; simplify_eq.
  assert (∀ j, pc_of j (set_loop (Executing i) (set_pc i AwaitReply a)) = pc_of j (set_pc i AwaitReply a)) as Hpc by done.
  constructor; simpl.
  - change (a_state a = after (fns_of (set_pc i AwaitReply a)) s0 (changes a)). by rewrite fns_of_set_pc.
  - intros j Hj. rewrite length_alter. by apply H2.
  - intros j pc. rewrite Hpc, pc_of_set_pc. change (fns_of (set_loop _ _)) with (fns_of (set_pc i AwaitReply a)). rewrite fns_of_set_pc.
    destruct (decide (i = j)) as [->|Hne].
    + rewrite Hi. intros [= <-]. left. split; [done|]. exact (H3 _ _ Hi).
    + intros Hj. specialize (H3 _ _ Hj). destruct pc as [| | |[r|]]; try done. exfalso. destruct H3 as [[? _]|(r & ? & _)]; congruence.
  - intros j [[= <-]|[r ?]]; [|done]. rewrite Hpc, pc_of_set_pc, decide_True by done. by rewrite Hi.
  - intros Hsc. by destruct (H5 Hsc) as [? _].
Qed.
Lemma execute_inv s0 a a' : actor_inv s0 a → execute a = Some a' → actor_inv s0 a'.
Proof.
  intros [H1 H2 H3 H4 H5] Hs. unfold execute in Hs. destruct (loop a) as [| |i|i r|] eqn:Hl; try done.
  destruct (callers a !! i) as [c|] eqn:Hc; simplify_eq/=. destruct (c_fn c (a_state a)) as [r s] eqn:Hr. simplify_eq.
  assert (pc_of i a = Some AwaitReply) as Hi by (apply H4; by left).
  assert (¬ called i (changes a)) as Hnc by (specialize (H3 _ _ Hi); simpl in H3; naive_solver).
  assert (fns_of a !! i = Some (c_fn c)) as Hf by (unfold fns_of; by rewrite list_lookup_fmap, Hc).
  assert (ran (fns_of a) s0 i r (changes a ++ [ByCall i])) as Hran.
  { exists (changes a), [], (c_fn c). split_and!; try done; [unfold called; set_solver|]. by rewrite <- H1, Hr. }
  constructor; simpl.
  - change (s = after (fns_of a) s0 (changes a ++ [ByCall i])). rewrite after_snoc. simpl. by rewrite Hf, <- H1, Hr.
  - intros j [Hj| [= ->]]%called_snoc; [by apply H2|]. by eapply lookup_lt_Some.
  - intros j pc Hj. change (fns_of _) with (fns_of a). destruct (decide (j = i)) as [->|Hne].
    + change (pc_of i a = Some pc) in Hj. rewrite Hi in Hj. injection Hj as <-. right. by exists r.
    + specialize (H3 _ _ Hj). assert (ByCall (S := S) i ≠ ByCall j) by congruence. destruct pc as [| | |[r'|]]; try (by apply not_called_snoc); [|by apply ran_snoc].
      exfalso. destruct H3 as [[? _]|(r' & ? & _)]; congruence.
  - intros j [?|[r' [= <- <-]]]; [done|]. exact Hi.
  - intros Hsc. by destruct (H5 Hsc) as [? _].
Qed.
Lemma reply_inv s0 a a' : actor_inv s0 a → reply a = Some a' → actor_inv s0 a'.
Proof.
  intros [H1 H2 H3 H4 H5] Hs. unfold reply in Hs. destruct (loop a) as [| |i|i r|] eqn:Hl; try done.
  destruct (pc_of i a) as [[| | |]|] eqn:Hi; simplify_eq.
  assert (ran (fns_of a) s0 i r (changes a)) as Hran by (specialize (H3 _ _ Hi); simpl in H3; naive_solver).
  assert (∀ pc j, pc_of j (set_loop Waiting (set_pc i pc a)) = pc_of j (set_pc i pc a)) as Hpc by done.
  constructor; simpl.
  - change (a_state a = after (fns_of (set_pc i (Returned (Some r)) a)) s0 (changes a)). by rewrite fns_of_set_pc.
  - intros j Hj. rewrite length_alter. by apply H2.
  - intros j pc. rewrite Hpc, pc_of_set_pc. change (fns_of (set_loop _ _)) with (fns_of (set_pc i (Returned (Some r)) a)). rewrite fns_of_set_pc.
    destruct (decide (i = j)) as [->|Hne].
    + rewrite Hi. intros [= <-]. done.
    + intros Hj. specialize (H3 _ _ Hj). destruct pc as [| | |[r'|]]; try done. exfalso. destruct H3 as [[? _]|(r' & ? & _)]; congruence.
  - intros j [?|[r' ?]]; done.
  - intros Hsc. by destruct (H5 Hsc) as [? _].
Qed.
(** the loop changes without a caller *)
Lemma loop_inv s0 l c a : actor_inv s0 a → l ∈ [NotStarted; Waiting; LoopEnded] → loop a ∈ [NotStarted; Waiting; LoopEnded] → (c = None → sc a = None ∧ l = loop a) →
  actor_inv s0 (mkActor c l (callers a) (a_state a) (changes a)).
Proof.
  intros [H1 H2 H3 H4 H5] Hl Hla Hc. constructor; simpl; try done.
  - intros j pc Hj. specialize (H3 _ _ Hj). destruct pc as [| | |[r|]]; try done. exfalso. destruct H3 as [[Hx _]|(r & Hx & _)]; rewrite Hx in Hla; set_solver.
  - intros j Hj. set_solver.
  - intros Hn. destruct (Hc Hn) as [Hs ->]. destruct (H5 Hs) as [Hx Hy]. split; [done|]. exact Hy.
Qed.
Lemma actor_event_inv s0 f a a' : actor_inv s0 a → loop_event f a = Some a' → actor_inv s0 a'.
Proof.
  intros [H1 H2 H3 H4 H5] Hs. unfold loop_event in Hs. destruct (loop a) eqn:Hl; simplify_eq. constructor; simpl.
  - change (f (a_state a) = after (fns_of a) s0 (changes a ++ [ByLoop f])). rewrite after_snoc. simpl. by rewrite <- H1.
  - intros j [Hj|?]%called_snoc; [by apply H2|done].
  - intros j pc Hj. change (fns_of _) with (fns_of a). specialize (H3 _ _ Hj). destruct pc as [| | |[r|]]; try (by apply not_called_snoc); [|by apply ran_snoc].
    exfalso. destruct H3 as [[? _]|(r & ? & _)]; congruence.
  - intros j [?|[r ?]]; done.
  - intros Hsc. by destruct (H5 Hsc) as [? _].
Qed.
Lemma actor_step_inv s0 a a' : actor_inv s0 a → actor_step a a' → actor_inv s0 a'.
Proof.
  intros Hinv [fn ->|i Hs|i Hs|i Hs|Hs|Hs|f Hs|Hn Hs|Hn Hs|Hs|Hs].
  - by apply new_call_inv.
  - unfold enter in Hs. destruct (pc_of i a) as [[| | |]|] eqn:Hi; simplify_eq. eapply move_inv; [done|done|set_solver|].
    destruct (sc a); [right|left]; done.
  - unfold select_done in Hs. destruct (pc_of i a) as [[| | |]|] eqn:Hi; try done. destruct (sc a) as [[]|]; simplify_eq.
    eapply move_inv; [done|done|set_solver|by left].
  - by eapply send_inv.
  - by eapply execute_inv.
  - by eapply reply_inv.
  - by eapply actor_event_inv.
  - unfold loop_begins in Hs. destruct (loop a) eqn:Hl; simplify_eq. apply loop_inv; rewrite ?Hl; set_solver.
  - unfold loop_ends in Hs. destruct (loop a) eqn:Hl; simplify_eq; apply loop_inv; rewrite ?Hl; set_solver.
  - unfold start in Hs. destruct (sc a) eqn:Hc; simplify_eq. destruct (ai_sc _ _ Hinv Hc) as [Hl _]. apply loop_inv; rewrite ?Hl; set_solver.
  - unfold cancel in Hs. destruct (sc a) eqn:Hc; simplify_eq. destruct Hinv as [H1 H2 H3 H4 H5]. by constructor.
Qed.
Lemma newActor_inv (s0 : S) : actor_inv (R := R) s0 (newActor s0).
Proof.
  constructor; simpl; try done.
  - intros i Hi. by apply elem_of_nil in Hi.
  - intros i [?|[r ?]]; done.
Qed.

(** C40. The state of a lifecycler is what the functions and the events of the loop
    make of it, one after the other.  A call that returns the result of its
    function has run it once, on the state at that time; a call that returns not
    running has not run it and never will.  No caller is left behind: one whose
    function was taken gets its reply from the loop, and when the loop has ended and
    the context is done every other one can return. *)
Theorem actor_correct (s0 : S) a : rtc actor_step (newActor s0) a →
  a_state a = after (fns_of a) s0 (changes a) ∧
  (∀ i r, pc_of i a = Some (Returned (Some r)) → ran (fns_of a) s0 i r (changes a)) ∧
  (∀ i, pc_of i a = Some (Returned None) → ∀ a', rtc actor_step a a' → pc_of i a' = Some (Returned None) ∧ ¬ called i (changes a')) ∧
  (∀ i, pc_of i a = Some AwaitReply → ∃ a1 a2 r, (execute a = Some a1 ∨ a1 = a) ∧ reply a1 = Some a2 ∧ pc_of i a2 = Some (Returned (Some r))) ∧
  (loop a = LoopEnded → sc a = Some true → ∀ i pc, pc_of i a = Some pc →
     (∃ a', enter i a = Some a') ∨ (∃ a', select_done i a = Some a') ∨ ∃ r, pc = Returned r).
Proof.
  intros Hr. assert (actor_inv s0 a) as Hinv.
  { revert Hr. generalize (newActor_inv s0). generalize (newActor (R := R) s0). intros a0 H0 Hr. induction Hr; [done|]. apply IHHr. by eapply actor_step_inv. }
  split_and!.
  - apply (ai_state _ _ Hinv).
  - intros i r Hi. exact (ai_pc _ _ Hinv _ _ Hi).
  - intros i Hi a' Hr'. assert (actor_inv s0 a' ∧ pc_of i a' = Some (Returned None)) as [Hinv' Hi'].
    { clear Hr. induction Hr' as [|a a1 a2 Hs Hr' IH]; [done|]. apply IH; [by eapply actor_step_inv|].
      assert (∀ j pc, i ≠ j → pc_of i (set_pc j pc a) = Some (Returned None)) as Hother by (intros j pc Hij; rewrite pc_of_set_pc, decide_False by done; done).
      assert (∀ j, pc_of j a ≠ Some (Returned None) → i ≠ j) as Hne by (intros j Hj ->; done).
      destruct Hs as [fn ->|j Hs|j Hs|j Hs|Hs|Hs|f Hs|_ Hs|_ Hs|Hs|Hs].
      - unfold pc_of in *. simpl. destruct (callers a !! i) eqn:Hc; [|done]. by erewrite lookup_app_l_Some.
      - unfold enter in Hs. destruct (pc_of j a) as [[| | |]|] eqn:Hj; simplify_eq. apply Hother, Hne. by rewrite Hj.
      - unfold select_done in Hs. destruct (pc_of j a) as [[| | |]|] eqn:Hj; try done. destruct (sc a) as [[]|]; simplify_eq. apply Hother, Hne. by rewrite Hj.
      - unfold select_send in Hs. destruct (pc_of j a) as [[| | |]|] eqn:Hj; try done. destruct (loop a); simplify_eq. apply Hother, Hne. by rewrite Hj.
      - unfold execute in Hs. destruct (loop a); try done. destruct (callers a !! _); simplify_eq/=. destruct (c_fn _ _). by simplify_eq.
      - unfold reply in Hs. destruct (loop a) as [| | |j r|]; try done. destruct (pc_of j a) as [[| | |]|] eqn:Hj; simplify_eq. apply Hother, Hne. by rewrite Hj.
      - unfold loop_event in Hs. destruct (loop a); by simplify_eq.
      - unfold loop_begins in Hs. destruct (loop a); by simplify_eq.
      - unfold loop_ends in Hs. destruct (loop a); by simplify_eq.
      - unfold start in Hs. destruct (sc a); by simplify_eq.
      - unfold cancel in Hs. destruct (sc a); by simplify_eq. }
    split; [done|]. exact (ai_pc _ _ Hinv' _ _ Hi').
  - intros i Hi. assert (∃ c, callers a !! i = Some c) as [c Hc] by (unfold pc_of in Hi; destruct (callers a !! i); [by eexists|done]).
    assert (∀ a1 r, loop a1 = Replying i r → pc_of i a1 = Some AwaitReply → ∃ a2, reply a1 = Some a2 ∧ pc_of i a2 = Some (Returned (Some r))) as Hreply.
    { intros a1 r Hl Hp. unfold reply. rewrite Hl, Hp. eexists. split; [done|]. change (pc_of i (set_pc i (Returned (Some r)) a1) = Some (Returned (Some r))).
      rewrite pc_of_set_pc, decide_True by done. by rewrite Hp. }
    destruct (ai_pc _ _ Hinv _ _ Hi) as [[Hl _]|(r & Hl & _)].
    + unfold execute. rewrite Hl, Hc. simpl. destruct (c_fn c (a_state a)) as [r s] eqn:Hf.
      destruct (Hreply (mkActor (sc a) (Replying i r) (callers a) s (changes a ++ [ByCall i])) r) as (a2 & H1 & H2); [done|exact Hi|].
      eexists _, a2, r. split; [by left|]. done.
    + destruct (Hreply a r Hl Hi) as (a2 & H1 & H2). exists a, a2, r. split; [by right|]. done.
  - intros Hl Hsc i pc Hi. destruct pc as [| | |r].
    + left. unfold enter. rewrite Hi. by eexists.
    + right; left. unfold select_done. rewrite Hi, Hsc. by eexists.
    + exfalso. destruct (ai_pc _ _ Hinv _ _ Hi) as [[? _]|(r & ? & _)]; congruence.
    + right; right. by exists r.
Qed.
(** the loop does not take a function while it runs one: a call from within waits
    until the context is done *)
Lemma nested_call_blocks i j a : loop a = Executing i → sc a = Some false → select_send j a = None ∧ select_done j a = None.
Proof.
  intros Hl Hs. unfold select_send, select_done. rewrite Hl, Hs. by destruct (pc_of j a) as [[| | |]|].
Qed.
End facts.

(** ** Witness *)
Definition ex_fn (n : nat) : nat → nat * nat := λ s, (s, (s + n)%nat).
Definition ex_started : actor nat nat := mkActor (Some false) Waiting [mkCaller (ex_fn 5) Selecting; mkCaller (ex_fn 7) Entering] 1%nat [].
Lemma ex_started_reachable : rtc actor_step (newActor 1%nat) ex_started.
Proof.
  eapply rtc_l; [eapply s_start; reflexivity|]. eapply rtc_l; [eapply s_begins; [|reflexivity]; done|].
  eapply rtc_l; [eapply (s_call _ _ (ex_fn 5)); reflexivity|]. eapply rtc_l; [eapply (s_call _ _ (ex_fn 7)); reflexivity|].
  eapply rtc_l; [eapply (s_enter _ _ 0%nat); reflexivity|]. apply rtc_refl.
Qed.
Definition ex_ended : actor nat nat :=
  mkActor (Some true) LoopEnded [mkCaller (ex_fn 5) (Returned (Some 1%nat)); mkCaller (ex_fn 7) (Returned None)] 6%nat [ByCall 0%nat].
Lemma ex_ended_reachable : rtc actor_step (newActor 1%nat) ex_ended.
Proof.
  etrans; [exact ex_started_reachable|]. eapply rtc_l; [eapply (s_send _ _ 0%nat); reflexivity|]. eapply rtc_l; [eapply s_execute; reflexivity|].
  eapply rtc_l; [eapply s_reply; reflexivity|]. eapply rtc_l; [eapply (s_enter _ _ 1%nat); reflexivity|]. eapply rtc_l; [eapply s_ends; [|reflexivity]; done|].
  eapply rtc_l; [eapply s_cancel; reflexivity|]. eapply rtc_l; [eapply (s_done _ _ 1%nat); reflexivity|]. apply rtc_refl.
Qed.
Lemma actor_correct_witness : a_state ex_ended = 6%nat ∧ ran (fns_of ex_ended) 1%nat 0%nat 1%nat (changes ex_ended) ∧ ¬ called 1%nat (changes ex_ended).
Proof.
  destruct (actor_correct 1%nat ex_ended ex_ended_reachable) as (H1 & H2 & H3 & _). split; [exact H1|]. split; [apply H2; reflexivity|].
  apply (H3 1%nat eq_refl ex_ended). apply rtc_refl.
Defined.
