(* ===== verification/ServiceUtil.v ===== *)
(** * Groups of services and their health: [grpcutil/health_check.go], the rest of
      [services/manager.go] and [services/services.go]

    The gRPC health check answers from the states the manager knows; starting and
    stopping a group calls its services one after the other.  Listeners made of
    functions, names and descriptions of services. *)
From Stdlib Require Import ZArith Lia.
From stdpp Require Import base gmap strings list option relations.
From S2P Require Import Prelude GoStrings Services ServicesFacts Manager.

(** ** [services/service.go] *)
Definition State_String (s : State) : string :=
  match s with
  | New => "New" | Starting => "Starting" | Running => "Running" | Stopping => "Stopping" | Terminated => "Terminated" | Failed => "Failed"
  end.
Lemma State_String_inj : Inj (=) (=) State_String.
Proof. by intros [] []. Qed.

(** ** Names of services *)
Record named (Sv : Type) := mkNamed { n_service : Sv; serviceName : string }.
Arguments mkNamed {Sv}.
Arguments n_service {Sv}.
Arguments serviceName {Sv}.
Definition WithName {E} (name : string) (b : named (service E)) : named (service E) :=
  if bool_decide (svc_state (n_service b) ≠ New) then b else mkNamed (n_service b) name.
Definition ServiceName {E} (b : named (service E)) : string := serviceName b.
(** [name]: of a service that has a method for it; [printed]: by [%v] *)
Definition DescribeService (name : option string) (printed : string) : string :=
  let n := default ""%string name in if bool_decide (n = ""%string) then printed else n.
Lemma name_kept {E} n1 n2 (b : named (service E)) : svc_state (n_service b) ≠ New → ServiceName (WithName n2 (WithName n1 b)) = ServiceName b.
Proof. intros Hs. unfold WithName. by rewrite !(bool_decide_eq_true_2 (svc_state (n_service b) ≠ New)). Qed.

(** ** Listeners made of functions *)
Section listeners.
Context {E X : Type}.
(** functions on some state [X] of the program; [None] is [nil] *)
Record funcBasedListener := mkFuncBasedListener {
  startingFn : option (X → X);
  runningFn : option (X → X);
  stoppingFn : option (State → X → X);
  terminatedFn : option (State → X → X);
  failedFn : option (State → E → X → X)
}.
Definition func_on (f : funcBasedListener) (e : event E) (x : X) : X :=
  match e with
  | OnStarting => match startingFn f with Some g => g x | None => x end
  | OnRunning => match runningFn f with Some g => g x | None => x end
  | OnStopping from => match stoppingFn f with Some g => g from x | None => x end
  | OnTerminated from => match terminatedFn f with Some g => g from x | None => x end
  | OnFailed from failure => match failedFn f with Some g => g from failure x | None => x end
  end.
Record funcBasedManagerListener := mkFuncBasedManagerListener {
  healthyFn : option (X → X);
  stoppedFn : option (X → X);
  failureFn : option (nat → X → X)
}.
Definition func_manager_on (f : funcBasedManagerListener) (e : manager_event) (x : X) : X :=
  match e with
  | OnHealthy => match healthyFn f with Some g => g x | None => x end
  | OnStopped => match stoppedFn f with Some g => g x | None => x end
  | OnFailure service => match failureFn f with Some g => g service x | None => x end
  end.
End listeners.

(** ** Starting and stopping a group *)
Section group.
Context {E : Type}.
(** the error of the first service that is not new, with the services; [None]: a
    panic *)
Fixpoint Manager_StartAsync (l : list (service E)) : option (list (service E) * option State) :=
  match l with
  | [] => Some ([], None)
  | s :: l =>
      match StartAsync s with
      | inl st => Some (s :: l, Some st)
      | inr None => None
      | inr (Some s) => '(l, err) ← Manager_StartAsync l; Some (s :: l, err)
      end
  end.
(** each call goes on by itself once it has looked at the state *)
Definition Manager_StopAsync (l : list (service E)) : list (service E) := stop_check <$> l.
(** [AwaitHealthy] under a context, after a [StartAsync] that returned [err] *)
Definition StartManagerAndAwaitHealthy (err : option State) (ctxDone : bool) (m : Manager) : option (option (await_error + nat * nat)) :=
  match err with
  | Some st => Some (Some (inl (InvalidState (E := nat) st New None)))
  | None =>
      if ctxDone then Some (Some (inl ContextErr))
      else match AwaitHealthy m with None => None | Some None => Some None | Some (Some counts) => Some (Some (inr counts)) end
  end.
Definition StopManagerAndAwaitStopped (ctxDone : bool) (m : Manager) : option (option (await_error (E := nat))) :=
  if ctxDone then Some (Some ContextErr) else match AwaitStopped m with None => None | Some _ => Some None end.

(** The services of a group that are all new are all starting afterwards; the first
    one that is not stops the loop, and those before it have been started. *)
Lemma Manager_StartAsync_spec (l : list (service E)) : (∀ s, s ∈ l → service_reachable s) →
  ∃ l' err, Manager_StartAsync l = Some (l', err) ∧ length l' = length l ∧
    (err = None ↔ Forall (λ s, svc_state s = New) l) ∧
    (∀ st, err = Some st → ∃ i s, l !! i = Some s ∧ svc_state s = st ∧ st ≠ New ∧
       (∀ j, (j < i)%nat → svc_state <$> l' !! j = Some Starting) ∧ (∀ j, (i ≤ j)%nat → l' !! j = l !! j)) ∧
    (err = None → Forall (λ s, svc_state s = Starting) l').
Proof.
  induction l as [|s l IH]; intros Hr; [by exists [], None|]. destruct IH as (l' & err & Hl & Hlen & Hnone & Hsome & Hall); [intros; apply Hr; by right|].
  simpl. unfold StartAsync, switchState. case_bool_decide as Hs.
  - exists (s :: l), (Some (svc_state s)). split_and!; try done.
    + split; [done|]. intros Hf%Forall_cons_1. naive_solver.
    + intros st [= <-]. exists 0%nat, s. split_and!; try done. intros j Hj. lia.
  - assert (svc_state s = New) as HN by by destruct (decide (svc_state s = New)). simpl.
    assert (∃ ls, notifyListeners OnStarting false (listeners s) = Some ls) as [ls Hls].
    { pose proof (bi_listeners _ (si_base _ (reachable_inv s (Hr s ltac:(by left))))) as Hb. rewrite HN in Hb.
      destruct (notify_ok New OnStarting (listeners s) Hb eq_refl eq_refl) as (ls & Hls & _). by exists ls. }
    rewrite Hls. simpl. rewrite Hl. simpl. eexists _, err. split; [done|]. split; [simpl; lia|]. split_and!.
    + rewrite Forall_cons. naive_solver.
    + intros st ->. destruct (Hsome st eq_refl) as (i & s' & Hi & H1 & H2 & H3 & H4). exists (S i), s'. split_and!; try done.
      * intros [|j] Hj; [done|]. apply H3. lia.
      * intros [|j] Hj; [lia|]. apply H4. lia.
    + intros ->. constructor; [done|]. by apply Hall.
Qed.
End group.

(** ** [ServicesByState] and the health check *)
(** a copy of the lists *)
Definition ServicesByState (m : Manager) : gmap State (list nat) := byState m.
Inductive serving_status := NOT_SERVING | SERVING.
Definition isHealthy (m : Manager) : bool :=
  let states := ServicesByState m in
  let count st := length (default [] (states !! st)) in
  if bool_decide (0 < count New)%nat || bool_decide (0 < count Starting)%nat || bool_decide (0 < count Failed)%nat then false
  else bool_decide (0 < count Running)%nat || bool_decide (0 < count Stopping)%nat.
Definition Check_ (m : Manager) : serving_status := if negb (isHealthy m) then NOT_SERVING else SERVING.
(** a code of gRPC *)
Definition Unimplemented : Z := 12.
Definition Watch_ : Z * string := (Unimplemented, "Watching is not supported"%string).

Lemma view_count_some m view st : byState_ok m view → (0 < length (default [] (byState m !! st)))%nat ↔ some_is (λ x, bool_decide (x = st)) view.
Proof.
  intros Hb. fold (in_list st m). unfold some_is. split.
  - destruct (in_list st m) as [|i l] eqn:Hl; [simpl; lia|]. intros _. exists i, st. split; [|by apply bool_decide_eq_true].
    apply (bs_elem _ _ Hb). rewrite Hl. by left.
  - intros (i & x & Hi & Hx%bool_decide_eq_true). subst. apply (bs_elem _ _ Hb) in Hi. destruct (in_list st m); [by apply elem_of_nil in Hi|simpl; lia].
Qed.

(** A process whose services have reported their transitions, in any
    interleaving, answers its health check with serving exactly when all of them
    have started and none has failed, and at least one has not terminated: services
    that are stopping are still serving. *)
Theorem health_check_correct {E : Type} (n : nat) (l : list (manager_input E)) (finals : list State) :
  (0 < n)%nat → length finals = n → (∀ s e, Reports s e ∈ l → (s < n)%nat) →
  (∀ s st, finals !! s = Some st → path New (reported s l) st) →
  ∃ m, (NewManager (replicate n New) ≫= run_manager l) = Some m ∧
    (Check_ m = SERVING ↔
       Forall (λ st, st = Running ∨ st = Stopping ∨ st = Terminated) finals ∧ ¬ Forall (λ st, st = Terminated) finals).
Proof.
  intros Hn Hlen Hlt Hp. destruct (NewManager_inv n Hn) as (m0 & -> & Hi0 & _). cbn [mbind option_bind].
  destruct (run_manager_ok l m0 (replicate n New) finals Hi0) as (m & -> & Hi).
  { by rewrite length_replicate. }
  { by rewrite length_replicate. }
  { intros s st st' [-> _]%lookup_replicate. apply Hp. }
  exists m. split; [done|]. pose proof (mi_byState _ _ Hi) as Hb.
  assert (Check_ m = SERVING ↔ isHealthy m = true) as -> by (unfold Check_; by destruct (isHealthy m)).
  assert (∀ st, bool_decide (0 < length (default [] (byState m !! st)))%nat = true ↔ st ∈ finals) as Hst.
  { intros st. rewrite bool_decide_eq_true, (view_count_some _ _ _ Hb), list_elem_of_lookup. unfold some_is. setoid_rewrite bool_decide_eq_true. naive_solver. }
  unfold isHealthy, ServicesByState. rewrite !Forall_forall.
  assert (∀ st, bool_decide (0 < length (default [] (byState m !! st)))%nat = bool_decide (st ∈ finals)) as Hst'.
  { intros st. specialize (Hst st). destruct (bool_decide (0 < _)%nat); symmetry; [by apply bool_decide_eq_true, Hst|].
    apply bool_decide_eq_false. intros Hin%Hst. done. }
  cbv zeta. rewrite !Hst'. split.
  - destruct (bool_decide (New ∈ finals)) eqn:H1, (bool_decide (Starting ∈ finals)) eqn:H2, (bool_decide (Failed ∈ finals)) eqn:H3; try done.
    apply bool_decide_eq_false in H1, H2, H3. simpl. intros [H4%bool_decide_eq_true|H4%bool_decide_eq_true]%orb_true_iff; (split; [|intros Ha; by specialize (Ha _ H4)]);
      intros x Hx; destruct x; auto; done.
  - intros [Ha Hb']. assert (New ∉ finals ∧ Starting ∉ finals ∧ Failed ∉ finals) as (H1 & H2 & H3).
    { split_and!; intros Hx; by destruct (Ha _ Hx) as [?|[?|?]]. }
    rewrite (bool_decide_eq_false_2 (New ∈ _)), (bool_decide_eq_false_2 (Starting ∈ _)), (bool_decide_eq_false_2 (Failed ∈ _)) by done. simpl.
    apply orb_true_iff. rewrite !bool_decide_eq_true. destruct (decide (Running ∈ finals)); [by left|]. destruct (decide (Stopping ∈ finals)); [by right|].
    exfalso. apply Hb'. intros x Hx. destruct (Ha x Hx) as [->|[->| ->]]; done.
Qed.

(** ** Witness *)
Definition ex_stopping : list (manager_input nat) :=
  [Reports 0 OnStarting; Reports 1 OnStarting; Reports 0 OnRunning; Reports 1 OnRunning; Reports 0 (OnStopping Running); Reports 0 (OnTerminated Stopping);
   Reports 1 (OnStopping Running)].
Lemma health_check_correct_witness :
  ∃ m, (NewManager (replicate 2 New) ≫= run_manager ex_stopping) = Some m ∧ Check_ m = SERVING.
Proof.
  destruct (health_check_correct 2 ex_stopping [Terminated; Stopping]) as (m & Hm & Hc); [lia|done| | |].
  - intros s e Hin. unfold ex_stopping in Hin. rewrite !elem_of_cons, elem_of_nil in Hin. naive_solver lia.
  - intros [|[|s]] st [= <-]; by repeat split.
  - exists m. split; [exact Hm|]. apply Hc. split; [apply Forall_cons_2; [auto|]; apply Forall_cons_2; [auto|]; constructor|]. intros Ha. apply Forall_cons_1 in Ha as [_ Ha]. by apply Forall_cons_1 in Ha as [? _].
Defined.
