(* ===== verification/Startup.v ===== *)
(** * Construction of lifecyclers and rings: [NewLifecycler], [ring.New]

    Both make a key-value client of their own from the same configuration; the
    interfaces of the host and what the constructors of the stores return are
    parameters. *)
From Stdlib Require Import ZArith Lia.
From stdpp Require Import base gmap strings list.
From S2P Require Import Prelude GoStrings KVFactory Model Ring RingUtil TokensFile KV Lifecycler.

(** the fields of the configuration that only the constructor reads *)
Record LifecyclerSettings := mkLifecyclerSettings {
  set_Addr : string;
  InfNames : list string;
  set_Port : Z;
  ListenPort : Z;
  set_ID : string;
  set_Zone : string;
  UnregisterOnShutdown : bool;
  KVStore : KVFactory.Config;
  lifecycler_cfg : LifecyclerConfig
}.
Definition ringCodec : string := "ringDesc".
(** [GetCodec] *)
Definition GetCodec : string := ringCodec.
(** a [nil] transferer is replaced *)
Inductive FlushTransferer := NoopFlushTransferer | GivenFlushTransferer.
Inductive startup_error := ErrAddr (e : addr_error) | ErrClient (e : string) | ErrReplicationFactor.

Section startup.
Context (InterfaceByName : string → option (option (list net_addr))) (env : constructors) (reg : bool).

Definition NewLifecycler (cfg : LifecyclerSettings) (flushTransferer : option FlushTransferer) (flushOnShutdown : bool) (disk : FileSystem) (p : option string)
    : option (option string * result startup_error (Lifecycler * client * FlushTransferer)) :=
  match GetInstanceAddr InterfaceByName (set_Addr cfg) (InfNames cfg) with
  | Err err => Some (p, Err (ErrAddr err))
  | Ok addr =>
      let port := GetInstancePort (set_Port cfg) (ListenPort cfg) in
      '(p, res) ← NewClient (KVStore cfg) env GetCodec reg p;
      match res with
      | Err err => Some (p, Err (ErrClient err))
      | Ok store =>
          let transferer := default NoopFlushTransferer flushTransferer in
          Some (p, Ok (mkLifecycler (lifecycler_cfg cfg) (set_ID cfg) (addr ++ ":" ++ Itoa port)%string (set_Zone cfg) flushOnShutdown
                         (UnregisterOnShutdown cfg) PENDING [] zeroTime false zeroTime 0 0 disk, store, transferer))
      end
  end.
Definition New (cfg : Ring.Config) (kv : KVFactory.Config) (p : option string) : option (option string * result startup_error (Ring * client)) :=
  '(p, res) ← NewClient kv env GetCodec reg p;
  match res with
  | Err err => Some (p, Err (ErrClient err))
  | Ok store =>
      match NewWithStoreClientAndStrategy cfg defaultReplicationStrategy_Filter with
      | None => Some (p, Err ErrReplicationFactor)
      | Some r => Some (p, Ok (r, store))
      end
  end.

(** A lifecycler is made unless its host has no address or its client cannot be
    made; it is pending, without tokens, under the address it advertises. *)
Lemma NewLifecycler_spec cfg ft flush disk p : has_Mock (KVStore cfg) = false →
  ∃ p' res, NewLifecycler cfg ft flush disk p = Some (p', res) ∧
    match res with
    | Ok (l, store, t) =>
        state l = PENDING ∧ tokens l = [] ∧ ready l = false ∧ time_IsZero (registeredAt l) = true ∧ ID l = set_ID cfg ∧ lc_Zone l = set_Zone cfg ∧
        (∃ addr, GetInstanceAddr InterfaceByName (set_Addr cfg) (InfNames cfg) = Ok addr ∧
           lc_Addr l = (addr ++ ":" ++ Itoa (if bool_decide (0 < set_Port cfg) then set_Port cfg else ListenPort cfg))%string) ∧
        (t = NoopFlushTransferer ↔ ft = None ∨ ft = Some NoopFlushTransferer)
    | Err (ErrAddr e) => set_Addr cfg = ""%string ∧ getFirstAddressOf InterfaceByName (InfNames cfg) = Err e
    | Err (ErrClient e) => ∃ p', NewClient (KVStore cfg) env GetCodec reg p = Some (p', Err e)
    | Err ErrReplicationFactor => False
    end.
Proof.
  intros Hm. unfold NewLifecycler. destruct (GetInstanceAddr _ _ _) as [addr|e] eqn:Ha.
  - destruct (NewClient_correct (KVStore cfg) env GetCodec reg p) as (p' & res & Hc & _). rewrite Hc. simpl. destruct res as [store|e].
    + eexists _, _. split; [done|]. simpl. split_and!; try done; [by exists addr|]. destruct ft as [[]|]; simpl; naive_solver.
    + eexists _, _. split; [done|]. simpl. by exists p'.
  - eexists _, _. split; [done|]. simpl. unfold GetInstanceAddr in Ha. case_bool_decide as He; [done|]. split; [|done].
    by destruct (decide (set_Addr cfg = ""%string)).
Qed.
(** With the in-memory store, a lifecycler and a ring of one process are on the
    same store. *)
Lemma inmemory_shared cfg rcfg ft flush disk p p1 p2 l c1 t r c2 :
  Store (KVStore cfg) = "inmemory"%string → has_Mock (KVStore cfg) = false →
  NewLifecycler cfg ft flush disk p = Some (p1, Ok (l, c1, t)) → New rcfg (KVStore cfg) p1 = Some (p2, Ok (r, c2)) →
  (stores c1).*1.*1 = (stores c2).*1.*1 ∧ (p ≠ None → p1 = p) ∧ p2 = p1.
Proof.
  intros Hs Hm H1 H2. unfold NewLifecycler, New, NewClient in *. rewrite Hm, Hs in *. destruct (GetInstanceAddr _ _ _) as [addr|]; [|done].
  cbn -[stores wrap NewWithStoreClientAndStrategy] in H1, H2. injection H1 as <- <- <- <-. destruct (NewWithStoreClientAndStrategy _ _); [|done].
  injection H2 as <- <- <-. rewrite !stores_wrap. split; [done|]. split; [|done]. intros Hp. by destruct p.
Qed.
End startup.
