(* ===== verification/RunUtil.v ===== *)
(** * Small parts: [runutil/runutil.go], [concurrency/buffer.go], [kv/codec/codec.go],
      and what [kv/consul] and [kv/etcd] put around their libraries *)
From Stdlib Require Import ZArith Lia.
From stdpp Require Import base gmap strings list option.
From S2P Require Import Prelude TokensFile GRPCClient Runner CASLoop Consul.

(** ** [runutil] *)
Section close.
(** [errors.Wrap] of an error that is not [nil] *)
Context {B : Type} (Wrap : string → error B → B) (is_ErrClosed : error B → bool).
Definition wrap_error (msg : string) (err : option (error B)) : option (error B) := (λ e, EBase (Wrap msg e)) <$> err.
(** the error variable afterwards; [closed] is what [Close] returned *)
Definition CloseWithErrCapture (err closed : option (error B)) (msg : string) : option (error B) :=
  Runner.Err (Runner.New [err; wrap_error msg closed]).
(** whether a warning is logged *)
Definition CloseWithLogOnErr (closed : option (error B)) : bool :=
  match closed with None => false | Some err => negb (is_ErrClosed err) end.
(** An error is lost neither of the work nor of closing, and none is made up; the
    errors of a multi error stay apart. *)
Lemma CloseWithErrCapture_spec err closed msg : err ≠ Some (EMulti []) →
  CloseWithErrCapture err closed msg =
    match match err with None => [] | Some (EMulti es) => es | Some e => [e] end ++ match closed with None => [] | Some e => [EBase (Wrap msg e)] end with
    | [] => None
    | es => Some (EMulti es)
    end ∧
  (CloseWithErrCapture err closed msg = None ↔ err = None ∧ closed = None).
Proof.
  intros He. unfold CloseWithErrCapture, Runner.New, Runner.Err. destruct err as [[b| |[|e es]]|], closed as [e'|]; simpl; rewrite ?app_nil_r; try done; split; try done; by split; [|intros [? ?]].
Qed.
End close.

(** ** [SyncBuffer] *)
(** writes are atomic: the buffer is the data of the writes, in some order *)
Definition SyncBuffer_Write (p : bytes) (sb : bytes) : bytes * Z := (sb ++ p, Z.of_nat (length p)).
Definition SyncBuffer_String (sb : bytes) : bytes := sb.
Lemma SyncBuffer_writes (ps : list bytes) : SyncBuffer_String (foldl (λ sb p, (SyncBuffer_Write p sb).1) [] ps) = concat ps.
Proof.
  unfold SyncBuffer_String. assert (∀ acc, foldl (λ sb p, (SyncBuffer_Write p sb).1) acc ps = acc ++ concat ps) as ->; [|done].
  induction ps as [|p ps IH]; intros acc; simpl; [by rewrite app_nil_r|]. rewrite IH. by rewrite <- app_assoc.
Qed.

(** ** The codec of protocol buffers *)
Section proto.
(** [proto.Marshal] and [Unmarshal] into a fresh message, [snappy.Encode] and
    [Decode] *)
Context {M : Type} (Marshal : M → option bytes) (Unmarshal : bytes → option M) (snappy_Encode : bytes → bytes) (snappy_Decode : bytes → option bytes).
Definition Proto_Decode (b : bytes) : option M := b ← snappy_Decode b; Unmarshal b.
Definition Proto_Encode (msg : M) : option bytes := b ← Marshal msg; Some (snappy_Encode b).
Definition Proto : Codec M := {| codec_Decode := Proto_Decode; codec_Encode := Proto_Encode |}.
(** the codec has the round trip its users need when the libraries have theirs *)
Lemma Proto_roundtrip : (∀ b, snappy_Decode (snappy_Encode b) = Some b) → (∀ m b, Marshal m = Some b → Unmarshal b = Some m) → codec_roundtrip Proto.
Proof.
  intros Hs Hp m b. simpl. unfold Proto_Encode, Proto_Decode. destruct (Marshal m) as [b'|] eqn:Hm; [|done]. intros [= <-]. simpl.
  rewrite Hs. simpl. by apply Hp.
Qed.
End proto.

(** ** Consul *)
(** [Put], for tests: [None] is the error of the encoder *)
Definition consul_Put {V} `{Codec V} (key : string) (value : V) (m : mockKV) : option mockKV :=
  b ← codec_Encode value; Some (mock_Put key b m).
Lemma consul_Put_read {V} `{C : Codec V} key (value : V) m m' : codec_roundtrip C → consul_Put key value m = Some m' →
  ∃ p, kvps m' !! key = Some p ∧ codec_Decode (pair_Value p) = Some value.
Proof.
  intros Hc. unfold consul_Put. destruct (codec_Encode value) as [b|] eqn:He; [|done]. intros [= <-].
  unfold mock_Put, mock_write. destruct (kvps m !! key); simpl; rewrite lookup_insert_eq; eexists; (split; [done|]); simpl; by apply Hc.
Qed.
(** [consulInstrumentation]: a request is recorded by its name and the code of its
    error, and returns what it returns *)
Definition instrumented {A Err} (ErrorCode : option Err → string) (operation : string) (request : A * option Err) : (A * option Err) * (string * string) :=
  (request, (operation, ErrorCode request.2)).

(** ** etcd *)
Record TLSInfo := mkTLSInfo { CertFile : string; KeyFile : string; TrustedCAFile : string; info_ServerName : string; info_InsecureSkipVerify : bool }.
(** [ClientConfig] of the etcd library; [Ok None] is [nil] *)
Definition GetTLS {T} (library_ClientConfig : TLSInfo → result string T) (EnableTLS : bool) (tls : ClientConfig) : result string (option T) :=
  if negb EnableTLS then Ok None
  else
    match library_ClientConfig (mkTLSInfo (CertPath tls) (KeyPath tls) (CAPath tls) (ServerName tls) (InsecureSkipVerify tls)) with
    | Prelude.Err err => Prelude.Err err
    | Ok c => Ok (Some c)
    end.
Record etcd_config (T : Type) := mkEtcdConfig {
  Endpoints : list string;
  DialTimeout : Z;
  DialKeepAliveTime : Z;
  DialKeepAliveTimeout : Z;
  PermitWithoutStream : bool;
  etcd_TLS : option T;
  Username : string;
  Password : string
}.
Arguments mkEtcdConfig {T}.
Definition etcd_New {T Cli} (library_ClientConfig : TLSInfo → result string T) (clientv3_New : etcd_config T → result string Cli)
    (endpoints : list string) (dialTimeout : Z) (EnableTLS : bool) (tls : ClientConfig) (username password : string) : result string Cli :=
  match GetTLS library_ClientConfig EnableTLS tls with
  | Prelude.Err err => Prelude.Err ("unable to initialise TLS configuration for etcd: " ++ err)%string
  | Ok tlsConfig => clientv3_New (mkEtcdConfig endpoints dialTimeout (10 * Second) (i64 (2 * dialTimeout)) true tlsConfig username password)
  end.
(** passwords and certificates are used as configured; without TLS the library is
    not asked for a configuration *)
Lemma etcd_New_plain {T Cli} lib1 lib2 (new : etcd_config T → result string Cli) es d tls u p :
  etcd_New lib1 new es d false tls u p = etcd_New lib2 new es d false tls u p.
Proof. done. Qed.
