(* ===== verification/ReadWrite.v ===== *)
(** * Reads after writes: [Get] for two operations, and who acknowledges

    [Write] extends the replicas of a key where [Read] does not: the walk of a
    read stops earlier and skips the zones of the instances that are LEAVING.  How
    much the two sets of replicas differ, and when the quorum of a read meets every
    quorum of a write; and who has acknowledged a batch that has succeeded. *)
From Stdlib Require Import ZArith Lia.
From stdpp Require Import base gmap strings list sorting fin_maps relations fin_sets.
From S2P Require Import Prelude Model ModelFacts Ring RingFacts GetFacts QuorumFacts Batch BatchFacts.

Lemma filter_split_length {A} (P Q : A → Prop) `{∀ x, Decision (P x), ∀ x, Decision (Q x)} (l : list A) :
  length (filter P l) = (length (filter (λ x, P x ∧ Q x) l) + length (filter (λ x, P x ∧ ¬ Q x) l))%nat.
Proof.
  induction l as [|x l IH]; [done|]. rewrite !filter_cons. destruct (decide (P x)), (decide (Q x)); simpl;
    repeat (case_decide; try tauto); simpl; lia.
Qed.
Lemma filter_le_length {A} (P Q : A → Prop) `{∀ x, Decision (P x), ∀ x, Decision (Q x)} (l : list A) :
  (∀ x, x ∈ l → P x → Q x) → (length (filter P l) ≤ length (filter Q l))%nat.
Proof.
  induction l as [|x l IH]; intros HPQ; [done|]. rewrite !filter_cons.
  assert (length (filter P l) ≤ length (filter Q l))%nat by (apply IH; intros y Hy; apply HPQ; by right).
  specialize (HPQ x ltac:(by left)). do 2 case_decide; simpl; try lia. tauto.
Qed.
Lemma filter_app_length {A} (P : A → Prop) `{∀ x, Decision (P x)} (l l1 l2 : list A) :
  l ≡ₚ l1 ++ l2 → length (filter P l) = (length (filter P l1) + length (filter P l2))%nat.
Proof. intros ->. by rewrite filter_app, length_app. Qed.
Lemma filter_fmap_length {A B} (f : A → B) (P : B → Prop) `{∀ x, Decision (P x)} (l : list A) :
  length (filter P (f <$> l)) = length (filter (λ x, P (f x)) l).
Proof. induction l as [|x l IH]; [done|]. rewrite fmap_cons, !filter_cons. case_decide; simpl; by rewrite IH. Qed.
Lemma NoDup_incl_length {A} `{EqDecision A} (l l' : list A) : NoDup l → (∀ x, x ∈ l → x ∈ l') → (length l ≤ length l')%nat.
Proof. intros Hl Hsub. by apply submseteq_length, NoDup_submseteq. Qed.

Section two_ops.
Context `{R : MapRange} (r : subring) (opw opr : Operation).
Hypothesis opw_extends_more : ∀ s,
  ShouldExtendReplicaSetOnState opr s = true → ShouldExtendReplicaSetOnState opw s = true.

(** an instance that extends the set of the write only: for [Write] and [Read],
    one that is LEAVING *)
Definition extends_write_only (h : string) : Prop := extends r opw h ∧ ¬ extends r opr h.
#[export] Instance extends_write_only_dec h : Decision (extends_write_only h).
Proof. unfold extends_write_only. apply _. Defined.
Definition write_only (hosts : list string) : nat := length (filter extends_write_only hosts).
(** the instances a write may select that count for its replication factor *)
Definition counted (hosts : list string) : nat := length (filter (λ h, ¬ extends r opw h) hosts).

(** [Get_walk] selecting the owner of a token *)
Definition walk_add (op : Operation) (info : instanceInfo) (acc : get_acc) : get_acc :=
  let instance := ingester (ringDesc r) (InstanceID info) in
  let extend := ShouldExtendReplicaSetOnState op (State instance) in
  let zoned := ZoneAwarenessEnabled (cfg r) && bool_decide (info_Zone info ≠ "") in
  mkGetAcc (if extend then get_n acc + 1 else get_n acc) (get_hosts acc ++ [InstanceID info])
    (if negb extend && zoned then get_zones acc ++ [info_Zone info] else get_zones acc)
    (get_instances acc ++ [instance]).

Definition skipped_zone (acc : get_acc) (h : string) : Prop :=
  ZoneAwarenessEnabled (cfg r) = true ∧ zone_of r h ≠ "" ∧ zone_of r h ∈ get_zones acc.

(** the walks of the two operations, on the same tokens *)
Record walks (acc_r acc_w : get_acc) (news : list string) : Prop := {
  walks_read : walk_ok r opr acc_r;
  walks_write : walk_ok r opw acc_w;
  walks_hosts : get_hosts acc_w ≡ₚ get_hosts acc_r ++ news;
  walks_zones : get_zones acc_w ⊆ get_zones acc_r;
  walks_news : ∀ h, h ∈ news → skipped_zone acc_r h
}.

Lemma extends_mono h : extends r opr h → extends r opw h.
Proof. apply opw_extends_more. Qed.

(** the new instances of the write replace instances that extend its set only *)
Lemma walks_news_bound acc_r acc_w news : walks acc_r acc_w news → (counted news ≤ write_only (get_hosts acc_r))%nat.
Proof.
  intros [Hr Hw Hh Hz Hn]. pose proof (walk_zones_NoDup _ _ _ Hw) as Hnd.
  assert (length (get_zones acc_w) ≤ length (get_zones acc_r))%nat as Hlen by (apply NoDup_incl_length; auto).
  rewrite (walk_zones _ _ _ Hr), (walk_zones _ _ _ Hw), !length_fmap, (filter_app_length _ _ _ _ Hh) in Hlen.
  assert (counted news ≤ length (filter (counted_zone r opw) news))%nat as H1.
  { apply filter_le_length. intros h Hin He. destruct (Hn h Hin) as (? & ? & _). by split_and!. }
  assert (length (filter (counted_zone r opr) (get_hosts acc_r)) ≤
          length (filter (counted_zone r opw) (get_hosts acc_r)) + write_only (get_hosts acc_r))%nat as H2; [|lia].
  rewrite (filter_split_length (counted_zone r opr) (extends r opw) (get_hosts acc_r)).
  assert (∀ a b c d : nat, a ≤ d → b ≤ c → a + b ≤ c + d)%nat as Har by lia. apply Har; apply filter_le_length.
  - intros h _ [(_ & _ & ?) ?]. by split.
  - intros h _ [(? & ? & _) ?]. by split_and!.
Qed.

Lemma counted_extends hosts : (counted hosts + length (filter (extends r opw) hosts))%nat = length hosts.
Proof. unfold counted. induction hosts as [|h l IH]; [done|]. rewrite !filter_cons. do 2 case_decide; simpl; try tauto; lia. Qed.
Lemma extends_split hosts :
  length (filter (extends r opw) hosts) = (length (filter (extends r opr) hosts) + write_only hosts)%nat.
Proof.
  rewrite (filter_split_length (extends r opw) (extends r opr)). unfold write_only, extends_write_only. f_equal.
  assert (∀ n m : nat, n ≤ m → m ≤ n → n = m)%nat as Hanti by lia. apply Hanti; apply filter_le_length; [tauto|].
  intros h _ He. split; [by apply extends_mono|done].
Qed.

(** while the read is not complete, neither is the write *)
Lemma walks_write_goes_on acc_r acc_w news : walks acc_r acc_w news →
  Z.of_nat (length (get_hosts acc_r)) < get_n acc_r → Z.of_nat (length (get_hosts acc_w)) < get_n acc_w.
Proof.
  intros Hwk. pose proof (walks_news_bound _ _ _ Hwk) as Hb. destruct Hwk as [Hr Hw Hh _ _].
  rewrite (walk_n _ _ _ Hr), (walk_n _ _ _ Hw). pose proof (counted_extends (get_hosts acc_r)).
  pose proof (extends_split (get_hosts acc_r)). pose proof (counted_extends (get_hosts acc_w)).
  assert (counted (get_hosts acc_w) = counted (get_hosts acc_r) + counted news)%nat by (by apply filter_app_length). lia.
Qed.

Lemma walk_zone_of info i : Ingesters (ringDesc r) !! InstanceID info = Some i → Zone i = info_Zone info →
  zone_of r (InstanceID info) = info_Zone info.
Proof. intros Hi Hz. unfold zone_of, ingester. by rewrite Hi. Qed.
(** adding an instance to both walks, or to that of the write *)
Lemma walks_add acc_r acc_w news info i :
  walks acc_r acc_w news → Ingesters (ringDesc r) !! InstanceID info = Some i → Zone i = info_Zone info →
  InstanceID info ∉ get_hosts acc_r →
  (ZoneAwarenessEnabled (cfg r) && bool_decide (info_Zone info ≠ "") = true → info_Zone info ∉ get_zones acc_r) →
  InstanceID info ∉ get_hosts acc_w ∧
  (ZoneAwarenessEnabled (cfg r) && bool_decide (info_Zone info ≠ "") = true → info_Zone info ∉ get_zones acc_w) ∧
  walks (walk_add opr info acc_r) (walk_add opw info acc_w) news.
Proof.
  intros [Hr Hw Hh Hz Hn] Hi Hzi Hhost Hzone. pose proof (walk_zone_of info i Hi Hzi) as Hzo.
  assert (∀ zoned, zoned = ZoneAwarenessEnabled (cfg r) && bool_decide (info_Zone info ≠ "") →
    zoned = true → info_Zone info ∉ get_zones acc_w) as Hzw by (intros zoned -> Hzd Hin; apply Hz in Hin; by apply Hzone).
  assert (InstanceID info ∉ get_hosts acc_w) as Hhw.
  { rewrite Hh, elem_of_app. intros [?|(Hza & Hne & Hin)%Hn]; [done|]. rewrite Hzo in Hne, Hin. apply Hzone; [|done].
    by rewrite Hza, bool_decide_eq_true_2. }
  split; [done|]. split; [by apply Hzw|]. constructor.
  - by apply (walk_ok_add r opr acc_r info i).
  - apply (walk_ok_add r opw acc_w info i); [done..|by apply Hzw].
  - simpl. rewrite Hh, <- !app_assoc. f_equiv. apply Permutation_app_comm.
  - simpl. pose proof (extends_mono (InstanceID info)) as Hm. unfold extends in Hm.
    revert Hm. destruct (ShouldExtendReplicaSetOnState opw _), (ShouldExtendReplicaSetOnState opr _); simpl; intros Hm;
      first [done|case_if; set_solver|discriminate (Hm eq_refl)].
  - intros h Hin. destruct (Hn h Hin) as (? & ? & ?). split_and!; [done..|]. simpl. case_if; [|done]. apply elem_of_app. by left.
Qed.
Lemma walks_add_write acc_r acc_w news info i :
  walks acc_r acc_w news → Ingesters (ringDesc r) !! InstanceID info = Some i → Zone i = info_Zone info →
  skipped_zone acc_r (InstanceID info) → InstanceID info ∉ get_hosts acc_w →
  (ZoneAwarenessEnabled (cfg r) && bool_decide (info_Zone info ≠ "") = true → info_Zone info ∉ get_zones acc_w) →
  walks acc_r (walk_add opw info acc_w) (news ++ [InstanceID info]).
Proof.
  intros [Hr Hw Hh Hz Hn] Hi Hzi Hs Hhost Hzone. pose proof (walk_zone_of info i Hi Hzi) as Hzo. constructor; [done|..].
  - by apply (walk_ok_add r opw acc_w info i).
  - simpl. by rewrite Hh, <- app_assoc.
  - simpl. destruct Hs as (_ & _ & Hin). rewrite Hzo in Hin. case_if; set_solver.
  - intros h [?|Hh']%elem_of_app; [by apply Hn|]. by apply list_elem_of_singleton in Hh' as ->.
Qed.

(** the instances a write selects once the read is complete *)
Lemma walk_rest_bound acc_r acc_w news acc_w' more :
  walks acc_r acc_w news → get_n acc_r ≤ Z.of_nat (length (get_hosts acc_r)) →
  walk_ok r opw acc_w' → Z.of_nat (length (get_hosts acc_w')) ≤ get_n acc_w' → get_hosts acc_w' = get_hosts acc_w ++ more →
  (counted (news ++ more) ≤ write_only (get_hosts acc_r))%nat.
Proof.
  intros [Hr Hw Hh _ _] Hle Hw' Hle' Hmore. rewrite (walk_n _ _ _ Hr) in Hle. rewrite (walk_n _ _ _ Hw') in Hle'.
  assert (counted (get_hosts acc_w') = counted (get_hosts acc_r) + counted (news ++ more))%nat as Hc
    by (apply filter_app_length; by rewrite Hmore, Hh, <- app_assoc).
  pose proof (counted_extends (get_hosts acc_r)). pose proof (extends_split (get_hosts acc_r)).
  pose proof (counted_extends (get_hosts acc_w')). lia.
Qed.

Lemma walks_run ts acc_r acc_w news acc_r' acc_w' :
  ring_ok r → (∀ t, t ∈ ts → t ∈ ringTokens r) → walks acc_r acc_w news →
  Z.of_nat (length (get_hosts acc_w)) ≤ get_n acc_w →
  Get_walk r opr ts acc_r = Ok acc_r' → Get_walk r opw ts acc_w = Ok acc_w' →
  ∃ news', get_hosts acc_w' ≡ₚ get_hosts acc_r' ++ news' ∧ (counted news' ≤ write_only (get_hosts acc_r'))%nat.
Proof.
  intros Hok. revert acc_r acc_w news. induction ts as [|t ts IH]; intros acc_r acc_w news Hts Hwk Hle.
  { cbn. intros [= <-] [= <-]. exists news. split; [apply Hwk|by eapply walks_news_bound]. }
  assert (∀ t, t ∈ ts → t ∈ ringTokens r) as Hts' by (intros; apply Hts; by right).
  intros Hgr Hgw. cbn [Get_walk] in Hgr. case_bool_decide as Hn; cbn [negb] in Hgr.
  2: { injection Hgr as <-. destruct (Get_walk_spec r opw (t :: ts) acc_w Hok Hts (walks_write _ _ _ Hwk)) as
         (acc & Hacc & Hwok & [more Hmore] & _). rewrite Hgw in Hacc. injection Hacc as <-. exists (news ++ more). split.
       - rewrite Hmore, (walks_hosts _ _ _ Hwk). by rewrite <- app_assoc.
       - apply (walk_rest_bound acc_r acc_w news acc_w' more); [done|lia|done| |done]. by eapply Get_walk_le. }
  pose proof (walks_write_goes_on _ _ _ Hwk Hn) as Hn'. cbn [Get_walk] in Hgw.
  rewrite bool_decide_eq_true_2 in Hgw by done. cbn [negb] in Hgw.
  destruct (ok_owner r Hok t) as (info & i & Hinfo & Hi & Hz & _); [apply Hts; by left|].
  rewrite Hinfo in Hgr, Hgw. cbv zeta in Hgr, Hgw. pose proof (walk_zone_of info i Hi Hz) as Hzo.
  fold (walk_add opr info acc_r) in Hgr. fold (walk_add opw info acc_w) in Hgw.
  assert (∀ acc, Z.of_nat (length (get_hosts acc)) < get_n acc →
    Z.of_nat (length (get_hosts (walk_add opw info acc))) ≤ get_n (walk_add opw info acc)) as Hadd.
  { intros acc Hlt. simpl. rewrite length_app. simpl. case_if; lia. }
  destruct (StringsContain (get_hosts acc_r) (InstanceID info)) eqn:Hhost.
  { apply StringsContain_spec in Hhost. rewrite (proj2 (StringsContain_spec _ _)) in Hgw; [by eapply IH|].
    rewrite (walks_hosts _ _ _ Hwk), elem_of_app. by left. }
  apply StringsContain_false in Hhost.
  destruct (_ && _ && StringsContain (get_zones acc_r) _) eqn:Hzone.
  - destruct (StringsContain (get_hosts acc_w) (InstanceID info)) eqn:Hhw; [by eapply IH|].
    destruct (_ && _ && StringsContain (get_zones acc_w) _) eqn:Hzw; [by eapply IH|].
    eapply (IH acc_r (walk_add opw info acc_w) (news ++ [InstanceID info])); [done| |by apply Hadd|done..].
    eapply walks_add_write; [done..| | |].
    + rewrite !andb_true_iff, bool_decide_eq_true, StringsContain_spec in Hzone. unfold skipped_zone. rewrite Hzo. tauto.
    + by apply StringsContain_false.
    + intros Hzd. rewrite Hzd in Hzw. by apply StringsContain_false.
  - destruct (walks_add acc_r acc_w news info i Hwk Hi Hz Hhost) as (Hhw & Hzw & Hwk').
    { intros Hzd. rewrite Hzd in Hzone. by apply StringsContain_false. }
    rewrite (proj2 (StringsContain_false _ _) Hhw) in Hgw.
    destruct (_ && _ && StringsContain (get_zones acc_w) _) eqn:Hzc.
    { apply andb_true_iff in Hzc as [Hzd Hin]. destruct (Hzw Hzd). by apply StringsContain_spec. }
    eapply (IH _ _ news); [done|exact Hwk'|by apply Hadd|done..].
Qed.

(** the candidates of the two operations for a key *)
Definition start_acc : get_acc := mkGetAcc (ReplicationFactor (cfg r)) [] [] [].
Definition candidates (op : Operation) (key : Z) (acc : get_acc) : Prop :=
  Get_loop (length (ringTokens r)) (searchToken (ringTokens r) key) r op start_acc = Ok acc.

Lemma start_walk_ok op : walk_ok r op start_acc.
Proof. constructor; simpl; try done; try constructor; [by intros ? ?%elem_of_nil|lia]. Qed.
Lemma start_walks : walks start_acc start_acc [].
Proof. constructor; [apply start_walk_ok..|done|done|]. by intros h ?%elem_of_nil. Qed.

Lemma candidates_write_read key acc_r acc_w :
  ring_ok r → 0 < ReplicationFactor (cfg r) → ringTokens r ≠ [] →
  candidates opr key acc_r → candidates opw key acc_w →
  ∃ news, get_hosts acc_w ≡ₚ get_hosts acc_r ++ news ∧ (counted news ≤ write_only (get_hosts acc_r))%nat.
Proof.
  intros Hok Hrf Hne. unfold candidates. rewrite !Get_loop_walk. intros Hr Hw.
  eapply (walks_run _ start_acc start_acc []); [done| |apply start_walks|simpl; lia|done|done].
  intros t. apply token_at_elem. by apply searchToken_lt.
Qed.
(** ** The quorums meet *)
Hypothesis opw_healthy : ∀ s, IsInstanceInStateHealthy opw s = true → ShouldExtendReplicaSetOnState opw s = false.

Lemma healthy_counted hb now hosts :
  (length (filter (λ i, IsHealthy i opw hb now = true) (ingester (ringDesc r) <$> hosts)) ≤ counted hosts)%nat.
Proof.
  rewrite filter_fmap_length. apply filter_le_length. intros h _ Hh He. unfold IsHealthy in Hh.
  apply andb_true_iff in Hh as [Hh _]. apply opw_healthy in Hh. unfold extends in He. congruence.
Qed.

(** [n] is the number of candidates of the read, [e] of the healthy ones the write
    adds to them *)
Lemma quorums_large rf n nw e : 0 < rf → 0 ≤ n → 0 ≤ e ≤ 1 → n + e ≤ nw →
  n + e < Z.quot (Z.max rf nw) 2 + 1 + (Z.quot (Z.max rf n) 2 + 1).
Proof.
  intros Hrf Hn He Hnw. rewrite !Z.quot_div_nonneg by lia.
  pose proof (Z.div_mod (Z.max rf nw) 2). pose proof (Z.mod_pos_bound (Z.max rf nw) 2).
  pose proof (Z.div_mod (Z.max rf n) 2). pose proof (Z.mod_pos_bound (Z.max rf n) 2). lia.
Qed.

Lemma candidates_meet key acc_r acc_w hb za noww nowr hw hr mw mr W S :
  ring_ok r → 0 < ReplicationFactor (cfg r) → ringTokens r ≠ [] →
  candidates opr key acc_r → candidates opw key acc_w → (write_only (get_hosts acc_r) ≤ 1)%nat →
  defaultReplicationStrategy_Filter (get_instances acc_w) opw (ReplicationFactor (cfg r)) hb za noww = Ok (hw, mw) →
  defaultReplicationStrategy_Filter (get_instances acc_r) opr (ReplicationFactor (cfg r)) hb za nowr = Ok (hr, mr) →
  W ⊆+ hw → Z.of_nat (length hw) - mw ≤ Z.of_nat (length W) →
  S ⊆+ hr → Z.of_nat (length hr) - mr ≤ Z.of_nat (length S) →
  ∃ i, i ∈ W ∧ i ∈ S.
Proof.
  intros Hok Hrf Hne Hr Hw Hone. destruct (candidates_write_read key acc_r acc_w Hok Hrf Hne Hr Hw) as (news & Hp & Hnews).
  assert (∀ op acc, candidates op key acc → get_instances acc = ingester (ringDesc r) <$> get_hosts acc) as Hinst.
  { intros op acc Hc. unfold candidates in Hc.
    destruct (Get_loop_replicas r op key Hok Hrf Hne) as (acc' & Hacc & Hi & _). unfold start_acc in Hc. congruence. }
  rewrite (Hinst _ _ Hr), (Hinst _ _ Hw), !default_Filter_spec, !length_fmap.
  case_bool_decide as Hhw; [done|]. intros [= <- <-]. case_bool_decide as Hhr; [done|]. intros [= <- <-] HW HlW HS HlS.
  pose proof (healthy_counted hb noww news) as Hh. set (added := filter (λ i, IsHealthy i opw hb noww = true) (ingester (ringDesc r) <$> news)) in *.
  assert (length (get_hosts acc_w) = length (get_hosts acc_r) + length news)%nat as Hlen by (by rewrite Hp, length_app).
  assert (length added ≤ length news)%nat by (etrans; [apply length_filter|by rewrite length_fmap]).
  apply (large_parts_meet W S ((ingester (ringDesc r) <$> get_hosts acc_r) ++ added)).
  - rewrite HW, Hp, fmap_app, filter_app. apply submseteq_app; [|done]. apply sublist_submseteq, sublist_filter.
  - rewrite HS. etrans; [apply sublist_submseteq, sublist_filter|]. apply submseteq_inserts_r. done.
  - rewrite length_app, length_fmap. pose proof (quorums_large (ReplicationFactor (cfg r)) (Z.of_nat (length (get_hosts acc_r)))
      (Z.of_nat (length (get_hosts acc_w))) (Z.of_nat (length added))). lia.
Qed.
End two_ops.

(** ** Who has acknowledged a batch

    [DoBatch] returns [nil] without saying who answered.  The steps of a batch with
    the set of the goroutines whose callback returned [nil], and what the success
    of the batch says of them. *)
(** ** Sums over positions *)
Lemma lsum_seq_change (f g : nat → Z) n k : (n < k)%nat → (∀ m, m ≠ n → f m = g m) →
  lsum g (seq 0 k) = lsum f (seq 0 k) - f n + g n.
Proof.
  intros Hn Hfg. enough (∀ j, lsum g (seq j k) = lsum f (seq j k) + if decide (j ≤ n < j + k)%nat then g n - f n else 0) as H.
  { rewrite H, decide_True by lia. lia. }
  clear Hn. induction k as [|k IH]; intros j; simpl; [case_decide; lia|]. rewrite IH.
  destruct (decide (j = n)) as [->|Hj].
  - destruct (decide (S n ≤ n < S n + k)%nat); [lia|]. rewrite decide_True by lia. lia.
  - rewrite (Hfg j) by done. destruct (decide (S j ≤ n < S j + k)%nat), (decide (j ≤ n < j + S k)%nat); lia.
Qed.
Lemma lsum_add {A} (f g : A → Z) l : lsum (λ x, f x + g x) l = lsum f l + lsum g l.
Proof. induction l as [|x l IH]; simpl; [done|]. rewrite IH. lia. Qed.
Lemma lsum_ext {A} (f g : A → Z) l : (∀ x, x ∈ l → f x = g x) → lsum f l = lsum g l.
Proof.
  intros Hfg. apply (anti_symm Z.le); apply lsum_le; intros x Hx; by rewrite (Hfg x Hx).
Qed.
Lemma lsum_at_most_one {A} (P : A → Prop) `{∀ x, Decision (P x)} l :
  NoDup l → (∀ x y, x ∈ l → y ∈ l → P x → P y → x = y) →
  lsum (λ x, if decide (P x) then 1 else 0) l ≤ if decide (Exists P l) then 1 else 0.
Proof.
  induction 1 as [|x l Hx Hl IH]; intros Huniq; simpl; [destruct (decide (Exists P [])); lia|].
  assert (lsum (λ x, if decide (P x) then 1 else 0) l ≤ if decide (Exists P l) then 1 else 0) as IHl
    by (apply IH; intros a b Ha Hb; apply Huniq; by right).
  destruct (decide (P x)) as [Hp|Hp].
  - rewrite (decide_True (P := Exists P (x :: l))) by (by left).
    rewrite decide_False in IHl; [lia|]. intros (y & Hy & HPy)%Exists_exists. apply Hx.
    by rewrite (Huniq x y ltac:(by left) ltac:(by right) Hp HPy).
  - destruct (decide (Exists P l)) as [He|He], (decide (Exists P (x :: l))) as [He'|He']; try lia.
    exfalso. apply He'. by right.
Qed.

Section acks.
Context {E : Type}.
Implicit Types (b : batch E) (w : worker E) (t : itemTracker) (s : batch E * gset nat).

(** the steps of [batch_step], noting the callbacks that return [nil] *)
Inductive ack_step s s' : Prop :=
| ack_callback n l err :
    workers s.1 !! n = Some (Calling l) →
    s' = (set_workers (<[n := Recording err l]> (workers s.1)) s.1,
          match err with None => {[n]} ∪ s.2 | Some _ => s.2 end) →
    ack_step s s'
| ack_record n w b' w' :
    workers s.1 !! n = Some w → record_step s.1 w = Some (b', w') →
    s' = (set_workers (<[n := w']> (workers b')) b', s.2) → ack_step s s'
| ack_other b' :
    batch_step s.1 b' → workers b' = workers s.1 → items b' = items s.1 → s' = (b', s.2) → ack_step s s'.

Lemma ack_step_sound s s' : ack_step s s' → batch_step s.1 s'.1.
Proof.
  intros [n l err Hw ->|n w b' w' Hw Hs ->|b' Hs _ _ ->]; [apply step_go; by eapply step_callback|apply step_go; by eapply step_record|done].
Qed.
(** every run of the batch is one of these *)
Lemma ack_step_complete b b' acks : batch_step b b' → ∃ acks', ack_step (b, acks) (b', acks').
Proof.
  intros Hs. pose proof Hs as Hs'. destruct Hs as [b b' Hgo|b Hret].
  - destruct Hgo as [b n l err Hw|b n w b' w' Hw Hr|b Hall Hc|b e es Hr He|b n Hr Hd]; eexists.
    + by eapply (ack_callback (b, acks)).
    + by eapply (ack_record (b, acks)).
    + by eapply (ack_other (b, acks)).
    + by eapply (ack_other (b, acks)).
    + by eapply (ack_other (b, acks)).
  - eexists. by eapply (ack_other (b, acks)).
Qed.
Lemma ack_steps_sound s s' : rtc ack_step s s' → rtc batch_step s.1 s'.1.
Proof. induction 1 as [|s1 s2 s3 Hs _ IH]; [done|]. eapply rtc_l; [by apply ack_step_sound|done]. Qed.
Lemma ack_steps_complete b b' acks : rtc batch_step b b' → ∃ acks', rtc ack_step (b, acks) (b', acks').
Proof.
  intros Hr. revert acks. induction Hr as [b|b1 b2 b3 Hs _ IH]; intros acks; [by exists acks|].
  destruct (ack_step_complete b1 b2 acks Hs) as [acks1 H1]. destruct (IH acks1) as [acks2 H2]. exists acks2. by eapply rtc_l.
Qed.

(** what a worker still does, knowing whether its callback has returned [nil] *)
Definition worker_ok (acked : Prop) (l : list nat) w : Prop :=
  match w with
  | Calling l' => ¬ acked ∧ l' = l
  | Recording None _ | DecRpcsPending _ | SendDone _ => acked
  | Recording (Some _) _ | IncRpcsFailed _ _ | SendErr _ _ => ¬ acked
  | WgDone => True
  end.

(** the successes worker [n] has recorded for item [i] *)
Definition todo_at b (n : nat) : list nat := match workers b !! n with Some w => todo w | None => [] end.
Definition recorded (l0 : list (list nat)) (i : nat) s (n : nat) : Z :=
  if decide (n ∈ s.2) then occurs i (l0 !!! n) - occurs i (todo_at s.1 n) else 0.

Record ack_inv (l0 : list (list nat)) s : Prop := {
  ai_batch : batch_inv s.1;
  ai_length : length (workers s.1) = length l0;
  ai_worker : ∀ n w, workers s.1 !! n = Some w → worker_ok (n ∈ s.2) (l0 !!! n) w;
  ai_items : ∀ i t, items s.1 !! i = Some t → succeeded t ≤ lsum (recorded l0 i s) (seq 0 (length l0))
}.
Lemma worker_ok_iff (P Q : Prop) l w : (P ↔ Q) → worker_ok P l w → worker_ok Q l w.
Proof. intros HPQ. destruct w as [?|[]?| | | | |]; simpl; tauto. Qed.

Lemma recorded_sum l0 i s n w w' b' :
  workers s.1 !! n = Some w → (n < length l0)%nat → workers b' = <[n := w']> (workers s.1) →
  lsum (recorded l0 i (b', s.2)) (seq 0 (length l0)) =
  lsum (recorded l0 i s) (seq 0 (length l0)) + if decide (n ∈ s.2) then occurs i (todo w) - occurs i (todo w') else 0.
Proof.
  intros Hw Hn Hb. rewrite (lsum_seq_change (recorded l0 i s) (recorded l0 i (b', s.2)) n (length l0) Hn).
  - unfold recorded, todo_at. simpl. rewrite Hb, Hw, list_lookup_insert_eq by (by eapply lookup_lt_Some). case_decide; lia.
  - intros m Hm. unfold recorded, todo_at. simpl. by rewrite Hb, list_lookup_insert_ne.
Qed.

Lemma record_step_workers b w b' w' : record_step b w = Some (b', w') → workers b' = workers b.
Proof.
  intros Hs. destruct w as [l'|[e|] [|j rest]|e rest|e rest|rest|rest|]; cbn [record_step] in Hs; try done;
    try (destruct (items b !! j) as [t|] eqn:Ht; [|done]; cbn [mbind option_bind] in Hs);
    try (case_bool_decide; [|done]); by injection Hs as <- <-.
Qed.

(** one step of [record]: the items only gain successes of acknowledged workers *)
Lemma record_step_items s n w b' w' i t' :
  batch_inv s.1 → workers s.1 !! n = Some w → record_step s.1 w = Some (b', w') → items b' !! i = Some t' →
  ∃ t, items s.1 !! i = Some t ∧
  (succeeded t' = succeeded t ∨ (∃ rest, w = Recording None (i :: rest) ∧ todo w' = rest ∧ succeeded t' = succeeded t + 1)).
Proof.
  intros Hi Hw Hs Ht'.
  destruct w as [l|[e|] [|j rest]|e rest|e rest|rest|rest|]; cbn [record_step] in Hs; try done;
    try (destruct (items s.1 !! j) as [t|] eqn:Ht; [|done]; cbn [mbind option_bind] in Hs);
    try (case_bool_decide; [|done]); injection Hs as <- <-; simpl in Ht'; eauto.
  - apply list_lookup_insert_Some in Ht' as [(-> & <- & _)|(_ & Ht')]; eauto.
  - apply list_lookup_insert_Some in Ht' as [(-> & <- & _)|(_ & Ht')]; [|eauto]. exists t. split; [done|]. right.
    pose proof (item_bounds s.1 i t Hi Ht) as (?&?&?&?&?&?). pose proof (outstanding_nonneg i s.1).
    pose proof (outstanding_processed s.1 n _ i rest Hw eq_refl).
    exists rest. split; [done|]. split; [by case_bool_decide|]. simpl. apply i32_id. unfold replicas_of in *. lia.
Qed.
Lemma record_step_worker b w b' w' acked l :
  record_step b w = Some (b', w') → worker_ok acked l w → worker_ok acked l w' ∧ (∀ i, occurs i (todo w') ≤ occurs i (todo w)).
Proof.
  intros Hs Hok. destruct w as [l'|[e|] [|j rest]|e rest|e rest|rest|rest|]; cbn [record_step] in Hs; try done;
    try (destruct (items b !! j) as [t|] eqn:Ht; [|done]; cbn [mbind option_bind] in Hs);
    try (case_bool_decide; [|done]); injection Hs as <- <-; simpl in *;
    (split; [try case_bool_decide; done|]); intros i; try (case_bool_decide; simpl); rewrite ?occurs_cons; try done;
    case_decide; lia.
Qed.

Lemma ack_step_inv l0 s s' : ack_inv l0 s → ack_step s s' → ack_inv l0 s'.
Proof.
  intros [Hb Hl Hw Hi] Hs. pose proof (batch_step_inv _ _ Hb (ack_step_sound _ _ Hs)) as Hb'.
  destruct Hs as [n l err Hn ->|n w b' w' Hn Hr ->|b' _ Hws Hits ->]; simpl in Hb'.
  - pose proof (Hw n _ Hn) as [Hna ->]. assert (n < length l0)%nat as Hlt by (rewrite <- Hl; by eapply lookup_lt_Some).
    set (acks' := match err with None => {[n]} ∪ s.2 | Some _ => s.2 end) in *.
    assert (∀ m, m ≠ n → m ∈ acks' ↔ m ∈ s.2) as Hacks by (unfold acks'; destruct err; set_solver).
    constructor; simpl; [done|by rewrite length_insert|..].
    + intros m w [(-> & <- & _)|(Hne & Hm)]%list_lookup_insert_Some.
      * unfold acks'. destruct err; simpl; [done|set_solver].
      * eapply worker_ok_iff; [|by apply Hw]. symmetry. by apply Hacks.
    + intros i t Ht. etrans; [by apply Hi|]. set (s' := (set_workers _ _, acks')).
      rewrite (lsum_seq_change (recorded l0 i s) (recorded l0 i s') n (length l0) Hlt).
      * unfold recorded at 3 4, todo_at. simpl. rewrite decide_False by done.
        rewrite list_lookup_insert_eq by (by eapply lookup_lt_Some). simpl. case_decide; lia.
      * intros m Hm. unfold recorded, todo_at. simpl. rewrite list_lookup_insert_ne by done.
        rewrite (decide_ext (m ∈ acks') (m ∈ s.2)); [done|by apply Hacks].
  - assert (n < length l0)%nat as Hlt by (rewrite <- Hl; by eapply lookup_lt_Some).
    destruct (record_step_worker _ _ _ _ _ _ Hr (Hw n w Hn)) as [Hok Hle].
    assert (workers b' = workers s.1) as Hws by (by eapply record_step_workers). rewrite Hws in Hb'.
    constructor; simpl; rewrite ?Hws; [done|by rewrite length_insert|..].
    + intros m v [(-> & <- & _)|(Hne & Hm)]%list_lookup_insert_Some; [done|by apply Hw].
    + intros i t' Ht'. rewrite (recorded_sum l0 i s n w w') by (simpl; rewrite ?Hws; done).
      destruct (record_step_items s n w b' w' i t' Hb Hn Hr Ht') as (t & Ht & Hsucc). specialize (Hi i t Ht).
      destruct Hsucc as [Hsucc|(rest & -> & Hrest & Hsucc)].
      * specialize (Hle i). case_decide; lia.
      * pose proof (Hw n _ Hn) as Hack. simpl in Hack. rewrite decide_True by done. rewrite Hrest. cbn [todo].
        rewrite occurs_cons, decide_True by done. lia.
  - constructor; simpl; rewrite ?Hws, ?Hits; try done.
    intros i t Ht. etrans; [by apply Hi|]. apply lsum_le. intros m _. unfold recorded, todo_at. simpl. by rewrite Hws.
Qed.

(** a batch that has succeeded: every item has its successes from acknowledged workers *)
Lemma acks_cover l0 s : ack_inv l0 s → returned s.1 = Some (Ok tt) →
  ∀ i t, items s.1 !! i = Some t →
  minSuccess t ≤ lsum (λ n, if decide (n ∈ s.2) then occurs i (l0 !!! n) else 0) (seq 0 (length l0)).
Proof.
  intros [Hb Hl Hw Hi] Hret i t Ht. pose proof (ok_complete s.1 Hb Hret) as Hall. rewrite Forall_lookup in Hall.
  etrans; [by eapply Hall|]. etrans; [by apply Hi|]. apply lsum_le. intros n _. unfold recorded.
  pose proof (occurs_nonneg i (todo_at s.1 n)). case_decide; lia.
Qed.
(** the successes an item needs do not change *)
Lemma record_step_min b w b' w' : record_step b w = Some (b', w') → minSuccess <$> items b' = minSuccess <$> items b.
Proof.
  intros Hs. destruct w as [l'|[e|] [|j rest]|e rest|e rest|rest|rest|]; cbn [record_step] in Hs; try done;
    try (destruct (items b !! j) as [t|] eqn:Ht; [|done]; cbn [mbind option_bind] in Hs);
    try (case_bool_decide; [|done]); injection Hs as <- <-; try done;
    simpl; rewrite list_fmap_insert; apply list_insert_id; by rewrite list_lookup_fmap, Ht.
Qed.
Lemma ack_step_min s s' : ack_step s s' → minSuccess <$> items s'.1 = minSuccess <$> items s.1.
Proof.
  intros [n l err Hw ->|n w b' w' Hw Hr ->|b' _ _ Hits ->]; simpl; [done| |by rewrite Hits]. by eapply record_step_min.
Qed.
Lemma ack_steps l0 s s' : rtc ack_step s s' → ack_inv l0 s →
  ack_inv l0 s' ∧ minSuccess <$> items s'.1 = minSuccess <$> items s.1.
Proof.
  induction 1 as [s|s s1 s2 Hs _ IH]; intros Hi; [done|]. destruct IH as [H1 H2]; [by eapply ack_step_inv|].
  split; [done|]. by rewrite H2, (ack_step_min _ _ Hs).
Qed.

(** ** The instances of a batch *)
Definition trackers (m : gmap string instance) (a : string) : list nat := default [] (itemTrackers <$> m !! a).
Definition at_addr (a : string) (l : list InstanceDesc) : Z := Z.of_nat (length (filter (λ d, Addr d = a) l)).

Lemma trackers_add_all i j m l a :
  occurs j (trackers (foldl (DoBatch_add i) m l) a) = occurs j (trackers m a) + if decide (i = j) then at_addr a l else 0.
Proof.
  revert m. induction l as [|d l IH]; intros m; simpl; [unfold at_addr; simpl; case_decide; lia|]. rewrite IH.
  assert (occurs j (trackers (DoBatch_add i m d) a) = occurs j (trackers m a) + if decide (i = j ∧ Addr d = a) then 1 else 0) as ->.
  { unfold trackers, DoBatch_add. destruct (decide (Addr d = a)) as [<-|Hne].
    - rewrite lookup_insert_eq. destruct (m !! Addr d) as [v|]; simpl; rewrite ?occurs_app, ?occurs_cons;
        unfold occurs; simpl; repeat case_decide; try lia; naive_solver.
    - rewrite lookup_insert_ne by done. rewrite decide_False by tauto. lia. }
  unfold at_addr. rewrite filter_cons. repeat case_decide; simpl; try lia; naive_solver.
Qed.

(** the addresses of the workers in [acks] *)
Definition acked_addrs (addrs : list string) (acks : gset nat) : gset string :=
  list_to_set (omap (λ n, addrs !! n) (elements acks)).
Lemma elem_of_acked_addrs addrs acks a : a ∈ acked_addrs addrs acks ↔ ∃ n, n ∈ acks ∧ addrs !! n = Some a.
Proof.
  unfold acked_addrs. rewrite elem_of_list_to_set, list_elem_of_omap. split; intros (n & Hn & Ha); exists n; by rewrite ?elem_of_elements in *.
Qed.

Lemma acked_count addrs acks l : NoDup addrs →
  lsum (λ n, if decide (n ∈ acks) then at_addr (addrs !!! n) l else 0) (seq 0 (length addrs))
  ≤ Z.of_nat (length (filter (λ d, Addr d ∈ acked_addrs addrs acks) l)).
Proof.
  intros Hnd. induction l as [|d l IH].
  - rewrite lsum_zero; [done|]. intros n _. unfold at_addr. simpl. by case_decide.
  - set (here := λ n, n ∈ acks ∧ addrs !! n = Some (Addr d)).
    assert (lsum (λ n, if decide (n ∈ acks) then at_addr (addrs !!! n) (d :: l) else 0) (seq 0 (length addrs)) =
      lsum (λ n, (if decide (n ∈ acks) then at_addr (addrs !!! n) l else 0) + (if decide (n ∈ acks ∧ addrs !! n = Some (Addr d)) then 1 else 0))
        (seq 0 (length addrs))) as ->.
    { apply lsum_ext; intros n [_ Hn]%elem_of_seq; simpl in Hn;
        (destruct (lookup_lt_is_Some_2 addrs n Hn) as [a Ha]; rewrite (list_lookup_total_correct _ _ _ Ha), Ha;
         unfold at_addr; rewrite filter_cons; destruct (decide (Addr d = a)) as [<-|Hne];
         [|rewrite (decide_False (P := _ ∧ Some a = _)) by naive_solver];
         destruct (decide (n ∈ acks)); [rewrite decide_True by done|rewrite decide_False by tauto|..]; simpl; lia). }
    rewrite lsum_add, filter_cons.
    assert (lsum (λ n, if decide (n ∈ acks ∧ addrs !! n = Some (Addr d)) then 1 else 0) (seq 0 (length addrs)) ≤
      if decide (Addr d ∈ acked_addrs addrs acks) then 1 else 0) as Hone.
    { etrans; [apply lsum_at_most_one; [apply NoDup_seq|]|].
      - intros n m _ _ [_ Hn] [_ Hm]. by eapply NoDup_lookup.
      - destruct (decide (Exists _ _)) as [(n & _ & Hn)%Exists_exists|_].
        + rewrite decide_True; [done|]. apply elem_of_acked_addrs. by exists n.
        + case_decide; lia. }
    destruct (decide (Addr d ∈ acked_addrs addrs acks)); simpl; lia.
Qed.

Lemma DoBatch_keys_before `{r : ReadRing} op i keys its m its' m' j :
  DoBatch_keys op i keys its m = Ok (its', m') → (j < i)%nat →
  its' !! j = its !! j ∧ ∀ a, occurs j (trackers m' a) = occurs j (trackers m a).
Proof.
  revert i its m. induction keys as [|key keys IH]; intros i its m Hk Hj; simpl in Hk; [by injection Hk as -> ->|].
  destruct (ReadRing_Get key op) as [rs|e]; [|done]. apply IH in Hk as [H1 H2]; [|lia]. split.
  - rewrite H1, list_lookup_insert_ne by lia. done.
  - intros a. rewrite H2, trackers_add_all, decide_False by lia. lia.
Qed.
Lemma DoBatch_keys_item `{r : ReadRing} op i keys its m its' m' k key :
  DoBatch_keys op i keys its m = Ok (its', m') → length its = (i + length keys)%nat → keys !! k = Some key →
  ∃ rs t, ReadRing_Get key op = Ok rs ∧ its' !! (i + k)%nat = Some t ∧
    minSuccess t = Z.of_nat (length (Instances rs)) - MaxErrors rs ∧
    ∀ a, occurs (i + k) (trackers m' a) = occurs (i + k) (trackers m a) + at_addr a (Instances rs).
Proof.
  revert i k its m. induction keys as [|key' keys IH]; intros i k its m Hk Hlen Hkey; simpl in *; [done|].
  destruct (ReadRing_Get key' op) as [rs|e] eqn:Hg; [|done]. destruct k as [|k].
  - injection Hkey as ->. rewrite Nat.add_0_r. destruct (DoBatch_keys_before op (S i) keys _ _ _ _ i Hk) as [H1 H2]; [lia|].
    exists rs. eexists. split; [done|]. split; [rewrite H1, list_lookup_insert_eq; [done|lia]|]. split; [done|].
    intros a. by rewrite H2, trackers_add_all, decide_True.
  - destruct (IH (S i) k _ _ Hk) as (rs' & t & H1 & H2 & H3 & H4); [rewrite length_insert; lia|done|].
    replace (i + S k)%nat with (S i + k)%nat by lia. exists rs', t. split_and!; [done..|].
    intros a. rewrite H4, trackers_add_all, decide_False by lia. lia.
Qed.
(** the address of each goroutine *)
Definition DoBatch_addrs `{MapRange, ReadRing} (op : Operation) (keys : list Z) : list string :=
  match DoBatch_keys op 0 keys (replicate (length keys) (mkItemTracker 0 0 0 0)) ∅ with
  | Ok (_, instances) => (map_range 89 instances).*1
  | Err _ => []
  end.

(** when the batch succeeds, enough of the instances of every key have acknowledged *)
Lemma DoBatch_acks `{MapRange} {r : ReadRing} {L : ReadRingLaws r} op keys b acks key :
  lsum replicas_of (items (DoBatch_start (E:=E) op keys)) < 2 ^ 31 →
  rtc ack_step (DoBatch_start op keys, ∅) (b, acks) → returned b = Some (Ok tt) → key ∈ keys →
  ∃ rs, ReadRing_Get key op = Ok rs ∧
    Z.of_nat (length (Instances rs)) - MaxErrors rs ≤
    Z.of_nat (length (filter (λ d, Addr d ∈ acked_addrs (DoBatch_addrs op keys) acks) (Instances rs))).
Proof.
  intros Hsize Hsteps Hret [k Hk]%list_elem_of_lookup. assert (keys ≠ []) as Hne by (by intros ->).
  destruct (DoBatch_start_cases (E:=E) op keys) as [Hnone|(e & He & _)].
  2: { apply ack_steps_sound in Hsteps. simpl in Hsteps. rewrite He in Hsteps. apply stopped_final in Hsteps. by rewrite Hsteps in Hret. }
  pose proof (DoBatch_start_inv (E:=E) op keys Hne Hnone Hsize) as Hinv. unfold DoBatch_addrs.
  unfold DoBatch_start in Hsteps, Hnone, Hinv. case_bool_decide; [done|].
  destruct (DoBatch_keys _ _ _ _ _) as [[its m]|e] eqn:Hkeys; [|done]. clear Hnone Hsize.
  destruct (DoBatch_keys_item op 0 keys _ _ its m k key Hkeys) as (rs & t & Hrs & Ht & Hmin & Hocc); [by rewrite length_replicate|done|].
  exists rs. split; [done|]. simpl in Ht, Hocc. set (kvs := map_range 89 m) in *. set (l0 := itemTrackers ∘ snd <$> kvs).
  assert (length l0 = length kvs) as Hlen by apply length_fmap.
  destruct (ack_steps l0 _ _ Hsteps) as [Hinv' Hmin'].
  { constructor; simpl; [done|by rewrite !length_fmap|..].
    - intros n w Hn. apply list_lookup_fmap_Some in Hn as (kv & -> & Hn). split; [set_solver|].
      symmetry. apply list_lookup_total_correct. unfold l0. by rewrite list_lookup_fmap, Hn.
    - intros i t' Ht'. apply DoBatch_keys_spec in Hkeys as (_ & Hfresh & _); [|by rewrite length_replicate|lia|intros j _; unfold total; by rewrite map_to_list_empty].
      destruct (Hfresh i t' Ht') as [-> _]. apply lsum_nonneg. intros n. unfold recorded. by rewrite decide_False by set_solver. }
  simpl in Hmin'. assert (∃ t', items b !! k = Some t' ∧ minSuccess t' = minSuccess t) as (t' & Ht' & Hmt).
  { assert ((minSuccess <$> items b) !! k = Some (minSuccess t)) as Hbk by (by rewrite Hmin', list_lookup_fmap, Ht).
    apply list_lookup_fmap_Some in Hbk as (t' & -> & ?). eauto. }
  pose proof (acks_cover l0 _ Hinv' Hret k t' Ht') as Hcov. rewrite Hmt, Hmin in Hcov. etrans; [exact Hcov|].
  etrans; [|apply acked_count, map_range_NoDup_fst]. rewrite Hlen, length_fmap. apply Z.eq_le_incl, lsum_ext.
  intros n [_ Hn]%elem_of_seq. destruct (lookup_lt_is_Some_2 kvs n Hn) as [[a v] Hkv]. simpl. destruct (decide (n ∈ acks)); [|done].
  rewrite (list_lookup_total_correct l0 n (itemTrackers v)), (list_lookup_total_correct kvs.*1 n a) by (unfold l0; by rewrite list_lookup_fmap, Hkv).
  specialize (Hocc a). unfold trackers in Hocc. rewrite lookup_empty in Hocc.
  assert (m !! a = Some v) as Hm by (by eapply map_range_elem, (list_elem_of_lookup_2 _ n)). rewrite Hm in Hocc. simpl in Hocc. lia.
Qed.
End acks.
