(* ===== verification/ShuffleConsistency.v ===== *)
(** * What shards share when the ring changes

    The two promises of the comments of [ShuffleShard] and
    [ShuffleShardWithLookback] ([ring/ring.go]): adding or removing an instance
    makes at most one difference to a shard, and a shard with lookback contains the
    instances that were part of it. *)
From Stdlib Require Import ZArith Lia.
From stdpp Require Import base gmap strings list sorting fin_maps relations.
From S2P Require Import Prelude Model ModelFacts ResolveFacts Ring RingFacts GetFacts Shuffle ShuffleFacts.

(** ** Walks on sorted tokens *)
Section lists.
Fixpoint squash (l : list Z) : list Z :=
  match l with
  | [] => []
  | t :: l => match l with t' :: _ => if decide (t = t') then squash l else t :: squash l | [] => [t] end
  end.
Lemma squash_elem l t : t ∈ squash l ↔ t ∈ l.
Proof.
  induction l as [|a [|b l] IH]; [done..|]. cbn [squash] in *. destruct (decide (a = b)) as [->|].
  - rewrite IH. set_solver.
  - rewrite elem_of_cons, IH. set_solver.
Qed.
Lemma squash_sorted l : StronglySorted Z.le l → SSorted (squash l).
Proof.
  induction l as [|a [|b l] IH]; intros Hs; [constructor|repeat constructor|].
  apply StronglySorted_inv in Hs as [Hs Ha]. specialize (IH Hs). cbn [squash]. destruct (decide (a = b)) as [->|Hne]; [done|].
  change (SSorted (a :: squash (b :: l))). constructor; [done|].
  apply Forall_forall. intros t Ht. apply (squash_elem (b :: l)) in Ht.
  apply Forall_cons in Ha as [Hab Ha]. apply StronglySorted_inv in Hs as [_ Hb].
  apply elem_of_cons in Ht as [->|Ht]; [lia|]. rewrite Forall_forall in Hb. specialize (Hb _ Ht). lia.
Qed.
Lemma pick_squash rc (f : Z → string) l rest s : pick rc (f <$> (squash l ++ rest)) s = pick rc (f <$> (l ++ rest)) s.
Proof.
  revert s. induction l as [|a [|b l] IH]; intros s; [done..|]. cbn [squash]. destruct (decide (a = b)) as [->|Hne].
  - rewrite IH. simpl. destruct (decide (f b ∈ s)) as [Hin|Hin]; [done|].
    destruct (rc (f b)); [|done]. by rewrite decide_True by set_solver.
  - change (pick rc (f a :: (f <$> (squash (b :: l) ++ rest))) s = pick rc (f a :: (f <$> ((b :: l) ++ rest))) s).
    cbn [pick]. by rewrite !IH.
Qed.

(** the tokens beyond the key, then the others *)
Definition beyond (key : Z) (tokens : list Z) : list Z := filter (λ t, key < t) tokens.
Definition upto (key : Z) (tokens : list Z) : list Z := filter (λ t, t ≤ key) tokens.

Lemma token_at_rotate tokens i : (i < length tokens)%nat →
  token_at tokens <$> seq i (length tokens) = drop i tokens ++ take i tokens.
Proof.
  intros Hi. apply list_eq. intros j. rewrite list_lookup_fmap.
  destruct (decide (j < length tokens)%nat) as [Hj|Hj].
  2: { rewrite lookup_seq_ge by lia. symmetry. apply lookup_ge_None. rewrite length_app, length_drop, length_take. lia. }
  rewrite lookup_seq_lt by done. simpl. unfold token_at. destruct (decide (i + j < length tokens)%nat) as [Hs|Hs].
  - rewrite Nat.mod_small by done. rewrite lookup_app_l by (rewrite length_drop; lia). rewrite lookup_drop.
    by destruct (lookup_lt_is_Some_2 tokens (i + j)%nat Hs) as [t ->].
  - rewrite lookup_app_r by (rewrite length_drop; lia). rewrite length_drop, lookup_take_lt by lia.
    assert ((i + j) mod length tokens = j - (length tokens - i))%nat as ->.
    { symmetry. apply (Nat.mod_unique _ _ 1); lia. }
    by destruct (lookup_lt_is_Some_2 tokens (j - (length tokens - i))%nat ltac:(lia)) as [t ->].
Qed.
Lemma filter_all {A} (P : A → Prop) `{!∀ x, Decision (P x)} (l : list A) : (∀ x, x ∈ l → P x) → filter P l = l.
Proof.
  induction l as [|x l IH]; intros Hl; [done|]. rewrite filter_cons, decide_True by (apply Hl; by left). f_equal.
  apply IH. intros y Hy. apply Hl. by right.
Qed.
Lemma filter_none {A} (P : A → Prop) `{!∀ x, Decision (P x)} (l : list A) : (∀ x, x ∈ l → ¬ P x) → filter P l = [].
Proof.
  induction l as [|x l IH]; intros Hl; [done|]. rewrite filter_cons, decide_False by (apply Hl; by left).
  apply IH. intros y Hy. apply Hl. by right.
Qed.
Lemma rotate_sorted tokens key : StronglySorted Z.le tokens → tokens ≠ [] →
  token_at tokens <$> seq (searchToken tokens key) (length tokens) = beyond key tokens ++ upto key tokens.
Proof.
  intros Hs Hne. rewrite token_at_rotate by (by apply searchToken_lt). pose proof (searchToken_spec tokens key Hs) as Hspec. cbv zeta in Hspec.
  set (i := searchToken tokens key) in *. destruct Hspec as [[(t & Ht & Hkey) Hbefore]|[Hi Hall]].
  - assert (∀ x, x ∈ take i tokens → x ≤ key) as H1.
    { intros x [j Hj]%list_elem_of_lookup. apply lookup_take_Some in Hj as [Hj Hlt]. by eapply Hbefore. }
    assert (∀ x, x ∈ drop i tokens → key < x) as H2.
    { intros x [j Hj]%list_elem_of_lookup. rewrite lookup_drop in Hj. destruct j as [|j].
      - rewrite Nat.add_0_r in Hj. congruence.
      - pose proof (sorted_lookup_le tokens i (i + S j) t x Hs ltac:(lia) Ht Hj). lia. }
    unfold beyond, upto. rewrite <- (take_drop i tokens) at 3 4. rewrite !filter_app.
    rewrite (filter_none _ (take i tokens)), (filter_all _ (drop i tokens)), (filter_all _ (take i tokens)), (filter_none _ (drop i tokens));
      [by rewrite app_nil_r|intros x Hx; specialize (H2 x Hx); lia|intros x Hx; by apply H1|intros x Hx; by apply H2|intros x Hx; specialize (H1 x Hx); lia].
  - rewrite Hi. simpl. unfold beyond, upto. rewrite app_nil_r, filter_none, filter_all; [done|done|]. intros x Hx. specialize (Hall x Hx). lia.
Qed.
Lemma filter_sorted (P : Z → Prop) `{!∀ x, Decision (P x)} (Rel : Z → Z → Prop) l : StronglySorted Rel l → StronglySorted Rel (filter P l).
Proof.
  induction 1 as [|x l Hs IH Hx]; [constructor|]. rewrite filter_cons. case_decide; [|done]. constructor; [done|].
  apply Forall_forall. intros y [_ Hy]%list_elem_of_filter. rewrite Forall_forall in Hx. by apply Hx.
Qed.
End lists.

(** ** Two walks that agree on some instances *)
Section survivors.
(** [P]: the instances that both walks can visit *)
Context (P : gset string) (rc : string → bool).
Abbreviation kept := (filter (λ id, id ∈ P)).

(** the first kept instance that is not selected is reached *)
Lemma pick_reaches w s l a l' : kept w = l ++ a :: l' → (∀ id, id ∈ l → id ∈ s) → (∀ id, id ∈ w → id ∉ P → rc id = true) →
  a ∈ (pick rc w s).1.
Proof.
  revert s l. induction w as [|h w IH]; intros s l Hw Hl Hrc; [by destruct l|]. rewrite filter_cons in Hw. cbn [pick].
  assert (∀ id, id ∈ w → id ∉ P → rc id = true) as Hrc' by (intros id Hid; apply Hrc; by right).
  destruct (decide (h ∈ P)) as [Hh|Hh].
  - destruct l as [|h' l]; injection Hw as -> Hw.
    + destruct (decide (a ∈ s)) as [Hin|Hin]; [by apply pick_extends|]. destruct (rc a); [apply pick_extends|simpl]; set_solver.
    + rewrite decide_True by (apply Hl; by left). apply (IH s l); [done| |done]. intros id Hid. apply Hl. by right.
  - destruct (decide (h ∈ s)); [by apply (IH s l)|]. rewrite (Hrc h) by (done || by left). apply (IH _ l); [done| |done].
    intros id Hid. specialize (Hl id Hid). set_solver.
Qed.
Lemma pick_kept w0 w1 s0 s1 : kept w0 = kept w1 → (∀ id, id ∈ w1 → id ∉ P → rc id = true) → s0 ∩ P ⊆ s1 →
  (pick (λ _, false) w0 s0).1 ∩ P ⊆ (pick rc w1 s1).1.
Proof.
  intros Hk Hrc Hs. pose proof (pick_extends rc w1 s1) as Hext.
  assert (∀ pre w, w0 = pre ++ w → (∀ id, id ∈ pre → id ∈ s0) → (pick (λ _, false) w s0).1 ∩ P ⊆ (pick rc w1 s1).1) as H; [|apply (H [] w0); [done|by intros id ?%elem_of_nil]].
  intros pre w. revert pre. induction w as [|a w IH]; intros pre Hw Hpre; simpl; [set_solver|].
  case_decide as Ha; simpl.
  - apply (IH (pre ++ [a])); [by rewrite <- app_assoc|]. intros id [Hid| ->%list_elem_of_singleton]%elem_of_app; auto.
  - destruct (decide (a ∈ P)) as [HaP|HaP]; [|set_solver].
    assert (a ∈ (pick rc w1 s1).1); [|set_solver]. eapply (pick_reaches w1 s1 (kept pre) a (kept w)); [|..|done].
    + by rewrite <- Hk, Hw, filter_app, filter_cons, decide_True.
    + intros id [Hid Hp]%list_elem_of_filter. apply Hs. apply elem_of_intersection. auto.
Qed.
(** the rounds of a zone *)
Lemma pick_rounds_kept (W0 W1 : nat → list string) (z0 z1 : gset string) n m i s0 s1 :
  (∀ i, kept (W0 i) = kept (W1 i)) → (∀ i, list_to_set (W0 i) = z0) → (∀ i, list_to_set (W1 i) = z1) →
  (∀ id, id ∈ z1 → id ∉ P → rc id = true) → (n ≤ m)%nat → s0 ∩ P ⊆ s1 →
  pick_rounds (λ _, false) W0 n i s0 ∩ P ⊆ pick_rounds rc W1 m i s1.
Proof.
  intros Hk Hz0 Hz1 Hrc. assert (z0 ∩ P ⊆ z1) as Hz.
  { rewrite <- (Hz0 0%nat), <- (Hz1 0%nat). intros id [Hid HP]%elem_of_intersection. apply elem_of_list_to_set in Hid. apply elem_of_list_to_set.
    assert (id ∈ kept (W1 0%nat)) as [_ ?]%list_elem_of_filter; [|done]. rewrite <- Hk. by apply list_elem_of_filter. }
  revert m i s0 s1. induction n as [|n IH]; intros m i s0 s1 Hnm Hs; cbn [pick_rounds].
  { etrans; [done|]. apply pick_rounds_extends. }
  destruct m as [|m]; [lia|]. cbn [pick_rounds].
  pose proof (pick_kept (W0 i) (W1 i) s0 s1 (Hk i)) as Hp. pose proof (pick_exhausted rc (W1 i) s1) as Hex.
  specialize (Hp ltac:(intros id Hid; apply Hrc; rewrite <- (Hz1 i); by apply elem_of_list_to_set) Hs).
  destruct (pick (λ _, false) (W0 i) s0) as [s0' []], (pick rc (W1 i) s1) as [s1' []]; simpl in *.
  - apply IH; [lia|done].
  - specialize (Hex eq_refl). rewrite Hz1 in Hex. pose proof (pick_rounds_within W0 z0 Hz0 (λ _, false) n (S i) s0') as Hw. set_solver.
  - etrans; [done|]. apply pick_rounds_extends.
  - done.
Qed.
End survivors.

(** ** One instance more *)
Section one_more.
Context (x : string).
(** the selections differ by [x], which has taken the place of at most one instance
    of its zone [z] *)
Definition one_difference (z s0 s1 : gset string) : Prop :=
  x ∉ s0 ∧ (s1 = s0 ∨ s1 = {[x]} ∪ s0 ∨ ∃ y, y ∈ s0 ∧ y ∈ z ∧ s1 = {[x]} ∪ (s0 ∖ {[y]})).

(** the first instance of the walk that is not selected *)
Lemma pick_first (w : list string) (s : gset string) : (pick (λ _, false) w s).2 = false ∧ (pick (λ _, false) w s).1 = s ∧ (∀ id, id ∈ w → id ∈ s) ∨
  ∃ l a l', w = l ++ a :: l' ∧ (∀ id, id ∈ l → id ∈ s) ∧ a ∉ s ∧ pick (λ _, false) w s = ({[a]} ∪ s, true).
Proof.
  induction w as [|h w IH]; simpl; [left; split_and!; [done..|by intros id ?%elem_of_nil]|].
  case_decide as Hh; [|right; exists [], h, w; split_and!; [done|by intros id ?%elem_of_nil|done..]].
  destruct IH as [(H1 & H2 & H3)|(l & a & l' & -> & Hl & Ha & Hp)].
  - left. split_and!; [done..|]. intros id [->|?]%elem_of_cons; auto.
  - right. exists (h :: l), a, l'. split_and!; [done| |done..]. intros id [->|?]%elem_of_cons; auto.
Qed.
Lemma first_unique (w : list string) (s : gset string) l1 a1 l1' l2 a2 l2' : w = l1 ++ a1 :: l1' → w = l2 ++ a2 :: l2' →
  (∀ id, id ∈ l1 → id ∈ s) → (∀ id, id ∈ l2 → id ∈ s) → a1 ∉ s → a2 ∉ s → a1 = a2.
Proof.
  revert l1 l2. induction w as [|h w IH]; intros [|h1 l1] [|h2 l2] H1 H2 Hl1 Hl2 Ha1 Ha2; simplify_eq/=; [done|..].
  - exfalso. apply Ha1, Hl2. by left.
  - exfalso. apply Ha2, Hl1. by left.
  - apply (IH l1 l2); [done..| | |done|done]; intros id Hid; [apply Hl1|apply Hl2]; by right.
Qed.

Abbreviation others := (filter (λ id, id ≠ x)).
Lemma one_difference_step z w0 w1 s0 s1 :
  others w1 = w0 → (∀ id, id ∈ w0 → id ∈ z) → one_difference z s0 s1 →
  let '(s0', f0) := pick (λ _, false) w0 s0 in let '(s1', f1) := pick (λ _, false) w1 s1 in
  one_difference z s0' s1' ∧ (f0 = true → f1 = true) ∧ (f0 = false → s0' = s0 ∧ ∀ id, id ∈ w0 → id ∈ s0).
Proof.
  intros Hw Hz [Hx Hd].
  assert (∀ id, id ∈ w0 ↔ id ∈ w1 ∧ id ≠ x) as Hin by (intros id; rewrite <- Hw, list_elem_of_filter; naive_solver).
  destruct (pick_first w0 s0) as [(Hf0 & Hs0 & Hall)|(l & a & l' & Hl & Hls & Ha & ->)].
  - destruct (pick _ w0 s0) as [s0' f0]. simpl in *. subst s0' f0.
    assert (∀ s1', one_difference z s0 s1' → ∀ f1, one_difference z s0 s1' ∧ (false = true → f1 = true) ∧
      (false = false → s0 = s0 ∧ ∀ id, id ∈ w0 → id ∈ s0)) as Hgo by done.
    destruct (pick_first w1 s1) as [(Hf1 & Hs1 & _)|(m & b & m' & Hm & Hms & Hb & ->)].
    + destruct (pick _ w1 s1) as [s1' f1]. simpl in *. subst s1' f1. by apply Hgo.
    + apply Hgo. assert (b = x ∨ b ∈ s0) as Hbx.
      { destruct (decide (b = x)); [by left|right]. apply Hall, Hin. split; [rewrite Hm; set_solver|done]. }
      split; [done|]. destruct Hd as [->|[->|(y & Hy & Hyz & ->)]].
      * right. left. destruct Hbx as [->|?]; [done|done].
      * exfalso. set_solver.
      * right. left. assert (b = y) as -> by (destruct (decide (b = y)); [done|exfalso; set_solver]).
        apply set_eq. intros id. destruct (decide (id = y)); set_solver.
  - assert (a ∈ w0) as Haw by (rewrite Hl; set_solver). assert (a ≠ x) as Hax by (by apply Hin in Haw as [_ ?]).
    assert (a ∈ z) as Haz by by apply Hz.
    destruct (pick_first w1 s1) as [(_ & _ & Hall)|(m & b & m' & Hm & Hms & Hb & ->)].
    { exfalso. assert (a ∈ s1) by (by apply Hall, Hin). destruct Hd as [->|[->|(y & Hy & Hyz & ->)]]; set_solver. }
    split; [|done]. split; [set_solver|]. destruct (decide (b = x)) as [->|Hbx].
    + destruct Hd as [->|[->|(y & Hy & Hyz & ->)]]; [|exfalso; set_solver..].
      right. right. exists a. split_and!; [set_solver|done|]. apply set_eq. intros id. destruct (decide (id = a)); set_solver.
    + assert (w0 = others m ++ b :: others m') as Hw0 by (by rewrite <- Hw, Hm, filter_app, filter_cons, decide_True).
      assert (∀ id, id ∈ others m → id ∈ s0) as Hom.
      { intros id [Hne Hid]%list_elem_of_filter. specialize (Hms id Hid). destruct Hd as [->|[->|(y & Hy & Hyz & ->)]]; set_solver. }
      destruct (decide (b ∈ s0)) as [Hbs|Hbs].
      * destruct Hd as [->|[->|(y & Hy & Hyz & ->)]]; [done|exfalso; set_solver|].
        assert (b = y) as -> by (destruct (decide (b = y)); [done|exfalso; set_solver]).
        right. right. exists a. split_and!; [set_solver|done|]. apply set_eq. intros id.
        destruct (decide (id = a)), (decide (id = y)); set_solver.
      * assert (a = b) as <- by (by eapply (first_unique w0 s0)).
        destruct Hd as [->|[->|(y & Hy & Hyz & ->)]]; [by left|right; left; set_solver|].
        right. right. exists y. split_and!; [set_solver|done|]. apply set_eq. intros id.
        destruct (decide (id = a)), (decide (id = y)); set_solver.
Qed.

(** in the zone of [x] *)
Lemma one_difference_rounds (W0 W1 : nat → list string) (z : gset string) n i s0 s1 :
  (∀ i, others (W1 i) = W0 i) → (∀ i, list_to_set (W0 i) = z) → one_difference z s0 s1 →
  one_difference z (pick_rounds (λ _, false) W0 n i s0) (pick_rounds (λ _, false) W1 n i s1).
Proof.
  intros Hw Hz. assert (∀ i id, id ∈ W0 i → id ∈ z) as Hz' by (intros j id Hid; rewrite <- (Hz j); by apply elem_of_list_to_set).
  assert (∀ n i s0 s1, (∀ id, id ∈ z → id ∈ s0) → one_difference z s0 s1 →
    one_difference z s0 (pick_rounds (λ _, false) W1 n i s1)) as Halone.
  { clear n i s0 s1. intros n. induction n as [|n IH]; intros i s0 s1 Hall Hd; cbn [pick_rounds]; [done|].
    pose proof (one_difference_step z (W0 i) (W1 i) s0 s1 (Hw i) (Hz' i) Hd) as Hst.
    destruct (pick_first (W0 i) s0) as [(Hf0 & Hs0 & _)|(l & a & l' & Hl & _ & Ha & _)].
    - destruct (pick _ (W0 i) s0) as [s0' f0], (pick _ (W1 i) s1) as [s1' f1]. simpl in *. subst s0' f0. destruct Hst as [Hd' _].
      destruct f1; [by apply IH|done].
    - exfalso. apply Ha, Hall, (Hz' i). rewrite Hl. set_solver. }
  revert i s0 s1. induction n as [|n IH]; intros i s0 s1 Hd; cbn [pick_rounds]; [done|].
  pose proof (one_difference_step z (W0 i) (W1 i) s0 s1 (Hw i) (Hz' i) Hd) as Hst.
  destruct (pick _ (W0 i) s0) as [s0' f0], (pick _ (W1 i) s1) as [s1' f1]. destruct Hst as (Hd' & Hf & Hex).
  destruct f0; [rewrite (Hf eq_refl); by apply IH|]. destruct f1; [|done]. destruct (Hex eq_refl) as [-> Hall].
  apply Halone; [|done]. intros id Hid. apply Hall. rewrite <- (Hz i) in Hid. by apply elem_of_list_to_set in Hid.
Qed.

(** in another zone both make the same choices *)
Lemma same_choices (W : nat → list string) (z z' : gset string) n i s0 s1 :
  (∀ i, list_to_set (W i) = z') → x ∉ z' → z ## z' → one_difference z s0 s1 →
  one_difference z (pick_rounds (λ _, false) W n i s0) (pick_rounds (λ _, false) W n i s1).
Proof.
  intros Hz' Hx' Hdis. revert i s0 s1. induction n as [|n IH]; intros i s0 s1 Hd; cbn [pick_rounds]; [done|].
  assert (∀ id, id ∈ W i → id ∈ s0 ↔ id ∈ s1) as Hag.
  { intros id Hid. assert (id ∈ z') as Hid' by (rewrite <- (Hz' i); by apply elem_of_list_to_set).
    destruct Hd as [Hx [->|[->|(y & Hy & Hyz & ->)]]]; [done|set_solver|]. assert (id ≠ y) by set_solver. assert (id ≠ x) by set_solver. set_solver. }
  destruct (pick_first (W i) s0) as [(Hf0 & Hs0 & Hall0)|(l & a & l' & Hl & Hls & Ha & Hp)];
    destruct (pick_first (W i) s1) as [(Hf1 & Hs1 & Hall1)|(m & b & m' & Hm & Hms & Hb & Hq)].
  - destruct (pick _ (W i) s0) as [s0' f0], (pick _ (W i) s1) as [s1' f1]. simpl in *. by subst.
  - exfalso. assert (b ∈ W i) as Hbw by (rewrite Hm; set_solver). by apply Hb, Hag, Hall0.
  - exfalso. assert (a ∈ W i) as Haw by (rewrite Hl; set_solver). by apply Ha, Hag, Hall1.
  - assert (a ∈ W i) as Haw by (rewrite Hl; set_solver).
    assert (a = b) as <-.
    { apply (first_unique (W i) s0 l a l' m b m'); [done..| |done|].
      - intros id Hid. apply Hag; [rewrite Hm; set_solver|by apply Hms].
      - rewrite Hag; [done|]. rewrite Hm. set_solver. }
    rewrite Hp, Hq. apply IH. assert (a ∈ z') as Haz by (rewrite <- (Hz' i); by apply elem_of_list_to_set).
    destruct Hd as [Hx [->|[->|(y & Hy & Hyz & ->)]]]; (split; [set_solver|]).
    + by left.
    + right. left. set_solver.
    + right. right. exists y. split_and!; [set_solver|done|]. assert (a ≠ y) by set_solver. apply set_eq. intros id.
      destruct (decide (id = a)), (decide (id = y)); set_solver.
Qed.
End one_more.

(** ** Walks of two rings *)
Section rings.
Context `{R : MapRange} `{Rnd : RandSource}.
Implicit Types r : subring.

Lemma pick_rounds_ext rc (W W' : nat → list string) n i s :
  (∀ i s, pick rc (W i) s = pick rc (W' i) s) → pick_rounds rc W n i s = pick_rounds rc W' n i s.
Proof.
  intros He. revert i s. induction n as [|n IH]; intros i s; cbn [pick_rounds]; [done|]. rewrite He.
  destruct (pick rc (W' i) s) as [s' []]; [apply IH|done].
Qed.

(** the walk of a zone without repetitions of a token *)
Definition clean_tokens r (zone : string) (key : Z) : list Z :=
  squash (beyond key (zone_tokens r zone)) ++ squash (upto key (zone_tokens r zone)).
Definition clean_walk r (zone identifier : string) (i : nat) : list string :=
  owner_name r <$> clean_tokens r zone (rand_Uint32 (ShuffleShardSeed identifier zone) i).
Lemma zone_tokens_sorted r zone : ring_ok r → StronglySorted Z.le (zone_tokens r zone).
Proof. intros Hok. unfold zone_tokens. destruct (ZoneAwarenessEnabled (cfg r)); [apply (ok_byzone r Hok)|apply (ok_sorted r Hok)]. Qed.
Lemma clean_tokens_elem r zone key t : t ∈ clean_tokens r zone key ↔ t ∈ zone_tokens r zone.
Proof.
  unfold clean_tokens, beyond, upto. rewrite elem_of_app, !squash_elem, !list_elem_of_filter.
  destruct (decide (key < t)); naive_solver lia.
Qed.
Lemma pick_clean r rc zone identifier i s : ring_ok r →
  pick rc (zone_walk r (zone_tokens r zone) (rand_Uint32 (ShuffleShardSeed identifier zone)) i) s = pick rc (clean_walk r zone identifier i) s.
Proof.
  intros Hok. unfold zone_walk, walk_of, clean_walk, clean_tokens. set (key := rand_Uint32 _ i). set (tokens := zone_tokens r zone).
  destruct (decide (tokens = [])) as [->|Hne]; [done|]. rewrite rotate_sorted by (done || by apply zone_tokens_sorted).
  rewrite pick_squash, !fmap_app. symmetry. generalize (owner_name r <$> beyond key tokens). intros l. revert s.
  induction l as [|h l IH]; intros s; simpl.
  - pose proof (pick_squash rc (owner_name r) (upto key tokens) [] s) as Hp. by rewrite !app_nil_r in Hp.
  - by rewrite !IH.
Qed.
Lemma clean_walk_set r zone identifier i : list_to_set (clean_walk r zone identifier i) = zone_names r zone.
Proof.
  unfold zone_names, clean_walk. apply set_eq. intros id. rewrite !elem_of_list_to_set, !list_elem_of_fmap.
  by setoid_rewrite clean_tokens_elem.
Qed.

(** the instances of [P] are in both rings, with the same tokens in the same zone *)
Definition same_in r0 r1 (P : gset string) : Prop := ∀ id, id ∈ P → ∃ i0 i1,
  Ingesters (ringDesc r0) !! id = Some i0 ∧ Ingesters (ringDesc r1) !! id = Some i1 ∧
  Zone i0 = Zone i1 ∧ ∀ t, t ∈ Tokens i0 ↔ t ∈ Tokens i1.
Record comparable r0 r1 : Prop := {
  cm_ok0 : ring_ok r0; cm_ok1 : ring_ok r1;
  cm_cf0 : conflict_free (Ingesters (ringDesc r0)); cm_cf1 : conflict_free (Ingesters (ringDesc r1));
  cm_za : ZoneAwarenessEnabled (cfg r0) = ZoneAwarenessEnabled (cfg r1)
}.
Lemma same_in_sym r0 r1 P : same_in r0 r1 P → same_in r1 r0 P.
Proof. intros H id Hid. destruct (H id Hid) as (i0 & i1 & ? & ? & ? & Ht). exists i1, i0. split_and!; [done..|]. intros t. by rewrite Ht. Qed.
Lemma zone_token_owner r zone t : ring_ok r → conflict_free (Ingesters (ringDesc r)) →
  t ∈ zone_tokens r zone ↔ ∃ i, Ingesters (ringDesc r) !! owner_name r t = Some i ∧
    (ZoneAwarenessEnabled (cfg r) = true → Zone i = zone) ∧ t ∈ Tokens i.
Proof.
  intros Hok Hcf. unfold zone_tokens. split.
  - intros Ht. assert (∃ k i, Ingesters (ringDesc r) !! k = Some i ∧ (ZoneAwarenessEnabled (cfg r) = true → Zone i = zone) ∧ t ∈ Tokens i)
      as (k & i & Hk & Hz & Hti).
    { destruct (ZoneAwarenessEnabled (cfg r)); [apply (ok_byzone r Hok) in Ht|apply (ok_tokens r Hok) in Ht]; naive_solver. }
    exists i. by rewrite (owner_of r t k i).
  - intros (i & Hi & Hz & Hti). destruct (ZoneAwarenessEnabled (cfg r)).
    + apply (ok_byzone r Hok). exists (owner_name r t), i. auto.
    + apply (ok_tokens r Hok). exists (owner_name r t), i. auto.
Qed.
(** both walks visit them in the same order *)
Lemma kept_tokens_half r0 r1 P zone t : comparable r0 r1 → same_in r0 r1 P →
  owner_name r0 t ∈ P → t ∈ zone_tokens r0 zone → owner_name r1 t = owner_name r0 t ∧ t ∈ zone_tokens r1 zone.
Proof.
  intros [Hok0 Hok1 Hcf0 Hcf1 Hza] Hsame HP (i & Hi & Hz & Ht)%zone_token_owner; [|done..].
  destruct (Hsame _ HP) as (i0 & i1 & Hi0 & Hi1 & Hzz & Hts). rewrite Hi in Hi0. injection Hi0 as <-.
  assert (owner_name r1 t = owner_name r0 t) as He by (apply (owner_of r1 t _ i1); [done..|by apply Hts]).
  split; [done|]. apply zone_token_owner; [done..|]. exists i1. rewrite He. split_and!; [done| |by apply Hts].
  rewrite <- Hza, <- Hzz. done.
Qed.
Lemma comparable_sym r0 r1 : comparable r0 r1 → comparable r1 r0.
Proof. intros []. by constructor. Qed.
Lemma filter_fmap_pred {A B} (f : A → B) (Q : B → Prop) `{!∀ y, Decision (Q y)} (l : list A) :
  filter Q (f <$> l) = f <$> filter (λ a, Q (f a)) l.
Proof. induction l as [|a l IH]; [done|]. rewrite fmap_cons, !filter_cons, IH. by case_decide. Qed.
Lemma kept_walk r0 r1 P zone identifier i : comparable r0 r1 → same_in r0 r1 P →
  filter (λ id, id ∈ P) (clean_walk r0 zone identifier i) = filter (λ id, id ∈ P) (clean_walk r1 zone identifier i).
Proof.
  intros Hc Hs. unfold clean_walk. set (key := rand_Uint32 _ i).
  rewrite (filter_fmap_pred (owner_name r0) (λ id, id ∈ P)), (filter_fmap_pred (owner_name r1) (λ id, id ∈ P)).
  assert (∀ Q `{!∀ t : Z, Decision (Q t)}, filter (λ t, owner_name r0 t ∈ P) (squash (filter Q (zone_tokens r0 zone)))
    = filter (λ t, owner_name r1 t ∈ P) (squash (filter Q (zone_tokens r1 zone)))) as Hhalf.
  { intros Q ?. pose proof Hc as [Hok0 Hok1 _ _ _]. apply SSorted_ext.
    - by apply filter_sorted, squash_sorted, filter_sorted, zone_tokens_sorted.
    - by apply filter_sorted, squash_sorted, filter_sorted, zone_tokens_sorted.
    - intros t. rewrite !list_elem_of_filter, !squash_elem, !list_elem_of_filter. split; intros (HP & HQ & Ht).
      + destruct (kept_tokens_half r0 r1 P zone t) as [-> ?]; done.
      + destruct (kept_tokens_half r1 r0 P zone t) as [-> ?]; [by apply comparable_sym|by apply same_in_sym|done..]. }
  unfold clean_tokens, beyond, upto. rewrite !filter_app, !Hhalf. apply list_fmap_ext. intros j t Ht.
  assert (owner_name r1 t ∈ P ∧ t ∈ zone_tokens r1 zone) as [HP Hz].
  { apply list_elem_of_lookup_2 in Ht. rewrite elem_of_app, !list_elem_of_filter, !squash_elem, !list_elem_of_filter in Ht. naive_solver. }
  destruct (kept_tokens_half r1 r0 P zone t) as [-> _]; [by apply comparable_sym|by apply same_in_sym|done..].
Qed.

Lemma pick_zone_clean r rc zone identifier n s : ring_ok r →
  pick_rounds rc (zone_walk r (zone_tokens r zone) (rand_Uint32 (ShuffleShardSeed identifier zone))) n 0 s
  = pick_rounds rc (clean_walk r zone identifier) n 0 s.
Proof. intros Hok. apply pick_rounds_ext. intros i s'. by apply pick_clean. Qed.
Lemma zone_names_known r zone id : ring_ok r → conflict_free (Ingesters (ringDesc r)) → id ∈ zone_names r zone →
  ∃ i, Ingesters (ringDesc r) !! id = Some i ∧ (ZoneAwarenessEnabled (cfg r) = true → Zone i = zone).
Proof. intros Hok Hcf (i & Hi & _ & Hz)%zone_names_spec; [|done..]. eauto. Qed.
Lemma shard_dom r sel : dom (Ingesters (ringDesc (subring_of r (to_shard r sel)))) = sel.
Proof.
  rewrite subring_of_desc. cbn [sorted_desc Ingesters]. rewrite dom_fmap_L. apply set_eq. intros id.
  rewrite elem_of_dom, to_shard_lookup. case_decide; [naive_solver|]. split; [by intros []|done].
Qed.

(** *** With lookback *)
Lemma pick_zones_kept r0 r1 P rc zones0 zones1 n m identifier s0 s1 :
  comparable r0 r1 → same_in r0 r1 P → zones1 `sublist_of` zones0 → NoDup zones0 →
  (∀ z id, z ∈ zones0 → z ∉ zones1 → id ∈ zone_names r0 z → id ∉ P) →
  (∀ z id, id ∈ zone_names r1 z → id ∉ P → rc id = true) → (n ≤ m)%nat → s0 ∩ P ⊆ s1 →
  pick_zones r0 (λ _, false) zones0 n identifier s0 ∩ P ⊆ pick_zones r1 rc zones1 m identifier s1.
Proof.
  intros Hc Hsame Hsub Hnd Hlost Hrc Hnm. pose proof Hc as [Hok0 Hok1 _ _ _].
  revert s0 s1. induction Hsub as [|z zones1 zones0 Hsub IH|z zones1 zones0 Hsub IH]; intros s0 s1 Hs; [done|..];
    apply NoDup_cons in Hnd as [Hz Hnd]; cbn [pick_zones].
  - apply IH; [done| |].
    + intros z' id Hz' Hn. apply Hlost; [by right|]. intros [->|?]%elem_of_cons; done.
    + rewrite !pick_zone_clean by done. apply (pick_rounds_kept P rc _ _ (zone_names r0 z) (zone_names r1 z)); try done.
      * intros i. by apply kept_walk.
      * intros i. apply clean_walk_set.
      * intros i. apply clean_walk_set.
      * by apply Hrc.
  - apply IH; [done| |].
    + intros z' id Hz' Hn. apply Hlost; [by right|done].
    + assert (z ∉ zones1) as Hz1 by (intros Hin; by eapply Hz, elem_of_sublist).
      rewrite pick_zone_clean by done.
      pose proof (pick_rounds_within _ _ (clean_walk_set r0 z identifier) (λ _, false) n 0 s0) as Hw.
      specialize (Hlost z). intros id [Hid HP]%elem_of_intersection. apply Hw in Hid.
      apply elem_of_union in Hid as [Hid|Hid]; [set_solver|]. exfalso. eapply Hlost; [by left|done..].
Qed.
Lemma sorted_subset_sublist (l0 l1 : list string) :
  StronglySorted String.le l0 → StronglySorted String.le l1 → NoDup l1 → (∀ z, z ∈ l1 → z ∈ l0) → l1 `sublist_of` l0.
Proof.
  intros H0. revert l1. induction H0 as [|a l0 H0 IH Ha]; intros l1 H1 Hnd Hsub.
  - destruct l1 as [|b l1]; [constructor|]. specialize (Hsub b ltac:(by left)). by apply elem_of_nil in Hsub.
  - destruct l1 as [|b l1]; [apply sublist_nil_l|]. apply NoDup_cons in Hnd as [Hb Hnd]. apply StronglySorted_inv in H1 as [H1 Hb1].
    rewrite Forall_forall in Ha, Hb1. destruct (decide (b = a)) as [->|Hne].
    + apply sublist_skip, IH; [done..|]. intros z Hz. specialize (Hsub z ltac:(by right)). apply elem_of_cons in Hsub as [->|?]; done.
    + apply sublist_cons, IH; [by constructor; [|by apply Forall_forall]|by constructor|].
      intros z Hz. pose proof (Hsub z Hz) as [->|?]%elem_of_cons; [|done]. exfalso. apply elem_of_cons in Hz as [->|Hz]; [done|].
      pose proof (Hsub b ltac:(by left)) as [->|Hbl]%elem_of_cons; [done|]. apply Hne. apply (anti_symm String.le); auto.
Qed.
Lemma expected_antitone sz n0 n1 : 0 < n1 ≤ n0 →
  (Z.to_nat (ShuffleShardExpectedInstancesPerZone sz n0) ≤ Z.to_nat (ShuffleShardExpectedInstancesPerZone sz n1))%nat.
Proof.
  intros Hn. unfold ShuffleShardExpectedInstancesPerZone. destruct (decide (0 ≤ sz)) as [Hsz|Hsz].
  - assert (- sz / n1 ≤ - sz / n0); [|lia]. apply Z.div_le_lower_bound; [lia|].
    assert (n1 * (- sz / n1) ≤ - sz) by (apply Z.mul_div_le; lia). assert (- sz / n1 ≤ 0) by (apply Z.div_le_upper_bound; lia). nia.
  - assert (0 ≤ - sz / n0) by (apply Z.div_pos; lia). lia.
Qed.

Lemma same_in_kept r0 r1 :
  (∀ k i0 i1, Ingesters (ringDesc r0) !! k = Some i0 → Ingesters (ringDesc r1) !! k = Some i1 → Zone i0 = Zone i1 ∧ ∀ t, t ∈ Tokens i0 ↔ t ∈ Tokens i1) →
  same_in r0 r1 (dom (Ingesters (ringDesc r0)) ∩ dom (Ingesters (ringDesc r1))).
Proof.
  intros Hk id [[i0 H0]%elem_of_dom [i1 H1]%elem_of_dom]%elem_of_intersection. exists i0, i1. destruct (Hk id i0 i1); done.
Qed.

Lemma zones_sublist r0 r1 : ring_ok r0 → ring_ok r1 → (∀ z, z ∈ ringZones r1 → z ∈ ringZones r0) → ringZones r1 `sublist_of` ringZones r0.
Proof.
  intros Hok0 Hok1 Hz. apply sorted_subset_sublist; [| |apply (ok_zones r1 Hok1)|done];
    (apply Sorted_StronglySorted; [apply _|]); [apply (ok_zones r0 Hok0)|apply (ok_zones r1 Hok1)].
Qed.
Lemma pick_zones_known r rc zones n identifier (s : gset string) : ring_ok r → conflict_free (Ingesters (ringDesc r)) →
  s ⊆ dom (Ingesters (ringDesc r)) → pick_zones r rc zones n identifier s ⊆ dom (Ingesters (ringDesc r)).
Proof.
  intros Hok Hcf. revert s. induction zones as [|z zones IH]; intros s Hs; cbn [pick_zones]; [done|]. apply IH. rewrite pick_zone_clean by done.
  etrans; [apply (pick_rounds_within _ _ (clean_walk_set r z identifier))|]. intros id [Hid|Hid]%elem_of_union; [by apply Hs|].
  apply zone_names_known in Hid as (i & Hi & _); [|done..]. apply elem_of_dom. eauto.
Qed.

(** what the earlier shard had and the ring still has, the shard with lookback has *)
Lemma selected_kept r0 r1 identifier sz t0 lb now :
  comparable r0 r1 → 0 < lb →
  (ZoneAwarenessEnabled (cfg r0) = true → ∀ z, z ∈ ringZones r1 → z ∈ ringZones r0) →
  (∀ k i0 i1, Ingesters (ringDesc r0) !! k = Some i0 → Ingesters (ringDesc r1) !! k = Some i1 →
     Zone i0 = Zone i1 ∧ ∀ t, t ∈ Tokens i0 ↔ t ∈ Tokens i1) →
  (∀ k i, Ingesters (ringDesc r1) !! k = Some i → Ingesters (ringDesc r0) !! k = None → time_Unix (now - lb) ≤ RegisteredTimestamp i) →
  ∀ k, k ∈ selected r0 identifier sz 0 t0 → k ∈ dom (Ingesters (ringDesc r1)) → k ∈ selected r1 identifier sz lb now.
Proof.
  intros Hc Hlb Hzones Hkept Hnew k. pose proof Hc as [Hok0 Hok1 Hcf0 Hcf1 Hza]. set (D0 := dom (Ingesters (ringDesc r0))). set (D1 := dom (Ingesters (ringDesc r1))).
  pose proof (same_in_kept r0 r1 Hkept) as Hsame. fold D0 D1 in Hsame. intros Hk Hk1.
  assert (∀ z id, id ∈ zone_names r1 z → id ∉ D0 ∩ D1 → recent r1 lb (time_Unix (now - lb)) id = true) as Hrc.
  { intros z id (i & Hi & _)%zone_names_known Hn; [|done..].
    assert (Ingesters (ringDesc r0) !! id = None) as Hn0 by (apply not_elem_of_dom; unfold D0, D1 in Hn; rewrite elem_of_intersection, !elem_of_dom in Hn; rewrite elem_of_dom; naive_solver).
    unfold recent, ingester. rewrite Hi. simpl. apply andb_true_iff. rewrite !bool_decide_eq_true. split; [done|by eapply Hnew]. }
  assert (k ∈ D0 ∩ D1) as HkP.
  { apply elem_of_intersection. split; [|done]. eapply (pick_zones_known r0); [done|done| |exact Hk]. set_solver. }
  assert (recent r0 0 (time_Unix (t0 - 0)) = λ _, false) as Hrc0 by done.
  unfold selected in *. rewrite Hrc0 in Hk.
  eapply (pick_zones_kept r0 r1 (D0 ∩ D1) _ (shard_zones_list r0) (shard_zones_list r1)); [done|done|..|apply elem_of_intersection; by split].
  all: unfold shard_zones_list, instances_per_zone; rewrite <- ?Hza; destruct (ZoneAwarenessEnabled (cfg r0)) eqn:Hz0; rewrite <- ?Hza in *.
  - apply zones_sublist; auto.
  - done.
  - apply (ok_zones r0 Hok0).
  - apply NoDup_singleton.
  - intros z id _ Hz1 (i & Hi & Hzi)%zone_names_known [_ [i1 Hi1]%elem_of_dom]%elem_of_intersection; [|done..].
    apply Hz1, (ok_zones r1 Hok1). exists id, i1. split; [done|]. destruct (Hkept id i i1 Hi Hi1) as [<- _]. by apply Hzi.
  - set_solver.
  - done.
  - done.
  - apply elem_of_dom in Hk1 as [i1 Hi1]. assert (Zone i1 ∈ ringZones r1) as Hin by (apply (ok_zones r1 Hok1); eauto).
    apply expected_antitone. split; [destruct (ringZones r1); [by apply elem_of_nil in Hin|simpl; lia]|].
    assert (length (ringZones r1) ≤ length (ringZones r0))%nat; [|lia].
    apply sublist_length, zones_sublist; auto.
  - done.
  - set_solver.
  - set_solver.
Qed.

(** C20. What the comment of [ShuffleShardWithLookback] promises.  Between an
    earlier ring and the ring now, instances may have been removed, and instances
    may have been added, whose registration is within the lookback period; the others have
    kept their tokens and zones, and no zone is new.  Then every instance of the shard
    the tenant had at the earlier time, if it is still in the ring, is in the
    shard with lookback now. *)
Theorem lookback_covers_the_past r0 r1 identifier sz t0 lb now :
  comparable r0 r1 → 0 < lb →
  (ZoneAwarenessEnabled (cfg r0) = true → ∀ z, z ∈ ringZones r1 → z ∈ ringZones r0) →
  (∀ k i0 i1, Ingesters (ringDesc r0) !! k = Some i0 → Ingesters (ringDesc r1) !! k = Some i1 →
     Zone i0 = Zone i1 ∧ ∀ t, t ∈ Tokens i0 ↔ t ∈ Tokens i1) →
  (∀ k i, Ingesters (ringDesc r1) !! k = Some i → Ingesters (ringDesc r0) !! k = None → time_Unix (now - lb) ≤ RegisteredTimestamp i) →
  ∃ s0 s1, shuffleShard r0 identifier sz 0 t0 = Some s0 ∧ shuffleShard r1 identifier sz lb now = Some s1 ∧
    ∀ k, k ∈ dom (Ingesters (ringDesc s0)) → k ∈ dom (Ingesters (ringDesc r1)) → k ∈ dom (Ingesters (ringDesc s1)).
Proof.
  intros Hc Hlb Hzones Hkept Hnew. pose proof Hc as [Hok0 Hok1 _ _ _]. do 2 eexists. split; [by apply shuffleShard_selected|].
  split; [by apply shuffleShard_selected|]. rewrite !shard_dom. by apply selected_kept.
Qed.

(** *** One instance more *)
Lemma filter_ext_elem {A} (Q Q' : A → Prop) `{!∀ a, Decision (Q a)} `{!∀ a, Decision (Q' a)} (l : list A) :
  (∀ a, a ∈ l → Q a ↔ Q' a) → filter Q l = filter Q' l.
Proof.
  induction l as [|a l IH]; intros He; [done|]. rewrite !filter_cons, IH by (intros b Hb; apply He; by right).
  specialize (He a ltac:(by left)). repeat case_decide; tauto.
Qed.
Section added.
Context r0 r1 (x : string) (Hc : comparable r0 r1).
Context (Hx0 : Ingesters (ringDesc r0) !! x = None).
Context (Hdom : dom (Ingesters (ringDesc r1)) = {[x]} ∪ dom (Ingesters (ringDesc r0))).
Context (Hkept : ∀ k i0 i1, Ingesters (ringDesc r0) !! k = Some i0 → Ingesters (ringDesc r1) !! k = Some i1 →
  Zone i0 = Zone i1 ∧ ∀ t, t ∈ Tokens i0 ↔ t ∈ Tokens i1).
Lemma old_known zone id : id ∈ zone_names r0 zone → id ∈ dom (Ingesters (ringDesc r0)).
Proof. pose proof Hc as []. intros (i & Hi & _)%zone_names_known; [|done..]. apply elem_of_dom. eauto. Qed.
Lemma clean_walk_elem r zone identifier i id : id ∈ clean_walk r zone identifier i ↔ id ∈ zone_names r zone.
Proof. by rewrite <- (clean_walk_set r zone identifier i), elem_of_list_to_set. Qed.
(** the walks differ by [x] only *)
Lemma added_walk zone identifier i : filter (λ id, id ≠ x) (clean_walk r1 zone identifier i) = clean_walk r0 zone identifier i.
Proof.
  pose proof Hc as [Hok0 Hok1 Hcf0 Hcf1 _]. pose proof (same_in_kept r0 r1 Hkept) as Hsame.
  assert (x ∉ dom (Ingesters (ringDesc r0))) as Hx by (by apply not_elem_of_dom).
  pose proof (kept_walk r0 r1 _ zone identifier i Hc Hsame) as Hk.
  rewrite (filter_all _ (clean_walk r0 zone identifier i)) in Hk.
  - rewrite Hk. apply filter_ext_elem. intros id (i1 & Hi1 & _)%clean_walk_elem%zone_names_known; [|done..].
    assert (id ∈ dom (Ingesters (ringDesc r1))) as Hid by (apply elem_of_dom; eauto). rewrite Hdom in Hid |- *. set_solver.
  - intros id Hid%clean_walk_elem%old_known. rewrite Hdom. set_solver.
Qed.
Lemma pick_zones_added zx zones n identifier s0 s1 :
  (∀ z, z ∈ zones → z ≠ zx → x ∉ zone_names r1 z ∧ zone_names r0 zx ## zone_names r0 z) →
  one_difference x (zone_names r0 zx) s0 s1 →
  one_difference x (zone_names r0 zx) (pick_zones r0 (λ _, false) zones n identifier s0) (pick_zones r1 (λ _, false) zones n identifier s1).
Proof.
  pose proof Hc as [Hok0 Hok1 _ _ _]. revert s0 s1. induction zones as [|z zones IH]; intros s0 s1 Hz Hd; cbn [pick_zones]; [done|].
  apply IH; [intros z' Hz'; apply Hz; by right|]. rewrite !pick_zone_clean by done. destruct (decide (z = zx)) as [->|Hne].
  - apply one_difference_rounds; [intros i; apply added_walk|intros i; apply clean_walk_set|done].
  - destruct (Hz z ltac:(by left) Hne) as [Hxz Hdis].
    assert (x ∉ zone_names r0 z) as Hxz0 by (intros Hin%old_known; by apply not_elem_of_dom in Hx0).
    rewrite (pick_rounds_ext _ (clean_walk r1 z identifier) (clean_walk r0 z identifier)).
    + by apply (same_choices x _ _ (zone_names r0 z)); [intros i; apply clean_walk_set|..].
    + intros i s. rewrite <- added_walk, filter_all; [done|]. intros id Hid%clean_walk_elem ->. done.
Qed.
End added.

(** C21. What the comment of [ShuffleShard] promises: two rings of which one has an
    instance more, the others having the same tokens and zones, and no zone being
    new, give a tenant shards that differ by one instance at most: the additional instance may be
    in its shard, and at most one other is then left out. *)
Theorem one_instance_one_difference r0 r1 (x : string) identifier sz t0 t1 :
  comparable r0 r1 → Ingesters (ringDesc r0) !! x = None →
  dom (Ingesters (ringDesc r1)) = {[x]} ∪ dom (Ingesters (ringDesc r0)) →
  (∀ k i0 i1, Ingesters (ringDesc r0) !! k = Some i0 → Ingesters (ringDesc r1) !! k = Some i1 →
     Zone i0 = Zone i1 ∧ ∀ t, t ∈ Tokens i0 ↔ t ∈ Tokens i1) →
  (ZoneAwarenessEnabled (cfg r0) = true → ringZones r0 = ringZones r1) →
  ∃ s0 s1, shuffleShard r0 identifier sz 0 t0 = Some s0 ∧ shuffleShard r1 identifier sz 0 t1 = Some s1 ∧
    dom (Ingesters (ringDesc s1)) ∖ dom (Ingesters (ringDesc s0)) ⊆ {[x]} ∧
    (size (dom (Ingesters (ringDesc s0)) ∖ dom (Ingesters (ringDesc s1))) ≤ 1)%nat.
Proof.
  intros Hc Hx0 Hdom Hkept Hzones. pose proof Hc as [Hok0 Hok1 Hcf0 Hcf1 Hza]. do 2 eexists. split; [by apply shuffleShard_selected|].
  split; [by apply shuffleShard_selected|]. rewrite !shard_dom.
  assert (is_Some (Ingesters (ringDesc r1) !! x)) as [ix Hix] by (apply elem_of_dom; rewrite Hdom; set_solver).
  set (zx := if ZoneAwarenessEnabled (cfg r0) then Zone ix else ""%string).
  assert (one_difference x (zone_names r0 zx) (selected r0 identifier sz 0 t0) (selected r1 identifier sz 0 t1)) as [_ Hd].
  { unfold selected. assert (instances_per_zone r1 sz = instances_per_zone r0 sz) as ->.
    { unfold instances_per_zone. rewrite <- Hza. destruct (ZoneAwarenessEnabled (cfg r0)); [by rewrite Hzones|done]. }
    assert (shard_zones_list r1 = shard_zones_list r0) as ->.
    { unfold shard_zones_list. rewrite <- Hza. destruct (ZoneAwarenessEnabled (cfg r0)); [by rewrite Hzones|done]. }
    apply (pick_zones_added r0 r1 x Hc Hx0 Hdom Hkept); [|split; [set_solver|by left]].
    unfold shard_zones_list, zx. intros z Hz Hne. destruct (ZoneAwarenessEnabled (cfg r0)) eqn:Hz0.
    - split; [|by apply zone_names_disjoint]. intros (i & Hi & Hzi)%zone_names_known; [|done..].
      apply Hne. rewrite Hix in Hi. injection Hi as <-. symmetry. apply Hzi. by rewrite <- Hza.
    - by apply list_elem_of_singleton in Hz. }
  destruct Hd as [->|[->|(y & Hy & _ & ->)]]; (split; [set_solver|]).
  - rewrite difference_diag_L, size_empty. lia.
  - assert (selected r0 identifier sz 0 t0 ∖ ({[x]} ∪ selected r0 identifier sz 0 t0) = ∅) as -> by set_solver. rewrite size_empty. lia.
  - etrans; [apply (subseteq_size _ {[y]})|by rewrite size_singleton]. intros id. destruct (decide (id = y)); set_solver.
Qed.
End rings.

(** ** Witnesses *)
Section witnesses.
#[local] Existing Instance map_range_std.
#[local] Existing Instance ex_rand.
(** the tokens are in units of a hundred million *)
Definition registered (zone : string) (at_ : Z) (ts : list Z) : InstanceDesc :=
  mkInstanceDesc zone 100 ACTIVE ((λ t, t * 100000000) <$> ts) zone at_.
Definition ring_with (d : Desc) : subring := sub (updateRingState d (110 * Second) (110 * Second) (ex_Ring true)).
Lemma ring_with_ok d : ring_ok (ring_with d).
Proof. exact (proj1 (updateRingState_inv _ _ _ _ (ex_Ring_ok true))). Qed.

Definition two_zones : Desc := mkDesc {[
  "a1" := registered "a" 10 [5]; "a2" := registered "a" 10 [15]; "a3" := registered "a" 10 [25];
  "b1" := registered "b" 10 [10]; "b2" := registered "b" 10 [20]; "b3" := registered "b" 10 [30]; "b4" := registered "b" 10 [40] ]}.
(** one instance has left and another has been registered *)
Definition changed_zones : Desc := mkDesc (<["a4" := registered "a" 100 [35]]> (delete "b4" (Ingesters two_zones))).
Definition added_zones : Desc := mkDesc (<["a4" := registered "a" 100 [35]]> (Ingesters two_zones)).

(** decision procedures for the hypotheses *)
Definition kept_b (d0 d1 : Desc) : bool :=
  forallb (λ '(k, i0), match Ingesters d1 !! k with
    | Some i1 => bool_decide (Zone i0 = Zone i1) && bool_decide (Tokens i0 = Tokens i1) | None => true end) (map_to_list (Ingesters d0)).
Lemma kept_b_spec d0 d1 : kept_b d0 d1 = true → ∀ k i0 i1, Ingesters d0 !! k = Some i0 → Ingesters d1 !! k = Some i1 →
  Zone i0 = Zone i1 ∧ ∀ t, t ∈ Tokens i0 ↔ t ∈ Tokens i1.
Proof.
  unfold kept_b. rewrite forallb_forall. intros H k i0 i1 H0 H1.
  specialize (H (k, i0) (proj1 (list_elem_of_In _ _) (proj2 (elem_of_map_to_list _ _ _) H0))). simpl in H. rewrite H1 in H.
  apply andb_true_iff in H as [Hz%bool_decide_eq_true Ht%bool_decide_eq_true]. by rewrite Ht.
Qed.
Definition recent_b (d0 d1 : Desc) (since : Z) : bool :=
  forallb (λ '(k, i1), match Ingesters d0 !! k with Some _ => true | None => bool_decide (since ≤ RegisteredTimestamp i1) end) (map_to_list (Ingesters d1)).
Lemma recent_b_spec d0 d1 since : recent_b d0 d1 since = true →
  ∀ k i, Ingesters d1 !! k = Some i → Ingesters d0 !! k = None → since ≤ RegisteredTimestamp i.
Proof.
  unfold recent_b. rewrite forallb_forall. intros H k i H1 H0.
  specialize (H (k, i) (proj1 (list_elem_of_In _ _) (proj2 (elem_of_map_to_list _ _ _) H1))). simpl in H. rewrite H0 in H.
  by apply bool_decide_eq_true in H.
Qed.
Lemma ex_comparable d0 d1 :
  bool_decide (NoDup (tokens_of (map_to_list (Ingesters (ringDesc (ring_with d0)))))) = true →
  bool_decide (NoDup (tokens_of (map_to_list (Ingesters (ringDesc (ring_with d1)))))) = true →
  ZoneAwarenessEnabled (cfg (ring_with d0)) = ZoneAwarenessEnabled (cfg (ring_with d1)) → comparable (ring_with d0) (ring_with d1).
Proof. intros H0 H1 Hz. constructor; [apply ring_with_ok..|by apply conflict_free_of_NoDup|by apply conflict_free_of_NoDup|done]. Qed.

Definition shard_names (s : option subring) : option (list string) := (λ s, (map_to_list (Ingesters (ringDesc s))).*1) <$> s.
Lemma lookback_covers_the_past_witness :
  shard_names (shuffleShard (ring_with two_zones) "tenant" 4 0 (110 * Second)) = Some ["a1"; "a2"; "b3"; "b1"] ∧
  shard_names (shuffleShard (ring_with changed_zones) "tenant" 4 0 (120 * Second)) = Some ["a1"; "a4"; "b3"; "b1"] ∧
  ∃ s0 s1, shuffleShard (ring_with two_zones) "tenant" 4 0 (110 * Second) = Some s0 ∧
    shuffleShard (ring_with changed_zones) "tenant" 4 (60 * Second) (120 * Second) = Some s1 ∧
    ∀ k, k ∈ dom (Ingesters (ringDesc s0)) → k ∈ dom (Ingesters (ringDesc (ring_with changed_zones))) → k ∈ dom (Ingesters (ringDesc s1)).
Proof.
  split; [vm_compute; reflexivity|]. split; [vm_compute; reflexivity|].
  apply (lookback_covers_the_past (ring_with two_zones) (ring_with changed_zones) "tenant" 4 (110 * Second) (60 * Second) (120 * Second)).
  - apply ex_comparable; vm_compute; reflexivity.
  - reflexivity.
  - intros _. assert (ringZones (ring_with changed_zones) = ["a"; "b"]) as -> by (vm_compute; reflexivity).
    assert (ringZones (ring_with two_zones) = ["a"; "b"]) as -> by (vm_compute; reflexivity). done.
  - apply kept_b_spec. vm_compute. reflexivity.
  - apply recent_b_spec. vm_compute. reflexivity.
Defined.

Lemma one_instance_one_difference_witness :
  shard_names (shuffleShard (ring_with two_zones) "t2" 6 0 (110 * Second)) = Some ["a3"; "a1"; "a2"; "b3"; "b2"; "b4"] ∧
  shard_names (shuffleShard (ring_with added_zones) "t2" 6 0 (120 * Second)) = Some ["a1"; "a2"; "a4"; "b3"; "b2"; "b4"] ∧
  ∃ s0 s1, shuffleShard (ring_with two_zones) "t2" 6 0 (110 * Second) = Some s0 ∧
    shuffleShard (ring_with added_zones) "t2" 6 0 (120 * Second) = Some s1 ∧
    dom (Ingesters (ringDesc s1)) ∖ dom (Ingesters (ringDesc s0)) ⊆ {["a4"]} ∧
    (size (dom (Ingesters (ringDesc s0)) ∖ dom (Ingesters (ringDesc s1))) ≤ 1)%nat.
Proof.
  split; [vm_compute; reflexivity|]. split; [vm_compute; reflexivity|].
  apply (one_instance_one_difference (ring_with two_zones) (ring_with added_zones) "a4" "t2" 6 (110 * Second) (120 * Second)).
  - apply ex_comparable; vm_compute; reflexivity.
  - vm_compute. reflexivity.
  - vm_compute. reflexivity.
  - apply kept_b_spec. vm_compute. reflexivity.
  - intros _. vm_compute. reflexivity.
Defined.

(** ** Where the promises do not hold

    The instances per zone are the shard size divided by the number of zones: when the
    first instance of a new zone is registered, every other zone gives fewer
    instances, and the shard with lookback does not have those it gave before. *)
Definition three_zones : Desc := mkDesc (<["c1" := registered "c" 100 [42]]> (Ingesters two_zones)).
Lemma new_zone_drops_instances :
  shard_names (shuffleShard (ring_with two_zones) "t2" 6 0 (110 * Second)) = Some ["a3"; "a1"; "a2"; "b3"; "b2"; "b4"] ∧
  shard_names (shuffleShard (ring_with three_zones) "t2" 6 0 (120 * Second)) = Some ["c1"; "a1"; "a2"; "b3"; "b2"] ∧
  shard_names (shuffleShard (ring_with three_zones) "t2" 6 (60 * Second) (120 * Second)) = Some ["c1"; "a1"; "a2"; "b3"; "b2"].
Proof. split_and!; vm_compute; reflexivity. Qed.

(** A tenant whose shard size is the number of instances uses the whole ring; with
    zones of different sizes, one instance more makes it a shard that does not have
    all instances of the larger zone, with lookback or without. *)
Definition unbalanced : Desc := mkDesc {[
  "a1" := registered "a" 10 [5]; "a2" := registered "a" 10 [15]; "a3" := registered "a" 10 [25]; "b1" := registered "b" 10 [10] ]}.
Definition grown : Desc := mkDesc (<["b2" := registered "b" 100 [20]]> (Ingesters unbalanced)).
Definition answer_names (r : subring) (a : option ReadRing) : option (list string) :=
  a ≫= λ a, match a with WholeRing => shard_names (Some r) | SubRing s => shard_names (Some s) end.
Lemma whole_ring_to_shard_drops_instances :
  answer_names (ring_with unbalanced) (ShuffleShardWithLookback (ring_with unbalanced) "tenant" 4 (60 * Second) (110 * Second)) = Some ["a3"; "a1"; "a2"; "b1"] ∧
  answer_names (ring_with grown) (ShuffleShardWithLookback (ring_with grown) "tenant" 4 (60 * Second) (120 * Second)) = Some ["a1"; "a2"; "b1"; "b2"].
Proof. split; vm_compute; reflexivity. Qed.
End witnesses.
