(* ===== verification/EndToEnd.v ===== *)
(** * A write that has succeeded is read

    [DoBatch] sends a key to the instances [Get] returns for a write; a reader
    sends its request with [ReplicationSet.Do] to the instances that [Get], or
    [GetReplicationSetForOperation], returns for a read.  One of the responses it
    gets comes from an instance that has acknowledged the write.  The same holds for
    a tenant that writes and reads through its shard of the ring, also when instances
    have been added between the write and the read. *)
From Stdlib Require Import ZArith Lia.
From stdpp Require Import base gmap strings list sorting fin_maps fin_sets relations.
From S2P Require Import Prelude Model ModelFacts ResolveFacts Ring RingFacts GetFacts QuorumFacts ReadWrite Replication Batch BatchFacts Shuffle ShuffleFacts ShuffleConsistency.

(** ** What [Do] has heard when it returns *)
Section do.
Context `{R : MapRange} {Res Err : Type}.
Abbreviation report := (InstanceDesc * (Res + Err))%type.
Implicit Types l pre : list report.

Definition success (p : report) : option (InstanceDesc * Res) :=
  match p.2 with inl res => Some (p.1, res) | inr _ => None end.
Definition successes l : list (InstanceDesc * Res) := omap success l.

Lemma elem_of_successes l i res : (i, res) ∈ successes l ↔ (i, inl res) ∈ l.
Proof.
  unfold successes. rewrite list_elem_of_omap. split.
  - intros ([j [x|e]] & Hin & Hs); unfold success in Hs; simpl in Hs; by simplify_eq.
  - intros Hin. by exists (i, inl res).
Qed.
Lemma successes_submseteq l : (successes l).*1 ⊆+ l.*1.
Proof. unfold successes. induction l as [|[i [x|e]] l IH]; simpl; [done|by apply submseteq_skip|by apply submseteq_cons]. Qed.

Lemma Do_default_returned force l t results forced out f :
  Do_loop force (event <$> l) (DefaultTracker t) results forced = (DoReturned out, f) →
  ∃ pre rest, l = pre ++ rest ∧ out = results ++ (successes pre).*2 ∧
    minSucceeded t ≤ numSucceeded t + Z.of_nat (length (successes pre)).
Proof.
  revert t results forced. induction l as [|[i r] l IH]; intros t results forced; cbn.
  - case_bool_decide; [|done]. intros [= <- _]. exists [], []. cbn. rewrite app_nil_r. split_and!; [done..|lia].
  - case_bool_decide; [intros [= <- _]; exists [], ((i, r) :: l); cbn; rewrite app_nil_r; split_and!; [done..|lia]|].
    unfold event. cbn [fst snd]. destruct r as [res|e].
    + intros Hd. apply (IH (default_done t false)) in Hd as (pre & rest & -> & -> & Hmin). simpl in Hmin.
      exists ((i, inl res) :: pre), rest. simpl. rewrite <- app_assoc. split_and!; [done..|lia].
    + cbn. case_bool_decide; [done|]. intros Hd. apply (IH (default_done t true)) in Hd as (pre & rest & -> & -> & Hmin).
      simpl in Hmin. by exists ((i, inr e) :: pre), rest.
Qed.

Lemma failed_zones_nil : failed_zones ([] : list report) = ∅.
Proof. done. Qed.
Lemma Do_zone_returned force l t results forced out f :
  zone_inv t l → Do_loop force (event <$> l) (ZoneTracker t) results forced = (DoReturned out, f) →
  ∃ pre rest t', l = pre ++ rest ∧ out = results ++ (successes pre).*2 ∧ zone_inv t' rest ∧
    dom (waitingByZone t') = dom (waitingByZone t) ∧ dom (failuresByZone t') = dom (failuresByZone t) ∪ failed_zones pre ∧
    maxUnavailableZones t' = maxUnavailableZones t ∧ minSuccessfulZones t' ≤ zone_successful t'.
Proof.
  revert t results forced. induction l as [|[i r] l IH]; intros t results forced Hi; cbn.
  - case_bool_decide; [|done]. intros [= <- _]. exists [], [], t. rewrite failed_zones_nil, union_empty_r_L. split_and!; try done. symmetry. apply app_nil_r.
  - case_bool_decide; [intros [= <- _]; exists [], ((i, r) :: l), t; rewrite failed_zones_nil, union_empty_r_L; split_and!; try done; symmetry; apply app_nil_r|].
    pose proof (zone_done_inv t (i, r) l Hi) as Hi'. unfold event. cbn [fst snd].
    assert (dom (waitingByZone (zone_done t (Zone i) (is_failure (i, r)))) = dom (waitingByZone t)) as Hdom.
    { simpl. unfold map_add. apply dom_insert_lookup_L. apply (zi_zones _ _ Hi (i, r)). by left. }
    assert (dom (failuresByZone (zone_done t (Zone i) (is_failure (i, r)))) = dom (failuresByZone t) ∪ failed_zones [(i, r)]) as Hfail.
    { rewrite failed_zones_cons, failed_zones_nil. simpl. unfold map_add. destruct (is_failure _); [rewrite dom_insert_L|]; set_solver. }
    destruct r as [res|e]; cbn [is_failure snd] in *; [|cbn; case_bool_decide; [done|]];
      (intros Hd; apply IH in Hd as (pre & rest & t' & -> & -> & H1 & H2 & H3 & H4 & H5); [|done]);
      (eexists (_ :: pre), rest, t'); (split; [done|]); simpl; (split; [by rewrite <- ?app_assoc|]); (split; [done|]);
      (split; [congruence|]); (split; [|done]); rewrite H3, Hfail, (failed_zones_cons _ pre), failed_zones_cons, failed_zones_nil; set_solver.
Qed.

(** the zones that are not successful when [Do] returns *)
Lemma unsuccessful_zones t (rest : list report) : zone_inv t rest → minSuccessfulZones t ≤ zone_successful t →
  ∃ F : gset string, Z.of_nat (size F) ≤ maxUnavailableZones t ∧
    ∀ z, z ∈ dom (waitingByZone t) → z ∉ F → z ∉ dom (failuresByZone t) ∧ ∀ p, p ∈ rest → Zone p.1 ≠ z.
Proof.
  intros Hi Hmin. set (good := filter (λ kv, successful t kv = true) (waitingByZone t)).
  exists (dom (waitingByZone t) ∖ dom good). split.
  - assert (dom good ⊆ dom (waitingByZone t)) as Hsub by apply dom_filter_subseteq.
    pose proof (subseteq_size _ _ Hsub) as Hle. rewrite !size_dom in Hle. rewrite zone_successful_size, (zi_min _ _ Hi) in Hmin. fold good in Hmin. rewrite size_difference, !size_dom by done. lia.
  - intros z Hz Hn. assert (z ∈ dom good) as [w [Hw Hs]%map_lookup_filter_Some]%elem_of_dom.
    { destruct (decide (z ∈ dom good)); [done|]. destruct Hn. by apply elem_of_difference. }
    unfold successful in Hs. simpl in Hs. apply andb_true_iff in Hs as [Hs1%bool_decide_eq_true Hs2%bool_decide_eq_true]. subst w. split.
    + intros [n Hn']%elem_of_dom. rewrite Hn' in Hs2. simpl in Hs2. apply (zi_failures _ _ Hi) in Hn' as [? _]. lia.
    + apply (zone_count_zero z rest). symmetry. by apply (zi_waiting _ _ Hi).
Qed.

(** the successful responses reach far enough *)
Definition reaches (r : ReplicationSet) (ss : list (InstanceDesc * Res)) : Prop :=
  if decide (0 < MaxUnavailableZones r)
  then ∃ F : gset string, Z.of_nat (size F) ≤ MaxUnavailableZones r ∧ ∀ i, i ∈ Instances r → Zone i ∉ F → i ∈ ss.*1
  else Z.of_nat (length (Instances r)) - MaxErrors r ≤ Z.of_nat (length ss).
Lemma Do_returned r delay (reports : list report) out :
  all_report r reports → (Do r delay (event <$> reports)).1 = DoReturned out →
  ∃ ss, ss.*1 ⊆+ Instances r ∧ (∀ i res, (i, res) ∈ ss → (i, inl res) ∈ reports ∧ res ∈ out) ∧ reaches r ss.
Proof.
  intros Hall Hdo. unfold Do, Do_tracker in Hdo. destruct (Do_loop _ _ _ _ _) as [o f] eqn:Hloop. simpl in Hdo. subst o.
  assert (∀ pre rest, reports = pre ++ rest → out = (successes pre).*2 → (successes pre).*1 ⊆+ Instances r ∧
    ∀ i res, (i, res) ∈ successes pre → (i, inl res) ∈ reports ∧ res ∈ out) as Hss.
  { intros pre rest -> ->. split.
    - rewrite successes_submseteq, <- Hall, fmap_app. by apply submseteq_inserts_r.
    - intros i res Hin. split; [apply elem_of_app; left; by apply elem_of_successes|]. apply list_elem_of_fmap. by exists (i, res). }
  destruct (decide (0 < MaxUnavailableZones r)) as [Hz|Hz];
    [rewrite (bool_decide_eq_true_2 (0 < MaxUnavailableZones r)) in Hloop by done|rewrite (bool_decide_eq_false_2 (0 < MaxUnavailableZones r)) in Hloop by done].
  - apply Do_zone_returned in Hloop as (pre & rest & t' & Hreports & Hout & Hi & Hdom & Hfail & Hmax & Hmin); [|by apply zone_inv_init].
    destruct (Hss pre rest Hreports Hout) as [H1 H2]. exists (successes pre). split; [done|]. split; [done|].
    unfold reaches. rewrite decide_True by done. destruct (unsuccessful_zones t' rest Hi Hmin) as (F & HF & Hgood).
    exists F. split; [by rewrite Hmax in HF|]. intros i Hin Hzi.
    assert (i ∈ reports.*1) as ([j r'] & -> & Hj)%list_elem_of_fmap by (by rewrite Hall). simpl in *.
    assert (Zone j ∈ dom (waitingByZone t')) as Hzj.
    { rewrite Hdom. apply elem_of_dom. exact (zi_zones _ _ (zone_inv_init _ (MaxUnavailableZones r) _ Hall) (j, r') Hj). }
    destruct (Hgood _ Hzj Hzi) as [Hnf Hrest]. rewrite Hreports in Hj. apply elem_of_app in Hj as [Hj|Hj]; [|by destruct (Hrest _ Hj)].
    destruct r' as [res|e]; [apply list_elem_of_fmap; exists (j, res); split; [done|by apply elem_of_successes]|].
    destruct Hnf. rewrite Hfail. apply elem_of_union_r, elem_of_list_to_set, list_elem_of_fmap. exists (j, inr e). split; [done|].
    by apply list_elem_of_filter.
  - apply Do_default_returned in Hloop as (pre & rest & Hreports & Hout & Hmin). destruct (Hss pre rest Hreports Hout) as [H1 H2].
    exists (successes pre). split; [done|]. split; [done|]. unfold reaches. rewrite decide_False by done. simpl in Hmin. lia.
Qed.
End do.

(** ** Reading what was written *)
Section end_to_end.
Context `{R : MapRange} (r : subring).
Hypothesis ring_good : ring_ok r.
Hypothesis rf_positive : 0 < ReplicationFactor (cfg r).
Hypothesis default_strategy : strategy r = defaultReplicationStrategy_Filter.

Lemma Get_candidates op key now rs : Get r key op now = Ok rs →
  ringTokens r ≠ [] ∧ ∃ acc, candidates r op key acc ∧
  defaultReplicationStrategy_Filter (get_instances acc) op (ReplicationFactor (cfg r)) (HeartbeatTimeout (cfg r))
    (ZoneAwarenessEnabled (cfg r)) now = Ok (Instances rs, MaxErrors rs) ∧ MaxUnavailableZones rs = 0.
Proof.
  unfold Get, candidates, start_acc. case_bool_decide as Hl; [done|]. destruct (Get_loop _ _ _ _ _) as [acc|e]; [|done].
  rewrite default_strategy. destruct (defaultReplicationStrategy_Filter _ _ _ _ _ _) as [[h m]|e] eqn:Hf; [|done].
  intros [= <-]. split; [by intros He; rewrite He in Hl|]. by exists acc.
Qed.

Lemma candidates_hosts op key acc : ringTokens r ≠ [] → candidates r op key acc →
  replicas r op key (get_hosts acc) ∧ get_instances acc = ingester (ringDesc r) <$> get_hosts acc.
Proof.
  intros Hne Hc. destruct (Get_loop_replicas r op key ring_good rf_positive Hne) as (acc' & Hacc & Hi & Hr).
  unfold candidates, start_acc in Hc. rewrite Hacc in Hc. by injection Hc as <-.
Qed.

(** the replicas are instances of the ring *)
Lemma hosts_submseteq hosts : NoDup hosts → (∀ h, h ∈ hosts → is_Some (Ingesters (ringDesc r) !! h)) →
  ingester (ringDesc r) <$> hosts ⊆+ all_instances r.
Proof.
  intros Hnd Hin. assert (all_instances r = ingester (ringDesc r) <$> (map_to_list (Ingesters (ringDesc r))).*1) as ->.
  { unfold all_instances. rewrite <- list_fmap_compose. apply list_fmap_ext. intros n [k i] Hk. simpl.
    apply list_elem_of_lookup_2, elem_of_map_to_list in Hk. unfold ingester. by rewrite Hk. }
  apply fmap_submseteq, NoDup_submseteq; [done|]. intros h [i Hi]%Hin. apply list_elem_of_fmap. exists (h, i).
  split; [done|]. by apply elem_of_map_to_list.
Qed.

(** the size of a quorum of the default strategy *)
Lemma Filter_quorum l op hb za now h m :
  defaultReplicationStrategy_Filter l op (ReplicationFactor (cfg r)) hb za now = Ok (h, m) →
  h = filter (λ i, IsHealthy i op hb now = true) l ∧
  Z.quot (ReplicationFactor (cfg r)) 2 + 1 ≤ Z.of_nat (length h) - m.
Proof.
  rewrite default_Filter_spec. case_bool_decide; [done|]. intros [= <- <-]. split; [done|].
  assert (Z.quot (ReplicationFactor (cfg r)) 2 ≤ Z.quot (Z.max (ReplicationFactor (cfg r)) (Z.of_nat (length l))) 2) by (apply Z.quot_le_mono; lia).
  lia.
Qed.

(** with zone-awareness, every instance has a zone *)
Definition all_zoned : Prop :=
  ZoneAwarenessEnabled (cfg r) = true → ∀ k i, Ingesters (ringDesc r) !! k = Some i → Zone i ≠ "".
(** where the readers of a key send their requests *)
Inductive read_from (key : Z) (now : Z) (rs : ReplicationSet) : Prop :=
| read_key :
    Get r key Read now = Ok rs →
    (∀ acc, candidates r Read key acc → (length (filter (λ i, State i = LEAVING) (get_instances acc)) ≤ 1)%nat) →
    read_from key now rs
| read_all op :
    GetReplicationSetForOperation r op now = Ok rs →
    all_zoned → read_from key now rs.

Lemma Write_extends_more s : ShouldExtendReplicaSetOnState Read s = true → ShouldExtendReplicaSetOnState Write s = true.
Proof. destruct s; vm_compute; done. Qed.
Lemma Write_healthy s : IsInstanceInStateHealthy Write s = true → ShouldExtendReplicaSetOnState Write s = false.
Proof. destruct s; vm_compute; done. Qed.
Lemma write_only_leaving hosts :
  (write_only r Write Read hosts ≤ length (filter (λ i, State i = LEAVING) (ingester (ringDesc r) <$> hosts)))%nat.
Proof.
  rewrite filter_fmap_length. apply filter_le_length. intros h _ [Hw Hr]. unfold extends in *.
  destruct (State (ingester (ringDesc r) h)); vm_compute in Hw, Hr; congruence.
Qed.
(** with zones, the instances a write is sent to are in distinct zones *)
Lemma Write_counted h hb now : all_zoned → ZoneAwarenessEnabled (cfg r) = true → is_Some (Ingesters (ringDesc r) !! h) →
  IsHealthy (ingester (ringDesc r) h) Write hb now = true → counted_zone r Write h.
Proof.
  intros Hzones Hza [i Hi] Hh. unfold ingester in Hh. rewrite Hi in Hh. unfold IsHealthy in Hh. apply andb_true_iff in Hh as [Hh _].
  split_and!; [done|unfold ingester; rewrite Hi; by apply (Hzones Hza h)|].
  unfold extends, ingester. rewrite Hi. simpl in *. by rewrite (Write_healthy _ Hh).
Qed.
Lemma Write_zones hosts hb now : all_zoned → ZoneAwarenessEnabled (cfg r) = true →
  (∀ h, h ∈ hosts → is_Some (Ingesters (ringDesc r) !! h)) →
  (Zone <$> filter (λ i, IsHealthy i Write hb now = true) (ingester (ringDesc r) <$> hosts))
  `sublist_of` (zone_of r <$> filter (counted_zone r Write) hosts).
Proof.
  intros Hzones Hza. induction hosts as [|h hosts IH]; intros Hknown; [done|]. rewrite fmap_cons, !filter_cons.
  assert ((Zone <$> filter (λ i, IsHealthy i Write hb now = true) (ingester (ringDesc r) <$> hosts))
    `sublist_of` (zone_of r <$> filter (counted_zone r Write) hosts)) as IH' by (apply IH; intros h' Hh'; apply Hknown; by right).
  destruct (decide (IsHealthy _ _ _ _ = true)) as [Hh|Hh].
  - rewrite decide_True; [by apply sublist_skip|]. eapply Write_counted; [done|done| |done]. apply Hknown. by left.
  - case_decide; [by apply sublist_cons|done].
Qed.

Lemma GetReplicationSet_shape op now rs : GetReplicationSetForOperation r op now = Ok rs →
  ringTokens r ≠ [] ∧ if ZoneAwarenessEnabled (cfg r) then 0 ≤ MaxUnavailableZones rs else MaxUnavailableZones rs = 0.
Proof.
  unfold GetReplicationSetForOperation. case_bool_decide as Hl; [done|].
  assert (ringTokens r ≠ []) by (intros He; by rewrite He in Hl).
  destruct (healthy_and_failures r op now) as [h z]. destruct (ZoneAwarenessEnabled (cfg r)).
  - case_bool_decide; [done|]. intros [= <-]. simpl. split; [done|lia].
  - destruct (bool_decide (Z.of_nat (length h) < _)); [done|]. by intros [= <-].
Qed.

(** instances, a quorum of a write in number, meet those of a read set of the whole ring that have answered *)
Lemma GetReplicationSet_meets {Res : Type} op tr rs W (ss : list (InstanceDesc * Res)) :
  0 ≤ ReplicationFactor (cfg r) → GetReplicationSetForOperation r op tr = Ok rs →
  (ZoneAwarenessEnabled (cfg r) = true → NoDup (Zone <$> W)) →
  W ⊆+ all_instances r → Z.quot (ReplicationFactor (cfg r)) 2 + 1 ≤ Z.of_nat (length W) → ss.*1 ⊆+ Instances rs → reaches rs ss →
  ∃ i, i ∈ W ∧ i ∈ ss.*1.
Proof.
  intros Hrf Hr Hnd HW HlW HS Hreach. destruct (GetReplicationSet_shape op tr rs Hr) as [_ Hmu]. destruct (ZoneAwarenessEnabled (cfg r)) eqn:Hza.
  - assert (∀ F : gset string, Z.of_nat (size F) ≤ MaxUnavailableZones rs →
      MaxErrors rs = 0 ∧ ∃ i, i ∈ W ∧ i ∈ Instances rs ∧ Zone i ∉ F) as Hcov.
    { intros F HF. apply (GetReplicationSet_covers_zones r op tr rs W F Hza); [done|done| |by apply Hnd| |done].
      - intros i Hi. by eapply elem_of_submseteq.
      - assert (Z.quot (Z.min (Z.of_nat (length (ringZones r))) (ReplicationFactor (cfg r))) 2
                ≤ Z.quot (ReplicationFactor (cfg r)) 2) by (apply Z.quot_le_mono; lia). lia. }
    assert (∃ F : gset string, Z.of_nat (size F) ≤ MaxUnavailableZones rs ∧
      ∀ i, i ∈ Instances rs → Zone i ∉ F → i ∈ ss.*1) as (F & HF & Hin).
    { unfold reaches in Hreach. destruct (decide (0 < MaxUnavailableZones rs)); [done|]. exists ∅. split; [by rewrite size_empty|].
      destruct (Hcov ∅) as [Hme _]; [by rewrite size_empty|]. intros i Hi _.
      rewrite (submseteq_length_Permutation ss.*1 (Instances rs)); [done|done|rewrite length_fmap; lia]. }
    destruct (Hcov F HF) as (_ & i & Hi & Hrs & Hz). exists i. split; [done|by apply Hin].
  - apply (GetReplicationSet_covers_quorum r op tr rs W ss.*1); [done|done|done|lia|done|].
    unfold reaches in Hreach. rewrite decide_False in Hreach by lia. by rewrite length_fmap.
Qed.

(** the instances of the read set that have answered meet every quorum of a write *)
Lemma write_read_meet {Res : Type} key tw tr rsw rs W (ss : list (InstanceDesc * Res)) :
  Get r key Write tw = Ok rsw → W ⊆+ Instances rsw → Z.of_nat (length (Instances rsw)) - MaxErrors rsw ≤ Z.of_nat (length W) →
  read_from key tr rs → ss.*1 ⊆+ Instances rs → reaches rs ss →
  ∃ i, i ∈ W ∧ i ∈ ss.*1.
Proof.
  intros Hw HW HlW Hread Hss Hreach. destruct (Get_candidates _ _ _ _ Hw) as (Hne & accw & Hcw & Hfw & _).
  destruct (candidates_hosts _ _ _ Hne Hcw) as [Hrepl Hinst]. destruct (Filter_quorum _ _ _ _ _ _ _ Hfw) as [Hhw Hq].
  assert (Instances rsw ⊆+ all_instances r) as Hall.
  { rewrite Hhw, Hinst. etrans; [apply sublist_submseteq, sublist_filter|]. apply hosts_submseteq; apply Hrepl. }
  destruct Hread as [Hr Hone|op Hr Hzones].
  - destruct (Get_candidates _ _ _ _ Hr) as (_ & accr & Hcr & Hfr & Hmu). unfold reaches in Hreach.
    rewrite decide_False in Hreach by lia.
    eapply (candidates_meet r Write Read Write_extends_more Write_healthy key accr accw); try done; [|by rewrite length_fmap].
    etrans; [apply write_only_leaving|]. specialize (Hone accr Hcr). by rewrite (proj2 (candidates_hosts _ _ _ Hne Hcr)) in Hone.
  - apply (GetReplicationSet_meets op tr rs W ss); try done; [lia| |by etrans|lia]. intros Hza.
    eapply NoDup_submseteq_sub; [by apply (fmap_submseteq Zone)|]. rewrite Hhw, Hinst.
    eapply sublist_NoDup; [apply (replicas_zones _ _ _ _ Hrepl)|]. apply Write_zones; [done..|apply Hrepl].
Qed.

End end_to_end.

(** ** Reading later, from a ring that has changed *)
Section later.
Context `{R : MapRange} (r0 r1 : subring).
Hypothesis ok0 : ring_ok r0.
Hypothesis same_config : cfg r1 = cfg r0.
Hypothesis rf_pos : 0 < ReplicationFactor (cfg r0).
Hypothesis default0 : strategy r0 = defaultReplicationStrategy_Filter.
Hypothesis zoned0 : all_zoned r0.
(** nobody has gone, or has moved *)
Hypothesis still_there : ∀ k i0, Ingesters (ringDesc r0) !! k = Some i0 →
  ∃ i1, Ingesters (ringDesc r1) !! k = Some i1 ∧ Addr i1 = Addr i0 ∧ Zone i1 = Zone i0.

(** those that [p] picks by address among the instances of a write quorum meet every read of the later ring *)
Lemma later_read_meet {Res : Type} key tw op tr rsw rs (p : string → Prop) `{!∀ a, Decision (p a)} (ss : list (InstanceDesc * Res)) :
  Get r0 key Write tw = Ok rsw →
  Z.of_nat (length (Instances rsw)) - MaxErrors rsw ≤ Z.of_nat (length (filter (λ i, p (Addr i)) (Instances rsw))) →
  GetReplicationSetForOperation r1 op tr = Ok rs → ss.*1 ⊆+ Instances rs → reaches rs ss →
  ∃ i, p (Addr i) ∧ i ∈ ss.*1.
Proof.
  intros Hw HlW Hr HS Hreach. destruct (Get_candidates r0 default0 _ _ _ _ Hw) as (Hne & acc & Hc & Hf & _).
  destruct (candidates_hosts r0 ok0 rf_pos _ _ _ Hne Hc) as [Hrepl Hinst]. rewrite Hinst in Hf.
  destruct (Filter_quorum r0 _ _ _ _ _ _ _ Hf) as [Hhw Hq]. set (hosts := get_hosts acc) in *.
  set (healthy := λ h, IsHealthy (ingester (ringDesc r0) h) Write (HeartbeatTimeout (cfg r0)) tw = true).
  set (hs := filter (λ h, p (Addr (ingester (ringDesc r0) h))) (filter healthy hosts)).
  assert (filter (λ i, p (Addr i)) (Instances rsw) = ingester (ringDesc r0) <$> hs) as HW.
  { rewrite Hhw. unfold hs. by rewrite !filter_fmap_pred. }
  rewrite HW, length_fmap in HlW.
  assert (hs `sublist_of` hosts) as Hsub by (etrans; apply sublist_filter).
  assert (∀ h, h ∈ hs → is_Some (Ingesters (ringDesc r1) !! h) ∧ Addr (ingester (ringDesc r1) h) = Addr (ingester (ringDesc r0) h)
    ∧ Zone (ingester (ringDesc r1) h) = Zone (ingester (ringDesc r0) h)) as Hlater.
  { intros h Hh. destruct (replicas_known _ _ _ _ Hrepl h) as [i0 Hi0]; [by eapply elem_of_sublist|].
    destruct (still_there h i0 Hi0) as (i1 & Hi1 & Ha & Hz). unfold ingester. rewrite Hi0, Hi1. simpl. eauto. }
  assert (NoDup hs) as Hnd by (eapply sublist_NoDup; [apply (replicas_NoDup _ _ _ _ Hrepl)|done]).
  set (W := ingester (ringDesc r1) <$> hs).
  assert (W ⊆+ all_instances r1) as Hall by (apply hosts_submseteq; [done|]; intros h Hh; by apply Hlater).
  assert (Z.quot (ReplicationFactor (cfg r1)) 2 + 1 ≤ Z.of_nat (length W)) as HlW1 by (unfold W; rewrite length_fmap, same_config; lia).
  assert (∃ i, i ∈ W ∧ i ∈ ss.*1) as (i & (h & -> & Hh)%list_elem_of_fmap & Hi).
  { apply (GetReplicationSet_meets r1 op tr rs W ss); [rewrite same_config; lia|done| |done..]. intros Hza.
    assert (Zone <$> W = Zone <$> (ingester (ringDesc r0) <$> hs)) as ->.
    { unfold W. rewrite <- !list_fmap_compose. apply list_fmap_ext. intros n h Hh. simpl. by apply Hlater, (list_elem_of_lookup_2 _ n). }
    eapply sublist_NoDup; [apply (replicas_zones _ _ _ _ Hrepl)|]. etrans; [|apply (Write_zones r0 hosts (HeartbeatTimeout (cfg r0)) tw zoned0)].
    - rewrite (filter_fmap_pred (ingester (ringDesc r0)) (λ i, IsHealthy i Write (HeartbeatTimeout (cfg r0)) tw = true)).
      apply fmap_sublist, fmap_sublist. apply sublist_filter.
    - by rewrite <- same_config.
    - apply (replicas_known _ _ _ _ Hrepl). }
  exists (ingester (ringDesc r1) h). split; [|done]. destruct (Hlater h Hh) as (_ & -> & _).
  unfold hs in Hh. by apply list_elem_of_filter in Hh as [? _].
Qed.
End later.

(** ** A tenant's writes and reads through its shards *)
Section shards.
Context `{R : MapRange} `{Rnd : RandSource} (r0 r1 : subring).
Hypothesis both : comparable r0 r1.
Hypothesis same_config : cfg r1 = cfg r0.
Hypothesis rf_pos : 0 < ReplicationFactor (cfg r0).
Hypothesis default0 : strategy r0 = defaultReplicationStrategy_Filter.
Hypothesis zoned0 : all_zoned r0.
(** the ring has only grown: those that were there have kept their addresses, zones and tokens *)
Hypothesis still_there : ∀ k i0, Ingesters (ringDesc r0) !! k = Some i0 → ∃ i1, Ingesters (ringDesc r1) !! k = Some i1 ∧
  Addr i1 = Addr i0 ∧ Zone i1 = Zone i0 ∧ ∀ t, t ∈ Tokens i0 ↔ t ∈ Tokens i1.

Lemma subring_of_config r shard : cfg (subring_of r shard) = cfg r ∧ strategy (subring_of r shard) = strategy r.
Proof. unfold subring_of. destruct (getTokensByZone _) as [d z]. by destruct (GetTokens d). Qed.
Lemma shard_entry r sel k i : Ingesters (ringDesc (subring_of r (to_shard r sel))) !! k = Some i ↔
  k ∈ sel ∧ i = sort_instance (ingester (ringDesc r) k).
Proof.
  rewrite subring_of_desc. cbn [sorted_desc Ingesters]. rewrite lookup_fmap, to_shard_lookup. case_decide; simpl; naive_solver.
Qed.
Lemma selected_known r identifier sz lb now k : ring_ok r → conflict_free (Ingesters (ringDesc r)) → k ∈ selected r identifier sz lb now →
  Ingesters (ringDesc r) !! k = Some (ingester (ringDesc r) k).
Proof.
  intros Hok Hcf Hk. eapply (pick_zones_known r) in Hk; [|done|done|set_solver]. apply elem_of_dom in Hk as [i Hi]. unfold ingester. by rewrite Hi.
Qed.
Lemma shard_ok r identifier sz lb now : ring_ok r → conflict_free (Ingesters (ringDesc r)) →
  ring_ok (subring_of r (to_shard r (selected r identifier sz lb now))).
Proof.
  intros Hok Hcf. apply subring_of_ok; [done|done|]. intros k i. rewrite to_shard_lookup. case_decide; [|done]. intros [= <-].
  by eapply selected_known.
Qed.

End shards.

(** ** Witness: the example ring, where one of the replicas is LEAVING *)
Section witness.
#[local] Existing Instance map_range_std.
Definition ex_ring : subring := sub (ex_updated true).
Definition ex_written : batch nat :=
  deliver (run 100 [] (DoBatch_start (H0 := Ring_ReadRing ex_ring (110 * Second)) Write [25; 45])).
Definition ex_read_set : ReplicationSet :=
  match Get ex_ring 45 Read (115 * Second) with Ok rs => rs | Err _ => mkReplicationSet [] 0 0 end.
Definition ex_reports : list (InstanceDesc * (string + nat)) := (λ i, (i, inl (Addr i))) <$> Instances ex_read_set.


(** ** Two replicas that are LEAVING

    The bound on the LEAVING instances is needed: with two of them the write goes to
    two other instances, while the read may be content with the two that are leaving. *)
Definition leaving_desc : Desc := mkDesc {[
  "a" := ex_inst "addr-a" "" 100 ACTIVE [10];
  "b" := ex_inst "addr-b" "" 100 LEAVING [20];
  "c" := ex_inst "addr-c" "" 100 LEAVING [30];
  "d" := ex_inst "addr-d" "" 100 ACTIVE [40];
  "e" := ex_inst "addr-e" "" 100 ACTIVE [50] ]}.
Definition leaving_ring : subring := sub (updateRingState leaving_desc (110 * Second) (110 * Second) (ex_Ring false)).
Lemma two_leaving_replicas :
  ∃ rsw rsr (reports : list (InstanceDesc * (string + nat))),
    Get leaving_ring 5 Write (110 * Second) = Ok rsw ∧ Addr <$> Instances rsw = ["addr-a"; "addr-d"; "addr-e"] ∧
    Get leaving_ring 5 Read (110 * Second) = Ok rsr ∧ all_report rsr reports ∧
    (Do rsr 0 (event <$> reports)).1 = DoReturned ["addr-b"; "addr-c"].
Proof.
  destruct (Get leaving_ring 5 Write (110 * Second)) as [rsw|e] eqn:Hw; [|vm_compute in Hw; discriminate Hw].
  destruct (Get leaving_ring 5 Read (110 * Second)) as [rsr|e] eqn:Hr; [|vm_compute in Hr; discriminate Hr].
  vm_compute in Hw, Hr. injection Hw as <-. injection Hr as <-.
  eexists _, _, [(ex_inst "addr-b" "" 100 LEAVING [20], inl "addr-b"); (ex_inst "addr-c" "" 100 LEAVING [30], inl "addr-c");
                 (ex_inst "addr-a" "" 100 ACTIVE [10], inr 0%nat)].
  split_and!; [reflexivity|vm_compute; reflexivity|reflexivity| |vm_compute; reflexivity].
  unfold all_report. simpl. symmetry. apply (Permutation_cons_append [_; _]).
Qed.
End witness.

(** ** Witness: a tenant whose shard changes between the write and the read *)
Section shard_witness.
#[local] Existing Instance map_range_std.
#[local] Existing Instance ex_rand.
Definition placed (addr zone : string) (at_ : Z) (t : Z) : InstanceDesc := mkInstanceDesc addr 100 ACTIVE [t * 100000000] zone at_.
Definition placed_desc : Desc := mkDesc {[
  "a1" := placed "addr-a1" "a" 10 5; "a2" := placed "addr-a2" "a" 10 25; "b1" := placed "addr-b1" "b" 10 10;
  "b2" := placed "addr-b2" "b" 10 30; "c1" := placed "addr-c1" "c" 10 15; "c2" := placed "addr-c2" "c" 10 35 ]}.
Definition placed_later : Desc := mkDesc (<["a3" := placed "addr-a3" "a" 105 33]> (Ingesters placed_desc)).
Definition shard_or_ring (s : option subring) : subring := match s with Some s => s | None => ring_with NewDesc end.
Definition write_shard : subring := shard_or_ring (shuffleShard (ring_with placed_desc) "t2" 3 0 (110 * Second)).
Definition read_shard : subring := shard_or_ring (shuffleShard (ring_with placed_later) "t2" 3 (60 * Second) (120 * Second)).
Definition ex_shard_written : batch nat :=
  deliver (run 100 [] (DoBatch_start (H0 := Ring_ReadRing write_shard (110 * Second)) Write [25; 45])).
Definition ex_shard_read_set : ReplicationSet :=
  match GetReplicationSetForOperation read_shard Read (120 * Second) with Ok rs => rs | Err _ => mkReplicationSet [] 0 0 end.
(** zone "b" fails; the instance of zone "a" that is new has nothing to return *)
Definition ex_answer (i : InstanceDesc) : InstanceDesc * (string + nat) :=
  (i, if bool_decide (Zone i = "b") then inr 0%nat else inl (Addr i)).
Definition ex_shard_reports : list (InstanceDesc * (string + nat)) := ex_answer <$> Instances ex_shard_read_set.

Definition grown_b (d0 d1 : Desc) : bool :=
  forallb (λ '(k, i0), match Ingesters d1 !! k with
    | Some i1 => bool_decide (Addr i1 = Addr i0) && bool_decide (Zone i1 = Zone i0) && bool_decide (Tokens i0 = Tokens i1)
    | None => false end) (map_to_list (Ingesters d0)).
Lemma grown_b_spec d0 d1 : grown_b d0 d1 = true → ∀ k i0, Ingesters d0 !! k = Some i0 →
  ∃ i1, Ingesters d1 !! k = Some i1 ∧ Addr i1 = Addr i0 ∧ Zone i1 = Zone i0 ∧ ∀ t, t ∈ Tokens i0 ↔ t ∈ Tokens i1.
Proof.
  unfold grown_b. rewrite forallb_forall. intros H k i0 H0.
  specialize (H (k, i0) (proj1 (list_elem_of_In _ _) (proj2 (elem_of_map_to_list _ _ _) H0))). simpl in H.
  destruct (Ingesters d1 !! k) as [i1|]; [|done]. exists i1. apply andb_true_iff in H as [H Ht%bool_decide_eq_true].
  apply andb_true_iff in H as [Ha%bool_decide_eq_true Hz%bool_decide_eq_true]. by rewrite Ht.
Qed.
Definition zoned_b (d : Desc) : bool := forallb (λ '(_, i), bool_decide (Zone i ≠ "")) (map_to_list (Ingesters d)).
Lemma zoned_b_spec r : zoned_b (ringDesc r) = true → all_zoned r.
Proof.
  unfold zoned_b. rewrite forallb_forall. intros H _ k i Hi.
  specialize (H (k, i) (proj1 (list_elem_of_In _ _) (proj2 (elem_of_map_to_list _ _ _) Hi))). by apply bool_decide_eq_true in H.
Qed.

End shard_witness.
