(* ===== verification/SpanLogger.v ===== *)
(** * Logs that also go to the span: [spanlogger]

    [SpanLogger] sends what is logged to a logger and to the tracing span of the
    request.  The logger library, the tracer and the tenants are parameters, with
    what their documentation says of them; a context is the list of the values that
    were attached to it. *)
From Stdlib Require Import ZArith Lia.
From stdpp Require Import base strings list option.
From S2P Require Import Prelude.
Local Open Scope string_scope.
Local Open Scope list_scope.

(** [log] and [level] of go-kit: values, loggers, what logging some values writes *)
Class KitLog := {
  log_value : Type;
  log_string : string → log_value;
  Logger : Type;
  log_line : Type;
  log_With : Logger → list log_value → Logger;
  logger_Log : Logger → list log_value → list log_line;
  level_Debug : list log_value          (* what [level.Debug] adds in front *)
}.
(** "With returns a new contextual logger with keyvals prepended to those passed to
    calls to Log" *)
Class KitLogLaws (L : KitLog) :=
  log_With_Log : ∀ l kvs kvps, logger_Log (log_With l kvs) kvps = logger_Log l (kvs ++ kvps).

(** what is attached to a context: our logger, or something of another package *)
Inductive binding {L : KitLog} {X : Type} := loggerCtxKey (l : Logger) | foreign (x : X).
Arguments binding : clear implicits.
Definition context (L : KitLog) (X : Type) : Type := list (binding L X).
Fixpoint Value {L : KitLog} {X} (ctx : context L X) : option Logger :=
  match ctx with
  | [] => None
  | loggerCtxKey l :: _ => Some l
  | foreign _ :: ctx => Value ctx
  end.
Definition foreigns {L : KitLog} {X} (ctx : context L X) : list X :=
  omap (λ b, match b with foreign x => Some x | loggerCtxKey _ => None end) ctx.

(** opentracing, its fields, and the ids of traces *)
Class Tracing (L : KitLog) := {
  tracing_binding : Type;
  tracer_span : Type;
  field : Type;
  trace_error : Type;
  StartSpanFromContext : list tracing_binding → string → tracer_span * tracing_binding;
  SpanFromContext : list tracing_binding → option tracer_span;
  InterleavedKVToFields : list log_value → result trace_error (list field);
  error_field : trace_error → field;
  ExtractSampledTraceID : list tracing_binding → option string
}.
(** "the span is attached to the returned context" *)
Class TracingLaws {L : KitLog} (T : Tracing L) :=
  started_span : ∀ ctx m, SpanFromContext ((StartSpanFromContext ctx m).2 :: ctx) = Some (StartSpanFromContext ctx m).1.

(** [TenantResolver] *)
Record TenantResolver {L : KitLog} {T : Tracing L} := mkResolver {
  TenantID : context L tracing_binding → option string;
  TenantIDs : context L tracing_binding → option (list string)
}.
Arguments TenantResolver L T : clear implicits.

Section spanlogger.
Context {L : KitLog} {KL : KitLogLaws L} {T : Tracing L} {TL : TracingLaws T}.
Implicit Types ctx : context L tracing_binding.

(** what can be observed *)
Inductive tag := tenant_ids (ids : list string) | error_tag.
Inductive effect :=
| Line (l : log_line)
| SetTag (s : tracer_span) (t : tag)
| LogFields (s : tracer_span) (fs : list field).

(** ** The span that does nothing ([noop.go]) *)
Inductive Span := tracerSpan (s : tracer_span) | noopSpan.
Definition defaultNoopSpan : Span := noopSpan.
Definition span_SetTag (s : Span) (t : tag) : list effect :=
  match s with tracerSpan s => [SetTag s t] | noopSpan => [] end.
Definition span_LogFields (s : Span) (fs : list field) : list effect :=
  match s with tracerSpan s => [LogFields s fs] | noopSpan => [] end.

(** ** [SpanLogger] *)
Record SpanLogger := mkSpanLogger { sl_Logger : Logger; sl_Span : Span }.

Definition withContext ctx (logger : Logger) (resolver : TenantResolver L T) : Logger :=
  let logger :=
    match TenantID resolver ctx with
    | Some userID => if bool_decide (userID ≠ "") then log_With logger [log_string "org_id"; log_string userID] else logger
    | None => logger
    end in
  match ExtractSampledTraceID (foreigns ctx) with
  | None => logger
  | Some traceID => log_With logger [log_string "traceID"; log_string traceID]
  end.

Definition SpanLogger_Log (s : SpanLogger) (kvps : list log_value) : list effect * option trace_error :=
  let lines := Line <$> logger_Log (sl_Logger s) kvps in
  match InterleavedKVToFields kvps with
  | Err err => (lines, Some err)
  | Ok fields => (lines ++ span_LogFields (sl_Span s) fields, None)
  end.
Definition SpanLogger_Error (s : SpanLogger) (err : option trace_error) : list effect * option trace_error :=
  match err with
  | None => ([], None)
  | Some e => (span_SetTag (sl_Span s) error_tag ++ span_LogFields (sl_Span s) [error_field e], Some e)
  end.

Definition New ctx (logger : Logger) (method : string) (resolver : TenantResolver L T) (kvps : list log_value)
    : SpanLogger * context L tracing_binding * list effect :=
  let '(span, x) := StartSpanFromContext (foreigns ctx) method in
  let ctx := foreign x :: ctx in
  let tags :=
    match TenantIDs resolver ctx with
    | Some ids => if bool_decide (0 < length ids)%nat then span_SetTag (tracerSpan span) (tenant_ids ids) else []
    | None => []
    end in
  let l := mkSpanLogger (log_With (withContext ctx logger resolver) [log_string "method"; log_string method]) (tracerSpan span) in
  let logged := if bool_decide (0 < length kvps)%nat then (SpanLogger_Log l (level_Debug ++ kvps)).1 else [] in
  (l, loggerCtxKey logger :: ctx, tags ++ logged).

Definition FromContext ctx (fallback : Logger) (resolver : TenantResolver L T) : SpanLogger :=
  let logger := match Value ctx with Some logger => logger | None => fallback end in
  let sp := match SpanFromContext (foreigns ctx) with Some s => tracerSpan s | None => defaultNoopSpan end in
  mkSpanLogger (withContext ctx logger resolver) sp.

(** ** What is logged *)
(** the values that identify the request *)
Definition request_kvs ctx (resolver : TenantResolver L T) : list log_value :=
  match TenantID resolver ctx with
  | Some userID => if bool_decide (userID ≠ "") then [log_string "org_id"; log_string userID] else []
  | None => []
  end ++
  match ExtractSampledTraceID (foreigns ctx) with
  | None => []
  | Some traceID => [log_string "traceID"; log_string traceID]
  end.
Lemma withContext_Log ctx logger resolver kvps :
  logger_Log (withContext ctx logger resolver) kvps = logger_Log logger (request_kvs ctx resolver ++ kvps).
Proof.
  unfold withContext, request_kvs. destruct (TenantID resolver ctx) as [u|]; [case_bool_decide|];
    destruct (ExtractSampledTraceID (foreigns ctx)); by rewrite ?log_With_Log, <- ?app_assoc.
Qed.

(** A span logger made by [New] logs to the logger it was given, with the tenant, the
    trace and the method in front; what it logs also goes to the span of the request
    when the values are well formed, and the error of values that are not is the only
    one; the context it returns gives back the same span and the logger without the
    method; without a logger in the context the fallback is used and without a span
    nothing is traced. *)
Theorem spanlogger_correct ctx logger method resolver kvps fallback :
  let '(l, ctx', effects) := New ctx logger method resolver kvps in
  (∀ kvs, SpanLogger_Log l kvs =
    let lines := Line <$> logger_Log logger (request_kvs (tail ctx') resolver ++ [log_string "method"; log_string method] ++ kvs) in
    match InterleavedKVToFields kvs with
    | Ok fields => (lines ++ span_LogFields (sl_Span l) fields, None)
    | Err e => (lines, Some e)
    end) ∧
  (kvps = [] → ∀ e, e ∈ effects → ∃ ids, ids ≠ [] ∧ TenantIDs resolver (tail ctx') = Some ids ∧ span_SetTag (sl_Span l) (tenant_ids ids) = [e]) ∧
  sl_Span (FromContext ctx' fallback resolver) = sl_Span l ∧ sl_Span l ≠ noopSpan ∧
  (∀ kvs, logger_Log (sl_Logger (FromContext ctx' fallback resolver)) kvs = logger_Log logger (request_kvs ctx' resolver ++ kvs)) ∧
  (∀ ctx0 kvs, Value ctx0 = None → SpanFromContext (foreigns ctx0) = None →
    let '(es, e) := SpanLogger_Log (FromContext ctx0 fallback resolver) kvs in
    es = Line <$> logger_Log fallback (request_kvs ctx0 resolver ++ kvs)).
Proof.
  pose proof (started_span (foreigns ctx) method) as Hspan. unfold New. destruct (StartSpanFromContext (foreigns ctx) method) as [sp x].
  simpl in Hspan. cbn [tail]. split_and!.
  - intros kvs. unfold SpanLogger_Log. cbn [sl_Logger sl_Span]. by rewrite log_With_Log, withContext_Log.
  - intros -> e. rewrite bool_decide_eq_false_2 by (simpl; lia). rewrite app_nil_r.
    destruct (TenantIDs resolver _) as [ids|] eqn:Hids; [|by intros ?%elem_of_nil].
    case_bool_decide as Hl; [|by intros ?%elem_of_nil]. intros ->%list_elem_of_singleton. exists ids.
    split; [by destruct ids; [simpl in Hl; lia|]|done].
  - unfold FromContext. change (foreigns (loggerCtxKey logger :: foreign x :: ctx)) with (x :: foreigns ctx). by rewrite Hspan.
  - done.
  - intros kvs. unfold FromContext. cbn [sl_Logger Value]. apply withContext_Log.
  - intros ctx0 kvs Hv Hs. unfold SpanLogger_Log, FromContext. rewrite Hv, Hs. cbn [sl_Logger sl_Span]. rewrite withContext_Log.
    destruct (InterleavedKVToFields kvs); [by rewrite app_nil_r|done].
Qed.

(** an error is returned as it is, and nothing is traced without one *)
Lemma SpanLogger_Error_returns s err : (SpanLogger_Error s err).2 = err ∧ (err = None → (SpanLogger_Error s err).1 = []).
Proof. destruct err; by split. Qed.
End spanlogger.

(** ** Witness: the values are strings, a logger is its context *)
Definition ex_KitLog : KitLog := {|
  log_value := string; log_string := id; Logger := list string; log_line := list string;
  log_With l kvs := (l ++ kvs)%list; logger_Log l kvps := [(l ++ kvps)%list]; level_Debug := ["level"; "debug"] |}.
#[local] Existing Instance ex_KitLog.
#[local] Instance ex_KitLogLaws : KitLogLaws ex_KitLog.
Proof. intros l kvs kvps. simpl. by rewrite <- app_assoc. Qed.
#[local] Instance ex_Tracing : Tracing ex_KitLog := {|
  tracing_binding := string; tracer_span := string; field := list string; trace_error := string;
  StartSpanFromContext _ m := (m, m); SpanFromContext ctx := head ctx;
  InterleavedKVToFields kvps := if Nat.even (length kvps) then Ok [kvps] else Err "non-even keyValues len";
  error_field e := [e]; ExtractSampledTraceID _ := Some "t1" |}.
#[local] Instance ex_TracingLaws : TracingLaws ex_Tracing.
Proof. by intros ctx m. Qed.
Definition ex_resolver : TenantResolver ex_KitLog ex_Tracing := mkResolver _ _ (λ _, Some "team-a") (λ _, Some ["team-a"]).

Example ex_New : (New [] ["app"] "query" ex_resolver ["msg"; "start"]).2 =
  [SetTag "query" (tenant_ids ["team-a"]);
   Line ["app"; "org_id"; "team-a"; "traceID"; "t1"; "method"; "query"; "level"; "debug"; "msg"; "start"];
   LogFields "query" [["level"; "debug"; "msg"; "start"]]].
Proof. reflexivity. Qed.
