(* ===== verification/Metrics.v ===== *)
(** * Metrics: what is registered, and what the gauges show

    The constructors of the components register metrics, and [promauto] panics when
    a registry refuses one.  The registry is that of the Prometheus library: a
    parameter, with its documented rule on metrics of the same name.  What a process
    with several rings, lifecyclers and clients registers never breaks that rule. *)
From Stdlib Require Import ZArith Lia Ascii.
From stdpp Require Import base gmap strings list fin_maps.
From S2P Require Import Prelude GoStrings Services Multi KVFactory.
Local Open Scope string_scope.
Local Open Scope list_scope.

Abbreviation labels := (gmap string string).
(** a descriptor *)
Record metric_desc := mkMetricDesc {
  fqName : string;
  help : string;
  variableLabels : list string;
  constLabels : labels
}.
(** a [Registerer]: the labels of the [WrapRegistererWith] around a registry,
    the innermost last; [None] is [nil], for which [promauto] does not register *)
Abbreviation Registerer := (option (list labels)).
Definition WrapRegistererWith (ls : labels) (reg : list labels) : list labels := ls :: reg.
Definition wrapped (ws : list labels) (d : metric_desc) : metric_desc :=
  mkMetricDesc (fqName d) (help d) (variableLabels d) (foldl (∪) (constLabels d) ws).

(** "Descriptors registered with the same registry have to fulfill certain
    consistency and uniqueness criteria if they share the same fully-qualified name:
    they must have the same help string and the same label names in each, constLabels
    and variableLabels, but they must differ in the values of the constLabels." *)
Definition consistent (d d' : metric_desc) : Prop :=
  fqName d = fqName d' → help d = help d' ∧ variableLabels d = variableLabels d' ∧
    dom (constLabels d) = dom (constLabels d') ∧ constLabels d ≠ constLabels d'.

Class Prometheus := {
  BuildFQName : string → string → string → string;
  registry : Type;
  registered : registry → list metric_desc;
  valid_desc : metric_desc → Prop;                (* legal names and label values *)
  MustRegister : registry → metric_desc → option registry    (* [None]: a panic *)
}.
Class PrometheusLaws (P : Prometheus) := {
  (** "joins the given three name components by _; empty components are ignored" *)
  BuildFQName_doc ns sub name : name ≠ "" →
    BuildFQName ns sub name = Join "_"%char (filter (λ s, s ≠ "") [ns; sub; name]);
  register_accepts g d : valid_desc d → Forall (consistent d) (registered g) → is_Some (MustRegister g d);
  register_spec g d g' : MustRegister g d = Some g' → registered g' = d :: registered g ∧ Forall (consistent d) (registered g)
}.

Section metrics.
Context {P : Prometheus} {PL : PrometheusLaws P}.

(** [promauto.With(reg).New...] *)
Definition promauto_New (reg : Registerer) (d : metric_desc) (g : registry) : option registry :=
  match reg with None => Some g | Some ws => MustRegister g (wrapped ws d) end.
Fixpoint promauto_all (ds : list (Registerer * metric_desc)) (g : registry) : option registry :=
  match ds with
  | [] => Some g
  | (reg, d) :: ds => g ← promauto_New reg d g; promauto_all ds g
  end.
Definition new_metric (Namespace Subsystem Name Help : string) (variable : list string) (const : labels) : metric_desc :=
  mkMetricDesc (BuildFQName Namespace Subsystem Name) Help variable const.

(** ** What the components register, in the order of the code *)
(** [createAndRegisterMetrics] of the gossiped store; the descriptor of the number of
    values is not registered *)
Definition createAndRegisterMetrics (MetricsNamespace : string) : list metric_desc :=
  let subsystem := "memberlist_client" in
  [
   new_metric MetricsNamespace subsystem "received_broadcasts_total" "Number of received broadcast user messages" [] ∅;
   new_metric MetricsNamespace subsystem "received_broadcasts_bytes_total" "Total size of received broadcast user messages" [] ∅;
   new_metric MetricsNamespace subsystem "received_broadcasts_invalid_total" "Number of received broadcast user messages that were invalid. Hopefully 0." [] ∅;
   new_metric MetricsNamespace subsystem "state_pushes_total" "How many times did this node push its full state to another node" [] ∅;
   new_metric MetricsNamespace subsystem "state_pushes_bytes_total" "Total size of pushed state" [] ∅;
   new_metric MetricsNamespace subsystem "state_pulls_total" "How many times did this node pull full state from another node" [] ∅;
   new_metric MetricsNamespace subsystem "state_pulls_bytes_total" "Total size of pulled state" [] ∅;
   new_metric MetricsNamespace subsystem "messages_in_broadcast_queue" "Number of user messages in the broadcast queue" [] ∅;
   new_metric MetricsNamespace subsystem "messages_in_broadcast_queue_bytes" "Total size of messages waiting in the broadcast queue" [] ∅;
   new_metric MetricsNamespace subsystem "messages_to_broadcast_dropped_total" "Number of broadcast messages intended to be sent but were dropped due to encoding errors or for being too big" [] ∅;
   new_metric MetricsNamespace subsystem "cas_attempt_total" "Attempted CAS operations" [] ∅;
   new_metric MetricsNamespace subsystem "cas_success_total" "Successful CAS operations" [] ∅;
   new_metric MetricsNamespace subsystem "cas_failure_total" "Failed CAS operations" [] ∅;
   new_metric MetricsNamespace subsystem "kv_store_value_tombstones" "Number of tombstones currently present in KV store values" ["key"] ∅;
   new_metric MetricsNamespace subsystem "kv_store_value_tombstones_removed_total" "Total number of tombstones which have been removed from KV store values" ["key"] ∅;
   new_metric MetricsNamespace subsystem "cluster_members_count" "Number of members in memberlist cluster" [] ∅;
   new_metric MetricsNamespace subsystem "cluster_node_health_score" "Health score of this cluster. Lower value is better. 0 = healthy" [] ∅;
   new_metric MetricsNamespace subsystem "watch_prefix_dropped_notifications" "Number of dropped notifications in WatchPrefix function" ["prefix"] ∅
  ].
Definition storeValuesDesc (MetricsNamespace : string) : metric_desc :=
  mkMetricDesc (BuildFQName MetricsNamespace "memberlist_client" "kv_store_count") "Number of values in KV Store" [] ∅.
(** [registerMetrics] of the transport *)
Definition TCPTransport_registerMetrics (MetricsNamespace : string) : list metric_desc :=
  let subsystem := "memberlist_tcp_transport" in
  [
   new_metric MetricsNamespace subsystem "incoming_streams_total" "Number of incoming memberlist streams" [] ∅;
   new_metric MetricsNamespace subsystem "outgoing_streams_total" "Number of outgoing streams" [] ∅;
   new_metric MetricsNamespace subsystem "outgoing_stream_errors_total" "Number of errors when opening memberlist stream to another node" [] ∅;
   new_metric MetricsNamespace subsystem "packets_received_total" "Number of received memberlist packets" [] ∅;
   new_metric MetricsNamespace subsystem "packets_received_bytes_total" "Total bytes received as packets" [] ∅;
   new_metric MetricsNamespace subsystem "packets_received_errors_total" "Number of errors when receiving memberlist packets" [] ∅;
   new_metric MetricsNamespace subsystem "packets_sent_total" "Number of memberlist packets sent" [] ∅;
   new_metric MetricsNamespace subsystem "packets_sent_bytes_total" "Total bytes sent as packets" [] ∅;
   new_metric MetricsNamespace subsystem "packets_sent_errors_total" "Number of errors when sending memberlist packets" [] ∅;
   new_metric MetricsNamespace subsystem "unknown_connections_total" "Number of unknown TCP connections (not a packet or stream)" [] ∅
  ].
Definition NewLifecyclerMetrics (ringName : string) : list metric_desc :=
  [
   new_metric "" "" "member_consul_heartbeats_total" "The total number of heartbeats sent to consul." [] {["name" := ringName]};
   new_metric "" "" "member_ring_tokens_owned" "The number of tokens owned in the ring." [] {["name" := ringName]};
   new_metric "" "" "member_ring_tokens_to_own" "The number of tokens to own in the ring." [] {["name" := ringName]};
   new_metric "" "" "shutdown_duration_seconds" "Duration (in seconds) of shutdown procedure (ie transfer or flush)." ["op"; "status"] {["name" := ringName]}
  ].
Definition NewBasicLifecyclerMetrics (ringName : string) : list metric_desc :=
  [
   new_metric "" "" "ring_member_heartbeats_total" "The total number of heartbeats sent." [] {["name" := ringName]};
   new_metric "" "" "ring_member_tokens_owned" "The number of tokens owned in the ring." [] {["name" := ringName]};
   new_metric "" "" "ring_member_tokens_to_own" "The number of tokens to own in the ring." [] {["name" := ringName]}
  ].
(** those of [NewWithStoreClientAndStrategy] *)
Definition ring_metrics (name : string) : list metric_desc :=
  [new_metric "" "" "ring_member_ownership_percent" "The percent ownership of the ring by member" ["member"] {["name" := name]};
   new_metric "" "" "ring_members" "Number of members in the ring" ["state"] {["name" := name]};
   new_metric "" "" "ring_tokens_total" "Number of tokens in the ring" [] {["name" := name]};
   new_metric "" "" "ring_tokens_owned" "The number of tokens in the ring owned by the member" ["member"] {["name" := name]};
   new_metric "" "" "ring_oldest_member_timestamp" "Timestamp of the oldest member in the ring." ["state"] {["name" := name]}].
Definition MultiClient_registerMetrics : list metric_desc :=
  [
   new_metric "" "" "multikv_primary_store" "Selected primary KV store" ["store"] ∅;
   new_metric "" "" "multikv_mirror_enabled" "Is mirroring to secondary store enabled" [] ∅;
   new_metric "" "" "multikv_mirror_writes_total" "Number of mirror-writes to secondary store" [] ∅;
   new_metric "" "" "multikv_mirror_write_errors_total" "Number of failures to mirror-write to secondary store" [] ∅
  ].
Definition runtimeconfig_metrics : list metric_desc :=
  [
   new_metric "" "" "runtime_config_last_reload_successful" "Whether the last runtime-config reload attempt was successful." [] ∅;
   new_metric "" "" "runtime_config_hash" "Hash of the currently active runtime config file." ["sha256"] ∅
  ].
Definition newConsulMetrics : metric_desc :=
  new_metric "" "" "consul_request_duration_seconds" "Time spent on consul requests." ["operation"; "status_code"] ∅.
Definition newMetricsClient (backend : string) : metric_desc :=
  new_metric "" "" "kv_request_duration_seconds" "Time spent on kv store requests." ["operation"; "status_code"] {["type" := backend]}.

Definition RegistererWithKVName (reg : Registerer) (name : string) : Registerer :=
  match reg with None => None | Some ws => Some (WrapRegistererWith {["kv_name" := name]} ws) end.
(** [role.Labels] *)
Definition role_Labels (r : role) : labels := {["role" := match r with Primary => "primary" | Secondary => "secondary" end]}.

(** what [createClient] registers for the client it builds; [fresh]: the in-memory
    store did not exist yet *)
Fixpoint client_metrics (fresh : bool) (reg : Registerer) (c : client) : list (Registerer * metric_desc) :=
  match c with
  | ConsulClient => [(reg, newConsulMetrics)]
  | InMemoryClient _ => if fresh then [(reg, newConsulMetrics)] else []
  | MultiClient _ c1 _ c2 =>
      client_metrics fresh reg c1 ++ client_metrics fresh reg c2 ++ ((reg,.) <$> MultiClient_registerMetrics)
  | Prefixed c _ => client_metrics fresh reg c
  | Metered backend r c =>
      client_metrics fresh reg c ++ [(WrapRegistererWith (role_Labels r) <$> reg, newMetricsClient backend)]
  | EtcdClient | MemberlistClient _ | MockClient | GivenClient => []
  end.
(** [ring.New], [NewLifecycler] and [NewBasicLifecycler] of a registerer, with the
    client that was built; the basic lifecycler is given its client *)
Definition New_metrics (reg : Registerer) (name : string) (fresh : bool) (c : client) : list (Registerer * metric_desc) :=
  client_metrics fresh (RegistererWithKVName reg (name ++ "-ring")%string) c ++ ((reg,.) <$> ring_metrics name).
Definition NewLifecycler_metrics (reg : Registerer) (name : string) (fresh : bool) (c : client) : list (Registerer * metric_desc) :=
  client_metrics fresh (RegistererWithKVName reg (name ++ "-lifecycler")%string) c ++ ((reg,.) <$> NewLifecyclerMetrics name).
Definition NewBasicLifecycler_metrics (reg : Registerer) (name : string) : list (Registerer * metric_desc) :=
  (reg,.) <$> NewBasicLifecyclerMetrics name.

(** ** What the gauges show *)
(** the functions of the gauges that read the gossip library, which is not there
    before the service is starting *)
Definition gauge_when_started (s : State) (v : Z) : Z :=
  if bool_decide (s = Running) || bool_decide (s = Stopping) then v else 0.
(** [Describe] and [Collect] *)
Definition Describe (MetricsNamespace : string) : list metric_desc := [storeValuesDesc MetricsNamespace].
Definition Collect {V} (MetricsNamespace : string) (store : gmap string V) : list (metric_desc * Z) :=
  [(storeValuesDesc MetricsNamespace, Z.of_nat (size store))].
(** the gauges of the multi client; [None]: the primary is out of range *)
Definition updatePrimaryStoreGauge (m : Multi.MultiClient) (g : gmap string Z) : option (gmap string Z) :=
  '(_, pkv) ← getPrimaryClient m;
  Some (foldl (λ g kv, <[name kv := if bool_decide (pkv = kv) then 1 else 0]> g) g (clients m)).
Definition updateMirrorEnabledGauge (m : Multi.MultiClient) : Z := if mirroringEnabled m then 1 else 0.
(** ** The metrics of a process do not collide *)
Lemma plain_name name : name ≠ "" → BuildFQName "" "" name = name.
Proof. intros Hn. rewrite BuildFQName_doc by done. rewrite !filter_cons_False, filter_cons_True by naive_solver. done. Qed.

(** the shapes of the metrics of rings, lifecyclers and clients: name, help, labels *)
Record template := mkTemplate { t_name : string; t_help : string; t_var : list string; t_const : list string }.
Definition template_of (d : metric_desc) (const : list string) : template := mkTemplate (fqName d) (help d) (variableLabels d) const.
Definition conforms (T : list template) (d : metric_desc) : Prop :=
  ∃ t, t ∈ T ∧ fqName d = t_name t ∧ help d = t_help t ∧ variableLabels d = t_var t ∧ dom (constLabels d) = list_to_set (C := gset string) (t_const t).
Definition ident (d : metric_desc) : string * labels := (fqName d, constLabels d).

Lemma conforms_consistent T d d' : NoDup (t_name <$> T) → conforms T d → conforms T d' → ident d ≠ ident d' → consistent d d'.
Proof.
  intros Hnd (t & Ht & Hf & Hh & Hv & Hc) (t' & Ht' & Hf' & Hh' & Hv' & Hc') Hid Hfq.
  assert (t = t') as <-.
  { apply list_elem_of_lookup in Ht as [n Hn], Ht' as [n' Hn']. assert (n = n') as <-; [|congruence].
    eapply (NoDup_lookup _ n n' (fqName d)); [exact Hnd|..]; rewrite list_lookup_fmap, ?Hn, ?Hn'; simpl; congruence. }
  split_and!; [congruence..|]. unfold ident in Hid. congruence.
Qed.

(** registering metrics one by one *)
Lemma promauto_all_ok T (ds : list (Registerer * metric_desc)) g :
  NoDup (t_name <$> T) →
  let new := omap (λ '(reg, d), (λ ws, wrapped ws d) <$> reg) ds in
  Forall valid_desc new → Forall (conforms T) new → Forall (conforms T) (registered g) →
  NoDup (ident <$> new ++ registered g) →
  ∃ g', promauto_all ds g = Some g' ∧ registered g' ≡ₚ new ++ registered g.
Proof.
  intros Hnd. revert g. induction ds as [|[[ws|] d] ds IH]; intros g; cbn [omap list_omap fmap option_fmap option_map promauto_all promauto_New].
  - intros _ _ _ _. by exists g.
  - set (new := omap _ ds) in *. intros [Hv Hvs]%Forall_cons [Hc Hcs]%Forall_cons Hg Hid. cbn in Hid. apply NoDup_cons in Hid as [Hd Hid].
    destruct (register_accepts g (wrapped ws d) Hv) as [g1 Hreg].
    { apply Forall_forall. intros d' Hd'. eapply conforms_consistent; [done..|by eapply Forall_forall|].
      intros Heq. apply Hd. rewrite Heq. apply list_elem_of_fmap_2, elem_of_app. by right. }
    destruct (register_spec _ _ _ Hreg) as [Hg1 _]. rewrite Hreg. destruct (IH g1) as (g2 & Hg2 & Hp); [done..|rewrite Hg1; by constructor| |].
    + rewrite Hg1, <- (Permutation_middle new). cbn. by apply NoDup_cons.
    + exists g2. simpl. split; [done|]. by rewrite Hp, Hg1, <- Permutation_middle.
  - apply IH.
Qed.
(** a metric that was registered before makes the constructor panic *)
Lemma promauto_all_panics ds1 ws d d' ds2 g :
  ident (wrapped ws d) = ident d' → d' ∈ registered g → promauto_all (ds1 ++ (Some ws, d) :: ds2) g = None.
Proof.
  intros Hid. revert g. induction ds1 as [|[r1 d1] ds1 IH]; intros g Hin; simpl.
  - destruct (MustRegister g (wrapped ws d)) as [g1|] eqn:Hr; [|done]. exfalso. apply register_spec in Hr as [_ Hall].
    rewrite Forall_forall in Hall. destruct (Hall d' Hin) as (_ & _ & _ & Hne); by injection Hid.
  - destruct (promauto_New r1 d1 g) as [g1|] eqn:Hr; simpl; [|done]. apply IH.
    destruct r1 as [ws1|]; simpl in Hr; [|by injection Hr as <-]. apply register_spec in Hr as [-> _]. by right.
Qed.
(** *** The metrics of a client *)
Definition kv_metric (ws : list labels) (r : role) (backend : string) : metric_desc := wrapped (role_Labels r :: ws) (newMetricsClient backend).
Definition consul_metric (ws : list labels) (backend : string) : list metric_desc :=
  if bool_decide (backend = "consul") then [wrapped ws newConsulMetrics] else [].
(** the clients [NewClient] builds when it is given a registerer *)
Inductive built : client → Prop :=
| built_single b s prefix : store_named b s → built (Metered b Primary (if bool_decide (prefix ≠ "") then Prefixed s prefix else s))
| built_multi b1 s1 b2 s2 prefix : b1 ≠ b2 → store_named b1 s1 → store_named b2 s2 →
    built (Metered "multi" Primary (let c := MultiClient b1 (Metered b1 Primary s1) b2 (Metered b2 Secondary s2) in
                                    if bool_decide (prefix ≠ "") then Prefixed c prefix else c)).

Definition registered_by (ds : list (Registerer * metric_desc)) : list metric_desc :=
  omap (λ '(reg, d), (λ ws, wrapped ws d) <$> reg) ds.
Lemma registered_by_app ds1 ds2 : registered_by (ds1 ++ ds2) = registered_by ds1 ++ registered_by ds2.
Proof. apply omap_app. Qed.
Lemma registered_by_all ws ds : registered_by ((Some ws,.) <$> ds) = wrapped ws <$> ds.
Proof. induction ds as [|d ds IH]; [done|]. exact (f_equal (cons _) IH). Qed.
Lemma store_metrics ws b s : store_named b s → registered_by (client_metrics false (Some ws) s) = consul_metric ws b.
Proof. intros [[-> ->]|[[-> ->]|[[-> [? ->]]|[[-> [? ->]]|[-> ->]]]]]; done. Qed.
Lemma prefixed_metrics ws c prefix : client_metrics false (Some ws) (if bool_decide (prefix ≠ "") then Prefixed c prefix else c) = client_metrics false (Some ws) c.
Proof. by case_bool_decide. Qed.

Lemma client_metrics_perm {A} (c1 c2 m : list A) x y z :
  ((c1 ++ [x]) ++ (c2 ++ [y]) ++ m) ++ [z] ≡ₚ [x; y; z] ++ (c1 ++ c2) ++ m.
Proof.
  rewrite <- !app_assoc. cbn. rewrite <- Permutation_middle. constructor. rewrite (app_assoc c1 c2), <- Permutation_middle.
  constructor. by rewrite app_assoc, Permutation_app_comm, <- !app_assoc.
Qed.
(** the metrics of a client, the kinds of requests and stores they are of *)
Lemma built_metrics ws c : built c → ∃ kvs consul multi, registered_by (client_metrics false (Some ws) c) ≡ₚ
    ((λ '(b, r), kv_metric ws r b) <$> kvs) ++ consul ++ multi ∧
  NoDup kvs ∧ (consul = [] ∨ consul = [wrapped ws newConsulMetrics]) ∧ (multi = [] ∨ multi = wrapped ws <$> MultiClient_registerMetrics).
Proof.
  intros [b s prefix Hs|b1 s1 b2 s2 prefix Hne Hs1 Hs2]; cbn [client_metrics]; rewrite prefixed_metrics; cbn [client_metrics];
    rewrite ?registered_by_app, ?registered_by_all.
  - rewrite (store_metrics _ _ _ Hs). exists [(b, Primary)], (consul_metric ws b), []. split_and!.
    + rewrite app_nil_r. apply Permutation_app_comm.
    + apply NoDup_singleton.
    + unfold consul_metric. case_bool_decide; [by right|by left].
    + by left.
  - rewrite (store_metrics _ _ _ Hs1), (store_metrics _ _ _ Hs2).
    exists [(b1, Primary); (b2, Secondary); ("multi", Primary)], (consul_metric ws b1 ++ consul_metric ws b2), (wrapped ws <$> MultiClient_registerMetrics).
    split_and!.
    + apply client_metrics_perm.
    + assert (b1 ≠ "multi") as Hm by (destruct Hs1 as [[-> _]|[[-> _]|[[-> _]|[[-> _]|[-> _]]]]]; done).
      rewrite !NoDup_cons, !not_elem_of_cons. split_and!; try apply not_elem_of_nil; try apply NoDup_nil_2; congruence.
    + unfold consul_metric. do 2 case_bool_decide; subst; naive_solver.
    + by right.
Qed.
(** *** A process *)
Inductive part := RingPart (name : string) (c : client) | LifecyclerPart (name : string) (c : client) | BasicPart (name : string).
(** what tells two parts apart: their kind and the name of their ring *)
Definition part_key (p : part) : nat * string :=
  match p with RingPart n _ => (0%nat, n) | LifecyclerPart n _ => (1%nat, n) | BasicPart n => (2%nat, n) end.
Definition part_ok (p : part) : Prop := match p with RingPart _ c | LifecyclerPart _ c => built c | BasicPart _ => True end.
Definition part_metrics (p : part) : list (Registerer * metric_desc) :=
  match p with
  | RingPart n c => New_metrics (Some []) n false c
  | LifecyclerPart n c => NewLifecycler_metrics (Some []) n false c
  | BasicPart n => NewBasicLifecycler_metrics (Some []) n
  end.

Definition own_metrics (k : nat) (n : string) : list metric_desc :=
  match k with 0%nat => ring_metrics n | 1%nat => NewLifecyclerMetrics n | _ => NewBasicLifecyclerMetrics n end.
Definition with_labels (const : list string) (ds : list metric_desc) : list template := (λ d, template_of d const) <$> ds.
Definition process_templates : list template :=
  with_labels ["name"] (own_metrics 0 "") ++ with_labels ["name"] (own_metrics 1 "") ++ with_labels ["name"] (own_metrics 2 "") ++
  with_labels ["type"; "role"; "kv_name"] [newMetricsClient ""] ++ with_labels ["kv_name"] (newConsulMetrics :: MultiClient_registerMetrics).

Ltac plain_names :=
  unfold process_templates, with_labels, template_of, own_metrics, ring_metrics, NewLifecyclerMetrics, NewBasicLifecyclerMetrics,
    MultiClient_registerMetrics, newConsulMetrics, newMetricsClient, new_metric in *; cbn in *; rewrite ?plain_name in * by done.

Lemma process_names_NoDup : NoDup (t_name <$> process_templates).
Proof. plain_names. apply (bool_decide_unpack _). vm_compute. exact I. Qed.
Lemma own_names_NoDup k n : NoDup (fqName <$> own_metrics k n).
Proof. destruct k as [|[|k]]; plain_names; apply (bool_decide_unpack _); vm_compute; exact I. Qed.
Lemma own_conforms k n d : d ∈ own_metrics k n → conforms process_templates d ∧ constLabels d = {["name" := n]}.
Proof.
  intros Hd. assert (constLabels d = {["name" := n]}) as Hc.
  { assert (Forall (λ d, constLabels d = {["name" := n]}) (own_metrics k n)) as Hall by (destruct k as [|[|k]]; repeat constructor).
    by rewrite Forall_forall in Hall; apply Hall. }
  split; [|done]. assert (template_of d ["name"] ∈ with_labels ["name"] (own_metrics k n)) as Ht by (by apply (list_elem_of_fmap_2 (λ d, template_of d _))).
  assert (template_of d ["name"] ∈ process_templates) as Hin.
  { unfold process_templates. rewrite !elem_of_app. destruct k as [|[|k]]; [by left|by right; left|by right; right; left]. }
  exists (template_of d ["name"]). split_and!; try done. rewrite Hc, dom_singleton_L. set_solver.
Qed.
Definition kv_labels (kn : string) : list labels := [{["kv_name" := kn]}].
Lemma kv_metric_conforms kn r b : let d := kv_metric (kv_labels kn) r b in
  conforms process_templates d ∧ constLabels d !! "name" = None ∧ constLabels d !! "kv_name" = Some kn ∧
  constLabels d !! "type" = Some b ∧ constLabels d !! "role" = role_Labels r !! "role" ∧ fqName d = "kv_request_duration_seconds".
Proof.
  cbv zeta. assert (fqName (newMetricsClient b) = "kv_request_duration_seconds") as Hf by by apply plain_name.
  split; [|destruct r; by split_and!].
  exists (template_of (newMetricsClient "") ["type"; "role"; "kv_name"]). split_and!; [|done|done|done|].
  - unfold process_templates, with_labels. rewrite !elem_of_app. do 3 right. left. by left.
  - unfold kv_metric, wrapped, newMetricsClient, new_metric, role_Labels. cbn. rewrite !dom_union_L, !dom_singleton_L. set_solver.
Qed.
Lemma consul_multi_conforms kn d : d ∈ wrapped (kv_labels kn) <$> newConsulMetrics :: MultiClient_registerMetrics →
  conforms process_templates d ∧ constLabels d !! "name" = None ∧ constLabels d !! "kv_name" = Some kn.
Proof.
  intros (d0 & -> & Hd)%list_elem_of_fmap.
  assert (constLabels d0 = ∅) as Hc.
  { assert (Forall (λ d, constLabels d = ∅) (newConsulMetrics :: MultiClient_registerMetrics)) as Hall by repeat constructor.
    by rewrite Forall_forall in Hall; apply Hall. }
  assert (constLabels (wrapped (kv_labels kn) d0) = {["kv_name" := kn]}) as Hw by (simpl; by rewrite Hc, (left_id_L ∅ (∪))).
  rewrite Hw. split; [|done]. exists (template_of d0 ["kv_name"]). split_and!; try done.
  - unfold process_templates, with_labels. rewrite !elem_of_app. do 4 right. apply list_elem_of_fmap. by exists d0.
  - rewrite Hw, dom_singleton_L. set_solver.
Qed.

Lemma other_names_NoDup kn : NoDup (fst ∘ ident <$> (wrapped (kv_labels kn) <$> newConsulMetrics :: MultiClient_registerMetrics)).
Proof.
  rewrite <- list_fmap_compose. unfold MultiClient_registerMetrics, newConsulMetrics, new_metric. cbn. rewrite !plain_name by done.
  apply (bool_decide_unpack _). vm_compute. exact I.
Qed.
Lemma other_names kn d : d ∈ wrapped (kv_labels kn) <$> newConsulMetrics :: MultiClient_registerMetrics → fqName d ≠ "kv_request_duration_seconds".
Proof.
  intros (d0 & -> & Hd)%list_elem_of_fmap. simpl. unfold MultiClient_registerMetrics, newConsulMetrics, new_metric in Hd.
  rewrite !elem_of_cons, elem_of_nil in Hd. destruct Hd as [->|[->|[->|[->|[->|[]]]]]]; simpl; by rewrite plain_name.
Qed.

(** the metrics of a client: of its name, and no two of them are the same *)
Lemma client_idents kn c : built c → let ds := registered_by (client_metrics false (Some (kv_labels kn)) c) in
  (∀ d, d ∈ ds → conforms process_templates d ∧ constLabels d !! "name" = None ∧ constLabels d !! "kv_name" = Some kn) ∧
  NoDup (ident <$> ds).
Proof.
  intros Hc. destruct (built_metrics (kv_labels kn) c Hc) as (kvs & consul & multi & Hp & Hkvs & Hconsul & Hmulti). cbv zeta.
  set (others := consul ++ multi) in *.
  assert (others ⊆+ wrapped (kv_labels kn) <$> newConsulMetrics :: MultiClient_registerMetrics) as Hsub.
  { unfold others. destruct Hconsul as [->| ->], Hmulti as [->| ->]; cbn; [apply submseteq_nil_l|by apply submseteq_cons|apply submseteq_skip, submseteq_nil_l|done]. }
  split.
  - intros d. rewrite Hp, elem_of_app, list_elem_of_fmap. intros [([b r] & -> & _)|Hd].
    + destruct (kv_metric_conforms kn r b) as (? & ? & ? & _). done.
    + apply (consul_multi_conforms kn). by eapply elem_of_submseteq.
  - rewrite Hp, fmap_app. apply NoDup_app. split_and!.
    + rewrite <- list_fmap_compose. eapply (NoDup_fmap_1 (λ i : string * labels, (i.2 !! "type", i.2 !! "role"))).
      rewrite <- list_fmap_compose. apply (NoDup_fmap_2_strong); [|done]. intros [b1 r1] [b2 r2] _ _. cbn [compose].
      destruct (kv_metric_conforms kn r1 b1) as (_ & _ & _ & H1 & H2 & _), (kv_metric_conforms kn r2 b2) as (_ & _ & _ & H3 & H4 & _).
      unfold compose, ident. simpl in *. rewrite H1, H2, H3, H4. intros [= -> Hr]. by destruct r1, r2.
    + intros i Hi Ho. apply list_elem_of_fmap in Hi as (d & -> & Hd). apply list_elem_of_fmap in Hd as ([b r] & -> & _).
      apply list_elem_of_fmap in Ho as (d & Heq & Hd). apply (f_equal fst) in Heq. simpl in Heq.
      destruct (kv_metric_conforms kn r b) as (_ & _ & _ & _ & _ & Hf). simpl in Hf. rewrite Hf in Heq.
      apply (elem_of_submseteq _ _ _ Hd) in Hsub. apply (other_names kn) in Hsub. by rewrite <- Heq in Hsub.
    + eapply NoDup_submseteq_sub; [by apply fmap_submseteq|]. apply (NoDup_fmap_1 fst). rewrite <- list_fmap_compose.
      apply other_names_NoDup.
Qed.
(** the descriptors of a part *)
Definition part_registered (p : part) : list metric_desc := registered_by (part_metrics p).
Definition kv_name_of (p : part) : option string :=
  match p with
  | RingPart n _ => Some (n ++ "-ring")%string
  | LifecyclerPart n _ => Some (n ++ "-lifecycler")%string
  | BasicPart _ => None
  end.
Lemma wrapped_nil d : wrapped [] d = d.
Proof. by destruct d. Qed.
Lemma part_registered_eq p : part_registered p =
  match p, kv_name_of p with
  | (RingPart _ c | LifecyclerPart _ c), Some kn => registered_by (client_metrics false (Some (kv_labels kn)) c)
  | _, _ => []
  end ++ own_metrics (part_key p).1 (part_key p).2.
Proof.
  assert (∀ ds : list metric_desc, wrapped [] <$> ds = ds) as Hid by (intros ds; induction ds as [|d ds IH]; [done|]; rewrite fmap_cons, wrapped_nil, IH; done).
  destruct p as [n c|n c|n]; unfold part_registered, part_metrics, New_metrics, NewLifecycler_metrics, NewBasicLifecycler_metrics;
    rewrite ?registered_by_app, registered_by_all, Hid; done.
Qed.

(** a metric of a part carries the name of the part *)
Lemma part_metric p d : part_ok p → d ∈ part_registered p → conforms process_templates d ∧
  ((constLabels d !! "name" = Some (part_key p).2 ∧ fqName d ∈ fqName <$> own_metrics (part_key p).1 "") ∨
   (constLabels d !! "name" = None ∧ constLabels d !! "kv_name" = kv_name_of p ∧ kv_name_of p ≠ None)).
Proof.
  intros Hok Hd. rewrite part_registered_eq in Hd. apply elem_of_app in Hd as [Hd|Hd].
  - destruct p as [n c|n c|n]; [| |by apply elem_of_nil in Hd];
      apply (proj1 (client_idents _ c Hok)) in Hd as (? & ? & ?); (split; [done|]); by right.
  - destruct (own_conforms _ _ _ Hd) as [Hc Hl]. split; [done|]. left. rewrite Hl. split; [done|].
    assert (fqName d ∈ fqName <$> own_metrics (part_key p).1 (part_key p).2) as Hin by by apply list_elem_of_fmap_2.
    destruct p; exact Hin.
Qed.
Lemma part_idents_NoDup p : part_ok p → NoDup (ident <$> part_registered p).
Proof.
  intros Hok. rewrite part_registered_eq, fmap_app. apply NoDup_app. split_and!.
  - destruct p as [n c|n c|n]; [| |apply NoDup_nil_2]; exact (proj2 (client_idents _ c Hok)).
  - intros i Hi Ho. apply list_elem_of_fmap in Hi as (d & -> & Hd). apply list_elem_of_fmap in Ho as (d' & Heq & Hd').
    destruct (own_conforms _ _ _ Hd') as [_ Hl]. assert (constLabels d = constLabels d') as He by exact (f_equal snd Heq).
    assert (constLabels d !! "name" = None) as Hn.
    { destruct p as [n c|n c|n]; [| |by apply elem_of_nil in Hd]; by apply (proj1 (client_idents _ c Hok)) in Hd as (_ & ? & _). }
    by rewrite He, Hl, lookup_singleton_eq in Hn.
  - apply (NoDup_fmap_1 fst). rewrite <- list_fmap_compose. apply own_names_NoDup.
Qed.

Fixpoint last_char (s : string) : option ascii :=
  match s with "" => None | String.String c s => match s with "" => Some c | _ => last_char s end end.
Lemma last_char_app s c t : last_char (s ++ String.String c t)%string = last_char (String.String c t).
Proof. induction s as [|a s IH]; [done|]. change (last_char (String.String a (s ++ String.String c t)) = last_char (String.String c t)). rewrite <- IH. by destruct s. Qed.
Lemma append_inj_l s t u : (s ++ u)%string = (t ++ u)%string → s = t.
Proof.
  assert (∀ s t : string, String.length (s ++ t) = (String.length s + String.length t)%nat) as Hlen by (intros a b; induction a as [|x a IHa]; [done|exact (f_equal S IHa)]).
  revert t. induction s as [|c s IH]; intros [|c' t] He; try done.
  - apply (f_equal String.length) in He. change (String.length u = S (String.length (t ++ u))) in He. rewrite Hlen in He. lia.
  - apply (f_equal String.length) in He. change (S (String.length (s ++ u)) = String.length u) in He. rewrite Hlen in He. lia.
  - injection He as -> He. f_equal. by apply IH.
Qed.
Lemma own_names_apart k k' f : (k < 3)%nat → (k' < 3)%nat →
  f ∈ fqName <$> own_metrics k "" → f ∈ fqName <$> own_metrics k' "" → k = k'.
Proof.
  intros Hk Hk' Hf Hf'. pose proof process_names_NoDup as Hnd. unfold process_templates in Hnd.
  rewrite !fmap_app in Hnd. assert (∀ k, t_name <$> with_labels ["name"] (own_metrics k "") = fqName <$> own_metrics k "") as Hn
    by (intros j; unfold with_labels; by rewrite <- list_fmap_compose).
  rewrite !Hn in Hnd. apply NoDup_app in Hnd as (_ & H0 & Hnd). apply NoDup_app in Hnd as (_ & H1 & _).
  setoid_rewrite elem_of_app in H0. setoid_rewrite elem_of_app in H0. setoid_rewrite elem_of_app in H1.
  destruct k as [|[|[|k]]], k' as [|[|[|k']]]; try lia; exfalso; naive_solver.
Qed.

Lemma part_keys p : ((part_key p).1 < 3)%nat.
Proof. destruct p; simpl; lia. Qed.
Lemma parts_apart p p' d d' : part_ok p → part_ok p' → part_key p ≠ part_key p' →
  d ∈ part_registered p → d' ∈ part_registered p' → ident d ≠ ident d'.
Proof.
  intros Hok Hok' Hne Hd Hd' Hid. injection Hid as Hf Hl.
  destruct (part_metric p d Hok Hd) as [_ Hp], (part_metric p' d' Hok' Hd') as [_ Hp']. rewrite <- Hf, <- Hl in Hp'.
  destruct Hp as [(Hn & Hin)|(Hn & Hkv & Hsome)], Hp' as [(Hn' & Hin')|(Hn' & Hkv' & _)]; try congruence.
  - apply Hne. rewrite (surjective_pairing (part_key p)), (surjective_pairing (part_key p')). f_equal; [|congruence].
    by apply (own_names_apart _ _ (fqName d)); try apply part_keys.
  - rewrite Hkv in Hkv'. destruct p as [n c|n c|n], p' as [n' c'|n' c'|n']; simpl in *; try done; injection Hkv' as He.
    + by apply append_inj_l in He as ->.
    + apply (f_equal last_char) in He. by rewrite !last_char_app in He.
    + apply (f_equal last_char) in He. by rewrite !last_char_app in He.
    + by apply append_inj_l in He as ->.
Qed.

Lemma promauto_all_app ds1 ds2 g : promauto_all (ds1 ++ ds2) g = promauto_all ds1 g ≫= promauto_all ds2.
Proof.
  revert g. induction ds1 as [|[reg d] ds1 IH]; intros g; [done|]. simpl. destruct (promauto_New reg d g); simpl; [apply IH|done].
Qed.
Lemma promauto_all_registered ds g g' : promauto_all ds g = Some g' → registered g' ≡ₚ registered_by ds ++ registered g.
Proof.
  revert g. induction ds as [|[[ws|] d] ds IH]; intros g; [by intros [= ->]| |apply IH]. cbn [promauto_all promauto_New].
  destruct (MustRegister g (wrapped ws d)) as [g1|] eqn:Hr; [|done]. intros Hg'. apply IH in Hg'. apply register_spec in Hr as [Hr _].
  rewrite Hg', Hr. symmetry. apply Permutation_middle.
Qed.
Lemma own_first p : ∃ ds1 d ds2, part_metrics p = ds1 ++ (Some [], d) :: ds2 ∧ d ∈ own_metrics (part_key p).1 (part_key p).2.
Proof.
  destruct p as [n c|n c|n]; [eexists (client_metrics _ _ _), _, _|eexists (client_metrics _ _ _), _, _|eexists [], _, _]; (split; [reflexivity|by left]).
Qed.

(** A process that builds rings, lifecyclers and basic lifecyclers, in any order and
    number, no two of a kind for the same ring, each with any client [NewClient]
    builds, registers all its metrics: the constructors do not panic.  A second one
    of the same kind and name does. *)
Theorem metrics_register (parts : list part) (g : registry) :
  registered g = [] → Forall part_ok parts →
  Forall valid_desc (parts ≫= part_registered) →
  (NoDup (part_key <$> parts) →
   ∃ g', promauto_all (parts ≫= part_metrics) g = Some g' ∧ registered g' ≡ₚ parts ≫= part_registered) ∧
  (∀ p p', p ∈ parts → part_key p = part_key p' → promauto_all ((parts ≫= part_metrics) ++ part_metrics p') g = None).
Proof.
  intros Hg Hok Hvalid. set (T := process_templates).
  assert (∀ l, registered_by (l ≫= part_metrics) = l ≫= part_registered) as Hreg.
  { intros l. induction l as [|p l IH]; [done|]. rewrite !bind_cons, registered_by_app. by rewrite IH. }
  assert (NoDup (part_key <$> parts) → NoDup (ident <$> (parts ≫= part_registered))) as Hids.
  { clear Hvalid Hreg. intros Hnd. induction parts as [|p l IH]; [apply NoDup_nil_2|].
    apply Forall_cons in Hok as [Hp Hl]. rewrite fmap_cons in Hnd. apply NoDup_cons in Hnd as [Hn Hnd].
    rewrite bind_cons, fmap_app. apply NoDup_app. split_and!; [by apply part_idents_NoDup| |by apply IH].
    intros i Hi Hi'. apply list_elem_of_fmap in Hi as (d & -> & Hd). apply list_elem_of_fmap in Hi' as (d' & Heq & Hd').
    apply list_elem_of_bind in Hd' as (p' & Hd' & Hp'). rewrite Forall_forall in Hl.
    apply (parts_apart p p' d d' Hp (Hl p' Hp')); try done. intros Hk. apply Hn. rewrite Hk. by apply list_elem_of_fmap_2. }
  split.
  - intros Hnd. destruct (promauto_all_ok T (parts ≫= part_metrics) g process_names_NoDup) as (g' & H1 & H2).
    + change (omap _ _) with (registered_by (parts ≫= part_metrics)). by rewrite Hreg.
    + change (omap _ _) with (registered_by (parts ≫= part_metrics)). rewrite Hreg. apply Forall_forall.
      intros d (p & Hd & Hp)%list_elem_of_bind. rewrite Forall_forall in Hok. by apply (part_metric p d (Hok p Hp)).
    + by rewrite Hg.
    + change (omap _ _) with (registered_by (parts ≫= part_metrics)). rewrite Hreg, Hg, app_nil_r. by apply Hids.
    + exists g'. split; [done|]. change (omap _ _) with (registered_by (parts ≫= part_metrics)) in H2. by rewrite H2, Hreg, Hg, app_nil_r.
  - intros p p' Hp Hk. rewrite promauto_all_app. destruct (promauto_all (parts ≫= part_metrics) g) as [g1|] eqn:Hg1; [|done]. simpl.
    apply promauto_all_registered in Hg1. rewrite Hg, app_nil_r, Hreg in Hg1. destruct (own_first p') as (ds1 & d0 & ds2 & -> & Hown).
    apply (promauto_all_panics ds1 [] d0 d0); [by rewrite wrapped_nil|]. rewrite Hg1. apply list_elem_of_bind. exists p. split; [|done].
    rewrite part_registered_eq, elem_of_app. right. by rewrite Hk.
Qed.
(** [NewClient] with a registerer builds these clients *)
Lemma createClient_built cfg env codec fuel b prefix r p p' c : b ≠ "multi" →
  createClient cfg env codec true (S fuel) b prefix r p = Some (p', Ok c) →
  ∃ s, store_named b s ∧ c = Metered b r (if bool_decide (prefix ≠ "") then Prefixed s prefix else s).
Proof.
  intros Hb. cbn -[wrap].
  repeat (case_bool_decide as Hc; [subst b; cbn -[wrap]; intros Heq|clear Hc]); try done.
  - destruct (new_consul env); simplify_eq. exists ConsulClient. split; [by left|done].
  - destruct (new_etcd env); simplify_eq. exists EtcdClient. split; [right; by left|done].
  - simplify_eq. eexists. split; [do 2 right; left; by eauto|done].
  - destruct (MemberlistKV env) as [codecs|]; [|done]. destruct (bool_decide (codec ∈ codecs)); simplify_eq.
    eexists. split; [do 3 right; left; by eauto|done].
  - simplify_eq. eexists. split; [do 4 right; by eauto|done].
Qed.
Lemma createClient_multi cfg env codec fuel prefix r p : createClient cfg env codec true (S fuel) "multi" prefix r p =
  ('(p, res) ← buildMultiClient cfg (createClient cfg env codec true fuel) p;
   Some (p, match res with Err e => Err e | Ok c => Ok (wrap true "multi" prefix r c) end)).
Proof. reflexivity. Qed.
Lemma NewClient_built cfg env codec p p' c : has_Mock cfg = false → NewClient cfg env codec true p = Some (p', Ok c) → built c.
Proof.
  unfold NewClient. intros ->. destruct (decide (Store cfg = "multi")) as [Hm|Hm].
  2: { intros Hc. apply createClient_built in Hc as (s & Hs & ->); [|done]. by constructor. }
  rewrite Hm, createClient_multi. remember (createClient cfg env codec true 1) as create eqn:Hcreate. unfold buildMultiClient.
  destruct (_ || _); [done|]. destruct (bool_decide (Multi_Primary cfg = "multi") || _) eqn:Hmm; [done|].
  apply orb_false_iff in Hmm as [H1%bool_decide_eq_false H2%bool_decide_eq_false]. case_bool_decide as Hne; [done|].
  destruct (create (Multi_Primary cfg) "" Primary p) as [[p1 [c1|]]|] eqn:Hc1; cbn; try done.
  destruct (create (Multi_Secondary cfg) "" Secondary p1) as [[p2 [c2|]]|] eqn:Hc2; cbn; try done.
  subst create. apply createClient_built in Hc1 as (s1 & Hs1 & ->), Hc2 as (s2 & Hs2 & ->); [|done..]. intros Heq. simplify_eq. by constructor.
Qed.

(** The in-memory store, when it is first built inside of a multi client, and the
    client of Consul next to it register the same metric. *)
Lemma promauto_all_twice ds1 ws d ds2 ds3 g : promauto_all ((ds1 ++ [(Some ws, d)]) ++ ds2 ++ (Some ws, d) :: ds3) g = None.
Proof.
  rewrite promauto_all_app. destruct (promauto_all (ds1 ++ _) g) as [g1|] eqn:Hg1; [|done]. simpl.
  apply (promauto_all_panics _ ws d (wrapped ws d)); [done|]. apply promauto_all_registered in Hg1. rewrite Hg1, registered_by_app, !elem_of_app.
  left. right. by left.
Qed.
Definition consul_and_inmemory (codec : string) : client :=
  Metered "multi" Primary (MultiClient "consul" (Metered "consul" Primary ConsulClient) "inmemory" (Metered "inmemory" Secondary (InMemoryClient codec))).
Lemma consul_and_fresh_inmemory name codec g : promauto_all (New_metrics (Some []) name true (consul_and_inmemory codec)) g = None.
Proof. exact (promauto_all_twice [] _ newConsulMetrics [_] _ g). Qed.

(** *** The gossiped store and its transport, in one registry and name space *)
Definition namespace_prefix (ns : string) : string := if bool_decide (ns = "") then "" else (ns ++ "_")%string.
Lemma name_in ns sub name : sub ≠ "" → name ≠ "" → BuildFQName ns sub name = (namespace_prefix ns ++ (sub ++ String.String "_"%char name))%string.
Proof.
  intros Hs Hn. rewrite BuildFQName_doc by done. unfold namespace_prefix.
  assert (filter (λ s, s ≠ "") [ns; sub; name] = (if bool_decide (ns = "") then [] else [ns]) ++ [sub; name]) as ->.
  { rewrite (filter_cons _ ns), !(filter_cons_True _ sub), !(filter_cons_True _ name), filter_nil by done.
    case_decide as H1; case_bool_decide as H2; naive_solver. }
  case_bool_decide as Hns; [done|].
  change (Join "_"%char ([ns] ++ [sub; name])) with (ns ++ String.String "_"%char (sub ++ String.String "_"%char name))%string.
  generalize (sub ++ String.String "_"%char name)%string. intros t. clear. induction ns as [|c ns IH]; [done|]. exact (f_equal (String.String c) IH).
Qed.
Definition memberlist_metrics (ns : string) : list metric_desc := createAndRegisterMetrics ns ++ TCPTransport_registerMetrics ns.
Lemma memberlist_names ns : NoDup (fqName <$> memberlist_metrics ns).
Proof.
  unfold memberlist_metrics, createAndRegisterMetrics, TCPTransport_registerMetrics, new_metric. cbn [app fmap list_fmap fqName].
  rewrite !name_in by done.
  match goal with |- NoDup ?l =>
    let rec strip l := match l with (_ ++ ?t)%string :: ?l' => let r := strip l' in constr:(t :: r) | _ => constr:(@nil string) end in
    let r := strip l in change (NoDup (String.append (namespace_prefix ns) <$> r)) end.
  apply (NoDup_fmap_2 _), (bool_decide_unpack _). vm_compute. exact I.
Qed.
(** metrics of different names *)
Lemma plain_register ds g : registered g = [] → Forall valid_desc ds → Forall (λ d, constLabels d = ∅) ds → NoDup (fqName <$> ds) →
  is_Some (promauto_all ((Some [],.) <$> ds) g).
Proof.
  intros Hg Hv Hconst Hnd. set (T := (λ d, template_of d []) <$> ds).
  assert (registered_by ((Some [],.) <$> ds) = ds) as Hreg.
  { rewrite registered_by_all. clear. induction ds as [|d l IH]; [done|]. by rewrite fmap_cons, wrapped_nil, IH. }
  destruct (promauto_all_ok T ((Some [],.) <$> ds) g) as (g' & -> & _); rewrite ?Hg; change (omap _ _) with (registered_by ((Some [],.) <$> ds));
    rewrite ?Hreg, ?app_nil_r; try done.
  - unfold T. by rewrite <- list_fmap_compose.
  - apply Forall_forall. intros d Hd. exists (template_of d []). split_and!; try done; [by apply (list_elem_of_fmap_2 (λ d, template_of d []))|].
    rewrite Forall_forall in Hconst. by rewrite (Hconst d Hd).
  - apply (NoDup_fmap_1 fst). by rewrite <- list_fmap_compose.
Qed.
Lemma memberlist_register ns g : registered g = [] → Forall valid_desc (memberlist_metrics ns) →
  is_Some (promauto_all ((Some [],.) <$> memberlist_metrics ns) g).
Proof. intros Hg Hv. apply plain_register; [done|done| |apply memberlist_names]. repeat constructor. Qed.

(** ** The gauges *)
(** after [updatePrimaryStoreGauge] the gauge is one for the name of the primary and
    zero for the other stores *)
Lemma primary_gauge m g ix pkv :
  NoDup (name <$> clients m) → getPrimaryClient m = Some (ix, pkv) →
  ∃ g', updatePrimaryStoreGauge m g = Some g' ∧
    ∀ kv, kv ∈ clients m → g' !! name kv = Some (if bool_decide (name kv = name pkv) then 1 else 0).
Proof.
  intros Hnd Hp. assert (pkv ∈ clients m) as Hin.
  { unfold getPrimaryClient in Hp. destruct (clients m !! primaryID m) as [kv|] eqn:Hk; [|done]. injection Hp as _ <-. by eapply list_elem_of_lookup_2. }
  unfold updatePrimaryStoreGauge. rewrite Hp. simpl. eexists. split; [done|]. clear Hp.
  assert (∀ kv, kv ∈ clients m → bool_decide (pkv = kv) = bool_decide (name kv = name pkv)) as Hsame.
  { intros kv Hkv. apply bool_decide_ext. split; [by intros ->|]. intros He. apply list_elem_of_lookup in Hin as [a Ha], Hkv as [b Hb].
    assert (a = b) as ->; [|congruence]. eapply (NoDup_lookup _ a b (name pkv) Hnd); rewrite list_lookup_fmap, ?Ha, ?Hb; simpl; congruence. }
  clear Hin. revert g. induction (clients m) as [|c cs IH]; intros g kv Hkv; [by apply elem_of_nil in Hkv|].
  rewrite fmap_cons in Hnd. apply NoDup_cons in Hnd as [Hn Hnd]. simpl. apply elem_of_cons in Hkv as [->|Hkv].
  - rewrite <- Hsame by (by left). assert (∀ g, foldl (λ g kv, <[name kv := if bool_decide (pkv = kv) then 1 else 0]> g) g cs !! name c = g !! name c) as ->.
    { clear IH Hsame Hnd. induction cs as [|c' cs IH]; intros g0; [done|]. simpl. rewrite fmap_cons, not_elem_of_cons in Hn.
      rewrite IH by tauto. by rewrite lookup_insert_ne by naive_solver. }
    by rewrite lookup_insert_eq.
  - apply IH; [done| |done]. intros kv' Hkv'. apply Hsame. by right.
Qed.
End metrics.

(** ** Witness: a registry that is the list of what it holds *)
#[local] Instance consistent_dec d d' : Decision (consistent d d').
Proof. unfold consistent. apply _. Defined.
Definition ex_Prometheus : Prometheus := {|
  BuildFQName ns sub name := Join "_"%char (filter (λ s, s ≠ "") [ns; sub; name]);
  registry := list metric_desc; registered := id; valid_desc _ := True;
  MustRegister g d := if decide (Forall (consistent d) g) then Some (d :: g) else None |}.
#[local] Existing Instance ex_Prometheus.
#[local] Instance ex_PrometheusLaws : PrometheusLaws ex_Prometheus.
Proof.
  constructor; simpl.
  - done.
  - intros g d _ Hg. rewrite decide_True by done. eauto.
  - intros g d g'. case_decide; [|done]. by intros [= <-].
Qed.
Definition ex_registry : @registry ex_Prometheus := @nil metric_desc.
Definition ex_multi_client : client :=
  Metered "multi" Primary (Prefixed (MultiClient "consul" (Metered "consul" Primary ConsulClient) "etcd" (Metered "etcd" Secondary EtcdClient)) "collectors/").
Definition ex_parts : list part :=
  [RingPart "ingester" ex_multi_client; LifecyclerPart "ingester" (Metered "consul" Primary ConsulClient); BasicPart "compactor";
   RingPart "compactor" (Metered "memberlist" Primary (MemberlistClient "ringDesc"))].
Lemma metrics_register_witness :
  Forall part_ok ex_parts ∧ NoDup (part_key <$> ex_parts) ∧ is_Some (promauto_all (ex_parts ≫= part_metrics) ex_registry) ∧
  promauto_all ((ex_parts ≫= part_metrics) ++ part_metrics (BasicPart "compactor")) ex_registry = None.
Proof.
  assert (Forall part_ok ex_parts) as Hok.
  { repeat constructor; cbn.
    - apply (built_multi "consul" ConsulClient "etcd" EtcdClient "collectors/"); [done|by left|right; by left].
    - apply (built_single "consul" ConsulClient ""). by left.
    - apply (built_single "memberlist" (MemberlistClient "ringDesc") ""). right; right; right; left. eauto. }
  assert (NoDup (part_key <$> ex_parts)) as Hnd by (apply (bool_decide_unpack _); vm_compute; exact I).
  destruct (metrics_register ex_parts ex_registry eq_refl Hok (proj2 (Forall_forall _ _) (λ _ _, I))) as [H1 H2].
  split; [exact Hok|]. split; [exact Hnd|]. split.
  - destruct (H1 Hnd) as (g' & Hg' & _). exists g'. exact Hg'.
  - apply (H2 (BasicPart "compactor")); [|reflexivity]. vm_compute. right. right. left.
Defined.
