(* ===== verification/Closing.v ===== *)
(** * Closing what runs in the background

    The listeners of the transport of the gossip and [Shutdown]
    ([kv/memberlist/tcp_transport.go]), the loop of the in-memory Consul that
    wakes up waiting requests ([kv/consul/mock.go]), and the end of a watch of the
    in-memory etcd ([kv/etcd/mock.go]): what ends, and what is left waiting. *)
From Stdlib Require Import ZArith Lia.
From stdpp Require Import base gmap strings list fin_maps.
From S2P Require Import Prelude TokensFile KV CASLoop TCPTransport Consul Etcd.

(** ** [Shutdown] of the transport *)
Module Transport.
(** the goroutine of a listener, [tcpListen]: blocked in [Accept], or asleep after
    an error; in a transport that fails to start it is never started *)
Inductive accept_state := NotStarted | Accepting | Sleeping | Ended.
#[export] Instance accept_state_eq_dec : EqDecision accept_state.
Proof. solve_decision. Defined.
Record listen_thread := mkThread { ln_open : bool; lt_loop : accept_state; loopDelay : Z }.
(** where [Shutdown] is: not called, about to close a listener, in [wg.Wait] *)
Inductive shutdown_pc := NotCalled | Closing (i : nat) | Joining | Returned.
Record transport_sys := mkSys { tcpListeners : list listen_thread; shutdown : bool; pc : shutdown_pc; handlers : nat }.

(** the listeners are all open when the first goroutine starts *)
Definition transport_start (n : nat) : transport_sys := mkSys (replicate n (mkThread true Accepting 0)) false NotCalled 0.
(** the listeners that were open when one failed *)
Definition transport_failed (n : nat) : transport_sys := mkSys (replicate n (mkThread true NotStarted 0)) false NotCalled 0.

Inductive sys_event := Accepts (i : nat) | AcceptFails (i : nat) | WakesUp (i : nat) | ShutdownStep.
Definition set_thread (i : nat) (t : listen_thread) (s : transport_sys) : transport_sys :=
  mkSys (<[i := t]> (tcpListeners s)) (shutdown s) (pc s) (handlers s).
(** one more turn of [tcpListen], [accepted] or not *)
Definition turn (accepted : bool) (i : nat) (t : listen_thread) (s : transport_sys) : transport_sys :=
  match tcpListen_step accepted (shutdown s) (loopDelay t) with
  | None => set_thread i (mkThread (ln_open t) Ended (loopDelay t)) s
  | Some (d, handle) =>
      let s := set_thread i (mkThread (ln_open t) (if accepted then Accepting else Sleeping) d) s in
      mkSys (tcpListeners s) (shutdown s) (pc s) (if handle : bool then S (handlers s) else handlers s)
  end.
Definition waited_for (t : listen_thread) : bool := match lt_loop t with Accepting | Sleeping => true | _ => false end.
Definition Shutdown_step (s : transport_sys) : option transport_sys :=
  match pc s with
  | NotCalled => Some (mkSys (tcpListeners s) true (Closing 0) (handlers s))
  | Closing i =>
      match tcpListeners s !! i with
      | Some t => Some (mkSys (<[i := mkThread false (lt_loop t) (loopDelay t)]> (tcpListeners s)) (shutdown s) (Closing (S i)) (handlers s))
      | None => Some (mkSys (tcpListeners s) (shutdown s) Joining (handlers s))
      end
  | Joining => if existsb waited_for (tcpListeners s) then None else Some (mkSys (tcpListeners s) (shutdown s) Returned (handlers s))
  | Returned => None
  end.
(** [Accept] of a listener that is closed only fails *)
Definition sys_step (ev : sys_event) (s : transport_sys) : option transport_sys :=
  match ev with
  | Accepts i => t ← tcpListeners s !! i; if ln_open t && bool_decide (lt_loop t = Accepting) then Some (turn true i t s) else None
  | AcceptFails i => t ← tcpListeners s !! i; if bool_decide (lt_loop t = Accepting) then Some (turn false i t s) else None
  | WakesUp i =>
      t ← tcpListeners s !! i;
      if bool_decide (lt_loop t = Sleeping) then Some (set_thread i (mkThread (ln_open t) Accepting (loopDelay t)) s) else None
  | ShutdownStep => Shutdown_step s
  end.
Fixpoint sys_run (evs : list sys_event) (s : transport_sys) : option transport_sys :=
  match evs with [] => Some s | ev :: evs => s ← sys_step ev s; sys_run evs s end.

(** the listeners [Shutdown] has passed are closed *)
Definition passed (s : transport_sys) : nat :=
  match pc s with NotCalled => 0 | Closing i => i | _ => length (tcpListeners s) end.
Record sys_inv (s : transport_sys) : Prop := {
  si_flag : pc s ≠ NotCalled → shutdown s = true;
  si_closed : ∀ i t, tcpListeners s !! i = Some t → (i < passed s)%nat → ln_open t = false;
  si_returned : pc s = Returned → existsb waited_for (tcpListeners s) = false
}.
(** the steps the goroutines and [Shutdown] have left once all listeners are closed *)
Definition turns_left (t : listen_thread) : nat := match lt_loop t with Sleeping => 2 | Accepting => 1 | _ => 0 end.
Definition steps_left (s : transport_sys) : nat :=
  sum_list (turns_left <$> tcpListeners s) + match pc s with Returned => 0 | _ => 1 end.

#[local] Arguments turns_left : simpl never.
Lemma sum_list_insert (l : list listen_thread) i t t' : l !! i = Some t →
  (sum_list (turns_left <$> <[i := t']> l) + turns_left t = sum_list (turns_left <$> l) + turns_left t')%nat.
Proof.
  revert i. induction l as [|x l IH]; intros [|i]; simpl; [done..| |].
  - intros [= ->]. lia.
  - intros H%IH. unfold fmap in H. lia.
Qed.
Lemma passed_length s i t : passed (set_thread i t s) = passed s.
Proof. unfold passed. simpl. by rewrite length_insert. Qed.

Lemma set_thread_inv s i t t' : sys_inv s → tcpListeners s !! i = Some t → ln_open t' = ln_open t → pc s ≠ Returned →
  sys_inv (set_thread i t' s).
Proof.
  intros [H1 H2 H3] Hi Ho Hr. constructor; simpl; [done| |done]. intros j u Hj Hp. rewrite passed_length in Hp.
  apply list_lookup_insert_Some in Hj as [(<- & <- & _)|[_ Hj]]; [rewrite Ho|]; by eapply H2.
Qed.

Lemma existsb_waited l i t : l !! i = Some t → waited_for t = true → existsb waited_for l = true.
Proof. intros Hi Hw. apply existsb_exists. exists t. split; [|done]. apply list_elem_of_In. by eapply list_elem_of_lookup_2. Qed.

(** a turn from a state in which the goroutine is waited for *)
Lemma waited_not_returned s i t : sys_inv s → tcpListeners s !! i = Some t → waited_for t = true → pc s ≠ Returned.
Proof.
  intros [_ _ H3] Hi Hw Hr. specialize (H3 Hr). pose proof (existsb_waited _ _ _ Hi Hw). congruence.
Qed.
Lemma turn_cases accepted i t s : (∃ t', turn accepted i t s = set_thread i t' s ∧ ln_open t' = ln_open t) ∨
  (∃ t' h, turn accepted i t s = mkSys (<[i := t']> (tcpListeners s)) (shutdown s) (pc s) h ∧ ln_open t' = ln_open t).
Proof. unfold turn. destruct (tcpListen_step _ _ _) as [[d h]|]; [right|left]; eauto. Qed.
Lemma turn_inv accepted i t s : sys_inv s → tcpListeners s !! i = Some t → lt_loop t = Accepting → sys_inv (turn accepted i t s).
Proof.
  intros Hs Hi Ha. assert (waited_for t = true) as Hw by (unfold waited_for; by rewrite Ha).
  pose proof (waited_not_returned _ _ _ Hs Hi Hw) as Hr.
  destruct (turn_cases accepted i t s) as [(t' & -> & Ho)|(t' & h & -> & Ho)]; pose proof (set_thread_inv s i t t' Hs Hi Ho Hr) as H; [done|].
  by destruct H; constructor.
Qed.

Lemma sys_step_inv ev s s' : sys_inv s → sys_step ev s = Some s' → sys_inv s'.
Proof.
  intros Hs. destruct ev as [i|i|i|]; simpl.
  - destruct (tcpListeners s !! i) as [t|] eqn:Hi; [|done]. simpl. destruct (ln_open t); [|done]. simpl.
    case_bool_decide; [|done]. intros [= <-]. by apply turn_inv.
  - destruct (tcpListeners s !! i) as [t|] eqn:Hi; [|done]. simpl. case_bool_decide; [|done]. intros [= <-]. by apply turn_inv.
  - destruct (tcpListeners s !! i) as [t|] eqn:Hi; [|done]. simpl. case_bool_decide as Hsl; [|done]. intros [= <-].
    apply set_thread_inv with t; [done..|]. eapply waited_not_returned; [done..|]. unfold waited_for. by rewrite Hsl.
  - destruct Hs as [H1 H2 H3]. unfold Shutdown_step, passed in *. destruct (pc s) as [|k| |] eqn:Hpc; [..|done].
    + intros [= <-]. constructor; unfold passed; simpl; [done|by intros; lia|done].
    + destruct (tcpListeners s !! k) as [t|] eqn:Hk; intros [= <-]; constructor; simpl; try done; try (intros; by apply H1).
      * intros i u Hu Hp. unfold passed in Hp. simpl in Hp.
        apply list_lookup_insert_Some in Hu as [(<- & <- & _)|[? Hu]]; [done|]. apply (H2 i u Hu). lia.
      * intros i u Hu _. apply (H2 i u Hu). apply lookup_ge_None in Hk. apply lookup_lt_Some in Hu. lia.
    + destruct (existsb _ _) eqn:He; [done|]. intros [= <-]. constructor; simpl; [|unfold passed; simpl|]; auto.
Qed.
Lemma sys_run_inv evs s s' : sys_inv s → sys_run evs s = Some s' → sys_inv s'.
Proof.
  revert s. induction evs as [|ev evs IH]; intros s Hs; simpl; [by intros [= <-]|].
  destruct (sys_step ev s) eqn:Hst; [|done]. simpl. apply IH. by eapply sys_step_inv.
Qed.
Lemma start_inv n st : sys_inv (mkSys (replicate n (mkThread true st 0)) false NotCalled 0).
Proof. constructor; simpl; [done| |done]. intros i t _ H. unfold passed in H. simpl in H. lia. Qed.

(** once all listeners are closed every step is one fewer *)
Lemma joining_decreases ev s s' : sys_inv s → pc s = Joining → sys_step ev s = Some s' →
  (steps_left s' < steps_left s)%nat ∧ (pc s' = Joining ∨ pc s' = Returned).
Proof.
  intros [H1 H2 _] Hpc. assert (shutdown s = true) as Hf by (apply H1; by rewrite Hpc). unfold steps_left.
  destruct ev as [i|i|i|]; simpl.
  - destruct (tcpListeners s !! i) as [t|] eqn:Hi; [|done]. simpl.
    rewrite (H2 i t Hi); [done|]. unfold passed. rewrite Hpc. by eapply lookup_lt_Some.
  - destruct (tcpListeners s !! i) as [t|] eqn:Hi; [|done]. simpl. case_bool_decide as Ha; [|done]. intros [= <-].
    unfold turn. rewrite Hf. simpl. rewrite Hpc.
    pose proof (sum_list_insert _ _ _ (mkThread (ln_open t) Ended (loopDelay t)) Hi) as Hsum.
    unfold turns_left in Hsum at 2 4. rewrite Ha in Hsum. simpl in Hsum. split; [lia|by left].
  - destruct (tcpListeners s !! i) as [t|] eqn:Hi; [|done]. simpl. case_bool_decide as Ha; [|done]. intros [= <-]. simpl. rewrite Hpc.
    pose proof (sum_list_insert _ _ _ (mkThread (ln_open t) Accepting (loopDelay t)) Hi) as Hsum.
    unfold turns_left in Hsum at 2 4. rewrite Ha in Hsum. simpl in Hsum. split; [lia|by left].
  - unfold Shutdown_step. rewrite Hpc. destruct (existsb _ _); [done|]. intros [= <-]. simpl. split; [lia|by right].
Qed.
Lemma joining_progress s : pc s = Joining → ∃ ev s', sys_step ev s = Some s'.
Proof.
  intros Hpc. destruct (existsb waited_for (tcpListeners s)) eqn:He.
  - apply existsb_exists in He as (t & Hin%list_elem_of_In & Hw). apply list_elem_of_lookup in Hin as [i Hi].
    unfold waited_for in Hw. destruct (lt_loop t) eqn:Hl; [done| | |done].
    + exists (AcceptFails i). simpl. rewrite Hi. simpl. rewrite Hl. rewrite bool_decide_eq_true_2 by done. eauto.
    + exists (WakesUp i). simpl. rewrite Hi. simpl. rewrite Hl. rewrite bool_decide_eq_true_2 by done. eauto.
  - exists ShutdownStep. simpl. unfold Shutdown_step. rewrite Hpc, He. eauto.
Qed.

(** [Shutdown] closes the listeners without waiting, whatever is accepted
    meanwhile; from then on no connection is accepted, every step of a goroutine is
    one of the at most two it has left, and one is possible until [Shutdown]
    returns, when no goroutine of a listener is left. *)
Theorem transport_shutdown (n : nat) (started : bool) (evs : list sys_event) (s : transport_sys) :
  sys_run evs (if started then transport_start n else transport_failed n) = Some s →
  (∀ i, pc s = Closing i → ∃ s', sys_step ShutdownStep s = Some s' ∧ (pc s' = Closing (S i) ∨ pc s' = Joining)) ∧
  (pc s = Joining → (∃ ev s', sys_step ev s = Some s') ∧
     ∀ ev s', sys_step ev s = Some s' → (steps_left s' < steps_left s)%nat ∧ handlers s' = handlers s ∧ (pc s' = Joining ∨ pc s' = Returned)) ∧
  (pc s = Returned → Forall (λ t, ln_open t = false ∧ waited_for t = false) (tcpListeners s)).
Proof.
  intros Hrun. assert (sys_inv s) as Hs.
  { eapply sys_run_inv, Hrun. destruct started; apply start_inv. }
  split_and!.
  - intros i Hpc. simpl. unfold Shutdown_step. rewrite Hpc. destruct (_ !! i); eexists; (split; [done|]); simpl; auto.
  - intros Hpc. split; [by apply joining_progress|]. intros ev s' Hst.
    destruct (joining_decreases ev s s' Hs Hpc Hst) as [Hlt Hpc']. split_and!; [done| |done].
    destruct Hs as [H1 H2 _]. assert (shutdown s = true) as Hf by (apply H1; by rewrite Hpc). destruct ev as [i|i|i|]; simpl in Hst.
    + destruct (tcpListeners s !! i) as [t|] eqn:Hi; [|done]. simpl in Hst.
      rewrite (H2 i t Hi) in Hst; [done|]. unfold passed. rewrite Hpc. by eapply lookup_lt_Some.
    + destruct (tcpListeners s !! i) as [t|]; [|done]. simpl in Hst. case_bool_decide; [|done]. injection Hst as <-.
      unfold turn. by rewrite Hf.
    + destruct (tcpListeners s !! i) as [t|]; [|done]. simpl in Hst. case_bool_decide; [|done]. by injection Hst as <-.
    + unfold Shutdown_step in Hst. rewrite Hpc in Hst. destruct (existsb _ _); [done|]. by injection Hst as <-.
  - intros Hpc. destruct Hs as [_ H2 H3]. specialize (H3 Hpc). apply Forall_lookup. intros i t Hi. split.
    + apply (H2 i t Hi). unfold passed. rewrite Hpc. by eapply lookup_lt_Some.
    + destruct (waited_for t) eqn:Hw; [|done]. pose proof (existsb_waited _ _ _ Hi Hw). congruence.
Qed.

(** a connection is accepted, [Shutdown] closes one of two listeners, whose
    goroutine ends before the other listener is closed *)
Definition ex_transport_events : list sys_event :=
  [Accepts 1; AcceptFails 0; ShutdownStep; ShutdownStep; WakesUp 0; AcceptFails 0; Accepts 1; ShutdownStep; ShutdownStep; AcceptFails 1; ShutdownStep].
Lemma transport_shutdown_witness : ∃ s, sys_run ex_transport_events (transport_start 2) = Some s ∧ handlers s = 2%nat ∧ pc s = Returned ∧
  Forall (λ t, ln_open t = false ∧ waited_for t = false) (tcpListeners s).
Proof.
  eexists. split; [vm_compute; reflexivity|]. split; [reflexivity|]. split; [reflexivity|].
  apply (transport_shutdown 2 true ex_transport_events); vm_compute; reflexivity.
Defined.
End Transport.

(** ** Requests that wait in the in-memory Consul *)
Module ConsulMock.
(** a [Get] blocked in [cond.Wait]; [wt_signalled] when it has been woken up and
    waits for the lock *)
Record waiter := mkWaiter { wt_key : string; wt_index : Z; wt_start : Z; wt_deadline : Z; wt_signalled : bool }.
(** [looping] while the goroutine of [loop] runs; [answers] what the requests have
    returned *)
Record mock_sys := mkMock {
  store : mockKV; now : Z; closed : bool; looping : bool;
  waiters : gmap nat waiter; answers : gmap nat get_outcome
}.
(** [NewInMemoryClientWithConfig] *)
Definition NewInMemoryClient (now : Z) : mock_sys := mkMock newMockKV now false true ∅ ∅.

Definition signal (w : waiter) : waiter := mkWaiter (wt_key w) (wt_index w) (wt_start w) (wt_deadline w) true.
Definition Broadcast (s : mock_sys) : mock_sys :=
  mkMock (store s) (now s) (closed s) (looping s) (signal <$> waiters s) (answers s).
(** whether an operation broadcasts: a [CAS] that fails and [Delete] do not *)
Definition broadcasts (op : mock_op) (m : mockKV) : bool :=
  match op with
  | OpCAS key value ix => (mock_CAS key value ix m).1
  | Consul.OpDelete _ => false
  | _ => true
  end.
(** the deadline of a request, which its context may bring forward *)
Definition get_deadline (now WaitTime : Z) (ctxDeadline : option Z) : Z :=
  let deadline := now + mockedMaxWaitTime WaitTime in
  match ctxDeadline with Some d => if bool_decide (d < deadline) then d else deadline | None => deadline end.
(** the condition of the loop of [Get], and what follows it *)
Definition get_turn (i : nat) (w : waiter) (s : mock_sys) : mock_sys :=
  let o := mock_Get_wake (wt_key w) (wt_index w) (wt_start w) (bool_decide (now s < wt_deadline w)) (bool_decide (wt_deadline w < now s)) (store s) in
  match o with
  | GetWaits _ =>
      mkMock (store s) (now s) (closed s) (looping s)
        (<[i := mkWaiter (wt_key w) (wt_index w) (wt_start w) (wt_deadline w) false]> (waiters s)) (answers s)
  | GotPair _ _ => mkMock (store s) (now s) (closed s) (looping s) (delete i (waiters s)) (<[i := o]> (answers s))
  end.

Inductive mock_event :=
| Clock (t : Z)                       (* time passes *)
| Tick                                (* [time.After] of the loop *)
| Close                               (* the closer is called *)
| LoopEnds
| Client (op : mock_op)
| StartGet (i : nat) (key : string) (WaitIndex WaitTime : Z) (ctxDeadline : option Z)
| Resume (i : nat).
Definition mock_step (ev : mock_event) (s : mock_sys) : option mock_sys :=
  match ev with
  | Clock t => if bool_decide (now s ≤ t) then Some (mkMock (store s) t (closed s) (looping s) (waiters s) (answers s)) else None
  | Tick => if looping s then Some (Broadcast s) else None
  | Close =>
      (* closing a closed channel panics *)
      if closed s then None else Some (mkMock (store s) (now s) true (looping s) (waiters s) (answers s))
  | LoopEnds => if closed s && looping s then Some (mkMock (store s) (now s) (closed s) false (waiters s) (answers s)) else None
  | Client op =>
      let b := broadcasts op (store s) in
      let s := mkMock (do_op (store s) op) (now s) (closed s) (looping s) (waiters s) (answers s) in
      Some (if b then Broadcast s else s)
  | StartGet i key WaitIndex WaitTime ctxDeadline =>
      match waiters s !! i with
      | Some _ => None
      | None =>
          match mock_Get key WaitIndex WaitTime (store s) with
          | GetWaits startModify => Some (get_turn i (mkWaiter key WaitIndex startModify (get_deadline (now s) WaitTime ctxDeadline) false) s)
          | o => Some (mkMock (store s) (now s) (closed s) (looping s) (waiters s) (<[i := o]> (answers s)))
          end
      end
  | Resume i =>
      w ← waiters s !! i;
      if wt_signalled w then Some (get_turn i w s) else None
  end.
Fixpoint mock_run (evs : list mock_event) (s : mock_sys) : option mock_sys :=
  match evs with [] => Some s | ev :: evs => s ← mock_step ev s; mock_run evs s end.
(** the closer returns when [closeWG] has been waited for *)
Definition Close_returns (s : mock_sys) : bool := closed s && negb (looping s).

(** nobody sleeps on a value that has changed *)
Definition asleep_ok (s : mock_sys) : Prop := ∀ i w p,
  waiters s !! i = Some w → wt_signalled w = false → kvps (store s) !! wt_key w = Some p → ModifyIndex p = wt_start w.
Lemma Broadcast_ok s : asleep_ok (Broadcast s).
Proof.
  intros i w p. simpl. rewrite lookup_fmap. destruct (waiters s !! i); simpl; [intros [= <-]; done|done].
Qed.
(** what an operation that does not broadcast leaves was there *)
Lemma quiet_op op m k p : broadcasts op m = false → kvps (do_op m op) !! k = Some p → kvps m !! k = Some p.
Proof.
  destruct op as [| |key| |]; simpl; [done| | |done..].
  - unfold mock_CAS. destruct (kvps m !! key); [case_bool_decide|]; simpl; done.
  - intros _ [_ H]%lookup_delete_Some. done.
Qed.
Lemma get_turn_ok i w s : asleep_ok s → asleep_ok (get_turn i w s).
Proof.
  intros Hs. unfold get_turn, mock_Get_wake. destruct (_ && _) eqn:Hc.
  - apply andb_true_iff in Hc as [Hc%bool_decide_eq_true _]. intros j u p. simpl. intros Hu Hsig Hp.
    apply lookup_insert_Some in Hu as [[<- <-]|[_ Hu]]; [|by eapply Hs]. simpl in *. by rewrite Hp in Hc.
  - assert (∀ o, asleep_ok (mkMock (store s) (now s) (closed s) (looping s) (delete i (waiters s)) (<[i := o]> (answers s)))) as Hd.
    { intros o j u p. simpl. intros [_ Hu]%lookup_delete_Some. by apply Hs with j. }
    destruct (bool_decide (wt_deadline w < now s)); [apply Hd|]. unfold mock_Get_finish. destruct (kvps (store s) !! wt_key w); apply Hd.
Qed.
Lemma mock_step_ok ev s s' : asleep_ok s → mock_step ev s = Some s' → asleep_ok s'.
Proof.
  intros Hs. destruct ev as [t| | | |op|i key wi wt d|i]; simpl.
  - case_bool_decide; [|done]. by intros [= <-].
  - destruct (looping s); [|done]. intros [= <-]. apply Broadcast_ok.
  - destruct (closed s); [done|]. by intros [= <-].
  - destruct (_ && _); [|done]. by intros [= <-].
  - destruct (broadcasts op (store s)) eqn:Hb; intros [= <-]; [apply Broadcast_ok|].
    intros i w p Hw Hsig Hp. eapply Hs; [done..|]. by eapply quiet_op.
  - destruct (waiters s !! i); [done|]. destruct (mock_Get _ _ _ _); intros [= <-]; [done|by apply get_turn_ok].
  - destruct (waiters s !! i) as [w|]; [|done]. simpl. destruct (wt_signalled w); [|done]. intros [= <-]. by apply get_turn_ok.
Qed.
Lemma mock_run_ok evs s s' : asleep_ok s → mock_run evs s = Some s' → asleep_ok s'.
Proof.
  revert s. induction evs as [|ev evs IH]; intros s Hs; simpl; [by intros [= <-]|].
  destruct (mock_step ev s) eqn:Hst; [|done]. simpl. apply IH. by eapply mock_step_ok.
Qed.

(** a request whose deadline has passed, or whose value has changed, is answered
    when it resumes *)
Lemma get_turn_answers i w s :
  wt_deadline w ≤ now s ∨ (∃ p, kvps (store s) !! wt_key w = Some p ∧ ModifyIndex p ≠ wt_start w) →
  ∃ value last, waiters (get_turn i w s) !! i = None ∧ answers (get_turn i w s) !! i = Some (GotPair value last).
Proof.
  intros H. unfold get_turn, mock_Get_wake. assert (bool_decide (wt_start w =
    match kvps (store s) !! wt_key w with Some value => ModifyIndex value | None => wt_start w end) && bool_decide (now s < wt_deadline w) = false) as ->.
  { apply andb_false_iff. destruct H as [H|(p & -> & Hp)]; [right|left]; apply bool_decide_eq_false; [lia|congruence]. }
  unfold mock_Get_finish. destruct (bool_decide (wt_deadline w < now s)); [|destruct (kvps (store s) !! wt_key w)];
    eexists _, _; simpl; by rewrite lookup_delete_eq, lookup_insert_eq.
Qed.

(** Whatever clients do, a request never sleeps through a change: while it waits
    without having been woken up, the value it waits for is the one it has seen.
    While the loop runs, a request whose deadline has passed is answered after the
    next tick; a request whose value has changed is answered without one; and
    closing the store ends the loop, and the closer returns. *)
Theorem mock_requests (evs : list mock_event) (t : Z) (s : mock_sys) :
  mock_run evs (NewInMemoryClient t) = Some s →
  asleep_ok s ∧
  (∀ i w, waiters s !! i = Some w → looping s = true → wt_deadline w ≤ now s →
     ∃ s' value last, mock_run [Tick; Resume i] s = Some s' ∧ waiters s' !! i = None ∧ answers s' !! i = Some (GotPair value last)) ∧
  (∀ i w p, waiters s !! i = Some w → kvps (store s) !! wt_key w = Some p → ModifyIndex p ≠ wt_start w →
     ∃ s' value last, mock_run [Resume i] s = Some s' ∧ waiters s' !! i = None ∧ answers s' !! i = Some (GotPair value last)) ∧
  (closed s = true → Close_returns s = false → ∃ s', mock_run [LoopEnds] s = Some s' ∧ Close_returns s' = true).
Proof.
  intros Hrun. assert (asleep_ok s) as Hs by (eapply mock_run_ok, Hrun; intros i w p; simpl; rewrite lookup_empty; done).
  split; [done|]. split_and!.
  - intros i w Hw Hl Hd. simpl. rewrite Hl. simpl. rewrite lookup_fmap, Hw. simpl.
    destruct (get_turn_answers i (signal w) (Broadcast s) ltac:(by left)) as (v & l & H1 & H2). eauto 10.
  - intros i w p Hw Hp Hne. simpl. rewrite Hw. simpl. destruct (wt_signalled w) eqn:Hsig.
    + destruct (get_turn_answers i w s ltac:(right; eauto)) as (v & l & H1 & H2). eauto 10.
    + destruct Hne. by eapply Hs.
  - unfold Close_returns. intros Hc Hl. simpl. rewrite Hc in *. simpl in *. apply negb_false_iff in Hl. rewrite Hl. simpl. eauto.
Qed.

(** A request that sleeps when the loop has ended sleeps for ever, unless somebody
    writes: its deadline is never looked at again. *)
Definition is_client (ev : mock_event) : bool := match ev with Client _ => true | _ => false end.
Lemma sleeps_after_close evs s s' i w :
  looping s = false → waiters s !! i = Some w → wt_signalled w = false → forallb (λ ev, negb (is_client ev)) evs = true →
  mock_run evs s = Some s' → waiters s' !! i = Some w.
Proof.
  revert s. induction evs as [|ev evs IH]; intros s Hl Hw Hsig Hev; simpl; [by intros [= <-]|].
  simpl in Hev. apply andb_true_iff in Hev as [Hev1 Hev]. destruct (mock_step ev s) as [s1|] eqn:Hst; [|done]. simpl.
  assert (∀ j u, j ≠ i → waiters (get_turn j u s) !! i = Some w ∧ looping (get_turn j u s) = false) as Hturn.
  { intros j u Hj. unfold get_turn. destruct (mock_Get_wake _ _ _ _ _ _); simpl; [by rewrite lookup_delete_ne|by rewrite lookup_insert_ne]. }
  assert (waiters s1 !! i = Some w ∧ looping s1 = false) as [Hw1 Hl1]; [|by apply IH].
  destruct ev as [t| | | |op|j key wi wt d|j]; simpl in Hst; [..|done| |].
  - case_bool_decide; [|done]. by injection Hst as <-.
  - by rewrite Hl in Hst.
  - destruct (closed s); [done|]. by injection Hst as <-.
  - rewrite Hl, andb_false_r in Hst. done.
  - destruct (waiters s !! j) eqn:Hj; [done|]. destruct (mock_Get _ _ _ _); injection Hst as <-; [done|]. apply Hturn. congruence.
  - destruct (waiters s !! j) as [u|] eqn:Hj; [|done]. simpl in Hst. destruct (wt_signalled u) eqn:Hu; [|done]. injection Hst as <-.
    apply Hturn. intros ->. congruence.
Qed.
(** a watch of a key that is not there, when the store is closed; an hour later it
    still waits *)
Definition ex_mock_events : list mock_event :=
  [StartGet 0 "k" 1 longPollDuration None; Clock (Second / 2); Close; LoopEnds; Clock (3600 * Second)].
Lemma closed_mock_leaves_waiting : ∃ s w, mock_run ex_mock_events (NewInMemoryClient 0) = Some s ∧ Close_returns s = true ∧
  waiters s !! 0%nat = Some w ∧ wt_deadline w = Second ∧
  ∀ evs s', forallb (λ ev, negb (is_client ev)) evs = true → mock_run evs s = Some s' → waiters s' !! 0%nat = Some w.
Proof.
  eexists _, _. split; [vm_compute; reflexivity|]. split; [reflexivity|]. split; [vm_compute; reflexivity|]. split; [reflexivity|].
  intros evs s' He. by apply sleeps_after_close.
Qed.
Definition ex_waiting : list mock_event := [StartGet 0 "k" 1 longPollDuration None; Clock Second].
Lemma mock_requests_witness : ∃ s, mock_run ex_waiting (NewInMemoryClient 0) = Some s ∧
  ∃ s' value last, mock_run [Tick; Resume 0] s = Some s' ∧ waiters s' !! 0%nat = None ∧ answers s' !! 0%nat = Some (GotPair value last).
Proof.
  eexists. split; [vm_compute; reflexivity|].
  refine (proj1 (proj2 (mock_requests ex_waiting 0 _ _)) 0%nat (mkWaiter "k" 1 1 Second false) _ _ _); try (vm_compute; reflexivity). simpl. done.
Defined.
End ConsulMock.

(** ** Watches of the in-memory etcd *)
Module EtcdMock.
Section mock.
Context `{R : MapRange}.
Implicit Types m : etcd_mock.

(** the methods of the interface, each an operation under the lock *)
Definition etcd_mock_Do (op : Op) (m : etcd_mock) : OpResponse * etcd_mock := doInternal op m.
Definition etcd_mock_Get (key : string) (range_ : bool) (m : etcd_mock) : OpResponse * etcd_mock := etcd_mock_Do (OpGet key range_) m.
Definition etcd_mock_Delete (key : string) (range_ : bool) (m : etcd_mock) : OpResponse * etcd_mock := etcd_mock_Do (OpDelete key range_) m.
Definition etcd_mock_Put (key : string) (val : bytes) (m : etcd_mock) : OpResponse * etcd_mock := etcd_mock_Do (OpPut key val) m.

(** The store with its watches: [closing] once [Close] has been called, the watches
    that run, and what is left in the channel of one whose goroutine has ended. *)
Record watch_sys := mkWatchSys { mock : etcd_mock; closing : bool; running : list watcher; ended : list (list watch_response) }.
(** the deferred function: the consumer goes, a response that says the watch is
    cancelled follows if there is room, and the channel is closed *)
Definition watch_end (w : watcher) (m : etcd_mock) : list watch_response * etcd_mock :=
  (map RespEvents (watch_chan w) ++ (if bool_decide (length (watch_chan w) < channelBufferSize)%nat then [RespErr] else []),
   destroyEventConsumer (consumer w) m).
Inductive watch_event :=
| Operation (op : Op)
| StartWatch (key : string) (range_ : bool)
| Filter (i : nat)                       (* the goroutine of a watch takes an event *)
| Receive (i : nat)                      (* its caller receives a response *)
| CloseStore
| EndWatch (i : nat) (ctx_done : bool).
Definition etcd_step (ev : watch_event) (s : watch_sys) : option watch_sys :=
  match ev with
  | Operation op => Some (mkWatchSys (etcd_mock_Do op (mock s)).2 (closing s) (running s) (ended s))
  | StartWatch key range_ =>
      let '(w, m) := Watch key range_ (mock s) in Some (mkWatchSys m (closing s) (running s ++ [w]) (ended s))
  | Filter i =>
      w ← running s !! i;
      '(w, m) ← watch_step w (mock s);
      Some (mkWatchSys m (closing s) (<[i := w]> (running s)) (ended s))
  | Receive i =>
      w ← running s !! i;
      match watch_chan w with
      | [] => None
      | _ :: rest => Some (mkWatchSys (mock s) (closing s) (<[i := mkWatcher (consumer w) (watch_key w) (watch_range w) rest]> (running s)) (ended s))
      end
  | CloseStore => if closing s then None else Some (mkWatchSys (mock s) true (running s) (ended s))
  | EndWatch i ctx_done =>
      w ← running s !! i;
      if ctx_done || closing s then
        let '(unread, m) := watch_end w (mock s) in
        Some (mkWatchSys m (closing s) (take i (running s) ++ drop (S i) (running s)) (ended s ++ [unread]))
      else None
  end.
Fixpoint etcd_run (evs : list watch_event) (s : watch_sys) : option watch_sys :=
  match evs with [] => Some s | ev :: evs => s ← etcd_step ev s; etcd_run evs s end.

(** operations leave the consumers and the capacity of their channels alone *)
Definition bounded m : Prop := ∀ ch evs, events m !! ch = Some evs → (length evs ≤ channelBufferSize)%nat.
Definition same_consumers m m' : Prop := dom (events m') = dom (events m) ∧ (bounded m → bounded m').
Lemma same_consumers_refl m : same_consumers m m.
Proof. by split. Qed.
Lemma same_consumers_trans m1 m2 m3 : same_consumers m1 m2 → same_consumers m2 m3 → same_consumers m1 m3.
Proof. intros [H1 H2] [H3 H4]. split; [congruence|auto]. Qed.
Lemma offer_length e l : (length l ≤ channelBufferSize)%nat → (length (offer e l) ≤ channelBufferSize)%nat.
Proof. unfold offer. case_bool_decide; [rewrite length_app; simpl; lia|done]. Qed.
Lemma sendEvent_consumers e m vals : same_consumers m (mkEtcdMock vals (events (sendEvent e m))).
Proof.
  split; simpl; [apply dom_fmap_L|]. intros Hb ch evs. simpl. rewrite lookup_fmap.
  destruct (events m !! ch) eqn:Hch; simpl; [|done]. intros [= <-]. by eapply offer_length, Hb.
Qed.
Lemma doInternal_consumers : ∀ op m, same_consumers m (doInternal op m).2.
Proof.
  fix IH 1. intros [key r|key v|key r|cmps thens elses] m.
  - apply same_consumers_refl.
  - apply (sendEvent_consumers _ (mkEtcdMock _ (events m))).
  - simpl. generalize (matchingKeys key r (values m)) as ks. intros ks. revert m.
    induction ks as [|k ks IHks]; intros m; simpl; [apply same_consumers_refl|].
    eapply same_consumers_trans; [|apply IHks]. apply sendEvent_consumers.
  - simpl. set (run := fix run ops m := match ops with [] => m | o :: ops => run ops (doInternal o m).2 end).
    assert (Hrun : ∀ ops m, (fix all ops := match ops with [] => True | o :: ops => (∀ m, same_consumers m (doInternal o m).2) ∧ all ops end) ops →
      same_consumers m (run ops m)).
    { induction ops as [|o ops IHops]; simpl; intros m' Ho; [apply same_consumers_refl|]. destruct Ho as [Ho Hops].
      eapply same_consumers_trans; [apply Ho|by apply IHops]. }
    destruct (evalCmps cmps m); apply Hrun.
    + clear Hrun. induction thens as [|o ops IHops]; [done|]. split; [intros m'; apply IH|done].
    + clear Hrun. induction elses as [|o ops IHops]; [done|]. split; [intros m'; apply IH|done].
Qed.

(** what a caller can be told: one event of a response, which matches *)
Definition told_ok (w : watcher) : Prop :=
  (length (watch_chan w) ≤ channelBufferSize)%nat ∧
  Forall (λ evs, ∃ e, evs = [e] ∧ isMatch (watch_key w) (watch_range w) (ev_Kv e) = true) (watch_chan w).
(** a channel of events for each watch that runs, and no other; no channel holds
    more than its capacity *)
Record watches_ok (s : watch_sys) : Prop := {
  wo_consumers : NoDup (consumer <$> running s);
  wo_events : dom (events (mock s)) = list_to_set (consumer <$> running s);
  wo_buffers : bounded (mock s);
  wo_told : Forall told_ok (running s);
  wo_ended : Forall (λ rs, (length rs ≤ channelBufferSize)%nat) (ended s)
}.

Lemma consumers_insert (l : list watcher) i w w' : l !! i = Some w → consumer w' = consumer w → consumer <$> <[i := w']> l = consumer <$> l.
Proof. intros Hi Hc. rewrite list_fmap_insert, Hc. apply list_insert_id. by rewrite list_lookup_fmap, Hi. Qed.
Lemma watch_step_told w w' m m' : told_ok w → watch_step w m = Some (w', m') →
  told_ok w' ∧ consumer w' = consumer w ∧ same_consumers m m'.
Proof.
  intros [Hlen Hall]. unfold watch_step. destruct (events m !! consumer w) as [[|e rest]|] eqn:He; [done| |done]. intros [= <- <-].
  assert (same_consumers m (mkEtcdMock (values m) (<[consumer w := rest]> (events m)))) as Hsame.
  { split; simpl; [apply dom_insert_lookup_L; eauto|]. intros Hb ch evs H. simpl in H. apply lookup_insert_Some in H as [[<- <-]|[_ H]]; [|by eapply Hb].
    specialize (Hb _ _ He). simpl in Hb. lia. }
  destruct (_ && _) eqn:Hc; [|done]. apply andb_true_iff in Hc as [Hm Hl%bool_decide_eq_true]. split; [|done]. split; simpl.
  - rewrite length_app. simpl. lia.
  - apply Forall_app. split; [done|]. constructor; [eauto|constructor].
Qed.
Lemma replace_watch s i w w' m : watches_ok s → running s !! i = Some w → consumer w' = consumer w → told_ok w' →
  same_consumers (mock s) m → watches_ok (mkWatchSys m (closing s) (<[i := w']> (running s)) (ended s)).
Proof.
  intros [H1 H2 H3 H4 H5] Hi Hc Ht [Hd Hb]. constructor; simpl; rewrite ?(consumers_insert _ _ w) by done; [done|congruence|auto| |done].
  by apply Forall_insert.
Qed.
Lemma watch_end_length w m : told_ok w → (length (watch_end w m).1 ≤ channelBufferSize)%nat.
Proof.
  intros [Hlen _]. simpl. rewrite length_app, length_map. case_bool_decide; simpl; lia.
Qed.

Lemma etcd_step_ok ev s s' : watches_ok s → etcd_step ev s = Some s' → watches_ok s'.
Proof.
  intros Hs. pose proof Hs as [H1 H2 H3 H4 H5]. destruct ev as [op|key r|i|i| |i d]; simpl.
  - intros [= <-]. destruct (doInternal_consumers op (mock s)) as [Hd Hb]. constructor; simpl; [done|by etrans|auto|done..].
  - intros [= <-]. set (ch := fresh (dom (events (mock s)))). assert (ch ∉ dom (events (mock s))) as Hf by apply is_fresh.
    constructor; simpl; rewrite ?fmap_app; simpl; [| | | |done].
    + rewrite H2, elem_of_list_to_set in Hf. apply NoDup_app. split_and!; [done|set_solver|apply NoDup_singleton].
    + rewrite dom_insert_L, H2, list_to_set_app_L. simpl. set_solver.
    + intros c evs H. simpl in H. apply lookup_insert_Some in H as [[<- <-]|[_ H]]; [simpl; lia|by eapply H3].
    + apply Forall_app. split; [done|]. constructor; [|constructor]. split; simpl; [lia|constructor].
  - destruct (running s !! i) as [w|] eqn:Hi; [|done]. simpl. destruct (watch_step w (mock s)) as [[w' m]|] eqn:Hw; [|done].
    intros [= <-]. apply watch_step_told in Hw as (? & ? & ?); [|by eapply Forall_lookup_1]. by eapply replace_watch.
  - destruct (running s !! i) as [w|] eqn:Hi; [|done]. simpl. destruct (watch_chan w) as [|evs rest] eqn:Hc; [done|].
    intros [= <-]. eapply replace_watch; [done..| |apply same_consumers_refl].
    destruct (Forall_lookup_1 _ _ _ _ H4 Hi) as [Hlen Hall]. rewrite Hc in Hlen, Hall. simpl in Hlen.
    inversion_clear Hall. split; simpl; [lia|done].
  - destruct (closing s); [done|]. by intros [= <-].
  - destruct (running s !! i) as [w|] eqn:Hi; [|done]. simpl. destruct (d || closing s); [|done]. intros [= <-].
    pose proof (Forall_lookup_1 _ _ _ _ H4 Hi) as Ht. pose proof (watch_end_length w (mock s) Ht) as Hend.
    rewrite <- (take_drop_middle _ _ _ Hi) in H1, H2, H4. rewrite fmap_app in H1, H2. simpl in H1, H2.
    apply NoDup_app in H1 as (N1 & N2 & N3). inversion_clear N3 as [|? ? N4 N5].
    apply Forall_app in H4 as [F1 F2]. inversion_clear F2. constructor; simpl; [| | | |by apply Forall_app; split; [|constructor]].
    + rewrite fmap_app. apply NoDup_app. split_and!; [done|set_solver|done].
    + rewrite dom_delete_L, H2, fmap_app. rewrite !list_to_set_app_L. simpl. set_solver.
    + intros ch evs He. simpl in He. apply lookup_delete_Some in He as [_ He]. by eapply H3.
    + apply Forall_app. done.
Qed.
Lemma etcd_run_ok evs s s' : watches_ok s → etcd_run evs s = Some s' → watches_ok s'.
Proof.
  revert s. induction evs as [|ev evs IH]; intros s Hs; simpl; [by intros [= <-]|].
  destruct (etcd_step ev s) eqn:Hst; [|done]. simpl. apply IH. by eapply etcd_step_ok.
Qed.
Definition watch_start : watch_sys := mkWatchSys newEtcdMock false [] [].

(** Whatever is written, deleted, watched and received: a caller is told events
    that match, one at a time; no channel holds more than ten; once the store is
    closed every watch can end, which closes its channel; and when the last has
    ended no channel of events is left. *)
Theorem etcd_watches_end (evs : list watch_event) (s : watch_sys) :
  etcd_run evs watch_start = Some s →
  watches_ok s ∧
  (closing s = true → ∀ i w, running s !! i = Some w →
     ∃ s', etcd_step (EndWatch i false) s = Some s' ∧ length (running s') = pred (length (running s)) ∧
       ended s' = ended s ++ [(watch_end w (mock s)).1]) ∧
  (running s = [] → events (mock s) = ∅).
Proof.
  intros Hrun. assert (watches_ok s) as Hs.
  { eapply etcd_run_ok, Hrun. constructor; simpl; [constructor|by rewrite dom_empty_L|intros ch evs0; simpl; by rewrite lookup_empty|constructor..]. }
  split; [done|]. split.
  - intros Hc i w Hi. simpl. rewrite Hi. simpl. rewrite Hc. eexists. split; [done|]. simpl. split; [|done].
    apply lookup_lt_Some in Hi. rewrite length_app, length_take, length_drop. lia.
  - intros Hr. destruct Hs as [_ H _ _ _]. rewrite Hr in H. simpl in H. by apply dom_empty_iff_L.
Qed.
End mock.

(** a caller is told of one write, and then that the watch is cancelled *)
#[local] Existing Instance map_range_std.
Definition ex_watch_events : list watch_event :=
  [StartWatch "k" false; Operation (OpPut "l" []); Operation (OpPut "k" [Byte.x01]); Filter 0; Filter 0; CloseStore; EndWatch 0 false].
Lemma etcd_watches_end_witness : ∃ s, etcd_run ex_watch_events watch_start = Some s ∧
  ended s = [[RespEvents [mkEvent PUT (mkKeyValue "k" (Some [Byte.x01]) 1 1 1 0)]; RespErr]] ∧ events (mock s) = ∅.
Proof.
  eexists. split; [vm_compute; reflexivity|]. split; [reflexivity|].
  apply (etcd_watches_end ex_watch_events); vm_compute; reflexivity.
Defined.
End EtcdMock.
