(* ===== verification/Detector.v ===== *)
(** * Instances that beat are seen, instances that stop are not

    The entries of [ring/lifecycler.go] and [ring/basic_lifecycler.go] as they travel
    through the gossiped store.  A CAS on the ring of a node returns any ring at all:
    an instance may write its entry, forget others ([AutoForgetDelegate]), remove its
    own ([unregister]) or take tokens over ([ClaimTokensFor]); nodes send any part of
    their ring, messages are merged in any order, and tombstones are forgotten.  What
    [IsHealthy] of [ring/model.go] then says on any node, and what the queries of
    [ring/ring.go] return there. *)
From Stdlib Require Import ZArith Lia.
From stdpp Require Import base gmap strings list sorting fin_maps relations.
From S2P Require Import Prelude Model ModelFacts Merge MergeFacts ResolveFacts MergeLaws Convergence Memberlist RingValue GossipFacts Ring RingFacts QuorumFacts TokensFile KV Lifecycler LifecyclerFacts.

(** ** Steps *)
(** what [CAS] shows to its function: the ring without tombstones *)
Definition visible `{R : MapRange} (d : Desc) : Desc := (RemoveTombstones d zeroTime).1.
(** the entries that are new or changed in the ring [o] a CAS returns, and those it
    lacks, which the merge makes tombstones *)
Definition changes (d o : Desc) : list entry := filter (λ e, Ingesters d !! e.1 ≠ Some e.2) (map_to_list (Ingesters o)).
Definition removals (d o : Desc) (localCAS : bool) : list entry := filter (λ e, removed_by o localCAS e.1 e.2) (map_to_list (Ingesters d)).
Definition tombstones (now : Z) (l : list entry) : list entry := prod_map id (left_instance now) <$> l.
(** the network, and the entries as they were when a CAS has removed them *)
Record beats := mkBeats { net : network; removed : list entry }.
Inductive beat_step (b b' : beats) : Prop :=
| b_cas (R : MapRange) j o localCAS now :
    let n := net b in let d := rings n j in
    b' = mkBeats (mkNetwork (upd j (merged d o localCAS now) (rings n)) (messages n)
                    (issued n ++ changes d o ++ tombstones now (removals d o localCAS))
                    (upd j (heard n j ++ map_to_list (Ingesters o)) (heard n)))
           (removed b ++ removals d o localCAS) →
    beat_step b b'
| b_first j o :
    (* the node has no ring yet: it takes over what the CAS returns *)
    let n := net b in
    Ingesters (rings n j) = ∅ →
    b' = mkBeats (mkNetwork (upd j o (rings n)) (messages n) (issued n ++ map_to_list (Ingesters o))
                    (upd j (heard n j ++ map_to_list (Ingesters o)) (heard n))) (removed b) →
    beat_step b b'
| b_send j m :
    let n := net b in
    m ⊆ Ingesters (rings n j) →
    b' = mkBeats (mkNetwork (rings n) (messages n ++ [mkDesc m]) (issued n) (heard n)) (removed b) → beat_step b b'
| b_deliver (R : MapRange) j d now :
    let n := net b in
    d ∈ messages n →
    b' = mkBeats (mkNetwork (upd j (merged (R := R) (rings n j) d false now) (rings n)) (messages n) (issued n)
                    (upd j (heard n j ++ map_to_list (Ingesters d)) (heard n))) (removed b) →
    beat_step b b'
| b_adopt j d :
    let n := net b in
    Ingesters (rings n j) = ∅ → d ∈ messages n →
    b' = mkBeats (mkNetwork (upd j d (rings n)) (messages n) (issued n)
                    (upd j (heard n j ++ map_to_list (Ingesters d)) (heard n))) (removed b) →
    beat_step b b'
| b_forget (R : MapRange) j limit :
    let n := net b in
    b' = mkBeats (mkNetwork (upd j (RemoveTombstones (rings n j) limit).1 (rings n)) (messages n) (issued n) (heard n)) (removed b) →
    beat_step b b'.
Definition beats_start : beats := mkBeats start [].
(** These are the steps of the store: its [CAS] shows the visible ring, and merges what
    its function returns, with [localCAS] if there was a ring; what it receives is
    merged without; either may then remove tombstones. *)
Lemma store_get `{R : MapRange} (m : gmap string (valueDesc Desc)) key d ver codec :
  m !! key = Some (mkValueDesc (Some d) ver codec) → get m key = (Some (visible d), ver).
Proof. intros Hm. unfold get. by rewrite Hm. Qed.
Lemma store_merge `{R : MapRange} lit (m : gmap string (valueDesc Desc)) key d o ver casVersion codec0 codec now nowLimit m' r :
  m !! key = Some (mkValueDesc (Some d) ver codec0) → casVersion = 0 ∨ casVersion = ver ∧ 0 < ver →
  mergeValueForKey lit m key o casVersion codec now nowLimit = (m', r) →
  let d' := merged d o (bool_decide (0 < casVersion)) now in
  (value <$> m' !! key) = Some (Some d') ∨ (value <$> m' !! key) = Some (Some (RemoveTombstones d' (nowLimit - lit)).1).
Proof.
  intros Hm Hv. unfold mergeValueForKey. rewrite Hm. cbn [from_option value version id].
  assert (bool_decide (0 < casVersion) && bool_decide (ver ≠ casVersion) = false) as ->.
  { destruct Hv as [->|[-> _]]; [done|]. apply andb_false_iff. right. apply bool_decide_eq_false_2. naive_solver. }
  simpl. set (d' := merged d o (bool_decide (0 < casVersion)) now).
  assert (∀ x, store_in_place m key x = <[key := mkValueDesc (Some x) ver codec0]> m) as Hp by (intros x; unfold store_in_place; by rewrite Hm).
  rewrite !Hp. destruct (merge_change _ _ _ _) as [[change|]|e]; cbn zeta.
  - case_bool_decide; [intros [= <- _]; left; by rewrite lookup_insert_eq|].
    destruct (bool_decide (0 < lit)); simpl.
    + case_bool_decide; intros [= <- _]; right; rewrite ?lookup_insert_eq; [|done].
      unfold store_in_place. rewrite lookup_insert_eq. simpl. by rewrite lookup_insert_eq.
    + intros [= <- _]. left. by rewrite lookup_insert_eq.
  - intros [= <- _]. left. by rewrite lookup_insert_eq.
  - intros [= <- _]. left. by rewrite lookup_insert_eq.
Qed.
(** the heartbeat of a lifecycler is a CAS that changes its own entry and removes
    nothing *)
Lemma visible_lookup `{R : MapRange} d k : Ingesters (visible d) !! k =
  match Ingesters d !! k with Some i => if bool_decide (State i = LEFT) then None else Some i | None => None end.
Proof.
  unfold visible. rewrite RemoveTombstones_lookup. destruct (Ingesters d !! k) as [i|]; [|done].
  unfold expired. simpl. by rewrite andb_true_r.
Qed.
Lemma heartbeat_is_write `{R : MapRange} (l : Lifecycler) (e : env) (d : Desc) :
  let o := heartbeat l e (visible d) in let mine := heartbeat_entry l e (Ingesters (visible d) !! ID l) in
  (∀ k i, (k, i) ∈ changes d o → k = ID l ∧ i = mine) ∧ removals d o true = [] ∧
  Ingesters o !! ID l = Some mine ∧ Timestamp mine = time_Unix (now e) ∧ State mine = state l.
Proof.
  intros o mine. assert (∀ k, k ≠ ID l → Ingesters o !! k = Ingesters (visible d) !! k) as Hne by (intros k Hk; by apply lookup_insert_ne).
  assert (Ingesters o !! ID l = Some mine) as Hl by apply lookup_insert_eq. split_and!; [| |done..].
  - intros k i [Hn Hi%elem_of_map_to_list]%list_elem_of_filter. simpl in Hn. destruct (decide (k = ID l)) as [->|Hk]; [split; [done|]; rewrite Hl in Hi; by injection Hi|].
    destruct Hn. rewrite Hne, visible_lookup in Hi by done. destruct (Ingesters d !! k); [|done]. by case_bool_decide.
  - apply elem_of_nil_inv. intros [k i] [(_ & Ho & Hs) Hd%elem_of_map_to_list]%list_elem_of_filter. cbn [fst snd] in Ho, Hs.
    destruct (decide (k = ID l)) as [->|Hk]; [by rewrite Hl in Ho|]. rewrite Hne, visible_lookup, Hd in Ho by done. by rewrite bool_decide_eq_false_2 in Ho.
Qed.

(** ** One entry through a merge *)
(** the same but for the tokens *)
Definition same_entry (i i' : InstanceDesc) : Prop :=
  Addr i' = Addr i ∧ Timestamp i' = Timestamp i ∧ State i' = State i ∧ Zone i' = Zone i ∧ RegisteredTimestamp i' = RegisteredTimestamp i.
Lemma same_entry_trans i1 i2 i3 : same_entry i1 i2 → same_entry i2 i3 → same_entry i1 i3.
Proof. unfold same_entry. naive_solver congruence. Qed.
Lemma set_Tokens_same ts i : same_entry i (set_Tokens ts i).
Proof. done. Qed.

(** an entry of the merge comes from one of the two rings, or has been removed *)
Lemma merged_origin `{R : MapRange} d o localCAS now k i' :
  Ingesters (merged d o localCAS now) !! k = Some i' →
  ∃ i, same_entry i i' ∧ (Ingesters d !! k = Some i ∨ Ingesters o !! k = Some i ∨
    ∃ i0, Ingesters d !! k = Some i0 ∧ removed_by o localCAS k i0 ∧ i = left_instance now i0).
Proof.
  intros Hm. assert ((localCAS = false ∨ is_Some (Ingesters o !! k) ∨ (∀ i, Ingesters d !! k = Some i → State i = LEFT)) ∨
    ∃ i0, Ingesters d !! k = Some i0 ∧ removed_by o localCAS k i0) as Hc.
  { destruct localCAS; [|by auto]. destruct (Ingesters o !! k) as [oi|] eqn:Ho; [left; right; left; eauto|].
    destruct (Ingesters d !! k) as [i|] eqn:Hd; [|left; right; right; done]. destruct (decide (State i = LEFT)); [left; right; right; congruence|right].
    exists i. split; [done|]. by split_and!. }
  destruct Hc as [Hk|(i0 & Hi0 & Hrem)].
  - destruct (merged_entry d o localCAS now k Hk) as [ts Hts]. rewrite Hts in Hm.
    destruct (join _ _ !! k) as [i|] eqn:Hj; simpl in Hm; [|done]. injection Hm as <-.
    destruct (lookup_join_or _ _ _ _ Hj) as [Hd|Ho]; [exists i; split; [done|by left]|]. rewrite lookup_fmap in Ho.
    destruct (Ingesters o !! k) as [oi|] eqn:E; simpl in Ho; [|done]. injection Ho as <-. exists oi. split; [done|]. right. by left.
  - destruct (merged_newer d o localCAS now k i0 (or_introl Hi0)) as (i1 & Hi1 & Hc). rewrite decide_True in Hc by done.
    subst i1. rewrite Hm in Hi1. injection Hi1 as ->. eexists. split; [done|]. right. right. eauto.
Qed.

(** ** The entries of one instance *)
Section instance.
Variable k : string.
(** the heartbeat in question has the timestamp [T]; the instance has not left since,
    and no CAS has removed an entry of it as new as that *)
Variable T : Z.
Definition staying (b : beats) : Prop :=
  (∀ i, (k, i) ∈ issued (net b) → T ≤ Timestamp i → State i ≠ LEFT) ∧ (∀ i, (k, i) ∈ removed b → Timestamp i < T).

Definition from_issued (n : network) (m : gmap string InstanceDesc) : Prop :=
  ∀ i', m !! k = Some i' → ∃ i, (k, i) ∈ issued n ∧ same_entry i i'.
Record origin_inv (n : network) : Prop := {
  oi_rings : ∀ j, from_issued n (Ingesters (rings n j));
  oi_messages : ∀ d, d ∈ messages n → from_issued n (Ingesters d)
}.
(** a node that has heard an entry since has one at least as new *)
Definition heard_inv (n : network) : Prop :=
  ∀ j i, (k, i) ∈ heard n j → T ≤ Timestamp i → ∃ i', Ingesters (rings n j) !! k = Some i' ∧ Timestamp i ≤ Timestamp i'.

Lemma grows b b' : beat_step b b' → issued (net b) ⊆ issued (net b') ∧ removed b ⊆ removed b'.
Proof. intros [R j o localCAS now n d ->|j o n _ ->|j m n _ ->|R j d now n _ ->|j d n _ _ ->|R j limit n ->]; simpl; set_solver. Qed.
Lemma staying_before b b' : rtc beat_step b b' → staying b' → staying b.
Proof.
  induction 1 as [|b1 b2 b3 [Hi Hr]%grows _ IH]; [done|]. intros [H1 H2]%IH. split; intros i Hin; [by apply H1, Hi|by apply H2, Hr].
Qed.
Lemma from_issued_mono n n' m : issued n ⊆ issued n' → from_issued n m → from_issued n' m.
Proof. intros Hi Hm i' (i & Hin & Hs)%Hm. exists i. split; [by apply Hi|done]. Qed.
Lemma from_issued_list n o : map_to_list (Ingesters o) ⊆ issued n → from_issued n (Ingesters o).
Proof. intros Hs i' Hi'%elem_of_map_to_list. exists i'. split; [by apply Hs|done]. Qed.
Lemma from_issued_change n d o : changes d o ⊆ issued n → from_issued n (Ingesters d) → from_issued n (Ingesters o).
Proof.
  intros Hs Hd i' Hi'. destruct (decide (Ingesters d !! k = Some i')) as [Hsame|Hne]; [by apply Hd|].
  exists i'. split; [|done]. apply Hs, list_elem_of_filter. split; [done|]. by apply elem_of_map_to_list.
Qed.
Lemma from_issued_merged `{R : MapRange} n d o localCAS now :
  from_issued n (Ingesters d) → from_issued n (Ingesters o) → tombstones now (removals d o localCAS) ⊆ issued n →
  from_issued n (Ingesters (merged d o localCAS now)).
Proof.
  intros Hd Ho Ht i' (i & Hs & Hi)%merged_origin.
  assert (∃ x, (k, x) ∈ issued n ∧ same_entry x i) as (x & Hx & Hxi); [|exists x; split; [done|by eapply same_entry_trans]].
  destruct Hi as [Hi|[Hi|(i0 & Hi0 & Hrem & ->)]]; [by apply Hd|by apply Ho|]. eexists. split; [|done].
  apply Ht. unfold tombstones. apply list_elem_of_fmap. exists (k, i0). split; [done|]. apply list_elem_of_filter.
  split; [done|]. by apply elem_of_map_to_list.
Qed.

Lemma origin_step b b' : origin_inv (net b) → beat_step b b' → origin_inv (net b').
Proof.
  intros [H1 H2] Hs. pose proof (proj1 (grows b b' Hs)) as Hg.
  assert (∀ j, from_issued (net b') (Ingesters (rings (net b) j))) as H1' by (intros j; by eapply from_issued_mono).
  assert (∀ d, d ∈ messages (net b) → from_issued (net b') (Ingesters d)) as H2' by (intros d Hd; eapply from_issued_mono; eauto).
  assert (∀ j x, from_issued (net b') (Ingesters x) → ∀ j', from_issued (net b') (Ingesters (upd j x (rings (net b)) j'))) as Hupd.
  { intros j x Hx j'. unfold upd. by destruct (decide (j' = j)). }
  clear H1 H2. destruct Hs as [R j o localCAS now n d ->|j o n He ->|j m n Hm ->|R j d now n Hd ->|j d n He Hd ->|R j limit n ->];
    constructor; try exact H2'; try exact H1'; try apply Hupd.
  - apply from_issued_merged; [apply H1'|apply (from_issued_change _ d); [simpl; set_solver|apply H1']|simpl; set_solver].
  - apply from_issued_list. simpl. set_solver.
  - intros d [Hd|Hd]%elem_of_app; [by apply H2'|]. apply list_elem_of_singleton in Hd as ->.
    intros i' Hi'. apply (H1' j). by eapply lookup_weaken.
  - apply from_issued_merged; [apply H1'|by apply H2'|]. intros e He. unfold tombstones, removals in He.
    apply list_elem_of_fmap in He as ([k' i'] & _ & [([=] & _) _]%list_elem_of_filter).
  - by apply H2'.
  - intros i'. rewrite RemoveTombstones_lookup. destruct (Ingesters (rings n j) !! k) as [i1|] eqn:Hi1; [|done].
    destruct (expired limit i1); [done|]. intros [= <-]. by apply (H1' j).
Qed.

Lemma heard_step b b' : 0 < T → staying b' → origin_inv (net b) → heard_inv (net b) → beat_step b b' → heard_inv (net b').
Proof.
  intros HT [Hst Hrm] [H1 H2] Hh Hs j' i.
  destruct Hs as [R j o localCAS now n d ->|j o n He ->|j m n Hm ->|R j d now n Hd ->|j d n He Hd ->|R j limit n ->];
    simpl in *; unfold upd; try (destruct (decide (j' = j)) as [->|_]; [|by apply Hh]); try by apply Hh.
  - intros [Hin|Hin]%elem_of_app Hi.
    + destruct (Hh j i Hin Hi) as (i1 & Hi1 & Hle).
      destruct (merged_newer d o localCAS now k i1 (or_introl Hi1)) as (i' & Hi' & Hc). exists i'. split; [done|].
      destruct (decide _) as [Hrem|_]; [|lia]. exfalso. assert (Timestamp i1 < T); [|lia].
      apply Hrm, elem_of_app. right. apply list_elem_of_filter. split; [done|]. by apply elem_of_map_to_list.
    + apply elem_of_map_to_list in Hin. destruct (merged_newer d o localCAS now k i) as (i' & Hi' & Hc); [right; split; [done|lia]|].
      exists i'. split; [done|]. destruct (decide _) as [(_ & Ho & _)|_]; [congruence|lia].
  - intros [Hin|Hin]%elem_of_app Hi; [|apply elem_of_map_to_list in Hin; by exists i].
    destruct (Hh j i Hin Hi) as (i1 & Hi1 & _). unfold n in He. by rewrite He in Hi1.
  - assert (∀ i, Ingesters (rings n j) !! k = Some i ∨ (Ingesters d !! k = Some i ∧ 0 < Timestamp i) →
      ∃ i', Ingesters (merged (rings n j) d false now) !! k = Some i' ∧ Timestamp i ≤ Timestamp i') as Hnew.
    { intros x Hx. destruct (merged_newer _ _ false now k x Hx) as (i' & Hi' & Hc). exists i'. split; [done|].
      destruct (decide _) as [[[=] _]|_]; lia. }
    intros [Hin|Hin]%elem_of_app Hi.
    + destruct (Hh j i Hin Hi) as (i1 & Hi1 & Hle). destruct (Hnew i1 (or_introl Hi1)) as (i' & ? & ?). exists i'. split; [done|lia].
    + apply elem_of_map_to_list in Hin. apply Hnew. right. split; [done|lia].
  - intros [Hin|Hin]%elem_of_app Hi; [|apply elem_of_map_to_list in Hin; by exists i].
    destruct (Hh j i Hin Hi) as (i1 & Hi1 & _). unfold n in He. by rewrite He in Hi1.
  - intros Hin Hi. destruct (Hh j i Hin Hi) as (i1 & Hi1 & Hle). exists i1. split; [|done]. rewrite RemoveTombstones_lookup.
    unfold n. rewrite Hi1. destruct (H1 j i1 Hi1) as (i2 & Hi2 & (_ & Ht & Hs & _)).
    unfold expired. rewrite (bool_decide_eq_false_2 (State i1 = LEFT)); [done|]. rewrite Hs. apply Hst; [done|lia].
Qed.

Lemma origin_reachable b : rtc beat_step beats_start b → origin_inv (net b).
Proof.
  assert (∀ b0 b1, rtc beat_step b0 b1 → origin_inv (net b0) → origin_inv (net b1)) as H
    by (intros b0 b1 Hr; induction Hr as [|b0 b2 b1 Hs _ IH]; [done|]; intros Hi; by eapply IH, origin_step).
  intros Hr. apply (H _ _ Hr). constructor; [intros j i'; simpl; by rewrite lookup_empty|]. intros d Hd. by apply elem_of_nil in Hd.
Qed.
Lemma heard_reachable b : 0 < T → staying b → rtc beat_step beats_start b → heard_inv (net b).
Proof.
  intros HT Hst Hr. assert (∀ b0, rtc beat_step b0 b → origin_inv (net b0) → heard_inv (net b0) → heard_inv (net b)) as H.
  { clear Hr. intros b0 Hr. induction Hr as [|b0 b1 b Hs Hr IH]; [done|]. intros Ho Hh. apply IH; [done|by eapply origin_step|].
    eapply (heard_step b0); [done|by eapply staying_before|done..]. }
  apply (H beats_start Hr); [by apply origin_reachable|]. intros j i Hin. by apply elem_of_nil in Hin.
Qed.
End instance.

(** ** Health *)
Definition slack : Z := Second - 1.      (* heartbeats are stored in whole seconds *)
Lemma time_Sub_le now u d : minDuration ≤ d < maxDuration → time_Sub now u ≤ d ↔ now - u ≤ d.
Proof. unfold time_Sub, minDuration, maxDuration. lia. Qed.
Lemma whole_seconds t : t - slack ≤ time_of_Unix (time_Unix t) ≤ t.
Proof.
  unfold time_of_Unix, time_Unix, slack. pose proof (Z.div_mod t Second). pose proof (Z.mod_pos_bound t Second). unfold Second in *. lia.
Qed.
Lemma time_of_Unix_mono a b : a ≤ b → time_of_Unix a ≤ time_of_Unix b.
Proof. unfold time_of_Unix, Second. lia. Qed.
Lemma fresh_is_healthy i timeout now t : minDuration ≤ timeout ≤ maxDuration →
  time_Unix t ≤ Timestamp i → timeout = 0 ∨ now - t + slack ≤ timeout → IsHeartbeatHealthy i timeout now = true.
Proof.
  intros Hr Hi Hn. unfold IsHeartbeatHealthy. case_bool_decide; [done|]. destruct Hn as [?|Hn]; [done|]. apply bool_decide_eq_true.
  assert (now - time_of_Unix (Timestamp i) ≤ timeout) by (pose proof (whole_seconds t); apply time_of_Unix_mono in Hi; lia).
  unfold time_Sub. lia.
Qed.
Lemma stale_is_unhealthy i timeout now t :
  timeout ≠ 0 → minDuration ≤ timeout < maxDuration → Timestamp i ≤ time_Unix t → t + timeout < now → IsHeartbeatHealthy i timeout now = false.
Proof.
  intros H0 Hr Hi Hn. unfold IsHeartbeatHealthy. rewrite bool_decide_eq_false_2 by lia. apply bool_decide_eq_false.
  rewrite time_Sub_le by done. pose proof (whole_seconds t). apply time_of_Unix_mono in Hi. lia.
Qed.

(** what the queries of a ring client return *)
Section queries.
Context `{R : MapRange}.
Inductive answer (r : subring) (op : Operation) (now : Z) (rs : ReplicationSet) : Prop :=
| by_key key : strategy r = defaultReplicationStrategy_Filter → Get r key op now = Ok rs → answer r op now rs
| by_all : GetAllHealthy r op now = Ok rs → answer r op now rs
| by_operation : GetReplicationSetForOperation r op now = Ok rs → answer r op now rs.

Lemma elem_of_GetAllHealthy r op now i :
  (∃ rs, GetAllHealthy r op now = Ok rs ∧ i ∈ Instances rs) ↔ Ring_IsHealthy r i op now = true ∧ ∃ k, Ingesters (ringDesc r) !! k = Some i.
Proof.
  assert (∀ l acc, foldl (λ instances '((_, instance) : string * InstanceDesc),
    if Ring_IsHealthy r instance op now then instances ++ [instance] else instances) acc l
    = acc ++ filter (λ i, Ring_IsHealthy r i op now = true) l.*2) as Hf.
  { intros l acc. rewrite <- foldl_collect. revert acc. induction l as [|[k x] l IH]; intros acc; simpl; [done|]. apply IH. }
  unfold GetAllHealthy. rewrite Hf. simpl. case_bool_decide as Hs.
  - split; [by intros (? & ? & _)|]. intros (_ & k & Hk). apply map_size_empty_inv in Hs. by rewrite Hs, lookup_empty in Hk.
  - transitivity (i ∈ filter (λ i, Ring_IsHealthy r i op now = true) (map_range 433 (Ingesters (ringDesc r))).*2).
    + split; [by intros (rs & [= <-] & Hi)|eauto].
    + rewrite list_elem_of_filter. split; intros [Hh Hi]; (split; [done|]).
      * apply list_elem_of_fmap in Hi as ([k x] & -> & Hi). exists k. by apply map_range_elem in Hi.
      * destruct Hi as [k Hk]. apply list_elem_of_fmap. exists (k, i). split; [done|]. by apply map_range_elem.
Qed.
Lemma answer_healthy r op now rs i : answer r op now rs → i ∈ Instances rs → Ring_IsHealthy r i op now = true.
Proof.
  intros [key Hst Hg|Hg|Hg] Hi.
  - unfold Get in Hg. case_bool_decide; [done|]. destruct (Get_loop _ _ _ _ _) as [acc|e]; [|done].
    rewrite Hst, default_Filter_spec in Hg. case_bool_decide; [done|]. injection Hg as <-. simpl in Hi.
    by apply list_elem_of_filter in Hi as [Hh _].
  - apply (elem_of_GetAllHealthy r op now i). eauto.
  - unfold GetReplicationSetForOperation in Hg. case_bool_decide; [done|].
    pose proof (healthy_and_failures_spec r op now) as Hhf. destruct (healthy_and_failures r op now) as [h z]. destruct Hhf as [Hh _].
    assert (i ∈ h → Ring_IsHealthy r i op now = true) as Hin by (rewrite Hh; by intros [? _]%list_elem_of_filter).
    destruct (ZoneAwarenessEnabled (cfg r)).
    + destruct (bool_decide (_ < Z.of_nat (size z))); [done|]. injection Hg as <-. simpl in Hi.
      case_bool_decide; [apply list_elem_of_filter in Hi as [_ Hi]|]; auto.
    + destruct (bool_decide (Z.of_nat (length _) < _)); [done|]. injection Hg as <-. auto.
Qed.
End queries.

(** C3. A ring client sees an instance exactly as its heartbeats say.  However
    functions of CAS change the rings of the nodes, entries are removed, rings sent,
    merged in any order and tombstones forgotten, and a ring client has the ring of
    one of the nodes:
    - if a heartbeat written at a time [t] has reached the node, no CAS anywhere has
      removed an entry of the instance as new as that, and the entries written for it
      since are in states the operation takes for healthy, and not LEFT, then its entry
      is there, as new as the heartbeat, healthy, and among those that [GetAllHealthy]
      returns, until the timeout, less the second in which the heartbeat was rounded,
      has passed since [t], or for ever if the timeout is 0;
    - if no entry later than [t], but for tombstones, has been written for it, and the
      timeout, not 0, has passed since [t], its entry is unhealthy, and no query
      returns it. *)
Theorem failure_detector `{R : MapRange} (k : string) (b : beats) (j : nat) (r : subring) (op : Operation) (now' t : Z) :
  rtc beat_step beats_start b → ringDesc r = visible (rings (net b) j) → minDuration ≤ HeartbeatTimeout (cfg r) < maxDuration →
  (∀ beat, (k, beat) ∈ heard (net b) j → Timestamp beat = time_Unix t → 0 < time_Unix t →
     (∀ i, (k, i) ∈ issued (net b) → time_Unix t ≤ Timestamp i → IsInstanceInStateHealthy op (State i) = true ∧ State i ≠ LEFT) →
     (∀ i, (k, i) ∈ removed b → Timestamp i < time_Unix t) →
     HeartbeatTimeout (cfg r) = 0 ∨ now' - t + slack ≤ HeartbeatTimeout (cfg r) →
     ∃ i rs, Ingesters (ringDesc r) !! k = Some i ∧ time_Unix t ≤ Timestamp i ∧ Ring_IsHealthy r i op now' = true ∧
       GetAllHealthy r op now' = Ok rs ∧ i ∈ Instances rs) ∧
  ((∀ i, (k, i) ∈ issued (net b) → State i ≠ LEFT → Timestamp i ≤ time_Unix t) →
     HeartbeatTimeout (cfg r) ≠ 0 → t + HeartbeatTimeout (cfg r) < now' →
     ∀ i, Ingesters (ringDesc r) !! k = Some i →
       Ring_IsHealthy r i op now' = false ∧ ∀ rs, answer r op now' rs → i ∉ Instances rs).
Proof.
  intros Hr Hd Hto. pose proof (origin_reachable k b Hr) as [H1 _]. split.
  - intros beat Hin Hbt Hpos Hop Hrm Hn.
    assert (staying k (time_Unix t) b) as Hst by (split; [intros i Hi Hle; by apply (Hop i Hi Hle)|done]).
    destruct (heard_reachable k (time_Unix t) b Hpos Hst Hr j beat Hin) as (i & Hi & Hle); [lia|].
    destruct (H1 j i Hi) as (i0 & Hi0 & (_ & Hti & Hsi & _)). destruct (Hop i0 Hi0) as [Hopi Hl]; [lia|].
    assert (Ingesters (ringDesc r) !! k = Some i) as Hvis by (rewrite Hd, visible_lookup, Hi; rewrite bool_decide_eq_false_2; congruence).
    assert (Ring_IsHealthy r i op now' = true) as Hh.
    { unfold Ring_IsHealthy, IsHealthy. rewrite Hsi, Hopi. apply (fresh_is_healthy i _ now' t); [lia|lia|done]. }
    destruct (proj2 (elem_of_GetAllHealthy r op now' i)) as (rs & Hg & Hrs); [eauto|]. exists i, rs. split_and!; try done. lia.
  - intros Hlast H0 Hn i Hvis. rewrite Hd, visible_lookup in Hvis. destruct (Ingesters (rings (net b) j) !! k) as [x|] eqn:Hi; [|done].
    case_bool_decide as Hl; [done|]. injection Hvis as ->. destruct (H1 j i Hi) as (i0 & Hi0 & (_ & Hti & Hsi & _)).
    assert (Ring_IsHealthy r i op now' = false) as Hh.
    { unfold Ring_IsHealthy, IsHealthy. rewrite (stale_is_unhealthy i _ now' t); [by rewrite andb_false_r|done|done| |done].
      rewrite Hti. apply Hlast; [done|congruence]. }
    split; [done|]. intros rs Hrs Hin. rewrite (answer_healthy r op now' rs i) in Hh; done.
Qed.

(** ** Witness: an instance that joins, beats, and forgets another, seen by another node *)
Section witness.
#[local] Existing Instance map_range_std.
Definition ex_beating : Lifecycler := ex_lc ACTIVE [5; 15].
(** the rings the functions of two CAS return on node 0 *)
Definition ex_joining_ring : Desc := mkDesc {["n" := ex_inst "addr-n" "z1" 100 JOINING []; "old" := ex_inst "addr-o" "z1" 10 ACTIVE [7]]}.
Definition ex_beat_ring : Desc := mkDesc (delete "old" (Ingesters (heartbeat ex_beating ex_env (visible ex_joining_ring)))).
Definition ex_beat_entry : InstanceDesc := ingester ex_beat_ring "n".
Definition ex_beat_node : Desc := merged ex_joining_ring ex_beat_ring true (110 * Second).
Definition ex_reached_node : Desc := merged NewDesc (mkDesc {["n" := ex_beat_entry]}) false 0.
Definition ex_cas_start : beats :=
  mkBeats (mkNetwork (upd 0%nat ex_joining_ring (λ _, NewDesc)) [] (map_to_list (Ingesters ex_joining_ring))
    (upd 0%nat (map_to_list (Ingesters ex_joining_ring)) (λ _, []))) [].
Definition ex_removed : list entry := removals ex_joining_ring ex_beat_ring true.
Definition ex_beats : beats := mkBeats
  (mkNetwork (upd 1%nat ex_reached_node (upd 0%nat ex_beat_node (upd 0%nat ex_joining_ring (λ _, NewDesc))))
    [mkDesc {["n" := ex_beat_entry]}]
    (map_to_list (Ingesters ex_joining_ring) ++ changes ex_joining_ring ex_beat_ring ++ tombstones (110 * Second) ex_removed)
    (upd 1%nat (map_to_list {["n" := ex_beat_entry]})
      (upd 0%nat (map_to_list (Ingesters ex_joining_ring) ++ map_to_list (Ingesters ex_beat_ring))
        (upd 0%nat (map_to_list (Ingesters ex_joining_ring)) (λ _, []))))) ex_removed.
Lemma ex_beats_reachable : rtc beat_step beats_start ex_beats.
Proof.
  eapply rtc_l; [apply (b_first _ _ 0%nat ex_joining_ring); reflexivity|].
  eapply rtc_l; [apply (b_cas _ _ map_range_std 0%nat ex_beat_ring true (110 * Second)); reflexivity|].
  eapply rtc_l; [apply (b_send _ _ 0%nat {["n" := ex_beat_entry]}); [|reflexivity]; apply map_singleton_subseteq_l; vm_compute; reflexivity|].
  eapply rtc_l; [apply (b_deliver _ _ map_range_std 1%nat (mkDesc {["n" := ex_beat_entry]}) 0); [by left|reflexivity]|]. apply rtc_refl.
Qed.
Lemma all_entries (l : list entry) (k : string) (P : InstanceDesc → Prop) `{∀ i, Decision (P i)} :
  forallb (λ e, bool_decide (e.1 = k → P e.2)) l = true → ∀ i, (k, i) ∈ l → P i.
Proof.
  rewrite forallb_forall. intros Hl i Hi%list_elem_of_In. specialize (Hl _ Hi). by apply bool_decide_eq_true in Hl; apply Hl.
Qed.
Definition ex_seen_by : subring := sub (updateRingState ex_reached_node (110 * Second) (110 * Second) (ex_Ring false)).

Lemma failure_detector_witness :
  HeartbeatTimeout (cfg ex_seen_by) = 60 * Second ∧
  (∃ i rs, Ingesters (ringDesc ex_seen_by) !! "n" = Some i ∧ 110 ≤ Timestamp i ∧ Ring_IsHealthy ex_seen_by i Write (169 * Second) = true ∧
     GetAllHealthy ex_seen_by Write (169 * Second) = Ok rs ∧ i ∈ Instances rs) ∧
  (∀ i, Ingesters (ringDesc ex_seen_by) !! "n" = Some i → Ring_IsHealthy ex_seen_by i Write (171 * Second) = false).
Proof.
  assert (ringDesc ex_seen_by = visible (rings (net ex_beats) 1%nat)) as Hd by (vm_compute; reflexivity).
  assert (minDuration ≤ HeartbeatTimeout (cfg ex_seen_by) < maxDuration) as Ht by (split; vm_compute; [discriminate|reflexivity]).
  split; [vm_compute; reflexivity|]. split.
  - apply (proj1 (failure_detector "n" ex_beats 1 ex_seen_by Write (169 * Second) (110 * Second) ex_beats_reachable Hd Ht) ex_beat_entry).
    + simpl. rewrite map_to_list_singleton. by left.
    + vm_compute. reflexivity.
    + vm_compute. reflexivity.
    + apply (all_entries (issued (net ex_beats)) "n"
        (λ i, time_Unix (110 * Second) ≤ Timestamp i → IsInstanceInStateHealthy Write (State i) = true ∧ State i ≠ LEFT)).
      vm_compute. reflexivity.
    + apply (all_entries (removed ex_beats) "n" (λ i, Timestamp i < time_Unix (110 * Second))). vm_compute. reflexivity.
    + right. vm_compute. discriminate.
  - intros i Hi.
    apply (proj2 (failure_detector "n" ex_beats 1 ex_seen_by Write (171 * Second) (110 * Second) ex_beats_reachable Hd Ht)); [| | |exact Hi].
    + apply (all_entries (issued (net ex_beats)) "n" (λ i, State i ≠ LEFT → Timestamp i ≤ time_Unix (110 * Second))). vm_compute. reflexivity.
    + vm_compute. discriminate.
    + vm_compute. reflexivity.
Defined.

(** The second in which a heartbeat is rounded counts: with a timeout of one second an
    instance is taken for unhealthy two milliseconds after it has sent a heartbeat. *)
Lemma rounded_heartbeat :
  let e := mkEnv (110 * Second + 999 * Millisecond) [] NoFault in
  let sent := heartbeat_entry ex_beating e None in
  IsHealthy sent Write Second (now e + 1 * Millisecond) = true ∧
  IsHealthy sent Write Second (now e + 2 * Millisecond) = false.
Proof. split; vm_compute; reflexivity. Qed.

(** A removal is stamped with the clock of the node that removes: on a node whose clock
    is behind the heartbeat it removes, the tombstone is older than the heartbeat, and
    a node that still has the entry takes it back. *)
Lemma removal_behind_clock :
  let d := mkDesc {["n" := ex_inst "addr-n" "z1" 100 ACTIVE [7]]} in
  let d' := merged d NewDesc true (90 * Second) in
  Ingesters d' !! "n" = Some (ex_inst "addr-n" "z1" 90 LEFT []) ∧
  Ingesters (merged d' d false (91 * Second)) !! "n" = Some (ex_inst "addr-n" "z1" 100 ACTIVE [7]).
Proof. split; vm_compute; reflexivity. Qed.
End witness.
